(* ===== verification/_CoqProject ===== *)
-Q . S2P
Prelude.v
RustStd.v
Externals.v
Safely.v
Reference.v
Wire.v
Directory.v
FarSpec.v
FarRefine.v
FarInvariant.v
FarWorld.v
FarProperties.v
Serve.v
ServeProperties.v
Sessions.v
Unpoisoned.v
Replies.v
FarTypes.v
Client.v
Site.v
Session.v
Contract.v
Loopback.v
ClientProperties.v
Connect.v
ConnectProperties.v
Ends.v
Network.v
NetworkProperties.v
Connection.v
Unpanicking.v
ConnectionProperties.v
Deliveries.v
Receives.v
Settles.v
Listener.v
ListenerProperties.v
Transport.v
Round.v
TransportProperties.v
Receipts.v
RoundProperties.v
Fixture.v
UnitTests.v
NetTests.v
Returns.v
Arrivals.v
ArrivalsProperties.v
ArrivalsLiveness.v
ArrivalsSettles.v
