(* ===== verification/Prelude.v ===== *)
(** * The SFTP transport

    A Rocq development beside xmip-core-transport-sftp: files that arrive and
    leave over SFTP version 3 (draft-ietf-secsh-filexfer-02), by a client that
    puts, lists, claims and reads them, and a far end that holds a directory
    in memory and answers.  Paths are the crate's, under src/.

    ** The program's parts and where they are modelled

    - src/subsystem.rs, the wire vocabulary: [Wire] (constants, [frame],
      [code], [entries], [stamp], [status_error], [utf8]).
    - src/subsystem.rs, [Sftp]: [Client], one definition per method, over the
      state of the code (the channel and the next request number).
    - src/site.rs, [SftpSite] and [Sftp]'s requests for the claim: [Site].
    - src/directory.rs, the far end's state, clock, handles and answer:
      [Directory], one handler per request, [answer] with the code's dispatch.
    - src/directory.rs, [serve], and src/server.rs: [Serve] ([serve],
      [serve_session], [serve_chosen], [serve_directory], [serve_channels]).
    - src/client.rs: [Connect] ([Credential], [connect], [with_subsystem],
      [client_put]).
    - src/connection.rs: [Connection] ([Line], [with_line], [line_usable],
      [reading], [answering], [harvesting], [harvest], [Fetch], [next_chunk],
      and the line among its owners, [lending_step]: the steps of
      [Connection::with], [harvest] and the harvest's thread), and [Arrivals]:
      the harvest's thread among the threads that own its arrivals, with
      [told], [finish] and the bodies, over the channels between them, to where
      the client is back on the line and the thread ends ([harvest_step]).
    - src/server.rs, [serving] and [serving_each]: [Listener], a connection as
      a machine that takes a turn at a time ([turn]) and a listener's
      connections as an interleaving of turns ([farm_step]).
    - src/lib.rs: [Transport] (how a transport is built and what it declares,
      [resolve], [last_segment], [presented]; [receive_up_to], [send_from] and
      [with_site] over the connections its pool keeps).
    - src/loopback.rs: [Round] ([far_end], [far_take], [arrival], [send_to]).
    - src/fixture.rs: [Fixture].  The unit tests: [UnitTests] those that open
      no socket, [NetTests] those of the others that connect, log in, put and
      pin, each a program over the model that the kernel evaluates.

    The client calls the far end only through bytes on a channel.  [Session]
    states what a channel to a served directory promises as a class, [Served],
    and every end-to-end theorem of the client is proved against it.  The far
    end is proved to refine a specification without bytes ([FarSpec.execute]);
    [Session] uses that refinement to turn each exchange of the client into
    one step of the specification ([asks]).  [Loopback] discharges [Served]
    with the far end's answers in place.

    A connection is put together the same way.  [Sessions] states what a
    server's end promises as a class, [Accepting] (what is left of a connection
    is a list of channels, each a list of frames), and proves [serve_chosen]
    against it; [Connect.Reaches] states what a client's end promises, and
    [Connect.Reopens] that what is given back can be used again.  [Ends] puts
    the two together: its laws are what the client's end and the server's end
    of one connection may rely on of the ssh crate between them, and from them
    it makes [Served] and [Reaches] with [serve_session] itself at the other
    end, so that what the client's theorems say was done to the far end,
    [serve_chosen], run over all the client said, has done.  [Network] is a
    line with the two ends on it, the login included and the cryptography left
    out, and keeps those laws ([NetworkProperties]); nothing else is claimed
    of it.
    [Unpanicking] and [Unpoisoned] ask the least of the other end: channels
    about which nothing is known but that their operations answer ([Safely]
    has what they share).

    ** How code becomes Rocq

    A method on [&mut self] is a function of the state that returns an
    [outcome] and the state it leaves, also where it fails ([M]).  [Ok] and
    [Err] are [Result]'s; [Panic] is a panic of the thread; [OutOfFuel] is a
    loop given too few turns, and every theorem about a loop shows that enough
    turns are given: a body of at most MAX_BODY bytes is read within MAX_BODY
    + 1 turns, a listing within two, a channel's packets within one more than
    there are, a connection's channels within one more than there are.  Against
    a server nothing is known of a loop goes on while the server does; there
    [Unpanicking] bounds the turns by 2^32 where an offset could overflow.

    Integers are [N], kept to their widths where the code narrows, wraps,
    saturates or overflows ([RustStd]): [usize] is of a platform's width, 32 to
    64 bits.  A [BTreeMap] is a [gmap] iterated in key order; a
    [Vec<u8>] is a list of bytes; a [String] is a string of bytes, UTF-8 where
    the code checks that it is.

    What this repository does not hold is a class of operations with, beside
    it, a class of the laws it documents: the codec's cursor and writer, the
    ceiling of the net crate, the SSH channel ([Externals]); the body of a
    Message ([Client.Outgoings]); the handshake and the login ([Serve],
    [Connect]); the claim ([Connection.Claims]); the URI reader and the secret
    ([Transport.Surroundings]); the pool of connections ([Transport.Pooling]);
    the listener's thread pool ([Listener.Listening]).  [Reference], [Loopback] and [Network]
    instantiate them with concrete functions, on which every witness evaluates.

    ** Concurrency

    Connections share a directory under a lock, one answer per lock.
    [FarWorld] is the step relation of any number of channels over one
    directory, with the clock free at each step; its theorems are about any
    interleaving.  [Serve] takes what the others did between two locks as an
    argument; [Served] takes it as a rely relation [R].  [Listener.farm_step]
    is the step relation of a listener's threads: a client is accepted, or a
    connection takes a turn.  [ListenerProperties] ties the three together: a
    thread of the farm is [serve_chosen] with the other threads as its
    argument, at the locks it took in the run, and the farm's turns are steps of
    [FarWorld]'s relation.
    [Connection.lending_step] is the step relation of the owners of a kept
    connection, each critical section a step.  [Arrivals.harvest_step] is the
    step relation of a harvest and its arrivals, each send and receive on a
    channel a step; a channel of one item blocks its sender while it is full.

    ** What the theorems show

    - [Wire]: framing is unambiguous; listings read back; no bytes make a
      reader panic; what is read is bounded by what came.
    - [FarProperties]: refinement of the specification for every packet; the
      invariant of every reachable state; an exclusive open is exclusive and a
      rename is won once, whatever the interleaving; what is written is what
      is read; the ceiling holds up to the last 64-bit offset; renames move
      whole files; times are after the writes before them, until a [u32]
      saturates; a listing is the directory.
    - [FarTypes]: a reply is of a type its request allows, under its
      identifier.
    - [ServeProperties]: serving a channel is the specification folded over
      its packets, and ends; nothing is served before a login.
    - [Sessions]: serving a connection, its login and all its channels, is the
      specification folded over the frames of each channel; it ends.
    - [Ends]: whatever files a client puts over a connection are what the
      server it dialed is left with, under that user alone.
    - [Deliveries]: what one client puts over a connection is what another's
      arrival reads over another, and removes.
    - [Receives]: a harvest whose arrivals are all read and accepted hands over
      each claimed file whole and leaves none, by what the claim documents
      ([ClaimLaws]).  [Settles]: whatever the arrivals ask instead, and in
      whatever order, each file ends whole in one place, by its verdict.
    - [Unpanicking]: no bytes a server sends make the client panic, and the
      harvest's thread puts the line back unless the server sends for ever.
      [Unpoisoned]: nothing a client
      sends makes the server panic, and every directory is well formed after.
    - [ListenerProperties]: each thread of a listener is [serve_chosen], the
      others doing between its locks what they did in the run; a directory is
      changed only after a client logged in as a user whose directory it is;
      an exclusive create and a rename are won once among all the clients.
    - [ClientProperties]: a put stores the body and never past the ceiling; a
      file put is read back; an exclusive create, a return, a delete, a stamp
      and a listing do what the claim leans on, while others work.
    - [ConnectProperties]: no secret is said before the key is held to its
      pin; a put over a kept connection stores the body.
    - [ConnectionProperties]: a lent client comes back while no harvest is asked of a lent line, and can be lost
      where one is; a body is the file, a chunk at a time, the handle closed;
      what a harvest says, and in which order.
    - [ArrivalsProperties], [ArrivalsLiveness]: the harvest's thread among its
      arrivals is the function [answering]; every run ends, by a measure that
      each step of any thread lessens; an owner that ended the harvest finds
      the client back on the line; nobody waits for ever where each owner lets
      a body go before it does anything else; where one tells a verdict with
      a file of more than one piece in hand, it and the thread end waiting for
      each other, in every order.
    - [ArrivalsSettles]: whatever the threads that own the arrivals do, and in
      whatever order, a harvest over a kept connection loses none of their
      files.
    - [TransportProperties]: the name a target gives a file; what is presented
      at a login; a send that succeeds put the file.  [Receipts]: a receive
      that succeeds hands back what its claim took of the transport's own
      server, each file once, under its dropped name.
    - [RoundProperties]: what an arrival of the loopback carries; [Returns]:
      over any ssh crate that keeps [Ends], the loopback's far end, serving
      what its near end said, gives back every payload within the ceiling.
    - [UnitTests], [NetTests]: the crate's own tests pass on the model.

    ** What is not modelled

    Sockets, timeouts, memory running out and the scheduling of threads (the
    step relations allow every order); SSH below the channel; which connection
    the pool keeps and when it replaces one (the transport crate's: [PoolingLaws] says only where
    a successful act's connection came from); the counting of verdicts
    ([transport::together]: the owners of [Arrivals] are any scripts, and
    [finishing] the last verdict's); the listener's thread pool; the settings'
    schema; the tests that turn on what the transport crate keeps (the claim's
    memory of what it listed, the pool's count), and the timing program. *)

From stdpp Require Export base gmap strings list pretty sorting.
From Stdlib Require Export Lia NArith.
From Stdlib.Strings Require Byte.

#[export] Set Default Goal Selector "!".

(** ** Outcomes of Rust code

    [Ok] and [Err] are [Result]'s constructors, the error type being the
    parameter [E].  [Panic] is a panic of the thread (an index out of range, a
    slice of another length, an overflow where overflow checks are on).
    [OutOfFuel] is the model's own: a loop that was given fewer turns than it
    takes; every loop has a theorem that enough turns are given. *)
Inductive outcome (E A : Type) : Type :=
  | Ok (a : A)
  | Err (e : E)
  | Panic
  | OutOfFuel.
Arguments Ok {E A} a.
Arguments Err {E A} e.
Arguments Panic {E A}.
Arguments OutOfFuel {E A}.

#[export] Instance outcome_ret {E} : MRet (outcome E) := fun A a => Ok a.
#[export] Instance outcome_bind {E} : MBind (outcome E) := fun A B k m =>
  match m with
  | Ok a => k a
  | Err e => Err e
  | Panic => Panic
  | OutOfFuel => OutOfFuel
  end.

(** ** State passing

    A method on [&mut self]: what it returns, and the state it leaves, also
    where it returns an error. *)
Definition M (S E A : Type) : Type := S → outcome E A * S.

#[export] Instance M_ret {S E} : MRet (M S E) := fun A a s => (Ok a, s).
#[export] Instance M_bind {S E} : MBind (M S E) := fun A B k m s =>
  match m s with
  | (Ok a, s') => k a s'
  | (Err e, s') => (Err e, s')
  | (Panic, s') => (Panic, s')
  | (OutOfFuel, s') => (OutOfFuel, s')
  end.

(** A computation that reads no state, inside one that does. *)
Definition lift {S E A} (o : outcome E A) : M S E A := fun s => (o, s).
Definition gets {S E A} (f : S → A) : M S E A := fun s => (Ok (f s), s).
Definition modify {S E} (f : S → S) : M S E unit := fun s => (Ok tt, f s).
Definition fail {S E A} (e : E) : M S E A := fun s => (Err e, s).

(** [Result::ok] and a [let Ok(_) = .. else]: the error is dropped, the
    state it left is kept; a panic still unwinds. *)
Definition attempt {S E A} (m : M S E A) : M S E (E + A) := fun s =>
  match m s with
  | (Ok a, s') => (Ok (inr a), s')
  | (Err e, s') => (Ok (inl e), s')
  | (Panic, s') => (Panic, s')
  | (OutOfFuel, s') => (OutOfFuel, s')
  end.

Section laws.
Context {S E : Type}.

Lemma bind_ok {A B} (m : M S E A) (k : A → M S E B) s a s' :
  m s = (Ok a, s') → (m ≫= k) s = k a s'.
Proof. unfold mbind, M_bind. by intros ->. Qed.

Lemma bind_err {A B} (m : M S E A) (k : A → M S E B) s e s' :
  m s = (Err e, s') → (m ≫= k) s = (Err e, s').
Proof. unfold mbind, M_bind. by intros ->. Qed.

Lemma bind_inv_ok {A B} (m : M S E A) (k : A → M S E B) s b s'' :
  (m ≫= k) s = (Ok b, s'') → ∃ a s', m s = (Ok a, s') ∧ k a s' = (Ok b, s'').
Proof. unfold mbind, M_bind. destruct (m s) as [[] s'] eqn:?; naive_solver. Qed.

Lemma bind_ret_l {A B} (a : A) (k : A → M S E B) s : (mret a ≫= k) s = k a s.
Proof. done. Qed.

Lemma bind_ret_r {A} (m : M S E A) s : (m ≫= mret) s = m s.
Proof. unfold mbind, M_bind. by destruct (m s) as [[] s']. Qed.

Lemma bind_assoc {A B C} (m : M S E A) (k : A → M S E B) (h : B → M S E C) s :
  ((m ≫= k) ≫= h) s = (m ≫= (λ a, k a ≫= h)) s.
Proof. unfold mbind, M_bind. by destruct (m s) as [[] s']. Qed.

Lemma bind_ext {A B} (m : M S E A) (k k' : A → M S E B) s :
  (∀ a s', k a s' = k' a s') → (m ≫= k) s = (m ≫= k') s.
Proof. intros Hk. unfold mbind, M_bind. destruct (m s) as [[] s']; auto. Qed.

Lemma lift_ok {A B} (a : A) (k : A → M S E B) s : (lift (Ok a) ≫= k) s = k a s.
Proof. done. Qed.
End laws.

Lemma obind_inv_ok {E A B} (m : outcome E A) (k : A → outcome E B) b :
  (m ≫= k) = Ok b → ∃ a, m = Ok a ∧ k a = Ok b.
Proof. destruct m; naive_solver. Qed.

(** Past a step two computations share, in any bracketing. *)
Ltac same_step := rewrite ?bind_assoc; apply bind_ext; intros; cbv beta zeta.

(** ** Lists *)
Lemma elem_of_filter_list {A} (f : A → bool) l x : x ∈ List.filter f l ↔ f x = true ∧ x ∈ l.
Proof. rewrite !list_elem_of_In, List.filter_In. tauto. Qed.

Lemma StronglySorted_filter_list {A} (R : relation A) (f : A → bool) l :
  StronglySorted R l → StronglySorted R (List.filter f l).
Proof.
  induction 1 as [|x l Hl IH Hx]; simpl; [constructor|]. destruct (f x); [|done].
  constructor; [done|]. apply Forall_forall. intros y [_ Hy]%elem_of_filter_list.
  by eapply Forall_forall in Hx.
Qed.

Lemma NoDup_filter_list {A B} (g : A → B) (f : A → bool) l :
  NoDup (g <$> l) → NoDup (g <$> List.filter f l).
Proof.
  induction l as [|x l IH]; simpl; [done|]. intros [Hx Hl]%NoDup_cons. destruct (f x); [|auto].
  apply NoDup_cons. split; [|auto]. intros (y & Hy & [_ Hin]%elem_of_filter_list)%list_elem_of_fmap.
  apply Hx, list_elem_of_fmap. eauto.
Qed.

(** ** Code that answers

    [answers o]: [o] is a value or an error, neither a panic nor a loop cut
    short.  Totality theorems are stated with it. *)
Definition answers {E A} (o : outcome E A) : Prop := (∃ a, o = Ok a) ∨ (∃ e, o = Err e).

Create HintDb sftp discriminated.

Lemma answers_ok {E A} (a : A) : answers (E:=E) (Ok a).
Proof. left. by exists a. Qed.
Lemma answers_ret {E A} (a : A) : answers (E:=E) (mret a).
Proof. apply answers_ok. Qed.
Lemma answers_err {E A} (e : E) : answers (A:=A) (Err e).
Proof. right. by exists e. Qed.
Lemma answers_bind {E A B} (m : outcome E A) (k : A → outcome E B) :
  answers m → (∀ a, m = Ok a → answers (k a)) → answers (m ≫= k).
Proof. intros [[a ->]|[e ->]] Hk; simpl; [by apply Hk|apply answers_err]. Qed.
#[export] Hint Resolve answers_ok answers_ret answers_err : sftp.

(** Walk a computation whose readers answer, one bind or branch at a time. *)
Ltac answers_step :=
  lazymatch goal with
  | |- answers (match ?x with _ => _ end) => destruct x eqn:?
  | |- answers (mbind _ _) => apply answers_bind; [|intros; simpl]
  | |- answers _ => solve [eauto with sftp]
  end.
Ltac answers := repeat (simpl; answers_step).

(** Invert a computation that came out [Ok]: one fact per bind. *)
Ltac ok_inv_step :=
  match goal with
  | H : Ok _ = Ok _ |- _ => injection H; clear H; intros; subst
  | H : mret _ = Ok _ |- _ => injection H; clear H; intros; subst
  | H : Err _ = Ok _ |- _ => discriminate H
  | H : (mbind _ _) = Ok _ |- _ =>
      let a := fresh "a" in let E := fresh "E" in
      apply obind_inv_ok in H as [a [E H]]
  | p : (_ * _)%type |- _ => destruct p
  | H : (match ?x with _ => _ end) = Ok _ |- _ => destruct x eqn:?
  end.
Ltac ok_inv := repeat (simpl in *; ok_inv_step).
