(* ===== verification/RustStd.v ===== *)
(** The part of Rust's core language and standard library the crate uses:
    bytes and strings, [to_be_bytes] and [from_be_bytes], UTF-8 checking
    ([String::from_utf8]), [Vec] slicing and resizing with their panics,
    checked and saturating machine integers, and the key order in which a
    [BTreeMap] is walked. *)

From S2P Require Import Prelude.
From Stdlib Require Ascii String OrderedTypeEx.

Local Open Scope N_scope.

(** ** Bytes *)
Abbreviation bytes := (list Byte.byte).

(** [Vec::len]. *)
Definition blen (b : bytes) : N := N.of_nat (length b).

Lemma blen_app a b : blen (a ++ b) = blen a + blen b.
Proof. unfold blen. rewrite length_app. lia. Qed.
Lemma blen_nil : blen [] = 0.
Proof. done. Qed.
Lemma blen_cons x b : blen (x :: b) = 1 + blen b.
Proof. unfold blen. simpl. lia. Qed.

Lemma blen_replicate n x : blen (replicate n x) = N.of_nat n.
Proof. unfold blen. by rewrite length_replicate. Qed.

(** The low eight bits of a number, as [as u8] keeps them. *)
Definition byte_of_N (n : N) : Byte.byte :=
  match Byte.of_N (n mod 256) with Some b => b | None => Byte.x00 end.

Lemma byte_to_of_N n : Byte.to_N (byte_of_N n) = n mod 256.
Proof.
  unfold byte_of_N. destruct (Byte.of_N (n mod 256)) as [b|] eqn:E.
  - by apply Byte.to_of_N.
  - apply Byte.of_N_None_iff in E. pose proof (N.mod_lt n 256). lia.
Qed.

Lemma byte_of_to_N b : byte_of_N (Byte.to_N b) = b.
Proof.
  unfold byte_of_N. pose proof (Byte.to_N_bounded b).
  rewrite N.mod_small by lia. by rewrite Byte.of_to_N.
Qed.

#[export] Instance byte_eq_dec : EqDecision Byte.byte.
Proof. intros a b. destruct (Byte.eqb a b) eqn:E.
  - left. by apply Byte.byte_dec_bl.
  - right. by apply Byte.eqb_false.
Defined.

(** [to_be_bytes] of an integer of [k] bytes, and [from_be_bytes]. *)
Fixpoint be_bytes (k : nat) (n : N) : bytes :=
  match k with
  | O => []
  | S k => byte_of_N (n / 256 ^ N.of_nat k) :: be_bytes k n
  end.

Definition be_value (b : bytes) : N :=
  fold_left (λ acc x, acc * 256 + Byte.to_N x) b 0.

Lemma length_be_bytes k n : length (be_bytes k n) = k.
Proof. induction k; simpl; lia. Qed.
Lemma blen_be_bytes k n : blen (be_bytes k n) = N.of_nat k.
Proof. unfold blen. by rewrite length_be_bytes. Qed.

Lemma be_value_acc k n acc :
  fold_left (λ acc x, acc * 256 + Byte.to_N x) (be_bytes k n) acc
  = acc * 256 ^ N.of_nat k + n mod 256 ^ N.of_nat k.
Proof.
  revert acc. induction k as [|k IH]; intros acc.
  - simpl. rewrite N.mod_1_r. lia.
  - cbn [be_bytes fold_left]. rewrite IH, byte_to_of_N.
    replace (N.of_nat (S k)) with (N.succ (N.of_nat k)) by lia.
    rewrite N.pow_succ_r by lia.
    rewrite (N.mul_comm 256), N.Div0.mod_mul_r. lia.
Qed.

Lemma be_value_bytes k n : n < 256 ^ N.of_nat k → be_value (be_bytes k n) = n.
Proof.
  intros Hn. unfold be_value. rewrite be_value_acc, N.mod_small by done. lia.
Qed.

Lemma be_value_lt b : be_value b < 256 ^ N.of_nat (length b).
Proof.
  unfold be_value. rewrite <- (rev_involutive b).
  induction (rev b) as [|x r IH]; [by vm_compute|].
  simpl rev. rewrite fold_left_app, length_app. simpl.
  pose proof (Byte.to_N_bounded x).
  replace (N.of_nat (length (rev r) + 1)) with (N.succ (N.of_nat (length (rev r)))) by lia.
  rewrite N.pow_succ_r by lia. lia.
Qed.

Lemma fold_be_shift b acc :
  fold_left (λ acc x, acc * 256 + Byte.to_N x) b acc
  = acc * 256 ^ N.of_nat (length b) + be_value b.
Proof.
  revert acc. induction b as [|x b IH]; intros acc; [cbn; lia|].
  unfold be_value. cbn [fold_left length]. rewrite !IH, Nat2N.inj_succ, N.pow_succ_r'. lia.
Qed.

Lemma be_value_cons x b :
  be_value (x :: b) = Byte.to_N x * 256 ^ N.of_nat (length b) + be_value b.
Proof. unfold be_value at 1. cbn [fold_left]. rewrite fold_be_shift. lia. Qed.

(** The [k] low bytes do not see what is above them. *)
Lemma be_bytes_high k j x m :
  (k ≤ j)%nat → be_bytes k (x * 256 ^ N.of_nat j + m) = be_bytes k m.
Proof.
  induction k as [|k IH]; intros Hk; [done|]. cbn [be_bytes].
  rewrite IH by lia. f_equal.
  replace (N.of_nat j) with (N.of_nat k + N.succ (N.of_nat (j - S k))) by lia.
  rewrite N.pow_add_r, N.pow_succ_r', (N.mul_comm (256 ^ N.of_nat k)), N.mul_assoc.
  rewrite N.div_add_l by (apply N.pow_nonzero; lia).
  unfold byte_of_N. rewrite (N.mul_comm 256), N.mul_assoc, N.add_comm, N.Div0.mod_add. done.
Qed.

Lemma be_bytes_value b : be_bytes (length b) (be_value b) = b.
Proof.
  induction b as [|x b IH]; [done|]. cbn [length be_bytes].
  rewrite be_value_cons, be_bytes_high, IH by done. f_equal.
  pose proof (be_value_lt b).
  rewrite N.div_add_l, N.div_small, N.add_0_r by (done || (apply N.pow_nonzero; lia)).
  apply byte_of_to_N.
Qed.

(** ** Machine integers *)
Abbreviation U32 := (2 ^ 32)%N.
Abbreviation U64 := (2 ^ 64)%N.
Definition u32_max : N := 2 ^ 32 - 1.
Definition u64_max : N := 2 ^ 64 - 1.

(** The width of [usize] and [isize] on the machine built for: Rust's
    targets that carry the standard library's [TcpStream] have 32 or 64. *)
Class Platform : Type := {
  usize_bits : N;
  usize_bits_range : 32 ≤ usize_bits ≤ 64;
}.

Section machine.
Context `{!Platform}.

Definition usize_max : N := 2 ^ usize_bits - 1.
(** The most bytes one allocation holds, [isize::MAX]. *)
Definition isize_max : N := 2 ^ (usize_bits - 1) - 1.

(** [usize::try_from(n).unwrap_or(usize::MAX)], [n] a [u64]. *)
Definition usize_of_u64 (n : N) : N := if n <=? usize_max then n else usize_max.
(** [u32::try_from(n).unwrap_or(u32::MAX)]. *)
Definition u32_of (n : N) : N := if n <=? u32_max then n else u32_max.
(** [usize::saturating_add] and [u32::saturating_add]. *)
Definition usize_saturating_add (a b : N) : N := N.min (a + b) usize_max.
Definition u32_saturating_add (a b : N) : N := N.min (a + b) u32_max.
(** [a + b] on [u64] where overflow is checked; where it is not, the sum
    wraps, which no run that does not panic here can tell. *)
Definition u64_add {E} (a b : N) : outcome E N :=
  if a + b <=? u64_max then Ok (a + b) else Panic.
(** [u32::wrapping_add]. *)
Definition u32_wrapping_add (a b : N) : N := (a + b) mod U32.

Lemma usize_max_ge : u32_max ≤ usize_max.
Proof.
  unfold usize_max, u32_max. destruct usize_bits_range.
  pose proof (N.pow_le_mono_r 2 32 usize_bits). lia.
Qed.
Lemma usize_max_le : usize_max ≤ u64_max.
Proof.
  unfold usize_max, u64_max. destruct usize_bits_range.
  pose proof (N.pow_le_mono_r 2 usize_bits 64). lia.
Qed.
Lemma isize_lt_usize : isize_max < usize_max.
Proof.
  unfold isize_max, usize_max. pose proof usize_bits_range.
  replace usize_bits with (N.succ (usize_bits - 1)) at 2 by lia.
  rewrite N.pow_succ_r by lia.
  pose proof (N.pow_le_mono_r 2 31 (usize_bits - 1)). lia.
Qed.

Lemma usize_of_u64_le n : usize_of_u64 n ≤ usize_max.
Proof. unfold usize_of_u64. destruct (N.leb_spec n usize_max); lia. Qed.

(** ** Vectors *)

(** [&v[lo..hi]]: a panic where the range is not one of [v]'s. *)
Definition slice {E} (v : bytes) (lo hi : N) : outcome E bytes :=
  if (lo <=? hi) && (hi <=? blen v)
  then Ok (take (N.to_nat (hi - lo)) (drop (N.to_nat lo) v))
  else Panic.

(** [v.resize(n, 0)], a panic where no allocation is that large. *)
Definition vec_resize {E} (v : bytes) (n : N) : outcome E bytes :=
  if n <=? isize_max
  then Ok (take (N.to_nat n) v ++ replicate (N.to_nat n - length v) Byte.x00)
  else Panic.

(** [v[lo..hi].copy_from_slice(data)]: a panic where the range is not one
    of [v]'s or the lengths differ. *)
Definition copy_from_slice {E} (v : bytes) (lo hi : N) (data : bytes) : outcome E bytes :=
  if (lo <=? hi) && (hi <=? blen v) && (hi - lo =? blen data)
  then Ok (take (N.to_nat lo) v ++ data ++ drop (N.to_nat hi) v)
  else Panic.
End machine.

(** ** Strings

    A [String] is its bytes; that they are UTF-8 is [utf8_valid], the check
    [String::from_utf8] makes. *)
Definition as_bytes (s : string) : bytes := String.list_byte_of_string s.

Definition in_range (lo hi : N) (b : Byte.byte) : bool :=
  (lo <=? Byte.to_N b) && (Byte.to_N b <=? hi).
Definition continuation : Byte.byte → bool := in_range 128 191.

Fixpoint utf8_valid (b : bytes) : bool :=
  match b with
  | [] => true
  | b0 :: t0 =>
    if in_range 0 127 b0 then utf8_valid t0 else
    match t0 with
    | [] => false
    | b1 :: t1 =>
      if in_range 194 223 b0 then continuation b1 && utf8_valid t1 else
      match t1 with
      | [] => false
      | b2 :: t2 =>
        if in_range 224 224 b0 then in_range 160 191 b1 && continuation b2 && utf8_valid t2
        else if in_range 225 236 b0 || in_range 238 239 b0
        then continuation b1 && continuation b2 && utf8_valid t2
        else if in_range 237 237 b0
        then in_range 128 159 b1 && continuation b2 && utf8_valid t2 else
        match t2 with
        | [] => false
        | b3 :: t3 =>
          (if in_range 240 240 b0 then in_range 144 191 b1
           else if in_range 241 243 b0 then continuation b1
           else if in_range 244 244 b0 then in_range 128 143 b1 else false)
          && continuation b2 && continuation b3 && utf8_valid t3
        end
      end
    end
  end.

(** [String::from_utf8]. *)
Definition from_utf8 (b : bytes) : option string :=
  if utf8_valid b then Some (String.string_of_list_byte b) else None.

(** A string Rust can hold. *)
Definition utf8_string (s : string) : Prop := utf8_valid (as_bytes s) = true.

#[export] Instance utf8_string_dec s : Decision (utf8_string s).
Proof. unfold utf8_string. apply _. Defined.

Lemma as_bytes_of_bytes b : as_bytes (String.string_of_list_byte b) = b.
Proof. apply String.list_byte_of_string_of_list_byte. Qed.

Lemma from_utf8_as_bytes s : utf8_string s → from_utf8 (as_bytes s) = Some s.
Proof.
  unfold from_utf8. intros ->. unfold as_bytes.
  by rewrite String.string_of_list_byte_of_string.
Qed.

Lemma from_utf8_Some b s : from_utf8 b = Some s → as_bytes s = b ∧ utf8_string s.
Proof.
  unfold from_utf8, utf8_string. destruct (utf8_valid b) eqn:E; [|done].
  intros [= <-]. by rewrite as_bytes_of_bytes.
Qed.

Lemma as_bytes_inj s t : as_bytes s = as_bytes t → s = t.
Proof.
  intros H. apply (f_equal String.string_of_list_byte) in H. unfold as_bytes in H.
  by rewrite !String.string_of_list_byte_of_string in H.
Qed.

Lemma as_bytes_app s t : as_bytes (s +:+ t) = as_bytes s ++ as_bytes t.
Proof.
  unfold as_bytes, String.list_byte_of_string.
  induction s as [|c s IH]; [done|]. simpl. by rewrite IH.
Qed.

Lemma utf8_valid_ascii b : Forall (λ x, in_range 0 127 x = true) b → utf8_valid b = true.
Proof. induction 1 as [|x b Hx _ IH]; [done|]. simpl. by rewrite Hx. Qed.

(** ** Decimal numbers, as [format!] writes them, are ASCII. *)
Definition ascii_bytes (b : bytes) : Prop := Forall (λ x, in_range 0 127 x = true) b.

Lemma pretty_N_go_ascii x s : ascii_bytes (as_bytes s) → ascii_bytes (as_bytes (pretty_N_go x s)).
Proof.
  revert s. induction (N.lt_wf_0 x) as [x _ IH]; intros s Hs.
  destruct (decide (x = 0)) as [->|?]; [by rewrite pretty_N_go_0|].
  rewrite pretty_N_go_step by lia. apply IH; [apply N.div_lt; lia|].
  apply Forall_cons; split; [|done]. unfold pretty_N_char. by repeat case_match.
Qed.

Lemma pretty_N_ascii (x : N) : ascii_bytes (as_bytes (pretty x)).
Proof.
  unfold pretty, pretty_N. case_decide; [by repeat constructor|].
  apply pretty_N_go_ascii. constructor.
Qed.

(** ** The order of a [BTreeMap] with string keys

    [String]'s order is its bytes', which is [String.leb]'s. *)
Definition key_le {A} (p q : string * A) : Prop := String.leb p.1 q.1 = true.
Definition key_lt (s t : string) : Prop := String.compare s t = Lt.

#[export] Instance key_le_dec {A} (p q : string * A) : Decision (key_le p q).
Proof. unfold key_le. apply _. Defined.

(** The entries in the order [for (k, v) in &map] gives them. *)
Definition btree_iter {A} (m : gmap string A) : list (string * A) :=
  merge_sort key_le (map_to_list m).

Lemma string_lt_trans a b c :
  String.compare a b = Lt → String.compare b c = Lt → String.compare a c = Lt.
Proof.
  intros H1 H2. apply OrderedTypeEx.String_as_OT.cmp_lt.
  eapply OrderedTypeEx.String_as_OT.lt_trans; by apply OrderedTypeEx.String_as_OT.cmp_lt.
Qed.

#[export] Instance key_le_trans {A} : Transitive (@key_le A).
Proof.
  intros [a ?] [b ?] [c ?]. unfold key_le, String.leb; simpl.
  destruct (String.compare a b) eqn:Hab; [|intros _|done].
  - by apply String.compare_eq_iff in Hab as ->.
  - destruct (String.compare b c) eqn:Hbc; [|intros _|done].
    + apply String.compare_eq_iff in Hbc as ->. by rewrite Hab.
    + by rewrite (string_lt_trans _ _ _ Hab Hbc).
Qed.

Lemma string_leb_refl s : String.leb s s = true.
Proof. by destruct (String.leb_total s s). Qed.

#[export] Instance key_le_total {A} : Total (@key_le A).
Proof. intros [a ?] [b ?]. apply String.leb_total. Qed.

Lemma btree_iter_perm {A} (m : gmap string A) : btree_iter m ≡ₚ map_to_list m.
Proof. apply merge_sort_Permutation. Qed.

Lemma elem_of_btree_iter {A} (m : gmap string A) k v : (k, v) ∈ btree_iter m ↔ m !! k = Some v.
Proof. rewrite btree_iter_perm. apply elem_of_map_to_list. Qed.

Lemma length_btree_iter {A} (m : gmap string A) : length (btree_iter m) = size m.
Proof. by rewrite btree_iter_perm, length_map_to_list. Qed.

Lemma NoDup_btree_iter {A} (m : gmap string A) : NoDup (btree_iter m).*1.
Proof. rewrite btree_iter_perm. apply NoDup_fst_map_to_list. Qed.

Lemma btree_iter_sorted {A} (m : gmap string A) : StronglySorted key_le (btree_iter m).
Proof. apply StronglySorted_merge_sort; apply _. Qed.
