(* ===== verification/Externals.v ===== *)
(** What the crate calls and this repository does not hold, as interfaces:
    the transport capability's error, the codec's cursor and writer with the
    ssh crate's wire strings, the size ceiling of the net crate, and the SSH
    channel.  Each is a class of operations; what the crate relies on is a
    class of laws beside it, which states what those crates document: the
    wire types of RFC 4251 section 5, and a size refused where it is over the
    ceiling. *)

From S2P Require Import Prelude RustStd.

Local Open Scope N_scope.

(** [transport::error]: [TransportError] and its constructors. *)
Class TransportErrors : Type := {
  error : Type;
  protocol_error : string → error;
  retryable : string → error;
  permanent : string → error;
}.

(** [codec::cursor::Cursor] and [codec::writer::ByteWriter], with
    [ssh::SshRead::string] and [ssh::SshWrite::string].  A writer appends to
    the [Vec] it is called on.  A reader gives the value and the cursor moved
    past it; its error is the [TransportError] that [?] makes of it. *)
Class Codec `{!TransportErrors} : Type := {
  Cursor : Type;
  cursor_new : bytes → Cursor;
  read_u32_be : Cursor → outcome error (N * Cursor);
  read_u64_be : Cursor → outcome error (N * Cursor);
  read_string : Cursor → outcome error (bytes * Cursor);
  u32_be : N → bytes → bytes;
  u64_be : N → bytes → bytes;
  put_string : bytes → bytes → bytes;
  put_byte : N → bytes → bytes;
  put_bytes : bytes → bytes → bytes;
  (** What a cursor has still to read. *)
  rest : Cursor → bytes;
}.

(** [out.u32_be(n).string(s)] is written [out |> u32_be n |> put_string s]. *)
Notation "x |> f" := (f x) (at level 45, left associativity, only parsing).

(** RFC 4251 section 5: the bytes of a [uint32], a [uint64], a [string]. *)
Definition enc_u32 (n : N) : bytes := be_bytes 4 n.
Definition enc_u64 (n : N) : bytes := be_bytes 8 n.
Definition enc_string (s : bytes) : bytes := be_bytes 4 (blen s) ++ s.

(** [op] reads exactly the values that fit, each off its encoding, and
    answers an error, never a panic, where none is there. *)
Record reads `{!TransportErrors, !Codec} {A}
    (op : Cursor → outcome error (A * Cursor)) (enc : A → bytes) (fits : A → Prop) : Prop := {
  reads_complete c v tl :
    rest c = enc v ++ tl → fits v → ∃ c', op c = Ok (v, c') ∧ rest c' = tl;
  reads_sound c v c' : op c = Ok (v, c') → rest c = enc v ++ rest c' ∧ fits v;
  reads_total c : (∃ r, op c = Ok r) ∨ (∃ e, op c = Err e);
}.

Class CodecLaws `{!TransportErrors, !Codec} : Prop := {
  cursor_new_rest b : rest (cursor_new b) = b;
  u32_reads : reads read_u32_be enc_u32 (λ n, n < U32);
  u64_reads : reads read_u64_be enc_u64 (λ n, n < U64);
  string_reads : reads read_string enc_string (λ s, blen s < U32);
  u32_be_spec n out : n < U32 → u32_be n out = out ++ enc_u32 n;
  u64_be_spec n out : n < U64 → u64_be n out = out ++ enc_u64 n;
  put_string_spec s out : blen s < U32 → put_string s out = out ++ enc_string s;
  put_byte_spec n out : n < 256 → put_byte n out = out ++ [byte_of_N n];
  put_bytes_spec b out : put_bytes b out = out ++ b;
}.

(** [net::MAX_BODY] and [net::ceiling::within]: [None] where the size is
    within the ceiling, else the message of the refusal. *)
Class Net : Type := {
  MAX_BODY : N;
  ceiling_within : N → N → string → option string;
}.

Class NetLaws `{!Platform, !Net} : Prop := {
  ceiling_within_spec size most what : ceiling_within size most what = None ↔ size ≤ most;
  ceiling_message size most what m :
    ceiling_within size most what = Some m → blen (as_bytes m) < 2 ^ 31;
  (** A file of that size is one a [Vec] can hold. *)
  max_body_allocates : MAX_BODY ≤ isize_max;
}.

(** [ssh::channel::Channel] over [ssh::packet::Conn]: one channel borrows its
    connection until it is dropped, which [channel_conn] gives back. *)
Class Ssh `{!TransportErrors} : Type := {
  Conn : Type;
  Channel : Type;
  channel_open : string → M Conn error Channel;
  channel_conn : Channel → Conn;
  channel_write : bytes → M Channel error unit;
  channel_read_exact : N → M Channel error bytes;
  channel_read_frame : M Channel error (option bytes);
  channel_close : M Channel error unit;
}.

(** [ed25519_dalek]'s keys, with the blob [ssh] writes of one, and [net::login]:
    the check a server admits a login by. *)
Class Keys : Type := {
  SigningKey : Type;
  signing_key_of : bytes → SigningKey;
  key_blob : SigningKey → bytes;
  Check : Type;
  nobody : Check;
  login_only : string → string → Check;
  login_only_key : string → bytes → Check;
}.

(** [ssh::userauth::Authenticated]: who logged in, and what a key proved. *)
Record Authenticated : Type := {
  who_user : string;
  who_fingerprint : option string;
  who_signature : option bytes;
  who_signed : option bytes;
}.

(** ** Reading and writing, in the form the components use them *)
Section codec.
Context `{!TransportErrors, !Codec, !CodecLaws}.

Lemma read_u32_at c n tl :
  rest c = enc_u32 n ++ tl → n < U32 → ∃ c', read_u32_be c = Ok (n, c') ∧ rest c' = tl.
Proof. apply (reads_complete _ _ _ u32_reads). Qed.
Lemma read_u64_at c n tl :
  rest c = enc_u64 n ++ tl → n < U64 → ∃ c', read_u64_be c = Ok (n, c') ∧ rest c' = tl.
Proof. apply (reads_complete _ _ _ u64_reads). Qed.
Lemma read_string_at c s tl :
  rest c = enc_string s ++ tl → blen s < U32 → ∃ c', read_string c = Ok (s, c') ∧ rest c' = tl.
Proof. apply (reads_complete _ _ _ string_reads). Qed.

Lemma read_u32_answers c : answers (read_u32_be c).
Proof. destruct (reads_total _ _ _ u32_reads c) as [[? ->]|[? ->]]; eauto with sftp. Qed.
Lemma read_u64_answers c : answers (read_u64_be c).
Proof. destruct (reads_total _ _ _ u64_reads c) as [[? ->]|[? ->]]; eauto with sftp. Qed.
Lemma read_string_answers c : answers (read_string c).
Proof. destruct (reads_total _ _ _ string_reads c) as [[? ->]|[? ->]]; eauto with sftp. Qed.
End codec.

#[export] Hint Resolve read_u32_answers read_u64_answers read_string_answers : sftp.

Lemma length_enc_u32 n : length (enc_u32 n) = 4%nat.
Proof. apply length_be_bytes. Qed.
Lemma value_enc_u32 n : n < U32 → be_value (enc_u32 n) = n.
Proof. apply (be_value_bytes 4). Qed.
Lemma blen_enc_u32 n : blen (enc_u32 n) = 4.
Proof. apply blen_be_bytes. Qed.
Lemma blen_enc_u64 n : blen (enc_u64 n) = 8.
Proof. apply blen_be_bytes. Qed.
Lemma blen_enc_string s : blen (enc_string s) = 4 + blen s.
Proof. unfold enc_string. by rewrite blen_app, blen_be_bytes. Qed.

#[global] Opaque enc_u32 enc_u64 enc_string.

Create Rewrite HintDb blen.
#[export] Hint Rewrite blen_app blen_nil blen_cons blen_enc_u32 blen_enc_u64 blen_enc_string : blen.

(** Bounds of what is written: lengths computed, the rest linear. *)
Ltac fits := autorewrite with blen in *; unfold u32_max, u64_max in *; try done; try lia.

(** Read what a cursor's remaining bytes start with, and reduce the bind. *)
Ltac read_with L H :=
  let c' := fresh "c" in let E := fresh "E" in let H' := fresh "H" in
  destruct L as (c' & E & H'); [fits|];
  rewrite E; clear E; try clear H; cbn [mbind outcome_bind M_bind lift mret outcome_ret].

Ltac read_step :=
  rewrite <-?(assoc_L (++)) in *;
  lazymatch goal with
  | H : rest ?c = enc_u32 ?n ++ ?tl |- context [read_u32_be ?c] => read_with (read_u32_at c n tl H) H
  | H : rest ?c = enc_u64 ?n ++ ?tl |- context [read_u64_be ?c] => read_with (read_u64_at c n tl H) H
  | H : rest ?c = enc_string ?s ++ ?tl |- context [read_string ?c] => read_with (read_string_at c s tl H) H
  end.
