(* ===== verification/Safely.v ===== *)
(** Code that does not panic.  [safely P m] says that [m] panics in no state
    and that what it gives satisfies [P]; [keeping I P m], that so it is in the
    states of an invariant [I], and that [m] keeps it.  Both are proved of an
    operation as the operation is built, a bind at a time. *)

From S2P Require Import Prelude RustStd Externals.

(** ** Code that does not panic *)
Definition unpanicked {E A} (P : A → Prop) (o : outcome E A) : Prop :=
  match o with Ok a => P a | Panic => False | _ => True end.
Definition safely {S E A} (P : A → Prop) (m : M S E A) : Prop := ∀ s, unpanicked P (m s).1.
(** With nothing asked of what it gives. *)
#[warnings="-notation-for-abbreviation"]
Notation unpanicking := (safely (λ _, True)).

Section safely.
Context {S E : Type}.

Lemma safely_weaken {A} (P Q : A → Prop) (m : M S E A) :
  safely P m → (∀ a, P a → Q a) → safely Q m.
Proof. intros Hm HPQ s. specialize (Hm s). destruct (m s) as [[a|e| |] s']; simpl in *; auto. Qed.

Lemma safely_ret {A} (P : A → Prop) (a : A) : P a → safely P (mret a : M S E A).
Proof. by intros Ha s. Qed.

Lemma safely_fail {A} (P : A → Prop) (e : E) : safely P (fail e : M S E A).
Proof. by intros s. Qed.

Lemma safely_bind {A B} (Q : A → Prop) (P : B → Prop) (m : M S E A) (k : A → M S E B) :
  safely Q m → (∀ a, Q a → safely P (k a)) → safely P (m ≫= k).
Proof.
  intros Hm Hk s. specialize (Hm s). unfold mbind, M_bind.
  destruct (m s) as [[a|e| |] s']; simpl in *; auto. by apply Hk.
Qed.

Lemma safely_lift {A} (P : A → Prop) (o : outcome E A) :
  unpanicked P o → safely P (lift o : M S E A).
Proof. by intros Ho s. Qed.

Lemma answers_unpanicked {A} (o : outcome E A) : answers o → unpanicked (λ _, True) o.
Proof. by intros [[a ->]|[e ->]]. Qed.

Lemma safely_answers {A} (o : outcome E A) : answers o → unpanicking (lift o : M S E A).
Proof. intros Ho. by apply safely_lift, answers_unpanicked. Qed.

Lemma safely_attempt {A} (P : A → Prop) (m : M S E A) :
  safely P m → safely (λ r, match r with inl _ => True | inr a => P a end) (attempt m).
Proof.
  intros Hm s. specialize (Hm s). unfold attempt. by destruct (m s) as [[a|e| |] s'].
Qed.
End safely.

(** ** Within an invariant *)
Definition keeping {S E A} (I : S → Prop) (P : A → Prop) (m : M S E A) : Prop :=
  ∀ s, I s → unpanicked P (m s).1 ∧ I (m s).2.

Section keeping.
Context {S E : Type} (I : S → Prop).

Lemma keeping_weaken {A} (P Q : A → Prop) (m : M S E A) :
  keeping I P m → (∀ a, P a → Q a) → keeping I Q m.
Proof.
  intros Hm HPQ s Hs. destruct (Hm s Hs) as [Ho Hi]. split; [|done].
  destruct (m s) as [[a|e| |] s']; simpl in *; auto.
Qed.

Lemma keeping_ret {A} (P : A → Prop) (a : A) : P a → keeping I P (mret a : M S E A).
Proof. by intros Ha s Hs. Qed.

Lemma keeping_fail {A} (P : A → Prop) (e : E) : keeping I P (fail e : M S E A).
Proof. by intros s Hs. Qed.

Lemma keeping_lift {A} (P : A → Prop) (o : outcome E A) :
  unpanicked P o → keeping I P (lift o : M S E A).
Proof. by intros Ho s Hs. Qed.

Lemma keeping_bind {A B} (Q : A → Prop) (P : B → Prop) (m : M S E A) (k : A → M S E B) :
  keeping I Q m → (∀ a, Q a → keeping I P (k a)) → keeping I P (m ≫= k).
Proof.
  intros Hm Hk s Hs. destruct (Hm s Hs) as [Ho Hi]. unfold mbind, M_bind.
  destruct (m s) as [[a|e| |] s']; simpl in *; try by split. by apply Hk.
Qed.

Lemma keeping_attempt {A} (P : A → Prop) (m : M S E A) :
  keeping I P m → keeping I (λ r, match r with inl _ => True | inr a => P a end) (attempt m).
Proof.
  intros Hm s Hs. specialize (Hm s Hs). unfold attempt. by destruct (m s) as [[a|e| |] s'].
Qed.
End keeping.

Create HintDb unpanicking.
#[export] Hint Resolve safely_fail safely_ret safely_answers : unpanicking.
#[export] Hint Resolve answers_ok answers_err : unpanicking.

(** A bind at a time, whatever the operations give; a guard by its cases. *)
Ltac unpanicking_step :=
  lazymatch goal with
  | |- safely _ (mbind _ _) => eapply (safely_bind (λ _, True)); [|intros ? _]
  | |- safely _ (attempt _) =>
    eapply safely_weaken; [apply (safely_attempt (λ _, True))|by intros]
  | |- safely _ (match ?x with _ => _ end) => destruct x
  | |- safely _ _ => solve [auto with unpanicking sftp]
  end.
Ltac unpanicking := repeat (cbv zeta beta; unpanicking_step).
