(* ===== verification/Reference.v ===== *)
(** A concrete instance of the external crates' interfaces: a cursor that is
    what it has still to read, a writer that appends, a 64-bit machine.  It
    shows that the laws hold together, and is what the examples and the
    witnesses of the properties evaluate on. *)

From S2P Require Import Prelude RustStd Externals.

Local Open Scope N_scope.

#[local] Transparent enc_u32 enc_u64 enc_string.

Inductive ref_error : Type :=
  | Protocol (message : string)
  | Retryable (message : string)
  | Permanent (message : string).

Definition ref_errors : TransportErrors :=
  {| error := ref_error; protocol_error := Protocol; retryable := Retryable;
     permanent := Permanent |}.

Definition ref_platform : Platform.
Proof. exists 64. lia. Defined.

(** The [k]-byte integer, and the string, at the front of what is left. *)
Definition ref_read_uint (k : nat) (c : bytes) : outcome ref_error (N * bytes) :=
  if (length c <? k)%nat then Err (Protocol "the input ended")
  else Ok (be_value (take k c), drop k c).

Definition ref_read_string (c : bytes) : outcome ref_error (bytes * bytes) :=
  '(n, c) ← ref_read_uint 4 c;
  if blen c <? n then Err (Protocol "the input ended")
  else Ok (take (N.to_nat n) c, drop (N.to_nat n) c).

Definition ref_codec : @Codec ref_errors :=
  {| Cursor := bytes : Type; cursor_new := (λ b, b);
     read_u32_be := ref_read_uint 4 : _ → outcome (@error ref_errors) _;
     read_u64_be := ref_read_uint 8 : _ → outcome (@error ref_errors) _;
     read_string := ref_read_string : _ → outcome (@error ref_errors) _;
     u32_be n out := out ++ be_bytes 4 n;
     u64_be n out := out ++ be_bytes 8 n;
     put_string s out := out ++ be_bytes 4 (blen s) ++ s;
     put_byte n out := out ++ [byte_of_N n];
     put_bytes b out := out ++ b;
     rest := (λ b, b) |}.

(** A ceiling of four mebibytes. *)
Definition ref_net : Net :=
  {| MAX_BODY := 4194304;
     ceiling_within size most what :=
       if size <=? most then None else Some "over the ceiling" |}.

Lemma ref_uint_reads k :
  @reads ref_errors ref_codec N (ref_read_uint k) (be_bytes k) (λ n, n < 256 ^ N.of_nat k).
Proof.
  constructor.
  - intros c v tl Hc Hv. exists tl. split; [|done].
    change (c = be_bytes k v ++ tl) in Hc. subst c. unfold ref_read_uint.
    destruct (Nat.ltb_spec (length (be_bytes k v ++ tl)) k) as [Hl|_].
    + rewrite length_app, length_be_bytes in Hl. lia.
    + rewrite take_app_length', drop_app_length' by (symmetry; apply length_be_bytes).
      by rewrite be_value_bytes.
  - intros c v c'. unfold ref_read_uint. simpl. case_match eqn:E; [done|].
    apply Nat.ltb_ge in E. intros [= <- <-].
    assert (length (take k c) = k) as Hk by (rewrite length_take; lia).
    split.
    + rewrite <- Hk at 1. by rewrite be_bytes_value, take_drop.
    + rewrite <- Hk at 2. apply be_value_lt.
  - intros c. unfold ref_read_uint. case_match; eauto.
Qed.

Lemma ref_string_reads :
  @reads ref_errors ref_codec bytes ref_read_string enc_string (λ s, blen s < U32).
Proof.
  constructor.
  - intros c v tl Hc Hv. exists tl. split; [|done].
    change (c = enc_string v ++ tl) in Hc. subst c. unfold ref_read_string, enc_string. rewrite <- (assoc_L (++)).
    destruct (reads_complete _ _ _ (ref_uint_reads 4) (be_bytes 4 (blen v) ++ v ++ tl)
                (blen v) (v ++ tl)) as (c' & -> & Hc'); [done|done|].
    simpl in *. subst c'. unfold blen. rewrite length_app.
    destruct (N.ltb_spec (N.of_nat (length v + length tl)) (N.of_nat (length v))); [lia|].
    rewrite Nat2N.id, take_app_length, drop_app_length. done.
  - intros c s c'. unfold ref_read_string. intros H. apply obind_inv_ok in H as [[n c1] [H1 H]].
    destruct (reads_sound _ _ _ (ref_uint_reads 4) _ _ _ H1) as [Hc Hn].
    change (c = be_bytes 4 n ++ c1) in Hc. subst c.
    case_match eqn:E; [done|]. apply N.ltb_ge in E. injection H as <- <-.
    assert (blen (take (N.to_nat n) c1) = n) as Hl.
    { unfold blen in *. rewrite length_take. lia. }
    split; [|by rewrite Hl]. unfold enc_string. rewrite Hl, <- (assoc_L (++)).
    change (be_bytes 4 n ++ c1 = be_bytes 4 n ++ take (N.to_nat n) c1 ++ drop (N.to_nat n) c1).
    by rewrite take_drop.
  - intros c. unfold ref_read_string. destruct (reads_total _ _ _ (ref_uint_reads 4) c)
      as [[[n c'] ->]|[e ->]]; simpl; [|by eauto]. case_match; eauto.
Qed.

Lemma ref_codec_laws : @CodecLaws ref_errors ref_codec.
Proof.
  constructor; try done.
  - exact (ref_uint_reads 4).
  - exact (ref_uint_reads 8).
  - exact ref_string_reads.
Qed.

Lemma ref_net_laws : @NetLaws ref_platform ref_net.
Proof.
  constructor.
  - intros size most what. cbn. destruct (N.leb_spec size most); split; try done. lia.
  - intros size most what m. cbn. case_match; [done|]. by intros [= <-].
  - by vm_compute.
Qed.

(** Keys that are their seeds, checks that are lists of the logins they admit. *)
Definition ref_keys : Keys := {|
  SigningKey := bytes;
  signing_key_of b := b;
  key_blob b := b;
  Check := list (string * bytes);
  nobody := [];
  login_only u s := [(u, as_bytes s)];
  login_only_key u b := [(u, b)];
|}.

(** Brought into scope where the witnesses are. *)
Module Instances.
  #[export] Existing Instance ref_errors.
  #[export] Existing Instance ref_platform.
  #[export] Existing Instance ref_codec.
  #[export] Existing Instance ref_net.
  #[export] Existing Instance ref_keys.
  #[export] Existing Instance ref_codec_laws.
  #[export] Existing Instance ref_net_laws.
End Instances.
