(* ===== verification/Wire.v ===== *)
(** The wire vocabulary of SFTP version 3 (src/subsystem.rs): the packet
    types, flags and status codes, the frame, and the readers of a status, of
    an entry's attributes and of a listing.  The theorems show that each
    reader gives back what the draft's encoding says was written, that none
    panics on any bytes at all, and that what a reader accepts is well
    formed. *)

From S2P Require Import Prelude RustStd Externals Reference.

Local Open Scope N_scope.

(** ** Packet types *)
Definition INIT : N := 1.
Definition VERSION : N := 2.
Definition OPEN : N := 3.
Definition CLOSE : N := 4.
Definition READ : N := 5.
Definition WRITE : N := 6.
Definition OPENDIR : N := 11.
Definition READDIR : N := 12.
Definition REMOVE : N := 13.
Definition STAT : N := 17.
Definition RENAME : N := 18.
Definition STATUS : N := 101.
Definition HANDLE : N := 102.
Definition DATA : N := 103.
Definition NAME : N := 104.
Definition ATTRS : N := 105.

(** ** Open flags, status codes, limits *)
Definition F_READ : N := 0x00000001.
Definition F_WRITE : N := 0x00000002.
Definition F_CREAT : N := 0x00000008.
Definition F_TRUNC : N := 0x00000010.
Definition F_EXCL : N := 0x00000020.

Definition OK : N := 0.
Definition EOF : N := 1.
Definition NO_SUCH_FILE : N := 2.
Definition FAILURE : N := 4.

Definition SUBSYSTEM : string := "sftp".
Definition PROTOCOL : N := 3.
Definition CHUNK : N := 32768.

Definition ATTR_SIZE : N := 0x00000001.
Definition ATTR_UIDGID : N := 0x00000002.
Definition ATTR_PERMISSIONS : N := 0x00000004.
Definition ATTR_ACMODTIME : N := 0x00000008.
Definition ATTR_EXTENDED : N := 0x80000000.

(** ** Data *)
Record Stamp : Type := { stamp_length : N; stamp_modified : N }.

#[export] Instance Stamp_eq_dec : EqDecision Stamp.
Proof. solve_decision. Defined.

Definition Listed : Type := string * option Stamp.

(** [flags & bit != 0]. *)
Definition has (flags bit : N) : bool := negb (N.land flags bit =? 0).

(** [Option::zip]. *)
Definition option_zip {A B} (a : option A) (b : option B) : option (A * B) :=
  match a, b with Some a, Some b => Some (a, b) | _, _ => None end.

Section wire.
Context `{!TransportErrors, !Codec}.

(** A framed packet: the length, the type, the body. *)
Definition frame (kind : N) (body : bytes) : bytes :=
  [] |> u32_be (u32_of (blen body + 1)) |> put_byte kind |> put_bytes body.

(** The status code a STATUS body carries. *)
Definition code (body : bytes) : outcome error N :=
  let reader := cursor_new body in
  '(_, reader) ← read_u32_be reader;
  '(n, _) ← read_u32_be reader;
  mret n.

(** An SFTP name or handle as text. *)
Definition utf8 (b : bytes) : outcome error string :=
  match from_utf8 b with
  | Some s => Ok s
  | None => Err (protocol_error "an SFTP name or handle that is not UTF-8")
  end.

Definition status_error (body : bytes) (what : string) : error :=
  let reader := cursor_new body in
  let code :=
    match ('(_, reader) ← read_u32_be reader; read_u32_be reader) with
    | Ok (n, _) => n
    | _ => FAILURE
    end in
  protocol_error ("the server refused " +:+ what +:+ " with SFTP status " +:+ pretty code).

(** The extended pairs of an entry, read past. *)
Fixpoint skip_pairs (n : nat) (reader : Cursor) : outcome error Cursor :=
  match n with
  | O => mret reader
  | S n =>
    '(_, reader) ← read_string reader;
    '(_, reader) ← read_string reader;
    skip_pairs n reader
  end.

(** The stamp an entry's attributes give: its length and modification time
    where both are there, every other attribute read past. *)
Definition stamp (reader : Cursor) : outcome error (option Stamp * Cursor) :=
  '(flags, reader) ← read_u32_be reader;
  '(len, reader) ←
    (if has flags ATTR_SIZE
     then '(n, reader) ← read_u64_be reader; mret (Some n, reader)
     else mret (None, reader));
  reader ←
    (if has flags ATTR_UIDGID
     then '(_, reader) ← read_u32_be reader; '(_, reader) ← read_u32_be reader; mret reader
     else mret reader);
  reader ←
    (if has flags ATTR_PERMISSIONS
     then '(_, reader) ← read_u32_be reader; mret reader
     else mret reader);
  '(modified, reader) ←
    (if has flags ATTR_ACMODTIME
     then '(_, reader) ← read_u32_be reader;
          '(n, reader) ← read_u32_be reader; mret (Some n, reader)
     else mret (None, reader));
  reader ←
    (if has flags ATTR_EXTENDED
     then '(pairs, reader) ← read_u32_be reader; skip_pairs (N.to_nat pairs) reader
     else mret reader);
  mret ((λ '(l, m), {| stamp_length := l; stamp_modified := m |}) <$> option_zip len modified,
        reader).

(** The [for _ in 0..count] of [entries]. *)
Fixpoint entries_loop (count : nat) (reader : Cursor) (names : list Listed) :
    outcome error (list Listed) :=
  match count with
  | O => mret names
  | S count =>
    '(raw, reader) ← read_string reader;
    name ← utf8 raw;
    '(_, reader) ← read_string reader;
    '(s, reader) ← stamp reader;
    entries_loop count reader (names ++ [(name, s)])
  end.

(** The names a NAME body carries, each with its stamp. *)
Definition entries (body : bytes) : outcome error (list Listed) :=
  let reader := cursor_new body in
  '(_, reader) ← read_u32_be reader;
  '(count, reader) ← read_u32_be reader;
  entries_loop (N.to_nat count) reader [].
End wire.

(** ** The draft's encoding of attributes and listings (sections 5 and 7) *)
Record Attrs : Type := {
  attr_size : option N;
  attr_uidgid : option (N * N);
  attr_permissions : option N;
  attr_times : option (N * N);
  attr_extended : option (list (bytes * bytes));
}.

Definition opt {A B} (o : option A) (f : A → B) (b : B) : B :=
  match o with Some a => f a | None => b end.

Definition attr_flags (a : Attrs) : N :=
  opt (attr_size a) (λ _, ATTR_SIZE) 0 + opt (attr_uidgid a) (λ _, ATTR_UIDGID) 0
  + opt (attr_permissions a) (λ _, ATTR_PERMISSIONS) 0
  + opt (attr_times a) (λ _, ATTR_ACMODTIME) 0
  + opt (attr_extended a) (λ _, ATTR_EXTENDED) 0.

Definition enc_u32_pair (p : N * N) : bytes := enc_u32 p.1 ++ enc_u32 p.2.
Definition enc_string_pair (p : bytes * bytes) : bytes := enc_string p.1 ++ enc_string p.2.

Definition enc_attrs (a : Attrs) : bytes :=
  enc_u32 (attr_flags a) ++ opt (attr_size a) enc_u64 [] ++ opt (attr_uidgid a) enc_u32_pair []
  ++ opt (attr_permissions a) enc_u32 [] ++ opt (attr_times a) enc_u32_pair []
  ++ opt (attr_extended a)
       (λ l, enc_u32 (N.of_nat (length l)) ++ concat (enc_string_pair <$> l)) [].

Definition u32_pair (p : N * N) : Prop := p.1 < U32 ∧ p.2 < U32.

(** Every number and string fits its wire type. *)
Definition attrs_fit (a : Attrs) : Prop :=
  opt (attr_size a) (λ n, n < U64) True ∧ opt (attr_uidgid a) u32_pair True
  ∧ opt (attr_permissions a) (λ n, n < U32) True ∧ opt (attr_times a) u32_pair True
  ∧ opt (attr_extended a) (λ l, N.of_nat (length l) < U32
      ∧ Forall (λ p, blen p.1 < U32 ∧ blen p.2 < U32) l) True.

(** The stamp of a file whose attributes these are. *)
Definition stamp_of (a : Attrs) : option Stamp :=
  match attr_size a, attr_times a with
  | Some l, Some (_, m) => Some {| stamp_length := l; stamp_modified := m |}
  | _, _ => None
  end.

(** One entry of a NAME body: the name, the long name, the attributes. *)
Definition enc_entry (e : string * bytes * Attrs) : bytes :=
  enc_string (as_bytes e.1.1) ++ enc_string e.1.2 ++ enc_attrs e.2.

Definition entry_fits (e : string * bytes * Attrs) : Prop :=
  utf8_string e.1.1 ∧ blen (as_bytes e.1.1) < U32 ∧ blen e.1.2 < U32 ∧ attrs_fit e.2.

Definition listed_of (e : string * bytes * Attrs) : Listed := (e.1.1, stamp_of e.2).

Lemma attr_flags_fit a : attr_flags a < U32.
Proof. destruct a as [[] [] [] [] []]; by vm_compute. Qed.

(** Each flag bit says whether its attribute is there. *)
Lemma has_attr_flags a :
  has (attr_flags a) ATTR_SIZE = opt (attr_size a) (λ _, true) false
  ∧ has (attr_flags a) ATTR_UIDGID = opt (attr_uidgid a) (λ _, true) false
  ∧ has (attr_flags a) ATTR_PERMISSIONS = opt (attr_permissions a) (λ _, true) false
  ∧ has (attr_flags a) ATTR_ACMODTIME = opt (attr_times a) (λ _, true) false
  ∧ has (attr_flags a) ATTR_EXTENDED = opt (attr_extended a) (λ _, true) false.
Proof. destruct a as [[] [] [] [] []]; by vm_compute. Qed.

Section wire_lemmas.
Context `{!TransportErrors, !Codec, !CodecLaws}.

Lemma skip_pairs_at l c tl :
  rest c = concat (enc_string_pair <$> l) ++ tl →
  Forall (λ p, blen p.1 < U32 ∧ blen p.2 < U32) l →
  ∃ c', skip_pairs (length l) c = Ok c' ∧ rest c' = tl.
Proof.
  intros Hr Hl. revert c Hr. induction Hl as [|[p q] l [Hp Hq] _ IH]; intros c Hr; [by eauto|].
  cbn [fmap list_fmap concat] in Hr. unfold enc_string_pair in Hr at 1. simpl in *.
  read_step. read_step. by apply IH.
Qed.

Lemma stamp_at a c tl :
  rest c = enc_attrs a ++ tl → attrs_fit a →
  ∃ c', stamp c = Ok (stamp_of a, c') ∧ rest c' = tl.
Proof.
  unfold enc_attrs, stamp. intros Hr (Hs & Hu & Hp & Ht & Hx).
  pose proof (attr_flags_fit a). read_step.
  destruct (has_attr_flags a) as (-> & -> & -> & -> & ->).
  destruct a as [size ugid perm times ext]; unfold stamp_of, u32_pair, enc_u32_pair in *;
    cbn [attr_size attr_uidgid attr_permissions attr_times attr_extended opt] in *.
  destruct size; cbn [opt app] in *; [read_step|]; cbn [mbind outcome_bind mret outcome_ret];
  (destruct ugid as [[]|]; simpl in Hu; cbn [opt fst snd app] in *; [read_step; read_step|];
    cbn [mbind outcome_bind mret outcome_ret]);
  (destruct perm; cbn [opt app] in *; [read_step|]; cbn [mbind outcome_bind mret outcome_ret]);
  (destruct times as [[]|]; simpl in Ht; cbn [opt fst snd app] in *; [read_step; read_step|];
    cbn [mbind outcome_bind mret outcome_ret]);
  (destruct ext as [l|]; cbn [opt app] in *;
    [destruct Hx as [Hl Hx]; read_step; rewrite Nat2N.id;
     match goal with Hr : rest ?c = concat _ ++ _ |- _ =>
       destruct (skip_pairs_at l c tl Hr Hx) as (c' & -> & H') end|]);
  cbn; eauto.
Qed.

Lemma utf8_ok t : utf8_string t → utf8 (as_bytes t) = Ok t.
Proof. intros Ht. unfold utf8. by rewrite from_utf8_as_bytes. Qed.

Lemma utf8_inv b t : utf8 b = Ok t → as_bytes t = b ∧ utf8_string t.
Proof.
  unfold utf8. destruct (from_utf8 b) eqn:E; [|done]. intros [= ->].
  by apply from_utf8_Some.
Qed.

Lemma entries_loop_at es c tl names :
  rest c = concat (enc_entry <$> es) ++ tl → Forall entry_fits es →
  entries_loop (length es) c names = Ok (names ++ (listed_of <$> es)).
Proof.
  intros Hr Hes. revert c names Hr.
  induction Hes as [|[[name long] a] es (Hu & Hn & Hl & Ha) _ IH]; intros c names Hr.
  { simpl. by rewrite (right_id_L [] (++)). }
  cbn [fmap list_fmap concat] in Hr. unfold enc_entry in Hr at 1. cbn [fst snd] in *.
  cbn [length entries_loop]. read_step. rewrite utf8_ok by done.
  cbn [mbind outcome_bind]. read_step.
  match goal with H : rest ?c = enc_attrs a ++ ?tl |- _ =>
    destruct (stamp_at a c tl H Ha) as (c' & -> & H') end.
  cbn [mbind outcome_bind]. rewrite (IH c' _ H'). cbn. by rewrite <- (assoc_L (++)).
Qed.

(** A whole NAME body, read. *)
Lemma entries_at id es tl :
  id < U32 → N.of_nat (length es) < U32 → Forall entry_fits es →
  entries (enc_u32 id ++ enc_u32 (N.of_nat (length es)) ++ concat (enc_entry <$> es) ++ tl)
  = Ok (listed_of <$> es).
Proof.
  intros Hid Hn Hes. unfold entries.
  match goal with |- context [cursor_new ?b] => pose proof (cursor_new_rest b) end.
  read_step. read_step. rewrite Nat2N.id. by erewrite entries_loop_at.
Qed.

(** Every packet body is a kind and a body again, and where it ends is known. *)
Lemma frame_spec kind body :
  kind < 256 → blen body + 1 < U32 →
  frame kind body = enc_u32 (blen body + 1) ++ byte_of_N kind :: body.
Proof.
  intros Hk Hb. unfold frame, u32_of.
  destruct (N.leb_spec (blen body + 1) u32_max); [|fits].
  by rewrite put_bytes_spec, put_byte_spec, u32_be_spec, <- !(assoc_L (++)).
Qed.

Lemma utf8_answers b : answers (utf8 b).
Proof. unfold utf8. answers. Qed.
Lemma code_answers b : answers (code b).
Proof. unfold code. answers. Qed.
Lemma skip_pairs_answers n c : answers (skip_pairs n c).
Proof. revert c. induction n as [|n IH]; intros c; answers. Qed.
Hint Resolve skip_pairs_answers utf8_answers : sftp.
Lemma stamp_answers c : answers (stamp c).
Proof. unfold stamp. answers. Qed.
Hint Resolve stamp_answers : sftp.
Lemma entries_loop_answers n c names : answers (entries_loop n c names).
Proof. revert c names. induction n as [|n IH]; intros c names; answers. Qed.
End wire_lemmas.

#[export] Hint Resolve utf8_answers code_answers stamp_answers : sftp.

(** ** What reading takes off a cursor *)
Section consumption.
Context `{!TransportErrors, !Codec, !CodecLaws}.

Lemma read_u32_takes c n c' : read_u32_be c = Ok (n, c') → blen (rest c) = 4 + blen (rest c').
Proof. intros [-> _]%(reads_sound _ _ _ u32_reads). fits. Qed.
Lemma read_u64_takes c n c' : read_u64_be c = Ok (n, c') → blen (rest c) = 8 + blen (rest c').
Proof. intros [-> _]%(reads_sound _ _ _ u64_reads). fits. Qed.
Lemma read_string_takes c s c' :
  read_string c = Ok (s, c') → blen (rest c) = 4 + blen s + blen (rest c').
Proof. intros [-> _]%(reads_sound _ _ _ string_reads). fits. Qed.

(** Turn every reader fact of the context into the bytes it took. *)
Ltac takes :=
  repeat match goal with
  | H : read_u32_be _ = Ok _ |- _ => apply read_u32_takes in H
  | H : read_u64_be _ = Ok _ |- _ => apply read_u64_takes in H
  | H : read_string _ = Ok _ |- _ => apply read_string_takes in H
  end.

Lemma skip_pairs_takes n c c' : skip_pairs n c = Ok c' → blen (rest c') ≤ blen (rest c).
Proof.
  revert c. induction n as [|n IH]; intros c Hs; simpl in Hs; ok_inv; [lia|].
  apply IH in Hs. takes. lia.
Qed.

Lemma stamp_takes c o c' : stamp c = Ok (o, c') → 4 + blen (rest c') ≤ blen (rest c).
Proof.
  unfold stamp. intros Hs. ok_inv; takes;
    repeat match goal with H : skip_pairs _ _ = Ok _ |- _ => apply skip_pairs_takes in H end; lia.
Qed.

Lemma entries_loop_sound n c names l :
  entries_loop n c names = Ok l →
  length l = (length names + n)%nat ∧ 12 * N.of_nat n ≤ blen (rest c)
  ∧ (Forall (λ e : Listed, utf8_string e.1) names → Forall (λ e : Listed, utf8_string e.1) l).
Proof.
  revert c names. induction n as [|n IH]; intros c names Hl; simpl in Hl; ok_inv.
  { split; [lia|]. split; [lia|done]. }
  apply IH in Hl as (Hlen & Hb & Hu). rewrite length_app in Hlen. simpl in Hlen.
  match goal with H : stamp _ = Ok _ |- _ => apply stamp_takes in H end. takes.
  match goal with H : utf8 _ = Ok _ |- _ => apply utf8_inv in H as [_ ?] end.
  split; [lia|]. split; [lia|]. intros Hn. apply Hu, Forall_app. by repeat constructor.
Qed.
End consumption.

(** ** The properties *)
Section properties.
Context `{!TransportErrors, !Codec, !CodecLaws}.

(** Frames delimit themselves.  Two streams of bytes that each start
    with a frame no longer than its length field can say are the same
    stream only where the frames carry the same type and body and the same
    bytes follow, so a reader that takes the length field at its word never
    reads one packet as another. *)
Theorem frame_prefix_free k1 b1 s1 k2 b2 s2 :
  k1 < 256 → k2 < 256 → blen b1 + 1 < U32 → blen b2 + 1 < U32 →
  frame k1 b1 ++ s1 = frame k2 b2 ++ s2 → k1 = k2 ∧ b1 = b2 ∧ s1 = s2.
Proof.
  intros Hk1 Hk2 Hb1 Hb2. rewrite !frame_spec by done. rewrite <- !(assoc_L (++)).
  intros Heq. apply app_inj_1 in Heq as [Hlen Heq]; [|by rewrite !length_enc_u32].
  apply (f_equal be_value) in Hlen. rewrite !value_enc_u32 in Hlen by done.
  injection Heq as Hk Heq. apply app_inj_1 in Heq as [-> ->]; [|unfold blen in *; lia].
  apply (f_equal Byte.to_N) in Hk. rewrite !byte_to_of_N, !N.mod_small in Hk by done. done.
Qed.

(** C38: a listing reads back as it was written: a NAME body that encodes
    entries as the draft says, with any attributes in it and any bytes
    after it, gives each name in order, with a stamp exactly where both the
    length and the modification time are there. *)
Theorem entries_roundtrip id es tl :
  id < U32 → N.of_nat (length es) < U32 → Forall entry_fits es →
  entries (enc_u32 id ++ enc_u32 (N.of_nat (length es)) ++ concat (enc_entry <$> es) ++ tl)
  = Ok (listed_of <$> es).
Proof. apply entries_at. Qed.

(** No bytes a server can send make the readers of its replies panic:
    on any body, the status code, the listing and the attributes are read
    or refused with an error. *)
Theorem readers_answer body :
  answers (code body) ∧ answers (entries body) ∧ answers (stamp (cursor_new body)).
Proof.
  split; [apply code_answers|]. split; [|apply stamp_answers].
  unfold entries. answers. apply entries_loop_answers.
Qed.

(** What [entries] takes of a listing is bounded by the bytes that came:
    each entry is twelve bytes of the body at the least, whatever count the
    body claims, and every name it gives is UTF-8. *)
Theorem entries_bounded body l :
  entries body = Ok l →
  8 + 12 * N.of_nat (length l) ≤ blen body ∧ Forall (λ e : Listed, utf8_string e.1) l.
Proof.
  unfold entries. intros He. ok_inv.
  apply entries_loop_sound in He as (Hl & Hb & Hu). simpl in Hl.
  apply read_u32_takes in E. apply read_u32_takes in E0. rewrite cursor_new_rest in E.
  split; [lia|]. by apply Hu.
Qed.

(** A refusal is reported with the code the server gave, and with
    FAILURE where its STATUS body is too short to hold one; and [code] is
    an error exactly there. *)
Lemma status_error_reports body what :
  (∀ id c tl, body = enc_u32 id ++ enc_u32 c ++ tl → id < U32 → c < U32 →
    code body = Ok c
    ∧ status_error body what = protocol_error
        ("the server refused " +:+ what +:+ " with SFTP status " +:+ pretty c))
  ∧ (blen body < 8 → (∃ e, code body = Err e)
    ∧ status_error body what = protocol_error
        ("the server refused " +:+ what +:+ " with SFTP status " +:+ pretty FAILURE)).
Proof.
  pose proof (cursor_new_rest body) as Hr. split.
  - intros id c tl -> Hid Hc. unfold code, status_error. split; by repeat read_step.
  - intros Hshort.
    assert (∀ n c, read_u32_be (cursor_new body) = Ok (n, c) →
      ∃ e, read_u32_be c = Err e) as Hsecond.
    { intros n c E%read_u32_takes. rewrite Hr in E.
      destruct (read_u32_answers c) as [[[m c'] E2]|[e E2]]; [|by exists e].
      apply read_u32_takes in E2. lia. }
    unfold code, status_error.
    destruct (read_u32_answers (cursor_new body)) as [[[n c] E]|[e E]]; rewrite E; simpl.
    + destruct (Hsecond _ _ E) as [e ->]. simpl. eauto.
    + eauto.
Qed.
End properties.

(** ** Witnesses *)
Module Witnesses.
Import Reference.Instances.

Example a_listing : list (string * bytes * Attrs) :=
  [("one", as_bytes "one", Build_Attrs None None None None None);
   ("two", as_bytes "two", Build_Attrs (Some 5) (Some (1, 2)) (Some 420) (Some (7, 9)) None);
   ("three", as_bytes "three",
     Build_Attrs (Some 1) None None None (Some [(as_bytes "k", as_bytes "v")]))].

Lemma a_listing_fits : Forall entry_fits a_listing.
Proof. repeat constructor. Qed.

Lemma frame_prefix_free_witness :
  frame OPEN (as_bytes "abcd") ++ [] = frame OPEN (as_bytes "abcd") ++ [] ∧ OPEN = OPEN.
Proof.
  split; [reflexivity|].
  exact (proj1 (frame_prefix_free OPEN (as_bytes "abcd") [] OPEN (as_bytes "abcd") []
    eq_refl eq_refl eq_refl eq_refl eq_refl)).
Defined.

Lemma entries_roundtrip_witness :
  entries (enc_u32 1 ++ enc_u32 3 ++ concat (enc_entry <$> a_listing) ++ [])
  = Ok [("one", None); ("two", Some (Build_Stamp 5 9)); ("three", None)].
Proof. exact (entries_roundtrip 1 a_listing [] eq_refl eq_refl a_listing_fits). Defined.

Lemma readers_answer_witness : answers (code (as_bytes "xyz")).
Proof. exact (proj1 (readers_answer (as_bytes "xyz"))). Defined.

Lemma entries_bounded_witness :
  8 + 12 * 3 ≤ blen (enc_u32 1 ++ enc_u32 3 ++ concat (enc_entry <$> a_listing) ++ []).
Proof.
  refine (proj1 (entries_bounded _ (listed_of <$> a_listing) _)). vm_compute. reflexivity.
Defined.

Lemma status_error_reports_witness :
  code (enc_u32 7 ++ enc_u32 EOF ++ as_bytes "done") = Ok EOF.
Proof.
  exact (proj1 (proj1 (status_error_reports (enc_u32 7 ++ enc_u32 EOF ++ as_bytes "done") "the read")
    7 EOF (as_bytes "done") eq_refl eq_refl eq_refl)).
Defined.
End Witnesses.
