(* ===== verification/Directory.v ===== *)
(** The far end's side of the subsystem (src/directory.rs): one directory held
    in memory, the handles a channel was handed out, and the answer to each
    request, branch by branch as the code has it.

    [Directory] is the code's: the files, when each was last written, the
    newest time given, and who is told of a finished file.  The owner's
    callback is represented by what it was told, oldest first.  [Far] is what
    one channel's [serve] keeps beside the directory: its handles and the
    number the next one carries.  The system clock is an argument of the
    requests that may note a time: what [duration_since(UNIX_EPOCH)] gave,
    [None] where the clock stands before the epoch. *)

From S2P Require Import Prelude RustStd Externals Reference Wire.

Local Open Scope N_scope.

(** ** Data *)
Record Directory : Type := {
  files : gmap string bytes;
  written : gmap string N;
  newest : N;
  told : option (list string);
}.

Inductive Handle : Type :=
  | Write (name : string)
  | Read (name : string)
  | Dir (read : bool).

#[export] Instance Handle_eq_dec : EqDecision Handle.
Proof. solve_decision. Defined.

Record Far : Type := { directory : Directory; handles : gmap string Handle; next : N }.

(** [Directory::default] and [Directory::new]. *)
Definition default_directory : Directory :=
  {| files := ∅; written := ∅; newest := 0; told := None |}.
Definition new_directory (fs : gmap string bytes) : Directory :=
  {| files := fs; written := ∅; newest := 0; told := None |}.

(** [Directory::telling]: an owner from here on told of each finished file. *)
Definition telling (d : Directory) : Directory :=
  {| files := files d; written := written d; newest := newest d; told := Some [] |}.

(** What [duration_since(UNIX_EPOCH)] is taken for: whole seconds in a [u32]. *)
Definition clock_secs (now : option N) : N :=
  match now with Some secs => u32_of secs | None => 0 end.

(** Note [name] written now, always after the write before it. *)
Definition touch (now : option N) (name : string) (d : Directory) : Directory :=
  let t := N.max (clock_secs now) (u32_saturating_add (newest d) 1) in
  {| files := files d; written := <[name := t]> (written d); newest := t; told := told d |}.

(** When [name] was last written; never, for a file the directory was given. *)
Definition modified (d : Directory) (name : string) : N := default 0 (written d !! name).

Definition with_files (f : gmap string bytes → gmap string bytes) (d : Directory) : Directory :=
  {| files := f (files d); written := written d; newest := newest d; told := told d |}.
Definition with_written (f : gmap string N → gmap string N) (d : Directory) : Directory :=
  {| files := files d; written := f (written d); newest := newest d; told := told d |}.
(** [told(&name)], where the directory has an owner to tell. *)
Definition tell (name : string) (d : Directory) : Directory :=
  {| files := files d; written := written d; newest := newest d;
     told := (λ heard, heard ++ [name]) <$> told d |}.

Definition on_directory (f : Directory → Directory) (s : Far) : Far :=
  {| directory := f (directory s); handles := handles s; next := next s |}.
Definition on_handles (f : gmap string Handle → gmap string Handle) (s : Far) : Far :=
  {| directory := directory s; handles := f (handles s); next := next s |}.
Definition set_next (n : N) (s : Far) : Far :=
  {| directory := directory s; handles := handles s; next := n |}.

Section directory.
Context `{!Platform, !TransportErrors, !Codec, !Net}.

(** ** Replies *)
Definition handle_reply (id : N) (handle : string) : bytes :=
  let body := [] |> u32_be id |> put_string (as_bytes handle) in
  frame HANDLE body.

Definition data_reply (id : N) (data : bytes) : bytes :=
  let body := [] |> u32_be id |> put_string data in
  frame DATA body.

Definition status (id code : N) (message : string) : bytes :=
  let body := [] |> u32_be id |> u32_be code |> put_string (as_bytes message)
                 |> put_string [] in
  frame STATUS body.

(** Every file in its order, each with its length and modification time. *)
Definition name_entry (d : Directory) (body : bytes) (file : string * bytes) : bytes :=
  let '(name, contents) := file in
  let m := modified d name in
  body |> put_string (as_bytes name) |> put_string (as_bytes name)
       |> u32_be (N.lor ATTR_SIZE ATTR_ACMODTIME) |> u64_be (blen contents)
       |> u32_be m |> u32_be m.

Definition name_reply (id : N) (d : Directory) : bytes :=
  let body := [] |> u32_be id |> u32_be (u32_of (N.of_nat (size (files d)))) in
  frame NAME (fold_left (name_entry d) (btree_iter (files d)) body).

(** ** Handlers *)
Definition read_id (r : Cursor) : M Far error (N * Cursor) := lift (read_u32_be r).
Definition read_text (r : Cursor) : M Far error (string * Cursor) :=
  '(raw, r) ← lift (read_string r);
  text ← lift (utf8 raw);
  mret (text, r).

(** [*next += 1], and the number before it. *)
Definition take_number : M Far error N :=
  n ← gets next;
  n' ← lift (u64_add n 1);
  _ ← modify (set_next n');
  mret n.

(** Open a file: for writing it is created empty, for reading it must exist. *)
Definition on_open (now : option N) (r : Cursor) : M Far error bytes :=
  '(id, r) ← read_id r;
  '(name, r) ← read_text r;
  '(flags, r) ← lift (read_u32_be r);
  n ← take_number;
  let handle := "h" +:+ pretty n in
  fs ← gets (λ s, files (directory s));
  let exists_ := bool_decide (is_Some (fs !! name)) in
  if has flags F_WRITE then
    if exists_ && has flags F_EXCL then mret (status id FAILURE "the file exists") else
    _ ← (if negb exists_ || has flags F_TRUNC
         then modify (on_directory (with_files <[name := []]>))
         else mret tt);
    _ ← modify (on_directory (touch now name));
    _ ← modify (on_handles <[handle := Write name]>);
    mret (handle_reply id handle)
  else if exists_ then
    _ ← modify (on_handles <[handle := Read name]>);
    mret (handle_reply id handle)
  else mret (status id NO_SUCH_FILE "no such file").

(** Write data at an offset into the file the handle names. *)
Definition on_write (now : option N) (r : Cursor) : M Far error bytes :=
  '(id, r) ← read_id r;
  '(handle, r) ← read_text r;
  '(raw_offset, r) ← lift (read_u64_be r);
  let offset := usize_of_u64 raw_offset in
  '(data, r) ← lift (read_string r);
  hs ← gets handles;
  match hs !! handle with
  | Some (Write name) =>
    let end_ := usize_saturating_add offset (blen data) in
    match ceiling_within end_ MAX_BODY "Xmip holds of one file" with
    | Some message => mret (status id FAILURE message)
    | None =>
      fs ← gets (λ s, files (directory s));
      let file := default [] (fs !! name) in
      file ← lift (if blen file <? end_ then vec_resize file end_ else mret file);
      file ← lift (copy_from_slice file offset end_ data);
      _ ← modify (on_directory (with_files <[name := file]>));
      _ ← modify (on_directory (touch now name));
      mret (status id OK "written")
    end
  | _ => mret (status id FAILURE "a write to a handle not open for writing")
  end.

(** Read data at an offset from the file the handle names. *)
Definition on_read (r : Cursor) : M Far error bytes :=
  '(id, r) ← read_id r;
  '(handle, r) ← read_text r;
  '(raw_offset, r) ← lift (read_u64_be r);
  let offset := usize_of_u64 raw_offset in
  '(want, r) ← lift (read_u32_be r);
  hs ← gets handles;
  match hs !! handle with
  | Some (Read name) =>
    fs ← gets (λ s, files (directory s));
    let file := default [] (fs !! name) in
    if blen file <=? offset then mret (status id EOF "end of file") else
    let end_ := N.min (blen file) (usize_saturating_add offset want) in
    data ← lift (slice file offset end_);
    mret (data_reply id data)
  | _ => mret (status id FAILURE "a read from a handle not open for reading")
  end.

(** List the directory once, then say end of directory. *)
Definition on_readdir (r : Cursor) : M Far error bytes :=
  '(id, r) ← read_id r;
  '(handle, r) ← read_text r;
  hs ← gets handles;
  match hs !! handle with
  | Some (Dir false) =>
    _ ← modify (on_handles <[handle := Dir true]>);
    d ← gets directory;
    mret (name_reply id d)
  | Some (Dir true) => mret (status id EOF "end of directory")
  | _ => mret (status id FAILURE "a readdir on a handle that is not a directory")
  end.

(** Rename a file, keeping when it was written; refused onto a name that
    exists. *)
Definition on_rename (r : Cursor) : M Far error bytes :=
  '(id, r) ← read_id r;
  '(from, r) ← read_text r;
  '(to, r) ← read_text r;
  fs ← gets (λ s, files (directory s));
  if bool_decide (is_Some (fs !! to)) then mret (status id FAILURE "the new name exists") else
  match fs !! from with
  | None => mret (status id NO_SUCH_FILE "no such file")
  | Some contents =>
    _ ← modify (on_directory (with_files (λ fs, <[to := contents]> (delete from fs))));
    ws ← gets (λ s, written (directory s));
    _ ← match ws !! from with
        | Some t => modify (on_directory (with_written (λ ws, <[to := t]> (delete from ws))))
        | None => mret tt
        end;
    mret (status id OK "renamed")
  end.

Definition on_opendir (r : Cursor) : M Far error bytes :=
  '(id, r) ← read_id r;
  '(_, r) ← lift (read_string r);
  n ← take_number;
  let handle := "d" +:+ pretty n in
  _ ← modify (on_handles <[handle := Dir false]>);
  mret (handle_reply id handle).

Definition on_close (r : Cursor) : M Far error bytes :=
  '(id, r) ← read_id r;
  '(handle, r) ← read_text r;
  hs ← gets handles;
  _ ← modify (on_handles (delete handle));
  _ ← match hs !! handle with
      | Some (Write name) => modify (on_directory (tell name))
      | _ => mret tt
      end;
  mret (status id OK "closed").

Definition on_remove (r : Cursor) : M Far error bytes :=
  '(id, r) ← read_id r;
  '(name, r) ← read_text r;
  _ ← modify (on_directory (with_written (delete name)));
  fs ← gets (λ s, files (directory s));
  _ ← modify (on_directory (with_files (delete name)));
  match fs !! name with
  | Some _ => mret (status id OK "removed")
  | None => mret (status id NO_SUCH_FILE "no such file")
  end.

Definition on_stat (r : Cursor) : M Far error bytes :=
  '(id, r) ← read_id r;
  '(name, r) ← read_text r;
  d ← gets directory;
  mret match files d !! name with
    | Some contents =>
      let m := modified d name in
      let body := [] |> u32_be id |> u32_be (N.lor ATTR_SIZE ATTR_ACMODTIME)
                     |> u64_be (blen contents) |> u32_be m |> u32_be m in
      frame ATTRS body
    | None => status id NO_SUCH_FILE "no such file"
    end.

(** The reply to one request, by its type. *)
Definition answer (now : option N) (kind : N) (body : bytes) : M Far error bytes :=
  let reader := cursor_new body in
  if kind =? INIT then mret (frame VERSION ([] |> u32_be PROTOCOL))
  else if kind =? OPEN then on_open now reader
  else if kind =? WRITE then on_write now reader
  else if kind =? READ then on_read reader
  else if kind =? OPENDIR then on_opendir reader
  else if kind =? READDIR then on_readdir reader
  else if kind =? CLOSE then on_close reader
  else if kind =? REMOVE then on_remove reader
  else if kind =? RENAME then on_rename reader
  else if kind =? STAT then on_stat reader
  else fail (protocol_error ("an SFTP request of type " +:+ pretty kind)).
End directory.
