(* ===== verification/FarSpec.v ===== *)
(** What the far end promises, without bytes: requests and replies as data,
    and one pure function from a request and the far end's state to the reply
    and the state after ([execute]).  The refinement theorem says that
    [Directory.answer] on any packet decodes it and does what [execute] says,
    or refuses it with the state untouched, and never panics. *)

From S2P Require Import Prelude RustStd Externals Reference Wire Directory.

Local Open Scope N_scope.

(** ** Requests and replies *)
Inductive request : Type :=
  | RqInit
  | RqOpen (id : N) (name : string) (flags : N)
  | RqWrite (id : N) (handle : string) (offset : N) (data : bytes)
  | RqRead (id : N) (handle : string) (offset want : N)
  | RqOpendir (id : N)
  | RqReaddir (id : N) (handle : string)
  | RqClose (id : N) (handle : string)
  | RqRemove (id : N) (name : string)
  | RqRename (id : N) (from to : string)
  | RqStat (id : N) (name : string).

Inductive reply : Type :=
  | RpVersion
  | RpStatus (id code : N) (message : string)
  | RpHandle (id : N) (handle : string)
  | RpData (id : N) (data : bytes)
  | RpName (id : N) (listing : list (string * Stamp))
  | RpAttrs (id : N) (s : Stamp).

(** ** File contents *)

(** [file] with [data] written over it at [offset], zeros up to there where it
    was shorter. *)
Definition splice (file : bytes) (offset : N) (data : bytes) : bytes :=
  take (N.to_nat offset) (file ++ replicate (N.to_nat offset - length file) Byte.x00)
  ++ data ++ drop (N.to_nat offset + length data) file.

(** At most [want] bytes of [file] from [offset]. *)
Definition sub (file : bytes) (offset want : N) : bytes :=
  take (N.to_nat want) (drop (N.to_nat offset) file).

(** ** The specification *)
Definition stamp_in (d : Directory) (name : string) (contents : bytes) : Stamp :=
  {| stamp_length := blen contents; stamp_modified := modified d name |}.

(** The listing of a directory, in the order of its names. *)
Definition listing (d : Directory) : list (string * Stamp) :=
  (λ '(name, contents), (name, stamp_in d name contents)) <$> btree_iter (files d).

Section execute.
Context `{!Platform, !Net}.

(** The text of the refusal of a write past the ceiling. *)
Definition too_large (offset len : N) : string :=
  default "" (ceiling_within (usize_saturating_add (usize_of_u64 offset) len) MAX_BODY
                "Xmip holds of one file").

(** Hand out a new handle to [h], named by [letter] and the next number. *)
Definition hand_out (letter : string) (h : Handle) (s : Far) : string * Far :=
  let handle := letter +:+ pretty (next s) in
  (handle, on_handles <[handle := h]> (set_next (next s + 1) s)).

(** A refused open still used its number. *)
Definition skip_number (s : Far) : Far := set_next (next s + 1) s.

(** [name] holding [contents], written now. *)
Definition store (now : option N) (name : string) (contents : bytes) : Far → Far :=
  on_directory (λ d, touch now name (with_files <[name := contents]> d)).

Definition execute (now : option N) (r : request) (s : Far) : reply * Far :=
  let d := directory s in
  match r with
  | RqInit => (RpVersion, s)
  | RqOpen id name flags =>
    if has flags F_WRITE then
      match files d !! name with
      | Some old =>
        if has flags F_EXCL then (RpStatus id FAILURE "the file exists", skip_number s) else
        let contents := if has flags F_TRUNC then [] else old in
        let '(h, s) := hand_out "h" (Write name) (store now name contents s) in (RpHandle id h, s)
      | None =>
        let '(h, s) := hand_out "h" (Write name) (store now name [] s) in (RpHandle id h, s)
      end
    else
      match files d !! name with
      | Some _ => let '(h, s) := hand_out "h" (Read name) s in (RpHandle id h, s)
      | None => (RpStatus id NO_SUCH_FILE "no such file", skip_number s)
      end
  | RqWrite id handle offset data =>
    match handles s !! handle with
    | Some (Write name) =>
      if offset + blen data <=? MAX_BODY
      then (RpStatus id OK "written",
            store now name (splice (default [] (files d !! name)) offset data) s)
      else (RpStatus id FAILURE (too_large offset (blen data)), s)
    | _ => (RpStatus id FAILURE "a write to a handle not open for writing", s)
    end
  | RqRead id handle offset want =>
    match handles s !! handle with
    | Some (Read name) =>
      let file := default [] (files d !! name) in
      if blen file <=? offset then (RpStatus id EOF "end of file", s)
      else (RpData id (sub file offset want), s)
    | _ => (RpStatus id FAILURE "a read from a handle not open for reading", s)
    end
  | RqOpendir id => let '(h, s) := hand_out "d" (Dir false) s in (RpHandle id h, s)
  | RqReaddir id handle =>
    match handles s !! handle with
    | Some (Dir false) => (RpName id (listing d), on_handles <[handle := Dir true]> s)
    | Some (Dir true) => (RpStatus id EOF "end of directory", s)
    | _ => (RpStatus id FAILURE "a readdir on a handle that is not a directory", s)
    end
  | RqClose id handle =>
    let s' := on_handles (delete handle) s in
    (RpStatus id OK "closed",
     match handles s !! handle with
     | Some (Write name) => on_directory (tell name) s'
     | _ => s'
     end)
  | RqRemove id name =>
    let s' := on_directory (λ d, with_files (delete name) (with_written (delete name) d)) s in
    (match files d !! name with
     | Some _ => RpStatus id OK "removed"
     | None => RpStatus id NO_SUCH_FILE "no such file"
     end, s')
  | RqRename id from to =>
    match files d !! to, files d !! from with
    | Some _, _ => (RpStatus id FAILURE "the new name exists", s)
    | None, None => (RpStatus id NO_SUCH_FILE "no such file", s)
    | None, Some contents =>
      (RpStatus id OK "renamed",
       on_directory (λ d,
         with_written (λ ws, match ws !! from with
                             | Some t => <[to := t]> (delete from ws)
                             | None => ws
                             end)
           (with_files (λ fs, <[to := contents]> (delete from fs)) d)) s)
    end
  | RqStat id name =>
    (match files d !! name with
     | Some contents => RpAttrs id (stamp_in d name contents)
     | None => RpStatus id NO_SUCH_FILE "no such file"
     end, s)
  end.
End execute.

(** ** The encodings *)
Section encodings.
Context `{!TransportErrors, !Codec}.

Definition text (r : Cursor) : outcome error (string * Cursor) :=
  '(raw, r) ← read_string r; t ← utf8 raw; mret (t, r).

(** The request a packet holds. *)
Definition decode (kind : N) (body : bytes) : outcome error request :=
  let r := cursor_new body in
  if kind =? INIT then mret RqInit
  else if kind =? OPEN then
    '(id, r) ← read_u32_be r; '(name, r) ← text r; '(flags, _) ← read_u32_be r;
    mret (RqOpen id name flags)
  else if kind =? WRITE then
    '(id, r) ← read_u32_be r; '(handle, r) ← text r;
    '(offset, r) ← read_u64_be r; '(data, _) ← read_string r;
    mret (RqWrite id handle offset data)
  else if kind =? READ then
    '(id, r) ← read_u32_be r; '(handle, r) ← text r;
    '(offset, r) ← read_u64_be r; '(want, _) ← read_u32_be r;
    mret (RqRead id handle offset want)
  else if kind =? OPENDIR then
    '(id, r) ← read_u32_be r; '(_, _) ← read_string r; mret (RqOpendir id)
  else if kind =? READDIR then
    '(id, r) ← read_u32_be r; '(handle, _) ← text r; mret (RqReaddir id handle)
  else if kind =? CLOSE then
    '(id, r) ← read_u32_be r; '(handle, _) ← text r; mret (RqClose id handle)
  else if kind =? REMOVE then
    '(id, r) ← read_u32_be r; '(name, _) ← text r; mret (RqRemove id name)
  else if kind =? RENAME then
    '(id, r) ← read_u32_be r; '(from, r) ← text r; '(to, _) ← text r;
    mret (RqRename id from to)
  else if kind =? STAT then
    '(id, r) ← read_u32_be r; '(name, _) ← text r; mret (RqStat id name)
  else Err (protocol_error ("an SFTP request of type " +:+ pretty kind)).

(** A listed file's attributes: its length, and its times alike. *)
Definition stamp_attrs (s : Stamp) : Attrs :=
  {| attr_size := Some (stamp_length s); attr_uidgid := None; attr_permissions := None;
     attr_times := Some (stamp_modified s, stamp_modified s); attr_extended := None |}.

Definition listing_entry (e : string * Stamp) : string * bytes * Attrs :=
  (e.1, as_bytes e.1, stamp_attrs e.2).

(** The packet of a reply, as the draft lays it out. *)
Definition reply_bytes (r : reply) : bytes :=
  match r with
  | RpVersion => frame VERSION (enc_u32 PROTOCOL)
  | RpStatus id c m =>
    frame STATUS (enc_u32 id ++ enc_u32 c ++ enc_string (as_bytes m) ++ enc_string [])
  | RpHandle id h => frame HANDLE (enc_u32 id ++ enc_string (as_bytes h))
  | RpData id d => frame DATA (enc_u32 id ++ enc_string d)
  | RpName id l =>
    frame NAME (enc_u32 id ++ enc_u32 (u32_of (N.of_nat (length l)))
                ++ concat (enc_entry <$> (listing_entry <$> l)))
  | RpAttrs id s => frame ATTRS (enc_u32 id ++ enc_attrs (stamp_attrs s))
  end.
End encodings.

(** ** The packet of a request, as the draft lays it out *)
Definition request_kind (r : request) : N :=
  match r with
  | RqInit => INIT | RqOpen _ _ _ => OPEN | RqWrite _ _ _ _ => WRITE | RqRead _ _ _ _ => READ
  | RqOpendir _ => OPENDIR | RqReaddir _ _ => READDIR | RqClose _ _ => CLOSE
  | RqRemove _ _ => REMOVE | RqRename _ _ _ => RENAME | RqStat _ _ => STAT
  end.

Definition request_body (r : request) : bytes :=
  match r with
  | RqInit => enc_u32 PROTOCOL
  | RqOpen id name flags => enc_u32 id ++ enc_string (as_bytes name) ++ enc_u32 flags ++ enc_u32 0
  | RqWrite id h offset data =>
    enc_u32 id ++ enc_string (as_bytes h) ++ enc_u64 offset ++ enc_string data
  | RqRead id h offset want =>
    enc_u32 id ++ enc_string (as_bytes h) ++ enc_u64 offset ++ enc_u32 want
  | RqOpendir id => enc_u32 id ++ enc_string (as_bytes ".")
  | RqReaddir id h | RqClose id h => enc_u32 id ++ enc_string (as_bytes h)
  | RqRemove id name | RqStat id name => enc_u32 id ++ enc_string (as_bytes name)
  | RqRename id from to => enc_u32 id ++ enc_string (as_bytes from) ++ enc_string (as_bytes to)
  end.

(** ** Well-formedness *)

(** A name the wire can carry. *)
Definition name_fits (n : string) : Prop := utf8_string n ∧ blen (as_bytes n) < U32.

Section wf.
Context `{!Net}.

(** Names are text the wire carries, no file is over the ceiling, times are
    kept for files alone and none is later than the newest, which is a
    [u32]. *)
Record wf_directory (d : Directory) : Prop := {
  wf_files n c : files d !! n = Some c → name_fits n ∧ blen c ≤ MAX_BODY;
  wf_written n t : written d !! n = Some t → is_Some (files d !! n) ∧ t ≤ newest d;
  wf_newest : newest d ≤ u32_max;
}.

(** The letter a handle's name starts with, and what it holds. *)
Definition letter (h : Handle) : string := match h with Dir _ => "d" | _ => "h" end.
Definition handle_fits (h : Handle) : Prop :=
  match h with Write n | Read n => name_fits n | Dir _ => True end.

(** Every handle is named by a number handed out before, so the next one
    is new. *)
Record wf_far (s : Far) : Prop := {
  wf_dir : wf_directory (directory s);
  wf_handles h hd : handles s !! h = Some hd →
    handle_fits hd ∧ ∃ k, k < next s ∧ h = letter hd +:+ pretty k;
  wf_next : next s ≤ u64_max;
}.

Definition request_fits (r : request) : Prop :=
  match r with
  | RqInit => True
  | RqOpen id name flags => id < U32 ∧ name_fits name ∧ flags < U32
  | RqWrite id h offset data =>
    id < U32 ∧ name_fits h ∧ offset < U64 ∧ blen data < U32
  | RqRead id h offset want => id < U32 ∧ name_fits h ∧ offset < U64 ∧ want < U32
  | RqOpendir id => id < U32
  | RqReaddir id h | RqClose id h => id < U32 ∧ name_fits h
  | RqRemove id name | RqStat id name => id < U32 ∧ name_fits name
  | RqRename id from to => id < U32 ∧ name_fits from ∧ name_fits to
  end.
End wf.

(** ** Numbers in handles are short *)
Lemma pretty_N_go_length x s :
  0 < x → blen (as_bytes (pretty_N_go x s)) ≤ N.log2 x + 1 + blen (as_bytes s).
Proof.
  revert s. induction (N.lt_wf_0 x) as [x _ IH]; intros s Hx.
  rewrite pretty_N_go_step by done.
  assert (∀ c, blen (as_bytes (String c s)) = 1 + blen (as_bytes s)) as Hc.
  { intros c. unfold blen, as_bytes, String.list_byte_of_string. simpl. lia. }
  destruct (decide (x / 10 = 0)) as [->|Hne].
  { rewrite pretty_N_go_0, Hc. lia. }
  etrans; [apply IH; [by apply N.div_lt|by apply N.neq_0_lt_0]|]. rewrite Hc.
  assert (N.log2 (x / 10) + 1 ≤ N.log2 x); [|lia].
  rewrite N.add_1_r, <- N.log2_double by (by apply N.neq_0_lt_0). apply N.log2_le_mono.
  pose proof (N.Div0.mul_div_le x 10). lia.
Qed.

Lemma pretty_N_length x : blen (as_bytes (pretty x)) ≤ N.log2 x + 2.
Proof.
  unfold pretty, pretty_N. case_decide; [subst; by vm_compute|].
  etrans; [apply pretty_N_go_length; lia|]. change (blen (as_bytes "")) with 0. lia.
Qed.

Lemma handle_name_short l k :
  l = "h" ∨ l = "d" → k ≤ u64_max → blen (as_bytes (l +:+ pretty k)) ≤ 66.
Proof.
  intros Hl Hk. rewrite as_bytes_app, blen_app. pose proof (pretty_N_length k).
  assert (N.log2 k ≤ 63).
  { etrans; [by apply N.log2_le_mono|]. by vm_compute. }
  assert (blen (as_bytes l) = 1) by (by destruct Hl as [-> | ->]).
  lia.
Qed.

Lemma handle_name_fits l k :
  l = "h" ∨ l = "d" → k ≤ u64_max → name_fits (l +:+ pretty k).
Proof.
  intros Hl Hk. split; [|pose proof (handle_name_short l k Hl Hk); lia].
  unfold utf8_string. rewrite as_bytes_app. apply utf8_valid_ascii, Forall_app.
  split; [by destruct Hl as [-> | ->]; repeat constructor|apply pretty_N_ascii].
Qed.

Lemma letter_cases h : letter h = "h" ∨ letter h = "d".
Proof. destruct h; auto. Qed.

(** A number of decimal digits after one letter tells the number. *)
Lemma letter_pretty_inj l1 l2 k1 k2 :
  (l1 = "h" ∨ l1 = "d") → (l2 = "h" ∨ l2 = "d") →
  l1 +:+ pretty k1 = l2 +:+ pretty k2 → l1 = l2 ∧ (k1 : N) = k2.
Proof.
  intros [-> | ->] [-> | ->] Heq; simpl in Heq; simplify_eq; split; try done;
    by apply (inj pretty).
Qed.

Lemma handle_new `{!Net} s l : wf_far s → (l = "h" ∨ l = "d") → handles s !! (l +:+ pretty (next s)) = None.
Proof.
  intros Hs Hl. destruct (handles s !! _) as [hd|] eqn:E; [|done].
  destruct (wf_handles _ Hs _ _ E) as (_ & k & Hk & Heq).
  apply letter_pretty_inj in Heq as [_ <-]; [lia|done|apply letter_cases].
Qed.

(** ** Contents *)
Lemma length_splice file offset data :
  length (splice file offset data)
  = Nat.max (length file) (N.to_nat offset + length data).
Proof.
  unfold splice. rewrite !length_app, length_take, length_app, length_replicate, length_drop. lia.
Qed.

Lemma blen_splice file offset data :
  blen (splice file offset data) = N.max (blen file) (offset + blen data).
Proof. unfold blen. rewrite length_splice. lia. Qed.

Lemma blen_sub file offset want : blen (sub file offset want) = N.min want (blen file - offset).
Proof. unfold blen, sub. rewrite length_take, length_drop. lia. Qed.
