(* ===== verification/FarRefine.v ===== *)
(** The detailed far end refines its specification: every handler of
    [Directory] does what [FarSpec.execute] says of the request it decodes,
    and what it replies is the specification's reply, encoded. *)

From S2P Require Import Prelude RustStd Externals Reference Wire Directory FarSpec.

Local Open Scope N_scope.

(** A bound on something literal is computed. *)
Ltac literal := first [assumption | solve [fits] | vm_compute; reflexivity].

(** ** Replies *)
Section replies.
Context `{!Platform, !TransportErrors, !Codec, !CodecLaws, !Net, !NetLaws}.

Lemma status_bytes id c m :
  id < U32 → c < U32 → blen (as_bytes m) < U32 →
  status id c m = reply_bytes (RpStatus id c m).
Proof.
  intros Hid Hc Hm. unfold status, reply_bytes.
  rewrite !put_string_spec, !u32_be_spec by literal.
  by rewrite <- !(assoc_L (++)).
Qed.

Lemma handle_reply_bytes id h :
  id < U32 → blen (as_bytes h) < U32 → handle_reply id h = reply_bytes (RpHandle id h).
Proof.
  intros Hid Hh. unfold handle_reply, reply_bytes.
  by rewrite put_string_spec, u32_be_spec by done.
Qed.

Lemma data_reply_bytes id d :
  id < U32 → blen d < U32 → data_reply id d = reply_bytes (RpData id d).
Proof.
  intros Hid Hd. unfold data_reply, reply_bytes.
  by rewrite put_string_spec, u32_be_spec by done.
Qed.

Lemma max_body_u64 : MAX_BODY < U64.
Proof.
  pose proof max_body_allocates. pose proof isize_lt_usize. pose proof usize_max_le.
  unfold u64_max in *. lia.
Qed.

Lemma modified_fits d n : wf_directory d → modified d n < U32.
Proof.
  intros Hd. unfold modified. destruct (written d !! n) as [t|] eqn:E; simpl; [|by vm_compute].
  apply wf_written in E as [_ ?]; [|done]. pose proof (wf_newest _ Hd).
  unfold u32_max in *. lia.
Qed.

Lemma attrs_bytes id d n c :
  wf_directory d → id < U32 → files d !! n = Some c →
  ([] |> u32_be id |> u32_be (N.lor ATTR_SIZE ATTR_ACMODTIME) |> u64_be (blen c)
      |> u32_be (modified d n) |> u32_be (modified d n))
  = enc_u32 id ++ enc_attrs (stamp_attrs (stamp_in d n c)).
Proof.
  intros Hd Hid Hc. pose proof (modified_fits d n Hd). pose proof max_body_u64.
  apply wf_files in Hc as [_ Hc]; [|done].
  rewrite !u32_be_spec, u64_be_spec by literal.
  unfold enc_attrs, stamp_attrs, stamp_in, enc_u32_pair. simpl.
  by rewrite (right_id_L [] (++)), <- !(assoc_L (++)).
Qed.

Lemma name_entries_bytes d l out :
  wf_directory d → (∀ n c, (n, c) ∈ l → files d !! n = Some c) →
  fold_left (name_entry d) l out
  = out ++ concat (enc_entry <$> (listing_entry <$>
      ((λ '(n, c), (n, stamp_in d n c)) <$> l))).
Proof.
  intros Hd. revert out. induction l as [|[n c] l IH]; intros out Hl.
  { simpl. by rewrite (right_id_L [] (++)). }
  cbn [fold_left]. rewrite IH by (intros; apply Hl; by right).
  assert (files d !! n = Some c) as Hc by (apply Hl; left).
  destruct (wf_files _ Hd _ _ Hc) as [[_ Hn] Hb].
  pose proof (modified_fits d n Hd). pose proof max_body_u64.
  unfold name_entry. rewrite !u32_be_spec, u64_be_spec, !put_string_spec by literal.
  cbn [fmap list_fmap concat]. rewrite <- !(assoc_L (++)).
  unfold enc_entry at 2, listing_entry at 2, enc_attrs, enc_u32_pair, stamp_in. simpl.
  by rewrite <- !(assoc_L (++)).
Qed.

Lemma name_reply_bytes id d :
  wf_directory d → id < U32 → name_reply id d = reply_bytes (RpName id (listing d)).
Proof.
  intros Hd Hid. unfold name_reply, reply_bytes, listing.
  assert (∀ n, u32_of n < U32) as Hu.
  { intros n. unfold u32_of, u32_max. destruct (N.leb_spec n (2 ^ 32 - 1)); lia. }
  rewrite name_entries_bytes by (done || (intros n c; apply elem_of_btree_iter)).
  rewrite !u32_be_spec by auto. by rewrite length_fmap, length_btree_iter, <- !(assoc_L (++)).
Qed.
End replies.

(** ** Handlers *)
Section handlers.
Context `{!Platform, !TransportErrors, !Codec, !CodecLaws, !Net, !NetLaws}.

(** [m] answers what the specification says of the request [o] decodes. *)
Definition refines now (s : Far) (m : M Far error bytes) (o : outcome error request) : Prop :=
  m s = match o with
        | Ok r => let '(p, s') := execute now r s in (Ok (reply_bytes p), s')
        | Err e => (Err e, s)
        | Panic => (Panic, s)
        | OutOfFuel => (OutOfFuel, s)
        end.

Lemma refines_read {A} now s (o : outcome error A) k k' :
  (∀ a, o = Ok a → refines now s (k a) (k' a)) → refines now s (lift o ≫= k) (o ≫= k').
Proof. unfold refines. destruct o; naive_solver. Qed.

Lemma refines_text now s c (k : _ → M Far error bytes) k' :
  (∀ a, text c = Ok a → refines now s (k a) (k' a)) →
  refines now s (read_text c ≫= k) (text c ≫= k').
Proof.
  intros Hk. replace (refines now s (read_text c ≫= k) (text c ≫= k'))
    with (refines now s (lift (text c) ≫= k) (text c ≫= k')); [by apply refines_read|].
  unfold refines. f_equal. unfold read_text, text, mbind, M_bind, outcome_bind, lift.
  destruct (read_string c) as [[? ?]| | |]; [|done..]. by destruct (utf8 _).
Qed.

Lemma text_fits c t c' : text c = Ok (t, c') → name_fits t.
Proof.
  unfold text. intros Ht. ok_inv. apply (reads_sound _ _ _ string_reads) in E as [_ ?].
  match goal with H : utf8 _ = Ok _ |- _ => apply utf8_inv in H as [<- ?] end. done.
Qed.

Lemma u32_fits c n c' : read_u32_be c = Ok (n, c') → n < U32.
Proof. by intros [_ ?]%(reads_sound _ _ _ u32_reads). Qed.
Lemma u64_fits c n c' : read_u64_be c = Ok (n, c') → n < U64.
Proof. by intros [_ ?]%(reads_sound _ _ _ u64_reads). Qed.
Lemma string_fits c x c' : read_string c = Ok (x, c') → blen x < U32.
Proof. by intros [_ ?]%(reads_sound _ _ _ string_reads). Qed.

Lemma take_number_ok s :
  next s < u64_max → take_number s = (Ok (next s), set_next (next s + 1) s).
Proof.
  intros Hn. unfold take_number, u64_add, gets, lift, modify, mbind, M_bind. simpl.
  destruct (N.leb_spec (next s + 1) u64_max); [done|lia].
Qed.

Lemma handle_number_fits s l :
  next s < u64_max → (l = "h" ∨ l = "d") → blen (as_bytes (l +:+ pretty (next s))) < U32.
Proof. intros Hn Hl. by apply handle_name_fits; [|lia]. Qed.
End handlers.

(** Read the packet on both sides, keeping the bounds of what was read. *)
Ltac read_both :=
  repeat first
    [ apply refines_text; intros [? ?] ?
    | apply refines_read; intros [? ?] ? ];
  repeat match goal with
    | H : read_u32_be _ = Ok _ |- _ => apply u32_fits in H
    | H : read_u64_be _ = Ok _ |- _ => apply u64_fits in H
    | H : read_string _ = Ok _ |- _ => apply string_fits in H
    | H : text _ = Ok _ |- _ => apply text_fits in H
    end.

(** Run the state-passing code of a handler's body. *)
Ltac run := unfold refines, gets, lift, modify, mbind, M_bind, mret, M_ret, outcome_ret, fail; simpl.

Section operations.
Context `{!Platform, !TransportErrors, !Codec, !CodecLaws, !Net, !NetLaws}.
Implicit Types (now : option N) (s : Far) (c : Cursor).

Ltac finish := first [done | by rewrite status_bytes by literal].

Lemma on_open_refines now s c :
  wf_far s → next s < u64_max →
  refines now s (on_open now c)
    ('(id, r) ← read_u32_be c; '(name, r) ← text r; '(flags, _) ← read_u32_be r;
     mret (RqOpen id name flags)).
Proof.
  intros Hs Hn. unfold on_open, read_id. read_both.
  pose proof (handle_number_fits s "h" Hn (or_introl eq_refl)).
  run. rewrite take_number_ok by done. simpl.
  destruct (files (directory s) !! _) as [old|] eqn:Ho; simpl.
  - destruct (has _ F_WRITE); [|by rewrite handle_reply_bytes].
    destruct (has _ F_EXCL); simpl; [finish|].
    destruct (has _ F_TRUNC); simpl; rewrite handle_reply_bytes by done; [done|].
    unfold store, on_directory, touch, with_files, on_handles, set_next. simpl.
    by rewrite (insert_id (files (directory s))) by done.
  - destruct (has _ F_WRITE); simpl; [by rewrite handle_reply_bytes|finish].
Qed.

Lemma on_opendir_refines now s c :
  wf_far s → next s < u64_max →
  refines now s (on_opendir c)
    ('(id, r) ← read_u32_be c; '(_, _) ← read_string r; mret (RqOpendir id)).
Proof.
  intros Hs Hn. unfold on_opendir, read_id. read_both.
  run. rewrite take_number_ok by done. simpl. rewrite handle_reply_bytes; [done..|].
  apply (handle_number_fits s "d"); auto.
Qed.

Lemma on_readdir_refines now s c :
  wf_far s →
  refines now s (on_readdir c)
    ('(id, r) ← read_u32_be c; '(handle, _) ← text r; mret (RqReaddir id handle)).
Proof.
  intros Hs. unfold on_readdir, read_id. read_both.
  run. destruct (handles s !! _) as [[| |[]]|]; simpl; try finish.
  by rewrite name_reply_bytes by (done || apply Hs).
Qed.

Lemma on_close_refines now s c :
  refines now s (on_close c)
    ('(id, r) ← read_u32_be c; '(handle, _) ← text r; mret (RqClose id handle)).
Proof.
  unfold on_close, read_id. read_both.
  run. destruct (handles s !! _) as [[| |[]]|]; simpl; finish.
Qed.

Lemma on_remove_refines now s c :
  refines now s (on_remove c)
    ('(id, r) ← read_u32_be c; '(name, _) ← text r; mret (RqRemove id name)).
Proof.
  unfold on_remove, read_id. read_both.
  run. destruct (files (directory s) !! _); simpl; finish.
Qed.

Lemma on_rename_refines now s c :
  refines now s (on_rename c)
    ('(id, r) ← read_u32_be c; '(from, r) ← text r; '(to, _) ← text r;
     mret (RqRename id from to)).
Proof.
  unfold on_rename, read_id. read_both.
  run. destruct (files (directory s) !! _); simpl; [finish|].
  destruct (files (directory s) !! _); simpl; [|finish].
  rewrite status_bytes by literal. unfold on_directory, with_written, with_files. simpl.
  by destruct (written (directory s) !! _).
Qed.

Lemma on_stat_refines now s c :
  wf_far s →
  refines now s (on_stat c)
    ('(id, r) ← read_u32_be c; '(name, _) ← text r; mret (RqStat id name)).
Proof.
  intros Hs. unfold on_stat, read_id. read_both.
  run. destruct (files (directory s) !! _) eqn:Hf; simpl; [|finish].
  by rewrite attrs_bytes by (done || apply Hs).
Qed.
End operations.

(** ** Writing and reading at an offset *)
Section contents.
Context `{!Platform, !TransportErrors, !Codec, !CodecLaws, !Net, !NetLaws}.

Lemma max_body_usize : MAX_BODY < usize_max.
Proof. pose proof max_body_allocates. pose proof isize_lt_usize. lia. Qed.

(** The saturating sums overflow no file: either nothing saturated, or the
    end is past the ceiling. *)
Lemma write_end offset len :
  usize_saturating_add (usize_of_u64 offset) len ≤ MAX_BODY →
  usize_of_u64 offset = offset ∧ usize_saturating_add offset len = offset + len.
Proof.
  pose proof max_body_usize. unfold usize_saturating_add, usize_of_u64.
  destruct (N.leb_spec offset usize_max); lia.
Qed.

Lemma write_within offset len :
  usize_saturating_add (usize_of_u64 offset) len ≤ MAX_BODY ↔ offset + len ≤ MAX_BODY.
Proof.
  pose proof max_body_usize. unfold usize_saturating_add, usize_of_u64.
  destruct (N.leb_spec offset usize_max); lia.
Qed.

Lemma take_zeros (file : bytes) (n m : nat) :
  (n - length file ≤ m)%nat →
  take n (file ++ replicate m Byte.x00) = take n (file ++ replicate (n - length file) Byte.x00).
Proof.
  intros Hm. rewrite !take_app. f_equal. rewrite !take_replicate. f_equal. lia.
Qed.

(** Growing the file with zeros and copying over it is [splice]. *)
Lemma resize_and_copy file offset data :
  offset + blen data ≤ isize_max →
  (file' ← (if blen file <? offset + blen data
            then vec_resize file (offset + blen data) else mret file);
   copy_from_slice file' offset (offset + blen data) data)
  =@{outcome error bytes} Ok (splice file offset data).
Proof.
  intros Hfit. unfold vec_resize, copy_from_slice, splice.
  assert (N.to_nat (offset + blen data) = (N.to_nat offset + length data)%nat) as He
    by (unfold blen; lia).
  destruct (N.ltb_spec (blen file) (offset + blen data)) as [Hlt|Hge].
  - destruct (N.leb_spec (offset + blen data) isize_max); [|lia].
    cbn [mbind outcome_bind]. rewrite (take_ge file) by (unfold blen in *; lia).
    rewrite blen_app, blen_replicate.
    rewrite !(proj2 (N.leb_le _ _)) by (unfold blen in *; lia).
    rewrite (proj2 (N.eqb_eq _ _)) by (unfold blen in *; lia). cbn [andb].
    f_equal. rewrite He. rewrite take_zeros by lia. f_equal. f_equal.
    rewrite !drop_ge; [done|unfold blen in *; lia|].
    rewrite length_app, length_replicate. unfold blen in *. lia.
  - cbn [mbind outcome_bind mret outcome_ret].
    rewrite !(proj2 (N.leb_le _ _)) by lia.
    rewrite (proj2 (N.eqb_eq _ _)) by lia. cbn [andb].
    f_equal. rewrite He, take_app_le by (unfold blen in *; lia). done.
Qed.

Lemma slice_sub file offset want :
  offset < blen file → blen file ≤ usize_max →
  slice file offset (N.min (blen file) (usize_saturating_add offset want))
  =@{outcome error bytes} Ok (sub file offset want).
Proof.
  intros Ho Hf. unfold slice, sub, usize_saturating_add.
  rewrite !(proj2 (N.leb_le _ _)) by lia. cbn [andb]. f_equal.
  destruct (N.le_gt_cases (offset + want) (blen file)) as [Hin|Hout].
  - f_equal. lia.
  - rewrite !take_ge; [done|rewrite length_drop; unfold blen in *; lia..].
Qed.

Lemma on_write_refines now s c :
  refines now s (on_write now c)
    ('(id, r) ← read_u32_be c; '(handle, r) ← text r;
     '(offset, r) ← read_u64_be r; '(data, _) ← read_string r;
     mret (RqWrite id handle offset data)).
Proof.
  unfold on_write, read_id. read_both. rename n0 into offset, l into data.
  run. destruct (handles s !! _) as [[name| |]|]; simpl;
    try by rewrite status_bytes by literal.
  destruct (N.leb_spec (offset + blen data) MAX_BODY) as [Hin|Hout].
  - apply write_within in Hin as Hend.
    rewrite (proj2 (ceiling_within_spec _ _ _)) by done.
    apply write_end in Hend as [-> ->]. simpl.
    pose proof (resize_and_copy (default [] (files (directory s) !! name)) offset data) as Hw.
    apply obind_inv_ok in Hw as (file' & Hr & Hc); [|pose proof max_body_allocates; lia].
    unfold mret, outcome_ret in Hr. rewrite Hr, Hc. by rewrite status_bytes by literal.
  - unfold too_large. destruct (ceiling_within _ _ _) as [m|] eqn:Hm; simpl.
    + apply ceiling_message in Hm. rewrite status_bytes; [done| | |]; [literal..|]. lia.
    + apply ceiling_within_spec, write_within in Hm. lia.
Qed.

Lemma on_read_refines now s c :
  wf_far s →
  refines now s (on_read c)
    ('(id, r) ← read_u32_be c; '(handle, r) ← text r;
     '(offset, r) ← read_u64_be r; '(want, _) ← read_u32_be r;
     mret (RqRead id handle offset want)).
Proof.
  intros Hs. unfold on_read, read_id. read_both. rename n0 into offset, n1 into want.
  run. destruct (handles s !! _) as [[|name|]|]; simpl;
    try by rewrite status_bytes by literal.
  set (file := default [] (files (directory s) !! name)).
  assert (blen file < usize_max) as Hf.
  { pose proof max_body_usize. unfold file. destruct (files (directory s) !! name) as [f|] eqn:E; simpl.
    - apply (wf_files _ (wf_dir _ Hs)) in E as [_ ?]. lia.
    - rewrite blen_nil. lia. }
  assert ((blen file <=? usize_of_u64 offset) = (blen file <=? offset)) as ->.
  { unfold usize_of_u64. destruct (N.leb_spec offset usize_max); [done|].
    rewrite !(proj2 (N.leb_le _ _)) by lia. done. }
  destruct (N.leb_spec (blen file) offset); [by rewrite status_bytes by literal|].
  unfold usize_of_u64. rewrite (proj2 (N.leb_le _ _)) by lia.
  rewrite slice_sub by lia. simpl. rewrite data_reply_bytes; [done..|].
  rewrite blen_sub. lia.
Qed.
End contents.
