(* ===== verification/FarInvariant.v ===== *)
(** What every answer of the far end keeps: the directory's and the handles'
    well-formedness, fresh handles, times that only grow, and content that
    only the requests meant to change it change. *)

From S2P Require Import Prelude RustStd Externals Reference Wire Directory FarSpec FarRefine.

Local Open Scope N_scope.

(** ** The specification keeps the invariant *)
Section execute.
Context `{!Platform, !Net}.

Lemma touch_newest now n d :
  newest d ≤ u32_max →
  newest d ≤ newest (touch now n d) ≤ u32_max
  ∧ (newest d < u32_max → newest d < newest (touch now n d)).
Proof.
  intros Hd. unfold touch, u32_saturating_add. simpl.
  assert (clock_secs now ≤ u32_max).
  { unfold clock_secs, u32_of. destruct now as [t|]; [|lia].
    destruct (N.leb_spec t u32_max); lia. }
  lia.
Qed.

Lemma store_wf now n c d :
  wf_directory d → name_fits n → blen c ≤ MAX_BODY →
  wf_directory (touch now n (with_files <[n := c]> d)).
Proof.
  intros Hd Hn Hc.
  pose proof (touch_newest now n (with_files <[n := c]> d) (wf_newest _ Hd)) as [Ht _].
  constructor; [| |apply Ht]; simpl.
  - intros m c'. rewrite lookup_insert. case_decide; [|apply Hd]. intros [= <-]. by subst.
  - intros m t. rewrite !lookup_insert. case_decide; subst.
    + intros [= <-]. split; [done|]. simpl. lia.
    + intros Hw. apply (wf_written _ Hd) in Hw as [? Hw]. split; [done|].
      simpl in Ht. lia.
Qed.

Lemma remove_wf n d :
  wf_directory d → wf_directory (with_files (delete n) (with_written (delete n) d)).
Proof.
  intros Hd. constructor; simpl; [| |apply Hd].
  - intros m c [_ Hm]%lookup_delete_Some. by apply Hd.
  - intros m t [Hne Hm]%lookup_delete_Some. rewrite lookup_delete_ne by done.
    by apply Hd.
Qed.

Lemma rename_wf from to c d :
  wf_directory d → name_fits to → files d !! to = None → files d !! from = Some c →
  wf_directory
    (with_written (λ ws, match ws !! from with
                         | Some t => <[to := t]> (delete from ws) | None => ws end)
      (with_files (λ fs, <[to := c]> (delete from fs)) d)).
Proof.
  intros Hd Hto Hn Hc. assert (from ≠ to) as Hne by congruence.
  constructor; simpl; [| |apply Hd].
  - intros m c' [[-> <-]|[Hm Hf]]%lookup_insert_Some; [split; [done|by eapply Hd]|].
    apply lookup_delete_Some in Hf as [_ Hf]. by apply Hd.
  - intros m t Hm. destruct (written d !! from) as [t'|] eqn:Hw.
    + apply lookup_insert_Some in Hm as [[-> <-]|[Hm Hm']].
      * rewrite lookup_insert_eq. split; [done|]. by eapply Hd.
      * apply lookup_delete_Some in Hm' as [Hf Hm']. rewrite lookup_insert_ne, lookup_delete_ne by done.
        by apply Hd.
    + assert (m ≠ from) by congruence. apply (wf_written _ Hd) in Hm as [[? Hf] ?].
      assert (m ≠ to) by congruence. rewrite lookup_insert_ne, lookup_delete_ne by done. eauto.
Qed.

Lemma wf_far_directory s (f : Directory → Directory) :
  wf_far s → wf_directory (f (directory s)) → wf_far (on_directory f s).
Proof. intros [? ? ?] ?. by constructor. Qed.

Lemma store_wf_far now n c s :
  wf_far s → name_fits n → blen c ≤ MAX_BODY → wf_far (store now n c s).
Proof.
  intros Hs Hn Hc. apply wf_far_directory; [done|]. apply store_wf; [apply Hs|done..].
Qed.

Lemma hand_out_wf l h s :
  wf_far s → next s < u64_max → handle_fits h → l = letter h → wf_far (hand_out l h s).2.
Proof.
  intros [Hd Hh Hn] Hlt Hf ->. constructor; simpl; [done| |lia].
  intros h' hd. rewrite lookup_insert. case_decide as Heq.
  - intros [= <-]. split; [done|]. exists (next s). split; [lia|done].
  - intros H'. apply Hh in H' as (? & k & ? & ?). split; [done|]. exists k. split; [lia|done].
Qed.

Lemma skip_number_wf s : wf_far s → next s < u64_max → wf_far (skip_number s).
Proof.
  intros [Hd Hh Hn] Hlt. constructor; simpl; [done| |lia].
  intros h hd H'. apply Hh in H' as (? & k & ? & ?). split; [done|]. exists k. split; [lia|done].
Qed.

Lemma on_handles_wf s (f : gmap string Handle → gmap string Handle) :
  wf_far s →
  (∀ h hd, f (handles s) !! h = Some hd →
    handles s !! h = Some hd ∨ (∃ b, hd = Dir b ∧ ∃ b', handles s !! h = Some (Dir b'))) →
  wf_far (on_handles f s).
Proof.
  intros [Hd Hh Hn] Hf. constructor; simpl; [done| |done].
  intros h hd [H'|(b & -> & b' & H')]%Hf; [by apply Hh|].
  apply Hh in H' as (_ & k & Hk & ->). split; [done|]. by exists k.
Qed.

Lemma handle_name s h n :
  wf_far s → handles s !! h = Some (Write n) ∨ handles s !! h = Some (Read n) → name_fits n.
Proof. intros Hs [H'|H']; by apply Hs in H' as [? _]. Qed.

Lemma file_within s n :
  wf_far s → blen (default [] (files (directory s) !! n)) ≤ MAX_BODY.
Proof.
  intros Hs. destruct (files _ !! n) as [c|] eqn:E; simpl; [|rewrite blen_nil; lia].
  by eapply (wf_files _ (wf_dir _ Hs)).
Qed.

Lemma execute_wf now r s :
  wf_far s → next s < u64_max → request_fits r → wf_far (execute now r s).2.
Proof.
  intros Hs Hn Hr. destruct r as [|id n fl|id h off dt|id h off w|id|id h|id h|id n|id f t|id n];
    simpl in Hr; simpl.
  - done.
  - destruct (has fl F_WRITE), (files (directory s) !! n) as [old|] eqn:Hf; simpl.
    + destruct (has fl F_EXCL); simpl; [by apply skip_number_wf|].
      apply (hand_out_wf "h" (Write n) (store now n _ s)); [|done|simpl; tauto|done].
      apply store_wf_far; [done|tauto|].
      destruct (has fl F_TRUNC); [rewrite blen_nil; lia|]. by eapply (wf_files _ (wf_dir _ Hs)).
    + apply (hand_out_wf "h" (Write n) (store now n _ s)); [|done|simpl; tauto|done].
      apply store_wf_far; [done|tauto|rewrite blen_nil; lia].
    + apply (hand_out_wf "h" (Read n)); simpl; tauto.
    + by apply skip_number_wf.
  - destruct (handles s !! h) as [[n| |]|] eqn:Hh; simpl; try done.
    destruct (N.leb_spec (off + blen dt) MAX_BODY); simpl; [|done].
    apply store_wf_far; [done|by eapply handle_name; eauto|].
    rewrite blen_splice. pose proof (file_within s n Hs). lia.
  - destruct (handles s !! h) as [[|n|]|]; simpl; try done. by case_match.
  - by apply (hand_out_wf "d" (Dir false)).
  - destruct (handles s !! h) as [[| |[]]|] eqn:Hh; simpl; try done.
    apply on_handles_wf; [done|]. intros h' hd. rewrite lookup_insert.
    case_decide; subst; naive_solver.
  - assert (wf_far (on_handles (delete h) s)) as Hd.
    { apply on_handles_wf; [done|]. intros h' hd [_ ?]%lookup_delete_Some. by left. }
    destruct (handles s !! h) as [[n| |]|]; simpl; try done.
    apply (wf_far_directory (on_handles (delete h) s)); [done|].
    destruct (wf_dir _ Hd). by constructor.
  - apply wf_far_directory; [done|]. apply remove_wf, Hs.
  - destruct (files _ !! t) eqn:Ht; simpl; [done|].
    destruct (files _ !! f) eqn:Hf; simpl; [|done].
    apply wf_far_directory; [done|]. apply rename_wf; naive_solver (apply Hs).
  - done.
Qed.
End execute.

(** ** Any packet at all *)
Section answer.
Context `{!Platform, !TransportErrors, !Codec, !CodecLaws, !Net, !NetLaws}.

Lemma text_answers c : answers (text c).
Proof. unfold text. answers. Qed.
Hint Resolve text_answers : sftp.

Lemma decode_answers kind body : answers (decode kind body).
Proof. unfold decode. repeat case_match; answers. Qed.

Lemma decode_fits kind body r : decode kind body = Ok r → request_fits r.
Proof.
  unfold decode. intros Hd.
  repeat match type of Hd with
  | (if ?b then _ else _) = _ => destruct b
  end; ok_inv; try done;
  repeat match goal with
  | H : read_u32_be _ = Ok _ |- _ => apply u32_fits in H
  | H : read_u64_be _ = Ok _ |- _ => apply u64_fits in H
  | H : read_string _ = Ok _ |- _ => apply string_fits in H
  | H : text _ = Ok _ |- _ => apply text_fits in H
  end; simpl; tauto.
Qed.

Lemma text_at c t tl :
  rest c = enc_string (as_bytes t) ++ tl → name_fits t →
  ∃ c', text c = Ok (t, c') ∧ rest c' = tl.
Proof.
  intros Hr [Hu Hn]. unfold text. read_step. rewrite utf8_ok by done. simpl. eauto.
Qed.

Lemma decode_request r : request_fits r → decode (request_kind r) (request_body r) = Ok r.
Proof.
  intros Hr. unfold decode. pose proof (cursor_new_rest (request_body r)) as Hc.
  rewrite <- (right_id_L [] (++) (request_body r)) in Hc at 2.
  generalize dependent (cursor_new (request_body r)). intros c Hc.
  destruct r; simpl in *; try done;
    repeat match type of Hr with _ ∧ _ => destruct Hr as [? Hr] end;
    repeat first
      [ progress read_step
      | rewrite <- ?(assoc_L (++)) in *;
        lazymatch goal with
        | H : rest ?c = enc_string (as_bytes ?t) ++ ?tl |- context [text ?c] =>
          destruct (text_at c t tl H) as (? & -> & ?); [done|]; clear H; simpl
        end ]; try done.
Qed.

Lemma answer_decodes now kind body s :
  wf_far s → next s < u64_max → refines now s (answer now kind body) (decode kind body).
Proof.
  intros Hs Hn. unfold answer, decode. repeat case_match.
  - unfold refines. simpl. by rewrite u32_be_spec.
  - by apply on_open_refines.
  - by apply on_write_refines.
  - by apply on_read_refines.
  - by apply on_opendir_refines.
  - by apply on_readdir_refines.
  - by apply on_close_refines.
  - by apply on_remove_refines.
  - by apply on_rename_refines.
  - by apply on_stat_refines.
  - done.
Qed.
End answer.

(** ** Handles *)
Section handles.
Context `{!Platform, !Net}.

(** A handle stays what it was; a directory's may have been read. *)
Definition same_handle (h h' : Handle) : Prop :=
  match h with Dir _ => ∃ b, h' = Dir b | _ => h' = h end.

Lemma same_handle_refl h : same_handle h h.
Proof. destruct h; simpl; eauto. Qed.

Lemma execute_handles now r s h hd :
  wf_far s → handles s !! h = Some hd → (∀ id, r ≠ RqClose id h) →
  ∃ hd', handles (execute now r s).2 !! h = Some hd' ∧ same_handle hd hd'.
Proof.
  intros Hs Hh Hr.
  assert (∀ l, l = "h" ∨ l = "d" → l +:+ pretty (next s) ≠ h) as Hnew.
  { intros l Hl <-. by rewrite handle_new in Hh. }
  pose proof (same_handle_refl hd).
  destruct r as [|id n fl|id h' off dt|id h' off w|id|id h'|id h'|id n|id f t|id n]; simpl.
  6: { destruct (handles s !! h') as [[| |b]|] eqn:Hd; try by eauto. destruct b; [by eauto|].
       simpl. rewrite lookup_insert. case_decide; [|by eauto]. simplify_eq. exists (Dir true). simpl. eauto. }
  6: { assert (h' ≠ h) by naive_solver.
       destruct (handles s !! h') as [[| |]|]; simpl; rewrite lookup_delete_ne; eauto. }
  all: repeat case_match; simpl; try rewrite lookup_insert_ne by auto; eauto.
Qed.
End handles.
