(* ===== verification/FarWorld.v ===== *)
(** One directory, served on several channels at once (src/directory.rs,
    [serve] and [Shared]; src/server.rs, [serving]): each request is answered
    whole under the directory's lock, so what connections do to one another is
    an interleaving of answers.  The steps of that system, and what every
    interleaving keeps: the invariant, and the two exclusions the claim leans
    on. *)

From S2P Require Import Prelude RustStd Externals Reference Wire Directory FarSpec FarRefine.
From S2P Require Import FarInvariant.

Local Open Scope N_scope.

(** What one channel's [serve] keeps to itself, from its start. *)
Record Session : Type := { session_handles : gmap string Handle; session_next : N }.
Definition fresh_session : Session := {| session_handles := ∅; session_next := 0 |}.

(** The shared directory, and the channels being served. *)
Record World : Type := { shared : Directory; sessions : gmap nat Session }.

Definition far_of (d : Directory) (c : Session) : Far :=
  {| directory := d; handles := session_handles c; next := session_next c |}.
Definition session_of (s : Far) : Session :=
  {| session_handles := handles s; session_next := next s |}.

(** What happens: a channel begins to be served, a request is answered, a
    packet is refused, which ends the serving, the client closes. *)
Inductive event : Type :=
  | Began (i : nat)
  | Answered (i : nat) (c : Session) (kind : N) (body reply : bytes)
  | Refused (i : nat)
  | Closed (i : nat).

Section world.
Context `{!Platform, !TransportErrors, !Codec, !Net}.

(** [answer] under the lock, for whichever channel has it.  A channel's
    handles are numbered by a [u64]: a step is of a channel that has a
    number left. *)
Inductive step : World → event → World → Prop :=
  | step_began i w :
      sessions w !! i = None →
      step w (Began i) {| shared := shared w; sessions := <[i := fresh_session]> (sessions w) |}
  | step_answered i w c now kind body reply s :
      sessions w !! i = Some c → session_next c < u64_max →
      answer now kind body (far_of (shared w) c) = (Ok reply, s) →
      step w (Answered i c kind body reply)
        {| shared := directory s; sessions := <[i := session_of s]> (sessions w) |}
  | step_refused i w c now kind body e s :
      sessions w !! i = Some c → session_next c < u64_max →
      answer now kind body (far_of (shared w) c) = (Err e, s) →
      step w (Refused i) {| shared := directory s; sessions := delete i (sessions w) |}
  | step_closed i w c :
      sessions w !! i = Some c →
      step w (Closed i) {| shared := shared w; sessions := delete i (sessions w) |}.

Inductive steps : World → list event → World → Prop :=
  | steps_nil w : steps w [] w
  | steps_cons w e w' t w'' : step w e w' → steps w' t w'' → steps w (e :: t) w''.

(** The request an answered packet held. *)
Definition asked (e : event) : option request :=
  match e with
  | Answered _ _ kind body _ => match decode kind body with Ok r => Some r | _ => None end
  | _ => None
  end.

(** A reply's type, and its body. *)
Definition reply_kind (reply : bytes) : option Byte.byte := reply !! 4%nat.
Definition reply_body (reply : bytes) : bytes := drop 5 reply.

(** [e] opened [n] exclusively, and was handed a handle. *)
Definition created_exclusively (n : string) (e : event) : Prop :=
  ∃ i c kind body reply id fl, e = Answered i c kind body reply
    ∧ asked e = Some (RqOpen id n fl) ∧ has fl F_WRITE = true ∧ has fl F_EXCL = true
    ∧ reply_kind reply = Some (byte_of_N HANDLE).

(** [e] renamed [n] away, and was answered OK. *)
Definition renamed_away (n : string) (e : event) : Prop :=
  ∃ i c kind body reply id to, e = Answered i c kind body reply
    ∧ asked e = Some (RqRename id n to) ∧ code (reply_body reply) = Ok OK.

(** The requests that may take [n] away, and those that may make it: an open
    for writing, a rename onto it, a write to a handle open on it. *)
Definition may_take (n : string) (e : event) : bool :=
  match asked e with
  | Some (RqRemove _ n') | Some (RqRename _ n' _) => bool_decide (n' = n)
  | _ => false
  end.
Definition may_make (n : string) (e : event) : bool :=
  match asked e, e with
  | Some (RqOpen _ n' fl), _ => bool_decide (n' = n) && has fl F_WRITE
  | Some (RqRename _ _ n'), _ => bool_decide (n' = n)
  | Some (RqWrite _ h _ _), Answered _ c _ _ _ =>
    bool_decide (session_handles c !! h = Some (Write n))
  | _, _ => false
  end.

Definition present (n : string) (w : World) : Prop := is_Some (files (shared w) !! n).

(** The directory and every channel's handles are well formed. *)
Record wf_world (w : World) : Prop := {
  world_dir : wf_directory (shared w);
  world_far i c : sessions w !! i = Some c → wf_far (far_of (shared w) c);
}.
End world.

(** Look a key up through inserts and deletes. *)
Ltac look :=
  repeat first [rewrite lookup_insert; case_decide | rewrite lookup_delete; case_decide];
  subst; try done.

Section steps.
Context `{!Platform, !TransportErrors, !Codec, !CodecLaws, !Net, !NetLaws}.

Lemma step_answered_inv i w c now kind body reply s :
  wf_world w → sessions w !! i = Some c → session_next c < u64_max →
  answer now kind body (far_of (shared w) c) = (Ok reply, s) →
  ∃ r p, decode kind body = Ok r ∧ request_fits r ∧ reply = reply_bytes p
    ∧ execute now r (far_of (shared w) c) = (p, s).
Proof.
  intros Hw Hc Hn Ha.
  pose proof (answer_decodes now kind body _ (world_far _ Hw _ _ Hc) Hn) as Hr.
  unfold refines in Hr. rewrite Ha in Hr.
  destruct (decode kind body) as [r| | |] eqn:Hd; try done.
  destruct (execute now r _) as [p s'] eqn:He. simplify_eq.
  exists r, p. split; [done|]. split; [by eapply decode_fits|]. done.
Qed.

Lemma step_refused_inv i w c now kind body e s :
  wf_world w → sessions w !! i = Some c → session_next c < u64_max →
  answer now kind body (far_of (shared w) c) = (Err e, s) → directory s = shared w.
Proof.
  intros Hw Hc Hn Ha.
  pose proof (answer_decodes now kind body _ (world_far _ Hw _ _ Hc) Hn) as Hr.
  unfold refines in Hr. rewrite Ha in Hr.
  destruct (decode kind body) as [r| | |]; try done; [|by simplify_eq].
  by destruct (execute now r _).
Qed.

(** Another channel's handles stay well formed whatever is done to the
    directory they share, as only the directory changed. *)
Lemma far_of_dir d d' c : wf_far (far_of d c) → wf_directory d' → wf_far (far_of d' c).
Proof. intros [_ ? ?] ?. by constructor. Qed.

Lemma far_of_session s : far_of (directory s) (session_of s) = s.
Proof. by destruct s. Qed.

Lemma step_wf w e w' : wf_world w → step w e w' → wf_world w'.
Proof.
  intros Hw Hstep. destruct Hstep as [i w Hi|i w c now kind body reply s Hi Hn Ha
    |i w c now kind body er s Hi Hn Ha|i w c Hi]; constructor; simpl; try apply Hw.
  - intros j c. rewrite lookup_insert. case_decide; [|apply Hw].
    intros [= <-]. constructor; simpl; [apply Hw|by intros ?? ?%lookup_empty_Some|].
    unfold u64_max. lia.
  - destruct (step_answered_inv _ _ _ _ _ _ _ _ Hw Hi Hn Ha) as (r & p & _ & Hf & _ & He).
    pose proof (execute_wf now r _ (world_far _ Hw _ _ Hi) Hn Hf) as Hs.
    rewrite He in Hs. apply Hs.
  - destruct (step_answered_inv _ _ _ _ _ _ _ _ Hw Hi Hn Ha) as (r & p & _ & Hf & _ & He).
    pose proof (execute_wf now r _ (world_far _ Hw _ _ Hi) Hn Hf) as Hs.
    rewrite He in Hs. simpl in Hs. intros j c'. rewrite lookup_insert. case_decide.
    + intros [= <-]. by rewrite far_of_session.
    + intros Hj. eapply far_of_dir; [by eapply (world_far _ Hw)|apply Hs].
  - rewrite (step_refused_inv _ _ _ _ _ _ _ _ Hw Hi Hn Ha). apply Hw.
  - rewrite (step_refused_inv _ _ _ _ _ _ _ _ Hw Hi Hn Ha).
    intros j c' [_ Hj]%lookup_delete_Some. by apply (world_far _ Hw j).
  - intros j c' [_ Hj]%lookup_delete_Some. by apply (world_far _ Hw j).
Qed.

(** Only these requests take a file away, and only those make one. *)
Lemma execute_takes now r s n :
  is_Some (files (directory s) !! n) →
  match r with RqRemove _ n' | RqRename _ n' _ => n' ≠ n | _ => True end →
  is_Some (files (directory (execute now r s).2) !! n).
Proof.
  intros Hn Hr. destruct r; simpl; repeat case_match; simpl; try done; by look.
Qed.

Lemma execute_makes now r s n :
  files (directory s) !! n = None →
  match r with
  | RqOpen _ n' fl => n' ≠ n ∨ has fl F_WRITE = false
  | RqRename _ _ n' => n' ≠ n
  | RqWrite _ h _ _ => handles s !! h ≠ Some (Write n)
  | _ => True
  end →
  files (directory (execute now r s).2) !! n = None.
Proof.
  intros Hn Hr. destruct r; simpl; repeat case_match; simpl; try done; look; naive_solver.
Qed.

Lemma frame_bytes kind body :
  kind < 256 → ∃ n, n < U32 ∧ frame kind body = enc_u32 n ++ byte_of_N kind :: body.
Proof.
  intros Hk. exists (u32_of (blen body + 1)).
  assert (u32_of (blen body + 1) < U32).
  { unfold u32_of, u32_max. destruct (N.leb_spec (blen body + 1) (2 ^ 32 - 1)); lia. }
  split; [done|]. unfold frame.
  by rewrite put_bytes_spec, put_byte_spec, u32_be_spec, <- !(assoc_L (++)).
Qed.

Lemma frame_kind kind body : kind < 256 → reply_kind (frame kind body) = Some (byte_of_N kind).
Proof.
  intros Hk. destruct (frame_bytes kind body Hk) as (n & _ & ->). unfold reply_kind.
  rewrite lookup_app_r; rewrite length_enc_u32; done.
Qed.

Lemma frame_body kind body : kind < 256 → reply_body (frame kind body) = body.
Proof.
  intros Hk. destruct (frame_bytes kind body Hk) as (n & _ & ->). unfold reply_body.
  rewrite drop_app_ge; rewrite length_enc_u32; [done|lia].
Qed.

Lemma status_reply_code id c m :
  id < U32 → c < U32 → code (reply_body (reply_bytes (RpStatus id c m))) = Ok c.
Proof.
  intros Hid Hc. simpl. rewrite frame_body by done. unfold code.
  match goal with |- context [cursor_new ?b] => pose proof (cursor_new_rest b) end.
  by repeat read_step.
Qed.

(** A step that answered: what was asked, and what the specification did. *)
Lemma step_asked w i c kind body reply w' :
  wf_world w → step w (Answered i c kind body reply) w' →
  ∃ now r p s, asked (Answered i c kind body reply) = Some r ∧ request_fits r
    ∧ reply = reply_bytes p ∧ execute now r (far_of (shared w) c) = (p, s)
    ∧ shared w' = directory s.
Proof.
  intros Hw Hstep. inversion Hstep; subst.
  match goal with Hi : sessions w !! i = _, Hn : _ < _, Ha : answer _ _ _ _ = _ |- _ =>
    destruct (step_answered_inv _ _ _ _ _ _ _ _ Hw Hi Hn Ha) as (r & p & Hd & Hf & -> & He)
  end.
  exists now, r, p, s. simpl. by rewrite Hd.
Qed.

Lemma step_present n w e w' :
  wf_world w → step w e w' → may_take n e = false → present n w → present n w'.
Proof.
  intros Hw Hstep Ht Hp. destruct e as [i|i c kind body reply|i|i].
  - by inversion Hstep; subst.
  - destruct (step_asked _ _ _ _ _ _ _ Hw Hstep) as (now & r & p & s & Ha & _ & _ & He & Hs).
    unfold may_take in Ht. rewrite Ha in Ht. unfold present. rewrite Hs.
    change s with (p, s).2. rewrite <- He. apply execute_takes; [done|].
    destruct r; try done; by apply bool_decide_eq_false in Ht.
  - inversion Hstep; subst. unfold present. simpl. by erewrite step_refused_inv.
  - by inversion Hstep; subst.
Qed.

Lemma step_absent n w e w' :
  wf_world w → step w e w' → may_make n e = false → ¬ present n w → ¬ present n w'.
Proof.
  intros Hw Hstep Ht Hp. destruct e as [i|i c kind body reply|i|i].
  - by inversion Hstep; subst.
  - destruct (step_asked _ _ _ _ _ _ _ Hw Hstep) as (now & r & p & s & Ha & _ & _ & He & Hs).
    unfold may_make in Ht. rewrite Ha in Ht. unfold present in *. rewrite Hs.
    change s with (p, s).2. rewrite <- He. apply eq_None_not_Some in Hp.
    apply eq_None_not_Some, execute_makes; [done|].
    destruct r; try done; simpl in *;
      [apply andb_false_iff in Ht as [Ht|Ht]; [left|by right]| |];
      by apply bool_decide_eq_false in Ht.
  - inversion Hstep; subst. unfold present. simpl. by erewrite step_refused_inv.
  - by inversion Hstep; subst.
Qed.

Lemma created_step n w e w' :
  wf_world w → step w e w' → created_exclusively n e → ¬ present n w ∧ present n w'.
Proof.
  intros Hw Hstep (i & c & kind & body & reply & id & fl & -> & Ha & Hwr & Hex & Hk).
  destruct (step_asked _ _ _ _ _ _ _ Hw Hstep) as (now & r & p & s & Ha' & _ & -> & He & Hs).
  rewrite Ha in Ha'. simplify_eq. simpl in He. rewrite Hwr in He.
  unfold present. rewrite Hs. destruct (files (shared w) !! n) eqn:Hf.
  - rewrite Hex in He. simplify_eq. simpl in Hk. by rewrite frame_kind in Hk.
  - simplify_eq. simpl. rewrite lookup_insert_eq. split; [by intros []|done].
Qed.

Lemma renamed_step n w e w' :
  wf_world w → step w e w' → renamed_away n e → present n w ∧ ¬ present n w'.
Proof.
  intros Hw Hstep (i & c & kind & body & reply & id & to & -> & Ha & Hk).
  destruct (step_asked _ _ _ _ _ _ _ Hw Hstep) as (now & r & p & s & Ha' & Hfit & -> & He & Hs).
  rewrite Ha in Ha'. simplify_eq. simpl in He, Hfit. unfold present. rewrite Hs.
  destruct (files (shared w) !! to) eqn:Ht; [|destruct (files (shared w) !! n) eqn:Hf];
    simplify_eq; try by rewrite status_reply_code in Hk by naive_solver.
  simpl. rewrite lookup_insert_ne, lookup_delete_eq by congruence. split; [done|by intros []].
Qed.

Lemma steps_app w t1 t2 w'' : steps w (t1 ++ t2) w'' ↔ ∃ w', steps w t1 w' ∧ steps w' t2 w''.
Proof.
  split.
  - revert w. induction t1 as [|e t1 IH]; intros w Hs; [by eauto using steps|].
    inversion Hs as [|? ? w1 ? ? He Hr]; subst. apply IH in Hr as (w' & ? & ?).
    eauto using steps.
  - intros (w' & Hs1 & Hs2). induction Hs1; [done|]. simpl. eauto using steps.
Qed.

Lemma steps_wf w t w' : wf_world w → steps w t w' → wf_world w'.
Proof. intros Hw Hs. induction Hs; eauto using step_wf. Qed.

(** What a step without [f] keeps, a trace without it keeps. *)
Lemma steps_keep (P : World → Prop) (f : event → bool) w t w' :
  (∀ w e w', wf_world w → step w e w' → f e = false → P w → P w') →
  wf_world w → steps w t w' → existsb f t = false → P w → P w'.
Proof.
  intros Hk Hw Hs. induction Hs as [|w e w1 t w2 He Hs IH]; [done|]. simpl.
  intros [? ?]%orb_false_iff ?. eauto using step_wf.
Qed.
End steps.

(** ** Running a world *)
Section run.
Context `{!Platform, !TransportErrors, !Codec, !Net}.

(** Channel [i], which begins where it has not, is answered one packet. *)
Definition run_packet (w : World) (now : option N) (i : nat) (kind : N) (body : bytes) :
    option (list event * World) :=
  let '(begun, w) :=
    match sessions w !! i with
    | Some _ => ([], w)
    | None => ([Began i],
        {| shared := shared w; sessions := <[i := fresh_session]> (sessions w) |})
    end in
  match sessions w !! i with
  | Some c =>
    if session_next c <? u64_max then
      match answer now kind body (far_of (shared w) c) with
      | (Ok reply, s) =>
        Some (begun ++ [Answered i c kind body reply],
              {| shared := directory s; sessions := <[i := session_of s]> (sessions w) |})
      | _ => None
      end
    else None
  | None => None
  end.

Fixpoint run (w : World) (l : list (option N * nat * N * bytes)) : option (list event * World) :=
  match l with
  | [] => Some ([], w)
  | (now, i, kind, body) :: l =>
    '(t1, w) ← run_packet w now i kind body;
    '(t2, w) ← run w l;
    Some (t1 ++ t2, w)
  end.
End run.

Section run_steps.
Context `{!Platform, !TransportErrors, !Codec, !CodecLaws, !Net, !NetLaws}.

Lemma run_packet_steps w now i kind body t w' :
  run_packet w now i kind body = Some (t, w') → steps w t w'.
Proof.
  unfold run_packet. intros Hr.
  destruct (sessions w !! i) as [c|] eqn:Hi; simpl in Hr.
  - rewrite Hi in Hr. destruct (N.ltb_spec (session_next c) u64_max); [|done].
    destruct (answer _ _ _ _) as [[] s] eqn:Ha; simplify_eq.
    eauto using steps, step_answered.
  - rewrite lookup_insert_eq in Hr. destruct (N.ltb_spec (session_next fresh_session) u64_max); [|done].
    destruct (answer _ _ _ _) as [[reply| | |] s] eqn:Ha; simplify_eq.
    eapply steps_cons; [by apply step_began|]. simpl.
    eapply steps_cons; [|apply steps_nil].
    pose proof (step_answered i
      {| shared := shared w; sessions := <[i := fresh_session]> (sessions w) |}
      fresh_session now kind body reply s) as Hstep. simpl in Hstep.
    rewrite lookup_insert_eq in Hstep. auto.
Qed.

Lemma run_steps w l t w' : run w l = Some (t, w') → steps w t w'.
Proof.
  revert w t. induction l as [|[[[now i] kind] body] l IH]; intros w t Hr; simpl in Hr.
  { simplify_eq. constructor. }
  apply bind_Some in Hr as [[t1 w1] [H1' Hr]]. apply bind_Some in Hr as [[t2 w2] [H2' Hr]].
  simplify_eq. apply steps_app. eauto using run_packet_steps.
Qed.
End run_steps.
