(* ===== verification/FarProperties.v ===== *)
(** The properties of the far end, for any packet and any interleaving: it
    refines its specification, keeps its invariant, and keeps the exclusions,
    the contents, the times, the listing and the notice to its owner that the
    crate's own documentation promises. *)

From S2P Require Import Prelude RustStd Externals Reference Wire Directory FarSpec FarRefine.
From S2P Require Import FarInvariant FarWorld.

Local Open Scope N_scope.

(** ** Bytes of a spliced file *)
Lemma splice_lookup (file : bytes) (offset : N) (data : bytes) (i : nat) :
  splice file offset data !! i =
    if decide (i < N.to_nat offset)%nat
    then match file !! i with Some b => Some b | None => Some Byte.x00 end
    else if decide (i < N.to_nat offset + length data)%nat
    then data !! (i - N.to_nat offset)%nat
    else file !! i.
Proof.
  unfold splice. set (o := N.to_nat offset).
  assert (length (take o (file ++ replicate (o - length file) Byte.x00)) = o) as Hlen.
  { rewrite length_take, length_app, length_replicate. lia. }
  case_decide as Ho; [|case_decide as Hd].
  - rewrite lookup_app_l by lia. rewrite lookup_take_lt by done.
    destruct (file !! i) eqn:Hi; [by apply lookup_app_l_Some|].
    apply lookup_ge_None in Hi. rewrite lookup_app_r by done.
    apply lookup_replicate_2. lia.
  - rewrite lookup_app_r, Hlen by lia. rewrite lookup_app_l by lia. done.
  - rewrite lookup_app_r, Hlen by lia. rewrite lookup_app_r by lia.
    rewrite lookup_drop. f_equal. lia.
Qed.

Lemma sub_splice file offset data :
  sub (splice file offset data) offset (blen data) = data.
Proof.
  unfold sub, splice, blen. rewrite Nat2N.id, drop_app_length'.
  - by rewrite take_app_length.
  - rewrite length_take, length_app, length_replicate. lia.
Qed.

(** The file a request of [s] may change or remove is one it names, itself or
    by a handle. *)
Definition names (s : Far) (r : request) (n : string) : Prop :=
  match r with
  | RqOpen _ n' fl => n' = n ∧ has fl F_WRITE = true
  | RqWrite _ h _ _ => handles s !! h = Some (Write n)
  | RqRemove _ n' => n' = n
  | RqRename _ from to => from = n ∨ to = n
  | _ => False
  end.

(** ** Listings *)
Lemma listing_elem d n st :
  (n, st) ∈ listing d ↔ ∃ c, files d !! n = Some c ∧ st = stamp_in d n c.
Proof.
  unfold listing. rewrite list_elem_of_fmap. split.
  - intros ([n' c] & Heq & Hin%elem_of_btree_iter). simplify_eq. eauto.
  - intros (c & Hc & ->). exists (n, c). by rewrite elem_of_btree_iter.
Qed.

Lemma listing_sorted d : StronglySorted (λ a b, String.leb a.1 b.1 = true) (listing d).
Proof.
  unfold listing. apply StronglySorted_fmap with key_le; [|apply btree_iter_sorted].
  by intros [] [].
Qed.

Lemma listing_NoDup d : NoDup (listing d).*1.
Proof.
  unfold listing. rewrite <- list_fmap_compose.
  rewrite (list_fmap_ext _ fst) by (by intros ? []). apply NoDup_btree_iter.
Qed.

Section lemmas.
Context `{!Platform, !TransportErrors, !Codec, !CodecLaws, !Net, !NetLaws}.

(** A packet laid out as the draft says is answered as the specification
    says. *)
Lemma answer_request now r s :
  wf_far s → next s < u64_max → request_fits r →
  answer now (request_kind r) (request_body r) s
  = let '(p, s') := execute now r s in (Ok (reply_bytes p), s').
Proof.
  intros Hs Hn Hr. pose proof (answer_decodes now (request_kind r) (request_body r) s Hs Hn) as Ha.
  unfold refines in Ha. by rewrite decode_request in Ha.
Qed.

Lemma execute_frame now r s n :
  ¬ names s r n →
  files (directory (execute now r s).2) !! n = files (directory s) !! n
  ∧ written (directory (execute now r s).2) !! n = written (directory s) !! n.
Proof.
  intros Hn. destruct r as [|id m fl|id h off dt|id h off w|id|id h|id h|id m|id f t|id m];
    simpl in *; repeat case_match; simpl; try done;
    rewrite ?lookup_insert_ne, ?lookup_delete_ne by naive_solver; try done.
  split; [done|]. destruct (written _ !! f); [|done].
  by rewrite lookup_insert_ne, lookup_delete_ne by naive_solver.
Qed.

Lemma listing_fits d : wf_directory d → Forall entry_fits (listing_entry <$> listing d).
Proof.
  intros Hd. unfold listing. rewrite !Forall_fmap. apply Forall_forall.
  intros [n c] Hc%elem_of_btree_iter. simpl. pose proof (modified_fits d n Hd).
  destruct (wf_files _ Hd _ _ Hc) as [[Hu Hn] Hb]. pose proof max_body_u64.
  unfold entry_fits, attrs_fit, u32_pair. simpl.
  repeat split; try done. lia.
Qed.

Lemma listing_listed d :
  listed_of <$> (listing_entry <$> listing d) = (λ '(n, st), (n, Some st)) <$> listing d.
Proof.
  rewrite <- list_fmap_compose. apply list_fmap_ext. by intros i [n [l m]] _.
Qed.
End lemmas.

Section properties.
Context `{!Platform, !TransportErrors, !Codec, !CodecLaws, !Net, !NetLaws}.

(** C1: the far end refines its specification and never panics.  Any packet
    whatever, in any well-formed state, is either decoded, answered with the
    specification's reply encoded and followed by the specification's state,
    or refused with an error that leaves the directory and the handles as
    they were. *)
Theorem answer_refines now kind body s :
  wf_far s → next s < u64_max →
  (∃ r p s', decode kind body = Ok r ∧ request_fits r ∧ execute now r s = (p, s')
    ∧ answer now kind body s = (Ok (reply_bytes p), s'))
  ∨ (∃ e, decode kind body = Err e ∧ answer now kind body s = (Err e, s)).
Proof.
  intros Hs Hn. pose proof (answer_decodes now kind body s Hs Hn) as Ha. unfold refines in Ha.
  destruct (decode_answers kind body) as [[r Hd]|[e Hd]]; rewrite Hd in Ha; [left|right; eauto].
  destruct (execute now r s) as [p s'] eqn:He. exists r, p, s'.
  split; [done|]. split; [by eapply decode_fits|]. done.
Qed.

(** C16: the invariant holds of every state any number of channels can bring
    the directory to, from one that holds files the wire can carry: names
    are UTF-8, no file is over the ceiling, a time is kept for a file alone
    and none is after the newest, and every handle carries a number already
    handed out. *)
Theorem reachable_wf fs t w :
  (∀ n c, fs !! n = Some c → name_fits n ∧ blen c ≤ MAX_BODY) →
  steps {| shared := new_directory fs; sessions := ∅ |} t w → wf_world w.
Proof.
  intros Hfs. apply steps_wf. constructor; simpl; [|by intros ?? ?%lookup_empty_Some].
  constructor; simpl; [done|by intros ?? ?%lookup_empty_Some|unfold u32_max; lia].
Qed.

(** Two events of a trace, and the states around them. *)
Lemma steps_between w0 t1 e1 t2 e2 t3 w :
  wf_world w0 → steps w0 (t1 ++ e1 :: t2 ++ e2 :: t3) w →
  ∃ w1 w2 w3 w4, wf_world w1 ∧ wf_world w2 ∧ wf_world w3
    ∧ step w1 e1 w2 ∧ steps w2 t2 w3 ∧ step w3 e2 w4.
Proof.
  intros Hw (w1 & Hs1 & Hs)%steps_app. inversion Hs as [|? ? w2 ? ? He1 Hs2]; subst.
  apply steps_app in Hs2 as (w3 & Hs2 & Hs3). inversion Hs3 as [|? ? w4 ? ? He2 Hs4]; subst.
  assert (wf_world w1) by eauto using steps_wf. assert (wf_world w2) by eauto using step_wf.
  exists w1, w2, w3, w4. split_and!; eauto using steps_wf.
Qed.

Lemma creates_apart n w0 t1 e1 t2 e2 t3 w :
  wf_world w0 → steps w0 (t1 ++ e1 :: t2 ++ e2 :: t3) w →
  created_exclusively n e1 → created_exclusively n e2 → existsb (may_take n) t2 = true.
Proof.
  intros Hw Hs Hc1 Hc2.
  destruct (steps_between _ _ _ _ _ _ _ Hw Hs) as (w1 & w2 & w3 & w4 & ? & ? & ? & He1 & Ht & He2).
  destruct (created_step n w1 e1 w2) as [_ Hp]; [done..|].
  destruct (created_step n w3 e2 w4) as [Hn _]; [done..|].
  destruct (existsb (may_take n) t2) eqn:Hex; [done|]. destruct Hn.
  apply (steps_keep (present n) (may_take n) w2 t2 w3); try done.
  intros. by eapply step_present.
Qed.

Lemma renames_apart n w0 t1 e1 t2 e2 t3 w :
  wf_world w0 → steps w0 (t1 ++ e1 :: t2 ++ e2 :: t3) w →
  renamed_away n e1 → renamed_away n e2 → existsb (may_make n) t2 = true.
Proof.
  intros Hw Hs Hc1 Hc2.
  destruct (steps_between _ _ _ _ _ _ _ Hw Hs) as (w1 & w2 & w3 & w4 & ? & ? & ? & He1 & Ht & He2).
  destruct (renamed_step n w1 e1 w2) as [_ Hp]; [done..|].
  destruct (renamed_step n w3 e2 w4) as [Hn _]; [done..|].
  destruct (existsb (may_make n) t2) eqn:Hex; [done|].
  assert (¬ present n w3); [|done].
  apply (steps_keep (λ w, ¬ present n w) (may_make n) w2 t2 w3); try done.
  intros. by eapply step_absent.
Qed.

(** C10: a turn is one node's.  Of two exclusive opens of one name that both
    succeed, on whatever channels, a remove of that name or a rename of it
    away was answered in between: the one exclusive step the claim has is
    exclusive. *)
Theorem exclusive_create n w0 t1 e1 t2 e2 t3 w :
  wf_world w0 → steps w0 (t1 ++ e1 :: t2 ++ e2 :: t3) w →
  created_exclusively n e1 → created_exclusively n e2 → existsb (may_take n) t2 = true.
Proof. apply creates_apart. Qed.

(** C11: a file is claimed once.  Of two renames of one name that are both
    answered OK, something that makes a file of that name was answered in
    between: an open for writing, a rename onto it, or a write to a handle
    open on it. *)
Theorem claimed_once n w0 t1 e1 t2 e2 t3 w :
  wf_world w0 → steps w0 (t1 ++ e1 :: t2 ++ e2 :: t3) w →
  renamed_away n e1 → renamed_away n e2 → existsb (may_make n) t2 = true.
Proof. apply renames_apart. Qed.
End properties.

Section operations.
Context `{!Platform, !TransportErrors, !Codec, !CodecLaws, !Net, !NetLaws}.

(** Handles are never confused.  Whatever a packet asks, a handle open
    before its answer is after it what it was, unless the packet closes it;
    and a handle that is new carries a number never handed out on the
    channel before. *)
Theorem handles_kept now kind body reply s s' :
  wf_far s → next s < u64_max → answer now kind body s = (Ok reply, s') →
  (∀ h hd, handles s !! h = Some hd → (∀ id, decode kind body ≠ Ok (RqClose id h)) →
    ∃ hd', handles s' !! h = Some hd' ∧ same_handle hd hd')
  ∧ (∀ h hd, handles s' !! h = Some hd → handles s !! h = None →
    h = letter hd +:+ pretty (next s) ∧ next s' = next s + 1).
Proof.
  intros Hs Hn Ha.
  pose proof (answer_decodes now kind body s Hs Hn) as Hr. unfold refines in Hr. rewrite Ha in Hr.
  destruct (decode kind body) as [r| | |] eqn:Hd; try done.
  destruct (execute now r s) as [p s1] eqn:He. simplify_eq.
  replace s1 with (execute now r s).2 by (by rewrite He). split.
  - intros h hd Hh Hc. apply execute_handles; [done..|]. intros id ->. by apply (Hc id).
  - intros h hd Hh' Hh. clear He Hd Ha. revert Hh'.
    destruct r; simpl; repeat case_match; simpl; try congruence;
      try (intros [[<- <-]|[_ ?]]%lookup_insert_Some; [done|congruence]);
      try (intros [_ ?]%lookup_delete_Some; congruence).
    intros [[<- <-]|[_ ?]]%lookup_insert_Some; congruence.
Qed.

(** C35: only the files a request names change.  Whatever a packet asks, every
    file it neither opens for writing, writes by a handle, removes nor
    renames keeps its contents and its modification time; and no answer but
    that to a close of a handle open for writing tells the owner anything,
    which tells it that file's name, once. *)
Theorem others_untouched now r s :
  wf_far s → next s < u64_max → request_fits r →
  ∃ reply s', answer now (request_kind r) (request_body r) s = (Ok reply, s')
  ∧ (∀ n, ¬ names s r n →
      files (directory s') !! n = files (directory s) !! n
      ∧ modified (directory s') n = modified (directory s) n)
  ∧ told (directory s') =
      match r with
      | RqClose _ h =>
        match handles s !! h with
        | Some (Write n) => (λ heard, heard ++ [n]) <$> told (directory s)
        | _ => told (directory s)
        end
      | _ => told (directory s)
      end
  ∧ match r with RqClose _ h => handles s' !! h = None | _ => True end.
Proof.
  intros Hs Hn Hr. rewrite answer_request by done.
  destruct (execute now r s) as [p s'] eqn:He. exists (reply_bytes p), s'. split; [done|].
  replace s' with (execute now r s).2 by (by rewrite He). split; [|split].
  - intros n Hnn. destruct (execute_frame now r s n Hnn) as [-> Hw]. split; [done|].
    unfold modified. by rewrite Hw.
  - destruct r; simpl; repeat case_match; simplify_eq; done.
  - destruct r as [| | | | | |id h| | |]; try done. simpl.
    destruct (handles s !! h) as [[| |]|]; simpl; by rewrite lookup_delete_eq.
Qed.

(** C34: what is written is what is read.  A WRITE within the ceiling through
    a handle open for writing is answered OK; the bytes it carried lie at its
    offset, every byte before and after stays, a gap reads as zeros; and a
    READ of that range through a handle open for reading gives back exactly
    those bytes. *)
Theorem write_read_back now now' s n hw hr id1 id2 offset data :
  wf_far s → next s < u64_max → id1 < U32 → id2 < U32 → name_fits hw → name_fits hr →
  handles s !! hw = Some (Write n) → handles s !! hr = Some (Read n) →
  0 < blen data → blen data < U32 → offset + blen data ≤ MAX_BODY →
  let file := default [] (files (directory s) !! n) in
  ∃ s' file', answer now WRITE (request_body (RqWrite id1 hw offset data)) s
      = (Ok (reply_bytes (RpStatus id1 OK "written")), s')
    ∧ files (directory s') !! n = Some file'
    ∧ (∀ i : nat, file' !! i =
        if decide (i < N.to_nat offset)%nat
        then match file !! i with Some b => Some b | None => Some Byte.x00 end
        else if decide (i < N.to_nat offset + length data)%nat
        then data !! (i - N.to_nat offset)%nat else file !! i)
    ∧ answer now' READ (request_body (RqRead id2 hr offset (blen data))) s'
      = (Ok (reply_bytes (RpData id2 data)), s').
Proof.
  intros Hs Hn Hid1 Hid2 Hw Hr Hhw Hhr Hpos Hlen Hfit file.
  pose proof max_body_u64 as Hmax.
  assert (request_fits (RqWrite id1 hw offset data)) as Hq1.
  { simpl. split; [done|]. split; [done|]. split; [lia|done]. }
  assert (request_fits (RqRead id2 hr offset (blen data))) as Hq2.
  { simpl. split; [done|]. split; [done|]. split; [lia|done]. }
  pose proof (answer_request now _ s Hs Hn Hq1) as Ha. cbn [request_kind execute] in Ha.
  rewrite Hhw in Ha. rewrite (proj2 (N.leb_le _ _)) in Ha by done.
  set (s' := store now n (splice file offset data) s) in *.
  assert (wf_far s') as Hs'.
  { pose proof (execute_wf now _ s Hs Hn Hq1) as He. cbn [execute] in He.
    rewrite Hhw, (proj2 (N.leb_le _ _)) in He by done. done. }
  exists s', (splice file offset data). split; [done|]. split.
  { simpl. by rewrite lookup_insert_eq. }
  split; [intros i; apply splice_lookup|].
  pose proof (answer_request now' _ s' Hs' Hn Hq2) as Ha2. cbn [request_kind execute] in Ha2.
  unfold s' in Ha2 at 2 3. simpl in Ha2. rewrite Hhr, lookup_insert_eq in Ha2. simpl in Ha2.
  rewrite blen_splice, (proj2 (N.leb_gt _ _)), sub_splice in Ha2 by lia. done.
Qed.

(** C36: a write past what the far end holds of one file is refused before
    anything is allocated: wherever the offset and the data stand, up to the
    last [u64], past the ceiling the answer is a FAILURE status and the
    state is the one before. *)
Theorem write_over_ceiling now s n h id offset data :
  wf_far s → next s < u64_max → id < U32 → name_fits h → offset < U64 → blen data < U32 →
  handles s !! h = Some (Write n) → MAX_BODY < offset + blen data →
  ∃ reply, answer now WRITE (request_body (RqWrite id h offset data)) s = (Ok reply, s)
    ∧ reply_kind reply = Some (byte_of_N STATUS) ∧ code (reply_body reply) = Ok FAILURE.
Proof.
  intros Hs Hn Hid Hh Ho Hd Hhd Hover.
  pose proof (answer_request now (RqWrite id h offset data) s Hs Hn) as Ha.
  cbn [request_kind request_fits execute] in Ha. rewrite Hhd in Ha.
  rewrite (proj2 (N.leb_gt _ _)) in Ha by done. rewrite Ha by done.
  eexists. split; [done|]. split; [by apply frame_kind|]. by apply status_reply_code.
Qed.

(** A rename moves a file whole.  It is refused onto a name that exists,
    and where there is nothing to rename, with everything as it was; else
    the file is under its new name with the contents and the modification
    time it had, its old name is free, and no other file changed. *)
Theorem rename_moves now s id from to :
  wf_far s → next s < u64_max → id < U32 → name_fits from → name_fits to →
  let d := directory s in
  ∃ c m s', answer now RENAME (request_body (RqRename id from to)) s
      = (Ok (reply_bytes (RpStatus id c m)), s')
    ∧ match files d !! to, files d !! from with
      | Some _, _ => c = FAILURE ∧ s' = s
      | None, None => c = NO_SUCH_FILE ∧ s' = s
      | None, Some contents =>
        c = OK
        ∧ files (directory s') !! to = Some contents
        ∧ modified (directory s') to = modified d from
        ∧ files (directory s') !! from = None
        ∧ size (files (directory s')) = size (files d)
        ∧ ∀ n, n ≠ from → n ≠ to → files (directory s') !! n = files d !! n
      end.
Proof.
  intros Hs Hn Hid Hf Ht d.
  pose proof (answer_request now (RqRename id from to) s Hs Hn) as Ha.
  cbn [request_kind request_fits execute] in Ha. fold d in Ha. rewrite Ha by done. clear Ha.
  destruct (files d !! to) eqn:Hto; [by eauto 10|].
  destruct (files d !! from) as [contents|] eqn:Hfrom; [|by eauto 10].
  eexists _, _, _. split; [done|]. split; [done|]. simpl. fold d.
  assert (from ≠ to) as Hne by congruence.
  rewrite lookup_insert_eq, lookup_insert_ne, lookup_delete_eq by done.
  split; [done|]. split.
  { unfold modified. simpl. destruct (written d !! from) eqn:Hw; [by rewrite lookup_insert_eq|].
    destruct (written d !! to) as [t|] eqn:Hwt; [|done].
    apply (wf_written _ (wf_dir _ Hs)) in Hwt as [[? ?] _]. unfold d in *. congruence. }
  split; [done|]. split.
  { rewrite map_size_insert_None by (by rewrite lookup_delete_ne).
    rewrite map_size_delete_Some by done. pose proof (map_size_ne_0_lookup_2 (files d) from).
    destruct (size (files d)); [|lia]. exfalso. naive_solver. }
  intros n Hnf Hnt. by rewrite lookup_insert_ne, lookup_delete_ne.
Qed.

(** A file written again lists as changed.  The time a write notes is the
    clock's or later, and later than the time of every file in the
    directory, as long as the newest is not yet the last second a [u32]
    has; no other file's time moves. *)
Theorem touch_later now n m d :
  wf_directory d → newest d < u32_max →
  modified d m < modified (touch now n d) n
  ∧ clock_secs now ≤ modified (touch now n d) n
  ∧ (m ≠ n → modified (touch now n d) m = modified d m).
Proof.
  intros Hd Hlt. assert (modified d m ≤ newest d) as Hm.
  { unfold modified. destruct (written d !! m) eqn:E; simpl; [by eapply wf_written|lia]. }
  unfold touch, modified, u32_saturating_add. simpl. rewrite lookup_insert_eq. simpl.
  split; [unfold modified in Hm; lia|]. split; [lia|]. intros Hne. by rewrite lookup_insert_ne.
Qed.

(** C39: the times a directory notes are in the order of the writes, within a
    [u32].  A write is noted at the clock's second or later, never before any
    file of the directory and never past the last second a [u32] has; strictly
    after every file while the newest is before that second; and at that
    second from then on, where the file lists as unchanged.  No other file's
    time moves. *)
Theorem touch_saturates now n d :
  wf_directory d →
  let d' := touch now n d in
  clock_secs now ≤ modified d' n ≤ u32_max
  ∧ (∀ m, modified d m ≤ modified d' n)
  ∧ (newest d < u32_max → ∀ m, modified d m < modified d' n)
  ∧ (newest d = u32_max → modified d' n = u32_max)
  ∧ ∀ m, m ≠ n → modified d' m = modified d m.
Proof.
  intros Hd d'. pose proof (touch_newest now n d (wf_newest _ Hd)) as [[Hle Hmax] _].
  assert (modified d' n = newest d') as Hn.
  { unfold d', touch, modified. simpl. by rewrite lookup_insert_eq. }
  assert (∀ m, modified d m ≤ newest d) as Hm.
  { intros m. unfold modified. destruct (written d !! m) eqn:E; simpl; [|lia].
    by eapply wf_written. }
  fold d' in Hle, Hmax. rewrite Hn. split_and!.
  - unfold d', touch. simpl. lia.
  - done.
  - intros m. specialize (Hm m). lia.
  - intros Hlt m. rewrite <- Hn. by apply touch_later.
  - intros Hlast. lia.
  - intros m Hne. unfold d', modified, touch. simpl. by rewrite lookup_insert_ne.
Qed.

(** A listing is the directory, once.  The first READDIR on a directory
    handle is answered with a NAME body that the client's own [entries]
    reads as every file there is, each name once and in order, each with its
    length and modification time; the next is answered end of directory. *)
Theorem readdir_lists now now' s h id id' :
  wf_far s → next s < u64_max → id < U32 → id' < U32 → name_fits h →
  handles s !! h = Some (Dir false) → N.of_nat (size (files (directory s))) < U32 →
  ∃ reply s', answer now READDIR (request_body (RqReaddir id h)) s = (Ok reply, s')
    ∧ directory s' = directory s
    ∧ entries (reply_body reply) = Ok ((λ '(n, st), (n, Some st)) <$> listing (directory s))
    ∧ (∀ n st, (n, st) ∈ listing (directory s) ↔
        ∃ c, files (directory s) !! n = Some c ∧ st = stamp_in (directory s) n c)
    ∧ StronglySorted (λ a b, String.leb a.1 b.1 = true) (listing (directory s))
    ∧ NoDup (listing (directory s)).*1
    ∧ answer now' READDIR (request_body (RqReaddir id' h)) s'
      = (Ok (reply_bytes (RpStatus id' EOF "end of directory")), s').
Proof.
  intros Hs Hn Hid Hid' Hh Hd Hsize.
  pose proof (answer_request now (RqReaddir id h) s Hs Hn) as Ha.
  cbn [request_kind request_fits execute] in Ha. rewrite Hd in Ha. rewrite Ha by done. clear Ha.
  eexists _, _. split; [done|]. split; [done|]. split; [|split; [|split; [|split]]].
  - cbn [reply_bytes]. rewrite frame_body by done.
    rewrite <- (listing_listed (directory s)).
    rewrite <- (right_id_L [] (++) (concat _)).
    assert (length (listing (directory s)) = size (files (directory s))) as Hlen.
    { unfold listing. by rewrite length_fmap, length_btree_iter. }
    replace (u32_of (N.of_nat (length (listing (directory s)))))
      with (N.of_nat (length (listing_entry <$> listing (directory s)))).
    + apply entries_at; [done| |apply listing_fits, Hs]. rewrite length_fmap. lia.
    + rewrite length_fmap, Hlen. unfold u32_of, u32_max. destruct (N.leb_spec
        (N.of_nat (size (files (directory s)))) (2 ^ 32 - 1)); [done|lia].
  - apply listing_elem.
  - apply listing_sorted.
  - apply listing_NoDup.
  - pose proof (answer_request now' (RqReaddir id' h) (on_handles <[h := Dir true]> s)) as Ha.
    cbn [request_kind request_fits execute] in Ha. simpl in Ha. rewrite lookup_insert_eq in Ha.
    apply Ha; [|done|done].
    change (wf_far (on_handles <[h := Dir true]> s)).
    pose proof (execute_wf now (RqReaddir id h) s Hs Hn) as He. simpl in He.
    rewrite Hd in He. by apply He.
Qed.
End operations.

(** ** Witnesses *)
Module Witnesses.
Import Reference.Instances.

(** A directory of one file, and a channel with a handle of each kind. *)
Definition ex_directory : Directory :=
  telling (new_directory {["a.edi" := as_bytes "hello"]}).
Definition ex_far : Far :=
  {| directory := ex_directory;
     handles := <["h0" := Write "a.edi"]> (<["h1" := Read "a.edi"]> {["d2" := Dir false]});
     next := 3 |}.

Lemma ex_directory_wf : wf_directory ex_directory.
Proof.
  constructor; simpl.
  - intros n c [<- <-]%lookup_singleton_Some. split; [split|]; vm_compute; congruence.
  - by intros n t ?%lookup_empty_Some.
  - by vm_compute.
Qed.

Lemma ex_far_wf : wf_far ex_far.
Proof.
  constructor; [apply ex_directory_wf| |by vm_compute].
  assert (name_fits "a.edi") by (split; vm_compute; congruence).
  intros h hd Hh. cbn [ex_far handles next] in *.
  apply lookup_insert_Some in Hh as [[<- <-]|[_ Hh]]; [split; [done|]; exists 0; by vm_compute|].
  apply lookup_insert_Some in Hh as [[<- <-]|[_ Hh]]; [split; [done|]; exists 1; by vm_compute|].
  apply lookup_singleton_Some in Hh as [<- <-]. split; [done|]. exists 2. by vm_compute.
Qed.

Lemma ex_name s : utf8_valid (as_bytes s) = true → (blen (as_bytes s) <? U32) = true → name_fits s.
Proof. intros Hu Hl. split; [done|by apply N.ltb_lt]. Qed.

Definition ex_body : bytes := request_body (RqOpen 1 "b.edi" (F_WRITE + F_CREAT)).

Lemma answer_refines_witness :
  (∃ r p s', decode OPEN ex_body = Ok r ∧ request_fits r ∧ execute (Some 7) r ex_far = (p, s')
      ∧ answer (Some 7) OPEN ex_body ex_far = (Ok (reply_bytes p), s'))
  ∨ (∃ e, decode OPEN ex_body = Err e ∧ answer (Some 7) OPEN ex_body ex_far = (Err e, ex_far)).
Proof. exact (answer_refines (Some 7) OPEN ex_body ex_far ex_far_wf eq_refl). Defined.

Definition ex_world : World :=
  {| shared := new_directory {["a.edi" := as_bytes "hello"]}; sessions := ∅ |}.

(** Two channels race for a turn, and for a file. *)
Definition turn_flags : N := F_WRITE + F_CREAT + F_EXCL.
Definition ex_packet (i : nat) (r : request) : option N * nat * N * bytes :=
  (Some 7, i, request_kind r, request_body r).
Definition ex_script : list (option N * nat * N * bytes) :=
  [ex_packet 0 (RqOpen 1 "turn" turn_flags); ex_packet 1 (RqOpen 1 "turn" turn_flags);
   ex_packet 0 (RqRename 2 "a.edi" "claim.0"); ex_packet 1 (RqRename 2 "a.edi" "claim.1");
   ex_packet 0 (RqRename 3 "claim.0" "a.edi"); ex_packet 0 (RqRemove 4 "turn");
   ex_packet 1 (RqOpen 3 "turn" turn_flags); ex_packet 1 (RqRename 4 "a.edi" "claim.1")].
Definition ex_events : list event :=
  Eval vm_compute in match run ex_world ex_script with Some (t, _) => t | None => [] end.
Definition ex_after : World :=
  match run ex_world ex_script with Some (_, w) => w | None => ex_world end.
Definition ex_event (i : nat) : event := nth i ex_events (Closed 0).

Lemma ex_steps : steps ex_world ex_events ex_after.
Proof. apply (run_steps ex_world ex_script). vm_compute. reflexivity. Qed.

Lemma ex_world_wf : wf_world ex_world.
Proof.
  constructor; [|simpl; by intros ?? ?%lookup_empty_Some].
  destruct ex_directory_wf as [Hf Hw Hn]. by constructor.
Qed.

Lemma reachable_wf_witness : wf_world ex_after.
Proof.
  apply (reachable_wf {["a.edi" := as_bytes "hello"]} ex_events ex_after).
  - intros n c [<- <-]%lookup_singleton_Some. split; [split|]; vm_compute; congruence.
  - exact ex_steps.
Defined.

Lemma exclusive_create_witness :
  existsb (may_take "turn") (take 6 (drop 2 ex_events)) = true.
Proof.
  refine (exclusive_create "turn" ex_world (take 1 ex_events) (ex_event 1)
    (take 6 (drop 2 ex_events)) (ex_event 8) (drop 9 ex_events) ex_after ex_world_wf _ _ _).
  - exact ex_steps.
  - do 5 eexists. exists 1, turn_flags. by vm_compute.
  - do 5 eexists. exists 3, turn_flags. by vm_compute.
Defined.

Lemma claimed_once_witness :
  existsb (may_make "a.edi") (take 4 (drop 5 ex_events)) = true.
Proof.
  refine (claimed_once "a.edi" ex_world (take 4 ex_events) (ex_event 4)
    (take 4 (drop 5 ex_events)) (ex_event 9) [] ex_after ex_world_wf _ _ _).
  - exact ex_steps.
  - do 5 eexists. exists 2, "claim.0". by vm_compute.
  - do 5 eexists. exists 4, "claim.1". by vm_compute.
Defined.

(** The state after one packet. *)
Definition ex_next (r : request) : Far :=
  (answer (Some 7) (request_kind r) (request_body r) ex_far).2.
Definition ex_reply (r : request) : bytes :=
  match (answer (Some 7) (request_kind r) (request_body r) ex_far).1 with Ok b => b | _ => [] end.

Lemma handles_kept_witness :
  ∃ hd', handles (ex_next (RqOpendir 9)) !! "h0" = Some hd' ∧ same_handle (Write "a.edi") hd'.
Proof.
  refine (proj1 (handles_kept (Some 7) OPENDIR (request_body (RqOpendir 9)) (ex_reply (RqOpendir 9))
    ex_far (ex_next (RqOpendir 9)) ex_far_wf eq_refl _) "h0" (Write "a.edi") eq_refl _).
  - vm_compute. reflexivity.
  - intros id Hd. vm_compute in Hd. discriminate.
Defined.

Lemma others_untouched_witness :
  ∃ reply s', answer (Some 7) CLOSE (request_body (RqClose 5 "h0")) ex_far = (Ok reply, s')
    ∧ told (directory s') = Some ["a.edi"].
Proof.
  destruct (others_untouched (Some 7) (RqClose 5 "h0") ex_far ex_far_wf eq_refl
    (conj eq_refl (ex_name "h0" eq_refl eq_refl))) as (reply & s' & Ha & _ & Ht & _).
  exists reply, s'. split; [exact Ha|]. rewrite Ht. reflexivity.
Defined.

Lemma write_read_back_witness :
  ∃ s', answer (Some 8) READ (request_body (RqRead 2 "h1" 7 3)) s'
        = (Ok (reply_bytes (RpData 2 (as_bytes "abc"))), s')
      ∧ files (directory s') !! "a.edi"
        = Some (as_bytes "hello" ++ [Byte.x00; Byte.x00] ++ as_bytes "abc").
Proof.
  destruct (write_read_back (Some 7) (Some 8) ex_far "a.edi" "h0" "h1" 1 2 7 (as_bytes "abc")
    ex_far_wf eq_refl eq_refl eq_refl (ex_name "h0" eq_refl eq_refl) (ex_name "h1" eq_refl eq_refl)
    eq_refl eq_refl eq_refl eq_refl) as (s' & file' & Hw & Hf & _ & Hr); [vm_compute; congruence|].
  exists s'. split; [exact Hr|].
  enough (s' = ex_next (RqWrite 1 "h0" 7 (as_bytes "abc"))) as -> by (vm_compute; reflexivity).
  unfold ex_next. cbn [request_kind]. rewrite Hw. reflexivity.
Defined.

Lemma write_over_ceiling_witness :
  ∃ reply, answer (Some 7) WRITE
      (request_body (RqWrite 2 "h0" (u64_max - 4) (as_bytes "hello"))) ex_far = (Ok reply, ex_far)
    ∧ reply_kind reply = Some (byte_of_N STATUS) ∧ code (reply_body reply) = Ok FAILURE.
Proof.
  exact (write_over_ceiling (Some 7) ex_far "a.edi" "h0" 2 (u64_max - 4) (as_bytes "hello")
    ex_far_wf eq_refl eq_refl (ex_name "h0" eq_refl eq_refl) eq_refl eq_refl eq_refl eq_refl).
Defined.

Lemma rename_moves_witness :
  ∃ c m s', answer (Some 7) RENAME (request_body (RqRename 1 "a.edi" "b.edi")) ex_far
      = (Ok (reply_bytes (RpStatus 1 c m)), s') ∧ c = OK.
Proof.
  destruct (rename_moves (Some 7) ex_far 1 "a.edi" "b.edi" ex_far_wf eq_refl eq_refl
    (ex_name "a.edi" eq_refl eq_refl) (ex_name "b.edi" eq_refl eq_refl)) as (c & m & s' & Ha & Hc).
  exists c, m, s'. split; [exact Ha|]. exact (proj1 Hc).
Defined.

Lemma touch_later_witness :
  modified ex_directory "b.edi" < modified (touch (Some 7) "a.edi" ex_directory) "a.edi".
Proof. exact (proj1 (touch_later (Some 7) "a.edi" "b.edi" ex_directory ex_directory_wf eq_refl)). Defined.

(** A directory written in the last second there is. *)
Definition ex_last : Directory :=
  {| files := ∅; written := ∅; newest := u32_max; told := None |}.
Lemma touch_saturates_witness :
  modified (touch (Some 7) "a.edi" ex_last) "a.edi" = u32_max
  ∧ modified ex_directory "b.edi" < modified (touch (Some 7) "a.edi" ex_directory) "a.edi".
Proof.
  split; [|by apply (touch_saturates (Some 7) "a.edi" ex_directory ex_directory_wf)].
  apply (touch_saturates (Some 7) "a.edi" ex_last); [|reflexivity].
  constructor; simpl; [by intros ?? ?%lookup_empty_Some|by intros ?? ?%lookup_empty_Some|reflexivity].
Defined.

Lemma readdir_lists_witness :
  ∃ reply s', answer (Some 7) READDIR (request_body (RqReaddir 1 "d2")) ex_far = (Ok reply, s')
    ∧ entries (reply_body reply) = Ok [("a.edi", Some (Build_Stamp 5 0))].
Proof.
  destruct (readdir_lists (Some 7) (Some 8) ex_far "d2" 1 2 ex_far_wf eq_refl eq_refl eq_refl
    (ex_name "d2" eq_refl eq_refl) eq_refl eq_refl) as (reply & s' & Ha & _ & He & _).
  exists reply, s'. split; [exact Ha|]. rewrite He. vm_compute. reflexivity.
Defined.
End Witnesses.
