(* ===== verification/Serve.v ===== *)
(** Serving a channel (src/directory.rs, [serve]) and a connection
    (src/server.rs, [serve_chosen] and what calls it).

    A directory under its lock is changed by other connections between one
    lock and the next.  [Env] says, for each lock taken, what they did since
    the last and what the clock reads: the loops take it as an argument, so
    the theorems hold for every interleaving.  The handshake, the login and
    the channel are the ssh crate's and are operations of [SshServer]. *)

From S2P Require Import Prelude RustStd Externals Reference Wire Directory FarSpec FarRefine.
From S2P Require Import FarInvariant FarWorld FarProperties.

Local Open Scope N_scope.

(** What the clock reads, and what the others did, at each lock. *)
Definition Env : Type := nat → option N * (Directory → Directory).

(** ** One channel *)
Section serve.
Context `{!Platform, !TransportErrors, !Codec, !Net, !Ssh}.

(** The channel, the directory, and how many locks were taken of it. *)
Record Serving : Type := { serving_channel : Channel; held : Directory; locks : nat }.

Definition on_channel {A} (m : M Channel error A) : M Serving error A := fun s =>
  let '(o, c) := m (serving_channel s) in
  (o, {| serving_channel := c; held := held s; locks := locks s |}).

(** [answer] under the directory's lock: the directory as the others left it,
    with this channel's handles. *)
Definition locked_answer (env : Env) (kind : N) (rest : bytes) (hs : gmap string Handle)
    (next : N) : M Serving error (bytes * gmap string Handle * N) := fun s =>
  let '(now, others) := env (locks s) in
  let '(o, far) := answer now kind rest
    {| directory := others (held s); handles := hs; next := next |} in
  (reply ← o; mret (reply, handles far, Directory.next far),
   {| serving_channel := serving_channel s; held := directory far; locks := S (locks s) |}).

(** One turn of the [while let] of [serve]: the channel's handles after it,
    [None] at the client's close. *)
Definition serve_turn (env : Env) (hs : gmap string Handle) (next : N) :
    M Serving error (option (gmap string Handle * N)) :=
  frame ← on_channel channel_read_frame;
  match frame with
  | None => mret None
  | Some body =>
    match body with
    | [] => fail (protocol_error "an SFTP packet with no type")
    | kind :: rest =>
      '(reply, hs, next) ← locked_answer env (Byte.to_N kind) rest hs next;
      _ ← on_channel (channel_write reply);
      mret (Some (hs, next))
    end
  end.

(** The [while let] of [serve]. *)
Fixpoint serve_loop (fuel : nat) (env : Env) (hs : gmap string Handle) (next : N) :
    M Serving error unit :=
  match fuel with
  | O => lift OutOfFuel
  | S fuel =>
    turn ← serve_turn env hs next;
    match turn with
    | None => mret tt
    | Some (hs, next) => serve_loop fuel env hs next
    end
  end.

(** Serve the subsystem until the client closes the channel. *)
Definition serve (fuel : nat) (env : Env) : M Serving error unit := serve_loop fuel env ∅ 0.
End serve.

(** ** One connection *)

(** [ssh::packet::Conn], [ssh::kex] and [ssh::userauth] on the server's side,
    and [ssh::channel::Channel::accept]. *)
Class SshServer `{!TransportErrors, !Ssh, !Keys} : Type := {
  TcpStream : Type;
  Exchanged : Type;
  conn_new : TcpStream → outcome error Conn;
  conn_banner : M Conn error bytes;
  kex_server : SigningKey → bytes → M Conn error Exchanged;
  session_id : Exchanged → bytes;
  userauth_serve : bytes → Check → M Conn error Authenticated;
  channel_accept : string → M Conn error Channel;
}.

Section server.
Context `{!Platform, !TransportErrors, !Codec, !Net, !Ssh, !Keys, !SshServer}.

(** The connection, the directory it serves, and how many locks were taken. *)
Record Connected : Type := { session_conn : Conn; session_held : Directory; session_locks : nat }.

Definition on_conn {A} (m : M Conn error A) : M Connected error A := fun s =>
  let '(o, c) := m (session_conn s) in
  (o, {| session_conn := c; session_held := session_held s; session_locks := session_locks s |}).

(** [directory::serve] and [close] on an accepted channel, which borrows the
    connection until it is dropped. *)
Definition served_channel (fuel : nat) (env : Env) (c : Channel) : M Connected error unit := fun s =>
  let '(o, v) := (_ ← serve fuel env; on_channel channel_close)
    {| serving_channel := c; held := session_held s; locks := session_locks s |} in
  (o, {| session_conn := channel_conn (serving_channel v); session_held := held v;
         session_locks := locks v |}).

(** The [for _ in 1..most]: the channels after the first, until one does not
    open. *)
Fixpoint more_channels (fuel : nat) (env : Env) (left : N) : M Connected error unit :=
  if left =? 0 then mret tt else
  match fuel with
  | O => lift OutOfFuel
  | S fuel' =>
    accepted ← attempt (on_conn (channel_accept SUBSYSTEM));
    match accepted with
    | inl _ => mret tt
    | inr c =>
      _ ← served_channel fuel env c;
      more_channels fuel' env (left - 1)
    end
  end.

(** Every channel of a connection whose user is logged in. *)
Definition serve_session (fuel : nat) (env : Env) (most : N) : M Connected error unit :=
  c ← on_conn (channel_accept SUBSYSTEM);
  _ ← served_channel fuel env c;
  more_channels fuel env (most - 1).

(** What comes before any channel: the version, the keys, the login. *)
Definition log_in (host : SigningKey) (check : Check) : M Conn error (Authenticated * bytes) :=
  peer ← conn_banner;
  exchanged ← kex_server host peer;
  who ← userauth_serve (session_id exchanged) check;
  mret (who, session_id exchanged).

(** [serve_chosen], over a store of directories by key: [chosen] gives the
    directory of the user who authenticated, and that directory alone is
    served. *)
Definition serve_chosen {K} `{EqDecision K} (fuel : nat) (env : Env) (stream : TcpStream)
    (host : SigningKey) (chosen : string → K) (most : N) (check : Check) (store : K → Directory) :
    outcome error (Authenticated * bytes) * (K → Directory) :=
  match conn_new stream with
  | Ok conn =>
    match log_in host check conn with
    | (Ok (who, id), conn) =>
      let key := chosen (who_user who) in
      let '(o, s) := serve_session fuel env most
        {| session_conn := conn; session_held := store key; session_locks := 0 |} in
      (_ ← o; mret (who, id), λ k, if decide (k = key) then session_held s else store k)
    | (Err e, _) => (Err e, store)
    | (Panic, _) => (Panic, store)
    | (OutOfFuel, _) => (OutOfFuel, store)
    end
  | Err e => (Err e, store)
  | Panic => (Panic, store)
  | OutOfFuel => (OutOfFuel, store)
  end.

(** [serve_directory]: one directory, whoever logged in. *)
Definition serve_directory (fuel : nat) (env : Env) (stream : TcpStream) (host : SigningKey)
    (d : Directory) (most : N) (check : Check) :
    outcome error (Authenticated * bytes) * Directory :=
  let '(o, store) := serve_chosen fuel env stream host (λ _, tt) most check (λ _, d) in
  (o, store tt).

(** [serve_channels]: the files left, who authenticated, the session. *)
Definition serve_channels (fuel : nat) (env : Env) (stream : TcpStream) (host : SigningKey)
    (fs : gmap string bytes) (most : N) (check : Check) :
    outcome error (gmap string bytes * Authenticated * bytes) :=
  let '(o, d) := serve_directory fuel env stream host (new_directory fs) most check in
  '(who, id) ← o;
  mret (files d, who, id).

(** [serve]: as many channels as a [usize] counts. *)
Definition serve_connection (fuel : nat) (env : Env) (stream : TcpStream) (host : SigningKey)
    (fs : gmap string bytes) (check : Check) :
    outcome error (gmap string bytes * Authenticated * bytes) :=
  serve_channels fuel env stream host fs usize_max check.
End server.
