(* ===== verification/ServeProperties.v ===== *)
(** The properties of serving: a channel's loop is the specification folded
    over the packets that came, it ends when the client closes, and a login
    comes before anything is served. *)

From S2P Require Import Prelude RustStd Externals Reference Wire Directory FarSpec FarRefine.
From S2P Require Import FarInvariant FarWorld FarProperties Serve.

Local Open Scope N_scope.

(** The server's side of a channel: the packets the client will still send
    before it closes, and the bytes written back. *)
Class Inbound `{!TransportErrors, !Ssh} : Type := {
  inbound : Channel → list bytes → bytes → Prop;
  inbound_frame c f fs out :
    inbound c (f :: fs) out →
    ∃ c', channel_read_frame c = (Ok (Some f), c') ∧ inbound c' fs out;
  inbound_end c out :
    inbound c [] out → ∃ c', channel_read_frame c = (Ok None, c') ∧ inbound c' [] out;
  inbound_write c fs out b :
    inbound c fs out → ∃ c', channel_write b c = (Ok tt, c') ∧ inbound c' fs (out ++ b);
}.

(** The others leave the directory well formed. *)
Definition env_wf `{!Net} (env : Env) : Prop :=
  ∀ i d, wf_directory d → wf_directory ((env i).2 d).

Section serve.
Context `{!Platform, !TransportErrors, !Codec, !CodecLaws, !Net, !NetLaws, !Ssh, !Inbound}.

(** What serving a channel promises: each packet decoded and executed, in
    order, on the directory as the others left it; the replies, one after
    another; an end at the close, or at the first packet that is malformed. *)
Fixpoint serve_spec (env : Env) (i : nat) (frames : list bytes) (s : Far) (out : bytes) :
    outcome error unit * Far * bytes :=
  match frames with
  | [] => (Ok tt, s, out)
  | [] :: _ => (Err (protocol_error "an SFTP packet with no type"), s, out)
  | (kind :: body) :: frames =>
    let s := on_directory (env i).2 s in
    match decode (Byte.to_N kind) body with
    | Ok r =>
      let '(p, s) := execute (env i).1 r s in
      serve_spec env (S i) frames s (out ++ reply_bytes p)
    | Err e => (Err e, s, out)
    | Panic => (Panic, s, out)
    | OutOfFuel => (OutOfFuel, s, out)
    end
  end.

Lemma execute_next now r s : next (execute now r s).2 ≤ next s + 1.
Proof. destruct r; simpl; repeat case_match; simplify_eq; simpl; lia. Qed.

Lemma others_wf env i s : env_wf env → wf_far s → wf_far (on_directory (env i).2 s).
Proof. intros He [Hd ? ?]. constructor; simpl; [|done|done]. by apply He. Qed.

Lemma on_channel_ok {A} (m : M Channel error A) c d i a c' :
  m c = (Ok a, c') →
  on_channel m {| serving_channel := c; held := d; locks := i |}
  = (Ok a, {| serving_channel := c'; held := d; locks := i |}).
Proof. unfold on_channel. cbn [serving_channel]. by intros ->. Qed.

(** One packet under the lock. *)
Lemma locked_answer_spec env kind rest c i s :
  env_wf env → wf_far s → next s < u64_max →
  let s0 := on_directory (env i).2 s in
  let v := {| serving_channel := c; held := directory s; locks := i |} in
  locked_answer env kind rest (handles s) (next s) v
  = match decode kind rest with
    | Ok r =>
      let '(p, s') := execute (env i).1 r s0 in
      (Ok (reply_bytes p, handles s', next s'),
       {| serving_channel := c; held := directory s'; locks := S i |})
    | Err e => (Err e, {| serving_channel := c; held := directory s0; locks := S i |})
    | Panic => (Panic, {| serving_channel := c; held := directory s0; locks := S i |})
    | OutOfFuel => (OutOfFuel, {| serving_channel := c; held := directory s0; locks := S i |})
    end.
Proof.
  intros He Hs Hn s0 v.
  pose proof (answer_decodes (env i).1 kind rest s0 (others_wf _ _ _ He Hs) Hn) as Ha.
  unfold refines in Ha. unfold locked_answer. cbn [locks held v].
  destruct (env i) as [now others] eqn:E. cbn [fst snd] in *.
  replace {| directory := others (directory s); handles := handles s; next := next s |} with s0
    by done.
  destruct (decode_answers kind rest) as [[r Hr]|[e Hr]]; rewrite Hr in *; [|by rewrite Ha].
  destruct (execute now r s0) as [p s']. by rewrite Ha.
Qed.

(** A turn at the client's close, and one on a packet. *)
Lemma serve_turn_end env hs n c d i c' :
  channel_read_frame c = (Ok None, c') →
  serve_turn env hs n {| serving_channel := c; held := d; locks := i |}
  = (Ok None, {| serving_channel := c'; held := d; locks := i |}).
Proof. intros Hr. unfold serve_turn. by rewrite (bind_ok _ _ _ _ _ (on_channel_ok _ _ _ _ _ _ Hr)). Qed.

Lemma serve_turn_packet env f fs c s i out :
  env_wf env → wf_far s → next s < u64_max → inbound c (f :: fs) out →
  let '(o, s', out') := serve_spec env i [f] s out in
  ∃ c' i', serve_turn env (handles s) (next s)
    {| serving_channel := c; held := directory s; locks := i |}
    = (_ ← o; Ok (Some (handles s', next s')),
       {| serving_channel := c'; held := directory s'; locks := i' |})
  ∧ inbound c' fs out' ∧ (o = Ok tt → i' = S i) ∧ wf_far s' ∧ next s' ≤ next s + 1 ∧ answers o.
Proof.
  intros He Hs Hn Hin. destruct (inbound_frame _ _ _ _ Hin) as (c1 & Hr & Hin1).
  pose proof (on_channel_ok _ _ (directory s) i _ _ Hr) as Hread. unfold serve_turn.
  destruct f as [|kind body]; cbn [serve_spec].
  { exists c1, i. rewrite (bind_ok _ _ _ _ _ Hread).
    split_and!; [done|done|done|done|lia|auto with sftp]. }
  pose proof (locked_answer_spec env (Byte.to_N kind) body c1 i s He Hs Hn) as Hl.
  cbv zeta in Hl. pose proof (decode_fits (Byte.to_N kind) body) as Hfits.
  destruct (decode_answers (Byte.to_N kind) body) as [[r Hd]|[e Hd]]; rewrite Hd in *.
  - pose proof (execute_wf (env i).1 r _ (others_wf _ i _ He Hs)) as Hwf.
    pose proof (execute_next (env i).1 r (on_directory (env i).2 s)) as Hnext.
    destruct (execute (env i).1 r (on_directory (env i).2 s)) as [p s1] eqn:Hx.
    cbn [snd next on_directory] in Hwf, Hnext.
    destruct (inbound_write _ _ _ (reply_bytes p) Hin1) as (c2 & Hw & Hin2).
    exists c2, (S i). rewrite (bind_ok _ _ _ _ _ Hread), (bind_ok _ _ _ _ _ Hl).
    rewrite (bind_ok _ _ _ _ _ (on_channel_ok _ _ _ _ _ _ Hw)).
    split_and!; [done|done|done|apply Hwf; [done|by apply Hfits]|done|auto with sftp].
  - exists c1, (S i). rewrite (bind_ok _ _ _ _ _ Hread), (bind_err _ _ _ _ _ Hl).
    split_and!; [done|done|done|by apply others_wf|cbn; lia|auto with sftp].
Qed.

Lemma serve_spec_cons env f frames s i out :
  serve_spec env i (f :: frames) s out
  = let '(o, s', out') := serve_spec env i [f] s out in
    match o with Ok _ => serve_spec env (S i) frames s' out' | _ => (o, s', out') end.
Proof.
  destruct f as [|kind body]; [done|]. cbn [serve_spec].
  destruct (decode (Byte.to_N kind) body); try done. by destruct (execute _ _ _).
Qed.

(** A channel just opened: no handle handed out. *)
Definition begun (d : Directory) : Far := {| directory := d; handles := ∅; next := 0 |}.

Lemma begun_wf d : wf_directory d → wf_far (begun d).
Proof.
  intros Hd. constructor; [done| |by vm_compute]. intros h hd Hh. cbn [begun handles] in Hh.
  by apply lookup_empty_Some in Hh.
Qed.

Lemma serve_spec_answers env frames : ∀ i s out o s' out',
  env_wf env → wf_far s → next s + N.of_nat (length frames) ≤ u64_max →
  serve_spec env i frames s out = (o, s', out') → answers o ∧ wf_far s'.
Proof.
  induction frames as [|f frames IH]; intros i s out o s' out' He Hs Hn; cbn [length] in *.
  { intros [= <- <- <-]. split; [apply answers_ok|done]. }
  destruct f as [|kind body]; cbn [serve_spec].
  { intros [= <- <- <-]. split; [apply answers_err|done]. }
  pose proof (others_wf _ i _ He Hs) as Ho.
  pose proof (decode_fits (Byte.to_N kind) body) as Hfits.
  destruct (decode_answers (Byte.to_N kind) body) as [[r Hd]|[e Hd]]; rewrite Hd in *.
  - pose proof (execute_wf (env i).1 r _ Ho) as Hwf.
    pose proof (execute_next (env i).1 r (on_directory (env i).2 s)) as Hnext.
    destruct (execute (env i).1 r (on_directory (env i).2 s)) as [p s1].
    cbn [snd next on_directory] in *. intros Hspec. eapply IH in Hspec; [done|done| |lia].
    apply Hwf; [lia|by apply Hfits].
  - intros [= <- <- <-]. split; [apply answers_err|done].
Qed.

(** The loop, from any point of it. *)
Lemma serve_loop_spec env frames : ∀ fuel c s i out,
  env_wf env → wf_far s → next s + N.of_nat (length frames) ≤ u64_max →
  inbound c frames out → (length frames < fuel)%nat →
  let '(o, s', out') := serve_spec env i frames s out in
  answers o ∧ wf_far s'
  ∧ ∃ c' left locks',
    serve_loop fuel env (handles s) (next s)
      {| serving_channel := c; held := directory s; locks := i |}
    = (o, {| serving_channel := c'; held := directory s'; locks := locks' |})
    ∧ inbound c' left out'
    ∧ (o = Ok tt → left = [] ∧ locks' = (i + length frames)%nat).
Proof.
  induction frames as [|f frames IH]; intros fuel c s i out He Hs Hn Hin Hf;
    (destruct fuel as [|fuel]; [simpl in Hf; lia|]); cbn [serve_loop].
  - destruct (inbound_end _ _ Hin) as (c' & Hr & Hin'). split; [apply answers_ok|].
    split; [done|]. exists c', [], i.
    split; [by rewrite (bind_ok _ _ _ _ _ (serve_turn_end _ _ _ _ _ _ _ Hr))|].
    split; [done|]. intros _. split; [done|]. simpl. lia.
  - cbn [length] in *. rewrite serve_spec_cons.
    pose proof (serve_turn_packet env f frames c s i out He Hs ltac:(lia) Hin) as Ht.
    destruct (serve_spec env i [f] s out) as [[o s1] out1].
    destruct Ht as (c1 & i' & Ht & Hin1 & Hi & Hs1 & Hn1 & [[[] ->]|[e ->]]).
    + rewrite (Hi eq_refl) in Ht. rewrite (bind_ok _ _ _ _ _ Ht).
      rewrite Nat.add_succ_r. apply (IH fuel c1 s1 (S i) out1); (done || lia).
    + split; [apply answers_err|]. split; [done|]. exists c1, frames, i'.
      by rewrite (bind_err _ _ _ _ _ Ht).
Qed.

(** C20: a served channel does what the specification says of the packets that
    came, and ends.  Whatever the packets are and whatever the other
    connections do between them, [serve] ends once the client closes, with
    each reply written in order and the directory the specification's; a
    malformed packet ends it with an error after the replies before it;
    nothing a client sends makes it panic. *)
Theorem serve_refines fuel env c d frames :
  env_wf env → wf_directory d → N.of_nat (length frames) ≤ u64_max →
  inbound c frames [] → (length frames < fuel)%nat →
  let '(o, s, out) :=
    serve_spec env 0 frames {| directory := d; handles := ∅; next := 0 |} [] in
  answers o ∧ wf_far s
  ∧ ∃ c' left locks',
    serve fuel env {| serving_channel := c; held := d; locks := 0 |}
    = (o, {| serving_channel := c'; held := directory s; locks := locks' |})
    ∧ inbound c' left out ∧ (o = Ok tt → left = []).
Proof.
  intros He Hd Hn Hin Hf.
  pose proof (serve_loop_spec env frames fuel c (begun d) 0 [] He (begun_wf d Hd) Hn Hin Hf) as Hs.
  unfold begun in Hs. destruct (serve_spec _ _ _ _ _) as [[o s] out].
  destruct Hs as (Ho & Hwf & c' & left & locks' & Hs & Hin' & Hend). split; [done|].
  split; [done|]. exists c', left, locks'. split; [exact Hs|]. split; [done|]. naive_solver.
Qed.
End serve.

Section server.
Context `{!Platform, !TransportErrors, !Codec, !Net, !Ssh, !Keys, !SshServer}.

(** C23: nothing is served before a login.  A directory of the store that
    [serve_chosen] leaves other than it found it is the one chosen for the
    user a login was admitted for, on that connection, after the key
    exchange, by the check it was handed. *)
Theorem login_first {K} `{EqDecision K} fuel env stream host (chosen : string → K) most check
    store o store' k :
  serve_chosen fuel env stream host chosen most check store = (o, store') →
  store' k ≠ store k →
  ∃ conn0 peer conn1 exchanged conn2 who conn3,
    conn_new stream = Ok conn0 ∧ conn_banner conn0 = (Ok peer, conn1)
    ∧ kex_server host peer conn1 = (Ok exchanged, conn2)
    ∧ userauth_serve (session_id exchanged) check conn2 = (Ok who, conn3)
    ∧ k = chosen (who_user who).
Proof.
  unfold serve_chosen. intros Hs Hk. destruct (conn_new stream) as [conn0| | |]; try congruence.
  destruct (log_in host check conn0) as [[[who sid]| | |] conn] eqn:E; try congruence.
  unfold log_in in E. apply bind_inv_ok in E as (peer & conn1 & Hb & E).
  apply bind_inv_ok in E as (exchanged & conn2 & Hx & E).
  apply bind_inv_ok in E as (who' & conn3 & Ha & E). injection E as -> <- <-.
  exists conn0, peer, conn1, exchanged, conn2, who, conn3. do 4 (split; [done|]).
  destruct (serve_session _ _ _ _) as [o' s]. injection Hs as _ <-.
  cbv beta in Hk. destruct (decide (k = chosen (who_user who))); [done|congruence].
Qed.
End server.

(** ** Witnesses: a connection that is a script of channels *)
Module Witnesses.
Import Reference.Instances FarProperties.Witnesses.

(** A channel's packets still to come, and what was written back. *)
Record Script : Type := { script_in : list bytes; script_out : bytes }.

Definition script_ssh : Ssh := {|
  Conn := list (list bytes);
  Channel := Script * list (list bytes);
  channel_open _ := λ l, (Err (retryable "the server's side"), l);
  channel_conn := snd;
  channel_write b := λ '(c, l),
    (Ok tt, ({| script_in := script_in c; script_out := script_out c ++ b |}, l));
  channel_read_exact _ := λ c, (Err (retryable "the server's side"), c);
  channel_read_frame := λ '(c, l),
    match script_in c with
    | [] => (Ok None, (c, l))
    | f :: fs => (Ok (Some f), ({| script_in := fs; script_out := script_out c |}, l))
    end;
  channel_close := mret tt;
|}.
#[local] Existing Instance script_ssh.

Definition script_inbound : Inbound.
Proof.
  refine {| inbound := λ (c : @Channel _ script_ssh) fs out,
              script_in c.1 = fs ∧ script_out c.1 = out |}.
  - intros [[i o] l] f fs out [Hi Ho]. simpl in *. subst. by eexists.
  - intros [[i o] l] out [Hi Ho]. simpl in *. subst. by eexists.
  - intros [[i o] l] fs out b [Hi Ho]. simpl in *. subst. by eexists.
Defined.
#[local] Existing Instance script_inbound.

(** The client presents the first login of the check it meets. *)
Definition script_login (check : Check) : outcome error Authenticated :=
  match check with
  | (u, _) :: _ =>
    Ok {| who_user := u; who_fingerprint := None; who_signature := None; who_signed := None |}
  | [] => Err (permanent "turned down")
  end.

Definition script_server : SshServer := {|
  TcpStream := list (list bytes);
  Exchanged := unit;
  conn_new l := Ok l;
  conn_banner := mret [];
  kex_server _ _ := mret tt;
  session_id _ := [];
  userauth_serve _ check := lift (script_login check);
  channel_accept _ := λ l,
    match l with
    | [] => (Err (retryable "the client is gone"), [])
    | c :: l => (Ok ({| script_in := c; script_out := [] |}, l), l)
    end;
|}.
#[local] Existing Instance script_server.

Definition ex_frame (r : request) : bytes := byte_of_N (request_kind r) :: request_body r.
Definition ex_frames : list bytes :=
  [ex_frame (RqOpen 1 "b.edi" (F_WRITE + F_CREAT)); ex_frame (RqWrite 2 "h0" 0 (as_bytes "ISA"));
   ex_frame (RqClose 3 "h0")].
Definition ex_env : Env := λ _, (Some 7, λ d, d).

(** Between any two locks another connection drops a file. *)
Definition busy : Env := λ i, (Some (N.of_nat i), with_files <["other.edi" := as_bytes "UNA"]>).

Lemma busy_wf : env_wf busy.
Proof.
  intros i d [Hf Hw Hn]. constructor; [| |done].
  - intros n c Hc. cbn [busy snd with_files files] in Hc.
    apply lookup_insert_Some in Hc as [[<- <-]|[_ Hc]]; [|by apply Hf].
    split; [by split|]. vm_compute. discriminate.
  - intros n t Ht. destruct (Hw n t Ht) as [Hd ?]. split; [|done].
    cbn [busy snd with_files files]. destruct (decide (n = "other.edi")) as [->|Hne].
    + rewrite lookup_insert_eq. by eexists.
    + by rewrite lookup_insert_ne.
Qed.

Lemma serve_refines_witness :
  ∃ s out, serve_spec ex_env 0 ex_frames {| directory := ex_directory; handles := ∅; next := 0 |} []
      = (Ok tt, s, out)
    ∧ files (directory s) !! "b.edi" = Some (as_bytes "ISA")
    ∧ ∃ c' locks', serve 4 ex_env {| serving_channel := ({| script_in := ex_frames;
          script_out := [] |}, []) : @Channel _ script_ssh; held := ex_directory; locks := 0 |}
      = (Ok tt, {| serving_channel := c'; held := directory s; locks := locks' |}).
Proof.
  pose proof (serve_refines 4 ex_env ({| script_in := ex_frames; script_out := [] |}, [])
    ex_directory ex_frames (λ _ _ H, H) ex_directory_wf) as Hs.
  destruct (serve_spec _ _ _ _ _) as [[o s] out] eqn:E.
  destruct Hs as (_ & _ & c' & left & locks' & Hs & _);
    [vm_compute; discriminate|done|unfold ex_frames; simpl; lia|].
  exists s, out. vm_compute in E. injection E as <- <- <-. split; [reflexivity|].
  split; [reflexivity|]. exists c', locks'. exact Hs.
Defined.

Definition ex_check : Check := login_only "party" "secret".
Definition ex_stream : @TcpStream _ _ _ script_server := [ex_frames].
Definition ex_conn : @Conn _ script_ssh := [ex_frames].

Definition ex_served :=
  serve_chosen 4 ex_env ex_stream (signing_key_of []) (λ u, u) 1 ex_check (λ _, ex_directory).

Lemma login_first_witness :
  ∃ who conn3, userauth_serve [] ex_check ex_conn = (Ok who, conn3) ∧ "party" = who_user who.
Proof.
  destruct (login_first 4 ex_env ex_stream (signing_key_of []) (λ u, u) 1 ex_check (λ _, ex_directory)
    ex_served.1 ex_served.2 "party" (surjective_pairing ex_served))
    as (c0 & p & c1 & x & c2 & who & c3 & Hc & Hb & Hx & Ha & Hk).
  - intros Heq. apply (f_equal (λ d, files d !! "b.edi")) in Heq. vm_compute in Heq. discriminate.
  - injection Hc as <-. injection Hb as <- <-. injection Hx as <- <-. eauto.
Defined.
End Witnesses.
