(* ===== verification/Sessions.v ===== *)
(** A whole connection served: [serve_session] and [serve_chosen] against a
    specification of all the channels a client opens one after another, each
    [ServeProperties.serve_spec] of its packets. *)

From S2P Require Import Prelude RustStd Externals Reference Wire Directory FarSpec FarRefine.
From S2P Require Import FarInvariant FarWorld FarProperties Serve ServeProperties.

Local Open Scope N_scope.

Section turn.
Context `{!Platform, !TransportErrors, !Codec, !Net, !Ssh}.

(** A packet answered at a turn. *)
Lemma serve_turn_answer env kind body c c1 c2 s i reply s' :
  channel_read_frame c = (Ok (Some (kind :: body)), c1) →
  answer (env i).1 (Byte.to_N kind) body (on_directory (env i).2 s) = (Ok reply, s') →
  channel_write reply c1 = (Ok tt, c2) →
  serve_turn env (handles s) (next s) {| serving_channel := c; held := directory s; locks := i |}
  = (Ok (Some (handles s', next s')),
     {| serving_channel := c2; held := directory s'; locks := S i |}).
Proof.
  intros Hr Ha Hw.
  assert (locked_answer env (Byte.to_N kind) body (handles s) (next s)
            {| serving_channel := c1; held := directory s; locks := i |}
          = (Ok (reply, handles s', next s'),
             {| serving_channel := c1; held := directory s'; locks := S i |})) as Hl.
  { unfold locked_answer. cbn [locks held serving_channel]. unfold on_directory in Ha.
    destruct (env i) as [now others]. cbn [fst snd] in Ha. by rewrite Ha. }
  unfold serve_turn. rewrite (bind_ok _ _ _ _ _ (on_channel_ok _ _ _ i _ _ Hr)).
  rewrite (bind_ok _ _ _ _ _ Hl). by rewrite (bind_ok _ _ _ _ _ (on_channel_ok _ _ _ _ _ _ Hw)).
Qed.

End turn.

(** The server's side of a connection: the channels the client will open, each
    with the packets it will send before it closes it, and what was written
    back on each channel before.  After the last, none opens. *)
Class Accepting `{!TransportErrors, !Ssh, !Keys, !SshServer} : Type := {
  accepting : Conn → list bytes → list (list bytes) → Prop;
  (** A channel's packets, the replies of the channels before it, the channels
      after it. *)
  within : list bytes → list (list bytes) → Inbound;
  (** What was written back on each channel. *)
  replied : Conn → list bytes → Prop;
  accepting_next conn outs fs fss :
    accepting conn outs (fs :: fss) →
    ∃ c conn', channel_accept SUBSYSTEM conn = (Ok c, conn') ∧ @inbound _ _ (within outs fss) c fs [];
  accepting_over conn outs :
    accepting conn outs [] →
    ∃ e conn', channel_accept SUBSYSTEM conn = (Err e, conn') ∧ replied conn' outs;
  accepting_close outs fss c out :
    @inbound _ _ (within outs fss) c [] out →
    ∃ c', channel_close c = (Ok tt, c') ∧ accepting (channel_conn c') (outs ++ [out]) fss;
  accepting_replied conn outs fss : accepting conn outs fss → replied conn outs;
}.

Section sessions.
Context `{!Platform, !TransportErrors, !Codec, !CodecLaws, !Net, !NetLaws, !Ssh, !Keys, !SshServer,
          !Accepting}.

(** What serving a connection promises: its channels one after another, the
    directory left by one found by the next, until the last or until a packet
    is malformed; the replies channel by channel. *)
Fixpoint session_spec (env : Env) (i : nat) (fss : list (list bytes)) (d : Directory)
    (outs : list bytes) : outcome error unit * Directory * list bytes :=
  match fss with
  | [] => (Ok tt, d, outs)
  | fs :: fss =>
    let '(o, s, out) := serve_spec env i fs (begun d) [] in
    match o with
    | Ok _ => session_spec env (i + length fs) fss (directory s) (outs ++ [out])
    | o => (o, directory s, outs ++ [out])
    end
  end.

(** Turns enough for every channel and every packet of each. *)
Definition enough (fuel : nat) (fss : list (list bytes)) : Prop :=
  (length fss < fuel)%nat ∧ Forall (λ fs, length fs + length fss < fuel)%nat fss.

(** As many packets as a channel's handles are counted for. *)
Definition countable (fss : list (list bytes)) : Prop :=
  Forall (λ fs : list bytes, N.of_nat (length fs) ≤ u64_max) fss.

Lemma enough_tail fuel fs fss : enough (S fuel) (fs :: fss) → enough fuel fss.
Proof.
  intros [Hl Hf]. simpl in Hl. apply Forall_cons in Hf as [_ Hf]. split; [lia|].
  eapply Forall_impl; [exact Hf|]. simpl. lia.
Qed.

(** What [serve] makes of a channel's packets, whatever the channel. *)
Definition channel_run (env : Env) (i : nat) (frames : list bytes) (d : Directory)
    (o : outcome error unit) (d' : Directory) (out : bytes) : Prop :=
  answers o ∧ ∀ (Hin : Inbound) fuel c, (length frames < fuel)%nat → inbound c frames [] →
    ∃ c' left i',
      serve fuel env {| serving_channel := c; held := d; locks := i |}
      = (o, {| serving_channel := c'; held := d'; locks := i' |})
      ∧ inbound c' left out ∧ (o = Ok tt → left = [] ∧ i' = (i + length frames)%nat).

(** [serve]'s loop past some packets it answered, whatever comes after. *)
Definition loop_run (env : Env) (i : nat) (frames : list bytes) (s : Far) (out : bytes)
    (s' : Far) (out' : bytes) : Prop :=
  ∀ (Hin : Inbound) fuel c more, inbound c (frames ++ more) out →
    ∃ c', serve_loop (length frames + fuel) env (handles s) (next s)
            {| serving_channel := c; held := directory s; locks := i |}
          = serve_loop fuel env (handles s') (next s')
              {| serving_channel := c'; held := directory s'; locks := i + length frames |}
      ∧ inbound c' more out'.

Lemma loop_run_nil env i s out : loop_run env i [] s out s out.
Proof. intros Hin fuel c more Hc. exists c. by rewrite Nat.add_0_r. Qed.

Lemma loop_run_snoc env i fs s out s1 out1 kind body reply s2 :
  loop_run env i fs s out s1 out1 →
  answer (env (i + length fs)%nat).1 (Byte.to_N kind) body
    (on_directory (env (i + length fs)%nat).2 s1) = (Ok reply, s2) →
  loop_run env i (fs ++ [kind :: body]) s out s2 (out1 ++ reply).
Proof.
  intros Hrun Ha Hin fuel c more Hc. rewrite <- (assoc_L (++)) in Hc.
  destruct (Hrun Hin (S fuel) c _ Hc) as (c1 & Hl & Hc1).
  destruct (inbound_frame _ _ _ _ Hc1) as (c2 & Hr & Hc2).
  destruct (inbound_write _ _ _ reply Hc2) as (c3 & Hw & Hc3).
  pose proof (serve_turn_answer _ _ _ _ _ _ _ _ _ _ Hr Ha Hw) as Ht.
  exists c3. split; [|done]. rewrite length_app. simpl length.
  replace (length fs + 1 + fuel)%nat with (length fs + S fuel)%nat by lia.
  rewrite Hl. cbn [serve_loop]. rewrite (bind_ok _ _ _ _ _ Ht).
  by replace (i + (length fs + 1))%nat with (S (i + length fs)) by lia.
Qed.

(** Past them all, the client closes. *)
Lemma loop_run_channel env i fs d s out :
  loop_run env i fs (begun d) [] s out → channel_run env i fs d (Ok tt) (directory s) out.
Proof.
  intros Hrun. split; [apply answers_ok|]. intros Hin fuel c Hf Hc.
  rewrite <- (right_id_L [] (++) fs) in Hc.
  destruct (Hrun Hin (fuel - length fs)%nat c [] Hc) as (c1 & Hl & Hc1).
  destruct (inbound_end _ _ Hc1) as (c2 & Hr & Hc2). eexists c2, [], _.
  unfold serve. replace fuel with (length fs + (fuel - length fs))%nat by lia.
  cbn [begun handles next directory] in Hl. rewrite Hl.
  replace (fuel - length fs)%nat with (S (fuel - length fs - 1)) by lia. cbn [serve_loop].
  rewrite (bind_ok _ _ _ _ _ (serve_turn_end _ _ _ _ _ _ _ Hr)). by split_and!.
Qed.

(** And the channels one after another. *)
Inductive session_run (env : Env) :
    nat → list (list bytes) → Directory → list bytes →
    outcome error unit → Directory → list bytes → Prop :=
  | run_over i d outs : session_run env i [] d outs (Ok tt) d outs
  | run_channel i fs fss d d1 out outs o d' outs' :
    channel_run env i fs d (Ok tt) d1 out →
    session_run env (i + length fs) fss d1 (outs ++ [out]) o d' outs' →
    session_run env i (fs :: fss) d outs o d' outs'
  | run_broken i fs fss d d1 out outs e :
    channel_run env i fs d (Err e) d1 out →
    session_run env i (fs :: fss) d outs (Err e) d1 (outs ++ [out]).

Lemma session_run_answers env i fss d outs o d' outs' :
  session_run env i fss d outs o d' outs' → answers o.
Proof. induction 1; auto with sftp. Qed.

Lemma session_run_snoc env i fss d outs d1 outs1 fs d2 out :
  session_run env i fss d outs (Ok tt) d1 outs1 →
  channel_run env (i + sum_list (length <$> fss))%nat fs d1 (Ok tt) d2 out →
  session_run env i (fss ++ [fs]) d outs (Ok tt) d2 (outs1 ++ [out]).
Proof.
  intros Hrun. remember (Ok tt) as o eqn:Ho. revert Ho.
  induction Hrun as [i d outs|i f fss d d' out' outs o d1 outs1 Hc Hrun IH|]; intros Ho Hch; [| |done].
  - simpl in Hch. rewrite Nat.add_0_r in Hch. subst. eapply run_channel; [done|constructor].
  - eapply run_channel; [done|]. apply IH; [done|]. simpl in Hch.
    by rewrite <- Nat.add_assoc.
Qed.

(** The specification is such a run. *)
Lemma spec_channel_run env i frames d :
  env_wf env → wf_directory d → N.of_nat (length frames) ≤ u64_max →
  let '(o, s, out) := serve_spec env i frames (begun d) [] in
  channel_run env i frames d o (directory s) out ∧ wf_directory (directory s).
Proof.
  intros He Hd Hn. destruct (serve_spec env i frames (begun d) []) as [[o s] out] eqn:E.
  assert (answers o ∧ wf_far s) as [Ho Hwf]
    by (apply (serve_spec_answers env frames i (begun d) [] o s out He (begun_wf d Hd) Hn E)).
  split; [|apply Hwf]. split; [done|]. intros Hin fuel c Hf Hc.
  pose proof (serve_loop_spec env frames fuel c (begun d) i [] He (begun_wf d Hd) Hn Hc Hf) as Hs.
  rewrite E in Hs. by destruct Hs as (_ & _ & Hs).
Qed.

Lemma spec_session_run env fss : ∀ i d outs,
  env_wf env → wf_directory d → countable fss →
  let '(o, d', outs') := session_spec env i fss d outs in
  session_run env i fss d outs o d' outs' ∧ wf_directory d'.
Proof.
  induction fss as [|fs fss IH]; intros i d outs He Hd Hcount; [by split; [constructor|]|].
  apply Forall_cons in Hcount as [Hn Hcount]. cbn [session_spec].
  pose proof (spec_channel_run env i fs d He Hd Hn) as Hc.
  destruct (serve_spec env i fs (begun d) []) as [[o s] out].
  destruct Hc as [Hc Hwf]. pose proof (proj1 Hc) as [[[] ->]|[e ->]].
  - specialize (IH (i + length fs)%nat (directory s) (outs ++ [out]) He Hwf Hcount).
    destruct (session_spec _ _ _ _ _) as [[o d'] outs']. destruct IH. split; [|done].
    by eapply run_channel.
  - split; [by apply run_broken|done].
Qed.

(** One channel, served and closed. *)
Lemma served_channel_run fuel env c x d i frames outs fss o d' out :
  channel_run env i frames d o d' out → (length frames < fuel)%nat →
  @inbound _ _ (within outs fss) c frames [] →
  ∃ conn' i',
    served_channel fuel env c {| session_conn := x; session_held := d; session_locks := i |}
    = (o, {| session_conn := conn'; session_held := d'; session_locks := i' |})
    ∧ (o = Ok tt → i' = (i + length frames)%nat ∧ accepting conn' (outs ++ [out]) fss).
Proof.
  intros [Ho Hrun] Hf Hin.
  destruct (Hrun (within outs fss) fuel c Hf Hin) as (c' & left & i' & Hs & Hin' & Hend).
  unfold served_channel. cbn [session_held session_locks]. destruct Ho as [[[] ->]|[e ->]].
  - destruct (Hend eq_refl) as [-> Hi]. destruct (accepting_close _ _ _ _ Hin') as (c2 & Hc & Hacc).
    eexists _, _. rewrite (bind_ok _ _ _ _ _ Hs), (on_channel_ok _ _ _ _ _ _ Hc).
    split; [done|]. by intros _.
  - eexists _, _. by rewrite (bind_err _ _ _ _ _ Hs).
Qed.

(** The channels after the first, as many of them as are served. *)
Lemma more_channels_run env fss : ∀ fuel left conn d i outs o d' outs',
  enough fuel fss → accepting conn outs fss →
  session_run env i (take (N.to_nat left) fss) d outs o d' outs' →
  ∃ conn' i',
    more_channels fuel env left {| session_conn := conn; session_held := d; session_locks := i |}
    = (o, {| session_conn := conn'; session_held := d'; session_locks := i' |})
    ∧ (o = Ok tt → replied conn' outs').
Proof.
  induction fss as [|fs fss IH]; intros fuel left conn d i outs o d' outs' Henough Hacc Hrun;
    (destruct fuel as [|fuel]; [destruct Henough; lia|]); cbn [more_channels];
    destruct (N.eqb_spec left 0) as [->|Hleft];
    try (inversion Hrun; subst; exists conn, i; split; [done|];
         intros _; by eapply accepting_replied).
  - rewrite take_nil in Hrun. inversion Hrun; subst.
    destruct (accepting_over _ _ Hacc) as (e & conn' & Ho & Hr). exists conn', i.
    unfold attempt, on_conn, mbind at 1, M_bind. cbn [session_conn]. by rewrite Ho.
  - replace (N.to_nat left) with (S (N.to_nat (left - 1))) in Hrun by lia. cbn [take] in Hrun.
    destruct (accepting_next _ _ _ _ Hacc) as (c & conn1 & Ho & Hin).
    pose proof Henough as [_ Hf]. apply Forall_cons in Hf as [Hf _]. simpl in Hf.
    unfold attempt, on_conn, mbind at 1, M_bind. cbn [session_conn session_held session_locks].
    rewrite Ho. inversion Hrun as [|i0 f0 r0 d0 d1 out o0 o1 d2 o2 Hc Hrest|i0 f0 r0 d0 d1 out o0 e Hc];
      subst; destruct (served_channel_run (S fuel) env c conn1 d i fs outs fss _ _ _ Hc ltac:(lia) Hin)
        as (conn2 & i' & Hs & Hend).
    + destruct (Hend eq_refl) as [-> Hacc2]. rewrite (bind_ok _ _ _ _ _ Hs).
      eapply (IH fuel); [by eapply enough_tail|done|done].
    + rewrite (bind_err _ _ _ _ _ Hs). by exists conn2, i'.
Qed.

(** [serve_session], from a connection just logged in. *)
Lemma serve_session_run env fs fss fuel most conn d i outs o d' outs' :
  enough fuel (fs :: fss) → accepting conn outs (fs :: fss) →
  session_run env i (fs :: take (N.to_nat most - 1) fss) d outs o d' outs' →
  ∃ conn' i',
    serve_session fuel env most {| session_conn := conn; session_held := d; session_locks := i |}
    = (o, {| session_conn := conn'; session_held := d'; session_locks := i' |})
    ∧ (o = Ok tt → replied conn' outs').
Proof.
  intros Henough Hacc Hrun. destruct (accepting_next _ _ _ _ Hacc) as (c & conn1 & Ho & Hin).
  pose proof Henough as [Hl Hf]. apply Forall_cons in Hf as [Hf Hrest]. simpl in Hf, Hl.
  unfold serve_session, on_conn, mbind at 1, M_bind. cbn [session_conn session_held session_locks].
  rewrite Ho. inversion Hrun as [|i0 f0 r0 d0 d1 out o0 o1 d2 o2 Hc Hrun2|i0 f0 r0 d0 d1 out o0 e Hc];
    subst; destruct (served_channel_run fuel env c conn1 d i fs outs fss _ _ _ Hc ltac:(lia) Hin)
      as (conn2 & i' & Hs & Hend).
  - destruct (Hend eq_refl) as [-> Hacc2]. rewrite (bind_ok _ _ _ _ _ Hs).
    replace (N.to_nat most - 1)%nat with (N.to_nat (most - 1)) in Hrun2 by lia.
    eapply more_channels_run; [|done|done]. split; [lia|].
    eapply Forall_impl; [exact Hrest|]. simpl. lia.
  - rewrite (bind_err _ _ _ _ _ Hs). by exists conn2, i'.
Qed.

(** [serve_chosen], for the user who logged in. *)
Lemma serve_chosen_run {K} `{EqDecision K} fuel env stream host (chosen : string → K) most check
    store conn0 who id conn fs fss o d' outs' :
  conn_new stream = Ok conn0 → log_in host check conn0 = (Ok (who, id), conn) →
  accepting conn [] (fs :: fss) → enough fuel (fs :: fss) →
  session_run env 0 (fs :: take (N.to_nat most - 1) fss) (store (chosen (who_user who))) [] o d' outs' →
  ∃ store', serve_chosen fuel env stream host chosen most check store = (_ ← o; Ok (who, id), store')
    ∧ store' (chosen (who_user who)) = d' ∧ ∀ k, k ≠ chosen (who_user who) → store' k = store k.
Proof.
  intros Hc Hl Hacc Henough Hrun.
  destruct (serve_session_run env fs fss fuel most conn _ 0 [] _ _ _ Henough Hacc Hrun)
    as (conn' & i' & Hs & _).
  unfold serve_chosen. rewrite Hc, Hl, Hs. eexists. split; [done|]. cbn [session_held].
  split; [by rewrite decide_True|]. intros k Hk. by rewrite decide_False.
Qed.

(** C4: a served connection does what the specification says of all its
    channels, and ends.  Once a user is logged in, whatever packets the
    client sends on whatever number of channels and whatever the others do
    between them, [serve_chosen] ends: the directory chosen for that user is
    what the specification of the first [most] channels makes of it, a channel
    finding what the one before it left; no other directory of the store
    changes; the outcome is who logged in, or the error of the first malformed
    packet; nothing a client sends makes it panic. *)
Theorem session_refines {K} `{EqDecision K} fuel env stream host (chosen : string → K) most check
    store conn0 who id conn fs fss :
  conn_new stream = Ok conn0 → log_in host check conn0 = (Ok (who, id), conn) →
  accepting conn [] (fs :: fss) → env_wf env → wf_directory (store (chosen (who_user who))) →
  countable (fs :: fss) → enough fuel (fs :: fss) →
  let k := chosen (who_user who) in
  let '(o, d', _) := session_spec env 0 (fs :: take (N.to_nat most - 1) fss) (store k) [] in
  answers o ∧ wf_directory d'
  ∧ ∃ store', serve_chosen fuel env stream host chosen most check store
              = (_ ← o; Ok (who, id), store')
    ∧ store' k = d' ∧ ∀ k', k' ≠ k → store' k' = store k'.
Proof.
  intros Hc Hl Hacc He Hd Hcount Henough k. subst k.
  assert (countable (fs :: take (N.to_nat most - 1) fss)) as Hcount'.
  { apply Forall_cons in Hcount as [? ?]. constructor; [done|by apply Forall_take]. }
  pose proof (spec_session_run env _ 0 _ [] He Hd Hcount') as Hrun.
  destruct (session_spec _ _ _ _ _) as [[o d'] outs']. destruct Hrun as [Hrun Hwf].
  split; [by eapply session_run_answers|]. split; [done|].
  by eapply serve_chosen_run.
Qed.
End sessions.
