(* ===== verification/Unpoisoned.v ===== *)
(** No client makes the server panic.  The client at the other end of a
    connection is anyone's, logged in or not: what it sends is whatever the
    reads of its channels give.  [serve_chosen] (src/server.rs), run over a
    connection about which nothing is known but that its operations answer,
    ends in a value or an error, and every directory is well formed after: no
    thread unwinds with a directory's lock held, so none is poisoned. *)

From S2P Require Import Prelude RustStd Externals Safely Reference Wire Directory FarSpec FarRefine.
From S2P Require Import FarInvariant FarWorld FarProperties Serve ServeProperties Sessions.

Local Open Scope N_scope.

Section server.
Context `{!Platform, !TransportErrors, !Codec, !CodecLaws, !Net, !NetLaws, !Ssh, !Keys, !SshServer}.

(** What the ssh crate answers a server: a value or an error. *)
Class ServerAnswers : Prop := {
  new_answers stream : answers (conn_new stream);
  conn_banner_answers : unpanicking conn_banner;
  kex_server_answers host peer : unpanicking (kex_server host peer);
  userauth_answers session check : unpanicking (userauth_serve session check);
  accept_answers name : unpanicking (channel_accept name);
  read_frame_answers : unpanicking channel_read_frame;
  reply_answers b : unpanicking (channel_write b);
  shut_answers : unpanicking channel_close;
}.
Context `{!ServerAnswers}.
Context (env : Env) (env_kept : env_wf env).

(** The directory served is well formed. *)
Definition served_wf (v : Serving) : Prop := wf_directory (held v).
(** A channel's handles are its own, whatever the directory. *)
Definition handles_wf (hs : gmap string Handle) (n : N) : Prop :=
  ∀ d, wf_directory d → wf_far {| directory := d; handles := hs; next := n |}.

Lemma handles_begin : handles_wf ∅ 0.
Proof. intros d Hd. constructor; [done| |done]. cbn [handles]. by intros h hd ?%lookup_empty_Some. Qed.

Lemma on_channel_keeping {A} (m : M Channel error A) :
  unpanicking m → keeping served_wf (λ _, True) (on_channel m).
Proof.
  intros Hm v Hv. specialize (Hm (serving_channel v)). unfold on_channel.
  by destruct (m (serving_channel v)) as [o c].
Qed.

(** One answer under the lock: on any packet, a reply with the handles well
    formed after it, or an error. *)
Lemma locked_answer_keeping kind rest hs n :
  handles_wf hs n → n < u64_max →
  keeping served_wf (λ '(_, hs', n'), handles_wf hs' n' ∧ n' ≤ n + 1)
    (locked_answer env kind rest hs n).
Proof.
  intros Hhs Hn v Hv. unfold locked_answer.
  destruct (env (locks v)) as [now others] eqn:He.
  assert (wf_directory (others (held v))) as Hd.
  { pose proof (env_kept (locks v) _ Hv) as Hk. by rewrite He in Hk. }
  set (s := {| directory := others (held v); handles := hs; next := n |}).
  pose proof (answer_decodes now kind rest s (Hhs _ Hd) Hn) as Ha. unfold refines in Ha.
  destruct (decode_answers kind rest) as [[r Hr]|[e Hr]]; rewrite Hr in Ha; rewrite Ha; [|by split].
  pose proof (execute_wf now r s (Hhs _ Hd) Hn (decode_fits _ _ _ Hr)) as [Hwf Hh Hx].
  pose proof (execute_next now r s) as Hnx.
  destruct (execute now r s) as [p s'] eqn:He'. cbn [fst snd] in *.
  split; [|exact Hwf]. split; [|exact Hnx]. intros d' Hd'. by constructor.
Qed.

Lemma serve_turn_keeping hs n :
  handles_wf hs n → n < u64_max →
  keeping served_wf (λ t, match t with Some (hs', n') => handles_wf hs' n' ∧ n' ≤ n + 1 | None => True end)
    (serve_turn env hs n).
Proof.
  intros Hhs Hn. unfold serve_turn.
  eapply keeping_bind; [apply on_channel_keeping, read_frame_answers|].
  intros [[|kind rest]|] _; [by apply keeping_fail| |by apply keeping_ret].
  eapply keeping_bind; [by apply locked_answer_keeping|]. intros [[reply hs'] n'] Hnext.
  eapply keeping_bind; [apply on_channel_keeping, reply_answers|]. intros _ _.
  by apply keeping_ret.
Qed.

Lemma serve_loop_keeping fuel : ∀ hs n,
  handles_wf hs n → n + N.of_nat fuel ≤ u64_max →
  keeping served_wf (λ _, True) (serve_loop fuel env hs n).
Proof.
  induction fuel as [|fuel IH]; intros hs n Hhs Hn; [by apply keeping_lift|].
  cbn [serve_loop]. eapply keeping_bind; [apply serve_turn_keeping; [done|lia]|].
  intros [[hs' n']|] Ht; [|by apply keeping_ret]. destruct Ht. apply IH; [done|lia].
Qed.

(** ** A connection *)
Definition session_wf (s : Connected) : Prop := wf_directory (session_held s).

Lemma on_conn_keeping {A} (m : M Conn error A) :
  unpanicking m → keeping session_wf (λ _, True) (on_conn m).
Proof.
  intros Hm s Hs. specialize (Hm (session_conn s)). unfold on_conn.
  by destruct (m (session_conn s)) as [o c].
Qed.

Lemma served_channel_keeping fuel c :
  N.of_nat fuel ≤ u64_max → keeping session_wf (λ _, True) (served_channel fuel env c).
Proof.
  intros Hf s Hs. unfold served_channel.
  assert (keeping served_wf (λ _, True) (_ ← serve fuel env; on_channel channel_close)) as Hk.
  { eapply keeping_bind; [apply serve_loop_keeping; [apply handles_begin|lia]|].
    intros _ _. apply on_channel_keeping, shut_answers. }
  specialize (Hk {| serving_channel := c; held := session_held s; locks := session_locks s |} Hs).
  by destruct ((_ ← serve fuel env; on_channel channel_close) _) as [o v].
Qed.

Lemma more_channels_keeping fuel : ∀ left,
  N.of_nat fuel ≤ u64_max → keeping session_wf (λ _, True) (more_channels fuel env left).
Proof.
  induction fuel as [|fuel IH]; intros left Hf; cbn [more_channels];
    (destruct (left =? 0); [by apply keeping_ret|]); [by apply keeping_lift|].
  eapply keeping_bind; [apply keeping_attempt, on_conn_keeping, accept_answers|].
  intros [e|c] _; [by apply keeping_ret|].
  eapply keeping_bind; [apply served_channel_keeping; lia|]. intros _ _. apply IH. lia.
Qed.

Lemma serve_session_keeping fuel most :
  N.of_nat fuel ≤ u64_max → keeping session_wf (λ _, True) (serve_session fuel env most).
Proof.
  intros Hf. unfold serve_session.
  eapply keeping_bind; [apply on_conn_keeping, accept_answers|]. intros c _.
  eapply keeping_bind; [by apply served_channel_keeping|]. intros _ _.
  by apply more_channels_keeping.
Qed.

Lemma log_in_unpanicking host check : unpanicking (log_in host check).
Proof.
  unfold log_in. eapply safely_bind; [apply conn_banner_answers|]. intros peer _.
  eapply safely_bind; [apply kex_server_answers|]. intros exchanged _.
  eapply safely_bind; [apply userauth_answers|]. intros who _. by apply safely_ret.
Qed.

(** C27: no client makes the server panic.  Whatever bytes a client sends, in
    whatever packets, on however many channels, and wherever its connection
    breaks, serving it ends in a value or an error, or goes on while the client
    does, for as many packets as a [u64] numbers handles; and every directory
    is well formed after: no lock is poisoned by a thread that unwound, and no
    other client is served a directory half changed. *)
Theorem server_never_panics {K} `{EqDecision K} fuel stream host (chosen : string → K) most check
    (store : K → Directory) :
  N.of_nat fuel ≤ u64_max → (∀ k, wf_directory (store k)) →
  let '(o, store') := serve_chosen fuel env stream host chosen most check store in
  o ≠ Panic ∧ ∀ k, wf_directory (store' k).
Proof.
  intros Hf Hwf. unfold serve_chosen.
  destruct (new_answers stream) as [[conn ->]|[e ->]]; [|by split].
  pose proof (log_in_unpanicking host check conn) as Hl.
  destruct (log_in host check conn) as [[[who id]|e| |] conn']; try done.
  destruct (serve_session_keeping fuel most Hf
    {| session_conn := conn'; session_held := store (chosen (who_user who)); session_locks := 0 |}
    (Hwf _)) as [Ho Hs].
  destruct (serve_session _ _ _ _) as [o s]. cbn [fst snd] in *. split; [by destruct o|].
  intros k. by case_decide.
Qed.
End server.

(** ** Witness *)
Module Witnesses.
Import Reference.Instances FarProperties.Witnesses ServeProperties.Witnesses.

(** A client that sends the packets it has decided to send, a channel at a
    time, whatever it is answered. *)
Definition script_ssh : Ssh := {|
  Conn := list (list bytes);
  Channel := list bytes * list (list bytes);
  channel_open _ := λ c, (Err (retryable "a client's end"), c);
  channel_conn c := c.2;
  channel_write _ := λ c, (Ok tt, c);
  channel_read_exact _ := λ c, (Err (retryable "the channel closed"), c);
  channel_read_frame := λ c,
    match c.1 with f :: fs => (Ok (Some f), (fs, c.2)) | [] => (Ok None, c) end;
  channel_close := λ c, (Ok tt, c);
|}.

Definition script_server : @SshServer _ script_ssh ref_keys := {|
  TcpStream := list (list bytes);
  Exchanged := bytes;
  conn_new l := Ok (l : @Conn _ script_ssh);
  conn_banner := λ l, (Ok [], l);
  kex_server host _ := λ l, (Ok (host : bytes), l);
  session_id x := x;
  userauth_serve _ _ := λ l, (Ok {| who_user := "party"; who_fingerprint := None;
                                     who_signature := None; who_signed := None |}, l);
  channel_accept _ := λ l : list (list bytes),
    match l with
    | c :: l => (Ok ((c, l) : @Channel _ script_ssh), l)
    | [] => (Err (retryable "the connection closed"), [])
    end;
|}.

Lemma script_answers : @ServerAnswers _ script_ssh ref_keys script_server.
Proof.
  constructor; try done.
  - intros stream. apply answers_ok.
  - intros name l. by destruct l.
  - intros [[|f fs] l]; done.
Qed.

(** A WRITE to a handle nobody has, at the last offset there is; a packet with
    no type ends the connection. *)
Definition ex_hostile : list (list bytes) :=
  [[byte_of_N WRITE :: request_body (RqWrite 1 "h9" u64_max (as_bytes "x"))];
   [byte_of_N OPEN :: request_body (RqOpen 2 "a.edi" F_WRITE); []]].

Lemma server_never_panics_witness :
  let '(o, store') := @serve_chosen _ _ _ _ script_ssh ref_keys script_server _ _ 4 busy
    (ex_hostile : @TcpStream _ script_ssh ref_keys script_server) ([] : @SigningKey ref_keys)
    (λ u, u) 8 nobody (λ _, ex_directory) in
  o ≠ Panic ∧ ∀ k, wf_directory (store' k).
Proof.
  exact (@server_never_panics _ _ _ _ _ _ script_ssh ref_keys script_server script_answers busy busy_wf
    string _ 4 ex_hostile [] (λ u, u) 8 nobody (λ _, ex_directory) ltac:(by vm_compute)
    (λ _, ex_directory_wf)).
Defined.
End Witnesses.
