(* ===== verification/Replies.v ===== *)
(** What the far end's replies carry: every reply of [FarSpec.execute] fits the
    wire, and every reply but a listing is one frame whatever the directory
    holds.  The client's side ([Session]) reads replies by these lemmas. *)

From S2P Require Import Prelude RustStd Externals Reference Wire Directory FarSpec FarRefine.
From S2P Require Import FarInvariant FarWorld FarProperties.

Local Open Scope N_scope.

(** The kind of a reply. *)
Definition rp_kind (p : reply) : N :=
  match p with
  | RpVersion => VERSION | RpStatus _ _ _ => STATUS | RpHandle _ _ => HANDLE
  | RpData _ _ => DATA | RpName _ _ => NAME | RpAttrs _ _ => ATTRS
  end.

(** A request whose reply is short whatever the directory holds. *)
Definition modest (r : request) : Prop :=
  match r with
  | RqReaddir _ _ => False
  | RqRead _ _ _ want => want ≤ CHUNK
  | _ => True
  end.

(** What a reply carries fits the wire. *)
Definition reply_fits (p : reply) : Prop :=
  match p with
  | RpVersion => True
  | RpStatus id c _ => id < U32 ∧ c < U32
  | RpHandle id h => id < U32 ∧ utf8_string h ∧ blen (as_bytes h) ≤ 66
  | RpData id d => id < U32 ∧ blen d < U32
  | RpName id l => id < U32 ∧ Forall entry_fits (listing_entry <$> l)
  | RpAttrs id s => id < U32 ∧ attrs_fit (stamp_attrs s)
  end.

Section replies.
Context `{!Platform, !TransportErrors, !Codec, !CodecLaws, !Net, !NetLaws}.

(** The reply's payload, behind its length and type. *)
Definition payload (p : reply) : bytes := reply_body (reply_bytes p).

(** A reply that is one frame. *)
Definition short (p : reply) : Prop := blen (payload p) + 1 < U32.

Lemma reply_frame p : reply_bytes p = frame (rp_kind p) (payload p) ∧ rp_kind p < 256.
Proof. by destruct p; unfold payload; cbn [reply_bytes]; rewrite frame_body. Qed.

Lemma payload_status id c m :
  payload (RpStatus id c m) = enc_u32 id ++ enc_u32 c ++ enc_string (as_bytes m) ++ enc_string [].
Proof. unfold payload. cbn [reply_bytes]. by rewrite frame_body. Qed.
Lemma payload_handle id h : payload (RpHandle id h) = enc_u32 id ++ enc_string (as_bytes h).
Proof. unfold payload. cbn [reply_bytes]. by rewrite frame_body. Qed.
Lemma payload_data id d : payload (RpData id d) = enc_u32 id ++ enc_string d.
Proof. unfold payload. cbn [reply_bytes]. by rewrite frame_body. Qed.
Lemma payload_attrs id s : payload (RpAttrs id s) = enc_u32 id ++ enc_attrs (stamp_attrs s).
Proof. unfold payload. cbn [reply_bytes]. by rewrite frame_body. Qed.

Lemma status_short id c m : blen (as_bytes m) < 2 ^ 31 → short (RpStatus id c m).
Proof. unfold short. rewrite payload_status. fits. Qed.

Lemma handle_short id l k :
  l = "h" ∨ l = "d" → k ≤ u64_max → short (RpHandle id (l +:+ pretty k)).
Proof.
  intros Hl Hk. unfold short. rewrite payload_handle. autorewrite with blen.
  pose proof (handle_name_short l k Hl Hk). lia.
Qed.

Lemma attrs_short id s : short (RpAttrs id s).
Proof.
  unfold short. rewrite payload_attrs. unfold enc_attrs, stamp_attrs, enc_u32_pair. simpl. fits.
Qed.

Lemma too_large_short offset len : blen (as_bytes (too_large offset len)) < 2 ^ 31.
Proof.
  unfold too_large. destruct (ceiling_within _ _ _) as [m|] eqn:Hm; simpl; [|by vm_compute].
  by eapply ceiling_message.
Qed.

Lemma version_short : short RpVersion.
Proof. unfold short, payload. cbn [reply_bytes]. rewrite frame_body by done. fits. Qed.

Lemma data_short id file offset want : want ≤ CHUNK → short (RpData id (sub file offset want)).
Proof.
  unfold short. rewrite payload_data. unfold CHUNK. autorewrite with blen. rewrite blen_sub. lia.
Qed.

Lemma stamp_attrs_fit d n c :
  wf_directory d → files d !! n = Some c → attrs_fit (stamp_attrs (stamp_in d n c)).
Proof.
  intros Hd Hc. pose proof (listing_fits d Hd) as Hl. unfold listing in Hl.
  rewrite !Forall_fmap, Forall_forall in Hl.
  by apply elem_of_btree_iter, Hl in Hc as (_ & _ & _ & ?).
Qed.
End replies.

Ltac short_reply :=
  lazymatch goal with
  | |- short (RpStatus _ _ (too_large _ _)) => apply status_short, too_large_short
  | |- short (RpStatus _ _ _) => apply status_short; vm_compute; reflexivity
  | |- short (RpHandle _ _) => apply handle_short; [auto|done]
  | |- short (RpAttrs _ _) => apply attrs_short
  | |- short RpVersion => apply version_short
  | |- short (RpData _ _) => by apply data_short
  end.

Section execute_replies.
Context `{!Platform, !TransportErrors, !Codec, !CodecLaws, !Net, !NetLaws}.

Lemma execute_short now r s : wf_far s → modest r → short (execute now r s).1.
Proof.
  intros Hs Hr. pose proof (wf_next _ Hs).
  destruct r as [|id n fl|id h off dt|id h off w|id|id h|id h|id n|id f t|id n];
    [| | | | |by destruct Hr| | | |]; cbn [execute hand_out];
    repeat case_match; cbn [fst]; short_reply.
Qed.

Lemma execute_reply_fits now r s :
  wf_far s → request_fits r → reply_fits (execute now r s).1.
Proof.
  intros Hs Hr. pose proof (wf_next _ Hs).
  assert (∀ l, l = "h" ∨ l = "d" → utf8_string (l +:+ pretty (next s))
            ∧ blen (as_bytes (l +:+ pretty (next s))) ≤ 66) as Hh.
  { intros l Hl. split; [by apply handle_name_fits|by apply handle_name_short]. }
  destruct r as [|id n fl|id h off dt|id h off w|id|id h|id h|id n|id f t|id n];
    cbn [execute hand_out request_fits] in *; repeat case_match;
    cbn [fst reply_fits]; try (split; [tauto|]); try tauto; auto;
    try lazymatch goal with
    | |- blen _ < _ => rewrite blen_sub; lia
    | |- _ < _ => vm_compute; reflexivity
    end.
  - apply listing_fits, Hs.
  - apply stamp_attrs_fit; [apply Hs|done].
Qed.
End execute_replies.
