(* ===== verification/FarTypes.v ===== *)
(** The types of the far end's replies: which packet a request of each type
    may be answered with, and whose request it answers. *)

From S2P Require Import Prelude RustStd Externals Reference Wire Directory FarSpec FarRefine.
From S2P Require Import FarInvariant FarWorld FarProperties Replies.

Local Open Scope N_scope.

(** The types of packet the draft lets a request of each type be answered
    with (sections 6 and 7). *)
Definition reply_types (kind : N) : list N :=
  if kind =? INIT then [VERSION]
  else if (kind =? OPEN) || (kind =? OPENDIR) then [HANDLE; STATUS]
  else if kind =? READ then [DATA; STATUS]
  else if kind =? READDIR then [NAME; STATUS]
  else if kind =? STAT then [ATTRS; STATUS]
  else [STATUS].

(** The identifier a request or a reply carries; the version exchange carries
    none. *)
Definition request_id (r : request) : option N :=
  match r with
  | RqInit => None
  | RqOpen id _ _ | RqWrite id _ _ _ | RqRead id _ _ _ | RqOpendir id | RqReaddir id _
  | RqClose id _ | RqRemove id _ | RqRename id _ _ | RqStat id _ => Some id
  end.
Definition reply_id (p : reply) : option N :=
  match p with
  | RpVersion => None
  | RpStatus id _ _ | RpHandle id _ | RpData id _ | RpName id _ | RpAttrs id _ => Some id
  end.

Section types.
Context `{!Platform, !TransportErrors, !Codec, !CodecLaws, !Net, !NetLaws}.

(** The specification answers each request with a reply of its types, under
    its identifier. *)
Lemma execute_typed now r s :
  rp_kind (execute now r s).1 ∈ reply_types (request_kind r)
  ∧ reply_id (execute now r s).1 = request_id r.
Proof.
  destruct r; cbn [execute hand_out request_kind];
    repeat case_match; (split; [|reflexivity]);
    unfold reply_types; cbn; set_solver.
Qed.

(** A packet decodes to a request of its type, whose identifier it starts
    with. *)
Lemma decode_typed kind body r :
  decode kind body = Ok r →
  request_kind r = kind
  ∧ match request_id r with
    | None => kind = INIT
    | Some id => ∃ tl, body = enc_u32 id ++ tl
    end.
Proof.
  unfold decode. intros Hd.
  repeat match type of Hd with
  | (if ?b =? ?k then _ else _) = _ =>
    destruct (N.eqb_spec b k) as [-> |]
  end; ok_inv; try (by split);
  (split; [done|]); cbn [request_id];
  match goal with
  | H : read_u32_be (cursor_new body) = Ok (?id, ?c) |- _ =>
    apply (reads_sound _ _ _ u32_reads) in H as [H _]; rewrite cursor_new_rest in H; by exists (rest c)
  end.
Qed.

Lemma payload_id p id : reply_id p = Some id → ∃ tl, payload p = enc_u32 id ++ tl.
Proof.
  intros Hp. unfold payload. destruct p; cbn [reply_id] in Hp; simplify_eq; cbn [reply_bytes];
    rewrite frame_body; by eexists.
Qed.

(** C25: every reply is one frame of a type the request's type allows, and
    carries the identifier the request came with.  An OPEN or an OPENDIR is
    answered with a handle or a status, a READ with data or a status, a
    READDIR with names or a status, a STAT with attributes or a status, the
    version exchange with a version, everything else with a status. *)
Theorem answer_typed now kind body s reply s' :
  wf_far s → next s < u64_max → answer now kind body s = (Ok reply, s') →
  ∃ t b, reply = frame t b ∧ t ∈ reply_types kind
    ∧ (kind ≠ INIT → ∃ id, id < U32 ∧ enc_u32 id `prefix_of` body ∧ enc_u32 id `prefix_of` b).
Proof.
  intros Hs Hn Ha. pose proof (answer_decodes now kind body s Hs Hn) as Href.
  unfold refines in Href. rewrite Ha in Href.
  destruct (decode kind body) as [r| | |] eqn:Hd; try done.
  destruct (execute_typed now r s) as [Ht Hid]. destruct (execute now r s) as [p s1].
  cbn [fst] in *. injection Href as -> _. destruct (reply_frame p) as [-> _].
  destruct (decode_typed _ _ _ Hd) as [Hk Hb]. rewrite Hk in Ht.
  exists (rp_kind p), (payload p). split; [done|]. split; [done|]. intros Hinit.
  destruct (request_id r) as [id|] eqn:Hr; [|done]. destruct Hb as [tl ->].
  apply payload_id in Hid as [tl' ->]. exists id. split.
  - pose proof (decode_fits _ _ _ Hd) as Hf. destruct r; cbn in Hf, Hr; simplify_eq; tauto.
  - split; by eexists.
Qed.
End types.

(** ** Witness *)
Module Witnesses.
Import Reference.Instances FarProperties.Witnesses.

Definition ex_stat := answer (Some 7) STAT (request_body (RqStat 9 "a.edi")) ex_far.

Lemma answer_typed_witness :
  ∃ t b, ex_stat.1 = Ok (frame t b) ∧ t ∈ [ATTRS; STATUS].
Proof.
  destruct (answer_typed (Some 7) STAT (request_body (RqStat 9 "a.edi")) ex_far
              (match ex_stat.1 with Ok b => b | _ => [] end) ex_stat.2)
    as (t & b & Hb & Ht & _).
  - exact ex_far_wf.
  - reflexivity.
  - vm_compute. reflexivity.
  - exists t, b. split; [|exact Ht]. rewrite <- Hb. vm_compute. reflexivity.
Defined.
End Witnesses.
