(* ===== verification/Client.v ===== *)
(** The client's side of the subsystem over an open channel
    (src/subsystem.rs, [Sftp]): each request as it is written and each reply
    as it is read.  The state is [Sftp]'s, the channel and the next request
    number.  A loop until the server says the end is given fuel. *)

From S2P Require Import Prelude RustStd Externals Reference Wire.

Local Open Scope N_scope.

(** [transport::Outgoing], a Message's body: what [Outgoing::pieces] hands its
    closure, piece by piece of at most so many bytes, and the error that ends
    it where the body could not be read on. *)
Class Outgoings `{!TransportErrors} : Type := {
  Outgoing : Type;
  outgoing_pieces : N → Outgoing → list bytes * option error;
  outgoing_body : Outgoing → bytes;
}.

(** Read whole, the pieces are the body in order, each within the size asked
    for. *)
Class OutgoingLaws `{!TransportErrors, !Outgoings} : Prop := {
  pieces_body n o l : 0 < n → outgoing_pieces n o = (l, None) → concat l = outgoing_body o;
  pieces_size n o : Forall (λ p, blen p ≤ n) (outgoing_pieces n o).1;
}.

Section client.
Context `{!TransportErrors, !Codec, !Ssh, !Outgoings}.

Record Sftp : Type := { channel : Channel; next_id : N }.

Definition with_channel {A} (m : M Channel error A) : M Sftp error A := fun s =>
  let '(o, c) := m (channel s) in (o, {| channel := c; next_id := next_id s |}).

(** The next request's number, which wraps. *)
Definition id : M Sftp error N := fun s =>
  (Ok (next_id s), {| channel := channel s; next_id := u32_wrapping_add (next_id s) 1 |}).

Definition send (kind : N) (body : bytes) : M Sftp error unit :=
  with_channel (channel_write (frame kind body)).

(** The kind of a packet and the rest of it. *)
Definition recv : M Sftp error (N * bytes) :=
  len ← with_channel (channel_read_exact 4);
  n ← (match len with
       | b0 :: b1 :: b2 :: b3 :: _ => mret (be_value [b0; b1; b2; b3])
       | _ => lift Panic
       end : M Sftp error N);
  body ← with_channel (channel_read_exact n);
  match body with
  | kind :: rest => mret (Byte.to_N kind, rest)
  | [] => fail (protocol_error "an SFTP packet with no type")
  end.

(** Send a request whose reply is a status, and take OK alone for done. *)
Definition request (kind : N) (body : bytes) (what : string) : M Sftp error unit :=
  _ ← send kind body;
  '(reply, body) ← recv;
  if reply =? STATUS then
    c ← lift (code body);
    if c =? OK then mret tt else fail (status_error body what)
  else fail (protocol_error ("a reply where a status for " +:+ what +:+ " was due")).

(** The INIT and VERSION that open the subsystem. *)
Definition start (c : Channel) : outcome error Sftp * Channel :=
  let '(o, s) :=
    (_ ← send INIT ([] |> u32_be PROTOCOL);
     '(kind, body) ← recv;
     version ← (if kind =? VERSION
                then '(n, _) ← lift (read_u32_be (cursor_new body)); mret (Some n)
                else mret None);
     match version with
     | Some n => if n =? PROTOCOL then mret tt
                 else fail (protocol_error "a server that does not speak SFTP version 3")
     | None => fail (protocol_error "a server that does not speak SFTP version 3")
     end) {| channel := c; next_id := 1 |} in
  (match o with
   | Ok _ => Ok s | Err e => Err e | Panic => Panic | OutOfFuel => OutOfFuel
   end, channel s).

Definition expect_handle : M Sftp error string :=
  '(kind, body) ← recv;
  if kind =? HANDLE then
    '(_, reader) ← lift (read_u32_be (cursor_new body));
    '(raw, _) ← lift (read_string reader);
    match from_utf8 raw with
    | Some h => mret h
    | None => fail (protocol_error "a handle that is not UTF-8")
    end
  else if kind =? STATUS then fail (status_error body "the open")
  else fail (protocol_error "a reply where a handle was due").

Definition open (name : string) (flags : N) : M Sftp error string :=
  n ← id;
  let body := [] |> u32_be n |> put_string (as_bytes name) |> u32_be flags |> u32_be 0 in
  _ ← send OPEN body;
  expect_handle.

Definition open_for_reading (name : string) : M Sftp error string := open name F_READ.

Definition close (handle : string) : M Sftp error unit :=
  n ← id;
  let body := [] |> u32_be n |> put_string (as_bytes handle) in
  request CLOSE body "the close".

Definition remove (name : string) : M Sftp error unit :=
  n ← id;
  let body := [] |> u32_be n |> put_string (as_bytes name) in
  request REMOVE body "the remove".

(** One WRITE request of [put], at its offset. *)
Definition write_at (handle : string) (offset : N) (chunk : bytes) : M Sftp error unit :=
  n ← id;
  let body := [] |> u32_be n |> put_string (as_bytes handle) |> u64_be offset
                 |> put_string chunk in
  request WRITE body "the write".

(** The closure [put] hands [pieces], over the pieces it is called with. *)
Fixpoint put_pieces (handle : string) (offset : N) (l : list bytes) : M Sftp error unit :=
  match l with
  | [] => mret tt
  | chunk :: l =>
    _ ← write_at handle offset chunk;
    offset ← lift (u64_add offset (blen chunk));
    put_pieces handle offset l
  end.

(** Put a body into the directory as [name], a WRITE of a chunk at a time. *)
Definition put (name : string) (outgoing : Outgoing) : M Sftp error unit :=
  handle ← open name (N.lor (N.lor F_WRITE F_CREAT) F_TRUNC);
  let '(l, broken) := outgoing_pieces CHUNK outgoing in
  _ ← put_pieces handle 0 l;
  _ ← match broken with Some e => fail e | None => mret tt end;
  close handle.

(** The next chunk of an open file from [offset]; [None] at its end. *)
Definition read_at (handle : string) (offset : N) : M Sftp error (option bytes) :=
  n ← id;
  let body := [] |> u32_be n |> put_string (as_bytes handle) |> u64_be offset
                 |> u32_be (u32_of CHUNK) in
  _ ← send READ body;
  '(kind, body) ← recv;
  if kind =? DATA then
    '(_, reader) ← lift (read_u32_be (cursor_new body));
    '(data, _) ← lift (read_string reader);
    mret (Some data)
  else if kind =? STATUS then
    c ← lift (code body);
    if c =? EOF then mret None else fail (status_error body "the read")
  else fail (protocol_error "a reply that was neither data nor status").

(** The [loop] of [list]: READDIR until the end of the directory. *)
Fixpoint list_loop (fuel : nat) (handle : string) (names : list Listed) :
    M Sftp error (list Listed) :=
  match fuel with
  | O => lift OutOfFuel
  | S fuel =>
    n ← id;
    let body := [] |> u32_be n |> put_string (as_bytes handle) in
    _ ← send READDIR body;
    '(kind, body) ← recv;
    if kind =? NAME then
      more ← lift (entries body);
      list_loop fuel handle (names ++ more)
    else if kind =? STATUS then
      c ← lift (code body);
      if c =? EOF then mret names else fail (status_error body "the listing")
    else fail (protocol_error "a reply that was neither names nor status")
  end.

(** [.] and [..], which a listing leaves out. *)
Definition kept_name (l : Listed) : bool :=
  negb (String.eqb l.1 ".") && negb (String.eqb l.1 "..").

(** The files in the directory, each with its stamp. *)
Definition list_files (fuel : nat) : M Sftp error (list Listed) :=
  n ← id;
  let body := [] |> u32_be n |> put_string (as_bytes ".") in
  _ ← send OPENDIR body;
  handle ← expect_handle;
  names ← list_loop fuel handle [];
  _ ← close handle;
  mret (List.filter kept_name names).
End client.
