(* ===== verification/Site.v ===== *)
(** The directory an open channel reaches, as the claim sees it (src/site.rs):
    the requests [Sftp] has for the claim, and [SftpSite], which answers the
    claim's questions with them.  [SftpSite] holds the [Sftp] in a [RefCell]
    borrowed for one call at a time; no method holds its borrow across
    another's, so each is the [Sftp] state passed on. *)

From S2P Require Import Prelude RustStd Externals Reference Wire Client.

Local Open Scope N_scope.

(** [transport::claim::Restore], by the constructors the site answers with. *)
Inductive Restore : Type :=
  | Back
  | Gone
  | Kept (why : string).

Section site.
Context `{!TransportErrors, !Codec, !Ssh}.

(** The status the server answered a request with. *)
Definition status_of (kind : N) (body : bytes) (what : string) : M Sftp error N :=
  _ ← send kind body;
  '(reply, body) ← recv;
  if reply =? STATUS then lift (code body)
  else fail (protocol_error ("a reply where a status for " +:+ what +:+ " was due")).

Definition rename_status (from to : string) : M Sftp error N :=
  n ← id;
  let body := [] |> u32_be n |> put_string (as_bytes from) |> put_string (as_bytes to) in
  status_of RENAME body "the rename".

Definition removed (name : string) : M Sftp error N :=
  n ← id;
  let body := [] |> u32_be n |> put_string (as_bytes name) in
  status_of REMOVE body "the remove".

(** The stamp of [name]; [None] where there is no such file. *)
Definition stat (name : string) : M Sftp error (option Stamp) :=
  n ← id;
  let body := [] |> u32_be n |> put_string (as_bytes name) in
  _ ← send STAT body;
  '(kind, body) ← recv;
  if kind =? ATTRS then
    '(_, reader) ← lift (read_u32_be (cursor_new body));
    '(s, _) ← lift (stamp reader);
    mret s
  else if kind =? STATUS then
    c ← lift (code body);
    if c =? NO_SUCH_FILE then mret None else fail (status_error body "the stat")
  else fail (protocol_error "a reply where attributes were due").

(** [name] created holding [contents], only where no file of that name is. *)
Definition create_exclusive (name : string) (contents : bytes) : M Sftp error bool :=
  n ← id;
  let body := [] |> u32_be n |> put_string (as_bytes name)
                 |> u32_be (N.lor (N.lor F_WRITE F_CREAT) F_EXCL) |> u32_be 0 in
  _ ← send OPEN body;
  '(kind, body) ← recv;
  if kind =? STATUS then mret false
  else if negb (kind =? HANDLE) then fail (protocol_error "a reply where a handle was due")
  else
    '(_, reader) ← lift (read_u32_be (cursor_new body));
    '(raw, _) ← lift (read_string reader);
    handle ← match from_utf8 raw with
             | Some h => mret h
             | None => fail (protocol_error "a handle that is not UTF-8")
             end;
    n ← id;
    let body := [] |> u32_be n |> put_string (as_bytes handle) |> u64_be 0
                   |> put_string contents in
    _ ← request WRITE body "the write";
    _ ← close handle;
    mret true.

(** The [while let] of [read_small]. *)
Fixpoint read_whole (fuel : nat) (handle : string) (whole : bytes) : M Sftp error bytes :=
  match fuel with
  | O => lift OutOfFuel
  | S fuel =>
    chunk ← read_at handle (blen whole);
    match chunk with
    | Some chunk => read_whole fuel handle (whole ++ chunk)
    | None => mret whole
    end
  end.

(** The whole of a small file; [None] where it cannot be read. *)
Definition read_small (fuel : nat) (name : string) : M Sftp error (option bytes) :=
  opened ← attempt (open_for_reading name);
  match opened with
  | inl _ => mret None
  | inr handle =>
    whole ← read_whole fuel handle [];
    _ ← close handle;
    mret (Some whole)
  end.

(** ** [impl ClaimSite for SftpSite] *)
Context (is_turn : string → bool).

Definition site_listed (fuel : nat) : M Sftp error (list Listed) := list_files fuel.

Definition site_turns (fuel : nat) : M Sftp error (list string) :=
  l ← site_listed fuel;
  mret (List.filter is_turn l.*1).

Definition site_stamp (name : string) : M Sftp error (option Stamp) := stat name.

Definition site_take_turn (turn claimant : string) : M Sftp error bool :=
  create_exclusive turn (as_bytes claimant).

Definition site_holder (fuel : nat) (turn : string) : M Sftp error (option string) :=
  held ← read_small fuel turn;
  mret (held ≫= from_utf8).

Definition site_delete (name : string) : M Sftp error unit :=
  status ← removed name;
  if (status =? OK) || (status =? NO_SUCH_FILE) then mret tt
  else fail (protocol_error ("the server refused the remove of " +:+ name
                             +:+ " with SFTP status " +:+ pretty status)).

Definition site_drop_turn (turn claimant : string) : M Sftp error unit := site_delete turn.

Definition site_rename (from to : string) : M Sftp error bool :=
  status ← rename_status from to;
  mret (status =? OK).

Definition site_restore (claimed dropped : string) : M Sftp error Restore :=
  status ← rename_status claimed dropped;
  if status =? OK then mret Back else
  still ← stat claimed;
  match still with
  | None => mret Gone
  | Some _ =>
    there ← stat dropped;
    mret (Kept match there with
               | Some _ => "returning " +:+ dropped +:+ ": a file of that name was dropped since"
               | None => "returning " +:+ dropped +:+ ": the server answered SFTP status "
                         +:+ pretty status
               end)
  end.
End site.
