(* ===== verification/Session.v ===== *)
(** The client against the far end.

    [Served] is the interface between them: what a channel promises whose
    other end runs [Directory.serve] over a directory other connections may be
    changing too.  A frame written whole is answered, at some moment, by
    [Directory.answer], on the directory as it then is; the reply's bytes are
    what is read next.  [R] is what the other connections may have done in
    between (a rely condition): nothing where the channel is alone, anything
    where it is not.  The theorems about the client are proved against this
    interface alone. *)

From S2P Require Import Prelude RustStd Externals Reference Wire Directory FarSpec FarRefine.
From S2P Require Import FarInvariant FarWorld FarProperties Replies Client Site.

Local Open Scope N_scope.

Definition with_directory (d : Directory) (s : Far) : Far :=
  {| directory := d; handles := handles s; next := next s |}.

Class Served `{!Platform, !TransportErrors, !Codec, !Net, !Ssh} (R : relation Directory) : Type := {
  (** [served c far pending]: the channel [c], its far end in state [far], and
      the bytes of a reply it has still to read. *)
  served : Channel → Far → bytes → Prop;
  served_write c far kind body :
    served c far [] → kind < 256 → blen body + 1 < U32 →
    ∃ now d, R (directory far) d ∧ (wf_directory (directory far) → wf_directory d)
      ∧ ∀ reply far', answer now kind body (with_directory d far) = (Ok reply, far') →
        ∃ c', channel_write (frame kind body) c = (Ok tt, c') ∧ served c' far' reply;
  served_read c far pending n :
    served c far pending → n ≤ blen pending →
    ∃ c', channel_read_exact n c = (Ok (take (N.to_nat n) pending), c')
      ∧ served c' far (drop (N.to_nat n) pending);
}.

(** A name short enough that any request with it, twice over, is a frame. *)
Definition name_short (n : string) : Prop := utf8_string n ∧ blen (as_bytes n) < 2 ^ 30.

Lemma name_short_fits n : name_short n → name_fits n.
Proof. intros [? ?]. split; [done|lia]. Qed.

Section session.
Context `{!Platform, !TransportErrors, !Codec, !CodecLaws, !Net, !NetLaws, !Ssh}.
Context {R : relation Directory} `{!Served R}.

(** The client's state, its channel idle, and the far end's. *)
Record linked (sftp : Sftp) (far : Far) : Prop := {
  linked_served : served (channel sftp) far [];
  linked_wf : wf_far far;
  linked_id : next_id sftp < U32;
}.

Lemma send_served kind body sftp far :
  served (channel sftp) far [] → kind < 256 → blen body + 1 < U32 →
  ∃ now d, R (directory far) d ∧ (wf_directory (directory far) → wf_directory d)
    ∧ ∀ reply far', answer now kind body (with_directory d far) = (Ok reply, far') →
      ∃ sftp', send kind body sftp = (Ok tt, sftp') ∧ served (channel sftp') far' reply
        ∧ next_id sftp' = next_id sftp.
Proof.
  intros Hs Hk Hb. destruct (served_write _ _ _ _ Hs Hk Hb) as (now & d & HR & Hd & Hw).
  exists now, d. split; [done|]. split; [done|]. intros reply far' Ha.
  destruct (Hw _ _ Ha) as (c' & Hc & Hs').
  exists {| channel := c'; next_id := next_id sftp |}.
  unfold send, with_channel. by rewrite Hc.
Qed.

(** A reply waiting whole is read whole. *)
Lemma recv_served kind body sftp far :
  served (channel sftp) far (frame kind body) → kind < 256 → blen body + 1 < U32 →
  ∃ sftp', recv sftp = (Ok (kind, body), sftp') ∧ served (channel sftp') far []
    ∧ next_id sftp' = next_id sftp.
Proof.
  intros Hs Hk Hb. rewrite frame_spec in Hs by done.
  destruct (served_read _ _ _ 4 Hs) as (c1 & Hr1 & Hs1); [fits|].
  assert (length (enc_u32 (blen body + 1)) = 4%nat) as Hlen by apply length_enc_u32.
  change (N.to_nat 4) with 4%nat in *.
  rewrite take_app_length' in Hr1 by done. rewrite drop_app_length' in Hs1 by done.
  destruct (served_read _ _ _ (blen body + 1) Hs1) as (c2 & Hr2 & Hs2); [fits|].
  rewrite take_ge in Hr2 by (simpl; unfold blen; lia).
  rewrite drop_ge in Hs2 by (simpl; unfold blen; lia).
  exists {| channel := c2; next_id := next_id sftp |}.
  unfold recv. erewrite bind_ok; [|unfold with_channel; by rewrite Hr1].
  pose proof (value_enc_u32 (blen body + 1) Hb) as Hv.
  destruct (enc_u32 (blen body + 1)) as [|b0 [|b1 [|b2 [|b3 [|]]]]]; try done.
  erewrite bind_ok; [|done]. rewrite Hv.
  erewrite bind_ok; [|unfold with_channel; cbn [channel next_id]; by rewrite Hr2].
  simpl. unfold mret, M_ret. by rewrite byte_to_of_N, N.mod_small.
Qed.

(** One exchange: a request laid out as the draft says, the specification's
    answer on the directory as the others left it, and the reply read. *)
Lemma asked {A} kind (mk : N → bytes) (r : N → FarSpec.request) (K : N * bytes → M Sftp error A)
    sftp far :
  linked sftp far → next far < u64_max →
  request_fits (r (next_id sftp)) → request_kind (r (next_id sftp)) = kind →
  mk (next_id sftp) = request_body (r (next_id sftp)) →
  blen (request_body (r (next_id sftp))) + 1 < U32 →
  (∀ now d, R (directory far) d → wf_far (with_directory d far) →
    short (execute now (r (next_id sftp)) (with_directory d far)).1) →
  ∃ now d sftp',
    let far' := execute now (r (next_id sftp)) (with_directory d far) in
    R (directory far) d ∧ wf_far (with_directory d far) ∧ reply_fits far'.1
    ∧ linked sftp' far'.2
    ∧ (n ← id; _ ← send kind (mk n); x ← recv; K x) sftp = K (rp_kind far'.1, payload far'.1) sftp'.
Proof.
  intros [Hs Hwf Hid] Hn Hr Hkind Hmk Hb Hshort.
  set (n := next_id sftp) in *. set (q := r n) in *.
  set (s0 := {| channel := channel sftp; next_id := u32_wrapping_add n 1 |}).
  assert (kind < 256) as Hk by (subst kind; by destruct q).
  destruct (send_served kind (mk n) s0 far Hs Hk) as (now & d & HR & Hd & Hw); [by rewrite Hmk|].
  assert (wf_far (with_directory d far)) as Hwf'.
  { destruct Hwf as [Hdir ? ?]. constructor; auto. }
  specialize (Hshort now d HR Hwf').
  pose proof (execute_reply_fits now q _ Hwf' Hr) as Hfit.
  pose proof (execute_wf now q _ Hwf' Hn Hr) as Hwf2.
  pose proof (answer_request now q _ Hwf' Hn Hr) as Ha. rewrite <- Hmk, Hkind in Ha.
  exists now, d. destruct (execute now q (with_directory d far)) as [p far'].
  destruct (Hw _ _ Ha) as (s1 & Hs1 & Hserved & Hi1).
  destruct (reply_frame p) as [Hpf Hpk]. rewrite Hpf in Hserved.
  destruct (recv_served _ _ _ _ Hserved Hpk Hshort) as (s2 & Hs2 & Hserved2 & Hi2).
  exists s2. split; [done|]. split; [done|]. split; [done|]. split.
  - constructor; [done|done|]. rewrite Hi2, Hi1. cbn [next_id s0]. apply N.mod_lt. done.
  - transitivity ((_ ← send kind (mk n); x ← recv; K x) s0); [done|].
    by rewrite (bind_ok _ _ _ _ _ Hs1), (bind_ok _ _ _ _ _ Hs2).
Qed.

(** A client operation that is one exchange: [res] of the specification's
    reply to [r], and the specification's state after. *)
Definition asks {A} (m : M Sftp error A) (r : N → FarSpec.request) (res : reply → outcome error A)
    (sftp : Sftp) (far : Far) : Prop :=
  ∃ now d sftp',
    let far' := execute now (r (next_id sftp)) (with_directory d far) in
    R (directory far) d ∧ wf_far (with_directory d far)
    ∧ m sftp = (res far'.1, sftp') ∧ linked sftp' far'.2.

(** ** What the client makes of a reply *)
Definition handle_result (p : reply) : outcome error string :=
  match p with
  | RpHandle _ h => Ok h
  | RpStatus _ _ _ => Err (status_error (payload p) "the open")
  | _ => Err (protocol_error "a reply where a handle was due")
  end.

Definition status_result (what : string) (p : reply) : outcome error unit :=
  match p with
  | RpStatus _ c _ => if c =? OK then Ok tt else Err (status_error (payload p) what)
  | _ => Err (protocol_error ("a reply where a status for " +:+ what +:+ " was due"))
  end.

Definition code_result (what : string) (p : reply) : outcome error N :=
  match p with
  | RpStatus _ c _ => Ok c
  | _ => Err (protocol_error ("a reply where a status for " +:+ what +:+ " was due"))
  end.

Definition data_result (p : reply) : outcome error (option bytes) :=
  match p with
  | RpData _ d => Ok (Some d)
  | RpStatus _ c _ => if c =? EOF then Ok None else Err (status_error (payload p) "the read")
  | _ => Err (protocol_error "a reply that was neither data nor status")
  end.

Definition stat_result (p : reply) : outcome error (option Stamp) :=
  match p with
  | RpAttrs _ s => Ok (Some s)
  | RpStatus _ c _ =>
    if c =? NO_SUCH_FILE then Ok None else Err (status_error (payload p) "the stat")
  | _ => Err (protocol_error "a reply where attributes were due")
  end.

Lemma code_payload id c m : id < U32 → c < U32 → code (payload (RpStatus id c m)) = Ok c.
Proof.
  intros Hid Hc. rewrite payload_status. unfold code.
  pose proof (cursor_new_rest (enc_u32 id ++ enc_u32 c ++ enc_string (as_bytes m) ++ enc_string []))
    as Hr.
  by do 2 read_step.
Qed.

(** A handle in a reply's payload, read. *)
Lemma handle_payload id h :
  reply_fits (RpHandle id h) →
  ∃ c c', read_u32_be (cursor_new (payload (RpHandle id h))) = Ok (id, c)
    ∧ read_string c = Ok (as_bytes h, c') ∧ from_utf8 (as_bytes h) = Some h.
Proof.
  intros (Hid & Hu & Hh). rewrite payload_handle.
  pose proof (cursor_new_rest (enc_u32 id ++ enc_string (as_bytes h))) as Hr.
  destruct (read_u32_at _ _ _ Hr Hid) as (c & Hc & Hr1).
  rewrite <- (right_id_L [] (++) (enc_string _)) in Hr1.
  destruct (read_string_at _ _ _ Hr1) as (c' & Hc' & _); [lia|].
  exists c, c'. split; [done|]. split; [done|]. by apply from_utf8_as_bytes.
Qed.

Lemma asks_exchange {A} kind mk r (K : N * bytes → M Sftp error A) res m sftp far :
  linked sftp far → next far < u64_max →
  m = (n ← id; _ ← send kind (mk n); x ← recv; K x) →
  (∀ p s, reply_fits p → K (rp_kind p, payload p) s = (res p, s)) →
  (∀ n, n < U32 → request_fits (r n) ∧ request_kind (r n) = kind ∧ mk n = request_body (r n)
    ∧ blen (request_body (r n)) + 1 < U32 ∧ modest (r n)) →
  asks m r res sftp far.
Proof.
  intros Hl Hn -> HK Hr.
  destruct (Hr (next_id sftp)) as (Hfits & Hk & Hmk & Hb & Hmod); [apply Hl|].
  destruct (asked kind mk r K sftp far) as (now & d & sftp' & HR & Hwf & Hfit & Hl' & He);
    try done.
  { intros. by apply execute_short. }
  exists now, d, sftp'. split; [done|]. split; [done|]. split; [|done]. rewrite He. by apply HK.
Qed.

Lemma status_reply what p s :
  reply_fits p →
  (if rp_kind p =? STATUS then
     c ← lift (code (payload p));
     if c =? OK then mret tt else fail (status_error (payload p) what)
   else fail (protocol_error ("a reply where a status for " +:+ what +:+ " was due"))
    : M Sftp error unit) s = (status_result what p, s).
Proof.
  destruct p as [|id c m| | | |]; try done. intros [Hid Hc]. cbn [rp_kind status_result].
  rewrite N.eqb_refl, code_payload by done. rewrite lift_ok. by case_match.
Qed.

Lemma code_reply what p s :
  reply_fits p →
  (if rp_kind p =? STATUS then lift (code (payload p))
   else fail (protocol_error ("a reply where a status for " +:+ what +:+ " was due"))
    : M Sftp error N) s = (code_result what p, s).
Proof.
  destruct p as [|id c m| | | |]; try done. intros [Hid Hc]. cbn [rp_kind code_result].
  by rewrite N.eqb_refl, code_payload.
Qed.

Lemma handle_reply_read p s :
  reply_fits p →
  (if rp_kind p =? HANDLE then
     '(_, reader) ← lift (read_u32_be (cursor_new (payload p)));
     '(raw, _) ← lift (read_string reader);
     match from_utf8 raw with
     | Some h => mret h
     | None => fail (protocol_error "a handle that is not UTF-8")
     end
   else if rp_kind p =? STATUS then fail (status_error (payload p) "the open")
   else fail (protocol_error "a reply where a handle was due")
    : M Sftp error string) s = (handle_result p, s).
Proof.
  intros Hp. destruct p as [|id c m|id h| | |]; try done. simpl.
  destruct (handle_payload _ _ Hp) as (c & c' & -> & E2 & E3).
  rewrite lift_ok, E2, lift_ok. by rewrite E3.
Qed.

(** ** The client's requests, one exchange each *)
Context (sftp : Sftp) (far : Far) (Hl : linked sftp far) (Hn : next far < u64_max).

Ltac one_exchange := eapply asks_exchange; [exact Hl|exact Hn|cbv zeta; reflexivity| |].
Ltac packed :=
  intros n Hid; cbn [request_fits request_kind request_body modest];
  rewrite ?put_string_spec, ?u32_be_spec, ?u64_be_spec, <- ?(assoc_L (++)) by (fits || lia);
  repeat (split; try done); fits.

Lemma open_asks name flags :
  name_short name → flags < U32 →
  asks (open name flags) (λ id, RqOpen id name flags) handle_result sftp far.
Proof.
  intros [Hu Hb] Hf. unfold open, expect_handle. one_exchange.
  - intros p s. apply handle_reply_read.
  - packed.
Qed.

Lemma close_asks h :
  name_short h → asks (close h) (λ id, RqClose id h) (status_result "the close") sftp far.
Proof.
  intros [Hu Hb]. unfold close, request. one_exchange; [intros; by apply status_reply|packed].
Qed.

Lemma remove_asks name :
  name_short name →
  asks (remove name) (λ id, RqRemove id name) (status_result "the remove") sftp far.
Proof.
  intros [Hu Hb]. unfold remove, request. one_exchange; [intros; by apply status_reply|packed].
Qed.

Lemma write_asks h offset chunk :
  name_short h → offset < U64 → blen chunk ≤ 2 ^ 31 →
  asks (write_at h offset chunk) (λ id, RqWrite id h offset chunk) (status_result "the write")
    sftp far.
Proof.
  intros [Hu Hb] Ho Hc. unfold write_at, request.
  one_exchange; [intros; by apply status_reply|packed].
Qed.

Lemma read_asks h offset :
  name_short h → offset < U64 →
  asks (read_at h offset) (λ id, RqRead id h offset CHUNK) data_result sftp far.
Proof.
  intros [Hu Hb] Ho. unfold read_at. one_exchange.
  - intros p s Hp. destruct p as [|id c m| |id d| |]; try done; simpl.
    + destruct Hp as [Hid Hc]. rewrite code_payload, lift_ok by done. by case_match.
    + destruct Hp as [Hid Hd]. rewrite payload_data.
      pose proof (cursor_new_rest (enc_u32 id ++ enc_string d)) as Hr.
      destruct (read_u32_at _ _ _ Hr Hid) as (c & -> & Hr1). rewrite lift_ok.
      rewrite <- (right_id_L [] (++) (enc_string _)) in Hr1.
      by destruct (read_string_at _ _ _ Hr1 Hd) as (c' & -> & _).
  - packed.
Qed.

Lemma rename_asks from to :
  name_short from → name_short to →
  asks (rename_status from to) (λ id, RqRename id from to) (code_result "the rename") sftp far.
Proof.
  intros [Hu Hb] [Hu' Hb']. unfold rename_status, status_of.
  one_exchange; [intros; by apply code_reply|packed].
Qed.

Lemma removed_asks name :
  name_short name →
  asks (removed name) (λ id, RqRemove id name) (code_result "the remove") sftp far.
Proof.
  intros [Hu Hb]. unfold removed, status_of. one_exchange; [intros; by apply code_reply|packed].
Qed.

Lemma stat_asks name :
  name_short name → asks (stat name) (λ id, RqStat id name) stat_result sftp far.
Proof.
  intros [Hu Hb]. unfold stat. one_exchange.
  - intros p s Hp. destruct p as [|id c m| | | |id st]; try done; simpl.
    + destruct Hp as [Hid Hc]. rewrite code_payload, lift_ok by done. by case_match.
    + destruct Hp as [Hid Ha]. rewrite payload_attrs.
      pose proof (cursor_new_rest (enc_u32 id ++ enc_attrs (stamp_attrs st))) as Hr.
      destruct (read_u32_at _ _ _ Hr Hid) as (c & -> & Hr1). rewrite lift_ok.
      rewrite <- (right_id_L [] (++) (enc_attrs _)) in Hr1.
      destruct (stamp_at _ _ _ Hr1 Ha) as (c' & -> & _). rewrite lift_ok.
      by destruct st.
  - packed.
Qed.
End session.
