(* ===== verification/Contract.v ===== *)
(** What the client's operations do to the far end's directory, end to end:
    the code of [Client] and [Site] run against any channel with the [Served]
    contract, while other connections change the directory as the rely
    relation [R] lets them. *)

From S2P Require Import Prelude RustStd Externals Reference Wire Directory FarSpec FarRefine.
From S2P Require Import FarInvariant FarWorld FarProperties Replies Client Site Session.

Local Open Scope N_scope.

(** The other connections leave the file [n] as it is. *)
Definition keeps (R : relation Directory) (n : string) : Prop :=
  ∀ d d', R d d' → files d' !! n = files d !! n.

Lemma keeps_rtc (R : relation Directory) n d d' :
  keeps R n → rtc R d d' → files d' !! n = files d !! n.
Proof. intros HR Hd. induction Hd as [|x y z Hxy _ IH]; [done|]. by rewrite IH, (HR _ _ Hxy). Qed.

(** A directory this connection only read: what the others leave as it is, is
    as it was. *)
Definition still (R : relation Directory) : relation Directory := λ d d',
  ∀ n, keeps R n → files d' !! n = files d !! n.

#[export] Instance still_preorder R : PreOrder (still R).
Proof.
  split; [by intros d n|]. intros d1 d2 d3 H12 H23 n Hn. by rewrite (H23 n Hn), (H12 n Hn).
Qed.
Lemma still_rely (R : relation Directory) d d' : R d d' → still R d d'.
Proof. intros HR n Hn. by apply Hn. Qed.
Lemma still_rtc (R : relation Directory) d d' : rtc R d d' → still R d d'.
Proof. intros HR n Hn. by apply (keeps_rtc R). Qed.

(** The other connections may make a file [n], and leave one there as it is. *)
Definition guards (R : relation Directory) (n : string) : Prop :=
  ∀ d d' c, R d d' → files d !! n = Some c → files d' !! n = Some c.

(** What may have happened to a directory while this connection wrote to [n]:
    the others' work, and a change of nothing but that file. *)
Definition beside (n : string) : relation Directory :=
  λ d d', ∀ m, m ≠ n → files d' !! m = files d !! m.
Definition only (R : relation Directory) (n : string) : relation Directory :=
  rtc (λ d d', R d d' ∨ beside n d d').

Lemma only_rely (R : relation Directory) n d d' d'' : R d d' → beside n d' d'' → only R n d d''.
Proof. intros HR Hb. eapply rtc_l; [by left|]. by apply rtc_once; right. Qed.

Lemma only_between (R : relation Directory) n d d0 d1 d2 :
  rtc R d d0 → only R n d0 d1 → R d1 d2 → only R n d d2.
Proof.
  intros H0 H1 H2. etrans; [|etrans; [exact H1|by apply rtc_once; left]].
  induction H0 as [d|d d' d'' HR _ IH]; [done|]. eapply rtc_l; [by left|exact (IH H1)].
Qed.

(** A file the others leave as it is, and another one written to. *)
Lemma only_keeps (R : relation Directory) n m d d' :
  only R n d d' → m ≠ n → keeps R m → files d' !! m = files d !! m.
Proof.
  intros Ho Hm HR. induction Ho as [d|d d1 d' [Hd|Hb] _ IH]; [done| |].
  - by rewrite IH, (HR _ _ Hd).
  - by rewrite IH, Hb.
Qed.

(** Alone, it is that file that changed. *)
Lemma only_alone n d d' : only eq n d d' → beside n d d'.
Proof.
  induction 1 as [d|d d1 d' [<-|Hb] _ IH]; [done|done|].
  intros m Hm. by rewrite IH, Hb.
Qed.

Definition put_flags : N := N.lor (N.lor F_WRITE F_CREAT) F_TRUNC.

Lemma handle_name_is_short l k :
  l = "h" ∨ l = "d" → k ≤ u64_max → name_short (l +:+ pretty k).
Proof.
  intros Hl Hk. split; [by apply handle_name_fits|]. pose proof (handle_name_short l k Hl Hk). lia.
Qed.

Lemma splice_end old data : splice old (blen old) data = old ++ data.
Proof.
  unfold splice, blen. rewrite Nat2N.id, Nat.sub_diag. simpl.
  rewrite (right_id_L [] (++)), firstn_all, drop_ge by lia. by rewrite (right_id_L [] (++)).
Qed.

Section contract.
Context `{!Platform, !TransportErrors, !Codec, !CodecLaws, !Net, !NetLaws, !Ssh, !Outgoings}.
Context {R : relation Directory} `{!Served R}.

(** A new handle to [name], open for reading or for writing. *)
Record opened (s : Far) (h : string) (hd : Handle) (s' : Far) : Prop := {
  opened_handle : handles s' !! h = Some hd;
  opened_short : name_short h;
  opened_next : next s' = next s + 1;
  opened_closed : delete h (handles s') = handles s;
}.

Lemma opened_hand_out l hd s0 s :
  l = "h" ∨ l = "d" → wf_far s0 → next s0 = next s → handles s0 = handles s →
  opened s0 (hand_out l hd s).1 hd (hand_out l hd s).2.
Proof.
  intros Hl Hwf Hn Hh. constructor; simpl; [by rewrite lookup_insert_eq| |by rewrite Hn|].
  - apply handle_name_is_short; [done|]. rewrite <- Hn. apply Hwf.
  - rewrite <- Hh, <- Hn. apply delete_insert_id. by apply handle_new.
Qed.

(** [open] for writing, from the start. *)
Lemma open_writes name sftp far :
  linked sftp far → next far < u64_max → name_short name →
  ∃ h sftp' far', open name put_flags sftp = (Ok h, sftp') ∧ linked sftp' far'
    ∧ opened far h (Write name) far' ∧ files (directory far') !! name = Some []
    ∧ only R name (directory far) (directory far').
Proof.
  intros Hl Hn Hname.
  destruct (open_asks sftp far Hl Hn name put_flags Hname eq_refl)
    as (now & d & sftp' & HR & Hwf & He & Hl'). cbn [execute] in *.
  change (has put_flags F_WRITE) with true in *. change (has put_flags F_EXCL) with false in *.
  change (has put_flags F_TRUNC) with true in *.
  set (s := store now name [] (with_directory d far)) in *.
  destruct (opened_hand_out "h" (Write name) far s) as [Hh Hs Hx Hcl]; [auto|apply Hl|done|done|].
  exists (hand_out "h" (Write name) s).1, sftp', (hand_out "h" (Write name) s).2.
  assert (files (directory (hand_out "h" (Write name) s).2) !! name = Some []).
  { simpl. by rewrite lookup_insert_eq. }
  assert (only R name (directory far) (directory (hand_out "h" (Write name) s).2)).
  { eapply only_rely; [exact HR|]. intros m Hm. simpl. by rewrite lookup_insert_ne. }
  destruct (files _ !! name); by do 4 (split; [done|]).
Qed.

(** One WRITE at the end of the file. *)
Lemma write_appends h name old chunk sftp far :
  linked sftp far → next far < u64_max → keeps R name →
  name_short h → handles far !! h = Some (Write name) → blen chunk ≤ 2 ^ 31 →
  files (directory far) !! name = Some old →
  ∃ sftp' far', linked sftp' far' ∧ handles far' = handles far ∧ next far' = next far
    ∧ only R name (directory far) (directory far') ∧
    if blen old + blen chunk <=? MAX_BODY
    then write_at h (blen old) chunk sftp = (Ok tt, sftp')
      ∧ files (directory far') !! name = Some (old ++ chunk)
    else (∃ reply, write_at h (blen old) chunk sftp = (Err (status_error reply "the write"), sftp'))
      ∧ files (directory far') !! name = Some old.
Proof.
  intros Hl Hn HR Hh Hhd Hc Hold.
  assert (blen old ≤ MAX_BODY) by (by eapply (wf_files _ (wf_dir _ (linked_wf _ _ Hl)))).
  pose proof max_body_u64.
  destruct (write_asks sftp far Hl Hn h (blen old) chunk) as (now & d & sftp' & HRd & Hwf & He & Hl');
    [done|lia|done|].
  cbn [execute] in *. change (handles (with_directory d far)) with (handles far) in *.
  rewrite Hhd in *. change (files (directory (with_directory d far))) with (files d) in *.
  assert (files d !! name = Some old) as Hd by (by rewrite (HR _ _ HRd)).
  rewrite Hd in *. cbn [default from_option Datatypes.id] in *.
  destruct (N.leb_spec (blen old + blen chunk) MAX_BODY).
  - rewrite splice_end in *. eexists sftp', _. split; [exact Hl'|].
    do 2 (split; [done|]). simpl. split; [|by rewrite lookup_insert_eq].
    eapply only_rely; [exact HRd|]. intros m Hm. simpl. by rewrite lookup_insert_ne.
  - eexists sftp', _. split; [exact Hl'|]. do 2 (split; [done|]).
    split; [by eapply only_rely; [exact HRd|]|]. split; [|done]. eexists. exact He.
Qed.

(** The closure over the pieces: what was within the ceiling is stored, in
    order. *)
Lemma put_pieces_stores h name l : ∀ old sftp far,
  linked sftp far → next far < u64_max → keeps R name →
  name_short h → handles far !! h = Some (Write name) → Forall (λ p, blen p ≤ CHUNK) l →
  files (directory far) !! name = Some old →
  ∃ sftp' far' kept, linked sftp' far' ∧ handles far' = handles far ∧ next far' = next far
    ∧ only R name (directory far) (directory far')
    ∧ files (directory far') !! name = Some (old ++ kept)
    ∧ if blen old + blen (concat l) <=? MAX_BODY
      then put_pieces h (blen old) l sftp = (Ok tt, sftp') ∧ kept = concat l
      else (∃ reply, put_pieces h (blen old) l sftp = (Err (status_error reply "the write"), sftp'))
        ∧ kept `prefix_of` concat l.
Proof.
  induction l as [|p l IH]; intros old sftp far Hl Hn HR Hh Hhd Hp Hold.
  { exists sftp, far, []. rewrite (right_id_L [] (++)). do 5 (split; [done|]).
    assert (blen old ≤ MAX_BODY) by (by eapply (wf_files _ (wf_dir _ (linked_wf _ _ Hl)))).
    rewrite (proj2 (N.leb_le _ _)); [done|]. simpl. fits. }
  apply Forall_cons in Hp as [Hp Hps]. cbn [concat put_pieces].
  destruct (write_appends h name old p sftp far) as (s1 & f1 & Hl1 & Hh1 & Hn1 & Ho1 & Hw);
    try done; [unfold CHUNK in *; lia|].
  pose proof max_body_u64.
  destruct (N.leb_spec (blen old + blen p) MAX_BODY).
  - destruct Hw as [Hw Hf1].
    destruct (IH (old ++ p) s1 f1) as (s2 & f2 & kept & Hl2 & Hh2 & Hn2 & Ho2 & Hf2 & Hres);
      [done|by rewrite Hn1|done|done|by rewrite Hh1|done|done|].
    exists s2, f2, (p ++ kept). rewrite (assoc_L (++)). split; [done|].
    split; [congruence|]. split; [congruence|]. split; [by etrans|]. split; [done|].
    rewrite (bind_ok _ _ _ _ _ Hw). unfold u64_add.
    rewrite (proj2 (N.leb_le (blen old + blen p) u64_max)) by (unfold u64_max; lia).
    rewrite lift_ok.
    rewrite !blen_app in *. rewrite (N.add_assoc (blen old)) in *.
    destruct (N.leb_spec (blen old + blen p + blen (concat l)) MAX_BODY).
    + destruct Hres as [Hres ->]. done.
    + destruct Hres as [[reply Hres] Hpre]. split; [by exists reply|]. by apply prefix_app.
  - destruct Hw as [[reply Hw] Hf1]. exists s1, f1, []. rewrite (right_id_L [] (++)).
    do 5 (split; [done|]). rewrite (proj2 (N.leb_gt _ _)) by (fits).
    split; [|apply prefix_nil]. exists reply. by rewrite (bind_err _ _ _ _ _ Hw).
Qed.

Lemma closes h sftp far :
  linked sftp far → next far < u64_max → name_short h →
  ∃ sftp' far' d, close h sftp = (Ok tt, sftp') ∧ linked sftp' far' ∧ next far' = next far
    ∧ handles far' = delete h (handles far) ∧ R (directory far) d
    ∧ files (directory far') = files d.
Proof.
  intros Hl Hn Hh.
  destruct (close_asks sftp far Hl Hn h Hh) as (now & d & sftp' & HR & Hwf & He & Hl').
  cbn [execute] in *. eexists sftp', _, d. split; [exact He|]. split; [exact Hl'|].
  by repeat case_match.
Qed.

Lemma read_at_reads h name c offset sftp far :
  linked sftp far → next far < u64_max → keeps R name →
  name_short h → handles far !! h = Some (Read name) → offset < U64 →
  files (directory far) !! name = Some c →
  ∃ sftp' far',
    read_at h offset sftp
      = (Ok (if blen c <=? offset then None else Some (sub c offset CHUNK)), sftp')
    ∧ linked sftp' far' ∧ handles far' = handles far ∧ next far' = next far
    ∧ still R (directory far) (directory far').
Proof.
  intros Hl Hn HR Hh Hhd Ho Hc.
  destruct (read_asks sftp far Hl Hn h offset Hh Ho) as (now & d & sftp' & HRd & Hwf & He & Hl').
  cbn [execute] in *. change (handles (with_directory d far)) with (handles far) in *.
  rewrite Hhd in *. change (files (directory (with_directory d far))) with (files d) in *.
  assert (files d !! name = Some c) as Hd by (by rewrite (HR _ _ HRd)).
  rewrite Hd in *. cbn [default from_option Datatypes.id] in *.
  exists sftp', (with_directory d far).
  destruct (blen c <=? offset); (split; [exact He|]); (split; [exact Hl'|]); do 2 (split; [done|]);
    by apply still_rely.
Qed.

(** The loop of [read_small] ends, holding the file. *)
Lemma read_whole_reads h name c fuel : ∀ whole sftp far,
  linked sftp far → next far < u64_max → keeps R name →
  name_short h → handles far !! h = Some (Read name) →
  files (directory far) !! name = Some c →
  whole `prefix_of` c → blen c < blen whole + N.of_nat fuel →
  ∃ sftp' far', read_whole fuel h whole sftp = (Ok c, sftp')
    ∧ linked sftp' far' ∧ handles far' = handles far ∧ next far' = next far
    ∧ files (directory far') !! name = Some c.
Proof.
  induction fuel as [|fuel IH]; intros whole sftp far Hl Hn HR Hh Hhd Hc [tl ->] Hf; [fits|].
  pose proof max_body_u64.
  assert (blen (whole ++ tl) ≤ MAX_BODY) by (by eapply (wf_files _ (wf_dir _ (linked_wf _ _ Hl)))).
  destruct (read_at_reads h name (whole ++ tl) (blen whole) sftp far)
    as (s1 & f1 & Hr & Hl1 & Hh1 & Hn1 & Hst1); try done; [fits|].
  assert (files (directory f1) !! name = Some (whole ++ tl)) as Hc1 by (by rewrite (Hst1 _ HR)).
  cbn [read_whole]. rewrite (bind_ok _ _ _ _ _ Hr).
  destruct (N.leb_spec (blen (whole ++ tl)) (blen whole)) as [Hle|Hgt].
  - assert (tl = []) as ->; [|rewrite (right_id_L [] (++)) in *; by exists s1, f1].
    rewrite blen_app in Hle. destruct tl; [done|]. rewrite blen_cons in Hle. lia.
  - assert (sub (whole ++ tl) (blen whole) CHUNK = take (N.to_nat CHUNK) tl) as ->.
    { unfold sub, blen. by rewrite Nat2N.id, drop_app_length. }
    destruct (IH (whole ++ take (N.to_nat CHUNK) tl) s1 f1)
      as (s2 & f2 & Hr2 & Hl2 & Hh2 & Hn2 & Hc2); try done.
    + by rewrite Hn1.
    + by rewrite Hh1.
    + exists (drop (N.to_nat CHUNK) tl). by rewrite <- (assoc_L (++)), take_drop.
    + rewrite !blen_app in *. unfold blen at 4. rewrite length_take.
      unfold CHUNK, blen in *. lia.
    + exists s2, f2. rewrite Hr2, Hh2, Hn2. by do 4 (split; [done|]).
Qed.

(** [open] for reading: the file is there, or the open is an error. *)
Lemma open_reads name sftp far :
  linked sftp far → next far < u64_max → name_short name →
  ∃ d sftp' far', R (directory far) d ∧ linked sftp' far' ∧ directory far' = d
    ∧ next far' = next far + 1
    ∧ match files d !! name with
      | Some _ => ∃ h, open_for_reading name sftp = (Ok h, sftp')
          ∧ opened far h (Read name) far'
      | None => handles far' = handles far ∧ ∃ e, open_for_reading name sftp = (Err e, sftp')
      end.
Proof.
  intros Hl Hn Hname.
  destruct (open_asks sftp far Hl Hn name F_READ Hname eq_refl)
    as (now & d & sftp' & HR & Hwf & He & Hl'). cbn [execute] in *.
  change (has F_READ F_WRITE) with false in *. cbn match in *.
  change (files (directory (with_directory d far))) with (files d) in *.
  destruct (opened_hand_out "h" (Read name) far (with_directory d far)) as [Hh Hs Hx Hcl];
    [auto|apply Hl|done|done|].
  exists d, sftp'. destruct (files d !! name) as [c|].
  - eexists. split; [done|]. split; [exact Hl'|]. do 2 (split; [done|]).
    eexists. split; [exact He|]. by constructor.
  - eexists. split; [done|]. split; [exact Hl'|]. do 3 (split; [done|]). eexists. exact He.
Qed.

(** [stat]: what the directory says when it is asked. *)
Lemma stats name sftp far :
  linked sftp far → next far < u64_max → name_short name →
  ∃ d sftp' far', R (directory far) d ∧ linked sftp' far' ∧ directory far' = d
    ∧ next far' = next far ∧ handles far' = handles far
    ∧ stat name sftp = (Ok (stamp_in d name <$> files d !! name), sftp').
Proof.
  intros Hl Hn Hname.
  destruct (stat_asks sftp far Hl Hn name Hname) as (now & d & sftp' & HR & Hwf & He & Hl').
  cbn [execute] in *. change (files (directory (with_directory d far))) with (files d) in *.
  exists d, sftp', (with_directory d far). split; [done|]. split; [by destruct (files d !! name)|].
  do 3 (split; [done|]). rewrite He. by destruct (files d !! name).
Qed.
End contract.
