(* ===== verification/Loopback.v ===== *)
(** A channel whose other end runs the far end in place: what is written is
    answered at once, and the reply waits to be read.  It is one instance of
    the interfaces the client is proved against ([Ssh], [Served], with no
    other connection, so [R] is equality), and of [Outgoings]; the witnesses
    of the client's theorems run on it. *)

From S2P Require Import Prelude RustStd Externals Reference Wire Directory FarSpec FarRefine.
From S2P Require Import FarInvariant FarWorld FarProperties Replies Client Site Session.
From S2P Require Import Contract.
Import Reference.Instances.

Local Open Scope N_scope.

(** ** The channel *)
Record Loop : Type := { loop_far : Far; loop_pending : bytes; loop_clock : option N }.

Definition with_loop (s : Far) (p : bytes) (l : Loop) : Loop :=
  {| loop_far := s; loop_pending := p; loop_clock := loop_clock l |}.

(** A frame's kind and body; the length before them is not looked at. *)
Definition loop_write (b : bytes) : M Loop error unit := fun l =>
  match b with
  | _ :: _ :: _ :: _ :: k :: body =>
    match answer (loop_clock l) (Byte.to_N k) body (loop_far l) with
    | (Ok reply, s) => (Ok tt, with_loop s (loop_pending l ++ reply) l)
    | (Err e, s) => (Err e, with_loop s (loop_pending l) l)
    | (Panic, s) => (Panic, with_loop s (loop_pending l) l)
    | (OutOfFuel, s) => (OutOfFuel, with_loop s (loop_pending l) l)
    end
  | _ => (Err (protocol_error "not a frame"), l)
  end.

Definition loop_read (n : N) : M Loop error bytes := fun l =>
  if n <=? blen (loop_pending l)
  then (Ok (take (N.to_nat n) (loop_pending l)),
        with_loop (loop_far l) (drop (N.to_nat n) (loop_pending l)) l)
  else (Err (retryable "the channel closed"), l).

Definition loop_ssh : Ssh := {|
  Conn := Loop;
  Channel := Loop;
  channel_open _ := λ l,
    (Ok (with_loop {| directory := directory (loop_far l); handles := ∅; next := 0 |} [] l), l);
  channel_conn l := l;
  channel_write := loop_write;
  channel_read_exact := loop_read;
  channel_read_frame := λ l, (Ok None, l);
  channel_close := mret tt;
|}.

(** ** A body held in memory, in pieces *)
Fixpoint chunks (fuel : nat) (n : nat) (b : bytes) : list bytes :=
  match fuel with
  | O => []
  | S fuel => if (length b <=? n)%nat then [b] else take n b :: chunks fuel n (drop n b)
  end.

Definition held_outgoings : Outgoings := {|
  Outgoing := bytes;
  outgoing_pieces n b := (chunks (S (length b)) (N.to_nat n) b, None);
  outgoing_body b := b;
|}.

Lemma concat_chunks fuel n b : (0 < n)%nat → (length b < fuel)%nat → concat (chunks fuel n b) = b.
Proof.
  intros Hn. revert b. induction fuel as [|fuel IH]; intros b Hf; [lia|]. simpl.
  destruct (Nat.leb_spec (length b) n); simpl; [by rewrite (right_id_L [] (++))|].
  rewrite IH, take_drop; [done|]. rewrite length_drop. lia.
Qed.

Lemma chunks_size fuel n b : Forall (λ p, blen p ≤ N.of_nat n) (chunks fuel n b).
Proof.
  revert b. induction fuel as [|fuel IH]; intros b; simpl; [done|].
  destruct (Nat.leb_spec (length b) n); constructor; auto; unfold blen; [lia|].
  rewrite length_take. lia.
Qed.

Lemma held_outgoing_laws : @OutgoingLaws _ held_outgoings.
Proof.
  constructor; simpl.
  - intros n o l Hn [= <-]. apply (concat_chunks (S (length o))); lia.
  - intros n o. pose proof (chunks_size (S (length o)) (N.to_nat n) o) as H.
    by rewrite N2Nat.id in H.
Qed.

Section served.
Local Existing Instance loop_ssh.

Definition loop_served : Served eq.
Proof.
  refine {| served := λ (l : @Channel _ loop_ssh) s p,
              loop_far l = s ∧ loop_pending l = p |}.
  - intros l s kind body [<- Hp] Hk Hb. exists (loop_clock l), (directory (loop_far l)).
    split; [done|]. split; [done|]. intros reply s' Ha.
    replace (with_directory _ _) with (loop_far l) in Ha by (by destruct (loop_far l)).
    rewrite frame_spec by done. pose proof (length_enc_u32 (blen body + 1)) as Hlen.
    destruct (enc_u32 (blen body + 1)) as [|b0 [|b1 [|b2 [|b3 [|]]]]]; try done.
    cbn. unfold loop_write. rewrite byte_to_of_N, N.mod_small, Ha, Hp by done. by eexists.
  - intros l s p n [<- <-] Hn. cbn. unfold loop_read. rewrite (proj2 (N.leb_le _ _) Hn).
    by eexists.
Defined.
End served.

(** Brought into scope where the witnesses are. *)
Module Instances.
  #[export] Existing Instance loop_ssh.
  #[export] Existing Instance loop_served.
  #[export] Existing Instance held_outgoings.
  #[export] Existing Instance held_outgoing_laws.
End Instances.

(** A channel to a far end in state [s]. *)
Definition loop_to (s : Far) : @Sftp _ loop_ssh :=
  {| channel := {| loop_far := s; loop_pending := []; loop_clock := Some 7 |} : @Channel _ loop_ssh;
     next_id := 1 |}.

Lemma loop_linked s : wf_far s → @linked _ _ _ _ loop_ssh eq loop_served (loop_to s) s.
Proof. intros Hs. by constructor. Qed.
