(* ===== verification/ClientProperties.v ===== *)
(** The properties of the client and of the claim's site, over any channel with
    the [Served] contract: a put stores the body and nothing past the ceiling,
    a read gives the file back, an exclusive create is exclusive, a return
    never replaces a file dropped since, and a listing is the directory. *)

From S2P Require Import Prelude RustStd Externals Reference Wire Directory FarSpec FarRefine.
From S2P Require Import FarInvariant FarWorld FarProperties Replies Client Site Session.
From S2P Require Import Contract Loopback.

Local Open Scope N_scope.

Section split.
Context `{!TransportErrors, !Codec, !Ssh}.

(** The exclusive open of [create_exclusive]: the handle, or [None] where
    the server refused. *)
Definition try_create (name : string) : M Sftp error (option string) :=
  n ← id;
  let body := [] |> u32_be n |> put_string (as_bytes name)
                 |> u32_be (N.lor (N.lor F_WRITE F_CREAT) F_EXCL) |> u32_be 0 in
  _ ← send OPEN body;
  '(kind, body) ← recv;
  if kind =? STATUS then mret None
  else if negb (kind =? HANDLE) then fail (protocol_error "a reply where a handle was due")
  else
    '(_, reader) ← lift (read_u32_be (cursor_new body));
    '(raw, _) ← lift (read_string reader);
    match from_utf8 raw with
    | Some h => mret (Some h)
    | None => fail (protocol_error "a handle that is not UTF-8")
    end.

Lemma create_exclusive_split name contents s :
  create_exclusive name contents s
  = (o ← try_create name;
     match o with
     | None => mret false
     | Some h => _ ← write_at h 0 contents; _ ← close h; mret true
     end) s.
Proof.
  unfold create_exclusive, try_create. same_step. same_step. same_step.
  destruct a1 as [kind body]. destruct (kind =? STATUS); [done|].
  destruct (negb (kind =? HANDLE)); [done|]. same_step. destruct a1 as [? reader].
  same_step. destruct a1 as [raw ?]. destruct (from_utf8 raw) as [h|]; [|done].
  unfold write_at. rewrite !bind_ret_l. by same_step.
Qed.

(** The OPENDIR of [list]. *)
Definition opendir : M Sftp error string :=
  n ← id;
  let body := [] |> u32_be n |> put_string (as_bytes ".") in
  _ ← send OPENDIR body;
  expect_handle.

Lemma list_files_split fuel s :
  list_files fuel s
  = (handle ← opendir;
     names ← list_loop fuel handle [];
     _ ← close handle;
     mret (List.filter kept_name names)) s.
Proof. unfold list_files, opendir. same_step. by same_step. Qed.
End split.

Section stores.
Context `{!Platform, !TransportErrors, !Codec, !CodecLaws, !Net, !NetLaws, !Ssh, !Outgoings,
          !OutgoingLaws}.
Context {R : relation Directory} `{!Served R}.

(** [put] against the far end, whatever the body does. *)
Lemma put_stored name o l broken sftp far :
  linked sftp far → next far < u64_max - 1 → keeps R name → name_short name →
  outgoing_pieces CHUNK o = (l, broken) →
  ∃ res sftp' far' kept, put name o sftp = (res, sftp') ∧ linked sftp' far'
    ∧ next far' = next far + 1 ∧ only R name (directory far) (directory far')
    ∧ files (directory far') !! name = Some kept
    ∧ if blen (concat l) <=? MAX_BODY
      then res = match broken with None => Ok tt | Some e => Err e end ∧ kept = concat l
      else (∃ reply, res = Err (status_error reply "the write")) ∧ kept `prefix_of` concat l.
Proof.
  intros Hl Hn HR Hname Ho. unfold put.
  destruct (open_writes name sftp far) as (h & s1 & f1 & Ho1 & Hl1 & [Hh Hs Hn1 _] & Hf1 & Hy1);
    [done|lia|done|].
  change (N.lor (N.lor F_WRITE F_CREAT) F_TRUNC) with put_flags.
  rewrite (bind_ok _ _ _ _ _ Ho1), Ho.
  destruct (put_pieces_stores h name l [] s1 f1)
    as (s2 & f2 & kept & Hl2 & Hh2 & Hn2 & Hy2 & Hf2 & Hres); try done; [lia| |].
  { pose proof (pieces_size CHUNK o) as Hp. by rewrite Ho in Hp. }
  assert (only R name (directory far) (directory f2)) as Hy by (by etrans).
  change (blen [] + blen (concat l)) with (blen (concat l)) in Hres.
  change (blen []) with 0 in Hres. change ([] ++ kept) with kept in Hf2.
  destruct (blen (concat l) <=? MAX_BODY).
  - destruct Hres as [Hres ->]. rewrite (bind_ok _ _ _ _ _ Hres). destruct broken as [e|].
    + exists (Err e), s2, f2, (concat l). do 2 (split; [done|]). split; [congruence|done].
    + destruct (closes h s2 f2) as (s3 & f3 & d & Hc & Hl3 & Hn3 & _ & HRd & Hd);
        [done|lia|done|].
      exists (Ok tt), s3, f3, (concat l). do 2 (split; [done|]). split; [congruence|].
      split; [etrans; [exact Hy|]; eapply only_rely; [exact HRd|]; intros m _; by rewrite Hd|].
      rewrite Hd, (HR _ _ HRd). done.
  - destruct Hres as [[reply Hres] Hpre]. rewrite (bind_err _ _ _ _ _ Hres).
    exists (Err (status_error reply "the write")), s2, f2, kept.
    do 2 (split; [done|]). split; [congruence|]. eauto.
Qed.

(** [read_small] against the far end. *)
Lemma read_small_stored name fuel sftp far :
  linked sftp far → next far < u64_max - 1 → keeps R name → name_short name →
  MAX_BODY < N.of_nat fuel →
  ∃ sftp' far', read_small fuel name sftp = (Ok (files (directory far) !! name), sftp')
    ∧ linked sftp' far' ∧ next far' = next far + 1
    ∧ files (directory far') !! name = files (directory far) !! name.
Proof.
  intros Hl Hn HR Hname Hfuel. unfold read_small, attempt.
  destruct (open_reads name sftp far) as (d & s1 & f1 & HRd & Hl1 & Hd1 & Hn1 & Ho);
    [done|lia|done|].
  pose proof (HR _ _ HRd) as Hfd. unfold mbind at 1, M_bind.
  destruct (files d !! name) as [c|] eqn:Hc; rewrite <- Hfd.
  - destruct Ho as (h & -> & [Hh Hs Hn' _]).
    assert (blen c ≤ MAX_BODY).
    { eapply (wf_files _ (wf_dir _ (linked_wf _ _ Hl1))). by rewrite Hd1. }
    destruct (read_whole_reads h name c fuel [] s1 f1) as (s2 & f2 & Hr & Hl2 & Hh2 & Hn2 & Hf2);
      try done; [lia|by rewrite Hd1|apply prefix_nil|fits|].
    destruct (closes h s2 f2) as (s3 & f3 & d3 & Hcl & Hl3 & Hn3 & _ & HRd3 & Hd3);
      [done|lia|done|].
    exists s3, f3. rewrite (bind_ok _ _ _ _ _ Hr), (bind_ok _ _ _ _ _ Hcl).
    split; [done|]. split; [done|]. split; [congruence|]. by rewrite Hd3, (HR _ _ HRd3).
  - destruct Ho as (_ & e & ->). exists s1, f1. split; [done|]. split; [done|]. split; [done|].
    by rewrite Hd1.
Qed.

(** C2: a put stores the body.  Whatever the other connections do to other
    files, [put] of a body within the far end's ceiling ends OK with the
    file of that name holding exactly the body: opened empty, written a
    chunk at a time at its own offset, closed; and changes no other file. *)
Theorem put_stores name o l sftp far :
  linked sftp far → next far < u64_max - 1 → keeps R name → name_short name →
  outgoing_pieces CHUNK o = (l, None) → blen (outgoing_body o) ≤ MAX_BODY →
  ∃ sftp' far', put name o sftp = (Ok tt, sftp') ∧ linked sftp' far'
    ∧ files (directory far') !! name = Some (outgoing_body o)
    ∧ only R name (directory far) (directory far').
Proof.
  intros Hl Hn HR Hname Ho Hb. pose proof (pieces_body CHUNK o l eq_refl Ho) as Hbody.
  destruct (put_stored name o l None sftp far) as (res & s & f & kept & Hp & Hl' & _ & Hy & Hf & Hres); [done..|].
  rewrite Hbody in Hres. rewrite (proj2 (N.leb_le _ _) Hb) in Hres. destruct Hres as [-> ->].
  by exists s, f.
Qed.

(** C33: a put past the ceiling fails and never stores past it.  Where the
    pieces of a body come to more than the far end holds of one file, [put]
    is the server's refusal of a write, and the file of that name holds a
    proper beginning of the body, within the ceiling. *)
Theorem put_past_ceiling name o l broken sftp far :
  linked sftp far → next far < u64_max - 1 → keeps R name → name_short name →
  outgoing_pieces CHUNK o = (l, broken) → MAX_BODY < blen (concat l) →
  ∃ reply sftp' far' kept, put name o sftp = (Err (status_error reply "the write"), sftp')
    ∧ linked sftp' far' ∧ files (directory far') !! name = Some kept
    ∧ kept `prefix_of` concat l ∧ blen kept ≤ MAX_BODY.
Proof.
  intros Hl Hn HR Hname Ho Hb.
  destruct (put_stored name o l broken sftp far)
    as (res & s & f & kept & Hp & Hl' & _ & Hy & Hf & Hres); [done..|].
  rewrite (proj2 (N.leb_gt _ _) Hb) in Hres. destruct Hres as [[reply ->] Hpre].
  exists reply, s, f, kept. do 4 (split; [done|]).
  by eapply (wf_files _ (wf_dir _ (linked_wf _ _ Hl'))).
Qed.

(** What was put is read back.  A file put within the ceiling and then
    read whole on the same channel is the body, byte for byte, whatever its
    size and however many requests each took; and the read ends. *)
Theorem put_read_back name o l fuel sftp far :
  linked sftp far → next far < u64_max - 2 → keeps R name → name_short name →
  outgoing_pieces CHUNK o = (l, None) → blen (outgoing_body o) ≤ MAX_BODY →
  MAX_BODY < N.of_nat fuel →
  ∃ sftp', (_ ← put name o; read_small fuel name) sftp
    = (Ok (Some (outgoing_body o)), sftp').
Proof.
  intros Hl Hn HR Hname Ho Hb Hfuel. pose proof (pieces_body CHUNK o l eq_refl Ho) as Hbody.
  destruct (put_stored name o l None sftp far)
    as (res & s & f & kept & Hp & Hl' & Hn' & _ & Hf & Hres); [done|lia|done..|].
  rewrite Hbody in Hres. rewrite (proj2 (N.leb_le _ _) Hb) in Hres. destruct Hres as [-> ->].
  destruct (read_small_stored name fuel s f) as (s2 & f2 & Hr & _); [done|lia|done..|].
  exists s2. rewrite (bind_ok _ _ _ _ _ Hp), Hr. by rewrite Hf.
Qed.

(** [read_small] gives the file that is there whole, and [None] where
    none is, and leaves it as it was. *)
Theorem read_small_reads name fuel sftp far :
  linked sftp far → next far < u64_max - 1 → keeps R name → name_short name →
  MAX_BODY < N.of_nat fuel →
  ∃ sftp' far', read_small fuel name sftp = (Ok (files (directory far) !! name), sftp')
    ∧ linked sftp' far' ∧ files (directory far') !! name = files (directory far) !! name.
Proof.
  intros Hl Hn HR Hname Hfuel.
  destruct (read_small_stored name fuel sftp far) as (s & f & Hr & Hl' & _ & Hf); [done..|].
  by exists s, f.
Qed.
End stores.

Section claims.
Context `{!Platform, !TransportErrors, !Codec, !CodecLaws, !Net, !NetLaws, !Ssh}.
Context {R : relation Directory} `{!Served R}.

Definition create_flags : N := N.lor (N.lor F_WRITE F_CREAT) F_EXCL.

(** The exclusive open, one exchange. *)
Definition create_result (p : reply) : outcome error (option string) :=
  match p with
  | RpHandle _ h => Ok (Some h)
  | RpStatus _ _ _ => Ok None
  | _ => Err (protocol_error "a reply where a handle was due")
  end.

Lemma create_asks name sftp far :
  linked sftp far → next far < u64_max → name_short name →
  asks (try_create name) (λ id, RqOpen id name create_flags) create_result sftp far.
Proof.
  intros Hl Hn [Hu Hb]. unfold try_create. eapply asks_exchange;
    [exact Hl|exact Hn|cbv zeta; reflexivity| |].
  - intros p s Hp. destruct p as [|id c m|id h| | |]; try done. simpl.
    destruct (handle_payload _ _ Hp) as (c & c' & -> & E2 & E3).
    simpl. rewrite lift_ok. simpl. rewrite E2, lift_ok. simpl. by rewrite E3.
  - intros n Hid. cbn [request_fits request_kind request_body modest].
    rewrite ?put_string_spec, ?u32_be_spec, <- ?(assoc_L (++)) by (fits || lia).
    repeat (split; try done); fits.
Qed.

(** C15: a turn is taken by exactly one claimant, and holds its name whole.
    While the others may make files but leave one that is there alone,
    [create_exclusive] answers [true] only where no file of that name was,
    and then the file holds the bytes given; it answers [false] only where
    one is there, which it leaves as it was. *)
Theorem create_exclusive_claims name contents sftp far :
  linked sftp far → next far < u64_max - 1 → guards R name → name_short name →
  blen contents ≤ MAX_BODY → blen contents ≤ 2 ^ 31 →
  ∃ won sftp' far', create_exclusive name contents sftp = (Ok won, sftp') ∧ linked sftp' far'
    ∧ (won = true → files (directory far) !! name = None
        ∧ files (directory far') !! name = Some contents)
    ∧ (won = false → is_Some (files (directory far') !! name)
        ∧ ∀ c, files (directory far) !! name = Some c → files (directory far') !! name = Some c).
Proof.
  intros Hl Hn HR Hname Hmax Hc. rewrite create_exclusive_split.
  destruct (create_asks name sftp far) as (now & d & s1 & HRd & Hwf & He & Hl1); [done|lia|done|].
  cbn [execute] in *. change (has create_flags F_WRITE) with true in *.
  change (has create_flags F_EXCL) with true in *.
  change (files (directory (with_directory d far))) with (files d) in *.
  destruct (files d !! name) as [c|] eqn:Hd; cbn match in *.
  { rewrite (bind_ok _ _ _ _ _ He). eexists false, s1, _. split; [done|]. split; [exact Hl1|].
    split; [done|]. intros _. simpl. rewrite Hd. split; [by eexists|].
    intros c0 Hc0. pose proof (HR _ _ _ HRd Hc0). congruence. }
  assert (files (directory far) !! name = None) as Hnone.
  { destruct (files (directory far) !! name) as [c|] eqn:E; [|done].
    pose proof (HR _ _ _ HRd E). congruence. }
  set (s0 := store now name [] (with_directory d far)) in *.
  destruct (opened_hand_out "h" (Write name) far s0) as [Hh Hs Hx _]; [auto|apply Hl|done|done|].
  set (h := (hand_out "h" (Write name) s0).1) in *.
  set (f1 := (hand_out "h" (Write name) s0).2) in *.
  change (try_create name sftp = (Ok (Some h), s1)) in He. change (linked s1 f1) in Hl1.
  rewrite (bind_ok _ _ _ _ _ He).
  destruct (write_asks s1 f1 Hl1 ltac:(lia) h 0 contents Hs ltac:(done) Hc)
    as (now2 & d2 & s2 & HR2 & Hwf2 & Hw & Hl2).
  cbn [execute] in *. change (handles (with_directory d2 f1)) with (handles f1) in *.
  rewrite Hh in *. rewrite (proj2 (N.leb_le (0 + blen contents) MAX_BODY)) in * by lia.
  change (files (directory (with_directory d2 f1))) with (files d2) in *.
  assert (files d2 !! name = Some []) as Hd2.
  { apply (HR _ _ _ HR2). simpl. by rewrite lookup_insert_eq. }
  rewrite Hd2 in *. rewrite (bind_ok _ _ _ _ _ Hw).
  change (splice (default [] (Some [])) 0 contents) with (splice [] (blen []) contents) in *.
  rewrite splice_end in *.
  set (f2 := (_, store now2 name ([] ++ contents) (with_directory d2 f1)).2) in *.
  destruct (closes h s2 f2) as (s3 & f3 & d3 & Hcl & Hl3 & Hn3 & _ & HRd3 & Hd3);
    [done|unfold f2; simpl; lia|done|].
  rewrite (bind_ok _ _ _ _ _ Hcl). exists true, s3, f3. split; [done|]. split; [done|].
  split; [|done]. intros _. split; [done|]. rewrite Hd3. apply (HR _ _ _ HRd3).
  simpl. by rewrite lookup_insert_eq.
Qed.

(** What [restore] says once the rename was refused. *)
Lemma restore_refused claimed dropped status sftp far :
  linked sftp far → next far < u64_max → keeps R claimed → guards R dropped →
  name_short claimed → name_short dropped → status ≠ OK →
  ∃ r sftp' far',
    (if status =? OK then mret Back else
     still ← stat claimed;
     match still with
     | None => mret Gone
     | Some _ =>
       there ← stat dropped;
       mret (Kept match there with
                  | Some _ => "returning " +:+ dropped +:+ ": a file of that name was dropped since"
                  | None => "returning " +:+ dropped +:+ ": the server answered SFTP status "
                            +:+ pretty status
                  end)
     end) sftp = (Ok r, sftp') ∧ linked sftp' far'
    ∧ (∀ c, files (directory far) !! dropped = Some c → files (directory far') !! dropped = Some c)
    ∧ match files (directory far) !! claimed with
      | None => r = Gone
      | Some c => (∃ why, r = Kept why) ∧ files (directory far') !! claimed = Some c
      end.
Proof.
  intros Hl Hn HC HD Hcn Hdn Hst. rewrite (proj2 (N.eqb_neq _ _) Hst).
  destruct (stats claimed sftp far Hl Hn Hcn) as (d1 & s1 & f1 & HR1 & Hl1 & Hd1 & Hn1 & _ & Hs1).
  rewrite (bind_ok _ _ _ _ _ Hs1), (HC _ _ HR1).
  destruct (files (directory far) !! claimed) as [c|] eqn:Hc; cbn [fmap option_fmap option_map].
  - destruct (stats dropped s1 f1) as (d2 & s2 & f2 & HR2 & Hl2 & Hd2 & Hn2 & _ & Hs2);
      [done|lia|done|].
    rewrite (bind_ok _ _ _ _ _ Hs2). eexists _, s2, f2. split; [done|]. split; [done|].
    rewrite Hd2. rewrite Hd1 in HR2. split; [eauto|]. split; [by eexists|].
    by rewrite (HC _ _ HR2), (HC _ _ HR1).
  - exists Gone, s1, f1. split; [done|]. split; [done|]. rewrite Hd1. split; [|done]. eauto.
Qed.

(** C12: a return never replaces a file.  Whatever file was dropped under the
    dropped name stays as it is; [Back] says the claimed file is under it
    again and only there, [Gone] that the claimed file is no more, [Kept]
    that it is still held under its claimed name because the other is
    taken. *)
Theorem restore_never_replaces claimed dropped sftp far :
  linked sftp far → next far < u64_max → keeps R claimed → guards R dropped →
  name_short claimed → name_short dropped →
  ∃ r sftp' far', site_restore claimed dropped sftp = (Ok r, sftp') ∧ linked sftp' far'
    ∧ (∀ c, files (directory far) !! dropped = Some c →
        r ≠ Back ∧ files (directory far') !! dropped = Some c)
    ∧ match r with
      | Back => ∃ c, files (directory far) !! claimed = Some c
          ∧ files (directory far') !! dropped = Some c ∧ files (directory far') !! claimed = None
      | Gone => files (directory far) !! claimed = None
      | Kept _ => ∃ c, files (directory far) !! claimed = Some c
          ∧ files (directory far') !! claimed = Some c
          ∧ is_Some (files (directory far') !! dropped)
      end.
Proof.
  intros Hl Hn HC HD Hcn Hdn. unfold site_restore.
  destruct (rename_asks sftp far Hl Hn claimed dropped Hcn Hdn)
    as (now & d & s1 & HRd & Hwf & He & Hl1).
  cbn [execute] in *. change (files (directory (with_directory d far))) with (files d) in *.
  pose proof (HC _ _ HRd) as Hfc. rewrite <- Hfc.
  assert (∀ c, files (directory far) !! dropped = Some c → files d !! dropped = Some c) as Hfd
    by (intros; by eapply HD).
  destruct (files d !! dropped) as [old|] eqn:Hto; [|destruct (files d !! claimed) as [c|] eqn:Hfr].
  - destruct (restore_refused claimed dropped FAILURE s1 (with_directory d far))
      as (r & s2 & f2 & Hr & Hl2 & Hkeep & Hm); [done..|].
    rewrite (bind_ok _ _ _ _ _ He), Hr. exists r, s2, f2. split; [done|]. split; [done|].
    cbn [with_directory directory] in *. pose proof (Hkeep _ Hto) as Hto2. split.
    + intros c' Hc'. specialize (Hfd _ Hc'). simplify_eq. split; [|done].
      destruct (files d !! claimed); naive_solver.
    + destruct (files d !! claimed) as [c|]; [destruct Hm as [[why ->] Hc]|by rewrite Hm].
      exists c. split; [done|]. split; [done|]. by eexists.
  - rewrite (bind_ok _ _ _ _ _ He). eexists Back, s1, _. split; [done|]. split; [exact Hl1|].
    split; [by intros c' ?%Hfd|]. exists c. split; [done|]. simpl.
    rewrite lookup_insert_eq, lookup_insert_ne, lookup_delete_eq by congruence. done.
  - destruct (restore_refused claimed dropped NO_SUCH_FILE s1 (with_directory d far))
      as (r & s2 & f2 & Hr & Hl2 & Hkeep & Hm); [done..|].
    rewrite (bind_ok _ _ _ _ _ He), Hr. exists r, s2, f2. split; [done|]. split; [done|].
    cbn [with_directory directory] in *. rewrite Hfr in Hm. subst r.
    split; [by intros c' ?%Hfd|done].
Qed.

(** A delete leaves no file of that name, and deleting what is not there
    is no error. *)
Theorem delete_removes name sftp far :
  linked sftp far → next far < u64_max → name_short name →
  ∃ sftp' far', site_delete name sftp = (Ok tt, sftp') ∧ linked sftp' far'
    ∧ files (directory far') !! name = None.
Proof.
  intros Hl Hn Hname. unfold site_delete.
  destruct (removed_asks sftp far Hl Hn name Hname) as (now & d & s1 & HRd & Hwf & He & Hl1).
  cbn [execute] in *.
  eexists s1, _. split; [|split; [exact Hl1|simpl; by rewrite lookup_delete_eq]].
  by destruct (files _ !! name); rewrite (bind_ok _ _ _ _ _ He).
Qed.

(** A stamp is the file's length and the time it was last written, as
    the directory has them at the moment it is asked; [None] where no file
    is. *)
Theorem stamp_tells name sftp far :
  linked sftp far → next far < u64_max → name_short name →
  ∃ d sftp' far', R (directory far) d ∧ directory far' = d ∧ linked sftp' far'
    ∧ site_stamp name sftp
      = (Ok match files d !! name with
            | Some c => Some {| stamp_length := blen c; stamp_modified := modified d name |}
            | None => None
            end, sftp').
Proof.
  intros Hl Hn Hname.
  destruct (stats name sftp far Hl Hn Hname) as (d & s1 & f1 & HRd & Hl1 & Hd1 & _ & _ & Hs).
  exists d, s1, f1. do 3 (split; [done|]). unfold site_stamp. rewrite Hs.
  by destruct (files d !! name).
Qed.

(** A directory whose listing is one frame. *)
Definition lists_short (d : Directory) : Prop :=
  blen (concat (enc_entry <$> (listing_entry <$> listing d))) + 9 < U32.

Lemma payload_name id l :
  payload (RpName id l) = enc_u32 id ++ enc_u32 (u32_of (N.of_nat (length l)))
                          ++ concat (enc_entry <$> (listing_entry <$> l)).
Proof. unfold payload. cbn [reply_bytes]. by rewrite frame_body. Qed.

Lemma entries_at_least l :
  N.of_nat (length l) ≤ blen (concat (enc_entry <$> (l : list (string * bytes * Attrs)))).
Proof.
  induction l as [|e l IH]; [done|]. cbn [fmap list_fmap concat length].
  unfold enc_entry at 1. autorewrite with blen. lia.
Qed.

Lemma listing_read id d :
  id < U32 → wf_directory d → lists_short d →
  entries (payload (RpName id (listing d))) = Ok ((λ '(n, st), (n, Some st)) <$> listing d).
Proof.
  intros Hid Hd Hs. unfold lists_short in Hs.
  pose proof (entries_at_least (listing_entry <$> listing d)) as Hle. rewrite length_fmap in Hle.
  rewrite payload_name, <- (listing_listed d), <- (right_id_L [] (++) (concat _)).
  replace (u32_of (N.of_nat (length (listing d))))
    with (N.of_nat (length (listing_entry <$> listing d))).
  - apply entries_at; [done| |by apply listing_fits]. rewrite length_fmap. lia.
  - rewrite length_fmap. unfold u32_of, u32_max.
    destruct (N.leb_spec (N.of_nat (length (listing d))) (2 ^ 32 - 1)); [done|lia].
Qed.

(** READDIR, answered with the listing, or with the end. *)
Definition list_turn (fuel : nat) (h : string) (names : list Listed) (x : N * bytes) :
    M Sftp error (list Listed) :=
  let '(kind, body) := x in
  if kind =? NAME then more ← lift (entries body); list_loop fuel h (names ++ more)
  else if kind =? STATUS then
    c ← lift (code body);
    if c =? EOF then mret names else fail (status_error body "the listing")
  else fail (protocol_error "a reply that was neither names nor status").

Lemma list_loop_turn fuel h names sftp far b :
  linked sftp far → next far < u64_max → name_short h → handles far !! h = Some (Dir b) →
  (b = false → ∀ d, R (directory far) d → lists_short d) →
  ∃ d sftp' far', R (directory far) d ∧ linked sftp' far' ∧ next far' = next far
    ∧ directory far' = d ∧ handles far' !! h = Some (Dir true)
    ∧ list_loop (S fuel) h names sftp
      = (if b then mret names
         else list_loop fuel h (names ++ ((λ '(n, st), (n, Some st)) <$> listing d))) sftp'.
Proof.
  intros Hl Hn [Hu Hb] Hhd Hshort. pose proof (linked_id _ _ Hl) as Hid.
  destruct (asked READDIR (λ n, [] |> u32_be n |> put_string (as_bytes h)) (λ id, RqReaddir id h)
    (list_turn fuel h names) sftp far Hl Hn) as (now & d & s1 & HRd & Hwf & Hfit & Hl1 & He).
  - cbn [request_fits]. split; [done|]. split; [done|lia].
  - done.
  - cbn [request_body]. by rewrite put_string_spec, u32_be_spec, <- ?(assoc_L (++)) by (fits || lia).
  - cbn [request_body]. fits.
  - intros now d HRd Hwf. cbn [execute].
    change (handles (with_directory d far)) with (handles far). rewrite Hhd.
    destruct b; cbn [fst]; [short_reply|]. specialize (Hshort eq_refl d HRd). unfold lists_short in *.
    unfold short. rewrite payload_name. change (directory (with_directory d far)) with d.
    autorewrite with blen. lia.
  - cbn [execute] in *. change (handles (with_directory d far)) with (handles far) in *.
    rewrite Hhd in *. change (directory (with_directory d far)) with d in *.
    destruct b; cbn [fst snd] in *.
    + exists d, s1, (with_directory d far). do 5 (split; [done|]).
      etrans; [exact He|]. unfold list_turn. cbn [rp_kind]. simpl.
      by rewrite code_payload, lift_ok.
    + eexists d, s1, _. split; [done|]. split; [exact Hl1|]. do 2 (split; [done|]).
      split; [simpl; by rewrite lookup_insert_eq|].
      etrans; [exact He|]. unfold list_turn. cbn [rp_kind]. simpl.
      rewrite listing_read, lift_ok; [done|done|apply (wf_dir _ Hwf)|by apply Hshort].
Qed.

Lemma opendir_asks sftp far :
  linked sftp far → next far < u64_max →
  asks opendir (λ id, RqOpendir id) handle_result sftp far.
Proof.
  intros Hl Hn. unfold opendir, expect_handle.
  eapply asks_exchange; [exact Hl|exact Hn|cbv zeta; reflexivity| |].
  - intros p s. apply handle_reply_read.
  - intros n Hid. cbn [request_fits request_kind request_body modest].
    rewrite put_string_spec, u32_be_spec, <- ?(assoc_L (++)) by (fits || done). 
    repeat (split; try done).
Qed.

(** The listing of [d] as the client reads it, [.] and [..] left out. *)
Lemma listing_kept d :
  let names := List.filter kept_name ((λ '(n, st), (n, Some st)) <$> listing d) in
  NoDup names.*1 ∧ StronglySorted (λ a b : Listed, String.leb a.1 b.1 = true) names
  ∧ ∀ n s, (n, s) ∈ names ↔ n ≠ "." ∧ n ≠ ".."
      ∧ ∃ c, files d !! n = Some c ∧ s = Some (stamp_in d n c).
Proof.
  intros names. split; [|split].
  - apply NoDup_filter_list. rewrite <- list_fmap_compose.
    rewrite (list_fmap_ext _ fst) by (by intros ? []). apply listing_NoDup.
  - apply StronglySorted_filter_list, StronglySorted_fmap
      with (λ a b : string * Stamp, String.leb a.1 b.1 = true); [|apply listing_sorted].
    by intros [] [].
  - intros n s. unfold names. rewrite elem_of_filter_list, list_elem_of_fmap. unfold kept_name.
    cbn [fst]. rewrite andb_true_iff, !negb_true_iff, !String.eqb_neq. split.
    + intros [[Hd Hdd] ([n' st] & Heq & Hin)]. simplify_eq.
      apply listing_elem in Hin as (c & Hc & ->). eauto 10.
    + intros (Hd & Hdd & c & Hc & ->). split; [done|].
      exists (n, stamp_in d n c). split; [done|]. apply listing_elem. eauto.
Qed.

(** C19: a listing is the directory.  [list] ends, after two READDIRs of this
    far end, and gives the directory as it was at one moment during it:
    every file but [.] and [..] that was there, each name once and in
    order, each with its length and modification time. *)
Theorem list_lists fuel sftp far :
  linked sftp far → next far < u64_max - 1 → (2 ≤ fuel)%nat →
  (∀ d1 d, R (directory far) d1 → R d1 d → lists_short d) →
  ∃ d1 d names sftp' far', R (directory far) d1 ∧ R d1 d
    ∧ list_files fuel sftp = (Ok names, sftp') ∧ linked sftp' far'
    ∧ NoDup names.*1
    ∧ StronglySorted (λ a b, String.leb a.1 b.1 = true) names
    ∧ ∀ n s, (n, s) ∈ names ↔ n ≠ "." ∧ n ≠ ".."
        ∧ ∃ c, files d !! n = Some c ∧ s = Some (stamp_in d n c).
Proof.
  intros Hl Hn Hfuel Hshort. destruct fuel as [|[|fuel]]; [lia|lia|].
  destruct (opendir_asks sftp far) as (now & d1 & s1 & HR1 & Hwf & He & Hl1); [done|lia|].
  cbn [execute] in *.
  destruct (opened_hand_out "d" (Dir false) far (with_directory d1 far)) as [Hh Hs Hx _];
    [auto|apply Hl|done|done|].
  set (h := (hand_out "d" (Dir false) (with_directory d1 far)).1) in *.
  set (f1 := (hand_out "d" (Dir false) (with_directory d1 far)).2) in *.
  change (linked s1 f1) in Hl1. change (opendir sftp = (Ok h, s1)) in He.
  destruct (list_loop_turn (S fuel) h [] s1 f1 false)
    as (d & s2 & f2 & HR2 & Hl2 & Hn2 & Hd2 & Hh2 & Ht2); [done|lia|done|done|intros; by eapply Hshort|].
  destruct (list_loop_turn fuel h ([] ++ ((λ '(n, st), (n, Some st)) <$> listing d)) s2 f2 true)
    as (d3 & s3 & f3 & HR3 & Hl3 & Hn3 & Hd3 & Hh3 & Ht3); [done|lia|done|done|done|].
  destruct (closes h s3 f3) as (s4 & f4 & d4 & Hc & Hl4 & _); [done|lia|done|].
  exists d1, d, (List.filter kept_name ((λ '(n, st), (n, Some st)) <$> listing d)), s4, f4.
  split; [done|]. split; [done|]. split; [|split; [done|apply listing_kept]].
  rewrite list_files_split, (bind_ok _ _ _ _ _ He).
  by rewrite (bind_ok _ _ _ _ _ (eq_trans Ht2 Ht3)), (bind_ok _ _ _ _ _ Hc).
Qed.
End claims.

Section swallows.
Context `{!TransportErrors, !Codec, !Ssh}.

(** C40: a channel that broke reads as a file that is not there.  Where nothing
    can be written on the channel any more, whatever the error, [read_small]
    answers [None] and no error: the error of its open is dropped. *)
Theorem read_small_swallows fuel name sftp :
  (∀ b, ∃ e c, channel_write b (channel sftp) = (Err e, c)) →
  ∃ sftp', read_small fuel name sftp = (Ok None, sftp').
Proof.
  intros Hw. unfold read_small, attempt, open_for_reading, open, send, with_channel, id, mbind, M_bind.
  cbn [channel next_id].
  lazymatch goal with |- context [channel_write ?b _] => destruct (Hw b) as (e & c & ->) end.
  by eexists.
Qed.
End swallows.

(** ** Witnesses: a channel alone with the far end of [FarProperties] *)
Module Witnesses.
Import Reference.Instances Loopback.Instances FarProperties.Witnesses.

Definition ex_line : Sftp := loop_to ex_far.
Lemma ex_linked : linked ex_line ex_far.
Proof. apply loop_linked, ex_far_wf. Qed.

Lemma eq_keeps n : keeps eq n.
Proof. by intros d d' ->. Qed.
Lemma eq_guards n : guards eq n.
Proof. by intros d d' c ->. Qed.

Lemma ex_short s :
  utf8_valid (as_bytes s) = true → (blen (as_bytes s) <? 2 ^ 30) = true → name_short s.
Proof. intros Hu Hl. split; [done|by apply N.ltb_lt]. Qed.

(** Turns enough for the largest file there is. *)
Definition ex_fuel : nat := N.to_nat (MAX_BODY + 1).
Lemma ex_fuel_enough : MAX_BODY < N.of_nat ex_fuel.
Proof. unfold ex_fuel. rewrite N2Nat.id. vm_compute. reflexivity. Qed.

Definition ex_contents : bytes := as_bytes "ISA*00".

Lemma put_stores_witness :
  ∃ sftp' far', put "b.edi" (ex_contents : Outgoing) ex_line = (Ok tt, sftp')
    ∧ linked sftp' far' ∧ files (directory far') !! "b.edi" = Some ex_contents
    ∧ only eq "b.edi" ex_directory (directory far').
Proof.
  refine (put_stores "b.edi" (ex_contents : Outgoing) [ex_contents] ex_line ex_far ex_linked
    eq_refl (eq_keeps _) (ex_short "b.edi" eq_refl eq_refl) eq_refl _).
  vm_compute. discriminate.
Defined.

Definition ex_big : bytes := replicate (N.to_nat (MAX_BODY + 1)) Byte.x00.

Lemma put_past_ceiling_witness :
  ∃ reply sftp' far' kept, put "b.edi" (ex_big : Outgoing) ex_line
      = (Err (status_error reply "the write"), sftp')
    ∧ linked sftp' far' ∧ files (directory far') !! "b.edi" = Some kept
    ∧ kept `prefix_of` concat (outgoing_pieces CHUNK (ex_big : Outgoing)).1 ∧ blen kept ≤ MAX_BODY.
Proof.
  refine (put_past_ceiling "b.edi" (ex_big : Outgoing)
    (chunks (S (length ex_big)) (N.to_nat CHUNK) ex_big) None ex_line ex_far ex_linked
    eq_refl (eq_keeps _) (ex_short "b.edi" eq_refl eq_refl) eq_refl _).
  rewrite concat_chunks by (unfold CHUNK; lia).
  unfold ex_big. rewrite blen_replicate, N2Nat.id. vm_compute. reflexivity.
Defined.

Lemma put_read_back_witness :
  ∃ sftp', (_ ← put "b.edi" (ex_contents : Outgoing); read_small ex_fuel "b.edi") ex_line
    = (Ok (Some ex_contents), sftp').
Proof.
  refine (put_read_back "b.edi" (ex_contents : Outgoing) [ex_contents] ex_fuel ex_line ex_far
    ex_linked eq_refl (eq_keeps _) (ex_short "b.edi" eq_refl eq_refl) eq_refl _ ex_fuel_enough).
  vm_compute. discriminate.
Defined.

Lemma read_small_reads_witness :
  ∃ sftp' far', read_small ex_fuel "a.edi" ex_line = (Ok (Some (as_bytes "hello")), sftp')
    ∧ linked sftp' far' ∧ files (directory far') !! "a.edi" = Some (as_bytes "hello").
Proof.
  exact (read_small_reads "a.edi" ex_fuel ex_line ex_far ex_linked eq_refl (eq_keeps _)
    (ex_short "a.edi" eq_refl eq_refl) ex_fuel_enough).
Defined.

Lemma create_exclusive_claims_witness :
  ∃ sftp', create_exclusive "a.edi" ex_contents ex_line = (Ok false, sftp').
Proof.
  destruct (create_exclusive_claims "a.edi" ex_contents ex_line ex_far ex_linked eq_refl
    (eq_guards _) (ex_short "a.edi" eq_refl eq_refl)) as (won & s & f & Hc & _ & Hw & _);
    [vm_compute; discriminate..|].
  destruct won; [|by exists s]. destruct (Hw eq_refl) as [Hn _]. vm_compute in Hn. discriminate.
Defined.

Lemma restore_never_replaces_witness :
  ∃ r sftp', site_restore "none.claimed" "a.edi" ex_line = (Ok r, sftp') ∧ r ≠ Back.
Proof.
  destruct (restore_never_replaces "none.claimed" "a.edi" ex_line ex_far ex_linked eq_refl
    (eq_keeps _) (eq_guards _) (ex_short "none.claimed" eq_refl eq_refl)
    (ex_short "a.edi" eq_refl eq_refl))
    as (r & s & f & Hr & _ & Hd & _).
  exists r, s. split; [exact Hr|]. exact (proj1 (Hd (as_bytes "hello") eq_refl)).
Defined.

Lemma delete_removes_witness :
  ∃ sftp' far', site_delete "a.edi" ex_line = (Ok tt, sftp') ∧ linked sftp' far'
    ∧ files (directory far') !! "a.edi" = None.
Proof. exact (delete_removes "a.edi" ex_line ex_far ex_linked eq_refl (ex_short "a.edi" eq_refl eq_refl)). Defined.

Lemma stamp_tells_witness :
  ∃ sftp', site_stamp "a.edi" ex_line
    = (Ok (Some {| stamp_length := 5; stamp_modified := 0 |}), sftp').
Proof.
  destruct (stamp_tells "a.edi" ex_line ex_far ex_linked eq_refl (ex_short "a.edi" eq_refl eq_refl))
    as (d & s & f & <- & _ & _ & Hs).
  exists s. rewrite Hs. reflexivity.
Defined.

Lemma list_lists_witness :
  ∃ names sftp', list_files 2 ex_line = (Ok names, sftp')
    ∧ ("a.edi", Some {| stamp_length := 5; stamp_modified := 0 |}) ∈ names.
Proof.
  destruct (list_lists 2 ex_line ex_far ex_linked eq_refl (le_n 2))
    as (d1 & d & names & s & f & <- & <- & Hl & _ & _ & _ & Hin).
  - intros d1 d <- <-. vm_compute. reflexivity.
  - exists names, s. split; [exact Hl|]. apply Hin. split; [discriminate|]. split; [discriminate|].
    exists (as_bytes "hello"). split; reflexivity.
Defined.

(** A channel that broke. *)
Definition broken_ssh : Ssh := {|
  Conn := unit;
  Channel := unit;
  channel_open _ := λ c, (Err (retryable "broken"), c);
  channel_conn c := c;
  channel_write _ := λ c, (Err (retryable "broken"), c);
  channel_read_exact _ := λ c, (Err (retryable "broken"), c);
  channel_read_frame := λ c, (Err (retryable "broken"), c);
  channel_close := λ c, (Err (retryable "broken"), c);
|}.

Lemma read_small_swallows_witness :
  ∃ sftp', @read_small _ _ broken_ssh 1 "a.edi"
      {| channel := tt : @Channel _ broken_ssh; next_id := 1 |} = (Ok None, sftp').
Proof.
  apply (@read_small_swallows _ _ broken_ssh 1 "a.edi"
    {| channel := tt : @Channel _ broken_ssh; next_id := 1 |}).
  intros b. exists (retryable "broken"), tt. reflexivity.
Defined.
End Witnesses.
