(* ===== verification/Connect.v ===== *)
(** Xmip as the SSH client (src/client.rs): what it presents, connecting and
    logging in, and running the subsystem over one channel.

    The socket, the key exchange, the authentication methods and the pins are
    other crates' and are operations of [SshClient].  [connect] runs on
    [Dialing], the node's pins and the connection as it is so far, so that
    what had been said on it when [connect] gave up can be spoken of. *)

From S2P Require Import Prelude RustStd Externals Reference Wire Directory FarSpec FarRefine.
From S2P Require Import FarInvariant FarWorld FarProperties Replies Client Site Session.
From S2P Require Import Contract Loopback ClientProperties.

Local Open Scope N_scope.

Class SshClient `{!TransportErrors, !Ssh, !Keys} : Type := {
  Stream : Type;
  connect_tcp : string → option N → outcome error Stream;
  settle : Stream → option N → outcome error unit;
  conn_of : Stream → outcome error Conn;
  client_banner : M Conn error bytes;
  Exchange : Type;
  kex_client : bytes → M Conn error Exchange;
  host_key : Exchange → bytes;
  exchange_session : Exchange → bytes;
  PublicKey : Type;
  public_key_parse : bytes → outcome error PublicKey;
  fingerprint : PublicKey → string;
  request_service : M Conn error unit;
  userauth_password : string → string → M Conn error unit;
  userauth_public_key : string → SigningKey → bytes → M Conn error unit;
  userauth_none : string → M Conn error unit;
  Pinned : Type;
  pins_hold : string → string → M Pinned error unit;
  alive : Conn → bool;
}.

Section connect.
Context `{!TransportErrors, !Codec, !Ssh, !Keys, !SshClient, !Outgoings}.

(** How Xmip proves who it is to the far end. *)
Inductive Credential : Type :=
  | Password (secret : string)
  | PublicKeyOf (key : SigningKey).

(** The check that admits [user] presenting this credential alone. *)
Definition admitted_as (c : Credential) (user : string) : Check :=
  match c with
  | Password secret => login_only user secret
  | PublicKeyOf key => login_only_key user (key_blob key)
  end.

(** [Client]: its connection, kept while the server keeps it open. *)
Definition Client : Type := Conn.
Definition client_usable (c : Client) : bool := alive c.

Record Dialing : Type := { pins : Pinned; wire : option Conn }.

Definition on_pins {A} (m : M Pinned error A) : M Dialing error A := fun s =>
  let '(o, p) := m (pins s) in (o, {| pins := p; wire := wire s |}).

(** A step of the connection, once there is one. *)
Definition on_wire {A} (m : M Conn error A) : M Dialing error A := fun s =>
  match wire s with
  | Some c => let '(o, c) := m c in (o, {| pins := pins s; wire := Some c |})
  | None => (Panic, s)
  end.

Definition dialed (c : Conn) : M Dialing error unit := fun s =>
  (Ok tt, {| pins := pins s; wire := Some c |}).

Definition wired : M Dialing error Client := fun s =>
  match wire s with Some c => (Ok c, s) | None => (Panic, s) end.

(** The version and the keys. *)
Definition exchange : M Conn error Exchange :=
  peer ← client_banner;
  kex_client peer.

(** The login, with what it presents; the [none] method where that is
    nothing. *)
Definition authenticate (user : string) (credential : option Credential) (session : bytes) :
    M Conn error unit :=
  _ ← request_service;
  match credential with
  | Some (Password secret) => userauth_password user secret
  | Some (PublicKeyOf key) => userauth_public_key user key session
  | None => userauth_none user
  end.

Definition connect (address user : string) (credential : option Credential)
    (timeout : option N) : M Dialing error Client :=
  stream ← lift (connect_tcp address timeout);
  _ ← lift (settle stream timeout);
  conn ← lift (conn_of stream);
  _ ← dialed conn;
  exchanged ← on_wire exchange;
  host ← lift (public_key_parse (host_key exchanged));
  _ ← on_pins (pins_hold ("sftp://" +:+ address) (fingerprint host));
  _ ← on_wire (authenticate user credential (exchange_session exchanged));
  wired.

(** A request of the session, beside what the closure captured. *)
Definition on_sftp {L A} (m : M Sftp error A) : M (Sftp * L) error A := fun '(s, l) =>
  let '(o, s) := m s in (o, (s, l)).

(** Open the subsystem over one channel, run [work], and close the channel.
    [L] is what the closure [work] has captured. *)
Definition with_subsystem_in {L A} (work : M (Sftp * L) error A) : M (Client * L) error A :=
  fun '(conn, l) =>
  match channel_open SUBSYSTEM conn with
  | (Ok c, _) =>
    match start c with
    | (Ok sftp, _) =>
      match work (sftp, l) with
      | (Ok outcome, (sftp, l)) =>
        let '(closed, c) := channel_close (channel sftp) in
        (_ ← closed; mret outcome, (channel_conn c, l))
      | (Err e, (sftp, l)) => (Err e, (channel_conn (channel sftp), l))
      | (Panic, (sftp, l)) => (Panic, (channel_conn (channel sftp), l))
      | (OutOfFuel, (sftp, l)) => (OutOfFuel, (channel_conn (channel sftp), l))
      end
    | (Err e, c) => (Err e, (channel_conn c, l))
    | (Panic, c) => (Panic, (channel_conn c, l))
    | (OutOfFuel, c) => (OutOfFuel, (channel_conn c, l))
    end
  | (Err e, conn) => (Err e, (conn, l))
  | (Panic, conn) => (Panic, (conn, l))
  | (OutOfFuel, conn) => (OutOfFuel, (conn, l))
  end.

(** With nothing captured that [work] changes. *)
Definition with_subsystem {A} (work : M Sftp error A) : M Client error A := fun conn =>
  let '(o, (conn, _)) := with_subsystem_in (on_sftp work) (conn, tt) in (o, conn).

(** Put [outgoing]'s body into the directory as [name]. *)
Definition client_put (name : string) (outgoing : Outgoing) : M Client error unit :=
  with_subsystem (put name outgoing).
End connect.

(** ** A connection whose other end serves *)

(** What a kept connection promises where its other end is [Directory.serve] over
    a directory: a channel opens on the directory as the others left it, with
    no handle handed out, and closes leaving the directory.  [reached] is a
    connection on which a channel was opened and closed. *)
Class Reaches `{!Platform, !TransportErrors, !Codec, !Net, !Ssh} (R : relation Directory)
    `{!Served R} : Type := {
  reaches : Conn → Directory → Prop;
  reached : Conn → Directory → Prop;
  reaches_open conn d :
    reaches conn d →
    ∃ d' c conn', R d d' ∧ (wf_directory d → wf_directory d')
      ∧ channel_open SUBSYSTEM conn = (Ok c, conn')
      ∧ served c {| directory := d'; handles := ∅; next := 0 |} [];
  reaches_close c far :
    served c far [] →
    ∃ d c', R (directory far) d ∧ (wf_directory (directory far) → wf_directory d)
      ∧ channel_close c = (Ok tt, c') ∧ reached (channel_conn c') d;
}.

(** A connection given back can be used again. *)
Class Reopens `{!Platform, !TransportErrors, !Codec, !Net, !Ssh} (R : relation Directory)
    `{!Served R, !Reaches R} : Prop :=
  reached_reaches conn d : reached conn d → reaches conn d.

Section with_subsystem.
Context `{!Platform, !TransportErrors, !Codec, !CodecLaws, !Net, !NetLaws, !Ssh, !Keys, !SshClient}.
Context {R : relation Directory} `{!Served R, !Reaches R}.

(** INIT is answered VERSION 3, and the session starts linked. *)
Lemma start_linked c far :
  served c far [] → wf_far far → next far < u64_max →
  ∃ sftp c' far', start c = (Ok sftp, c') ∧ linked sftp far' ∧ R (directory far) (directory far')
    ∧ handles far' = handles far ∧ next far' = next far.
Proof.
  intros Hs Hwf Hn. set (s0 := {| channel := c; next_id := 1 |}).
  destruct (send_served INIT (enc_u32 PROTOCOL) s0 far Hs eq_refl) as (now & d & HR & Hd & Hw); [fits|].
  assert (wf_far (with_directory d far)) as Hwf'.
  { destruct Hwf as [Hdir ? ?]. constructor; auto. }
  pose proof (answer_request now RqInit _ Hwf' Hn I) as Ha.
  destruct (Hw _ _ Ha) as (s1 & Hs1 & Hserved & Hi1).
  cbn [reply_bytes] in Hserved.
  destruct (recv_served VERSION (enc_u32 PROTOCOL) s1 _ Hserved eq_refl) as (s2 & Hs2 & Hserved2 & Hi2);
    [fits|].
  exists s2, (channel s2), (with_directory d far). split.
  - unfold start. rewrite u32_be_spec by done. change ([] ++ enc_u32 PROTOCOL) with (enc_u32 PROTOCOL).
    fold s0. rewrite (bind_ok _ _ _ _ _ Hs1), (bind_ok _ _ _ _ _ Hs2).
    pose proof (cursor_new_rest (enc_u32 PROTOCOL)) as Hr.
    rewrite <- (right_id_L [] (++) (enc_u32 PROTOCOL)) in Hr at 2.
    by destruct (read_u32_at _ _ _ Hr eq_refl) as (c' & -> & _).
  - split; [|done]. constructor; [done|done|]. rewrite Hi2, Hi1. done.
Qed.

(** The channel opens and the session starts, linked, before any work. *)
Lemma with_subsystem_begins conn d :
  reaches conn d → wf_directory d →
  ∃ sftp far, linked sftp far ∧ next far = 0 ∧ rtc R d (directory far)
    ∧ ∀ L A (work : M (Sftp * L) error A) l, with_subsystem_in work (conn, l) =
        match work (sftp, l) with
        | (Ok a, (sftp, l)) =>
          let '(closed, c) := channel_close (channel sftp) in (_ ← closed; mret a, (channel_conn c, l))
        | (Err e, (sftp, l)) => (Err e, (channel_conn (channel sftp), l))
        | (Panic, (sftp, l)) => (Panic, (channel_conn (channel sftp), l))
        | (OutOfFuel, (sftp, l)) => (OutOfFuel, (channel_conn (channel sftp), l))
        end.
Proof.
  intros Hr Hd. destruct (reaches_open _ _ Hr) as (d' & c & conn1 & HR & Hd' & Ho & Hs).
  destruct (start_linked c {| directory := d'; handles := ∅; next := 0 |})
    as (sftp & c1 & far & Hst & Hl & HR1 & Hh & Hn); [done| |done|].
  { constructor; [by apply Hd'| |done]. intros h hd Hh. cbn [handles] in Hh.
    by apply lookup_empty_Some in Hh. }
  exists sftp, far. split; [done|]. split; [done|].
  split; [eapply rtc_l; [exact HR|]; by apply rtc_once|].
  intros L A work l. unfold with_subsystem_in. by rewrite Ho, Hst.
Qed.

(** Work that ends linked to the far end ends with the channel closed and the
    connection kept. *)
Lemma with_subsystem_ok {L A} (work : M (Sftp * L) error A) (P : A → L → Directory → Directory → Prop)
    conn l d :
  reaches conn d → wf_directory d →
  (∀ sftp far, linked sftp far → next far = 0 → rtc R d (directory far) →
    ∃ a sftp' l' far', work (sftp, l) = (Ok a, (sftp', l')) ∧ linked sftp' far'
      ∧ P a l' (directory far) (directory far')) →
  ∃ a conn' l' d0 d1 d2, with_subsystem_in work (conn, l) = (Ok a, (conn', l'))
    ∧ reached conn' d2 ∧ wf_directory d2 ∧ rtc R d d0 ∧ P a l' d0 d1 ∧ R d1 d2.
Proof.
  intros Hr Hd Hwork.
  destruct (with_subsystem_begins conn d Hr Hd) as (sftp & far & Hl & Hn & HR & Hin).
  destruct (Hwork sftp far) as (a & s2 & l' & far2 & Hw & Hl2 & HP); [done..|].
  destruct (reaches_close _ _ (linked_served _ _ Hl2)) as (d2 & c2 & HR2 & Hd2 & Hc & Hr2).
  exists a, (channel_conn c2), l', (directory far), (directory far2), d2.
  rewrite Hin, Hw, Hc. do 2 (split; [done|]).
  by split; [apply Hd2, (wf_dir _ (linked_wf _ _ Hl2))|].
Qed.
End with_subsystem.
