(* ===== verification/ConnectProperties.v ===== *)
(** The properties of the client's connection: nothing secret is said before
    the server's key is held to its pin, and a put over a kept connection
    stores the body and gives the connection back. *)

From S2P Require Import Prelude RustStd Externals Reference Wire Directory FarSpec FarRefine.
From S2P Require Import FarInvariant FarWorld FarProperties Replies Client Site Session.
From S2P Require Import Contract Loopback ClientProperties Connect.

Local Open Scope N_scope.

Section pinning.
Context `{!TransportErrors, !Codec, !Ssh, !Keys, !SshClient}.

(** C21: no secret reaches a server that is not the one it was.  However
    [connect] ends, either the login was not begun — there is no connection,
    or it is as the key exchange left it and [connect] failed — or the pins
    held the key the exchange gave to the one kept for this address, before
    the login. *)
Theorem secret_after_pin address user credential timeout p o s' :
  connect address user credential timeout {| pins := p; wire := None |} = (o, s') →
  (wire s' = None ∧ ∀ c, o ≠ Ok c)
  ∨ ∃ stream conn0, connect_tcp address timeout = Ok stream ∧ conn_of stream = Ok conn0
    ∧ ((wire s' = Some (exchange conn0).2 ∧ ∀ c, o ≠ Ok c)
      ∨ ∃ exchanged conn1 host p',
          exchange conn0 = (Ok exchanged, conn1)
          ∧ public_key_parse (host_key exchanged) = Ok host
          ∧ pins_hold ("sftp://" +:+ address) (fingerprint host) p = (Ok tt, p')
          ∧ wire s' = Some (authenticate user credential (exchange_session exchanged) conn1).2).
Proof.
  unfold connect, mbind, M_bind, lift, dialed, on_wire, on_pins, wired. intros Hc.
  destruct (connect_tcp address timeout) as [stream| | |] eqn:Ht; [|by simplify_eq; left..].
  destruct (settle stream timeout); [|by simplify_eq; left..].
  destruct (conn_of stream) as [conn0| | |] eqn:Hconn; [|by simplify_eq; left..].
  right. exists stream, conn0. split; [done|]. split; [done|]. cbn [wire pins] in Hc.
  destruct (exchange conn0) as [[exchanged| | |] conn1] eqn:Hx; [|by simplify_eq; left..].
  destruct (public_key_parse (host_key exchanged)) as [host| | |] eqn:Hk; [|by simplify_eq; left..].
  cbn [wire pins] in Hc.
  destruct (pins_hold _ _ p) as [[[]| | |] p'] eqn:Hp; [|by simplify_eq; left..].
  right. exists exchanged, conn1, host, p'. do 3 (split; [done|]). cbn [wire pins] in Hc.
  destruct (authenticate _ _ _ conn1) as [[[]| | |] c2]; cbn in Hc; by simplify_eq.
Qed.
End pinning.

Section puts.
Context `{!Platform, !TransportErrors, !Codec, !CodecLaws, !Net, !NetLaws, !Ssh, !Keys, !SshClient,
          !Outgoings, !OutgoingLaws}.
Context {R : relation Directory} `{!Served R, !Reaches R}.

(** A put over a kept connection.  On a connection whose other end serves
    a directory, [Client::put] opens a channel, puts, closes it, and gives the
    connection back reaching the directory, the file in it whole and no other
    file of it changed by the put. *)
Lemma client_put_kept name o l conn d :
  reaches conn d → wf_directory d → keeps R name → name_short name →
  outgoing_pieces CHUNK o = (l, None) → blen (outgoing_body o) ≤ MAX_BODY →
  ∃ conn' d', client_put name o conn = (Ok tt, conn') ∧ reached conn' d' ∧ wf_directory d'
    ∧ files d' !! name = Some (outgoing_body o) ∧ only R name d d'.
Proof.
  intros Hr Hd HR Hname Ho Hb.
  destruct (with_subsystem_ok (on_sftp (put name o))
    (λ _ _ d0 d1, files d1 !! name = Some (outgoing_body o) ∧ only R name d0 d1) conn tt d Hr Hd)
    as ([] & conn' & [] & d0 & d1 & d2 & Hw & Hr2 & Hwf & HR0 & [Hf Hy] & HR2).
  - intros sftp far Hl Hn _.
    pose proof (pieces_body CHUNK o l eq_refl Ho) as Hbody.
    destruct (put_stored name o l None sftp far)
      as (res & s & f & kept & Hp & Hl' & _ & Hy & Hf & Hres); [done|by rewrite Hn|done..|].
    rewrite Hbody in Hres. rewrite (proj2 (N.leb_le _ _) Hb) in Hres. destruct Hres as [-> ->].
    exists tt, s, tt, f. unfold on_sftp. by rewrite Hp.
  - exists conn', d2. split; [unfold client_put, with_subsystem, Client; by rewrite Hw|].
    do 2 (split; [done|]). split; [by rewrite (HR _ _ HR2)|by eapply only_between].
Qed.

(** Puts one after another over the same connection. *)
Fixpoint client_puts (l : list (string * Outgoing)) : M Client error unit :=
  match l with
  | [] => mret tt
  | (name, o) :: l => _ ← client_put name o; client_puts l
  end.

(** A file that can be put: its name the others leave alone, its body within
    the ceiling. *)
Definition puttable (file : string * Outgoing) : Prop :=
  keeps R file.1 ∧ name_short file.1
  ∧ (∃ l, outgoing_pieces CHUNK file.2 = (l, None)) ∧ blen (outgoing_body file.2) ≤ MAX_BODY.

Lemma client_puts_kept `{!Reopens R} l : ∀ conn d,
  reaches conn d → wf_directory d → NoDup l.*1 → Forall puttable l →
  ∃ conn' d', client_puts l conn = (Ok tt, conn') ∧ reaches conn' d'
    ∧ (l = [] ∧ conn' = conn ∧ d' = d ∨ reached conn' d')
    ∧ wf_directory d'
    ∧ (∀ n o, (n, o) ∈ l → files d' !! n = Some (outgoing_body o))
    ∧ ∀ m, m ∉ l.*1 → keeps R m → files d' !! m = files d !! m.
Proof.
  induction l as [|[name o] l IH]; intros conn d Hr Hd Hnd Hl.
  { exists conn, d. split_and!; try done; [by left|]. by intros n o ?%elem_of_nil. }
  apply NoDup_cons in Hnd as [Hnew Hnd].
  apply Forall_cons in Hl as [(HR & Hname & [p Hp] & Hb) Hl]. cbn [fst snd] in *.
  destruct (client_put_kept name o p conn d) as (c1 & d1 & Hput & Hr1 & Hd1 & Hf1 & Ho1); [done..|].
  destruct (IH c1 d1 (reached_reaches _ _ Hr1) Hd1 Hnd Hl) as (c2 & d2 & Hputs & Hr2 & Hrd2 & Hd2 & Hf2 & Ho2).
  exists c2, d2. cbn [client_puts]. rewrite (bind_ok _ _ _ _ _ Hput).
  split_and!; [done|done| |done| |].
  - right. by destruct Hrd2 as [(_ & -> & ->)|].
  - intros n o' [[= -> ->]|Hin]%elem_of_cons; [|by apply Hf2]. by rewrite (Ho2 _ Hnew HR).
  - intros m [Hm Hml]%not_elem_of_cons HRm. rewrite (Ho2 _ Hml HRm). by eapply only_keeps.
Qed.
End puts.

(** ** Witnesses *)
Module Witnesses.
Import Reference.Instances Loopback.Instances FarProperties.Witnesses ClientProperties.Witnesses.

(** Pins by name, the first key kept. *)
Definition ref_hold (name key : string) : M (gmap string string) error unit := fun p =>
  match p !! name with
  | None => (Ok tt, <[name := key]> p)
  | Some k => if String.eqb k key then (Ok tt, p) else (Err (permanent "another host key"), p)
  end.

Definition loop_client : SshClient := {|
  Stream := Loop;
  connect_tcp _ _ := Ok {| loop_far := ex_far; loop_pending := []; loop_clock := Some 7 |};
  settle _ _ := Ok tt;
  conn_of l := Ok l;
  client_banner := mret [];
  Exchange := string;
  kex_client _ := mret "the host key";
  host_key := as_bytes;
  exchange_session := as_bytes;
  PublicKey := bytes;
  public_key_parse b := Ok b;
  fingerprint b := "SHA256:" +:+ String.string_of_list_byte b;
  request_service := mret tt;
  userauth_password _ _ := mret tt;
  userauth_public_key _ _ _ := mret tt;
  userauth_none _ := mret tt;
  Pinned := gmap string string;
  pins_hold := ref_hold;
  alive _ := true;
|}.
#[local] Existing Instance loop_client.

Definition loop_reaches : Reaches eq.
Proof.
  refine {| reaches := λ (l : @Conn _ loop_ssh) d, directory (loop_far l) = d;
            reached := λ (l : @Conn _ loop_ssh) d, directory (loop_far l) = d |}.
  - intros l d <-. eexists _, _, l. split; [done|]. split; [done|]. split; [reflexivity|done].
  - intros l far [<- Hp]. exists (directory (loop_far l)), l. done.
Defined.
#[local] Existing Instance loop_reaches.
Definition loop_reopens : Reopens eq.
Proof. by intros l d. Defined.

(** A server whose key changed since it was pinned. *)
Definition ex_pins : Pinned := {["sftp://host:22" := "SHA256:another"]}.
Definition ex_credential : option Credential := Some (Password "secret").
Definition ex_dial :=
  connect "host:22" "party" ex_credential None {| pins := ex_pins; wire := None |}.

Lemma secret_after_pin_witness : ∃ conn0, wire ex_dial.2 = Some (exchange conn0).2.
Proof.
  destruct (secret_after_pin "host:22" "party" ex_credential None ex_pins ex_dial.1 ex_dial.2
    (surjective_pairing ex_dial)) as [[Hw _]|(stream & conn0 & Ht & Hc & [[Hw _]|Hlogin])].
  - discriminate Hw.
  - exists conn0. exact Hw.
  - destruct Hlogin as (x & c1 & host & p' & Hx & Hk & Hp & _).
    injection Hx as <- <-. injection Hk as <-. discriminate Hp.
Defined.

Definition ex_conn : @Conn _ loop_ssh :=
  {| loop_far := ex_far; loop_pending := []; loop_clock := Some 7 |}.

Lemma client_put_kept_example :
  ∃ conn' d', client_put "b.edi" (ex_contents : Outgoing) ex_conn = (Ok tt, conn')
    ∧ reached conn' d' ∧ wf_directory d' ∧ files d' !! "b.edi" = Some ex_contents
    ∧ only eq "b.edi" ex_directory d'.
Proof.
  refine (client_put_kept "b.edi" (ex_contents : Outgoing) [ex_contents] ex_conn ex_directory
    eq_refl ex_directory_wf (eq_keeps _) (ex_short "b.edi" eq_refl eq_refl) eq_refl _).
  vm_compute. discriminate.
Defined.
End Witnesses.
