(* ===== verification/Ends.v ===== *)
(** The two ends of one connection: the client's over what the server's own
    code does at the other end.

    The crate's client and its server meet in the ssh crate, which neither
    sees into: [Ends] is what the one end may rely on of the other, for any
    such crate.  What the near end says — on each channel, packets behind
    their lengths — comes at the far end on the stream it accepts
    ([Sessions.Accepting]); and what the near end reads on a channel is what
    the far end's thread, [Serve.serve_session], writes on it.  From that the
    client's interfaces ([Served], [Reaches]) follow, over the directory the
    server's code serves, so that what the client is proved to do to the far
    end [serve_chosen] is proved to have done ([puts_served]). *)

From S2P Require Import Prelude RustStd Externals Reference Wire Directory FarSpec FarRefine.
From S2P Require Import FarInvariant FarWorld FarProperties Serve ServeProperties Sessions.
From S2P Require Import Replies Client Site Session Contract Connect ConnectProperties.

Local Open Scope N_scope.

(** ** The laws *)

(** A packet behind its length. *)
Definition packed (f : bytes) : bytes := enc_u32 (blen f) ++ f.

(** What the far end's thread writes on the last of so many channels, each
    its packets, where the client then closes and opens no more. *)
Definition wrote_back `{!Platform, !TransportErrors, !Codec, !Net, !Ssh, !Keys, !SshServer, !Accepting}
    (env : Env) (most : N) (d0 : Directory) (fss : list (list bytes)) (out : bytes) : Prop :=
  ∀ fuel conn, enough fuel fss → N.of_nat (length fss) ≤ most → accepting conn [] fss →
  ∃ s outs, serve_session fuel env most
      {| session_conn := conn; session_held := d0; session_locks := 0 |} = (Ok tt, s)
    ∧ replied (session_conn s) (outs ++ [out]).

(** A connection to [address] as [user], served at the other end over [d0], of
    which others make what [env] says, for [most] channels. *)
Class Ends `{!Platform, !TransportErrors, !Codec, !Net, !Keys} (near : Ssh)
    (client : @SshClient _ near _) (far : Ssh) (server : @SshServer _ far _)
    (accepts : @Accepting _ far _ server) (env : Env) (most : N) (d0 : Directory)
    (host : SigningKey) (check : Check) (address user : string) (credential : option Credential)
    (who : Authenticated) (session : bytes) : Type := {
  (** The near end's connection after channels it opened and closed; its
      channel after those, with the packets written on it and how much was
      read; and the stream the far end accepts, all of it said. *)
  spoken : @Conn _ near → list (list bytes) → Prop;
  speaking : @Channel _ near → list (list bytes) → list bytes → nat → Prop;
  accepted : @Conn _ near → @TcpStream _ far _ server;
  (** A client that connected has said no packet yet. *)
  ends_connect timeout d c d' :
    @connect _ near _ client address user credential timeout d = (Ok c, d') → spoken c [];
  ends_open conn fss :
    spoken conn fss → N.of_nat (length fss) < most →
    ∃ c conn', @channel_open _ near SUBSYSTEM conn = (Ok c, conn') ∧ speaking c fss [] 0;
  (** Where the far end is still there, a packet goes out whole. *)
  ends_write c fss fs n out f :
    speaking c fss fs n → @wrote_back _ _ _ _ far _ server accepts env most d0 (fss ++ [fs]) out →
    blen f < U32 →
    ∃ c', @channel_write _ near (packed f) c = (Ok tt, c') ∧ speaking c' fss (fs ++ [f]) n;
  (** What the far end wrote is read, in order. *)
  ends_read c fss fs n out k :
    speaking c fss fs n → @wrote_back _ _ _ _ far _ server accepts env most d0 (fss ++ [fs]) out →
    N.of_nat n + k ≤ blen out →
    ∃ c', @channel_read_exact _ near k c = (Ok (take (N.to_nat k) (drop n out)), c')
      ∧ speaking c' fss fs (n + N.to_nat k);
  ends_close c fss fs n out :
    speaking c fss fs n → @wrote_back _ _ _ _ far _ server accepts env most d0 (fss ++ [fs]) out →
    ∃ c', @channel_close _ near c = (Ok tt, c') ∧ spoken (@channel_conn _ near c') (fss ++ [fs]);
  (** The far end admits the login the near end's [connect] ended on, and
      accepts what was said. *)
  ends_accept conn fss :
    spoken conn fss →
    ∃ conn0 conn1, @conn_new _ far _ server (accepted conn) = Ok conn0
      ∧ @log_in _ far _ server host check conn0 = (Ok (who, session), conn1)
      ∧ accepting conn1 [] fss;
}.

(** ** From the laws, the client's interfaces *)
Section ends.
Context `{!Platform, !TransportErrors, !Codec, !CodecLaws, !Net, !NetLaws, !Keys}.
Context {near : Ssh} {client : @SshClient _ near _} {far : Ssh} {server : @SshServer _ far _}.
Context {accepts : @Accepting _ far _ server} {env : Env} {most : N} {d0 : Directory}.
Context {host : SigningKey} {check : Check} {address user : string}.
Context {credential : option Credential} {who : Authenticated} {session : bytes}.
Context `{!Ends near client far server accepts env most d0 host check address user credential
            who session} (Henv : env_wf env).

Lemma packed_frame kind body :
  kind < 256 → blen body + 1 < U32 →
  frame kind body = packed (byte_of_N kind :: body) ∧ blen (byte_of_N kind :: body) < U32.
Proof.
  intros Hk Hb. rewrite frame_spec by done. unfold packed.
  assert (blen (byte_of_N kind :: body) = blen body + 1) as -> by (unfold blen; simpl; lia).
  done.
Qed.

(** What others may have done by the time of the next turn. *)
Definition around : relation Directory := λ d d', d' = d ∨ ∃ i, d' = (env i).2 d.

Definition total (fss : list (list bytes)) : nat := sum_list (length <$> fss).

Lemma total_snoc fss fs : total (fss ++ [fs]) = (total fss + length fs)%nat.
Proof.
  unfold total. rewrite fmap_app. induction fss as [|x fss IH]; csimpl in *; lia.
Qed.

(** Turns enough for channels that were said. *)
Lemma total_enough fuel fss : (length fss + total fss < fuel)%nat → enough fuel fss.
Proof.
  intros Hf. split; [lia|]. apply Forall_forall. intros fs Hin.
  enough (length fs ≤ total fss)%nat by lia. unfold total. clear Hf.
  induction Hin as [fs fss|fs x fss Hin IH]; csimpl; lia.
Qed.

(** The channels closed so far, as [serve] makes them. *)
Definition behind (fss : list (list bytes)) (d : Directory) (outs : list bytes) : Prop :=
  session_run env 0 fss d0 [] (Ok tt) d outs.

(** The far end, the client closed after some packets, wrote back what its
    loop did on them. *)
Lemma loop_wrote_back fss fs d outs s out :
  behind fss d outs → loop_run env (total fss) fs (begun d) [] s out →
  @wrote_back _ _ _ _ far _ server accepts env most d0 (fss ++ [fs]) out.
Proof.
  intros Hb Hl fuel conn Henough Hmost Hacc.
  pose proof (session_run_snoc _ _ _ _ _ _ _ _ _ _ Hb (loop_run_channel _ _ _ _ _ _ Hl)) as Hrun.
  destruct (fss ++ [fs]) as [|f rest] eqn:E; [by destruct fss|].
  assert (take (N.to_nat most - 1) rest = rest) as Ht
    by (apply take_ge; cbn [length] in Hmost; lia).
  rewrite <- Ht in Hrun.
  destruct (@serve_session_run _ _ _ _ far _ server accepts env f rest fuel most conn d0 0 [] _ _ _
              Henough Hacc Hrun) as (conn' & i' & Hs & Hr).
  eexists _, outs. split; [exact Hs|]. by apply Hr.
Qed.

Record joined_by (fss : list (list bytes)) (fs : list bytes) (d : Directory) (outs : list bytes)
    (out : bytes) (heard : nat) (c : @Channel _ near) (s : Far) (pending : bytes) : Prop := {
  joined_behind : behind fss d outs;
  joined_run : loop_run env (total fss) fs (begun d) [] s out;
  joined_speaking : speaking c fss fs heard;
  joined_pending : drop heard out = pending;
  joined_heard : (heard ≤ length out)%nat;
}.

(** The channel after [fss], its server's directory and handles, and what it
    wrote and the client has not read. *)
Definition joined_at (fss : list (list bytes)) (c : @Channel _ near) (s : Far) (pending : bytes) : Prop :=
  ∃ fs d outs out heard, joined_by fss fs d outs out heard c s pending.

Definition reaches_after (fss : list (list bytes)) (c : @Conn _ near) (d : Directory) : Prop :=
  spoken c fss ∧ ∃ outs, behind fss d outs.

Lemma joined_write fss c s kind body :
  joined_at fss c s [] → kind < 256 → blen body + 1 < U32 →
  ∃ i, ∀ reply s',
    answer (env i).1 kind body (with_directory ((env i).2 (directory s)) s) = (Ok reply, s') →
    ∃ c', @channel_write _ near (frame kind body) c = (Ok tt, c') ∧ joined_at fss c' s' reply.
Proof.
  intros (fs & d & outs & out & heard & [Hb Hrun Hsp Hpend Hheard]) Hk Hbody.
  destruct (packed_frame kind body Hk Hbody) as [-> Hfit].
  exists (total fss + length fs)%nat. intros reply s' Ha.
  destruct (ends_write _ _ _ _ _ _ Hsp (loop_wrote_back _ _ _ _ _ _ Hb Hrun) Hfit)
    as (c' & Hw & Hsp').
  exists c'. split; [exact Hw|].
  assert (heard = length out) as Hall.
  { apply (f_equal length) in Hpend. rewrite length_drop in Hpend. simpl in Hpend. lia. }
  exists (fs ++ [byte_of_N kind :: body]), d, outs, (out ++ reply), heard.
  constructor; [done| |done| |].
  - eapply loop_run_snoc; [exact Hrun|]. rewrite byte_to_of_N, N.mod_small by done. exact Ha.
  - rewrite Hall. apply drop_app_length.
  - rewrite Hall, length_app. lia.
Qed.

Lemma joined_read fss c s pending n :
  joined_at fss c s pending → n ≤ blen pending →
  ∃ c', @channel_read_exact _ near n c = (Ok (take (N.to_nat n) pending), c')
    ∧ joined_at fss c' s (drop (N.to_nat n) pending).
Proof.
  intros (fs & d & outs & out & heard & [Hb Hrun Hsp <- Hheard]) Hle.
  assert (N.of_nat heard + n ≤ blen out) as Hn.
  { unfold blen in *. rewrite length_drop in Hle. lia. }
  destruct (ends_read _ _ _ _ _ n Hsp (loop_wrote_back _ _ _ _ _ _ Hb Hrun) Hn) as (c' & Hr & Hsp').
  exists c'. split; [exact Hr|]. exists fs, d, outs, out, (heard + N.to_nat n)%nat.
  constructor; [done|done|done|by rewrite drop_drop|]. unfold blen in Hn. lia.
Qed.

Lemma joined_open fss c d :
  reaches_after fss c d → N.of_nat (length fss) < most →
  ∃ w c', @channel_open _ near SUBSYSTEM c = (Ok w, c')
    ∧ joined_at fss w {| directory := d; handles := ∅; next := 0 |} [].
Proof.
  intros [Hsp [outs Hb]] Hmost. destruct (ends_open _ _ Hsp Hmost) as (w & c' & Ho & Hw).
  exists w, c'. split; [exact Ho|]. exists [], d, outs, [], O.
  constructor; [done|apply loop_run_nil|done|done|simpl; lia].
Qed.

Lemma joined_close fss w s :
  joined_at fss w s [] →
  ∃ w' fs, @channel_close _ near w = (Ok tt, w')
    ∧ reaches_after (fss ++ [fs]) (@channel_conn _ near w') (directory s).
Proof.
  intros (fs & d & outs & out & heard & [Hb Hrun Hsp _ _]).
  destruct (ends_close _ _ _ _ _ Hsp (loop_wrote_back _ _ _ _ _ _ Hb Hrun)) as (w' & Hc & Hsp').
  exists w', fs. split; [exact Hc|]. split; [exact Hsp'|]. exists (outs ++ [out]).
  eapply session_run_snoc; [exact Hb|]. by apply loop_run_channel.
Qed.

(** One channel, after those said: the laws the client is proved against. *)
Section next_channel.
Context (fss : list (list bytes)) (Hfew : N.of_nat (length fss) < most).

Definition ends_served : @Served _ _ _ _ near around.
Proof.
  refine {| served := (joined_at fss : @Channel _ near → _) |}.
  - intros w s kind body Hj Hk Hb. destruct (joined_write fss w s kind body Hj Hk Hb) as [i Hi].
    exists (env i).1, ((env i).2 (directory s)). split; [by right; eexists|].
    split; [apply Henv|exact Hi].
  - intros w s pending n. apply joined_read.
Defined.

Definition ends_reaches : @Reaches _ _ _ _ near around ends_served.
Proof.
  refine {| reaches := (reaches_after fss : @Conn _ near → _);
            reached := λ (c : @Conn _ near) d, ∃ fs, reaches_after (fss ++ [fs]) c d |}.
  - intros c d Hr. destruct (joined_open fss c d Hr Hfew) as (w & c' & Ho & Hj).
    exists d, w, c'. by split_and!; [left| | |].
  - intros w s (w' & fs & Hs & Hr)%joined_close. exists (directory s), w'.
    split_and!; [by left|done|done|by exists fs].
Defined.
End next_channel.

(** ** Puts over one connection, served *)
Section puts.
Context `{!Outgoings, !OutgoingLaws}.

(** One put, on the next channel. *)
Lemma put_said name o l fss c d :
  reaches_after fss c d → N.of_nat (length fss) < most → wf_directory d →
  keeps around name → name_short name →
  outgoing_pieces CHUNK o = (l, None) → blen (outgoing_body o) ≤ MAX_BODY →
  ∃ c' d' fs, @client_put _ _ near _ name o c = (Ok tt, c') ∧ reaches_after (fss ++ [fs]) c' d'
    ∧ wf_directory d' ∧ files d' !! name = Some (outgoing_body o) ∧ only around name d d'.
Proof.
  intros Hr Hfew Hd HR Hname Ho Hb.
  destruct (@client_put_kept _ _ _ _ _ _ near _ _ around (ends_served fss) (ends_reaches fss Hfew)
              name o l c d Hr Hd HR Hname Ho Hb) as (c' & d' & Hput & [fs Hr'] & Hd' & Hf & Hy).
  exists c', d', fs. by split_and!.
Qed.

Lemma puts_said l : ∀ fss c d,
  reaches_after fss c d → N.of_nat (length fss + length l) ≤ most → wf_directory d →
  NoDup l.*1 → Forall (@puttable _ _ _ around) l →
  ∃ c' d' fss', @client_puts _ _ near _ l c = (Ok tt, c') ∧ reaches_after (fss ++ fss') c' d'
    ∧ length fss' = length l ∧ wf_directory d'
    ∧ (∀ n o, (n, o) ∈ l → files d' !! n = Some (outgoing_body o))
    ∧ ∀ m, m ∉ l.*1 → keeps around m → files d' !! m = files d !! m.
Proof.
  induction l as [|[name o] l IH]; intros fss c d Hr Hmost Hd Hnd Hl.
  { exists c, d, []. rewrite (right_id_L [] (++)). split_and!; try done. by intros n o ?%elem_of_nil. }
  apply NoDup_cons in Hnd as [Hnew Hnd].
  apply Forall_cons in Hl as [(HR & Hname & [p Hp] & Hb) Hl]. cbn [fst snd length] in *.
  destruct (put_said name o p fss c d) as (c1 & d1 & fs & Hput & Hr1 & Hd1 & Hf1 & Ho1);
    [done|lia|done..|].
  destruct (IH (fss ++ [fs]) c1 d1 Hr1) as (c2 & d2 & fss' & Hputs & Hr2 & Hlen & Hd2 & Hf2 & Ho2);
    [rewrite length_app; simpl; lia|done..|].
  exists c2, d2, (fs :: fss'). cbn [client_puts]. rewrite (bind_ok _ _ _ _ _ Hput).
  rewrite <- (assoc_L (++)) in Hr2. split_and!; [done|done|simpl; lia|done| |].
  - intros n o' [[= -> ->]|Hin]%elem_of_cons; [|by apply Hf2]. by rewrite (Ho2 _ Hnew HR).
  - intros m [Hm Hml]%not_elem_of_cons HRm. rewrite (Ho2 _ Hml HRm). by eapply only_keeps.
Qed.

(** [serve_chosen] over all that a client said, its channels closed, leaves the
    directory as the client saw it left. *)
Lemma said_served {K} `{EqDecision K} (chosen : string → K) store fs fss c d fuel :
  reaches_after (fs :: fss) c d → store (chosen (who_user who)) = d0 →
  (length (fs :: fss) + total (fs :: fss) < fuel)%nat → N.of_nat (length (fs :: fss)) ≤ most →
  ∃ store', @serve_chosen _ _ _ _ far _ server K _ fuel env (accepted c) host chosen most check store
      = (Ok (who, session), store')
    ∧ store' (chosen (who_user who)) = d
    ∧ ∀ k, k ≠ chosen (who_user who) → store' k = store k.
Proof.
  intros [Hsp [outs Hrun]] Hstore Hfuel Hmost.
  destruct (ends_accept _ _ Hsp) as (conn0 & conn1 & Hnew & Hlog & Hacc).
  apply (@serve_chosen_run _ _ _ _ far _ server accepts K _ fuel env (accepted c) host chosen most
      check store conn0 who session conn1 fs fss (Ok tt) d outs); try done.
  - by apply total_enough.
  - rewrite Hstore, take_ge by (simpl in Hmost; lia). exact Hrun.
Qed.

End puts.
End ends.
