(* ===== verification/Network.v ===== *)
(** A network: a client's connection and a server's at the two ends of one
    line, without cryptography.

    It is one instance of what the crate calls of the ssh crate on either side
    ([SshClient], [SshServer]) and of [net::login] ([Keys]), and shows that the
    laws of [Ends] can be kept: nothing is proved of it but that, and the
    crate's own tests run on it ([NetTests]).  What the client says is a list of
    messages.  The server's end reads such a list; the client's end keeps the
    list it has said so far, and reads on a channel what the server's code
    writes on it when it runs over that list. *)

From S2P Require Import Prelude RustStd Externals Reference Wire Directory FarSpec FarRefine.
From S2P Require Import FarInvariant FarWorld FarProperties Serve ServeProperties Sessions.
From S2P Require Import Replies Client Site Session Contract Loopback ClientProperties Connect.
From S2P Require Import ConnectProperties Ends.

Local Open Scope N_scope.

(** ** Keys and logins *)

(** A password, or the key whose signature verified. *)
Definition Proof_of_login : Type := string + bytes.

(** A key is its seed; a check is the logins it admits. *)
Definition net_keys : Keys := {|
  SigningKey := bytes;
  signing_key_of b := b;
  key_blob b := b;
  Check := list (string * Proof_of_login);
  nobody := [];
  login_only u s := [(u, inl s)];
  login_only_key u b := [(u, inr b)];
|}.

Definition key_print (blob : bytes) : string := "SHA256:" +:+ String.string_of_list_byte blob.

(** ** What a client says *)
Inductive Message : Type :=
  | Hello
  | Kex
  | Login (user : string) (offered : option Proof_of_login)
  | Open (name : string)
  | Data (b : bytes)
  | Shut.

Section network.
Context `{!Platform, !TransportErrors, !Codec, !Net}.
#[local] Existing Instance net_keys.

(** The session a host key's exchange agrees on. *)
Definition session_of (host : SigningKey) : bytes := as_bytes "session " ++ host.

(** Who a check admits, and what a key signed: the session and the user. *)
Definition check_admits (session : bytes) (check : Check) (user : string)
    (offered : option Proof_of_login) : outcome error Authenticated :=
  match offered with
  | Some how =>
    if bool_decide ((user, how) ∈ (check : list (string * Proof_of_login))) then
      Ok match how with
         | inl _ => {| who_user := user; who_fingerprint := None; who_signature := None;
                       who_signed := None |}
         | inr blob => {| who_user := user; who_fingerprint := Some (key_print blob);
                          who_signature := Some (blob ++ session);
                          who_signed := Some (session ++ as_bytes user) |}
         end
    else Err (permanent "every login was turned down")
  | None => Err (permanent "every login was turned down")
  end.

(** A packet behind its length, read back. *)
Definition unpacked (b : bytes) : option bytes :=
  match b with
  | b0 :: b1 :: b2 :: b3 :: f => if blen f =? be_value [b0; b1; b2; b3] then Some f else None
  | _ => None
  end.

Definition hung_up : error := retryable "the connection closed".

(** ** The server's end *)

(** What is still to come, and what was written back on each channel. *)
Record Inbox : Type := { coming : list Message; back : list bytes }.
Record Port : Type := { port_in : list Message; port_back : list bytes; port_out : bytes }.

Definition port_frame : M Port error (option bytes) := fun p =>
  match port_in p with
  | Data b :: rest =>
    match unpacked b with
    | Some f =>
      (Ok (Some f), {| port_in := rest; port_back := port_back p; port_out := port_out p |})
    | None => (Err hung_up, p)
    end
  | Shut :: _ => (Ok None, p)
  | _ => (Err hung_up, p)
  end.

(** Past the client's close, the connection goes on. *)
Definition past_shut (l : list Message) : list Message :=
  match l with Shut :: l => l | l => l end.

Definition server_ssh : Ssh := {|
  Conn := Inbox;
  Channel := Port;
  channel_open _ := λ c, (Err hung_up, c);
  channel_conn p := {| coming := past_shut (port_in p); back := port_back p ++ [port_out p] |};
  channel_write b := λ p,
    (Ok tt, {| port_in := port_in p; port_back := port_back p; port_out := port_out p ++ b |});
  channel_read_exact _ := λ p, (Err hung_up, p);
  channel_read_frame := port_frame;
  channel_close := mret tt;
|}.

Definition with_coming (l : list Message) (c : Inbox) : Inbox := {| coming := l; back := back c |}.

Definition net_server : @SshServer _ server_ssh net_keys := {|
  TcpStream := list Message;
  Exchanged := bytes;
  conn_new l := Ok ({| coming := l; back := [] |} : @Conn _ server_ssh);
  conn_banner := λ c : Inbox,
    match coming c with Hello :: l => (Ok [], with_coming l c) | _ => (Err hung_up, c) end;
  kex_server host _ := λ c : Inbox,
    match coming c with
    | Kex :: l => (Ok (session_of host), with_coming l c)
    | _ => (Err hung_up, c)
    end;
  session_id x := x;
  userauth_serve session check := λ c : Inbox,
    match coming c with
    | Login user offered :: l => (check_admits session check user offered, with_coming l c)
    | _ => (Err hung_up, c)
    end;
  channel_accept name := λ c : Inbox,
    match coming c with
    | Open n :: l =>
      if String.eqb n name
      then (Ok ({| port_in := l; port_back := back c; port_out := [] |} : @Channel _ server_ssh),
            with_coming l c)
      else (Err hung_up, with_coming l c)
    | _ => (Err hung_up, c)
    end;
|}.

(** ** The client's end *)

(** The server: where it listens, its key, its check, the directories it
    serves by user, what others do to them between its turns, and how many
    channels of a connection it serves. *)
Record Host : Type := {
  host_address : string;
  host_key_of : SigningKey;
  host_check : Check;
  host_store : string → Directory;
  host_env : Env;
  host_most : N;
}.
Context (host : Host).

(** What the server's thread writes back on the last channel of what was said,
    run over it to its end: a turn for each message is enough. *)
Definition heard_from (l : list Message) : bytes :=
  match @log_in _ server_ssh net_keys net_server (host_key_of host) (host_check host)
          ({| coming := l; back := [] |} : @Conn _ server_ssh) with
  | (Ok (who, _), conn) =>
    let '(_, s) := @serve_session _ _ _ _ server_ssh net_keys net_server (S (length l))
        (host_env host) (host_most host)
        {| session_conn := conn; session_held := host_store host (who_user who);
           session_locks := 0 |} in
    default [] (last (back (session_conn s)))
  | _ => []
  end.

(** What was said, and whether the login was admitted; and a channel open, with
    how much of the replies was read. *)
Record Near : Type := { log : list Message; admitted : bool }.
Record Wired : Type := { wired_near : Near; wired_heard : nat }.

Definition say (m : list Message) (c : Near) : Near :=
  {| log := log c ++ m; admitted := admitted c |}.

Definition wired_open (name : string) : M Near error Wired := fun c =>
  let c := say [Open name] c in
  if admitted c && String.eqb name SUBSYSTEM then (Ok {| wired_near := c; wired_heard := 0 |}, c)
  else (Err hung_up, c).

Definition wired_say (m : Message) : M Wired error unit := fun w =>
  (Ok tt, {| wired_near := say [m] (wired_near w); wired_heard := wired_heard w |}).

(** The replies not read yet, where the client says no more on the channel. *)
Definition unread (w : Wired) : bytes :=
  drop (wired_heard w) (heard_from (log (wired_near w) ++ [Shut])).

Definition wired_read (n : N) : M Wired error bytes := fun w =>
  if n <=? blen (unread w)
  then (Ok (take (N.to_nat n) (unread w)),
        {| wired_near := wired_near w; wired_heard := wired_heard w + N.to_nat n |})
  else (Err hung_up, w).

Definition near_ssh : Ssh := {|
  Conn := Near;
  Channel := Wired;
  channel_open := wired_open;
  channel_conn := wired_near;
  channel_write b := wired_say (Data b);
  channel_read_exact := wired_read;
  channel_read_frame := λ w, (Ok None, w);
  channel_close := wired_say Shut;
|}.

(** A login offered, and the server's answer to it. *)
Definition near_login (user : string) (offered : option Proof_of_login) : M Near error unit :=
  fun c =>
  let c := say [Login user offered] c in
  match check_admits (session_of (host_key_of host)) (host_check host) user offered with
  | Ok _ => (Ok tt, {| log := log c; admitted := true |})
  | o => (_ ← o; Ok tt, c)
  end.

(** Pins by name, the first key kept. *)
Definition net_hold (name key : string) : M (gmap string string) error unit := fun p =>
  match p !! name with
  | None => (Ok tt, <[name := key]> p)
  | Some k =>
    if String.eqb k key then (Ok tt, p)
    else (Err (permanent (name +:+ " presented " +:+ key +:+ ", not its " +:+ k)), p)
  end.

Definition net_client : @SshClient _ near_ssh net_keys := {|
  Stream := Near;
  connect_tcp address _ :=
    if String.eqb address (host_address host)
    then Ok {| log := []; admitted := false |}
    else Err (retryable "nobody listens there");
  settle _ _ := Ok tt;
  conn_of c := Ok (c : @Conn _ near_ssh);
  client_banner := λ c : Near, (Ok [], say [Hello] c);
  Exchange := SigningKey;
  kex_client _ := λ c : Near, (Ok (host_key_of host), say [Kex] c);
  Connect.host_key := key_blob;
  exchange_session := session_of;
  PublicKey := bytes;
  public_key_parse b := Ok b;
  fingerprint := key_print;
  request_service := mret tt;
  userauth_password user secret := near_login user (Some (inl secret));
  userauth_public_key user key _ := near_login user (Some (inr (key_blob key)));
  userauth_none user := near_login user None;
  Pinned := gmap string string;
  pins_hold := net_hold;
  alive _ := true;
|}.
End network.
