(* ===== verification/NetworkProperties.v ===== *)
(** The two ends of the network keep the laws of [Ends]: the server's end
    accepts the channels that were said ([Accepting]), and the client's end
    says them and reads what the server's code writes. *)

From S2P Require Import Prelude RustStd Externals Reference Wire Directory FarSpec FarRefine.
From S2P Require Import FarInvariant FarWorld FarProperties Serve ServeProperties Sessions.
From S2P Require Import Replies Client Site Session Contract Loopback ClientProperties Connect.
From S2P Require Import ConnectProperties Ends Network.

Local Open Scope N_scope.

#[local] Existing Instances net_keys net_server.

(** ** What was said *)

(** A channel's packets on the line, and channels one after another. *)
Definition saying `{!TransportErrors, !Codec} (fs : list bytes) : list Message := Data ∘ packed <$> fs.
Definition channel_said `{!TransportErrors, !Codec} (fs : list bytes) : list Message :=
  Open SUBSYSTEM :: saying fs ++ [Shut].
Definition channels_said `{!TransportErrors, !Codec} (fss : list (list bytes)) : list Message :=
  concat (channel_said <$> fss).

Definition packet_fits (f : bytes) : Prop := blen f < U32.

Section saying.
Context `{!Platform, !TransportErrors, !Codec, !CodecLaws, !Net, !NetLaws}.

Lemma unpacked_packed f : packet_fits f → unpacked (packed f) = Some f.
Proof.
  intros Hf. unfold packed. pose proof (length_enc_u32 (blen f)) as Hlen.
  pose proof (value_enc_u32 (blen f) Hf) as Hv.
  destruct (enc_u32 (blen f)) as [|b0 [|b1 [|b2 [|b3 [|]]]]]; try done.
  cbn [unpacked app]. by rewrite Hv, N.eqb_refl.
Qed.

Lemma channels_said_snoc fss fs :
  channels_said (fss ++ [fs]) = channels_said fss ++ channel_said fs.
Proof. unfold channels_said. rewrite fmap_app, concat_app. cbn [fmap list_fmap concat].
  by rewrite (right_id_L [] (++)). Qed.

Lemma saying_snoc fs f : saying (fs ++ [f]) = saying fs ++ [Data (packed f)].
Proof. unfold saying. by rewrite fmap_app. Qed.

(** ** The server's end *)
#[local] Existing Instance server_ssh.

Definition port_within (outs : list bytes) (fss : list (list bytes)) : Inbound.
Proof.
  refine {| inbound := λ (p : @Channel _ server_ssh) fs out,
    port_in p = saying fs ++ Shut :: channels_said fss ∧ Forall packet_fits fs
    ∧ Forall (Forall packet_fits) fss ∧ port_back p = outs ∧ port_out p = out |}.
  - intros [i b o] f fs out (Hi & Hfs & Hfss & Hb & Ho). cbn in *. subst.
    apply Forall_cons in Hfs as [Hf Hfs]. eexists. unfold port_frame. cbn.
    by rewrite (unpacked_packed f Hf).
  - intros [i b o] out (Hi & Hfs & Hfss & Hb & Ho). cbn in *. subst. by eexists.
  - intros [i b o] fs out x (Hi & Hfs & Hfss & Hb & Ho). cbn in *. subst. by eexists.
Defined.

Definition net_accepting : @Accepting _ server_ssh net_keys net_server.
Proof.
  refine {| within := port_within; replied := λ (c : @Conn _ server_ssh) outs, back c = outs;
    accepting := λ (c : @Conn _ server_ssh) outs fss,
      coming c = channels_said fss ∧ Forall (Forall packet_fits) fss ∧ back c = outs |}.
  - intros [i b] outs fs fss (Hi & Hfss & Hb). cbn in *. subst.
    apply Forall_cons in Hfss as [Hfs Hfss]. eexists _, _. split; [done|]. cbn.
    by rewrite <- (assoc_L (++)).
  - intros [i b] outs (Hi & Hfss & Hb). cbn in *. subst. by eexists _, _.
  - intros outs fss [i b o] out (Hi & _ & Hfss & Hb & Ho). cbn in *. subst. by eexists.
  - intros c outs fss (_ & _ & Hb). done.
Defined.

End saying.

(** ** The client's end *)
Section connection.
Context `{!Platform, !TransportErrors, !Codec, !CodecLaws, !Net, !NetLaws}.
Context (host : Host) (user : string) (credential : option (@Credential net_keys)) (who : Authenticated).

(** What a credential proves the user by. *)
Definition offer (c : option (@Credential net_keys)) : option Proof_of_login :=
  match c with
  | Some (Password secret) => Some (inl secret)
  | Some (PublicKeyOf key) => Some (inr key)
  | None => None
  end.

Context (Hadmit : check_admits (session_of (host_key_of host)) (host_check host) user
                    (offer credential) = Ok who).

Definition greeting : list Message := [Hello; Kex; Login user (offer credential)].

(** The server's side of the login. *)
Lemma logged_in l :
  @log_in _ server_ssh net_keys net_server (host_key_of host) (host_check host)
    ({| coming := greeting ++ l; back := [] |} : @Conn _ server_ssh)
  = (Ok (who, session_of (host_key_of host)), {| coming := l; back := [] |}).
Proof.
  unfold log_in, mbind, M_bind. cbn -[check_admits session_of]. by rewrite Hadmit.
Qed.

Definition net_spoken (c : Near) (fss : list (list bytes)) : Prop :=
  log c = greeting ++ channels_said fss ∧ admitted c = true ∧ Forall (Forall packet_fits) fss.

Definition net_speaking (w : Wired) (fss : list (list bytes)) (fs : list bytes) (n : nat) : Prop :=
  log (wired_near w) = greeting ++ channels_said fss ++ Open SUBSYSTEM :: saying fs
  ∧ admitted (wired_near w) = true ∧ Forall (Forall packet_fits) fss ∧ Forall packet_fits fs
  ∧ wired_heard w = n ∧ N.of_nat (length fss) < host_most host.

Lemma said_enough fss : enough (S (length (greeting ++ channels_said fss))) fss.
Proof.
  apply total_enough. rewrite length_app. unfold channels_said, total.
  induction fss as [|fs fss IH]; [simpl; lia|]. csimpl. unfold channel_said, saying in *.
  rewrite length_app. simpl. rewrite length_app, length_fmap. simpl in *. lia.
Qed.

(** What the server's code writes back is what the client's end reads. *)
Lemma net_heard fss fs out :
  N.of_nat (length (fss ++ [fs])) ≤ host_most host →
  @wrote_back _ _ _ _ server_ssh _ net_server net_accepting (host_env host) (host_most host)
    (host_store host (who_user who)) (fss ++ [fs]) out →
  Forall (Forall packet_fits) fss → Forall packet_fits fs →
  heard_from host (greeting ++ channels_said fss ++ (Open SUBSYSTEM :: saying fs) ++ [Shut]) = out.
Proof.
  intros Hmost Hback Hfss Hfs.
  assert (channels_said fss ++ (Open SUBSYSTEM :: saying fs) ++ [Shut] = channels_said (fss ++ [fs]))
    as -> by (by rewrite channels_said_snoc).
  unfold heard_from. rewrite logged_in.
  destruct (Hback (S (length (greeting ++ channels_said (fss ++ [fs]))))
              ({| coming := channels_said (fss ++ [fs]); back := [] |} : @Conn _ server_ssh))
    as (s & outs & Hs & Hr); [apply said_enough|done| |].
  { split; [done|]. split; [|done]. by apply Forall_app_2; [|constructor]. }
  rewrite Hs. cbn in Hr. rewrite Hr. by rewrite last_snoc.
Qed.

Lemma net_reads w fss fs n out :
  net_speaking w fss fs n →
  @wrote_back _ _ _ _ server_ssh _ net_server net_accepting (host_env host) (host_most host)
    (host_store host (who_user who)) (fss ++ [fs]) out →
  unread host w = drop n out.
Proof.
  intros (Hlog & _ & Hfss & Hfs & <- & Hmost) Hback. unfold unread. f_equal.
  rewrite <- (net_heard fss fs out); [|rewrite length_app; simpl; lia|done..].
  by rewrite Hlog, <- !(assoc_L (++)).
Qed.

Lemma net_connects address timeout d c d' :
  @connect _ (near_ssh host) _ (net_client host) address user credential timeout d = (Ok c, d') →
  net_spoken c [].
Proof.
  destruct d as [p w]. unfold net_spoken, greeting, connect, mbind, M_bind, lift. cbn.
  destruct (String.eqb address (host_address host)); [|done]. cbn.
  unfold on_wire, on_pins. cbn. unfold mbind, M_bind. cbn.
  destruct (net_hold _ _ p) as [[[]| | |] p']; [|done..]. cbn. unfold mbind, M_bind. cbn.
  assert (∀ x : Near, near_login host user (offer credential) x
    = (Ok tt, {| log := log x ++ [Login user (offer credential)]; admitted := true |})) as Hl.
  { intros x. unfold near_login. by rewrite Hadmit. }
  destruct credential as [[secret|key]|]; [| |discriminate Hadmit]; cbn [offer] in *; rewrite Hl;
    cbn; intros [= <- <-]; by split_and!.
Qed.

(** The network keeps the laws. *)
Definition net_ends :
  @Ends _ _ _ _ net_keys (near_ssh host) (net_client host) server_ssh net_server net_accepting
    (host_env host) (host_most host) (host_store host (who_user who)) (host_key_of host)
    (host_check host) (host_address host) user credential who (session_of (host_key_of host)).
Proof.
  refine {| spoken := (net_spoken : @Conn _ (near_ssh host) → _);
            speaking := (net_speaking : @Channel _ (near_ssh host) → _);
            accepted := λ c : @Conn _ (near_ssh host), (log c : @TcpStream _ _ _ net_server) |}.
  - intros timeout d c d'. apply net_connects.
  - intros c fss (Hlog & Hin & Hfss) Hmost. eexists _, _. cbn. unfold wired_open. cbn [say admitted].
    rewrite Hin. split; [done|]. unfold net_speaking. split_and!; try done; cbn.
    by rewrite Hlog, <- (assoc_L (++)).
  - intros w fss fs n out f (Hlog & Hin & Hfss & Hfs & Hn & Hmost) _ Hf. eexists. split; [done|].
    unfold net_spoken, net_speaking. split_and!; try done; cbn; [|by apply Forall_app_2; [|constructor]].
    by rewrite Hlog, saying_snoc, <- !(assoc_L (++)).
  - intros w fss fs n out k Hw Hback Hk. pose proof (net_reads w fss fs n out Hw Hback) as Hun.
    cbn. unfold wired_read. rewrite Hun. rewrite (proj2 (N.leb_le _ _)).
    2: { unfold blen in *. rewrite length_drop. lia. }
    eexists. split; [done|]. destruct Hw as (Hlog & Hin & Hfss & Hfs & <- & Hmost).
    unfold net_speaking. by split_and!.
  - intros w fss fs n out (Hlog & Hin & Hfss & Hfs & Hn & Hmost) _. eexists. split; [done|].
    unfold net_spoken, net_speaking. split_and!; try done; cbn; [|by apply Forall_app_2; [|constructor]].
    rewrite Hlog, channels_said_snoc. unfold channel_said. by rewrite <- !(assoc_L (++)).
  - intros c fss (Hlog & Hin & Hfss). eexists _, _. split; [done|]. rewrite Hlog.
    split; [apply logged_in|]. by split_and!.
Defined.
End connection.
(** ** Witnesses: two channels, and two puts, over a directory others work in *)
Module Witnesses.
Import Reference.Instances Loopback.Instances FarProperties.Witnesses ClientProperties.Witnesses.
Import ServeProperties.Witnesses.

Definition ex_host : Host := {|
  host_address := "host:22";
  host_key_of := as_bytes "the host key";
  host_check := [("party", inl "secret")];
  host_store u := if String.eqb u "party" then ex_directory else default_directory;
  host_env := busy;
  host_most := usize_max;
|}.
Definition ex_who : Authenticated :=
  {| who_user := "party"; who_fingerprint := None; who_signature := None; who_signed := None |}.

(** The second channel removes what the first one wrote. *)
Definition ex_channels : list (list bytes) := [ex_frames; [ex_frame (RqRemove 1 "b.edi")]].
Definition ex_inbox (l : list Message) : @Conn _ server_ssh := {| coming := l; back := [] |}.
#[local] Existing Instances server_ssh net_accepting.

Lemma session_refines_witness :
  ∃ d' outs store',
    session_spec busy 0 ex_channels ex_directory [] = (Ok tt, d', outs)
    ∧ serve_chosen 6 busy (greeting "party" (Some (Password "secret")) ++ channels_said ex_channels
                           : @TcpStream _ _ _ net_server)
        (host_key_of ex_host) (λ u, u) 2 (host_check ex_host) (host_store ex_host)
      = (Ok (ex_who, session_of (host_key_of ex_host)), store')
    ∧ files (store' "party") !! "b.edi" = None.
Proof.
  pose proof (session_refines 6 busy (greeting "party" (Some (Password "secret")) ++ channels_said ex_channels
                           : @TcpStream _ _ _ net_server)
    (host_key_of ex_host) (λ u, u) 2 (host_check ex_host) (host_store ex_host)
    (ex_inbox (greeting "party" (Some (Password "secret")) ++ channels_said ex_channels)) ex_who
    (session_of (host_key_of ex_host)) (ex_inbox (channels_said ex_channels))
    ex_frames [[ex_frame (RqRemove 1 "b.edi")]] eq_refl eq_refl) as Hs.
  cbv zeta in Hs.
  match type of Hs with context [session_spec ?e ?i ?fss ?d ?outs] =>
    change (session_spec e i fss d outs) with (session_spec busy 0 ex_channels ex_directory []) in Hs
  end.
  assert ((session_spec busy 0 ex_channels ex_directory []).1.1 = Ok tt) as Ho
    by (vm_compute; reflexivity).
  assert (files (session_spec busy 0 ex_channels ex_directory []).1.2 !! "b.edi" = None) as Hf
    by (vm_compute; reflexivity).
  destruct (session_spec busy 0 ex_channels ex_directory []) as [[o d'] outs].
  cbn [fst snd] in Ho, Hf. subst o.
  destruct Hs as (_ & _ & store' & Hs & Hk & _).
  - split_and!; [done| |done]. repeat constructor; vm_compute; reflexivity.
  - exact busy_wf.
  - exact ex_directory_wf.
  - repeat constructor; vm_compute; discriminate.
  - split; [unfold ex_channels; simpl; lia|]. repeat constructor; simpl; lia.
  - exists d', outs, store'. split; [reflexivity|]. split; [exact Hs|].
    change (who_user ex_who) with "party" in Hk. rewrite Hk. exact Hf.
Defined.

Lemma around_keeps n : n ≠ "other.edi" → keeps (around (env:=busy)) n.
Proof.
  intros Hn d d' [->|[i ->]]; [done|]. cbn [ex_host host_env busy snd with_files files].
  by apply lookup_insert_ne.
Qed.

Definition ex_files : list (string * Outgoing) :=
  [("b.edi", (ex_contents : Outgoing)); ("c.edi", (as_bytes "UNA" : Outgoing))].

Definition ex_dialing : @Dialing _ (near_ssh ex_host) net_keys (net_client ex_host) :=
  {| pins := (∅ : gmap string string) : @Pinned _ _ _ (net_client ex_host); wire := None |}.
Definition ex_dialed := @connect _ (near_ssh ex_host) _ (net_client ex_host) "host:22" "party"
  (Some (Password "secret")) None ex_dialing.

End Witnesses.
