(* ===== verification/Connection.v ===== *)
(** The kept connection (src/connection.rs): the line that is here, lent or
    broken, the harvest's thread that reads and tells for the arrivals of one
    receive, and an arrival's body asked of it chunk by chunk.

    The threads talk over channels.  What one thread says on a channel is the
    list of what was sent, in order; a receiver that lets go is the number of
    messages it takes ([Room]), after which a send fails, as a bounded
    channel's does once its receiver is dropped.  The harvest's thread is
    sequential and is written as the function it is, over the list of the
    requests the arrivals make; what the connection's owners do to the line
    concurrently is [Lending]. *)

From S2P Require Import Prelude RustStd Externals Reference Wire Directory FarSpec FarRefine.
From S2P Require Import FarInvariant FarWorld FarProperties Replies Client Site Session.
From S2P Require Import Connect.

Local Open Scope N_scope.

(** [transport::claim]: how files are claimed and told of, which the harvest
    asks with the site at hand. *)
Class Claims `{!TransportErrors, !Codec, !Ssh} : Type := {
  Verdict : Type;
  Taken : Type;
  taken_dropped : Taken → string;
  taken_claimed : Taken → string;
  Claiming : Type;
  claiming_take : Claiming → N → M Sftp error (list Taken);
  claiming_told : Claiming → string → option Verdict → M Sftp error unit;
}.

(** ** The line *)
Section line.
Context `{!TransportErrors, !Codec, !Ssh, !Keys, !SshClient}.

(** Where the client is. *)
Inductive Line : Type :=
  | Here (client : Client)
  | Harvesting
  | Broken.

(** Run [act] on the client while it is not lent to a harvest. *)
Definition with_line {A} (act : M Client error A) : M Line error A := fun line =>
  match line with
  | Here client => let '(o, client) := act client in (o, Here client)
  | Harvesting =>
    (Err (retryable "the connection is lent to a receive whose files await their verdict"),
     Harvesting)
  | Broken => (Err (protocol_error "the connection broke during a receive"), Broken)
  end.

(** Whether the pool keeps the connection. *)
Definition line_usable (line : Line) : bool :=
  match line with
  | Here client => client_usable client
  | Harvesting => true
  | Broken => false
  end.

(** [mem::replace(.., Harvesting)], the first lock [harvest] takes. *)
Definition lend (line : Line) : Line * Line := (line, Harvesting).
End line.
Arguments Line {_ _} : assert.

(** ** One file read for its body *)

(** How many more messages the receiver takes; no end where it stays. *)
Definition Room : Type := option nat.

Section reading.
Context `{!TransportErrors, !Codec, !Ssh}.

(** What travels to a body: a chunk, the end, or the error that ends it. *)
Definition Item : Type := outcome error (option bytes).

(** What is on its way to one body. *)
Record Chunks : Type := { sent : list Item; room : Room }.

(** [chunks.send(item)]: whether it was taken. *)
Definition send_item {S} (item : Item) : M (S * Chunks) error bool := fun '(s, c) =>
  match room c with
  | Some O => (Ok false, (s, c))
  | Some (S n) => (Ok true, (s, {| sent := sent c ++ [item]; room := Some n |}))
  | None => (Ok true, (s, {| sent := sent c ++ [item]; room := None |}))
  end.

(** The [loop] of [reading]: how it ended, [None] where the body was let go. *)
Fixpoint reading_loop (fuel : nat) (handle : string) (offset : N) :
    M (Sftp * Chunks) error (option Item) :=
  match fuel with
  | O => lift OutOfFuel
  | S fuel =>
    read ← attempt (on_sftp (read_at handle offset));
    match read with
    | inr (Some chunk) =>
      offset ← lift (u64_add offset (blen chunk));
      taken ← send_item (Ok (Some chunk));
      if taken : bool then reading_loop fuel handle offset else mret None
    | inr None => mret (Some (Ok None))
    | inl e => mret (Some (Err e))
    end
  end.

(** Read [name] to its end, or until its body is let go; the handle is closed
    either way. *)
Definition reading (fuel : nat) (name : string) : M (Sftp * Chunks) error unit :=
  opened ← attempt (on_sftp (open_for_reading name));
  match opened with
  | inl e => _ ← send_item (Err e); mret tt
  | inr handle =>
    ended ← reading_loop fuel handle 0;
    _ ← on_sftp (close handle);
    match ended with
    | Some item => _ ← send_item item; mret tt
    | None => mret tt
    end
  end.
End reading.

(** ** An arrival's body *)
Section fetch.
Context `{!TransportErrors}.

(** The file's name, and once it was asked for, what its channel still has. *)
Record Fetch : Type := { fetch_name : string; fetch_chunks : option (list Item) }.

(** The next chunk the harvest read.  [asking] is what the harvest sends in
    answer to a [Read]; [None] where it has ended. *)
Definition next_chunk (asking : string → option (list Item)) : M Fetch error (option bytes) :=
  f ← gets (λ f, f);
  chunks ← match fetch_chunks f with
           | Some chunks => mret chunks
           | None =>
             match asking (fetch_name f) with
             | Some chunks =>
               _ ← modify (λ f, {| fetch_name := fetch_name f; fetch_chunks := Some chunks |});
               mret chunks
             | None => fail (protocol_error "the receive's channel closed")
             end
           end;
  match chunks with
  | [] => fail (protocol_error "the receive's channel closed mid-read")
  | item :: chunks =>
    _ ← modify (λ f, {| fetch_name := fetch_name f; fetch_chunks := Some chunks |});
    lift item
  end.
End fetch.

(** ** The harvest's thread *)
Section harvest.
Context `{!TransportErrors, !Codec, !Ssh, !Keys, !SshClient, !Claims}.

(** What an arrival asks of its harvest. *)
Inductive Request : Type :=
  | ReadFile (name : string) (room : Room)
  | Told (claimed : string) (verdict : option Verdict)
  | Finish.

(** How a harvest's channel ended. *)
Inductive Ended : Type :=
  | Empty
  | Answered (finished : bool).

(** What the thread did that others see, in order: the claimed files it
    listed, what it sent to a body, what it answered a verdict with, the line
    it set, and the word that the client is back. *)
Inductive Said : Type :=
  | Listed (taken : outcome error (list Taken))
  | Sent (name : string) (items : list Item)
  | Done (claimed : string) (told : outcome error unit)
  | Set_line (back : bool)
  | Finished.

Definition say {S} (x : Said) : M (S * list Said) error unit := fun '(s, log) =>
  (Ok tt, (s, log ++ [x])).

(** [reading] for one request, what it sent noted. *)
Definition read_request (fuel : nat) (name : string) (r : Room) :
    M (Sftp * list Said) error unit := fun '(s, log) =>
  let '(o, (s, c)) := reading fuel name (s, {| sent := []; room := r |}) in
  (o, (s, log ++ [Sent name (sent c)])).

(** Answer what the arrivals ask, one at a time, until the last is let go:
    [true] where the last asked to be told when the client is back. *)
Fixpoint answering (fuel : nat) (claiming : Claiming) (requests : list Request) :
    M (Sftp * list Said) error bool :=
  match requests with
  | [] => mret false
  | ReadFile name r :: requests =>
    _ ← read_request fuel name r;
    answering fuel claiming requests
  | Told claimed verdict :: requests =>
    told ← attempt (on_sftp (claiming_told claiming claimed verdict));
    _ ← say (Done claimed match told with inl e => Err e | inr _ => Ok tt end);
    answering fuel claiming requests
  | Finish :: _ => mret true
  end.

(** The closure the harvest runs over its channel. *)
Definition harvest_work (fuel : nat) (claiming : Claiming) (most : N) (requests : list Request) :
    M (Sftp * list Said) error Ended :=
  taken ← on_sftp (claiming_take claiming most);
  match taken with
  | [] => mret Empty
  | _ =>
    _ ← say (Listed (Ok taken));
    finished ← answering fuel claiming requests;
    mret (Answered finished)
  end.

(** The harvest's thread: what was said, and the line it leaves; the line
    stays lent where the thread panics. *)
Definition harvesting (fuel : nat) (claiming : Claiming) (most : N) (requests : list Request)
    (client : Client) : list Said * Line :=
  let '(harvested, (client, said)) :=
    with_subsystem_in (harvest_work fuel claiming most requests) (client, []) in
  match harvested with
  | Ok ended =>
    let said := said ++ [Set_line true] in
    (match ended with
     | Empty => said ++ [Listed (Ok [])]
     | Answered true => said ++ [Finished]
     | Answered false => said
     end, Here client)
  | Err e => (said ++ [Set_line false; Listed (Err e)], Broken)
  | Panic | OutOfFuel => (said, Harvesting)
  end.

(** ** A receive's harvest *)

(** [transport::Arrived], as the harvest makes it: its origin, the body that
    reads the claimed file, and the name it was dropped under. *)
Record Arrival : Type := {
  arrival_origin : string;
  arrival_body : Fetch;
  arrival_file_name : string;
}.

Definition arrivals (origin : string → string) (taken : list Taken) : list Arrival :=
  (λ t, {| arrival_origin := origin (taken_dropped t);
           arrival_body := {| fetch_name := taken_claimed t; fetch_chunks := None |};
           arrival_file_name := taken_dropped t |}) <$> taken.

(** [taken.recv()]: the first the thread listed. *)
Fixpoint first_listed (said : list Said) : outcome error (list Taken) :=
  match said with
  | [] => Err (protocol_error "the harvest ended before it listed")
  | Listed taken :: _ => taken
  | _ :: said => first_listed said
  end.

(** List and claim at most [most] of the directory, and hand back each claimed
    file.  [started] says whether the thread started, and why not; [requests]
    are what the arrivals ask of it until the last is let go.  The line is the
    one the harvest leaves once it ended. *)
Definition harvest (fuel : nat) (origin : string → string) (claiming : Claiming) (most : N)
    (started : option error) (requests : list Request) : M Line error (list Arrival) := fun line =>
  let '(lent, line) := lend line in
  match lent with
  | Here client =>
    match started with
    | Some e => (Err e, line)
    | None =>
      let '(said, line) := harvesting fuel claiming most requests client in
      (taken ← first_listed said; mret (arrivals origin taken), line)
    end
  | found => with_line (mret []) found
  end.
End harvest.

(** ** The line among its owners

    Threads, each holding what it holds: one that has found the line lent or
    broken, and is about to put back what it found ([Restoring], between the
    two locks [harvest] takes), and a harvest's thread ([Running]).  [done
    with] a client leaves another: the connection after the work. *)
Section lending.
Context `{!TransportErrors, !Codec, !Ssh, !Keys, !SshClient}.

Inductive Thread : Type :=
  | Restoring (found : Line)
  | Running (client : Client).

Record Lending : Type := { line : Line; threads : list Thread }.

Definition is_here (l : Line) : bool := match l with Here _ => true | _ => false end.

(** A step is [calm] where nobody asks for a harvest of a line that is not
    here, every thread starts and none panics. *)

(** [Connection::with]: on a client that is here; any other line it leaves. *)
Inductive with_step : bool → Lending → Lending → Prop :=
  | step_with c c' ts :
    with_step true {| line := Here c; threads := ts |} {| line := Here c'; threads := ts |}
  | step_refused l ts :
    is_here l = false →
    with_step true {| line := l; threads := ts |} {| line := l; threads := ts |}.

(** [Connection::harvest], up to its thread. *)
Inductive take_step : bool → Lending → Lending → Prop :=
  (** It takes the client and starts its thread. *)
  | step_lend c ts :
    take_step true {| line := Here c; threads := ts |}
              {| line := (lend (Here c)).2; threads := Running c :: ts |}
  (** It takes the client and its thread does not start: the client is dropped
      with the closure. *)
  | step_no_thread c ts :
    take_step false {| line := Here c; threads := ts |}
              {| line := (lend (Here c)).2; threads := ts |}
  (** It finds the line lent or broken, and has yet to put it back. *)
  | step_found l ts :
    is_here l = false →
    take_step false {| line := l; threads := ts |}
              {| line := (lend l).2; threads := Restoring (lend l).1 :: ts |}
  (** It puts back what it found. *)
  | step_restore l found ts1 ts2 :
    take_step true {| line := l; threads := ts1 ++ Restoring found :: ts2 |}
              {| line := found; threads := ts1 ++ ts2 |}.

(** The end of [harvesting]. *)
Inductive give_step : bool → Lending → Lending → Prop :=
  (** The thread gives the client back. *)
  | step_back l c c' ts1 ts2 :
    give_step true {| line := l; threads := ts1 ++ Running c :: ts2 |}
              {| line := Here c'; threads := ts1 ++ ts2 |}
  (** Its connection broke. *)
  | step_broke l c ts1 ts2 :
    give_step true {| line := l; threads := ts1 ++ Running c :: ts2 |}
              {| line := Broken; threads := ts1 ++ ts2 |}
  (** It panics, which drops the client. *)
  | step_died l c ts1 ts2 :
    give_step false {| line := l; threads := ts1 ++ Running c :: ts2 |}
              {| line := l; threads := ts1 ++ ts2 |}.

(** What the owners of one shared line do to it. *)
Inductive lending_step (calm : bool) (w w' : Lending) : Prop :=
  | by_with : with_step calm w w' → lending_step calm w w'
  | by_harvest : take_step calm w w' → lending_step calm w w'
  | by_thread : give_step calm w w' → lending_step calm w w'.

(** Any number of steps, calm or not. *)
Definition lending (w w' : Lending) : Prop := rtc (λ a b, ∃ calm, lending_step calm a b) w w'.

Definition new_line (c : Client) : Lending := {| line := Here c; threads := [] |}.
End lending.
