(* ===== verification/Unpanicking.v ===== *)
(** No reply makes the client panic.  The server at the other end of a
    channel is anyone's: what it sends is whatever the channel's reads give,
    so every operation of the client (src/subsystem.rs, src/site.rs,
    src/client.rs, src/connection.rs) is run here over a channel about which
    nothing is known but that its operations answer a value or an error, as
    the ssh crate's do. *)

From S2P Require Import Prelude RustStd Externals Safely Reference Wire Directory FarSpec FarRefine.
From S2P Require Import FarInvariant FarWorld FarProperties Replies Client Site Session.
From S2P Require Import Contract Loopback ClientProperties Connect ConnectProperties Connection.

Local Open Scope N_scope.

Section client.
Context `{!Platform, !TransportErrors, !Codec, !CodecLaws, !Ssh, !Outgoings}.

(** What the ssh crate's channel answers: a value or an error, and a read of
    [n] bytes exactly as many. *)
Class ChannelAnswers : Prop := {
  write_answers b : unpanicking (channel_write b);
  read_exact_answers n : safely (λ b, blen b = n) (channel_read_exact n);
  close_answers : unpanicking channel_close;
  open_answers name : unpanicking (channel_open name);
}.
Context `{!ChannelAnswers}.

Lemma safely_channel {A} (P : A → Prop) (m : M Channel error A) :
  safely P m → safely P (with_channel m).
Proof.
  intros Hm s. specialize (Hm (channel s)). unfold with_channel.
  by destruct (m (channel s)) as [o c].
Qed.

Lemma id_unpanicking : unpanicking id.
Proof. by intros s. Qed.
Lemma send_unpanicking kind body : unpanicking (send kind body).
Proof. apply safely_channel, write_answers. Qed.

(** Four bytes are asked for and four come, so the length is there. *)
Lemma recv_unpanicking : unpanicking recv.
Proof.
  eapply safely_bind; [apply safely_channel, read_exact_answers|]. intros len Hlen.
  destruct len as [|b0 [|b1 [|b2 [|b3 [|]]]]]; unfold blen in Hlen; simpl in Hlen; try lia.
  eapply (safely_bind (λ _, True)); [by apply safely_ret|]. intros n _.
  eapply (safely_bind (λ _, True)).
  { eapply safely_weaken; [apply safely_channel, read_exact_answers|done]. }
  intros body _. unpanicking.
Qed.
Hint Resolve id_unpanicking send_unpanicking recv_unpanicking : unpanicking.

Lemma request_unpanicking kind body what : unpanicking (request kind body what).
Proof. unfold request. unpanicking. Qed.
Lemma status_of_unpanicking kind body what : unpanicking (status_of kind body what).
Proof. unfold status_of. unpanicking. Qed.
Lemma expect_handle_unpanicking : unpanicking expect_handle.
Proof. unfold expect_handle. unpanicking. Qed.
Hint Resolve request_unpanicking status_of_unpanicking expect_handle_unpanicking : unpanicking.

Lemma open_unpanicking name flags : unpanicking (open name flags).
Proof. unfold open. unpanicking. Qed.
Lemma close_unpanicking handle : unpanicking (close handle).
Proof. unfold close. unpanicking. Qed.
Hint Resolve open_unpanicking close_unpanicking : unpanicking.
Lemma open_for_reading_unpanicking name : unpanicking (open_for_reading name).
Proof. apply open_unpanicking. Qed.
Hint Resolve open_for_reading_unpanicking : unpanicking.

(** *** Requests of one reply *)
Lemma remove_unpanicking name : unpanicking (remove name).
Proof. unfold remove. unpanicking. Qed.
Lemma write_at_unpanicking handle offset chunk : unpanicking (write_at handle offset chunk).
Proof. unfold write_at. unpanicking. Qed.
Lemma rename_status_unpanicking from to : unpanicking (rename_status from to).
Proof. unfold rename_status. unpanicking. Qed.
Lemma removed_unpanicking name : unpanicking (removed name).
Proof. unfold removed. unpanicking. Qed.
Lemma stat_unpanicking name : unpanicking (stat name).
Proof. unfold stat. unpanicking. Qed.
Lemma create_exclusive_unpanicking name contents : unpanicking (create_exclusive name contents).
Proof. unfold create_exclusive. unpanicking. Qed.
Hint Resolve remove_unpanicking write_at_unpanicking rename_status_unpanicking : unpanicking.
Hint Resolve removed_unpanicking stat_unpanicking create_exclusive_unpanicking : unpanicking.

(** A chunk is a string of the reply, so its length is a [u32]. *)
Lemma read_at_safely handle offset :
  safely (λ r, match r with Some chunk => blen chunk ≤ u32_max | None => True end)
         (read_at handle offset).
Proof.
  unfold read_at. eapply safely_bind; [apply id_unpanicking|]. intros n _. cbv zeta.
  eapply safely_bind; [apply send_unpanicking|]. intros _ _.
  eapply safely_bind; [apply recv_unpanicking|]. intros [kind body] _.
  destruct (kind =? DATA); [|destruct (kind =? STATUS); [|apply safely_fail]].
  - eapply safely_bind; [apply safely_answers, read_u32_answers|]. intros [m reader] _.
    eapply (safely_bind (λ r : bytes * Cursor, blen r.1 < U32)).
    + apply safely_lift. destruct (read_string reader) as [[b c]|e| |] eqn:E; simpl; try done.
      * by apply (reads_sound _ _ _ string_reads) in E as [_ E].
      * by destruct (read_string_answers reader) as [[? E']|[? E']]; rewrite E' in E.
    + intros [b c] Hb. apply safely_ret. unfold U32, u32_max in *. simpl in Hb. lia.
  - eapply safely_bind; [apply safely_answers, code_answers|]. intros c _.
    destruct (c =? EOF); [by apply safely_ret|apply safely_fail].
Qed.
Lemma read_at_unpanicking handle offset : unpanicking (read_at handle offset).
Proof. eapply safely_weaken; [apply read_at_safely|done]. Qed.
Hint Resolve read_at_unpanicking : unpanicking.

(** *** Loops *)

(** The offset of the next WRITE is what was written before it. *)
Lemma put_pieces_unpanicking handle offset l :
  offset + blen (concat l) ≤ u64_max → unpanicking (put_pieces handle offset l).
Proof.
  revert offset. induction l as [|chunk l IH]; intros offset Hl; simpl; [by apply safely_ret|].
  simpl in Hl. rewrite blen_app in Hl.
  eapply safely_bind; [apply write_at_unpanicking|]. intros _ _.
  eapply (safely_bind (λ o, o = offset + blen chunk)).
  - apply safely_lift. unfold u64_add. by rewrite (proj2 (N.leb_le _ _)) by lia.
  - intros _ ->. apply IH. lia.
Qed.

Lemma entries_answers body : answers (entries body).
Proof. apply readers_answer. Qed.
Hint Resolve entries_answers : unpanicking.

Lemma list_loop_unpanicking fuel handle names : unpanicking (list_loop fuel handle names).
Proof.
  revert names. induction fuel as [|fuel IH]; intros names; simpl; [by apply safely_lift|].
  unpanicking.
Qed.
Lemma read_whole_unpanicking fuel handle whole : unpanicking (read_whole fuel handle whole).
Proof.
  revert whole. induction fuel as [|fuel IH]; intros whole; simpl; [by apply safely_lift|].
  unpanicking.
Qed.
Hint Resolve list_loop_unpanicking read_whole_unpanicking : unpanicking.

Lemma put_unpanicking name outgoing :
  blen (concat (outgoing_pieces CHUNK outgoing).1) ≤ u64_max → unpanicking (put name outgoing).
Proof.
  intros Hp. unfold put. eapply safely_bind; [apply open_unpanicking|]. intros handle _.
  destruct (outgoing_pieces CHUNK outgoing) as [l broken]. simpl in Hp.
  eapply safely_bind; [by apply put_pieces_unpanicking|]. intros _ _. unpanicking.
Qed.
Lemma list_files_unpanicking fuel : unpanicking (list_files fuel).
Proof. unfold list_files. unpanicking. Qed.
Lemma read_small_unpanicking fuel name : unpanicking (read_small fuel name).
Proof. unfold read_small. unpanicking. Qed.
Hint Resolve put_unpanicking list_files_unpanicking read_small_unpanicking : unpanicking.
End client.

(** ** A channel, a connection, a harvest *)
Section connection.
Context `{!Platform, !TransportErrors, !Codec, !CodecLaws, !Ssh, !Outgoings, !ChannelAnswers,
          !Keys, !SshClient, !Claims}.

Lemma start_unpanicked c : unpanicked (λ _, True) (start c).1.
Proof.
  unfold start.
  match goal with |- context [?m {| channel := c; next_id := 1 |}] =>
    assert (unpanicking m) as Hm end.
  { eapply safely_bind; [apply send_unpanicking|]. intros _ _.
    eapply safely_bind; [apply recv_unpanicking|]. intros [kind body] _.
    eapply (safely_bind (λ _, True)); [|intros version _; unpanicking].
    destruct (kind =? VERSION); [|by apply safely_ret].
    eapply safely_bind; [apply safely_answers, read_u32_answers|]. intros [n r] _.
    by apply safely_ret. }
  specialize (Hm {| channel := c; next_id := 1 |}).
  match type of Hm with unpanicked _ ?x.1 => destruct x as [[a|e| |] s] end; simpl in *; done.
Qed.

Lemma safely_on_sftp {L A} (P : A → Prop) (m : M Sftp error A) :
  safely P m → safely P (on_sftp m : M (Sftp * L) error A).
Proof. intros Hm [s l]. specialize (Hm s). simpl. by destruct (m s). Qed.

Lemma with_subsystem_in_unpanicking {L A} (work : M (Sftp * L) error A) :
  unpanicking work → unpanicking (with_subsystem_in work).
Proof.
  intros Hwork [conn l]. unfold with_subsystem_in.
  pose proof (open_answers SUBSYSTEM conn) as Ho.
  destruct (channel_open SUBSYSTEM conn) as [[c|e| |] conn']; try done.
  pose proof (start_unpanicked c) as Hst. destruct (start c) as [[sftp|e| |] c']; try done.
  specialize (Hwork (sftp, l)). destruct (work (sftp, l)) as [[a|e| |] [s l']]; try done.
  pose proof (close_answers (channel s)) as Hc.
  by destruct (channel_close (channel s)) as [[u|e| |] c''].
Qed.

Lemma with_subsystem_unpanicking {A} (work : M Sftp error A) :
  unpanicking work → unpanicking (with_subsystem work).
Proof.
  intros Hwork conn. unfold with_subsystem.
  pose proof (with_subsystem_in_unpanicking (on_sftp work : M (Sftp * unit) error A)
                (safely_on_sftp _ _ Hwork) (conn, tt)) as Hin.
  by destruct (with_subsystem_in _ _) as [o [c []]].
Qed.

(** *** A file read for its body *)
Lemma send_item_unpanicking {S} item : unpanicking (send_item item : M (S * Chunks) error bool).
Proof. intros [s c]. unfold send_item. by destruct (room c) as [[|n]|]. Qed.
Hint Resolve send_item_unpanicking : unpanicking.

(** Each chunk moves the offset by a [u32] at the most. *)
Lemma reading_loop_unpanicking fuel handle offset :
  offset + N.of_nat fuel * u32_max ≤ u64_max → unpanicking (reading_loop fuel handle offset).
Proof.
  revert offset. induction fuel as [|fuel IH]; intros offset Hf; simpl; [by apply safely_lift|].
  eapply safely_bind; [apply safely_attempt, safely_on_sftp, read_at_safely|].
  intros [e|[chunk|]] Hchunk; [by apply safely_ret| |by apply safely_ret].
  eapply (safely_bind (λ o, o = offset + blen chunk)).
  - apply safely_lift. unfold u64_add. by rewrite (proj2 (N.leb_le _ _)) by lia.
  - intros _ ->. eapply safely_bind; [apply send_item_unpanicking|]. intros [] _.
    + apply IH. lia.
    + by apply safely_ret.
Qed.

(** As many replies as no file has chunks. *)
Definition most_turns : N := U32.

Lemma reading_unpanicking fuel name :
  N.of_nat fuel ≤ most_turns → unpanicking (reading fuel name).
Proof.
  intros Hf. unfold reading.
  eapply (safely_bind (λ _, True)).
  { eapply safely_weaken; [apply safely_attempt, safely_on_sftp, open_for_reading_unpanicking|done]. }
  intros [e|handle] _; [unpanicking|].
  eapply safely_bind.
  - apply reading_loop_unpanicking. unfold most_turns, U32, u32_max, u64_max in *. lia.
  - intros ended _. eapply safely_bind; [apply safely_on_sftp, close_unpanicking|].
    intros _ _. unpanicking.
Qed.

(** *** The harvest *)

(** A claim that does not panic, over any channel. *)
Class ClaimsAnswer : Prop := {
  take_unpanicking claiming most : unpanicking (claiming_take claiming most);
  told_unpanicking claiming name verdict : unpanicking (claiming_told claiming name verdict);
}.

Lemma harvest_work_unpanicking `{!ClaimsAnswer} fuel claiming most requests :
  N.of_nat fuel ≤ most_turns → unpanicking (harvest_work fuel claiming most requests).
Proof.
  intros Hf. unfold harvest_work.
  eapply safely_bind; [apply safely_on_sftp, take_unpanicking|].
  intros [|t ts] _; [by apply safely_ret|].
  eapply (safely_bind (λ _, True)); [by intros [s log]|]. intros _ _.
  eapply (safely_bind (λ _, True)); [|intros f _; by apply safely_ret].
  induction requests as [|[name r|claimed verdict|] requests IH]; simpl; try by apply safely_ret.
  - eapply (safely_bind (λ _, True)); [|intros _ _; apply IH].
    intros [s log]. unfold read_request.
    pose proof (reading_unpanicking fuel name Hf (s, {| sent := []; room := r |})) as Hr.
    by destruct (reading _ _ _) as [o [s' c]].
  - eapply (safely_bind (λ _, True)).
    { eapply safely_weaken; [apply safely_attempt, safely_on_sftp, told_unpanicking|done]. }
    intros told _. eapply (safely_bind (λ _, True)); [by intros [s log]|]. intros _ _. apply IH.
Qed.

(** *** Connecting *)

(** What connecting asks of the socket, the ssh crate and the pins. *)
Class DialAnswers : Prop := {
  tcp_answers address t : answers (connect_tcp address t);
  settle_answers stream t : answers (settle stream t);
  conn_of_answers stream : answers (conn_of stream);
  banner_answers : unpanicking client_banner;
  kex_answers peer : unpanicking (kex_client peer);
  parse_answers blob : answers (public_key_parse blob);
  hold_answers name key : unpanicking (pins_hold name key);
  service_answers : unpanicking request_service;
  password_answers user secret : unpanicking (userauth_password user secret);
  public_key_answers user key session : unpanicking (userauth_public_key user key session);
  none_answers user : unpanicking (userauth_none user);
}.

(** A connection is there. *)
Definition connected (d : Dialing) : Prop := is_Some (wire d).

(** [m] keeps the connection it has and does not panic on it. *)
Definition on_connection {A} (m : M Dialing error A) : Prop := keeping connected (λ _, True) m.

Lemma on_connection_wire {A} (m : M Conn error A) : unpanicking m → on_connection (on_wire m).
Proof.
  intros Hm d [c Hd]. unfold on_wire. rewrite Hd. specialize (Hm c).
  destruct (m c) as [o c']. split; [done|]. by eexists.
Qed.

Lemma on_connection_pins {A} (m : M Pinned error A) : unpanicking m → on_connection (on_pins m).
Proof.
  intros Hm d [c Hd]. unfold on_pins. specialize (Hm (pins d)).
  destruct (m (pins d)) as [o p]. split; [done|]. by exists c.
Qed.

Lemma on_connection_lift {A} (o : outcome error A) : answers o → on_connection (lift o).
Proof. intros Ho d Hd. split; [by apply answers_unpanicked|done]. Qed.

Lemma dialed_unpanicking {A} (conn : Conn) (m : M Dialing error A) :
  on_connection m → unpanicking (_ ← dialed conn; m).
Proof. intros Hm d. apply (Hm {| pins := pins d; wire := Some conn |}). by eexists. Qed.

Context `{!DialAnswers}.

Lemma exchange_unpanicking : unpanicking exchange.
Proof.
  eapply safely_bind; [apply banner_answers|]. intros peer _. apply kex_answers.
Qed.

Lemma authenticate_unpanicking user credential session :
  unpanicking (authenticate user credential session).
Proof.
  eapply safely_bind; [apply service_answers|]. intros _ _.
  destruct credential as [[secret|key]|];
    [apply password_answers|apply public_key_answers|apply none_answers].
Qed.

Lemma connect_unpanicking address user credential timeout :
  unpanicking (connect address user credential timeout).
Proof.
  eapply safely_bind; [apply safely_answers, tcp_answers|]. intros stream _.
  eapply safely_bind; [apply safely_answers, settle_answers|]. intros _ _.
  eapply safely_bind; [apply safely_answers, conn_of_answers|]. intros conn _.
  apply dialed_unpanicking.
  eapply keeping_bind; [apply on_connection_wire, exchange_unpanicking|]. intros exchanged _.
  eapply keeping_bind; [apply on_connection_lift, parse_answers|]. intros host _.
  eapply keeping_bind; [apply on_connection_pins, hold_answers|]. intros _ _.
  eapply keeping_bind; [apply on_connection_wire, authenticate_unpanicking|]. intros _ _.
  intros d' [c Hd']. unfold wired. rewrite Hd'. split; [done|]. by eexists.
Qed.

(** ** The claim's site *)
Lemma site_delete_unpanicking name : unpanicking (site_delete name).
Proof. unfold site_delete. unpanicking. apply removed_unpanicking. Qed.

Lemma site_restore_unpanicking claimed dropped : unpanicking (site_restore claimed dropped).
Proof.
  unfold site_restore. unpanicking; first [apply rename_status_unpanicking|apply stat_unpanicking].
Qed.

Lemma site_rename_unpanicking from to : unpanicking (site_rename from to).
Proof. unfold site_rename. unpanicking. apply rename_status_unpanicking. Qed.

Lemma site_turns_unpanicking is_turn fuel : unpanicking (site_turns is_turn fuel).
Proof. unfold site_turns, site_listed. unpanicking. apply list_files_unpanicking. Qed.

Lemma site_holder_unpanicking fuel turn : unpanicking (site_holder fuel turn).
Proof. unfold site_holder. unpanicking. apply read_small_unpanicking. Qed.

(** ** Whatever a server sends *)

(** C26: no server makes the client panic.  Whatever bytes the other end of a
    channel sends, in answer to whatever it is asked, and whatever the login
    before it answers: connecting, putting a body a [u64] can count, listing,
    every request of the claim's site and the reading of a file of at most
    2^32 chunks end in a value or an error, or go on while the server does;
    none indexes what is not there, unwraps what did not come, or overflows
    an offset.  So the harvest's thread always comes to put the line back,
    here or broken, and never leaves the connection lent to nobody. *)
Theorem client_never_panics `{!ClaimsAnswer} :
  (∀ address user credential timeout, unpanicking (connect address user credential timeout))
  ∧ (∀ name outgoing, blen (concat (outgoing_pieces CHUNK outgoing).1) ≤ u64_max →
      unpanicking (client_put name outgoing))
  ∧ (∀ fuel, unpanicking (list_files fuel))
  ∧ (∀ is_turn fuel, unpanicking (site_turns is_turn fuel))
  ∧ (∀ name, unpanicking (site_stamp name))
  ∧ (∀ turn claimant, unpanicking (site_take_turn turn claimant))
  ∧ (∀ fuel turn, unpanicking (site_holder fuel turn))
  ∧ (∀ from to, unpanicking (site_rename from to))
  ∧ (∀ claimed dropped, unpanicking (site_restore claimed dropped))
  ∧ (∀ name, unpanicking (site_delete name))
  ∧ (∀ fuel name, N.of_nat fuel ≤ most_turns → unpanicking (reading fuel name))
  ∧ (∀ fuel claiming most requests client, N.of_nat fuel ≤ most_turns →
      (with_subsystem_in (harvest_work fuel claiming most requests) (client, [])).1 = OutOfFuel
      ∨ (harvesting fuel claiming most requests client).2 ≠ Harvesting).
Proof.
  split_and!.
  - apply connect_unpanicking.
  - intros name outgoing Hp. by apply with_subsystem_unpanicking, put_unpanicking.
  - apply list_files_unpanicking.
  - apply site_turns_unpanicking.
  - apply stat_unpanicking.
  - intros turn claimant. apply create_exclusive_unpanicking.
  - apply site_holder_unpanicking.
  - apply site_rename_unpanicking.
  - apply site_restore_unpanicking.
  - apply site_delete_unpanicking.
  - apply reading_unpanicking.
  - intros fuel claiming most requests client Hf. unfold harvesting.
    pose proof (with_subsystem_in_unpanicking _
      (harvest_work_unpanicking fuel claiming most requests Hf) (client, [])) as Hw.
    destruct (with_subsystem_in _ _) as [[ended|e| |] [c said]]; simpl in *; try done;
      [by right|by right|by left].
Qed.
End connection.

(** ** Witnesses *)
Module Witnesses.
Import Reference.Instances Loopback.Instances.

(** A server that sends what it has decided to send, whatever it is asked. *)
Definition scripted_read (n : N) : M bytes error bytes := fun script =>
  if n <=? blen script
  then (Ok (take (N.to_nat n) script), drop (N.to_nat n) script)
  else (Err (retryable "the connection closed"), script).

Definition scripted_ssh : Ssh := {|
  Conn := bytes;
  Channel := bytes;
  channel_open _ := λ script, (Ok script, script);
  channel_conn script := script;
  channel_write _ := mret tt;
  channel_read_exact := scripted_read;
  channel_read_frame := mret None;
  channel_close := mret tt;
|}.
#[local] Existing Instance scripted_ssh | 0.

Definition scripted_client : SshClient := {|
  Stream := bytes;
  connect_tcp _ _ := Ok (byte_of_N <$> [0; 0; 0; 1; 102; 255; 255; 255; 255]);
  settle _ _ := Ok tt;
  conn_of script := Ok (script : @Conn _ scripted_ssh);
  client_banner := mret [];
  Exchange := string;
  kex_client _ := mret "the host key";
  host_key := as_bytes;
  exchange_session := as_bytes;
  PublicKey := bytes;
  public_key_parse b := Ok b;
  fingerprint b := "SHA256:" +:+ String.string_of_list_byte b;
  request_service := mret tt;
  userauth_password _ _ := mret tt;
  userauth_public_key _ _ _ := mret tt;
  userauth_none _ := mret tt;
  Pinned := gmap string string;
  pins_hold := ConnectProperties.Witnesses.ref_hold;
  alive _ := true;
|}.

(** A claim that takes every file as it lies and removes it. *)
Definition scripted_claims : @Claims _ _ scripted_ssh := {|
  Verdict := unit;
  Taken := string;
  taken_dropped name := name;
  taken_claimed name := name;
  Claiming := unit;
  claiming_take _ _ := (l ← list_files 4; mret l.*1);
  claiming_told _ name _ := site_delete name;
|}.

#[local] Instance scripted_answers : @ChannelAnswers _ scripted_ssh.
Proof.
  constructor; [by intros ??| |by intros ?|by intros ??].
  intros n script. cbn. unfold scripted_read. destruct (N.leb_spec n (blen script)); [|done].
  cbn. unfold blen in *. rewrite length_take. lia.
Qed.

#[local] Instance scripted_dial : @DialAnswers _ scripted_ssh ref_keys scripted_client.
Proof.
  constructor; try (intros; apply answers_ok); try done.
  intros name key p. cbn. unfold ConnectProperties.Witnesses.ref_hold. by repeat case_match.
Qed.

#[local] Instance scripted_claims_answer : @ClaimsAnswer _ _ scripted_ssh scripted_claims.
Proof.
  constructor.
  - intros claiming most. cbn.
    eapply safely_bind; [exact (@list_files_unpanicking _ _ _ scripted_ssh _ 4)|].
    intros l _. by apply safely_ret.
  - intros claiming name verdict. exact (@site_delete_unpanicking _ _ _ scripted_ssh _ name).
Qed.

(** A name list that claims 255 entries and holds none. *)
Definition ex_script : bytes := byte_of_N <$>
  [0; 0; 0; 5; 2; 0; 0; 0; 3; 0; 0; 0; 10; 102; 0; 0; 0; 1; 0; 0; 0; 1; 104;
   0; 0; 0; 9; 104; 0; 0; 0; 2; 0; 0; 0; 255].

Lemma client_never_panics_witness :
  (@harvesting _ _ scripted_ssh scripted_claims 2 tt 8 [] ex_script).2
  ≠ Harvesting.
Proof.
  destruct (proj2 (proj2 (proj2 (proj2 (proj2 (proj2 (proj2 (proj2 (proj2 (proj2 (proj2
    (@client_never_panics _ _ _ scripted_ssh held_outgoings _ ref_keys _ scripted_claims
       scripted_dial _)))))))))))
    2%nat tt 8 [] ex_script) as [Hl|Hl]; [vm_compute; discriminate|vm_compute in Hl; discriminate|done].
Defined.
End Witnesses.
