(* ===== verification/ConnectionProperties.v ===== *)
(** The properties of the kept connection: where the client is and how it can
    be lost, what a body is sent, and what a harvest says, in which order. *)

From S2P Require Import Prelude RustStd Externals Reference Wire Directory FarSpec FarRefine.
From S2P Require Import FarInvariant FarWorld FarProperties Replies Client Site Session.
From S2P Require Import Contract Loopback ClientProperties Connect ConnectProperties Connection.

Local Open Scope N_scope.

(** ** Who has the client *)
Section lending.
Context `{!TransportErrors, !Codec, !Ssh, !Keys, !SshClient}.

Definition holds (t : Thread) : bool := match t with Running _ => true | Restoring _ => false end.

(** How many have a client: the line, and each harvest's thread. *)
Definition holders (w : Lending) : nat :=
  (if is_here (line w) then 1 else 0) + length (List.filter holds (threads w)).

(** C37: a client lent comes back.  While no harvest is asked of a line that is
    not here, every thread starts and none panics, the line is the client's,
    or is lent to exactly one harvest that has it, or a harvest's connection
    broke and nobody has it. *)
Theorem client_kept c w :
  rtc (lending_step true) (new_line c) w →
  (∃ c', line w = Here c' ∧ threads w = [])
  ∨ (line w = Harvesting ∧ ∃ c', threads w = [Running c'])
  ∨ (line w = Broken ∧ threads w = []).
Proof.
  intros Hw. remember (new_line c) as w0 eqn:Hw0.
  assert ((∃ c', line w0 = Here c' ∧ threads w0 = [])
    ∨ (line w0 = Harvesting ∧ ∃ c', threads w0 = [Running c'])
    ∨ (line w0 = Broken ∧ threads w0 = [])) as Hinv by (subst; left; by eexists).
  clear Hw0. induction Hw as [|w1 w2 w3 Hs _ IH]; [done|]. apply IH. clear IH.
  destruct Hs as [Hs|Hs|Hs]; inversion Hs; subst; cbn [line threads lend snd] in *;
    destruct Hinv as [(c1 & ? & Hts)|[(? & c1 & Hts)|(? & Hts)]]; simplify_eq; eauto;
    try (by apply app_nil in Hts as [_ [=]]);
    apply app_singleton in Hts as [[-> [= ? ->]]|[_ [=]]]; simplify_eq; eauto 10.
Qed.

(** C28: a harvest asked of a line that is lent can lose the client.  Where it
    finds the line lent, and the harvest that has the client gives it back
    before the other has put back what it found, the client is dropped: the
    line says it is lent, nobody has the client, and so it stays whatever is
    done after — every use is refused, and the pool is told the connection is
    usable. *)
Theorem restore_loses_client c :
  ∃ w, lending (new_line c) w ∧ holders w = O ∧
    ∀ w', lending w w' → line w' = Harvesting ∧ holders w' = O ∧ line_usable (line w') = true
      ∧ ∀ A (act : M Client error A), ∃ e, with_line act (line w') = (Err e, Harvesting).
Proof.
  exists {| line := Harvesting; threads := [] |}. split; [|split; [done|]].
  - eapply rtc_l; [exists true; apply by_harvest, (step_lend c [])|].
    eapply rtc_l; [exists false; by apply by_harvest, (step_found Harvesting [Running c])|].
    eapply rtc_l; [exists true; apply by_thread, (step_back Harvesting c c [Restoring Harvesting] [])|].
    apply rtc_once. exists true. apply by_harvest, (step_restore (Here c) Harvesting [] []).
  - intros w' Hw. assert (line w' = Harvesting ∧ Forall (eq (Restoring Harvesting)) (threads w'))
      as [Hl Ht].
    { remember {| line := Harvesting; threads := [] |} as w0 eqn:Hw0.
      assert (line w0 = Harvesting ∧ Forall (eq (Restoring Harvesting)) (threads w0)) as Hinv
        by (by subst; split; [|apply Forall_nil]).
      clear Hw0. induction Hw as [|w1 w2 w3 [calm Hs] _ IH]; [done|]. apply IH.
      destruct Hinv as [Hl Ht]. destruct Hs as [Hs|Hs|Hs]; inversion Hs; subst; cbn [line threads lend fst snd] in *;
        rewrite ?Forall_app, ?Forall_cons in *; naive_solver. }
    rewrite Hl. split; [done|]. split.
    + unfold holders. rewrite Hl. simpl. clear Hl Hw. induction Ht as [|t ts <- _ IH]; [done|].
      exact IH.
    + split; [done|]. intros A act. by eexists.
Qed.
End lending.

(** ** What a body is sent *)
Section reading.
Context `{!Platform, !TransportErrors, !Codec, !CodecLaws, !Net, !NetLaws, !Ssh, !Keys, !SshClient}.
Context {R : relation Directory} `{!Served R}.

(** What a receiver that takes [r] more messages is sent of [items]. *)
Definition taking (r : Room) (items : list Item) : list Item :=
  match r with Some n => take n items | None => items end.

Definition less (r : Room) (n : nat) : Room :=
  match r with Some k => Some (k - n)%nat | None => None end.

Lemma send_item_some {S} item (s : S) l r :
  (∀ n, r = Some n → n ≠ O) →
  send_item item (s, {| sent := l; room := r |})
  = (Ok true, (s, {| sent := l ++ [item]; room := less r 1 |})).
Proof. intros Hr. destruct r as [[|n]|]; [by destruct (Hr O)| |done]. simpl. by rewrite Nat.sub_0_r. Qed.

Lemma send_item_last {S} item (s : S) l r :
  ∃ b r', send_item item (s, {| sent := l; room := r |})
    = (Ok b, (s, {| sent := l ++ taking r [item]; room := r' |})).
Proof.
  destruct r as [[|n]|]; simpl; rewrite ?take_nil, ?(right_id_L [] (++)); by eauto.
Qed.

Definition chunk_items (l : list bytes) : list Item := (λ p, Ok (Some p)) <$> l.

Lemma on_sftp_ok {L A} (m : M Sftp error A) s (l : L) a s' :
  m s = (Ok a, s') → on_sftp m (s, l) = (Ok a, (s', l)).
Proof. unfold on_sftp. by intros ->. Qed.

Lemma on_sftp_err {L A} (m : M Sftp error A) s (l : L) e s' :
  m s = (Err e, s') → on_sftp m (s, l) = (Err e, (s', l)).
Proof. unfold on_sftp. by intros ->. Qed.

Lemma attempt_ok {S E A} (m : M S E A) s a s' : m s = (Ok a, s') → attempt m s = (Ok (inr a), s').
Proof. unfold attempt. by intros ->. Qed.

Lemma attempt_err {S E A} (m : M S E A) s e s' : m s = (Err e, s') → attempt m s = (Ok (inl e), s').
Proof. unfold attempt. by intros ->. Qed.

(** Any bytes come in pieces of at most so many. *)
Lemma pieces_within (k : nat) (b : bytes) :
  (0 < k)%nat → ∃ l, concat l = b ∧ Forall (λ p, 0 < blen p ≤ N.of_nat k) l.
Proof.
  intros Hk. remember (length b) as n eqn:Hn. revert b Hn.
  induction (lt_wf n) as [n _ IH]. intros b ->. destruct (decide (b = [])) as [->|Hb].
  { by exists []. }
  assert (0 < length b)%nat by (by destruct b; [|simpl; lia]).
  destruct (IH (length (drop k b)) ltac:(rewrite length_drop; lia) _ eq_refl) as (l & Hc & Hl).
  exists (take k b :: l). cbn [concat]. rewrite Hc, take_drop. split; [done|].
  constructor; [|done]. unfold blen. rewrite length_take. lia.
Qed.

Lemma pieces_of (b : bytes) : ∃ l, concat l = b ∧ Forall (λ p, 0 < blen p ≤ CHUNK) l.
Proof.
  destruct (pieces_within (N.to_nat CHUNK) b) as (l & Hc & Hl); [unfold CHUNK; lia|].
  rewrite N2Nat.id in Hl. by exists l.
Qed.

Lemma take_drop_length {A} k (l : list A) : take k l ++ drop (length (take k l)) l = l.
Proof.
  rewrite length_take. destruct (Nat.le_ge_cases k (length l)).
  - by rewrite Nat.min_l, take_drop.
  - by rewrite Nat.min_r, take_ge, drop_ge, (right_id_L [] (++)).
Qed.

Lemma taking_cons r p l :
  (∀ n, r = Some n → n ≠ O) →
  taking r (chunk_items (p :: l)) = Ok (Some p) :: taking (less r 1) (chunk_items l).
Proof. destruct r as [[|n]|]; intros Hr; [by destruct (Hr O)| |done]. simpl. by rewrite Nat.sub_0_r. Qed.

(** The loop sends the rest of the file in pieces, until nobody takes them. *)
Lemma reading_loop_sends h name c fuel : ∀ offset sftp far already r,
  linked sftp far → next far < u64_max → keeps R name →
  name_short h → handles far !! h = Some (Read name) →
  files (directory far) !! name = Some c → offset ≤ blen c → blen c < offset + N.of_nat fuel →
  ∃ ended l sftp' far' r',
    reading_loop fuel h offset (sftp, {| sent := already; room := r |})
      = (Ok ended, (sftp', {| sent := already ++ taking r (chunk_items l); room := r' |}))
    ∧ linked sftp' far' ∧ handles far' = handles far ∧ next far' = next far
    ∧ still R (directory far) (directory far')
    ∧ concat l = drop (N.to_nat offset) c ∧ Forall (λ p, 0 < blen p ≤ CHUNK) l
    ∧ match ended with
      | Some item => item = Ok None ∧ r' = less r (length l)
          ∧ (∀ n, r = Some n → (length l ≤ n)%nat)
      | None => ∃ n, r = Some n ∧ (n < length l)%nat
      end.
Proof.
  induction fuel as [|fuel IH]; intros offset sftp far already r Hl Hn HR Hh Hhd Hc Ho Hf; [lia|].
  pose proof max_body_u64.
  assert (blen c ≤ MAX_BODY) by (by eapply (wf_files _ (wf_dir _ (linked_wf _ _ Hl)))).
  destruct (read_at_reads h name c offset sftp far)
    as (s1 & f1 & Hr & Hl1 & Hh1 & Hn1 & Hst1); [done..|lia|done|].
  assert (files (directory f1) !! name = Some c) as Hc1 by (by rewrite (Hst1 _ HR)).
  cbn [reading_loop].
  rewrite (bind_ok _ _ _ _ _ (attempt_ok _ _ _ _ (on_sftp_ok _ _ _ _ _ Hr))).
  destruct (N.leb_spec (blen c) offset) as [Hle|Hgt].
  { exists (Some (Ok None)), [], s1, f1, r. simpl. split.
    { destruct r as [[|]|]; simpl; by rewrite (right_id_L [] (++)). }
    do 4 (split; [done|]). split; [rewrite drop_ge; [done|unfold blen in *; lia]|].
    split; [done|]. split; [done|]. split; [destruct r; simpl; by rewrite ?Nat.sub_0_r|lia]. }
  set (p := sub c offset CHUNK) in *.
  assert (0 < blen p ≤ CHUNK) as Hp by (unfold p, CHUNK; rewrite blen_sub; lia).
  assert (p ++ drop (N.to_nat (offset + blen p)) c = drop (N.to_nat offset) c) as Hdrop.
  { rewrite N2Nat.inj_add, <- drop_drop. unfold p, sub, blen. rewrite Nat2N.id.
    apply take_drop_length. }
  unfold u64_add. rewrite (proj2 (N.leb_le _ _)) by (unfold p, u64_max; rewrite blen_sub; lia).
  rewrite lift_ok. destruct (decide (r = Some O)) as [->|Hr0].
  { destruct (pieces_of (drop (N.to_nat (offset + blen p)) c)) as (l & Hcl & Hpl).
    exists None, (p :: l), s1, f1, (Some O). split.
    { unfold taking. by rewrite take_0, (right_id_L [] (++)). }
    do 4 (split; [done|]). cbn [concat]. rewrite Hcl. split; [done|]. split; [by constructor|].
    exists O. split; [done|simpl; lia]. }
  assert (∀ n, r = Some n → n ≠ O) as Hrn by (by intros n -> ->).
  rewrite (bind_ok _ _ _ _ _ (send_item_some _ _ _ _ Hrn)).
  destruct (IH (offset + blen p) s1 f1 (already ++ [Ok (Some p)]) (less r 1))
    as (ended & l & s2 & f2 & r' & He & Hl2 & Hh2 & Hn2 & Hst2 & Hcl & Hpl & Hend);
    [done|lia|done|done|by rewrite Hh1|done| |lia|].
  { unfold p. rewrite blen_sub. lia. }
  exists ended, (p :: l), s2, f2, r'. rewrite taking_cons by done.
  rewrite <- (assoc_L (++)) in He. split; [exact He|]. split; [done|]. split; [congruence|].
  split; [congruence|]. split; [by etrans|]. cbn [concat]. rewrite Hcl. split; [done|].
  split; [by constructor|]. cbn [length]. destruct ended as [item|].
  - destruct Hend as (-> & -> & Hle). split; [done|]. split.
    + destruct r; simpl; f_equal; lia.
    + intros n ->. specialize (Hle _ eq_refl). specialize (Hrn n eq_refl). lia.
  - destruct Hend as (n & Hn' & Hlt). destruct r as [k|]; [|done]. exists k. simpl in Hn'.
    injection Hn' as <-. split; [done|]. destruct k; [done|lia].
Qed.

Lemma taking_app r l x :
  taking r (chunk_items l) ++ taking (less r (length l)) [x] = taking r (chunk_items l ++ [x]).
Proof.
  assert (length (chunk_items l) = length l) as Hl by apply length_fmap.
  destruct r as [n|]; [|done]. simpl. by rewrite take_app, Hl.
Qed.

Lemma taking_short n l x : (n < length l)%nat →
  taking (Some n) (chunk_items l) = taking (Some n) (chunk_items l ++ [x]).
Proof.
  intros Hn. assert (length (chunk_items l) = length l) as Hl by apply length_fmap.
  simpl. by rewrite take_app_le by lia.
Qed.

(** [reading] against the far end, for any receiver. *)
Lemma reading_sends name fuel r sftp far :
  linked sftp far → next far < u64_max - 1 → keeps R name → name_short name →
  MAX_BODY < N.of_nat fuel →
  ∃ items sftp' far' r',
    reading fuel name (sftp, {| sent := []; room := r |})
      = (Ok tt, (sftp', {| sent := taking r items; room := r' |}))
    ∧ linked sftp' far' ∧ handles far' = handles far ∧ next far' = next far + 1
    ∧ still R (directory far) (directory far')
    ∧ match files (directory far) !! name with
      | Some c => ∃ l, items = chunk_items l ++ [Ok None] ∧ concat l = c
          ∧ Forall (λ p, 0 < blen p ≤ CHUNK) l
      | None => ∃ e, items = [Err e]
      end.
Proof.
  intros Hl Hn HR Hname Hfuel. unfold reading.
  destruct (open_reads name sftp far) as (d & s1 & f1 & HRd & Hl1 & Hd1 & Hn1 & Ho);
    [done|lia|done|].
  pose proof (HR _ _ HRd) as Hfd. rewrite <- Hfd.
  destruct (files d !! name) as [c|] eqn:Hc.
  - destruct Ho as (h & Ho & [Hh Hs _ Hcl]).
    rewrite (bind_ok _ _ _ _ _ (attempt_ok _ _ _ _ (on_sftp_ok _ _ _ _ _ Ho))).
    assert (blen c ≤ MAX_BODY).
    { eapply (wf_files _ (wf_dir _ (linked_wf _ _ Hl1))). by rewrite Hd1. }
    destruct (reading_loop_sends h name c fuel 0 s1 f1 [] r)
      as (ended & l & s2 & f2 & r' & He & Hl2 & Hh2 & Hn2 & Hst2 & Hcat & Hpl & Hend);
      [done|lia|done|done|done|by rewrite Hd1|lia|lia|].
    destruct (closes h s2 f2) as (s3 & f3 & d3 & Hclose & Hl3 & Hn3 & Hh3 & HR3 & Hd3);
      [done|lia|done|].
    exists (chunk_items l ++ [Ok None]), s3, f3.
    rewrite (bind_ok _ _ _ _ _ He), (bind_ok _ _ _ _ _ (on_sftp_ok _ _ _ _ _ Hclose)).
    assert (still R (directory far) (directory f3)) as Hst.
    { intros m Hm. rewrite Hd3, (Hm _ _ HR3), (Hst2 _ Hm), Hd1. by apply Hm. }
    assert (next f3 = next far + 1) as Hnf by (by rewrite Hn3, Hn2).
    assert (handles f3 = handles far) as Hhf by (by rewrite Hh3, Hh2).
    destruct ended as [item|].
    + destruct Hend as (-> & -> & _).
      destruct (send_item_last (Ok None) s3 (taking r (chunk_items l)) (less r (length l)))
        as (b & r' & Hsend).
      exists r'. cbn [app]. rewrite (bind_ok _ _ _ _ _ Hsend), taking_app. by eauto 10.
    + destruct Hend as (n & -> & Hlt). exists r'. cbn [app]. rewrite (taking_short n l (Ok None)) by done.
      by eauto 10.
  - destruct Ho as (Hhf & e & Ho).
    rewrite (bind_ok _ _ _ _ _ (attempt_err _ _ _ _ (on_sftp_err _ _ _ _ _ Ho))).
    destruct (send_item_last (Err e) s1 [] r) as (b & r' & Hsend).
    exists [Err e], s1, f1, r'. rewrite (bind_ok _ _ _ _ _ Hsend). split; [done|].
    do 3 (split; [done|]). split; [by rewrite Hd1; apply still_rely|by exists e].
Qed.

(** A body is the file, to its end.  [reading] sends the file's bytes in
    order, a request's worth at a time and never an empty piece, then the
    end; or the refusal where the file is not there.  A body let go on the
    way has been sent the beginning of that, and reading stops there.  In
    every case the handle is closed and the file is as it was. *)
Theorem reading_delivers name fuel r sftp far :
  linked sftp far → next far < u64_max - 1 → keeps R name → name_short name →
  MAX_BODY < N.of_nat fuel →
  ∃ items sftp' far' r',
    reading fuel name (sftp, {| sent := []; room := r |})
      = (Ok tt, (sftp', {| sent := taking r items; room := r' |}))
    ∧ linked sftp' far' ∧ handles far' = handles far
    ∧ files (directory far') !! name = files (directory far) !! name
    ∧ match files (directory far) !! name with
      | Some c => ∃ l, items = chunk_items l ++ [Ok None] ∧ concat l = c
          ∧ Forall (λ p, 0 < blen p ≤ CHUNK) l
      | None => ∃ e, items = [Err e]
      end.
Proof.
  intros Hl Hn HR Hname Hfuel.
  destruct (reading_sends name fuel r sftp far Hl Hn HR Hname Hfuel)
    as (items & s & f & r' & Hr & Hl' & Hh & _ & Hst & Hm).
  exists items, s, f, r'. do 3 (split; [done|]). split; [by apply Hst|done].
Qed.
End reading.

(** ** An arrival's body, drained *)
Section fetch.
Context `{!TransportErrors}.

(** The body read on to its end, a chunk at a time. *)
Fixpoint drain (fuel : nat) (asking : string → option (list Item)) (body : bytes) :
    M Fetch error bytes :=
  match fuel with
  | O => lift OutOfFuel
  | S fuel =>
    next ← next_chunk asking;
    match next with
    | Some chunk => drain fuel asking (body ++ chunk)
    | None => mret body
    end
  end.

Lemma drain_items l tail asking body name fuel :
  drain (length l + fuel) asking body
    {| fetch_name := name; fetch_chunks := Some (chunk_items l ++ tail) |}
  = drain fuel asking (body ++ concat l) {| fetch_name := name; fetch_chunks := Some tail |}.
Proof.
  revert body. induction l as [|p l IH]; intros body.
  { cbn [concat]. by rewrite (right_id_L [] (++)). }
  cbn [concat]. rewrite (assoc_L (++)), <- IH. done.
Qed.

(** The first chunk asks the harvest for the file. *)
Lemma drain_asks asking body name fuel items :
  asking name = Some items →
  drain (S fuel) asking body {| fetch_name := name; fetch_chunks := None |}
  = drain (S fuel) asking body {| fetch_name := name; fetch_chunks := Some items |}.
Proof.
  intros Ha. cbn [drain]. unfold next_chunk, gets, modify, mbind, M_bind. simpl. by rewrite Ha.
Qed.

(** Drained to its end, what was sent of a file is the file. *)
Lemma drain_whole l name :
  (drain (length (chunk_items l ++ [Ok None])) (λ _, Some (chunk_items l ++ [Ok None])) []
     {| fetch_name := name; fetch_chunks := None |}).1 = Ok (concat l).
Proof.
  rewrite length_app. unfold chunk_items at 1. rewrite length_fmap, Nat.add_comm.
  cbn [length Nat.add]. rewrite (drain_asks _ _ _ _ (chunk_items l ++ [Ok None])) by done.
  by rewrite <- Nat.add_1_r, drain_items.
Qed.
End fetch.

Section arrival.
Context `{!Platform, !TransportErrors, !Codec, !CodecLaws, !Net, !NetLaws, !Ssh, !Keys, !SshClient}.
Context {R : relation Directory} `{!Served R}.

(** An arrival's body is its file.  Asked of the harvest on the first
    read and drained chunk by chunk, the body gives the claimed file byte for
    byte and then its end; where the file is no longer there it is the
    server's refusal.  The read leaves the file where it was and no handle
    open. *)
Theorem arrival_reads_file name fuel sftp far :
  linked sftp far → next far < u64_max - 1 → keeps R name → name_short name →
  MAX_BODY < N.of_nat fuel →
  ∃ c sftp' far',
    reading fuel name (sftp, {| sent := []; room := None |}) = (Ok tt, (sftp', c))
    ∧ linked sftp' far' ∧ handles far' = handles far
    ∧ files (directory far') !! name = files (directory far) !! name
    ∧ match files (directory far) !! name,
        (drain (length (sent c)) (λ _, Some (sent c)) []
           {| fetch_name := name; fetch_chunks := None |}).1 with
      | Some file, Ok body => body = file
      | None, Err _ => True
      | _, _ => False
      end.
Proof.
  intros Hl Hn HR Hname Hfuel.
  destruct (reading_sends name fuel None sftp far Hl Hn HR Hname Hfuel)
    as (items & s & f & r & Hr & Hl' & Hh & _ & Hf & Hm).
  exists {| sent := items; room := r |}, s, f. do 3 (split; [done|]).
  split; [by apply Hf|]. cbn [sent].
  destruct (files (directory far) !! name) as [c|].
  - destruct Hm as (l & -> & <- & _). by rewrite drain_whole.
  - by destruct Hm as (e & ->).
Qed.
End arrival.

(** ** What a harvest says *)
Section harvest.
Context `{!TransportErrors, !Codec, !Ssh, !Keys, !SshClient, !Claims}.

(** The answers to the arrivals, in the order they asked. *)
Definition is_answer (x : Said) : bool :=
  match x with Sent _ _ | Done _ _ => true | _ => false end.

(** Nothing yet, or the claimed files and answers after them. *)
Definition said_so_far (said : list Said) : Prop :=
  said = [] ∨ ∃ taken answers, taken ≠ [] ∧ said = Listed (Ok taken) :: answers
    ∧ Forall (λ x, is_answer x = true) answers.

Lemma answering_says fuel claiming requests : ∀ s,
  ∃ o s' said, (∀ log, answering fuel claiming requests (s, log) = (o, (s', log ++ said)))
    ∧ Forall (λ x, is_answer x = true) said ∧ (o = Ok true → Finish ∈ requests).
Proof.
  induction requests as [|[name r|claimed verdict|] requests IH]; intros s; cbn [answering].
  - exists (Ok false), s, []. split; [intros log; by rewrite (right_id_L [] (++))|done].
  - unfold mbind, M_bind, read_request.
    destruct (reading fuel name (s, {| sent := []; room := r |})) as [[[]| | |] [s1 c]];
      try (eexists _, s1, [Sent name (sent c)]; split; [done|]; split; [by constructor|done]).
    destruct (IH s1) as (o & s2 & said & Ha & Hs & Ho).
    exists o, s2, (Sent name (sent c) :: said). split; [intros log; by rewrite Ha, <- (assoc_L (++))|].
    split; [by constructor|]. intros Hf. right. auto.
  - unfold mbind, M_bind, attempt, on_sftp, say.
    destruct (claiming_told claiming claimed verdict s) as [[[]|e| |] s1]; cbv beta iota;
      try (eexists _, s1, []; split; [intros log; by rewrite (right_id_L [] (++))|];
           split; [by constructor|done]);
      destruct (IH s1) as (o & s2 & said & Ha & Hs & Ho);
      eexists o, s2, (_ :: said); (split; [intros log; by rewrite Ha, <- (assoc_L (++))|]);
      (split; [by constructor|]); intros Hf; right; auto.
  - exists (Ok true), s, []. split; [intros log; by rewrite (right_id_L [] (++))|]. split; [done|].
    intros _. left.
Qed.

(** What is said goes behind what was said before. *)
Lemma answering_log fuel claiming requests s o s' said log :
  answering fuel claiming requests (s, []) = (o, (s', said)) →
  answering fuel claiming requests (s, log) = (o, (s', log ++ said)).
Proof.
  destruct (answering_says fuel claiming requests s) as (o1 & s1 & said1 & Ha & _).
  rewrite !Ha. by intros [= -> -> ->].
Qed.

Lemma harvest_work_says fuel claiming most requests s :
  ∃ o s' said, harvest_work fuel claiming most requests (s, []) = (o, (s', said))
    ∧ match o with
      | Ok Empty => said = []
      | Ok (Answered finished) => ∃ taken answers, taken ≠ [] ∧ said = Listed (Ok taken) :: answers
          ∧ Forall (λ x, is_answer x = true) answers ∧ (finished = true → Finish ∈ requests)
      | _ => said_so_far said
      end.
Proof.
  unfold harvest_work, mbind, M_bind, on_sftp.
  destruct (claiming_take claiming most s) as [[taken|e| |] s1];
    [|eexists _, s1, []; split; [done|by left]..].
  destruct taken as [|t taken]; [by eexists _, s1, []|]. cbn [say].
  destruct (answering_says fuel claiming requests s1)
    as (o & s2 & said & Ha & Hs & Ho).
  rewrite Ha. destruct o as [finished|e| |]; eexists _, s2, _; (split; [done|]);
    [exists (t :: taken), said; naive_solver|right; exists (t :: taken), said; done..].
Qed.

(** What the harvest's thread says, and the line it leaves. *)
Lemma harvesting_says fuel claiming most requests client :
  let '(said, l) := harvesting fuel claiming most requests client in
  (∃ c, l = Here c ∧ said = [Set_line true; Listed (Ok [])])
  ∨ (∃ c taken answers (finished : bool), l = Here c ∧ taken ≠ []
      ∧ Forall (λ x, is_answer x = true) answers ∧ (finished = true → Finish ∈ requests)
      ∧ said = Listed (Ok taken) :: answers
               ++ Set_line true :: (if finished then [Finished] else []))
  ∨ (∃ e before, l = Broken ∧ said = before ++ [Set_line false; Listed (Err e)]
      ∧ said_so_far before)
  ∨ (l = Harvesting ∧ said_so_far said
      ∧ ¬ answers (with_subsystem_in (harvest_work fuel claiming most requests) (client, [])).1).
Proof.
  assert (said_so_far []) as Hnil by by left.
  unfold harvesting, with_subsystem_in.
  destruct (channel_open SUBSYSTEM client) as [[c|e| |] conn];
    [|by right; right; left; exists e, []|by right; right; right; split_and!; [| |intros [[]|[]]]..].
  destruct (start c) as [[sftp|e| |] c1];
    [|by right; right; left; exists e, []|by right; right; right; split_and!; [| |intros [[]|[]]]..].
  destruct (harvest_work_says fuel claiming most requests sftp) as (o & s1 & said & -> & Ho).
  destruct o as [ended|e| |]; [| |by right; right; right; split_and!; [| |intros [[]|[]]]..].
  - assert (said_so_far said) as Hsaid.
    { destruct ended; [by left|]. destruct Ho as (taken & answers & ? & ? & ? & _). right. eauto. }
    destruct (channel_close (channel s1)) as [[[]|e| |] c2]; cbn;
      [|by right; right; left; exists e, said
       |by right; right; right; split_and!; [| |intros [[]|[]]]..].
    destruct ended as [|finished]; [left; exists (channel_conn c2); by subst|].
    destruct Ho as (taken & answers & Ht & -> & Ha & Hf). right. left.
    exists (channel_conn c2), taken, answers, finished. do 4 (split; [done|]).
    destruct finished; simpl; by rewrite <- ?(assoc_L (++)).
  - right. right. left. by exists e, said.
Qed.

(** A harvest says everything once and in order.  The receive that waits
    is told once what was claimed, or of the error; the arrivals' answers come
    after the claimed files went out; where nothing was claimed the receive
    is told, and where the last arrival asked for the end it is told, only
    once the client is back on the line; a connection that broke is said to
    be broken before the error is.  The line is left lent where the thread
    panics and only there. *)
Theorem harvest_says fuel claiming most requests client :
  let '(said, l) := harvesting fuel claiming most requests client in
  (∃ c, l = Here c ∧ said = [Set_line true; Listed (Ok [])])
  ∨ (∃ c taken answers (finished : bool), l = Here c ∧ taken ≠ []
      ∧ Forall (λ x, is_answer x = true) answers ∧ (finished = true → Finish ∈ requests)
      ∧ said = Listed (Ok taken) :: answers
               ++ Set_line true :: (if finished then [Finished] else []))
  ∨ (∃ e before, l = Broken ∧ said = before ++ [Set_line false; Listed (Err e)]
      ∧ said_so_far before)
  ∨ (l = Harvesting ∧ said_so_far said
      ∧ ¬ answers (with_subsystem_in (harvest_work fuel claiming most requests) (client, [])).1).
Proof. apply harvesting_says. Qed.

Lemma arrivals_hand_back origin taken :
  Forall2 (λ t a, arrival_origin a = origin (taken_dropped t)
    ∧ arrival_file_name a = taken_dropped t
    ∧ fetch_name (arrival_body a) = taken_claimed t) taken (arrivals origin taken).
Proof. induction taken; by constructor. Qed.

(** A receive is handed what was claimed.  A harvest hands back one
    arrival for each file the claim took, with the dropped name for its origin
    and its file name and a body that reads the claimed file; nothing where
    nothing was claimed, with the client back; an error where the thread did
    not start or the harvest broke first.  Of a line that is lent or broken it
    is an error that leaves the line as it was. *)
Theorem harvest_hands_back fuel origin claiming most started requests line :
  let '(o, line') := harvest fuel origin claiming most started requests line in
  match line with
  | Here client =>
    (is_Some started ∧ (∃ e, o = Err e) ∧ line' = Harvesting)
    ∨ (o = Ok [] ∧ ∃ c, line' = Here c)
    ∨ (∃ taken, taken ≠ [] ∧ o = Ok (arrivals origin taken)
        ∧ Forall2 (λ t a, arrival_origin a = origin (taken_dropped t)
            ∧ arrival_file_name a = taken_dropped t
            ∧ fetch_name (arrival_body a) = taken_claimed t) taken (arrivals origin taken))
    ∨ (∃ e, o = Err e ∧ is_here line' = false)
  | _ => line' = line ∧ ∃ e, o = Err e
  end.
Proof.
  destruct line as [client| |]; cbn; [|by split; [|eexists]..].
  destruct started as [e|]; [left; eauto|].
  pose proof (harvesting_says fuel claiming most requests client) as Hsaid.
  destruct (harvesting fuel claiming most requests client) as [said l].
  destruct Hsaid as [(c & -> & ->)|[(c & taken & answers & f & -> & Ht & _ & _ & ->)|
    [(e & before & -> & -> & Hb)|(-> & Hb & _)]]].
  - right. left. by split; [|exists c].
  - right. right. left. exists taken. eauto using arrivals_hand_back.
  - destruct Hb as [->|(taken & answers & Ht & -> & _)]; [right; right; right; by exists e|].
    right. right. left. exists taken. eauto using arrivals_hand_back.
  - destruct Hb as [->|(taken & answers & Ht & -> & _)]; [right; right; right; by eexists|].
    right. right. left. exists taken. eauto using arrivals_hand_back.
Qed.
End harvest.

(** ** Witnesses *)
Module Witnesses.
Import Reference.Instances Loopback.Instances FarProperties.Witnesses ClientProperties.Witnesses.
Import ConnectProperties.Witnesses.
#[local] Existing Instance loop_client.

Definition ex_harvest : Lending := {| line := Harvesting; threads := [Running ex_conn] |}.

Lemma client_kept_witness :
  (∃ c', line ex_harvest = Here c' ∧ threads ex_harvest = [])
  ∨ (line ex_harvest = Harvesting ∧ ∃ c', threads ex_harvest = [Running c'])
  ∨ (line ex_harvest = Broken ∧ threads ex_harvest = []).
Proof. exact (client_kept ex_conn ex_harvest (rtc_once _ _ (by_harvest _ _ _ (step_lend ex_conn [])))). Defined.

Lemma reading_delivers_witness :
  ∃ items sftp' r', reading ex_fuel "a.edi" (ex_line, {| sent := []; room := Some 1%nat |})
      = (Ok tt, (sftp', {| sent := take 1 items; room := r' |}))
    ∧ ∃ l, items = chunk_items l ++ [Ok None] ∧ concat l = as_bytes "hello".
Proof.
  destruct (reading_delivers "a.edi" ex_fuel (Some 1%nat) ex_line ex_far ex_linked eq_refl
    (eq_keeps _) (ex_short "a.edi" eq_refl eq_refl) ex_fuel_enough)
    as (items & s & f & r' & Hr & _ & _ & _ & l & Hi & Hl & _).
  exists items, s, r'. split; [exact Hr|]. exists l. split; [exact Hi|exact Hl].
Defined.

Lemma arrival_reads_file_witness :
  ∃ c sftp', reading ex_fuel "a.edi" (ex_line, {| sent := []; room := None |}) = (Ok tt, (sftp', c))
    ∧ (drain (length (sent c)) (λ _, Some (sent c)) []
         {| fetch_name := "a.edi"; fetch_chunks := None |}).1 = Ok (as_bytes "hello").
Proof.
  destruct (arrival_reads_file "a.edi" ex_fuel ex_line ex_far ex_linked eq_refl
    (eq_keeps _) (ex_short "a.edi" eq_refl eq_refl) ex_fuel_enough)
    as (c & s & f & Hr & _ & _ & _ & Hd).
  exists c, s. split; [exact Hr|]. revert Hd.
  change (files (directory ex_far) !! "a.edi") with (Some (as_bytes "hello")). cbv iota.
  destruct ((drain _ _ _ _).1) as [body| | |]; intros Hd; [|destruct Hd..].
  rewrite Hd. reflexivity.
Defined.
End Witnesses.
