(* ===== verification/Deliveries.v ===== *)
(** A file's life across two connections: put over one, read by an arrival
    over another and removed there, whatever other connections do to other
    files.  Against [Reaches] and [Served], so for any server that keeps
    their laws. *)

From S2P Require Import Prelude RustStd Externals Reference Wire Directory FarSpec FarRefine.
From S2P Require Import FarInvariant FarWorld FarProperties Replies Client Site Session.
From S2P Require Import Contract Loopback ClientProperties Connect ConnectProperties Connection.
From S2P Require Import ConnectionProperties.

Local Open Scope N_scope.

Section deliveries.
Context `{!Platform, !TransportErrors, !Codec, !CodecLaws, !Net, !NetLaws, !Ssh, !Keys, !SshClient,
          !Outgoings, !OutgoingLaws}.
Context {R : relation Directory} `{!Served R, !Reaches R}.

(** Nothing sent yet, to a body that is read on. *)
Definition unsent : Chunks := {| sent := []; room := None |}.

(** A file's body, read over a connection of its own. *)
Lemma arrival_kept name file fuel conn d :
  reaches conn d → wf_directory d → keeps R name → name_short name → MAX_BODY < N.of_nat fuel →
  files d !! name = Some file →
  ∃ c conn' d', with_subsystem_in (reading fuel name) (conn, unsent) = (Ok tt, (conn', c))
    ∧ (drain (length (sent c)) (λ _, Some (sent c)) []
         {| fetch_name := name; fetch_chunks := None |}).1 = Ok file
    ∧ reached conn' d' ∧ wf_directory d' ∧ files d' !! name = Some file.
Proof.
  intros Hr Hd HR Hname Hfuel Hfile.
  destruct (with_subsystem_ok (reading fuel name) (λ _ c d0 d1,
      files d1 !! name = files d0 !! name ∧ ∀ file, files d0 !! name = Some file →
        (drain (length (sent c)) (λ _, Some (sent c)) []
           {| fetch_name := name; fetch_chunks := None |}).1 = Ok file) conn unsent d Hr Hd)
    as ([] & conn' & c & d0 & d1 & d2 & Hw & Hr2 & Hwf & HR0 & [Hf Hdrain] & HR2).
  - intros sftp far Hl Hn _.
    destruct (reading_sends name fuel None sftp far)
      as (items & s & f & r & Hread & Hl' & _ & _ & Hf & Hm); [done|by rewrite Hn|done..|].
    exists tt, s, {| sent := items; room := r |}, f. split; [done|]. split; [done|].
    split; [by apply Hf|]. intros file' Hfile'. rewrite Hfile' in Hm. destruct Hm as (l & -> & <- & _).
    apply drain_whole.
  - pose proof (keeps_rtc R name d d0 HR HR0) as Hd0.
    exists c, conn', d2. split; [done|]. split; [apply Hdrain; by rewrite Hd0|]. split; [done|].
    split; [done|]. by rewrite (HR _ _ HR2), Hf, Hd0.
Qed.

(** A delete over a connection of its own. *)
Lemma delete_kept name conn d :
  reaches conn d → wf_directory d → keeps R name → name_short name →
  ∃ conn' d', with_subsystem (site_delete name) conn = (Ok tt, conn') ∧ reached conn' d'
    ∧ wf_directory d' ∧ files d' !! name = None.
Proof.
  intros Hr Hd HR Hname.
  destruct (with_subsystem_ok (on_sftp (site_delete name)) (λ _ _ _ d1, files d1 !! name = None)
      conn tt d Hr Hd) as ([] & conn' & [] & d0 & d1 & d2 & Hw & Hr2 & Hwf & _ & Hf & HR2).
  - intros sftp far Hl Hn _.
    destruct (delete_removes name sftp far) as (s & f & Hdel & Hl' & Hf); [done|by rewrite Hn|done|].
    exists tt, s, tt, f. unfold on_sftp. by rewrite Hdel.
  - exists conn', d2. split; [unfold with_subsystem, Client; by rewrite Hw|]. split; [done|].
    split; [done|]. by rewrite (HR _ _ HR2).
Qed.

(** C8: what one client puts is what another one receives.  A put over one
    connection ends OK; an arrival of that file, read over any other
    connection to the directory after whatever the others did to other files,
    gives the body put, byte for byte, and leaves the file; and the delete
    that follows its verdict leaves no file of that name.  Each connection is
    given back, its channel closed. *)
Theorem put_arrives `{!Reopens R} name o l fuel conn d :
  reaches conn d → wf_directory d → keeps R name → name_short name →
  outgoing_pieces CHUNK o = (l, None) → blen (outgoing_body o) ≤ MAX_BODY →
  MAX_BODY < N.of_nat fuel →
  ∃ conn1 d1, client_put name o conn = (Ok tt, conn1) ∧ reached conn1 d1 ∧ wf_directory d1
    ∧ ∀ near d2, reaches near d2 → wf_directory d2 → rtc R d1 d2 →
      ∃ c near3 d3 near4 d4,
        with_subsystem_in (reading fuel name) (near, unsent) = (Ok tt, (near3, c))
        ∧ (drain (length (sent c)) (λ _, Some (sent c)) []
             {| fetch_name := name; fetch_chunks := None |}).1 = Ok (outgoing_body o)
        ∧ reached near3 d3 ∧ files d3 !! name = Some (outgoing_body o)
        ∧ with_subsystem (site_delete name) near3 = (Ok tt, near4)
        ∧ reached near4 d4 ∧ files d4 !! name = None.
Proof.
  intros Hr Hd HR Hname Hp Hb Hfuel.
  destruct (client_put_kept name o l conn d) as (conn1 & d1 & Hput & Hr1 & Hd1 & Hf1 & _); [done..|].
  exists conn1, d1. do 3 (split; [done|]). intros near d2 Hr2 Hd2 H12.
  assert (files d2 !! name = Some (outgoing_body o)) as Hf2.
  { rewrite <- Hf1. by eapply keeps_rtc. }
  destruct (arrival_kept name (outgoing_body o) fuel near d2)
    as (c & near3 & d3 & Hread & Hdrain & Hr3 & Hd3 & Hf3); [done..|].
  destruct (delete_kept name near3 d3) as (near4 & d4 & Hdel & Hr4 & _ & Hf4);
    [by apply reached_reaches|done..|].
  exists c, near3, d3, near4, d4. by split_and!.
Qed.
End deliveries.

(** ** Witness *)
Module Witnesses.
Import Reference.Instances Loopback.Instances FarProperties.Witnesses ClientProperties.Witnesses.
Import ConnectProperties.Witnesses.
#[local] Existing Instances loop_client loop_reaches loop_reopens.

(** A connection to a directory. *)
Definition loop_over (d : Directory) : @Conn _ loop_ssh :=
  {| loop_far := {| directory := d; handles := ∅; next := 0 |}; loop_pending := [];
     loop_clock := Some 9 |}.

Definition ex_put : @Outgoing _ held_outgoings := ex_contents.

Lemma put_arrives_witness :
  ∃ conn1 d1 c near3 near4,
    client_put "b.edi" ex_put ex_conn = (Ok tt, conn1)
    ∧ with_subsystem_in (reading ex_fuel "b.edi") (loop_over d1, unsent) = (Ok tt, (near3, c))
    ∧ (drain (length (sent c)) (λ _, Some (sent c)) []
         {| fetch_name := "b.edi"; fetch_chunks := None |}).1 = Ok ex_contents
    ∧ with_subsystem (site_delete "b.edi") near3 = (Ok tt, near4).
Proof.
  destruct (put_arrives "b.edi" ex_put [ex_contents] ex_fuel ex_conn ex_directory)
    as (conn1 & d1 & Hput & _ & Hd1 & Hnear).
  - reflexivity.
  - exact ex_directory_wf.
  - exact (eq_keeps _).
  - exact (ex_short "b.edi" eq_refl eq_refl).
  - reflexivity.
  - vm_compute. discriminate.
  - exact ex_fuel_enough.
  - destruct (Hnear (loop_over d1) d1) as (c & near3 & d3 & near4 & d4 & H1 & H2 & _ & _ & H3 & _).
    + reflexivity.
    + exact Hd1.
    + exact (rtc_refl _ d1).
    + exists conn1, d1, c, near3, near4. exact (conj Hput (conj H1 (conj H2 H3))).
Defined.
End Witnesses.
