(* ===== verification/Receives.v ===== *)
(** A whole receive.  The claim is the transport crate's; what it documents
    of a take and of an accepted verdict is [ClaimLaws].  On a channel that
    keeps [Served]'s laws, a harvest whose every arrival is read to its end and
    accepted hands over each claimed file whole and leaves none of them. *)

From S2P Require Import Prelude RustStd Externals Reference Wire Directory FarSpec FarRefine.
From S2P Require Import FarInvariant FarWorld FarProperties Replies Client Site Session.
From S2P Require Import Contract Loopback ClientProperties Connect ConnectProperties Connection.
From S2P Require Import ConnectionProperties Deliveries.

Local Open Scope N_scope.

Section receives.
Context `{!Platform, !TransportErrors, !Codec, !CodecLaws, !Net, !NetLaws, !Ssh, !Keys, !SshClient,
          !Claims}.
Context {R : relation Directory} `{!Served R}.

(** A file claimed: under a name that is this node's alone. *)
Record claimed_file (d : Directory) (t : Taken) : Prop := {
  claimed_keeps : keeps R (taken_claimed t);
  claimed_short : name_short (taken_claimed t);
  claimed_there : is_Some (files d !! taken_claimed t);
}.

(** What was taken from [d], as it lies in [d']: each file under a claimed
    name of its own; one dropped that nobody else touches is the file it was,
    moved whole. *)
Record taken_from (d d' : Directory) (ts : list Taken) : Prop := {
  taken_claims : Forall (claimed_file d') ts;
  taken_apart : NoDup (taken_claimed <$> ts);
  taken_names : NoDup (taken_dropped <$> ts);
  taken_moved t : t ∈ ts → keeps R (taken_dropped t) →
    files d' !! taken_claimed t = files d !! taken_dropped t
    ∧ files d' !! taken_dropped t = None;
}.

(** What the claim documents (README.md, "The claim" and "Acknowledgement";
    src/lib.rs, [receive_up_to]).  A take is answered, with the files it
    renamed, no more than it was asked for; a claimed name says the name it was
    dropped under.  [Accepted] removes the claimed file, by one request.  Any
    other verdict, and none, renames it back where its name is free, and holds
    it where it is not. *)
Class ClaimLaws : Type := {
  dropped_from : string → string;
  take_keeps claiming most sftp far :
    linked sftp far → next far = 0 →
    ∃ o sftp' far', claiming_take claiming most sftp = (o, sftp') ∧ answers o
      ∧ linked sftp' far' ∧ next far' < 2 ^ 32
      ∧ ∀ ts, o = Ok ts →
          N.of_nat (length ts) ≤ most ∧ taken_from (directory far) (directory far') ts
          ∧ Forall (λ t, dropped_from (taken_claimed t) = taken_dropped t
                         ∧ name_short (taken_dropped t)) ts;
  verdict_eq_dec :: EqDecision Verdict;
  accepted : Verdict;
  accepted_removes claiming name sftp far :
    linked sftp far → next far < u64_max → name_short name → keeps R name →
    ∃ sftp' far', claiming_told claiming name (Some accepted) sftp = (Ok tt, sftp')
      ∧ linked sftp' far' ∧ next far' = next far
      ∧ files (directory far') !! name = None
      ∧ ∀ m, m ≠ name → keeps R m → files (directory far') !! m = files (directory far) !! m;
  others_return claiming name verdict sftp far :
    verdict ≠ Some accepted → linked sftp far → next far < u64_max →
    name_short name → name_short (dropped_from name) → keeps R name →
    is_Some (files (directory far) !! name) →
    ∃ sftp' far', claiming_told claiming name verdict sftp = (Ok tt, sftp')
      ∧ linked sftp' far' ∧ next far' = next far
      ∧ (files (directory far') !! name = None
         ∨ files (directory far') !! name = files (directory far) !! name)
      ∧ (keeps R (dropped_from name) → files (directory far) !! dropped_from name = None →
          files (directory far') !! name = None
          ∧ files (directory far') !! dropped_from name = files (directory far) !! name)
      ∧ ∀ m, m ≠ name → m ≠ dropped_from name → keeps R m →
          files (directory far') !! m = files (directory far) !! m;
}.
Context `{!ClaimLaws}.

(** What the arrivals ask: each its file to the end, and then its verdict. *)
Fixpoint accepts (ts : list Taken) : list Request :=
  match ts with
  | [] => [Finish]
  | t :: ts =>
    ReadFile (taken_claimed t) None :: Told (taken_claimed t) (Some accepted) :: accepts ts
  end.

(** What they are answered: the pieces and the end, and that it was told. *)
Fixpoint deliveries (ts : list Taken) (bodies : list (list bytes)) : list Said :=
  match ts, bodies with
  | t :: ts, l :: bodies =>
    Sent (taken_claimed t) (chunk_items l ++ [Ok None]) :: Done (taken_claimed t) (Ok tt)
    :: deliveries ts bodies
  | _, _ => []
  end.

Lemma claimed_after t ts d d' :
  NoDup (taken_claimed <$> t :: ts) → Forall (claimed_file d) ts →
  (∀ m, m ≠ taken_claimed t → keeps R m → files d' !! m = files d !! m) →
  Forall (claimed_file d') ts.
Proof.
  rewrite fmap_cons. intros [Hnew _]%NoDup_cons Hts Hd. rewrite Forall_forall in *. intros u Hu.
  destruct (Hts u Hu) as [Hk Hs Hc]. constructor; [done|done|]. rewrite Hd; [done| |done].
  intros Heq. apply Hnew. rewrite <- Heq. by apply list_elem_of_fmap_2.
Qed.

(** The body of each file is what was in it. *)
Definition whole (d : Directory) (t : Taken) (l : list bytes) : Prop :=
  files d !! taken_claimed t = Some (concat l).

Lemma whole_before ts bodies d d' :
  (∀ t, t ∈ ts → files d' !! taken_claimed t = files d !! taken_claimed t) →
  Forall2 (whole d') ts bodies → Forall2 (whole d) ts bodies.
Proof.
  intros Hd Hb. induction Hb as [|t l ts bodies Ht _ IH]; constructor.
  - unfold whole in *. rewrite <- Hd; [done|left].
  - apply IH. intros u Hu. apply Hd. by right.
Qed.

(** The verdicts of one harvest, its files read before each. *)
Lemma answering_delivers fuel claiming ts : ∀ s far log,
  MAX_BODY < N.of_nat fuel → linked s far →
  next far + N.of_nat (length ts) < u64_max - 1 →
  Forall (claimed_file (directory far)) ts → NoDup (taken_claimed <$> ts) →
  ∃ bodies s' far', answering fuel claiming (accepts ts) (s, log)
      = (Ok true, (s', log ++ deliveries ts bodies))
    ∧ linked s' far'
    ∧ Forall2 (whole (directory far)) ts bodies
    ∧ (∀ t, t ∈ ts → files (directory far') !! taken_claimed t = None)
    ∧ ∀ m, m ∉ taken_claimed <$> ts → keeps R m →
        files (directory far') !! m = files (directory far) !! m.
Proof.
  induction ts as [|t ts IH]; intros s far log Hfuel Hl Hn Hts Hnd.
  { exists [], s, far. cbn [deliveries]. rewrite (right_id_L [] (++)). split_and!; try done.
    by intros t ?%elem_of_nil. }
  rewrite fmap_cons in Hnd |- *. pose proof Hnd as [Hnew Hnd']%NoDup_cons. pose proof Hts as [[Hk Hs [c Hc]] Hts']%Forall_cons.
  rewrite length_cons in Hn.
  destruct (reading_sends (taken_claimed t) fuel None s far)
    as (items & s1 & f1 & r & Hread & Hl1 & _ & Hn1 & Hst & Hm); [done|lia|done..|].
  rewrite Hc in Hm. destruct Hm as (l & -> & Hcat & _).
  destruct (accepted_removes claiming (taken_claimed t) s1 f1)
    as (s2 & f2 & Htold & Hl2 & Hn2 & Hgone & Hothers); [done|lia|done..|].
  assert (∀ m, m ≠ taken_claimed t → keeps R m →
      files (directory f2) !! m = files (directory far) !! m) as Hbut.
  { intros m Hm HR. by rewrite Hothers, (Hst m HR). }
  destruct (IH s2 f2 ((log ++ [Sent (taken_claimed t) (chunk_items l ++ [Ok None])])
                          ++ [Done (taken_claimed t) (Ok tt)]))
    as (bodies & s3 & f3 & Ha & Hl3 & Hb & Hnone & Hrest);
    [done|done|lia|by eapply claimed_after|done|].
  exists (l :: bodies), s3, f3. cbn [accepts answering deliveries].
  assert (read_request fuel (taken_claimed t) None (s, log)
    = (Ok tt, (s1, log ++ [Sent (taken_claimed t) (chunk_items l ++ [Ok None])]))) as Hrr.
  { unfold read_request. by rewrite Hread. }
  rewrite (bind_ok _ _ _ _ _ Hrr),
    (bind_ok _ _ _ _ _ (attempt_ok _ _ _ _ (on_sftp_ok _ _ _ _ _ Htold))).
  unfold say, mbind, M_bind at 1. rewrite Ha, <- !(assoc_L (++)).
  do 2 (split; [done|]). split; [|split].
  - constructor; [unfold whole; by rewrite Hcat|]. eapply whole_before; [|exact Hb].
    intros u Hu. assert (taken_claimed u ∈ taken_claimed <$> ts) by by apply list_elem_of_fmap_2.
    rewrite Forall_forall in Hts'. apply Hbut; [|by apply Hts'].
    intros Heq. apply Hnew. by rewrite <- Heq.
  - intros u [Heq|Hu]%elem_of_cons; [|by apply Hnone]. subst u. by rewrite Hrest.
  - intros m [Hm Hml]%not_elem_of_cons HR. by rewrite Hrest, Hbut.
Qed.

Lemma harvest_work_answers fuel claiming most requests sftp t ts s1 b s2 said :
  claiming_take claiming most sftp = (Ok (t :: ts), s1) →
  answering fuel claiming requests (s1, [Listed (Ok (t :: ts))]) = (Ok b, (s2, said)) →
  harvest_work fuel claiming most requests (sftp, []) = (Ok (Answered b), (s2, said)).
Proof.
  intros Ht Ha. unfold harvest_work. rewrite (bind_ok _ _ _ _ _ (on_sftp_ok _ _ _ _ _ Ht)).
  erewrite bind_ok by reflexivity. by erewrite bind_ok by exact Ha.
Qed.

(** *** Over a connection of its own *)
Context `{!Reaches R}.

(** A harvest up to what its arrivals ask: the claim failed, or took nothing,
    or there are arrivals; once they are answered the channel is closed and the
    connection is back before the word that it is. *)
Lemma harvest_begins claiming most conn d :
  reaches conn d → wf_directory d →
  (∃ e, ∀ fuel requests,
    harvesting fuel claiming most requests conn = ([Set_line false; Listed (Err e)], Broken))
  ∨ (∃ conn' d', reached conn' d' ∧ wf_directory d' ∧ ∀ fuel requests,
      harvesting fuel claiming most requests conn
        = ([Set_line true; Listed (Ok [])], Here conn'))
  ∨ ∃ ts d0 s1 f1, ts ≠ [] ∧ rtc R d d0 ∧ linked s1 f1 ∧ next f1 < 2 ^ 32
    ∧ N.of_nat (length ts) ≤ most ∧ taken_from d0 (directory f1) ts
    ∧ Forall (λ t, dropped_from (taken_claimed t) = taken_dropped t
                   ∧ name_short (taken_dropped t)) ts
    ∧ ∀ s2 f2, linked s2 f2 →
        ∃ conn' d', R (directory f2) d' ∧ reached conn' d' ∧ wf_directory d'
          ∧ (∃ c, channel_close (channel s2) = (Ok tt, c) ∧ channel_conn c = conn')
          ∧ ∀ fuel requests finished said,
            answering fuel claiming requests (s1, [Listed (Ok ts)])
              = (Ok finished, (s2, Listed (Ok ts) :: said)) →
            harvesting fuel claiming most requests conn
              = (Listed (Ok ts) :: said ++ Set_line true :: (if finished then [Finished] else []),
                 Here conn').
Proof.
  intros Hr Hd. destruct (with_subsystem_begins conn d Hr Hd) as (sftp & far & Hl & Hn & HR & Hin).
  destruct (take_keeps claiming most sftp far Hl Hn)
    as (o & s1 & f1 & Htake & [[ts ->]|[e ->]] & Hl1 & Hn1 & Hts).
  2: { left. exists e. intros fuel requests. unfold harvesting. rewrite Hin. unfold harvest_work.
       by rewrite (bind_err _ _ _ _ _ (on_sftp_err _ _ _ _ _ Htake)). }
  right. destruct (Hts ts eq_refl) as (Hlen & Htaken & Hnames).
  destruct ts as [|t ts].
  { left. destruct (reaches_close _ _ (linked_served _ _ Hl1)) as (d2 & c2 & HR2 & Hd2 & Hc & Hr2).
    exists (channel_conn c2), d2. split; [done|]. split; [apply Hd2, (wf_dir _ (linked_wf _ _ Hl1))|].
    intros fuel requests. unfold harvesting. rewrite Hin. unfold harvest_work.
    rewrite (bind_ok _ _ _ _ _ (on_sftp_ok _ _ _ _ _ Htake)).
    unfold mret, M_ret. by rewrite Hc. }
  right. exists (t :: ts), (directory far), s1, f1. do 7 (split; [done|]).
  intros s2 f2 Hl2.
  destruct (reaches_close _ _ (linked_served _ _ Hl2)) as (d2 & c2 & HR2 & Hd2 & Hc & Hr2).
  exists (channel_conn c2), d2. split; [done|]. split; [done|].
  split; [apply Hd2, (wf_dir _ (linked_wf _ _ Hl2))|]. split; [by exists c2|].
  intros fuel requests finished said Ha.
  unfold harvesting. rewrite Hin, (harvest_work_answers _ _ _ _ _ _ _ _ _ _ _ Htake Ha), Hc.
  cbn. destruct finished; [|done]. by rewrite <- !(assoc_L (++)).
Qed.

(** What a dropped file nobody else touches comes to: its body handed over,
    and the directory without it. *)
Record received (d d' : Directory) (t : Taken) (l : list bytes) : Prop := {
  received_whole : keeps R (taken_dropped t) → files d !! taken_dropped t = Some (concat l);
  received_claim : files d' !! taken_claimed t = None;
  received_dropped : keeps R (taken_dropped t) → files d' !! taken_dropped t = None;
}.

(** From the directory the connection reached to the one the channel's close
    leaves, around the take and the verdicts. *)
Lemma received_all d d0 d1 d2 d3 ts bodies :
  rtc R d d0 → taken_from d0 d1 ts → Forall2 (whole d1) ts bodies →
  (∀ t, t ∈ ts → files d2 !! taken_claimed t = None) →
  (∀ m, m ∉ taken_claimed <$> ts → keeps R m → files d2 !! m = files d1 !! m) →
  R d2 d3 → Forall2 (received d d3) ts bodies.
Proof.
  intros Hto [Hclaims Hapart _ Hmoved] Hb Hnone Hrest Hfrom.
  assert (∀ t l, t ∈ ts → whole d1 t l → received d d3 t l) as Hall.
  { intros t l Ht Hl. rewrite Forall_forall in Hclaims. destruct (Hclaims t Ht) as [Hk _ _].
    constructor.
    - intros HR. rewrite <- (keeps_rtc _ _ _ _ HR Hto), <- (proj1 (Hmoved t Ht HR)). exact Hl.
    - rewrite (Hk _ _ Hfrom). by apply Hnone.
    - intros HR. rewrite (HR _ _ Hfrom).
      destruct (decide (taken_dropped t ∈ taken_claimed <$> ts)) as [Hin|Hout].
      + apply list_elem_of_fmap in Hin as (u & -> & Hu). by apply Hnone.
      + rewrite Hrest by done. by apply (Hmoved t Ht HR). }
  clear -Hall Hb. induction Hb as [|t l ts bodies Hl _ IH]; constructor.
  - apply Hall; [left|done].
  - apply IH. intros u m Hu. apply Hall. by right.
Qed.

(** C7: a receive hands over each file once, whole.  A harvest over a kept
    connection takes what its claim takes and hands the list back; where every
    arrival is read to its end and accepted, each claimed file's body arrives
    in order and then its end, each verdict is told, the channel is closed and
    the connection is back before the word that it is.  A file dropped that
    nobody else touched arrives as it lay in the directory, byte for byte, and
    is in the directory no more, under either name.  A claim that fails breaks
    the line and is what the receive answers. *)
Theorem harvest_delivers fuel claiming most conn d :
  MAX_BODY < N.of_nat fuel → most < 2 ^ 63 → reaches conn d → wf_directory d →
  (∃ e, ∀ requests,
    harvesting fuel claiming most requests conn = ([Set_line false; Listed (Err e)], Broken))
  ∨ (∃ conn' d', reached conn' d' ∧ wf_directory d' ∧ ∀ requests,
      harvesting fuel claiming most requests conn
        = ([Set_line true; Listed (Ok [])], Here conn'))
  ∨ ∃ ts bodies conn' d', reached conn' d' ∧ wf_directory d' ∧ ts ≠ []
    ∧ harvesting fuel claiming most (accepts ts) conn
      = (Listed (Ok ts) :: deliveries ts bodies ++ [Set_line true; Finished], Here conn')
    ∧ Forall2 (received d d') ts bodies.
Proof.
  intros Hfuel Hmost Hr Hd.
  destruct (harvest_begins claiming most conn d Hr Hd)
    as [[e He]|[(c & d' & Hc & Hd' & He)|(ts & d0 & s1 & f1 & Hne & H0d & Hl1 & Hn1 & Hlen & Htaken & _ & Hend)]];
    [left; by eauto|right; left; by eauto 10|right; right].
  destruct (answering_delivers fuel claiming ts s1 f1 [Listed (Ok ts)])
    as (bodies & s2 & f2 & Ha & Hl2 & Hb & Hnone & Hrest);
    [done|done|unfold u64_max; lia|apply Htaken|apply Htaken|].
  destruct (Hend _ _ Hl2) as (conn' & d' & HR' & Hr' & Hd' & _ & Hh). apply Hh in Ha.
  exists ts, bodies, conn', d'. do 4 (split; [done|]). by eapply received_all.
Qed.
End receives.

(** ** Witness *)
Module Witnesses.
Import Reference.Instances Loopback.Instances FarProperties.Witnesses ClientProperties.Witnesses.
Import ConnectProperties.Witnesses.

(** A claim of one file, told of with its verdict: accepted or not. *)
Definition DROPPED : string := "a.edi".
Definition CLAIMED : string := "a.edi.xmip-claim.node.7".
Definition one_claim : @Claims _ _ loop_ssh := {|
  Verdict := bool;
  Taken := string * string;
  taken_dropped := fst;
  taken_claimed := snd;
  Claiming := unit;
  claiming_take _ most :=
    if most =? 0 then mret [] else
    status ← rename_status DROPPED CLAIMED;
    mret (if status =? OK then [(DROPPED, CLAIMED)] else []);
  claiming_told _ name verdict :=
    match verdict with
    | Some true => site_delete name
    | _ => _ ← rename_status name DROPPED; mret tt
    end;
|}.
#[local] Existing Instances loop_client loop_reaches one_claim.

Lemma nothing_taken (d d' : Directory) : taken_from (R:=eq) d d' [].
Proof. constructor; [done|constructor|constructor|]. by intros t ?%elem_of_nil. Qed.

Lemma one_take most sftp far :
  linked sftp far → next far = 0 →
  ∃ o sftp' far', claiming_take (tt : Claiming) most sftp = (o, sftp') ∧ answers o
    ∧ linked sftp' far' ∧ next far' < 2 ^ 32
    ∧ ∀ ts, o = Ok ts →
        N.of_nat (length ts) ≤ most ∧ taken_from (R:=eq) (directory far) (directory far') ts
        ∧ Forall (λ t, DROPPED = taken_dropped t ∧ name_short (taken_dropped t)) ts.
Proof.
  intros Hl Hn. cbn [claiming_take one_claim].
  destruct (N.eqb_spec most 0) as [->|Hmost].
  { exists (Ok []), sftp, far. split_and!; [done|apply answers_ok|done|by rewrite Hn|].
    intros ts [= <-]. split; [done|]. split; [apply nothing_taken|done]. }
  destruct (rename_asks sftp far Hl ltac:(by rewrite Hn) DROPPED CLAIMED
    (ex_short DROPPED eq_refl eq_refl) (ex_short CLAIMED eq_refl eq_refl))
    as (now & d & s1 & <- & Hwf & He & Hl1). cbn [execute with_directory directory] in *.
  change (files (directory (with_directory (directory far) far))) with (files (directory far)) in *.
  destruct (files (directory far) !! CLAIMED) as [there|];
    [|destruct (files (directory far) !! DROPPED) as [c|] eqn:Hc].
  1, 3: eexists (Ok []), s1, _; split; [by rewrite (bind_ok _ _ _ _ _ He)|];
    split; [apply answers_ok|]; split; [exact Hl1|]; split; [by cbn; rewrite Hn|];
    intros ts [= <-]; split; [by apply N.le_0_l|]; split; [apply nothing_taken|done].
  eexists (Ok [(DROPPED, CLAIMED)]), s1, _. split; [by rewrite (bind_ok _ _ _ _ _ He)|].
  split; [apply answers_ok|]. split; [exact Hl1|]. split; [by cbn; rewrite Hn|].
  intros ts [= <-]. split; [simpl; lia|]. split.
  2: { constructor; [|done]. split; [done|by apply ex_short]. }
  constructor.
  - constructor; [|constructor]. constructor; [exact (eq_keeps _)|by apply ex_short|].
    cbn. rewrite lookup_insert_eq. by eexists.
  - apply NoDup_singleton.
  - apply NoDup_singleton.
  - intros t ->%list_elem_of_singleton _. cbn. rewrite lookup_insert_eq, Hc.
    split; [done|]. by rewrite lookup_insert_ne, lookup_delete_eq.
Qed.

Lemma one_return name sftp far :
  linked sftp far → next far < u64_max → name_short name →
  is_Some (files (directory far) !! name) →
  ∃ sftp' far', (_ ← rename_status name DROPPED; mret tt : M Sftp error unit) sftp = (Ok tt, sftp')
    ∧ linked sftp' far' ∧ next far' = next far
    ∧ (files (directory far') !! name = None
       ∨ files (directory far') !! name = files (directory far) !! name)
    ∧ (files (directory far) !! DROPPED = None → files (directory far') !! name = None
        ∧ files (directory far') !! DROPPED = files (directory far) !! name)
    ∧ ∀ m, m ≠ name → m ≠ DROPPED → files (directory far') !! m = files (directory far) !! m.
Proof.
  intros Hl Hn Hname [c Hc].
  destruct (rename_asks sftp far Hl Hn name DROPPED Hname (ex_short DROPPED eq_refl eq_refl))
    as (now & d & s1 & <- & Hwf & He & Hl1). cbn [execute with_directory directory] in *.
  change (files (directory (with_directory (directory far) far))) with (files (directory far)) in *.
  rewrite Hc in *. destruct (files (directory far) !! DROPPED) as [there|] eqn:Ht.
  - eexists s1, _. split; [by rewrite (bind_ok _ _ _ _ _ He)|]. split; [exact Hl1|].
    cbn. by split_and!; [|right| |].
  - assert (name ≠ DROPPED) as Hne by congruence.
    eexists s1, _. split; [by rewrite (bind_ok _ _ _ _ _ He)|]. split; [exact Hl1|]. cbn.
    rewrite lookup_insert_ne, lookup_delete_eq, lookup_insert_eq by done.
    split_and!; [done|by left|done|]. intros m Hm Hm'. by rewrite lookup_insert_ne, lookup_delete_ne.
Qed.

Definition one_laws : @ClaimLaws _ _ _ _ loop_ssh one_claim eq loop_served.
Proof.
  refine {| dropped_from := λ _, DROPPED;
            verdict_eq_dec := bool_eq_dec : EqDecision (@Verdict _ _ _ one_claim);
            accepted := true : @Verdict _ _ _ one_claim |}.
  - intros []. apply one_take.
  - intros [] name sftp far Hl Hn Hname _. cbn [claiming_told one_claim]. unfold site_delete.
    destruct (removed_asks sftp far Hl Hn name Hname) as (now & d & s1 & <- & Hwf & He & Hl1).
    cbn [execute with_directory directory] in *. eexists s1, _. split.
    { by destruct (files _ !! name); rewrite (bind_ok _ _ _ _ _ He). }
    split; [exact Hl1|]. cbn. split; [done|]. split; [by rewrite lookup_delete_eq|].
    intros m Hm _. by rewrite lookup_delete_ne.
  - intros [] name verdict sftp far Hv Hl Hn Hname _ _ Hc.
    destruct (one_return name sftp far Hl Hn Hname Hc)
      as (s1 & f1 & He & Hl1 & Hn1 & Hor & Hback & Hrest).
    exists s1, f1. split; [by destruct verdict as [[]|]|]. do 3 (split; [done|]).
    split; [by intros _|]. intros m Hm Hm' _. by apply Hrest.
Defined.
#[local] Existing Instance one_laws.

Definition ex_claiming : @Claiming _ _ _ one_claim := tt.

(** A harvest that has listed what it claimed. *)
Definition has_listed (x : list Said * Line) : bool :=
  match x.1 with Listed (Ok (_ :: _)) :: _ => true | _ => false end.
Lemma ex_lists fuel : has_listed (harvesting fuel ex_claiming 8 [] ex_conn) = true.
Proof.
  transitivity (has_listed (harvesting 0 ex_claiming 8 [] ex_conn)); [reflexivity|].
  vm_compute. reflexivity.
Defined.

Lemma harvest_delivers_witness :
  ∃ ts bodies conn' d',
    harvesting ex_fuel ex_claiming 8 (accepts ts) ex_conn
      = (Listed (Ok ts) :: deliveries ts bodies ++ [Set_line true; Finished], Here conn')
    ∧ Forall2 (received (R:=eq) ex_directory d') ts bodies.
Proof.
  destruct (harvest_delivers ex_fuel ex_claiming 8 ex_conn ex_directory)
    as [[e He]|[(conn' & d' & _ & _ & He)|(ts & bodies & conn' & d' & _ & _ & _ & He & Hb)]].
  - exact ex_fuel_enough.
  - reflexivity.
  - reflexivity.
  - exact ex_directory_wf.
  - pose proof (ex_lists ex_fuel) as Hl. rewrite (He []) in Hl. discriminate Hl.
  - pose proof (ex_lists ex_fuel) as Hl. rewrite (He []) in Hl. discriminate Hl.
  - exists ts, bodies, conn', d'. exact (conj He Hb).
Defined.
End Witnesses.
