(* ===== verification/Settles.v ===== *)
(** What becomes of the files of a receive, whatever its arrivals ask and in
    whatever order: each is delivered, returned or still claimed, by its
    verdict, and none is lost.  [Receives] is the case of arrivals that are all
    read and accepted; here a body is read or not, let go on the way, read
    again, or asked for after its verdict. *)

From S2P Require Import Prelude RustStd Externals Reference Wire Directory FarSpec FarRefine.
From S2P Require Import FarInvariant FarWorld FarProperties Replies Client Site Session.
From S2P Require Import Contract Loopback ClientProperties Connect ConnectProperties Connection.
From S2P Require Import ConnectionProperties Deliveries Receives.

Local Open Scope N_scope.

Lemma NoDup_fmap_eq {A B} (f : A → B) l x y :
  NoDup (f <$> l) → x ∈ l → y ∈ l → f x = f y → x = y.
Proof.
  induction l as [|z l IH]; [by intros _ ?%elem_of_nil|]. rewrite fmap_cons.
  intros [Hz Hl]%NoDup_cons [->|Hx]%elem_of_cons [->|Hy]%elem_of_cons Hf; [done|..|by apply IH].
  - destruct Hz. rewrite Hf. by apply list_elem_of_fmap_2.
  - destruct Hz. rewrite <- Hf. by apply list_elem_of_fmap_2.
Qed.

Section settles.
Context `{!Platform, !TransportErrors, !Codec, !CodecLaws, !Net, !NetLaws, !Ssh, !Keys, !SshClient,
          !Claims}.
Context {R : relation Directory} `{!Served R, !ClaimLaws}.
#[local] Existing Instance verdict_eq_dec.

(** What was asked is about the files taken. *)
Definition about (ts : list Taken) (r : Request) : Prop :=
  match r with
  | ReadFile name _ | Told name _ => name ∈ taken_claimed <$> ts
  | Finish => True
  end.

(** The verdicts told, up to the last arrival let go. *)
Fixpoint verdicts (requests : list Request) : list (string * option Verdict) :=
  match requests with
  | [] | Finish :: _ => []
  | ReadFile _ _ :: requests => verdicts requests
  | Told name verdict :: requests => (name, verdict) :: verdicts requests
  end.
Definition verdict_on (requests : list Request) : gmap string (option Verdict) :=
  list_to_map (verdicts requests).

(** From [d0], as the take left the directory, what a file has come to in [d]
    by the verdict told of it. *)
Definition fate (d0 d : Directory) (w : option (option Verdict)) (t : Taken) : Prop :=
  let claimed := taken_claimed t in
  let dropped := taken_dropped t in
  match w with
  | None => files d !! claimed = files d0 !! claimed ∧ (keeps R dropped → files d !! dropped = None)
  | Some verdict =>
    if decide (verdict = Some accepted)
    then files d !! claimed = None ∧ (keeps R dropped → files d !! dropped = None)
    else (files d !! claimed = None ∨ files d !! claimed = files d0 !! claimed)
      ∧ (keeps R dropped → files d !! claimed = None ∧ files d !! dropped = files d0 !! claimed)
  end.

(** A body is the file's, as [is_file] says what that is, from its beginning,
    or an error; a verdict is answered [Ok]. *)
Definition as_dropped (is_file : Taken → bytes → Prop) (ts : list Taken) (x : Said) : Prop :=
  match x with
  | Sent name items => ∃ t r, t ∈ ts ∧ name = taken_claimed t ∧
      ((∃ l, is_file t (concat l) ∧ items = taking r (chunk_items l ++ [Ok None]))
       ∨ ∃ e, items = taking r [Err e])
  | Done _ told => told = Ok tt
  | _ => False
  end.

Lemma as_dropped_mono (P Q : Taken → bytes → Prop) ts said :
  (∀ t c, t ∈ ts → P t c → Q t c) → Forall (as_dropped P ts) said → Forall (as_dropped Q ts) said.
Proof.
  intros HPQ Hs. induction Hs as [|x said Hx _ IH]; constructor; [|done].
  destruct x; [done| |done..]. destruct Hx as (t & r & Ht & Hn & Hx). exists t, r.
  do 2 (split; [done|]). destruct Hx as [(l & Hl & Hi)|?]; [left|by right].
  exists l. split; [by apply HPQ|done].
Qed.

(** What the claimed name holds. *)
Definition lies (d0 : Directory) (t : Taken) (c : bytes) : Prop := files d0 !! taken_claimed t = Some c.

Lemma fate_claimed d0 d w t :
  fate d0 d w t →
  files d !! taken_claimed t = None ∨ files d !! taken_claimed t = files d0 !! taken_claimed t.
Proof. unfold fate. destruct w as [v|]; [destruct (decide (v = Some accepted))|]; naive_solver. Qed.

(** A file nobody touched is where it was. *)
Lemma fate_same d0 d d' w t :
  files d' !! taken_claimed t = files d !! taken_claimed t →
  (keeps R (taken_dropped t) → files d' !! taken_dropped t = files d !! taken_dropped t) →
  fate d0 d w t → fate d0 d' w t.
Proof.
  unfold fate. intros -> Hd. destruct w as [v|]; [destruct (decide (v = Some accepted))|].
  1, 3: intros [? Hk]; split; [done|]; intros HR; by rewrite (Hd HR), (Hk HR).
  intros [? Hk]. split; [done|]. intros HR. rewrite (Hd HR). by apply Hk.
Qed.

(** *** The verdicts of one harvest, its files read or not *)
Section taken.
Variables (before d0 : Directory) (ts : list Taken).
Hypothesis taken : taken_from (R:=R) before d0 ts.
Hypothesis names : Forall (λ t, dropped_from (taken_claimed t) = taken_dropped t
                                ∧ name_short (taken_dropped t)) ts.

(** A name dropped and left alone is nobody's claimed name. *)
Lemma dropped_apart t u :
  t ∈ ts → u ∈ ts → keeps R (taken_dropped u) → taken_dropped u ≠ taken_claimed t.
Proof.
  intros Ht Hu HR Heq. destruct taken as [Hc _ _ Hm]. rewrite Forall_forall in Hc.
  destruct (Hc t Ht) as [_ _ [file Hf]]. destruct (Hm u Hu HR) as [_ Hn]. congruence.
Qed.

(** A claimed name is no name a file was dropped under. *)
Lemma claimed_apart t u : t ∈ ts → u ∈ ts → taken_claimed u ≠ taken_dropped t.
Proof.
  intros Ht Hu Heq. apply (dropped_apart u t Hu Ht); [|done]. rewrite <- Heq.
  destruct taken as [Hc _ _ _]. rewrite Forall_forall in Hc. by destruct (Hc u Hu).
Qed.

(** A verdict on one file leaves the others' fates. *)
Lemma fates_told d d' (w : gmap string (option Verdict)) t v :
  t ∈ ts → (∀ u, u ∈ ts → fate d0 d (w !! taken_claimed u) u) →
  (∀ m, m ≠ taken_claimed t → m ≠ taken_dropped t → keeps R m → files d' !! m = files d !! m) →
  fate d0 d' (Some v) t →
  ∀ u, u ∈ ts → fate d0 d' (<[taken_claimed t := v]> w !! taken_claimed u) u.
Proof.
  intros Ht Hw Hrest Hnow u Hu.
  destruct (decide (taken_claimed u = taken_claimed t)) as [Heq|Hne].
  - assert (u = t) as -> by by apply (NoDup_fmap_eq taken_claimed ts); [apply taken|..].
    by rewrite lookup_insert_eq.
  - rewrite lookup_insert_ne by done. eapply fate_same; [..|by apply Hw].
    + apply Hrest; [done|by apply claimed_apart|].
      destruct taken as [Hc _ _ _]. rewrite Forall_forall in Hc. by destruct (Hc u Hu).
    + intros HR. apply Hrest; [by apply dropped_apart| |done]. intros Heq. apply Hne.
      assert (u = t) as -> by by apply (NoDup_fmap_eq taken_dropped ts); [apply taken|..]. done.
Qed.

(** The first verdict on a file gives it its fate. *)
Lemma told_fate claiming t v s far :
  t ∈ ts → linked s far → next far < u64_max → fate d0 (directory far) None t →
  ∃ s' far', claiming_told claiming (taken_claimed t) v s = (Ok tt, s') ∧ linked s' far'
    ∧ next far' = next far ∧ fate d0 (directory far') (Some v) t
    ∧ ∀ m, m ≠ taken_claimed t → m ≠ taken_dropped t → keeps R m →
        files (directory far') !! m = files (directory far) !! m.
Proof.
  intros Ht Hl Hn [Hwt Hwd].
  pose proof (proj1 (Forall_forall _ _) (taken_claims _ _ _ taken) t Ht) as [Hk Hs Hthere].
  pose proof (proj1 (Forall_forall _ _) names t Ht) as [Hfrom Hds].
  unfold fate. destruct (decide (v = Some accepted)) as [->|Hv].
  - destruct (accepted_removes claiming (taken_claimed t) s far)
      as (s1 & f1 & Htold & Hl1 & Hn1 & Hgone & Hothers); [done..|].
    exists s1, f1. do 3 (split; [done|]). split; [|by intros m Hm _; apply Hothers].
    split; [done|]. intros HR. rewrite Hothers; [by apply Hwd|by apply dropped_apart|done].
  - destruct (others_return claiming (taken_claimed t) v s far)
      as (s1 & f1 & Htold & Hl1 & Hn1 & Hor & Hback & Hothers);
      [done|done|done|done|by rewrite Hfrom|done|by rewrite Hwt|].
    rewrite Hfrom in *. rewrite <- Hwt. exists s1, f1. do 3 (split; [done|]). split; [|done].
    split; [done|]. intros HR. by apply Hback; [|apply Hwd].
Qed.

(** A body asked for is the file's, and leaves every fate. *)
Lemma read_fate fuel t room s far (w : gmap string (option Verdict)) :
  t ∈ ts → MAX_BODY < N.of_nat fuel → linked s far → next far < u64_max - 1 →
  (∀ u, u ∈ ts → fate d0 (directory far) (w !! taken_claimed u) u) →
  ∃ items s' far' r, reading fuel (taken_claimed t) (s, {| sent := []; room := room |})
      = (Ok tt, (s', {| sent := items; room := r |}))
    ∧ linked s' far' ∧ next far' = next far + 1 ∧ as_dropped (lies d0) ts (Sent (taken_claimed t) items)
    ∧ ∀ u, u ∈ ts → fate d0 (directory far') (w !! taken_claimed u) u.
Proof.
  intros Ht Hfuel Hl Hn Hw.
  pose proof (proj1 (Forall_forall _ _) (taken_claims _ _ _ taken)) as Hc.
  destruct (Hc t Ht) as [Hk Hs _].
  destruct (reading_sends (taken_claimed t) fuel room s far)
    as (items & s1 & f1 & r & Hread & Hl1 & _ & Hn1 & Hst & Hm); [done..|].
  exists (taking room items), s1, f1, r. do 3 (split; [done|]). split.
  - exists t, room. do 2 (split; [done|]). destruct (files (directory far) !! taken_claimed t) as [c|] eqn:Hf.
    + destruct Hm as (l & -> & <- & _). left. exists l. split; [|done]. unfold lies.
      destruct (fate_claimed _ _ _ _ (Hw t Ht)); congruence.
    + destruct Hm as [e ->]. right. by exists e.
  - intros u Hu. destruct (Hc u Hu) as [Hku _ _].
    eapply fate_same; [by apply Hst|by apply Hst|by apply Hw].
Qed.

(** What is asked of a directory in which each file has come to its fate: the
    answers are in order, and each file comes to its verdict's. *)
Lemma answering_settles fuel claiming requests : ∀ w s far log,
  MAX_BODY < N.of_nat fuel → linked s far →
  next far + N.of_nat (length requests) < u64_max - 1 →
  Forall (about ts) requests → NoDup (verdicts requests).*1 →
  (∀ name, name ∈ (verdicts requests).*1 → w !! name = None) →
  (∀ t, t ∈ ts → fate d0 (directory far) (w !! taken_claimed t) t) →
  ∃ b said s' far', answering fuel claiming requests (s, log) = (Ok b, (s', log ++ said))
    ∧ linked s' far' ∧ Forall (as_dropped (lies d0) ts) said
    ∧ ∀ t, t ∈ ts →
        fate d0 (directory far') ((verdict_on requests ∪ w) !! taken_claimed t) t.
Proof.
  induction requests as [|r requests IH]; intros w s far log Hfuel Hl Hn Hab Hnd Hnew Hw.
  { exists false, [], s, far. rewrite (right_id_L [] (++)). unfold verdict_on. cbn.
    split_and!; try done. intros t Ht. rewrite (left_id_L ∅ (∪)). by apply Hw. }
  rewrite length_cons in Hn. apply Forall_cons in Hab as [Hr Hab].
  destruct r as [name room|name v|].
  - apply list_elem_of_fmap in Hr as (t & -> & Ht).
    destruct (read_fate fuel t room s far w)
      as (items & s1 & f1 & r & Hread & Hl1 & Hn1 & Hit & Hw1); [done|done|done|lia|done|].
    destruct (IH w s1 f1 (log ++ [Sent (taken_claimed t) items]))
      as (b & said & s2 & f2 & Ha & Hl2 & Hin & Hf); [done|done|lia|done..|].
    eexists b, (_ :: said), s2, f2. cbn [answering].
    erewrite bind_ok by by unfold read_request; rewrite Hread. cbn [sent].
    rewrite Ha, <- (assoc_L (++)). split; [done|]. split; [done|]. split; [by constructor|done].
  - apply list_elem_of_fmap in Hr as (t & -> & Ht).
    cbn [verdicts] in Hnd, Hnew. rewrite fmap_cons in Hnd, Hnew.
    apply NoDup_cons in Hnd as [Hout Hnd].
    pose proof (Hw t Ht) as Hwt. rewrite (Hnew (taken_claimed t)) in Hwt by left.
    destruct (told_fate claiming t v s far)
      as (s1 & f1 & Htold & Hl1 & Hn1 & Hnow & Hrest); [done|done|lia|done|].
    destruct (IH (<[taken_claimed t := v]> w) s1 f1 (log ++ [Done (taken_claimed t) (Ok tt)]))
      as (b & said & s2 & f2 & Ha & Hl2 & Hin & Hf); [done|done|lia|done|done| |by eapply fates_told|].
    { intros m Hm. rewrite lookup_insert_ne by (intros Heq; apply Hout; by rewrite Heq). apply Hnew. by right. }
    eexists b, (_ :: said), s2, f2. cbn [answering].
    rewrite (bind_ok _ _ _ _ _ (attempt_ok _ _ _ _ (on_sftp_ok _ _ _ _ _ Htold))).
    unfold say, mbind, M_bind at 1. rewrite Ha, <- (assoc_L (++)).
    split; [done|]. split; [done|]. split; [by constructor|].
    intros u Hu. specialize (Hf u Hu). unfold verdict_on in *. cbn [verdicts list_to_map foldr fst snd].
    rewrite <- insert_union_l, insert_union_r by (by apply not_elem_of_list_to_map_1).
    done.
  - exists true, [], s, far. rewrite (right_id_L [] (++)). unfold verdict_on. cbn.
    split_and!; try done. intros t Ht. rewrite (left_id_L ∅ (∪)). by apply Hw.
Qed.
End taken.

(** *** Over a connection of its own *)
Context `{!Reaches R}.

(** A dropped file nobody else touches, by its verdict: still claimed where
    none was told, under neither name where it was accepted, and otherwise back
    under the name it was dropped under; each time whole. *)
Definition settled (d d' : Directory) (verdict : option (option Verdict)) (t : Taken) : Prop :=
  keeps R (taken_dropped t) → ∃ file, files d !! taken_dropped t = Some file ∧
    match verdict with
    | None => files d' !! taken_claimed t = Some file ∧ files d' !! taken_dropped t = None
    | Some verdict =>
      files d' !! taken_claimed t = None
      ∧ files d' !! taken_dropped t
        = if decide (verdict = Some accepted) then None else Some file
    end.

Lemma fate_settled d before d0 d2 d' ts v t :
  rtc R d before → taken_from (R:=R) before d0 ts → R d2 d' → t ∈ ts →
  fate d0 d2 v t → settled d d' v t.
Proof.
  intros Hto [Hc _ _ Hm] Hfrom Ht Hf HR. destruct (Hm t Ht HR) as [Hmv _].
  pose proof (proj1 (Forall_forall _ _) Hc t Ht) as [Hk _ [file Hfile]].
  exists file. rewrite <- (keeps_rtc _ _ _ _ HR Hto), <- Hmv. split; [done|].
  rewrite (Hk _ _ Hfrom), (HR _ _ Hfrom). rewrite <- Hfile. unfold fate in Hf.
  destruct v as [v|]; [destruct (decide (v = Some accepted))|]; destruct Hf as [? Hk']; auto.
Qed.

Lemma as_dropped_before d before d0 ts said :
  rtc R d before → taken_from (R:=R) before d0 ts → Forall (as_dropped (lies d0) ts) said →
  Forall (as_dropped (λ t c, keeps R (taken_dropped t) → files d !! taken_dropped t = Some c) ts) said.
Proof.
  intros Hto Htaken. apply as_dropped_mono. intros t c Ht Hc HR.
  rewrite <- (keeps_rtc _ _ _ _ HR Hto). by destruct (taken_moved _ _ _ Htaken t Ht HR) as [<- _].
Qed.

(** C6: a receive loses no file.  Whatever the arrivals of a harvest ask of it,
    in whatever order, bodies read to their end or let go on the way, read
    again or not at all, each claimed file told of at most once: every body is
    the dropped file's from its beginning, or an error; every verdict is
    answered; and each file dropped that nobody else touches is afterwards, whole, in
    one place by its verdict: still under its claimed name where none was told,
    gone where it was accepted, and back under the name it was dropped under for any
    other.  The connection is given back with its channel closed. *)
Theorem harvest_loses_nothing fuel claiming most conn d :
  MAX_BODY < N.of_nat fuel → reaches conn d → wf_directory d →
  (∃ e, ∀ requests,
    harvesting fuel claiming most requests conn = ([Set_line false; Listed (Err e)], Broken))
  ∨ (∃ conn' d', reached conn' d' ∧ wf_directory d' ∧ ∀ requests,
      harvesting fuel claiming most requests conn
        = ([Set_line true; Listed (Ok [])], Here conn'))
  ∨ ∃ ts, ts ≠ [] ∧ ∀ requests,
    Forall (about ts) requests → NoDup (verdicts requests).*1 →
    N.of_nat (length requests) < 2 ^ 63 →
    ∃ finished said conn' d', reached conn' d' ∧ wf_directory d'
      ∧ harvesting fuel claiming most requests conn
        = (Listed (Ok ts) :: said ++ Set_line true :: (if finished : bool then [Finished] else []),
           Here conn')
      ∧ Forall (as_dropped (λ t c, keeps R (taken_dropped t) →
                            files d !! taken_dropped t = Some c) ts) said
      ∧ Forall (λ t, settled d d' (verdict_on requests !! taken_claimed t) t) ts.
Proof.
  intros Hfuel Hr Hd.
  destruct (harvest_begins claiming most conn d Hr Hd)
    as [[e He]|[(c & d' & Hc & Hd' & He)|(ts & d0 & s1 & f1 & Hne & H0d & Hl1 & Hn1 & _ & Htaken & Hnames & Hend)]];
    [left; by eauto|right; left; by eauto 10|right; right].
  exists ts. split; [done|]. intros requests Hab Hnd Hlen.
  destruct (answering_settles d0 (directory f1) ts Htaken Hnames fuel claiming requests ∅ s1 f1
              [Listed (Ok ts)])
    as (finished & said & s2 & f2 & Ha & Hl2 & Hin & Hf);
    [done|done|unfold u64_max; lia|done|done|done| |].
  { intros t Ht. rewrite lookup_empty. split; [done|]. intros HR. by apply Htaken. }
  destruct (Hend _ _ Hl2) as (conn' & d' & HR' & Hr' & Hd' & _ & Hh). apply Hh in Ha.
  exists finished, said, conn', d'. do 3 (split; [done|]). split.
  - by eapply as_dropped_before.
  - apply Forall_forall. intros t Ht. specialize (Hf t Ht). rewrite (right_id_L ∅ (∪)) in Hf.
    by eapply fate_settled.
Qed.
End settles.

(** ** Witness *)
Module Witnesses.
Import Reference.Instances Loopback.Instances FarProperties.Witnesses ClientProperties.Witnesses.
Import ConnectProperties.Witnesses Receives.Witnesses.
#[local] Existing Instances loop_client loop_reaches one_claim one_laws.

(** An arrival let go after its first piece, read again, and let go without a
    verdict. *)
Definition ex_asked (name : string) : list Request :=
  [ReadFile name (Some 1%nat); ReadFile name None; Told name None; Finish].

Lemma harvest_loses_nothing_witness :
  ∃ ts, ts ≠ [] ∧ ∀ t, t ∈ ts → ∃ finished said conn' d',
    harvesting ex_fuel ex_claiming 8 (ex_asked (taken_claimed t)) ex_conn
      = (Listed (Ok ts) :: said ++ Set_line true :: (if finished : bool then [Finished] else []),
         Here conn')
    ∧ settled (R:=eq) ex_directory d' (Some None) t.
Proof.
  destruct (harvest_loses_nothing ex_fuel ex_claiming 8 ex_conn ex_directory)
    as [[e He]|[(conn' & d' & _ & _ & He)|(ts & Hne & Hall)]].
  - exact ex_fuel_enough.
  - reflexivity.
  - exact ex_directory_wf.
  - pose proof (ex_lists ex_fuel) as Hl. rewrite (He []) in Hl. discriminate Hl.
  - pose proof (ex_lists ex_fuel) as Hl. rewrite (He []) in Hl. discriminate Hl.
  - exists ts. split; [exact Hne|]. intros t Ht.
    destruct (Hall (ex_asked (taken_claimed t)))
      as (finished & said & conn' & d' & _ & _ & He & _ & Hs).
    + assert (taken_claimed t ∈ taken_claimed <$> ts) by by apply list_elem_of_fmap_2.
      repeat constructor; done.
    + cbn. apply NoDup_singleton.
    + reflexivity.
    + exists finished, said, conn', d'. split; [exact He|].
      pose proof (proj1 (Forall_forall _ _) Hs t Ht) as Hst.
      unfold verdict_on, ex_asked in Hst. cbn [verdicts list_to_map foldr fst snd] in Hst.
      rewrite lookup_insert_eq in Hst. exact Hst.
Defined.
End Witnesses.
