(* ===== verification/Listener.v ===== *)
(** Serving every client of a listener (src/server.rs, [serving] and
    [serving_each]): a thread per connection, each the [serve_chosen] of
    [Serve], over directories they share.

    A thread runs from one lock of its directory to the next without meeting
    another, so a connection is a machine that takes a turn at a time
    ([Phase], [turn]), and a listener's connections are an interleaving of
    turns ([farm_step]).  [ListenerProperties] shows that a connection of the
    machine is [serve_chosen], whatever the others do.  The listener's thread
    pool is the transport crate's and is an operation of [Listening]. *)

From S2P Require Import Prelude RustStd Externals Reference Wire Directory FarSpec FarRefine.
From S2P Require Import FarInvariant FarWorld FarProperties Serve.

Local Open Scope N_scope.

(** ** One connection, a turn at a time *)
Section turn.
Context `{!Platform, !TransportErrors, !Codec, !Net, !Ssh, !Keys, !SshServer}.

(** Serving a channel, with so many channels left to accept after it; or
    ended. *)
Inductive Phase : Type :=
  | In_channel (c : Channel) (hs : gmap string Handle) (next more : N)
  | Over (o : outcome error unit) (conn : Conn).

(** What comes after a channel: the next, until one does not open. *)
Definition next_channel (more : N) (conn : Conn) : Phase :=
  if more =? 0 then Over (Ok tt) conn else
  match channel_accept SUBSYSTEM conn with
  | (Ok c, _) => In_channel c ∅ 0 (more - 1)
  | (Err _, conn) => Over (Ok tt) conn
  | (o, conn) => Over (_ ← o; Ok tt) conn
  end.

Definition channel_over (more : N) (c : Channel) : Phase :=
  match channel_close c with
  | (Ok _, c) => next_channel more (channel_conn c)
  | (o, c) => Over o (channel_conn c)
  end.

(** One turn of a connection: a packet answered, or a channel closed and the
    next accepted. *)
Definition turn (env : Env) (p : Phase) (d : Directory) (i : nat) : Phase * Directory * nat :=
  match p with
  | Over _ _ => (p, d, i)
  | In_channel c hs next more =>
    let '(o, v) := serve_turn env hs next {| serving_channel := c; held := d; locks := i |} in
    (match o with
     | Ok (Some (hs, next)) => In_channel (serving_channel v) hs next more
     | Ok None => channel_over more (serving_channel v)
     | o => Over (_ ← o; Ok tt) (channel_conn (serving_channel v))
     end, held v, locks v)
  end.

Fixpoint turns (n : nat) (env : Env) (p : Phase) (d : Directory) (i : nat) :
    Phase * Directory * nat :=
  match n with
  | O => (p, d, i)
  | S n => let '(p, d, i) := turn env p d i in turns n env p d i
  end.

(** A connection up to its first channel: who logged in, the session, and the
    machine. *)
Definition begin_session (host : SigningKey) (check : Check) (most : N) (stream : TcpStream) :
    outcome error (Authenticated * bytes * Phase) :=
  conn ← conn_new stream;
  match log_in host check conn with
  | (Ok (who, id), conn) =>
    c ← (channel_accept SUBSYSTEM conn).1;
    mret (who, id, In_channel c ∅ 0 (most - 1))
  | (Err e, _) => Err e
  | (Panic, _) => Panic
  | (OutOfFuel, _) => OutOfFuel
  end.
End turn.

(** ** The listener *)

(** [std::net::TcpListener], [transport::socket] and
    [transport::concurrent::Concurrent]: [start] serves each client accepted
    on a thread of its own, until the [Concurrent] is dropped.  A handler is
    what its thread does of a stream: nothing, or a connection served over the
    directory of a key. *)
Class Listening `{!TransportErrors, !Ssh, !Keys, !SshServer} : Type := {
  TcpListener : Type;
  stream_settle : TcpStream → option N → outcome error unit;
  accept_tcp : TcpListener → option N → outcome error (TcpStream * string);
  tcp_bind : string → outcome error TcpListener;
  Concurrent : Type;
  concurrent_start : ∀ {K}, TcpListener → string → (TcpStream → option (K * Phase)) →
    outcome error Concurrent;
}.

Section listener.
Context `{!Platform, !TransportErrors, !Codec, !Net, !Ssh, !Keys, !SshServer, !Listening}.
Context {K : Type}.

(** The closure given to [Concurrent::start], over directories by key
    ([directory::Shared] is a reference to one): every outcome is dropped. *)
Definition serving_handler (host : SigningKey) (chosen : string → K) (timeout : option N)
    (check : Check) (stream : TcpStream) : option (K * Phase) :=
  match stream_settle stream timeout with
  | Ok _ =>
    match begin_session host check usize_max stream with
    | Ok (who, _, p) => Some (chosen (who_user who), p)
    | _ => None
    end
  | _ => None
  end.

(** [serving]: every client over the one shared directory. *)
Definition serving (listener : TcpListener) (host : SigningKey) (shared : K)
    (timeout : option N) (check : Check) : outcome error Concurrent :=
  concurrent_start listener "sftp-session" (serving_handler host (λ _, shared) timeout check).

(** [serving_each]: each over the directory of the user it logged in as. *)
Definition serving_each (listener : TcpListener) (host : SigningKey) (of_ : string → K)
    (timeout : option N) (check : Check) : outcome error Concurrent :=
  concurrent_start listener "sftp-session" (serving_handler host of_ timeout check).
End listener.

(** ** What the threads do, interleaved *)
Section farm.
Context `{!Platform, !TransportErrors, !Codec, !Net, !Ssh, !Keys, !SshServer}.
Context {K : Type} `{EqDecision K}.

(** The directories, and each connection: whose directory, and where it is. *)
Record Farm : Type := { store : K → Directory; conns : gmap nat (K * Phase) }.

Definition set_store (k : K) (d : Directory) (f : K → Directory) : K → Directory :=
  λ k', if decide (k' = k) then d else f k'.

(** What a turn of connection [i] does that its directory's other channels
    can see. *)
Definition turn_events (i : nat) (now : option N) (p : Phase) (d : Directory) : list event :=
  match p with
  | Over _ _ => []
  | In_channel c hs next more =>
    match channel_read_frame c with
    | (Ok (Some (kind :: rest)), c) =>
      match answer now (Byte.to_N kind) rest {| directory := d; handles := hs; next := next |} with
      | (Ok reply, _) =>
        Answered i {| session_handles := hs; session_next := next |} (Byte.to_N kind) rest reply
        :: match channel_write reply c with (Ok _, _) => [] | _ => [Closed i] end
      | _ => [Refused i]
      end
    | (Ok None, c) =>
      Closed i :: match channel_over more c with In_channel _ _ _ _ => [Began i] | Over _ _ => [] end
    | _ => [Closed i]
    end
  end.

Context (handler : TcpStream → option (K * Phase)).

(** A client is accepted, or a connection that is not over takes a turn, the
    clock reading what it does. *)
Inductive farm_step : Farm → list (K * event) → Farm → Prop :=
  | farm_accept i stream k p f :
    conns f !! i = None → handler stream = Some (k, p) →
    farm_step f [(k, Began i)] {| store := store f; conns := <[i := (k, p)]> (conns f) |}
  | farm_turn i now k c hs next more p' d' j f :
    conns f !! i = Some (k, In_channel c hs next more) →
    turn (λ _, (now, λ d, d)) (In_channel c hs next more) (store f k) O = (p', d', j) →
    farm_step f (pair k <$> turn_events i now (In_channel c hs next more) (store f k))
      {| store := set_store k d' (store f); conns := <[i := (k, p')]> (conns f) |}.

Inductive farm_run : Farm → list (K * event) → Farm → Prop :=
  | farm_nil f : farm_run f [] f
  | farm_cons f t f1 t' f' : farm_step f t f1 → farm_run f1 t' f' → farm_run f (t ++ t') f'.

(** Before any client. *)
Definition opened_farm (store : K → Directory) : Farm := {| store := store; conns := ∅ |}.
End farm.
Arguments Farm {_ _} K : assert.
