(* ===== verification/ListenerProperties.v ===== *)
(** The properties of a listener's connections: a connection taken a turn at a
    time is the connection [serve_chosen] serves; whose directory a connection
    changes; and what every interleaving of them keeps. *)

From S2P Require Import Prelude RustStd Externals Reference Wire Directory FarSpec FarRefine.
From S2P Require Import FarInvariant FarWorld FarProperties Serve ServeProperties Listener.

Local Open Scope N_scope.

(** ** A connection is its turns *)
Section turns.
Context `{!Platform, !TransportErrors, !Codec, !Net, !Ssh, !Keys, !SshServer}.

(** A turn, the packet read and the channel written in the open. *)
Lemma serve_turn_unfold env hs n c d i :
  serve_turn env hs n {| serving_channel := c; held := d; locks := i |}
  = match channel_read_frame c with
    | (Ok None, c) => (Ok None, {| serving_channel := c; held := d; locks := i |})
    | (Ok (Some []), c) =>
      (Err (protocol_error "an SFTP packet with no type"),
       {| serving_channel := c; held := d; locks := i |})
    | (Ok (Some (kind :: rest)), c) =>
      let '(o, far) := answer (env i).1 (Byte.to_N kind) rest
        {| directory := (env i).2 d; handles := hs; next := n |} in
      match o with
      | Ok reply =>
        let '(w, c) := channel_write reply c in
        (_ ← w; Ok (Some (handles far, Directory.next far)),
         {| serving_channel := c; held := directory far; locks := S i |})
      | o => (_ ← o; Ok None, {| serving_channel := c; held := directory far; locks := S i |})
      end
    | (o, c) => (_ ← o; Ok None, {| serving_channel := c; held := d; locks := i |})
    end.
Proof.
  unfold serve_turn, on_channel, mbind, M_bind. cbn [serving_channel held locks].
  destruct (channel_read_frame c) as [[[[|kind rest]|]| | |] c1]; try done.
  unfold locked_answer. cbn [serving_channel held locks].
  destruct (env i) as [now others]. cbn [fst snd].
  destruct (answer _ _ _ _) as [[reply| | |] far]; try done. cbn.
  by destruct (channel_write reply c1) as [[] c2].
Qed.

(** What is left of a connection from a point of a turn: the rest of its
    channel, and the channels after. *)
Definition rest_of (f1 f2 : nat) (env : Env) (p : Phase) (d : Directory) (i : nat) :
    outcome error unit * Connected :=
  match p with
  | Over o conn => (o, {| session_conn := conn; session_held := d; session_locks := i |})
  | In_channel c hs next more =>
    let '(o, v) := (_ ← serve_loop f1 env hs next; on_channel channel_close)
      {| serving_channel := c; held := d; locks := i |} in
    (_ ← lift o; more_channels f2 env more)
      {| session_conn := channel_conn (serving_channel v); session_held := held v;
         session_locks := locks v |}
  end.

(** A channel's close, and the channel after. *)
Lemma rest_of_channel_over f2 env more c d i :
  (more ≠ 0 → (0 < f2)%nat) →
  rest_of f2 (pred f2) env (channel_over more c) d i
  = let '(o, c) := channel_close c in
    (_ ← lift o; more_channels f2 env more)
      {| session_conn := channel_conn c; session_held := d; session_locks := i |}.
Proof.
  intros Hf. unfold channel_over, next_channel.
  destruct (channel_close c) as [[[]| | |] c1]; try done.
  unfold mbind at 2, M_bind, lift. destruct f2 as [|f2]; cbn [more_channels pred].
  - destruct (N.eqb_spec more 0) as [_|Hm]; [done|]. specialize (Hf Hm). lia.
  - destruct (N.eqb_spec more 0) as [_|Hm]; [done|].
    unfold attempt, on_conn, mbind, M_bind. cbn [session_conn session_held session_locks].
    destruct (channel_accept SUBSYSTEM (channel_conn c1)) as [[c2| | |] conn]; try done.
    unfold served_channel, rest_of. cbn [session_conn session_held session_locks].
    unfold serve, mbind, M_bind, lift.
    destruct (serve_loop _ _ _ _ _) as [[[]| | |] v]; try done.
    by destruct (on_channel channel_close v) as [[] v'].
Qed.

(** With fuel for its turns, what is left of a connection ends as its turns
    do. *)
Lemma turns_rest n : ∀ f1 f2 env p d i o conn d' i',
  (n ≤ f1)%nat → (n ≤ f2)%nat → turns n env p d i = (Over o conn, d', i') →
  rest_of f1 f2 env p d i = (o, {| session_conn := conn; session_held := d'; session_locks := i' |}).
Proof.
  induction n as [|n IH]; intros f1 f2 env p d i o conn d' i' Hf1 Hf2 Ht.
  { cbn in Ht. by simplify_eq. }
  cbn [turns] in Ht. destruct p as [c hs next more|o0 conn0].
  2: { assert (turns n env (Over o0 conn0) d i = (Over o0 conn0, d, i)) as Ho.
       { clear. by induction n as [|n IH]. }
       cbn [turn] in Ht. rewrite Ho in Ht. by simplify_eq. }
  destruct f1 as [|f1]; [lia|]. unfold turn in Ht. unfold rest_of. cbn [serve_loop].
  destruct (serve_turn env hs next _) as [[[[hs' next']|]|e| |] [c1 d1 i1]] eqn:E;
    cbn [serving_channel held locks] in Ht.
  - apply (IH f1 f2) in Ht; [|lia..]. rewrite <- Ht. unfold rest_of, mbind, M_bind.
    rewrite E. by destruct (serve_loop f1 env hs' next' _) as [[[]| | |] v].
  - apply (IH f2 (pred f2)) in Ht; [|lia..].
    rewrite rest_of_channel_over in Ht by lia. rewrite <- Ht.
    unfold mbind, M_bind. rewrite E. unfold mret, M_ret, on_channel.
    cbn [serving_channel held locks].
    by destruct (channel_close c1) as [[] c2].
  - apply (IH f1 f2) in Ht; [|lia..]. cbn in Ht. simplify_eq.
    unfold mbind, M_bind. by rewrite E.
  - apply (IH f1 f2) in Ht; [|lia..]. cbn in Ht. simplify_eq.
    unfold mbind, M_bind. by rewrite E.
  - apply (IH f1 f2) in Ht; [|lia..]. cbn in Ht. simplify_eq.
    unfold mbind, M_bind. by rewrite E.
Qed.

(** A turn takes its directory's lock, once, or does not look at it. *)
Lemma turn_lock now p d p' d' j :
  turn (λ _, (now, λ d, d)) p d O = (p', d', j) →
  (j = O ∧ d' = d ∧ ∀ env dl m, turn env p dl m = (p', dl, m))
  ∨ (j = 1%nat ∧ ∀ env dl m, (env m).1 = now → (env m).2 dl = d → turn env p dl m = (p', d', S m)).
Proof.
  destruct p as [c hs next more|o conn]; cbn [turn]; [|intros [= <- <- <-]; by left].
  rewrite serve_turn_unfold. intros Ht.
  destruct (channel_read_frame c) as [[[[|kind rest]|]| | |] c1] eqn:Hr.
  all: try (left; cbn in Ht; simplify_eq; split; [done|]; split; [done|]; intros env dl m;
    by rewrite serve_turn_unfold, Hr).
  right. assert (∀ env dl m, (env m).1 = now → (env m).2 dl = d →
    serve_turn env hs next {| serving_channel := c; held := dl; locks := m |}
    = let '(o, v) := serve_turn (λ _, (now, λ d, d)) hs next
        {| serving_channel := c; held := d; locks := O |} in
      (o, {| serving_channel := serving_channel v; held := held v; locks := S m |})) as Hs.
  { intros env dl m Hm Hd. rewrite !serve_turn_unfold, Hr, Hm, Hd. cbn [fst snd].
    destruct (answer _ _ _ _) as [[reply| | |] far]; [|done..].
    by destruct (channel_write reply c1) as [[[]| | |] c2]. }
  split.
  - destruct (answer _ _ _ _) as [[reply| | |] far]; cbn in Ht; [|by simplify_eq..].
    destruct (channel_write reply c1) as [[[]| | |] c2]; cbn in Ht; by simplify_eq.
  - intros env dl m Hm Hd. rewrite (Hs env dl m Hm Hd), serve_turn_unfold, Hr. cbn [fst snd].
    destruct (answer _ _ _ _) as [[reply| | |] far]; cbn in *; [|by simplify_eq..].
    destruct (channel_write reply c1) as [[[]| | |] c2]; cbn in *; by simplify_eq.
Qed.
End turns.

(** ** The threads, interleaved *)
Section farm.
Context `{!Platform, !TransportErrors, !Codec, !Net, !Ssh, !Keys, !SshServer, !Listening}.
Context {K : Type} `{!EqDecision K}.

Lemma set_store_other k k' d (st : K → Directory) : k' ≠ k → set_store k' d st k = st k.
Proof. intros Hk. unfold set_store. by rewrite decide_False. Qed.

Lemma set_store_same k d (st : K → Directory) : set_store k d st k = d.
Proof. unfold set_store. by rewrite decide_True. Qed.

Section handler.
Context (handler : TcpStream → option (K * Phase)).

Lemma farm_run_app f t f1 t' f' :
  farm_run handler f t f1 → farm_run handler f1 t' f' → farm_run handler f (t ++ t') f'.
Proof.
  induction 1; intros Hr; [done|]. rewrite <- (assoc_L (++)). eauto using @farm_run.
Qed.

(** *** The locks a connection's turns take *)

(** A lock of a connection's directory: what the turn found there, what the
    clock read, and what it left. *)
Record Lock : Type := { found : Directory; clock : option N; leaves : Directory }.

(** A run, and of connection [i] the locks of its turns, in order: what they
    found is the run's directory at that turn, and what they left the run's
    after it. *)
Inductive thread_locks (i : nat) : Farm K → list (K * event) → list Lock → Farm K → Prop :=
  | locks_nil f : thread_locks i f [] [] f
  | locks_accept j stream k p f t ls f' :
    conns f !! j = None → handler stream = Some (k, p) →
    thread_locks i {| store := store f; conns := <[j := (k, p)]> (conns f) |} t ls f' →
    thread_locks i f ((k, Began j) :: t) ls f'
  | locks_turn j now k c hs next more p' d' n f t ls f' :
    conns f !! j = Some (k, In_channel c hs next more) →
    turn (λ _, (now, λ d, d)) (In_channel c hs next more) (store f k) O = (p', d', n) →
    thread_locks i {| store := set_store k d' (store f); conns := <[j := (k, p')]> (conns f) |} t ls f' →
    thread_locks i f ((pair k <$> turn_events j now (In_channel c hs next more) (store f k)) ++ t)
      ((if decide (j = i) then replicate n {| found := store f k; clock := now; leaves := d' |}
        else []) ++ ls) f'.

(** Every run has them. *)
Lemma run_locks i f t f' : farm_run handler f t f' → ∃ ls, thread_locks i f t ls f'.
Proof.
  induction 1 as [f|f t0 f0 t f' Hs Hr [ls IH]]; [by exists []; constructor|].
  destruct Hs as [j stream k p f Hn Hh|j now k c hs next more p' d' n f Hc Ht].
  - exists ls. by apply (locks_accept i j stream k p).
  - eexists. by eapply locks_turn.
Qed.

(** What the others do between two locks of a connection takes the directory
    it left at the one to what it found at the other, [d] at its start; the
    locks are numbered from [m]. *)
Fixpoint carries (env : Env) (m : nat) (d : Directory) (ls : list Lock) : Prop :=
  match ls with
  | [] => True
  | l :: ls => (env m).1 = clock l ∧ (env m).2 d = found l ∧ carries env (S m) (leaves l) ls
  end.

Definition carrying (ls : list Lock) : Env := λ j,
  match ls !! j with Some l => (clock l, λ _, found l) | None => (None, λ d, d) end.

Lemma carrying_carries ls d : carries (carrying ls) O d ls.
Proof.
  enough (∀ pre d, carries (carrying (pre ++ ls)) (length pre) d ls) as Hc by apply (Hc []).
  clear d. induction ls as [|l ls IH]; intros pre d; [done|].
  assert (carrying (pre ++ l :: ls) (length pre) = (clock l, λ _, found l)) as Hl.
  { unfold carrying. by rewrite list_lookup_middle. }
  cbn [carries]. rewrite Hl. split; [done|]. split; [done|].
  specialize (IH (pre ++ [l]) (leaves l)). rewrite <- (assoc_L (++)), length_app in IH. cbn in IH.
  by rewrite Nat.add_comm in IH.
Qed.

(** The directory a connection leaves at its last lock. *)
Fixpoint left_at (d : Directory) (ls : list Lock) : Directory :=
  match ls with [] => d | l :: ls => left_at (leaves l) ls end.

(** Through a run, a connection takes its turns, over what the others left. *)
Lemma follows i k f t ls f' :
  thread_locks i f t ls f' → ∀ p, conns f !! i = Some (k, p) →
  ∃ p', conns f' !! i = Some (k, p') ∧ ∃ n, ∀ env dl m, carries env m dl ls →
    ∃ m', turns n env p dl m = (p', left_at dl ls, m').
Proof.
  induction 1 as [f|j stream k1 p1 f t ls f' Hn Hh _ IH
                 |j now k1 c hs next more p1 d1 n1 f t ls f' Hc Ht _ IH]; intros p Hi.
  - exists p. split; [done|]. exists O. by eauto.
  - apply IH. cbn [conns]. rewrite lookup_insert_ne by congruence. done.
  - case_decide as Hj; [subst j|].
    2: { apply IH. cbn [conns]. by rewrite lookup_insert_ne. }
    rewrite Hi in Hc. injection Hc as -> ->.
    destruct (IH p1) as (p' & Hi' & n & Hn); [cbn [conns]; by rewrite lookup_insert_eq|].
    exists p'. split; [done|]. exists (S n). intros env dl m Hcar. cbn [turns].
    destruct (turn_lock _ _ _ _ _ _ Ht) as [(-> & -> & Hu)|[-> Hu]]; cbn [replicate app] in *.
    + rewrite Hu. by apply Hn.
    + destruct Hcar as (Hclock & Hfound & Hcar). rewrite (Hu env dl m Hclock Hfound).
      by apply Hn.
Qed.

(** Directories that are nobody's stay as they are, until one is accepted
    over them. *)
Lemma farm_began f t f' k :
  farm_run handler f t f' → (∀ i p, conns f !! i ≠ Some (k, p)) → store f' k ≠ store f k →
  ∃ t1 f1 i stream p t2,
    t = t1 ++ (k, Began i) :: t2 ∧ farm_run handler f t1 f1 ∧ store f1 k = store f k
    ∧ conns f1 !! i = None ∧ handler stream = Some (k, p)
    ∧ farm_run handler {| store := store f1; conns := <[i := (k, p)]> (conns f1) |} t2 f'.
Proof.
  induction 1 as [f|f t0 f0 t f' Hs Hr IH]; intros Hnone Hk; [done|].
  assert (∀ e, store f0 k = store f k → (∀ i p, conns f0 !! i ≠ Some (k, p)) →
    t0 = e → ∃ t1 f1 i stream p t2,
      t0 ++ t = t1 ++ (k, Began i) :: t2 ∧ farm_run handler f t1 f1 ∧ store f1 k = store f k
      ∧ conns f1 !! i = None ∧ handler stream = Some (k, p)
      ∧ farm_run handler {| store := store f1; conns := <[i := (k, p)]> (conns f1) |} t2 f') as Hgo.
  { intros e Hst Hno ->. destruct IH as (t1 & f1 & i & stream & p & t2 & -> & Hr1 & Hs1 & Hrest);
      [done|by rewrite Hst|]. exists (e ++ t1), f1, i, stream, p, t2. rewrite <- (assoc_L (++)).
    split; [done|]. split; [by econstructor|]. split; [congruence|done]. }
  destruct Hs as [i stream k1 p f Hn Hh|i now k1 c hs next more p' d' j f Hc Ht].
  - destruct (decide (k1 = k)) as [->|Hne].
    + exists [], f, i, stream, p, t. by repeat (split; [try done; constructor|]).
    + eapply Hgo; [done| |done]. intros i' p'. cbn [conns]. rewrite lookup_insert.
      case_decide; [congruence|apply Hnone].
  - assert (k1 ≠ k) as Hne by (intros ->; by eapply Hnone).
    eapply Hgo; [cbn [store]; by rewrite set_store_other| |done]. intros i' p''. cbn [conns].
    rewrite lookup_insert. case_decide; [congruence|apply Hnone].
Qed.
End handler.

(** [serve_chosen] from its first channel on. *)
Lemma begin_serves fuel env host check most stream who id p (chosen : string → K) store :
  begin_session host check most stream = Ok (who, id, p) →
  serve_chosen fuel env stream host chosen most check store
  = let '(o, s) := rest_of fuel fuel env p (store (chosen (who_user who))) O in
    (_ ← o; Ok (who, id),
     λ k, if decide (k = chosen (who_user who)) then session_held s else store k).
Proof.
  unfold begin_session, serve_chosen. intros Hb.
  destruct (conn_new stream) as [conn0| | |]; [|done..]. cbn [mbind outcome_bind] in Hb.
  destruct (log_in host check conn0) as [[[who' id']| | |] conn]; [|done..].
  destruct (channel_accept SUBSYSTEM conn) as [[c| | |] conn1] eqn:Ha; cbn in Hb; [|done..].
  injection Hb as <- <- <-. unfold serve_session, on_conn, served_channel, rest_of, serve, mbind, M_bind, lift.
  cbn [session_conn session_held session_locks]. rewrite Ha. cbn [session_conn session_held session_locks].
  destruct (serve_loop _ _ _ _ _) as [[[]| | |] v]; try done.
  by destruct (on_channel channel_close v) as [[[]| | |] v'].
Qed.

(** C17: a listener's threads are [serve_chosen].  In whatever order the
    connections of a listener take their turns, one that was accepted and is
    over did, at the locks its turns took, what [serve_chosen] does on its
    stream where the others do, between one of its locks and the next, what
    they did in the run: it ends as the connection ended, for the user whose
    directory it is, leaves the directory as the connection's last lock left
    it, and no other directory is touched.  What is proved of [serve_chosen]
    for every environment so holds of every connection of [serving] and
    [serving_each]. *)
Theorem farm_serves host (chosen : string → K) timeout check i stream k p f t f' o conn :
  let handler := serving_handler host chosen timeout check in
  handler stream = Some (k, p) → conns f !! i = Some (k, p) →
  farm_run handler f t f' → conns f' !! i = Some (k, Over o conn) →
  ∃ ls who id n, thread_locks handler i f t ls f' ∧ k = chosen (who_user who)
    ∧ ∀ fuel env, (n ≤ fuel)%nat → carries env O (store f k) ls → ∃ store',
      serve_chosen fuel env stream host chosen usize_max check (store f)
        = (_ ← o; Ok (who, id), store')
      ∧ store' k = left_at (store f k) ls ∧ ∀ k', k' ≠ k → store' k' = store f k'.
Proof.
  intros handler Hh Hi Hr Hi'. unfold handler, serving_handler in Hh.
  destruct (stream_settle stream timeout); try done.
  destruct (begin_session host check usize_max stream) as [[[who id] p0]| | |] eqn:Hb; try done.
  injection Hh as <- <-. destruct (run_locks _ i _ _ _ Hr) as [ls Hls].
  destruct (follows _ _ _ _ _ _ _ Hls _ Hi) as (p' & Hp' & n & Hn).
  rewrite Hi' in Hp'. injection Hp' as <-. exists ls, who, id, n. do 2 (split; [done|]).
  intros fuel env Hf Hcar. destruct (Hn env _ O Hcar) as [m' Ht].
  rewrite (begin_serves _ _ _ _ _ _ _ _ _ _ _ Hb), (turns_rest _ _ _ _ _ _ _ _ _ _ _ Hf Hf Ht).
  eexists. split; [done|]. split; [by rewrite decide_True|]. intros k' Hk. by rewrite decide_False.
Qed.
End farm.

(** ** One directory of the listener's *)
Section projection.
Context `{!Platform, !TransportErrors, !Codec, !CodecLaws, !Net, !NetLaws, !Ssh, !Keys, !SshServer}.
Context {K : Type} `{!EqDecision K}.
Context (handler : TcpStream → option (K * Phase)).

(** A connection begins with a channel that has handed nothing out. *)
Definition fresh_phase (p : Phase) : Prop := ∃ c more, p = In_channel c ∅ 0 more.
Hypothesis handler_fresh : ∀ stream k p, handler stream = Some (k, p) → fresh_phase p.

Definition channel_of (k : K) (x : K * Phase) : option Session :=
  match x.2 with
  | In_channel _ hs next _ =>
    if decide (x.1 = k) then Some {| session_handles := hs; session_next := next |} else None
  | Over _ _ => None
  end.

(** The directory of [k], and the channels served over it. *)
Definition world_of (k : K) (f : Farm K) : World :=
  {| shared := store f k; sessions := omap (channel_of k) (conns f) |}.

Definition events_of (k : K) (t : list (K * event)) : list event :=
  omap (λ x, if decide (x.1 = k) then Some x.2 else None) t.

Lemma events_of_app k t t' : events_of k (t ++ t') = events_of k t ++ events_of k t'.
Proof. apply omap_app. Qed.

Lemma events_of_pairs k k' l :
  events_of k (pair k' <$> l) = if decide (k' = k) then l else [].
Proof.
  induction l as [|e l IH]; [by case_decide|]. rewrite fmap_cons.
  change (pair k' e :: (pair k' <$> l)) with ([(k', e)] ++ (pair k' <$> l)).
  rewrite events_of_app, IH. unfold events_of. simpl. by case_decide.
Qed.

Lemma world_of_insert k f i k' p st :
  world_of k {| store := st; conns := <[i := (k', p)]> (conns f) |}
  = {| shared := st k;
       sessions := match channel_of k (k', p) with
                   | Some c => <[i := c]> (sessions (world_of k f))
                   | None => delete i (sessions (world_of k f))
                   end |}.
Proof.
  unfold world_of. cbn [store conns sessions]. f_equal.
  destruct (channel_of k (k', p)) eqn:E; [by apply omap_insert_Some|by apply omap_insert_None].
Qed.

(** No more handles were handed out than [b]. *)
Definition numbered (b : N) (f : Farm K) : Prop :=
  ∀ i k c hs next more, conns f !! i = Some (k, In_channel c hs next more) → next ≤ b.

Lemma channel_over_fresh more c :
  match channel_over more c with In_channel _ hs next _ => hs = ∅ ∧ next = 0 | Over _ _ => True end.
Proof.
  unfold channel_over, next_channel. destruct (channel_close c) as [[] c1]; try done.
  destruct (more =? 0); [done|]. by destruct (channel_accept SUBSYSTEM (channel_conn c1)) as [[] ?].
Qed.

Lemma answer_next now kind body s reply s' :
  wf_far s → next s < u64_max → answer now kind body s = (Ok reply, s') → next s' ≤ next s + 1.
Proof.
  intros Hs Hn Ha. pose proof (answer_decodes now kind body s Hs Hn) as Hd. unfold refines in Hd.
  rewrite Ha in Hd. destruct (decode kind body) as [r| | |]; try done.
  pose proof (execute_next now r s). destruct (execute now r s). naive_solver.
Qed.

(** A channel closed. *)
Lemma closed_steps i d ss s :
  ss !! i = Some s →
  steps {| shared := d; sessions := ss |} [Closed i] {| shared := d; sessions := delete i ss |}.
Proof.
  intros Hs. eapply steps_cons; [|apply steps_nil].
  exact (step_closed i {| shared := d; sessions := ss |} s Hs).
Qed.

(** A turn is steps of the world of its directory. *)
Lemma turn_steps i now k f c hs next more p' d' j :
  wf_world (world_of k f) → next < u64_max →
  conns f !! i = Some (k, In_channel c hs next more) →
  turn (λ _, (now, λ d, d)) (In_channel c hs next more) (store f k) O = (p', d', j) →
  steps (world_of k f) (turn_events i now (In_channel c hs next more) (store f k))
    {| shared := d'; sessions := match channel_of k (k, p') with
                                 | Some c => <[i := c]> (sessions (world_of k f))
                                 | None => delete i (sessions (world_of k f))
                                 end |}
  ∧ match p' with In_channel _ _ n _ => n ≤ next + 1 | Over _ _ => True end.
Proof.
  intros Hw Hn Hi Ht. set (s := {| session_handles := hs; session_next := next |}).
  assert (sessions (world_of k f) !! i = Some s) as Hs.
  { unfold world_of. cbn [sessions]. rewrite lookup_omap, Hi. cbn. by rewrite decide_True. }
  assert (wf_far {| directory := store f k; handles := hs; Directory.next := next |}) as Hfar
    by (apply (world_far _ Hw _ _ Hs)).
  assert (∀ d, steps {| shared := d; sessions := sessions (world_of k f) |} [Closed i]
    {| shared := d; sessions := delete i (sessions (world_of k f)) |}) as Hclosed
    by (intros d; by eapply closed_steps).
  cbn [turn] in Ht. rewrite serve_turn_unfold in Ht. cbn [turn_events].
  destruct (channel_read_frame c) as [[[[|kind rest]|]| | |] c1] eqn:Hr;
    cbn in Ht; try by (simplify_eq; split; [apply Hclosed|]).
  - cbn [fst snd] in Ht.
    pose proof (answer_decodes now (Byte.to_N kind) rest _ Hfar Hn) as Hd. unfold refines in Hd.
    destruct (answer now (Byte.to_N kind) rest _) as [[reply|e| |] far] eqn:Ha; cbn in Ht.
    3-4: destruct (decode_answers (Byte.to_N kind) rest) as [[r Hdr]|[e Hde]];
      [rewrite Hdr in Hd|rewrite Hde in Hd]; [|done]; by destruct (execute _ _ _).
    + pose proof (answer_next _ _ _ _ _ _ Hfar Hn Ha) as Hnext. cbn [Directory.next] in Hnext.
      pose proof (step_answered i (world_of k f) s now (Byte.to_N kind) rest reply far Hs Hn Ha)
        as Hstep.
      assert (steps {| shared := directory far;
                       sessions := <[i := session_of far]> (sessions (world_of k f)) |} [Closed i]
        {| shared := directory far; sessions := delete i (sessions (world_of k f)) |}) as Hend.
      { rewrite <- (delete_insert_eq (sessions (world_of k f)) i (session_of far)).
        eapply closed_steps, lookup_insert_eq. }
      destruct (channel_write reply c1) as [[[]| | |] c2]; cbn in Ht; simplify_eq; cbn;
        rewrite ?decide_True by done; (split; [|done]);
        (eapply steps_cons; [exact Hstep|]); [apply steps_nil|exact Hend..].
    + simplify_eq. split; [|done]. eapply steps_cons; [|apply steps_nil].
      by apply (step_refused i (world_of k f) s now (Byte.to_N kind) rest e far).
  - simplify_eq. pose proof (channel_over_fresh more c1) as Hf.
    destruct (channel_over more c1) as [c2 hs2 n2 m2|o2 conn2]; cbn.
    + destruct Hf as [-> ->]. split; [|lia]. rewrite decide_True by done.
      eapply steps_cons; [by apply (step_closed i (world_of k f) s)|].
      eapply steps_cons; [apply step_began, lookup_delete_eq|]. cbn.
      rewrite insert_delete_eq. apply steps_nil.
    + split; [apply Hclosed|done].
Qed.

Lemma channel_of_other k k' p : k' ≠ k → channel_of k (k', p) = None.
Proof. intros Hk. unfold channel_of. destruct p; cbn; [|done]. by rewrite decide_False. Qed.

Lemma turn_events_some i now c hs next more d :
  (1 ≤ length (turn_events i now (In_channel c hs next more) d))%nat.
Proof.
  cbn [turn_events]. destruct (channel_read_frame c) as [[[[|kind rest]|]| | |] c1]; simpl; try lia.
  destruct (answer _ _ _ _) as [[] far]; simpl; lia.
Qed.

Lemma farm_step_events f t f' : farm_step handler f t f' → (1 ≤ length t)%nat.
Proof.
  intros []; [simpl; lia|]. rewrite length_fmap. apply turn_events_some.
Qed.

Lemma delete_none k f i k' p :
  conns f !! i = None ∨ (∃ x, conns f !! i = Some x ∧ x.1 ≠ k) → k' ≠ k →
  sessions (world_of k {| store := store f; conns := <[i := (k', p)]> (conns f) |})
  = sessions (world_of k f).
Proof.
  intros Hi Hk. rewrite world_of_insert, channel_of_other by done. cbn [sessions].
  apply delete_id. unfold world_of. cbn [sessions]. rewrite lookup_omap.
  destruct Hi as [->|([k1 p1] & -> & Hk1)]; [done|]. by apply channel_of_other.
Qed.

(** A step of the listener's is steps of each directory's world, none for a
    directory it is not about. *)
Lemma farm_step_world f t f' b :
  (∀ k, wf_world (world_of k f)) → numbered b f → b < u64_max → farm_step handler f t f' →
  (∀ k, steps (world_of k f) (events_of k t) (world_of k f')) ∧ numbered (b + 1) f'.
Proof.
  intros Hw Hb Hu Hs. destruct Hs as [i stream k p f Hn Hh|i now k c hs next more p' d' j f Hi Ht].
  - destruct (handler_fresh _ _ _ Hh) as (c & more & ->). split.
    + intros k'. change [(k, Began i)] with (pair k <$> [Began i]). rewrite events_of_pairs.
      case_decide as Hk; [subst k'|].
      * rewrite world_of_insert. unfold channel_of. cbn [fst snd]. rewrite decide_True by done.
        eapply steps_cons; [|apply steps_nil]. apply step_began. unfold world_of. cbn [sessions].
        by rewrite lookup_omap, Hn.
      * pose proof (delete_none k' f i k (In_channel c ∅ 0 more) (or_introl Hn) Hk) as Hd.
        unfold world_of in *. cbn [store conns sessions] in *. rewrite Hd. apply steps_nil.
    + intros i' k' c' hs' n' more'. cbn [conns]. rewrite lookup_insert. case_decide.
      * intros [= <- <- <- <- <-]. lia.
      * intros Hc. specialize (Hb _ _ _ _ _ _ Hc). lia.
  - pose proof (Hb _ _ _ _ _ _ Hi) as Hn.
    destruct (turn_steps i now k f c hs next more p' d' j (Hw k) ltac:(lia) Hi Ht) as [Hst Hp].
    split.
    + intros k'. rewrite events_of_pairs. case_decide as Hk; [subst k'|].
      * by rewrite world_of_insert, set_store_same.
      * pose proof (delete_none k' f i k p' (or_intror (ex_intro _ _ (conj Hi Hk))) Hk) as Hd.
        unfold world_of in *. cbn [store conns sessions] in *. rewrite Hd, set_store_other by done.
        apply steps_nil.
    + intros i' k' c' hs' n' more'. cbn [conns]. rewrite lookup_insert. case_decide.
      * intros [= <- ->]. lia.
      * intros Hc. specialize (Hb _ _ _ _ _ _ Hc). lia.
Qed.

Lemma farm_run_world f t f' : farm_run handler f t f' → ∀ b,
  (∀ k, wf_world (world_of k f)) → numbered b f → b + N.of_nat (length t) ≤ u64_max →
  ∀ k, steps (world_of k f) (events_of k t) (world_of k f').
Proof.
  induction 1 as [f|f t f1 t' f' Hs Hr IH]; intros b Hw Hb Hu k; [apply steps_nil|].
  rewrite length_app in Hu. pose proof (farm_step_events _ _ _ Hs) as Hl.
  destruct (farm_step_world f t f1 b Hw Hb ltac:(lia) Hs) as [Hst Hb1].
  rewrite events_of_app. apply steps_app. exists (world_of k f1). split; [apply Hst|].
  apply (IH (b + 1)); [|done|lia]. intros k'. eapply steps_wf; [apply Hw|apply Hst].
Qed.

Lemma opened_world (st : K → Directory) k :
  (∀ k, wf_directory (st k)) → wf_world (world_of k (opened_farm st)).
Proof.
  intros Hst. constructor; [apply Hst|]. unfold world_of, opened_farm. cbn [conns sessions].
  intros i c. by rewrite lookup_omap, lookup_empty.
Qed.

Lemma opened_numbered (st : K → Directory) : numbered 0 (opened_farm st).
Proof. intros i k c hs next more. unfold opened_farm. cbn [conns]. by rewrite lookup_empty. Qed.
End projection.

(** ** Properties of a listener *)
Section listener.
Context `{!Platform, !TransportErrors, !Codec, !Net, !Ssh, !Keys, !SshServer, !Listening}.
Context {K : Type} `{!EqDecision K}.

Lemma serving_handler_fresh host (chosen : string → K) timeout check stream k p :
  serving_handler host chosen timeout check stream = Some (k, p) → fresh_phase p.
Proof.
  unfold serving_handler, begin_session. intros Hh.
  destruct (stream_settle stream timeout); try done.
  destruct (conn_new stream) as [conn| | |]; try done. cbn in Hh.
  destruct (log_in host check conn) as [[[who id]| | |] conn']; try done.
  destruct (channel_accept SUBSYSTEM conn') as [[c| | |] conn'']; try done.
  cbn in Hh. injection Hh as <- <-. by eexists _, _.
Qed.

(** Who a handled stream is served for: a login the check admitted on it,
    after the key exchange. *)
Lemma serving_handler_login host (chosen : string → K) timeout check stream k p :
  serving_handler host chosen timeout check stream = Some (k, p) →
  ∃ conn0 peer conn1 exchanged conn2 who conn3,
    conn_new stream = Ok conn0 ∧ conn_banner conn0 = (Ok peer, conn1)
    ∧ kex_server host peer conn1 = (Ok exchanged, conn2)
    ∧ userauth_serve (session_id exchanged) check conn2 = (Ok who, conn3)
    ∧ k = chosen (who_user who).
Proof.
  unfold serving_handler, begin_session. intros Hh.
  destruct (stream_settle stream timeout); try done.
  destruct (conn_new stream) as [conn| | |]; try done. cbn in Hh.
  destruct (log_in host check conn) as [[[who id]| | |] conn'] eqn:E; try done.
  destruct (channel_accept SUBSYSTEM conn') as [[c| | |] conn'']; try done.
  cbn in Hh. injection Hh as <- <-. unfold log_in in E.
  apply bind_inv_ok in E as (peer & conn1 & Hb & E).
  apply bind_inv_ok in E as (exchanged & conn2 & Hx & E).
  apply bind_inv_ok in E as (who' & conn3 & Ha & E). injection E as -> <- <-. eauto 15.
Qed.

(** C24: each over the directory of the user it logged in as.  In whatever
    order a listener's connections take their turns, a directory that is other
    than it was when the listener opened was so until the listener, in that
    run, accepted a stream a client logged in on: after the key exchange, as a
    user the check admitted, whose directory it is. *)
Theorem farm_each_own host (chosen : string → K) timeout check st t f k :
  let handler := serving_handler host chosen timeout check in
  farm_run handler (opened_farm st) t f → store f k ≠ st k →
  ∃ t1 f1 i stream p t2,
    (t = t1 ++ (k, Began i) :: t2 ∧ farm_run handler (opened_farm st) t1 f1
     ∧ store f1 k = st k ∧ conns f1 !! i = None ∧ handler stream = Some (k, p)
     ∧ farm_run handler {| store := store f1; conns := <[i := (k, p)]> (conns f1) |} t2 f)
    ∧ ∃ conn0 peer conn1 exchanged conn2 who conn3,
        conn_new stream = Ok conn0 ∧ conn_banner conn0 = (Ok peer, conn1)
        ∧ kex_server host peer conn1 = (Ok exchanged, conn2)
        ∧ userauth_serve (session_id exchanged) check conn2 = (Ok who, conn3)
        ∧ k = chosen (who_user who).
Proof.
  intros handler Hr Hk.
  destruct (farm_began _ _ _ _ k Hr)
    as (t1 & f1 & i & stream & p & t2 & Ht & Hr1 & Hs1 & Hn & Hh & Hr2); [|exact Hk|].
  - intros i p. unfold opened_farm. cbn [conns]. by rewrite lookup_empty.
  - exists t1, f1, i, stream, p, t2. split; [done|]. by eapply serving_handler_login.
Qed.
End listener.

Section claims.
Context `{!Platform, !TransportErrors, !Codec, !CodecLaws, !Net, !NetLaws, !Ssh, !Keys, !SshServer,
          !Listening}.
Context {K : Type} `{!EqDecision K}.

(** C13: nodes racing at one server take each file once.  In whatever order
    the connections of a listener take their turns, and whichever of them
    share a directory: of two renames of one name in one directory that are
    both answered OK something made a file of that name in between, and of
    two exclusive opens that both succeed something took it away. *)
Theorem farm_claims host (chosen : string → K) timeout check st t f k n t1 e1 t2 e2 t3 :
  (∀ k, wf_directory (st k)) → N.of_nat (length t) ≤ u64_max →
  farm_run (serving_handler host chosen timeout check) (opened_farm st) t f →
  events_of k t = t1 ++ e1 :: t2 ++ e2 :: t3 →
  (renamed_away n e1 → renamed_away n e2 → existsb (may_make n) t2 = true)
  ∧ (created_exclusively n e1 → created_exclusively n e2 → existsb (may_take n) t2 = true).
Proof.
  intros Hst Hl Hr He. pose proof (opened_world st k Hst) as Hw.
  pose proof (farm_run_world _ (serving_handler_fresh host chosen timeout check) _ _ _ Hr 0
    (λ k, opened_world st k Hst) (opened_numbered st) Hl k) as Hs.
  rewrite He in Hs. split; intros; [by eapply renames_apart|by eapply creates_apart].
Qed.
End claims.

(** ** Running a listener: a client is accepted, or a connection takes a turn *)
Section run.
Context `{!Platform, !TransportErrors, !Codec, !Net, !Ssh, !Keys, !SshServer}.
Context {K : Type} `{!EqDecision K}.
Context (handler : TcpStream → option (K * Phase)).

Fixpoint run_farm (l : list (nat * (TcpStream + option N))) (f : Farm K) :
    option (list (K * event) * Farm K) :=
  match l with
  | [] => Some ([], f)
  | (i, x) :: l =>
    '(t, f) ←
      match x, conns f !! i with
      | inl stream, None =>
        '(k, p) ← handler stream;
        Some ([(k, Began i)], {| store := store f; conns := <[i := (k, p)]> (conns f) |})
      | inr now, Some (k, In_channel c hs next more) =>
        let p := In_channel c hs next more in
        let '(p', d', _) := turn (λ _, (now, λ d, d)) p (store f k) O in
        Some (pair k <$> turn_events i now p (store f k),
              {| store := set_store k d' (store f); conns := <[i := (k, p')]> (conns f) |})
      | _, _ => None
      end;
    '(t', f) ← run_farm l f;
    Some (t ++ t', f)
  end.

Lemma run_farm_run l : ∀ f t f', run_farm l f = Some (t, f') → farm_run handler f t f'.
Proof.
  induction l as [|[i x] l IH]; intros f t f' Hr; cbn [run_farm] in Hr; [simplify_eq; constructor|].
  apply bind_Some in Hr as [[t1 f1] [Hs Hr]]. apply bind_Some in Hr as [[t2 f2] [Hl Hr]].
  simplify_eq. eapply farm_cons; [|by apply IH].
  destruct x as [stream|now], (conns f !! i) as [[k [c hs next more|]]|] eqn:Hi; try done.
  - apply bind_Some in Hs as [[k p] [Hh Hs]]. simplify_eq. by eapply farm_accept.
  - destruct (turn _ _ _ _) as [[p' d'] j] eqn:Ht. simplify_eq. by eapply farm_turn.
Qed.
End run.

(** ** Witnesses: two clients of one listener *)
Module Witnesses.
Import Reference.Instances FarProperties.Witnesses ServeProperties.Witnesses.
#[local] Existing Instances script_ssh script_server.

Definition script_listening : Listening := {|
  TcpListener := unit;
  stream_settle _ _ := Ok tt;
  accept_tcp _ _ := Err (retryable "nobody calls");
  tcp_bind _ := Ok tt;
  Concurrent := unit;
  concurrent_start _ _ _ _ := Ok tt;
|}.
#[local] Existing Instance script_listening.

(** Each user's directory, by its name. *)
Definition ex_handler : @TcpStream _ _ _ script_server → option (string * Phase) :=
  serving_handler (signing_key_of []) (λ u, u) None ex_check.
Definition ex_store (u : string) : Directory := ex_directory.

Lemma ex_store_wf u : wf_directory (ex_store u).
Proof. exact ex_directory_wf. Qed.

(** One renames the file and puts it again, the other renames it; each takes
    an exclusive turn, removed in between. *)
Definition ex_first : @TcpStream _ _ _ script_server :=
  [[ex_frame (RqOpen 1 "turn" turn_flags); ex_frame (RqRename 2 "a.edi" "claim.0");
    ex_frame (RqOpen 3 "a.edi" (F_WRITE + F_CREAT)); ex_frame (RqRemove 4 "turn")]].
Definition ex_second : @TcpStream _ _ _ script_server :=
  [[ex_frame (RqOpen 1 "turn" turn_flags); ex_frame (RqRename 2 "a.edi" "claim.1")]].
Definition ex_schedule : list (nat * (@TcpStream _ _ _ script_server + option N)) :=
  [(0%nat, inl ex_first); (1%nat, inl ex_second); (0%nat, inr (Some 7)); (0%nat, inr (Some 8));
   (0%nat, inr None); (0%nat, inr (Some 9)); (1%nat, inr (Some 9)); (1%nat, inr (Some 9));
   (1%nat, inr None); (0%nat, inr None)].

Definition ex_run := run_farm ex_handler ex_schedule (opened_farm ex_store).
Definition ex_trace := match ex_run with Some (t, _) => t | None => [] end.
Definition ex_farm := match ex_run with Some (_, f) => f | None => opened_farm ex_store end.
Definition ex_of : list event := Eval vm_compute in events_of "party" ex_trace.

Lemma ex_farm_run : farm_run ex_handler (opened_farm ex_store) ex_trace ex_farm.
Proof.
  apply (run_farm_run _ ex_schedule). change (ex_run = Some (ex_trace, ex_farm)).
  assert (match ex_run with Some _ => true | None => false end = true) as Hr
    by (vm_compute; reflexivity).
  unfold ex_trace, ex_farm. by destruct ex_run as [[t f]|].
Qed.

Lemma farm_claims_witness :
  existsb (may_make "a.edi") (take 3 (drop 4 ex_of)) = true
  ∧ existsb (may_take "turn") (take 3 (drop 3 ex_of)) = true.
Proof.
  assert (renamed_away "a.edi" (nth 3 ex_of (Closed 0))) as Hr1
    by (do 5 eexists; exists 2, "claim.0"; by vm_compute).
  assert (renamed_away "a.edi" (nth 7 ex_of (Closed 0))) as Hr2
    by (clear Hr1; do 5 eexists; exists 2, "claim.1"; by vm_compute).
  assert (created_exclusively "turn" (nth 2 ex_of (Closed 0))) as Hc1
    by (clear Hr1 Hr2; do 5 eexists; exists 1, turn_flags; by vm_compute).
  assert (created_exclusively "turn" (nth 6 ex_of (Closed 0))) as Hc2
    by (clear Hr1 Hr2 Hc1; do 5 eexists; exists 1, turn_flags; by vm_compute).
  assert (events_of "party" ex_trace = ex_of) as He by (vm_compute; reflexivity).
  assert (N.of_nat (length ex_trace) ≤ u64_max) as Hl by (vm_compute; discriminate).
  split.
  - exact (proj1 (farm_claims (signing_key_of []) (λ u, u) None ex_check ex_store ex_trace ex_farm
      "party" "a.edi" (take 3 ex_of) (nth 3 ex_of (Closed 0)) (take 3 (drop 4 ex_of))
      (nth 7 ex_of (Closed 0)) (drop 8 ex_of) ex_store_wf Hl ex_farm_run He) Hr1 Hr2).
  - exact (proj2 (farm_claims (signing_key_of []) (λ u, u) None ex_check ex_store ex_trace ex_farm
      "party" "turn" (take 2 ex_of) (nth 2 ex_of (Closed 0)) (take 3 (drop 3 ex_of))
      (nth 6 ex_of (Closed 0)) (drop 7 ex_of) ex_store_wf Hl ex_farm_run He) Hc1 Hc2).
Defined.

Lemma farm_each_own_witness :
  ∃ t1 i t2 stream conn2 who conn3, ex_trace = t1 ++ ("party", Began i) :: t2
    ∧ conn_new stream = Ok conn2
    ∧ @userauth_serve _ _ _ script_server [] ex_check conn2 = (Ok who, conn3)
    ∧ "party" = who_user who.
Proof.
  destruct (farm_each_own (signing_key_of []) (λ u, u) None ex_check ex_store ex_trace ex_farm
    "party" ex_farm_run) as (t1 & f1 & i & stream & p & t2 & (Ht & _)
                             & c0 & peer & c1 & x & c2 & who & c3 & Hc & Hb & Hx & Ha & Hk).
  - intros Heq. apply (f_equal (λ d, files d !! "claim.0")) in Heq. vm_compute in Heq. discriminate.
  - injection Hb as <- <-. injection Hx as <- <-. exists t1, i, t2, stream, c0, who, c3.
    exact (conj Ht (conj Hc (conj Ha Hk))).
Defined.

(** The first connection, from its acceptance to its end. *)
Definition ex_phase : Phase := In_channel ({| script_in := concat ex_first; script_out := [] |}, [])
  ∅ 0 (usize_max - 1).
Definition ex_begun : Farm string :=
  {| store := ex_store; conns := {[0%nat := ("party", ex_phase)]} |}.
Definition ex_rest := run_farm ex_handler (drop 1 ex_schedule) ex_begun.
Definition ex_rest_trace := match ex_rest with Some (t, _) => t | None => [] end.
Definition ex_ended := match ex_rest with Some (_, f) => f | None => ex_begun end.

Lemma farm_serves_witness :
  ∃ ls n store' who id, "party" = who_user who
    ∧ serve_chosen n (carrying ls) ex_first (signing_key_of []) (λ u, u) usize_max ex_check ex_store
      = (Ok (who, id), store')
    ∧ store' "party" = left_at ex_directory ls.
Proof.
  assert (match ex_rest with Some _ => true | None => false end = true) as Hsome
    by (vm_compute; reflexivity).
  assert (farm_run ex_handler ex_begun ex_rest_trace ex_ended) as Hr.
  { apply (run_farm_run _ (drop 1 ex_schedule)).
    change (ex_rest = Some (ex_rest_trace, ex_ended)).
    unfold ex_rest_trace, ex_ended. by destruct ex_rest as [[t f]|]. }
  clear Hsome.
  assert (match conns ex_ended !! 0%nat with Some (_, Over (Ok tt) _) => true | _ => false end = true)
    as Hover by (vm_compute; reflexivity).
  assert (option_map fst (conns ex_ended !! 0%nat) = Some "party") as Hkey
    by (vm_compute; reflexivity).
  destruct (conns ex_ended !! 0%nat) as [[k [|o conn]]|] eqn:E; [discriminate Hover| |discriminate Hover].
  destruct o as [[]|e| |]; [|discriminate Hover..]. injection Hkey as ->.
  destruct (farm_serves (signing_key_of []) (λ u, u) None ex_check 0%nat ex_first "party" ex_phase
    ex_begun ex_rest_trace ex_ended (Ok tt) conn) as (ls & who & id & n & _ & Hk & Hs);
    [reflexivity|reflexivity|exact Hr|exact E|].
  destruct (Hs n (carrying ls) (le_n n) (carrying_carries ls _)) as (store' & Hserve & Hleft & _).
  exists ls, n, store', who, id. exact (conj Hk (conj Hserve Hleft)).
Defined.
End Witnesses.
