(* ===== verification/Transport.v ===== *)
(** The transport a Location is built on (src/lib.rs): how it is built and what
    it declares, what it presents, how an address names a server and a file,
    and what it does over the connections its pool keeps: receive, send, and
    look after its claims.

    The claim, the pool, the pins, the Location's secret, the URI reader and
    the file family's naming are other crates' and are operations of
    [Surroundings], [Pooling] and [Capabilities]. *)

From Stdlib Require Import Ascii.
From S2P Require Import Prelude RustStd Externals Reference Wire Directory FarSpec FarRefine.
From S2P Require Import FarInvariant FarWorld FarProperties Replies Client Site Session.
From S2P Require Import Connect Connection.

Local Open Scope N_scope.

(** [xcore::SecretKind]. *)
Inductive SecretKind : Type :=
  | SecretPassword
  | SecretKey
  | SecretCertificate.

Class Surroundings `{!TransportErrors, !Codec, !Ssh, !Keys, !SshClient, !Claims} : Type := {
  (** [net::Target::under]: the URI under one of these schemes. *)
  Target : Type;
  target_under : list string → string → option Target;
  target_authority : Target → string;
  target_path : Target → string;
  target_user : Target → option string;
  (** [transport::Secured] and the secret it names, read now. *)
  Secured : Type;
  Secret : Type;
  secured_name : Secured → string;
  secured_secret : Secured → outcome error Secret;
  secret_kind : Secret → SecretKind;
  secret_text : Secret → string;
  (** [ssh::private_key::ed25519]: the key, or why it is refused. *)
  private_key_ed25519 : string → SigningKey + string;
  (** [transport::claim::Claiming] by its claimant. *)
  claiming_process : Claiming;
  Held : Type;
  claiming_held : Claiming → list Held;
  NodeLocation : Type;
  claiming_recovering : NodeLocation → Claiming;
  (** Pins kept in memory, and the time a loopback waits. *)
  pins_in_memory : Pinned;
  loopback_timeout : N;
}.

(** [transport::Pool] of connections by server: [exchange] runs an act on a
    connection kept for the key, or on one it opens. *)
Class Pooling `{!TransportErrors, !Ssh, !Keys, !SshClient} : Type := {
  Pool : Type;
  pool_new : Pool;
  pool_exchange : ∀ {A}, string → M Pinned error Line → M Line error A →
    M (Pool * Pinned) error A;
}.

Section transport.
Context `{!TransportErrors, !Codec, !Ssh, !Keys, !SshClient, !Claims, !Surroundings, !Pooling}.

Record SftpTransport : Type := {
  endpoint : string;
  user : string;
  credential : option Credential;
  secured : option Secured;
  timeout : option N;
  transport_pins : Pinned;
  clients : Pool;
  claim_state : Claiming;
}.

Definition SCHEMES : list string := ["sftp"].

(** [Self::new]: as no one, presenting nothing. *)
Definition new_transport (at_ : string) : SftpTransport :=
  {| endpoint := at_; user := ""; credential := None; secured := None; timeout := None;
     transport_pins := pins_in_memory; clients := pool_new; claim_state := claiming_process |}.

Definition as_user (u : string) (t : SftpTransport) : SftpTransport :=
  {| endpoint := endpoint t; user := u; credential := credential t; secured := secured t;
     timeout := timeout t; transport_pins := transport_pins t; clients := clients t;
     claim_state := claim_state t |}.

Definition presenting (c : Credential) (t : SftpTransport) : SftpTransport :=
  {| endpoint := endpoint t; user := user t; credential := Some c; secured := secured t;
     timeout := timeout t; transport_pins := transport_pins t; clients := clients t;
     claim_state := claim_state t |}.
Definition with_password (p : string) : SftpTransport → SftpTransport := presenting (Password p).
Definition with_key (k : SigningKey) : SftpTransport → SftpTransport := presenting (PublicKeyOf k).

Definition timing_out_after (n : N) (t : SftpTransport) : SftpTransport :=
  {| endpoint := endpoint t; user := user t; credential := credential t; secured := secured t;
     timeout := Some n; transport_pins := transport_pins t; clients := clients t;
     claim_state := claim_state t |}.

Definition on_node (node : NodeLocation) (t : SftpTransport) : SftpTransport :=
  {| endpoint := endpoint t; user := user t; credential := credential t; secured := secured t;
     timeout := timeout t; transport_pins := transport_pins t; clients := clients t;
     claim_state := claiming_recovering node |}.

Definition pinned_by (p : Pinned) (t : SftpTransport) : SftpTransport :=
  {| endpoint := endpoint t; user := user t; credential := credential t; secured := secured t;
     timeout := timeout t; transport_pins := p; clients := clients t; claim_state := claim_state t |}.

Definition secured_by (s : Secured) (t : SftpTransport) : SftpTransport :=
  {| endpoint := endpoint t; user := user t; credential := credential t; secured := Some s;
     timeout := timeout t; transport_pins := transport_pins t; clients := clients t;
     claim_state := claim_state t |}.

Definition LOOPBACK_SEED : bytes := replicate 32 (byte_of_N 0x7c).

Definition loopback : SftpTransport :=
  timing_out_after loopback_timeout
    (with_key (signing_key_of LOOPBACK_SEED) (as_user "xmip" (new_transport "127.0.0.1:0"))).

(** The claimed files this Location could not return yet. *)
Definition transport_held (t : SftpTransport) : list Held := claiming_held (claim_state t).

(** [Configured::own_terms]: the whole address. *)
Definition own_terms (address : string) : string := address.

(** [Configured::configured]: the user comes from the address. *)
Definition configured (address : string) (optional_timeout : option N) : SftpTransport :=
  let t := new_transport address in
  let t := match target_under SCHEMES address ≫= target_user with
           | Some u => as_user u t
           | None => t
           end in
  match optional_timeout with
  | Some n => timing_out_after n t
  | None => t
  end.

(** The authority the endpoint names, or the endpoint itself where it is bare. *)
Definition authority (t : SftpTransport) : string :=
  match target_under SCHEMES (endpoint t) with
  | Some named => target_authority named
  | None => endpoint t
  end.
End transport.

(** [str::split('/')]: the segments between slashes, one at the least. *)
Fixpoint segments (path : string) : list string :=
  match path with
  | EmptyString => [EmptyString]
  | String c rest =>
    if Ascii.eqb c "/"%char then EmptyString :: segments rest
    else match segments rest with
         | s :: ss => String c s :: ss
         | [] => []
         end
  end.

(** The last segment of [path], the file's own name: the first of [rsplit]. *)
Definition last_segment (path : string) : string := default path (head (rev (segments path))).

Section naming.
Context `{!TransportErrors, !Codec, !Ssh, !Keys, !SshClient, !Claims, !Surroundings, !Pooling}.

(** A target names the server and the file, or is a name alone on this
    transport's server. *)
Definition resolve (t : SftpTransport) (target : string) : string * string :=
  match target_under SCHEMES target with
  | Some named => (target_authority named, last_segment (target_path named))
  | None => (authority t, target)
  end.

(** What it authenticates with now. *)
Definition presented (t : SftpTransport) : outcome error (option Credential) :=
  match secured t with
  | None => Ok (credential t)
  | Some s =>
    secret ← secured_secret s;
    match secret_kind secret with
    | SecretPassword => Ok (Some (Password (secret_text secret)))
    | SecretKey =>
      match private_key_ed25519 (secret_text secret) with
      | inl key => Ok (Some (PublicKeyOf key))
      | inr refused =>
        Err (permanent ("the secret '" +:+ secured_name s +:+ "': " +:+ refused))
      end
    | SecretCertificate =>
      Err (permanent ("the secret '" +:+ secured_name s
                      +:+ "' is a certificate; sftp presents a password or a key"))
    end
  end.

(** Connect and authenticate, as both [send] and [receive] do. *)
Definition transport_connect (t : SftpTransport) (address : string) : M Dialing error Client :=
  presented ← lift (presented t);
  connect address (user t) presented (timeout t).
End naming.

(** ** What it does over a kept connection *)
Section operations.
Context `{!TransportErrors, !Codec, !Ssh, !Keys, !SshClient, !Outgoings, !Claims, !Surroundings,
          !Pooling}.

(** A connection the pool opens to [address]: connected, logged in, its client
    on the line. *)
Definition open_connection (t : SftpTransport) (address : string) : M Pinned error Line := fun p =>
  let '(o, d) := transport_connect t address {| pins := p; wire := None |} in
  (client ← o; Ok (Here client), pins d).

(** [self.clients.exchange]: the pool and the pins are shared by everyone who
    has the transport, and are what changes of it. *)
Definition exchange_on {A} (address : string) (act : M Line error A) : M SftpTransport error A :=
  fun t =>
  let '(o, (pool, p)) :=
    pool_exchange address (open_connection t address) act (clients t, transport_pins t) in
  (o, {| endpoint := endpoint t; user := user t; credential := credential t;
         secured := secured t; timeout := timeout t; transport_pins := p; clients := pool;
         claim_state := claim_state t |}).

(** The origin of an arrival. *)
Definition origin_of (t : SftpTransport) (name : string) : string :=
  "sftp://" +:+ authority t +:+ "/" +:+ name.

(** List and claim at most [most] files, and hand each back unread; [started]
    and [requests] are [harvest]'s. *)
Definition receive_up_to (fuel : nat) (most : N) (started : option error)
    (requests : list Request) : M SftpTransport error (list Arrival) := fun t =>
  exchange_on (authority t)
    (harvest fuel (origin_of t) (claim_state t) most started requests) t.

(** [transport::file_name::file_name]: the name the Message was received
    under, else its identifier, else the target's own. *)
Context (file_name : Outgoing → string → string → outcome error string).

(** Put the file on the connection kept for its server, by the name the file
    family gives it. *)
Definition send_from (target : string) (outgoing : Outgoing) : M SftpTransport error unit :=
  fun t =>
  let '(address, given) := resolve t target in
  (name ← lift (file_name outgoing given address);
   exchange_on address (with_line (client_put name outgoing))) t.

(** [Sited::with_site]: [act] on a channel of its own over the connection kept
    for the server. *)
Definition with_site {A} (act : M Sftp error A) : M SftpTransport error A := fun t =>
  exchange_on (authority t) (with_line (with_subsystem act)) t.

(** [Sited::claiming], and the claim as the resource's. *)
Definition transport_claiming (t : SftpTransport) : Claiming := claim_state t.
Definition transport_claims (t : SftpTransport) : option SftpTransport := Some t.
End operations.

(** ** What it declares *)

(** The vocabulary of the transport capability and of its settings. *)
Class Capabilities : Type := {
  Directions : Type;
  directions_both : Directions;
  ArrivalOrder : Type;
  arrivals_ordered : string → ArrivalOrder;
  Waiting : Type;
  waiting_polled : string → Waiting;
  Sending : Type;
  sending_streamed : string → Sending;
  Kind : Type;
  kind_duration : Kind;
  Presence : Type;
  presence_optional : Presence;
  Applies : Type;
  applies_both : Applies;
}.

Section declarations.
Context `{!Capabilities}.

Definition transport_name : string := "sftp".
Definition directions : Directions := directions_both.
Definition declared_arrivals : ArrivalOrder :=
  arrivals_ordered "a receive lists again what is not yet told".
Definition declared_waiting : Waiting :=
  waiting_polled "a receive lists the directory and returns".
Definition declared_sending : Sending :=
  sending_streamed "each WRITE request carries the next piece of the body as it is read".

(** [xcore::settings::Setting]: [name], [kind], [presence], [meaning], [applies]. *)
Record Setting : Type := {
  setting_name : string;
  setting_kind : Kind;
  setting_presence : Presence;
  setting_meaning : string;
  setting_applies : Applies;
}.

(** [SETTINGS], of a crate named [technology]. *)
Definition SETTINGS (technology : string) : string * list Setting :=
  (technology,
   [{| setting_name := "timeout";
       setting_kind := kind_duration;
       setting_presence := presence_optional;
       setting_meaning :=
         "How long a peer that stops mid-exchange is waited on; unbounded when left out.";
       setting_applies := applies_both |}]).
End declarations.
