(* ===== verification/Round.v ===== *)
(** The loopback's two ends (src/loopback.rs): the far end that serves one
    client over an empty directory and takes the one file it put as an
    arrival, and the near end that puts it.

    The listener and its socket are the transport crate's ([Listening]). *)

From S2P Require Import Prelude RustStd Externals Reference Wire Directory FarSpec FarRefine.
From S2P Require Import FarInvariant FarWorld FarProperties Replies Client Site Session.
From S2P Require Import Connect Connection Transport Serve Listener.

Local Open Scope N_scope.

(** [context::property]'s names, and [codec::base64]. *)
Class Properties : Type := {
  SSH_USER : string;
  SSH_KEY : string;
  SSH_SIGNATURE : string;
  SSH_SESSION : string;
  encode_unpadded : bytes → string;
}.

Section arrival.
Context `{!TransportErrors, !Properties}.

(** What the loopback takes: the origin URI, the bytes, what was observed. *)
Record Arrived : Type := {
  origin_uri : string;
  arrived_bytes : bytes;
  observed : list (string * string);
}.

(** The one file the client put, as an arrival with the peer promoted onto its
    origin. *)
Definition arrival (peer : string) (files : gmap string bytes) (who : Authenticated) :
    outcome error Arrived :=
  match head (btree_iter files) with
  | None => Err (protocol_error "a client that connected and put nothing")
  | Some (name, contents) =>
    let origin := "sftp://" +:+ peer +:+ "/" +:+ name +:+ "?" +:+ SSH_USER +:+ "="
                  +:+ who_user who in
    let seen := [(SSH_USER, who_user who)] in
    let '(origin, seen) :=
      match who_fingerprint who with
      | Some fingerprint =>
        (origin +:+ "&" +:+ SSH_KEY +:+ "=" +:+ fingerprint, seen ++ [(SSH_KEY, fingerprint)])
      | None => (origin, seen)
      end in
    let origin :=
      match who_signature who, who_signed who with
      | Some signature, Some signed =>
        origin +:+ "&" +:+ SSH_SIGNATURE +:+ "=" +:+ encode_unpadded signature
               +:+ "&" +:+ SSH_SESSION +:+ "=" +:+ encode_unpadded signed
      | _, _ => origin
      end in
    Ok {| origin_uri := origin; arrived_bytes := contents; observed := seen |}
  end.
End arrival.

(** ** The ends *)

(** [ArrivalIdentity::Named]: the properties an arrival is known by. *)
Definition arrival_identity `{!Properties} : list string := [SSH_USER; SSH_KEY].

(** The file name the near end puts. *)
Definition PROBE : string := "probe.bin".

Section ends.
Context `{!Platform, !TransportErrors, !Codec, !Net, !Ssh, !Keys, !SshClient, !Outgoings, !Claims,
          !Surroundings, !Pooling, !SshServer, !Listening, !Properties}.

(** The host key the far end signs as. *)
Definition FAR_SEED : bytes := replicate 32 (byte_of_N 0x5e).

(** The login the far end admits: its near end's, if it presents one. *)
Definition far_check (t : SftpTransport) : Check :=
  match credential t with
  | None => nobody
  | Some own => admitted_as own (user t)
  end.

(** The closure of [Listening::new]: one client served, and its file taken. *)
Definition far_take (fuel : nat) (env : Env) (t : SftpTransport) (listener : TcpListener) :
    outcome error Arrived :=
  '(stream, peer) ← accept_tcp listener (timeout t);
  '(files, who, _) ← serve_connection fuel env stream (signing_key_of FAR_SEED) ∅ (far_check t);
  arrival peer files who.

(** [far_end]: the closure, and the listener bound for it. *)
Definition far_end (fuel : nat) (env : Env) (t : SftpTransport) :
    outcome error ((TcpListener → outcome error Arrived) * TcpListener) :=
  bound ← tcp_bind (authority t);
  mret (far_take fuel env t, bound).

(** [send_to]: the same transport at [address], with a pool of its own, puts
    [payload] ([Outgoing::held]) over a connection of its own. *)
Context (held_outgoing : bytes → Outgoing).

Definition near_end (t : SftpTransport) (address : string) : SftpTransport :=
  {| endpoint := address; user := user t; credential := credential t; secured := secured t;
     timeout := timeout t; transport_pins := transport_pins t; clients := pool_new;
     claim_state := claim_state t |}.

Definition send_to (t : SftpTransport) (address : string) (payload : bytes) :
    M Dialing error unit := fun d =>
  let near := near_end t address in
  match transport_connect near address d with
  | (Ok client, d) =>
    let '(o, client) := client_put PROBE (held_outgoing payload) client in
    (o, {| pins := pins d; wire := Some client |})
  | (Err e, d) => (Err e, d)
  | (Panic, d) => (Panic, d)
  | (OutOfFuel, d) => (OutOfFuel, d)
  end.
End ends.
