(* ===== verification/TransportProperties.v ===== *)
(** The properties of the transport: the name a target gives a file, what is
    presented at a login, and what a send that succeeds did over a connection its
    pool keeps ([PoolingLaws]). *)

From Stdlib Require Import Ascii.
From S2P Require Import Prelude RustStd Externals Reference Wire Directory FarSpec FarRefine.
From S2P Require Import FarInvariant FarWorld FarProperties Replies Client Site Session.
From S2P Require Import Contract Loopback ClientProperties Connect ConnectProperties Connection Transport.

Local Open Scope N_scope.

(** No slash in a name. *)
Fixpoint no_slash (s : string) : bool :=
  match s with
  | EmptyString => true
  | String c rest => negb (Ascii.eqb c "/"%char) && no_slash rest
  end.

Lemma segments_nonempty path : ∃ s ss, segments path = s :: ss.
Proof.
  induction path as [|c rest (s & ss & IH)]; simpl; [by eauto|].
  destruct (Ascii.eqb c "/"%char); [by eauto|]. rewrite IH. by eauto.
Qed.

Lemma segments_no_slash name : no_slash name = true → segments name = [name].
Proof.
  induction name as [|c rest IH]; simpl; [done|]. intros [Hc Hr]%andb_true_iff.
  apply negb_true_iff in Hc. by rewrite Hc, IH.
Qed.

Lemma segments_app dir name :
  no_slash name = true → segments (dir +:+ "/" +:+ name) = segments dir ++ [name].
Proof.
  intros Hn. induction dir as [|c rest IH]; simpl; [by rewrite segments_no_slash|].
  destruct (Ascii.eqb c "/"%char); [by rewrite IH|]. rewrite IH.
  by destruct (segments_nonempty rest) as (s & ss & ->).
Qed.

Lemma last_segment_of path ss name : segments path = ss ++ [name] → last_segment path = name.
Proof. unfold last_segment. intros ->. by rewrite List.rev_app_distr. Qed.

(** Every path is a name, or a directory, a slash and a name. *)
Lemma path_cases path :
  no_slash path = true ∨ ∃ dir name, path = dir +:+ "/" +:+ name ∧ no_slash name = true.
Proof.
  induction path as [|c rest IH]; [by left|]. destruct (Ascii.eqb c "/"%char) eqn:Hc.
  - apply Ascii.eqb_eq in Hc as ->. right. destruct IH as [Hr|(dir & name & -> & Hn)].
    + by exists "", rest.
    + by exists (String "/"%char dir), name.
  - destruct IH as [Hr|(dir & name & -> & Hn)].
    + left. simpl. by rewrite Hc.
    + right. by exists (String c dir), name.
Qed.

(** A file's own name is its path's last segment.  [last_segment] gives
    [name] exactly where [name] has no slash and the path is [name] alone or
    ends in a slash and [name]. *)
Theorem last_segment_names path name :
  last_segment path = name
  ↔ no_slash name = true ∧ (path = name ∨ ∃ dir, path = dir +:+ "/" +:+ name).
Proof.
  split.
  - intros <-. destruct (path_cases path) as [Hp|(dir & n & -> & Hn)].
    + rewrite (last_segment_of path [] path) by (by apply segments_no_slash). auto.
    + rewrite (last_segment_of _ (segments dir) n) by (by apply segments_app). eauto.
  - intros [Hn [->|[dir ->]]].
    + apply (last_segment_of _ []). by apply segments_no_slash.
    + eapply last_segment_of. by apply segments_app.
Qed.

Section presented.
Context `{!TransportErrors, !Codec, !Ssh, !Keys, !SshClient, !Claims, !Surroundings, !Pooling}.

(** Nothing is presented only where there is nothing to present.  A
    transport logs in with nothing exactly where it was built with no
    credential and its Location names no secret; where a secret is named, the
    credential presented is that secret as it reads now, never the one it was
    built with, and a secret that cannot be read or is no password or key is
    an error. *)
Theorem presented_names t c :
  presented t = Ok c →
  (c = None ↔ secured t = None ∧ credential t = None)
  ∧ ∀ s, secured t = Some s → ∃ secret, secured_secret s = Ok secret
      ∧ match secret_kind secret with
        | SecretPassword => c = Some (Password (secret_text secret))
        | SecretKey => ∃ key, private_key_ed25519 (secret_text secret) = inl key
            ∧ c = Some (PublicKeyOf key)
        | SecretCertificate => False
        end.
Proof.
  unfold presented. destruct (secured t) as [s|]; [|intros [= <-]; naive_solver].
  intros (secret & Hs & Hp)%obind_inv_ok. split.
  - repeat case_match; simplify_eq; naive_solver.
  - intros s' [= <-]. exists secret. split; [done|]. repeat case_match; simplify_eq; eauto.
Qed.
End presented.

(** ** Over a pool's connections *)

(** What the pool promises: it keeps connections by server, none at first; an
    exchange that succeeds is its act's success, on a connection kept for that
    server or on one it opened. *)
Class PoolingLaws `{!TransportErrors, !Ssh, !Keys, !SshClient, !Pooling} :
    Type := {
  kept : Pool → string → Line → Prop;
  kept_new key line : ¬ kept pool_new key line;
  exchange_ok A key open (act : M Line error A) p q a p' q' :
    pool_exchange key open act (p, q) = (Ok a, (p', q')) →
    ∃ line line', act line = (Ok a, line')
      ∧ (kept p key line ∨ ∃ q0 q1, open q0 = (Ok line, q1));
}.

Section operations.
Context `{!TransportErrors, !Codec, !Ssh, !Keys, !SshClient, !Outgoings, !Claims, !Surroundings,
          !Pooling, !PoolingLaws}.

(** A client [t] sends or receives by at [address]: on a connection its pool
    keeps for it, or connected to it now, logged in as [t]'s user with what
    [t] presents. *)
Definition client_at (t : SftpTransport) (address : string) (c : Client) : Prop :=
  kept (clients t) address (Here c)
  ∨ ∃ p d, transport_connect t address {| pins := p; wire := None |} = (Ok c, d).

Lemma exchange_on_ok {A} address (act : M Line error A) t a t' :
  exchange_on address act t = (Ok a, t') →
  ∃ line line', act line = (Ok a, line') ∧
    (kept (clients t) address line ∨ ∃ c, line = Here c ∧ client_at t address c).
Proof.
  unfold exchange_on. intros Hx.
  destruct (pool_exchange _ _ _ _) as [o [pool p]] eqn:E. injection Hx as -> <-.
  destruct (exchange_ok _ _ _ _ _ _ _ _ _ E) as (line & line' & Ha & Hk).
  exists line, line'. split; [done|]. destruct Hk as [Hk|(q0 & q1 & Ho)]; [by left|right].
  unfold open_connection in Ho.
  destruct (transport_connect t address _) as [[c| | |] d] eqn:Ec; cbn in Ho; try done.
  injection Ho as <- <-. exists c. split; [done|]. right. eauto.
Qed.

(** An act on the client of a connection, done: it was not lent nor broken. *)
Lemma with_client_ok {A} address (act : M Client error A) t a t' :
  exchange_on address (with_line act) t = (Ok a, t') →
  ∃ c c', client_at t address c ∧ act c = (Ok a, c').
Proof.
  intros (line & line' & Ha & Hk)%exchange_on_ok.
  destruct line as [c| |]; unfold with_line in Ha; [|done..].
  destruct (act c) as [o c'] eqn:E. injection Ha as -> _. exists c, c'. split; [|done].
  destruct Hk as [Hk|(c0 & [= <-] & Hk)]; [by left|done].
Qed.

(** C31: a send that succeeds put the file.  It put it by the name the file
    family gives it, on the server the target names — or on the transport's
    own where it names none — over a connection kept for that server or
    opened to it, logged in as the transport's user; never over one that is
    lent or broken. *)
Theorem send_from_puts file_name target o t t' :
  send_from file_name target o t = (Ok tt, t') →
  ∃ name c c', file_name o (resolve t target).2 (resolve t target).1 = Ok name
    ∧ client_at t (resolve t target).1 c ∧ client_put name o c = (Ok tt, c').
Proof.
  unfold send_from. destruct (resolve t target) as [address given]. cbn [fst snd].
  destruct (file_name o given address) as [name| | |] eqn:Hf; cbn; try done. intros Hx.
  rewrite lift_ok in Hx. apply with_client_ok in Hx as (c & c' & Hc & Hp). by exists name, c, c'.
Qed.
End operations.

(** ** Witnesses *)
Module Witnesses.
Import Reference.Instances Loopback.Instances FarProperties.Witnesses ClientProperties.Witnesses.
Import ConnectProperties.Witnesses.
#[local] Existing Instance loop_client.

(** Claims that take nothing and tell nothing. *)
Definition ref_claims : Claims := {|
  Verdict := bool;
  Taken := string;
  taken_dropped t := t;
  taken_claimed t := t;
  Claiming := unit;
  claiming_take _ _ := mret [];
  claiming_told _ _ _ := mret tt;
|}.
#[local] Existing Instance ref_claims.

(** A pool that keeps one connection a server, and opens another where an act
    on it fails. *)
Definition ref_fresh {A} (key : string) (open : M Pinned error Line) (act : M Line error A) :
    M (gmap string Line * Pinned) error A := fun '(p, q) =>
  match open q with
  | (Ok line, q) => let '(o, line) := act line in (o, (<[key := line]> p, q))
  | (o, q) => (_ ← o; Panic, (p, q))
  end.
Definition ref_exchange {A} (key : string) (open : M Pinned error Line) (act : M Line error A) :
    M (gmap string Line * Pinned) error A := fun '(p, q) =>
  match act <$> p !! key with
  | Some (Ok a, line) => (Ok a, (<[key := line]> p, q))
  | _ => ref_fresh key open act (p, q)
  end.
Definition ref_pooling : Pooling := {|
  Pool := gmap string Line;
  pool_new := ∅;
  pool_exchange _ := ref_exchange;
|}.
#[local] Existing Instance ref_pooling.

(** A Location whose secret is a password, or cannot be read. *)
Definition ref_surroundings : Surroundings := {|
  Target := unit;
  target_under _ _ := None;
  target_authority _ := "";
  target_path _ := "";
  target_user _ := None;
  Secured := string;
  Secret := SecretKind * string;
  secured_name s := s;
  secured_secret s :=
    if String.eqb s "missing" then Err (permanent "no such secret")
    else Ok (SecretPassword, "hunter2");
  secret_kind := fst;
  secret_text := snd;
  private_key_ed25519 t := inl (as_bytes t) : (SigningKey + string)%type;
  claiming_process := tt : @Claiming _ _ _ ref_claims;
  Held := string;
  claiming_held _ := [];
  NodeLocation := unit;
  claiming_recovering _ := tt : @Claiming _ _ _ ref_claims;
  pins_in_memory := ∅ : gmap string string;
  loopback_timeout := 5;
|}.
#[local] Existing Instance ref_surroundings.

Definition ex_transport : SftpTransport :=
  secured_by ("party" : Secured) (with_password "built with" (new_transport "host:22")).

Lemma presented_names_witness :
  ∃ secret, secured_secret ("party" : Secured) = Ok secret
    ∧ Some (Password "hunter2") = Some (Password (secret_text secret)).
Proof.
  destruct (proj2 (presented_names ex_transport (Some (Password "hunter2")) eq_refl) "party" eq_refl)
    as (secret & Hs & Hk).
  exists secret. split; [exact Hs|]. injection Hs as <-. exact Hk.
Defined.

Definition ref_kept (p : @Pool _ _ _ _ ref_pooling) (key : string) (line : Line) : Prop :=
  (p : gmap string Line) !! key = Some line.

Definition ref_pooling_laws : PoolingLaws.
Proof.
  refine {| kept := ref_kept |}.
  - intros key line. exact (lookup_empty_Some (M:=gmap string) key line).
  - intros A key open act p q a p' q' Hx.
    change (ref_exchange key open act (p, q) = (Ok a, (p', q'))) in Hx. unfold ref_exchange in Hx.
    assert (∀ r, ref_fresh key open act (p, q) = (Ok a, r) →
      ∃ line line', act line = (Ok a, line') ∧ ∃ q0 q1, open q0 = (Ok line, q1)) as Hfresh.
    { intros r Hr. unfold ref_fresh in Hr. destruct (open q) as [[line| | |] q1] eqn:Ho; try done.
      destruct (act line) as [o line'] eqn:Ha. injection Hr as -> _. eauto 10. }
    match type of Hx with context [match ?b with _ => _ end] => destruct b eqn:Hk in Hx end.
    + destruct p0 as [[a'| | |] line'].
      2-4: apply Hfresh in Hx as (l0 & l1 & ? & ?); eauto 10.
      injection Hx as <- _ _. apply fmap_Some in Hk as (line & Hk & Ha). eauto 10.
    + apply Hfresh in Hx as (l0 & l1 & ? & ?); eauto 10.
Defined.
#[local] Existing Instance ref_pooling_laws.

(** The target's own name. *)
Definition ref_file_name (o : Outgoing) (given address : string) : outcome error string := Ok given.
(** What an evaluated pair said, and what it left. *)
Lemma said_so {A B} (p : A * B) a : p.1 = a → p = (a, p.2).
Proof. intros <-. apply surjective_pairing. Qed.

Definition ex_held : @Outgoing _ held_outgoings := ex_contents.
Definition ex_sent := send_from ref_file_name "b.edi" ex_held ex_transport.

Lemma send_from_puts_witness :
  ∃ c c', client_at ex_transport "host:22" c
    ∧ client_put "b.edi" ex_held c = (Ok tt, c').
Proof.
  destruct (send_from_puts ref_file_name "b.edi" ex_held ex_transport ex_sent.2)
    as (name & c & c' & Hn & Hc & Hp).
  - apply (said_so ex_sent). vm_compute. reflexivity.
  - injection Hn as <-. by exists c, c'.
Defined.
End Witnesses.
