(* ===== verification/Receipts.v ===== *)
(** A receive through the transport.  What a receive that succeeds hands back
    over a pool that keeps [PoolingLaws], a channel that keeps [Served]'s laws
    and a claim that keeps [ClaimLaws]: the files its claim took of the
    transport's own server, each named by its dropped name and read under its
    claimed one. *)

From S2P Require Import Prelude RustStd Externals Reference Wire Directory FarSpec FarRefine.
From S2P Require Import FarInvariant FarWorld FarProperties Replies Client Site Session.
From S2P Require Import Contract Loopback ClientProperties Connect ConnectProperties Connection.
From S2P Require Import ConnectionProperties Deliveries Receives Transport TransportProperties.

Local Open Scope N_scope.

Section receipts.
Context `{!Platform, !TransportErrors, !Codec, !CodecLaws, !Net, !NetLaws, !Ssh, !Keys, !SshClient,
          !Claims, !Surroundings, !Pooling, !PoolingLaws}.
Context {R : relation Directory} `{!Served R, !ClaimLaws, !Reaches R}.

(** What the thread lists is what the claim took, whatever the arrivals ask of
    it after. *)
Lemma harvesting_lists fuel claiming most requests conn d ts :
  reaches conn d → wf_directory d →
  first_listed (harvesting fuel claiming most requests conn).1 = Ok ts →
  ∃ d0 d1, rtc R d d0 ∧ N.of_nat (length ts) ≤ most ∧ taken_from (R:=R) d0 d1 ts.
Proof.
  intros Hr Hd. destruct (with_subsystem_begins conn d Hr Hd) as (sftp & far & Hl & Hn & HR & Hin).
  destruct (take_keeps claiming most sftp far Hl Hn)
    as (o & s1 & f1 & Htake & [[ts0 ->]|[e ->]] & Hl1 & _ & Hts);
    unfold harvesting; rewrite Hin; unfold harvest_work.
  2: { by rewrite (bind_err _ _ _ _ _ (on_sftp_err _ _ _ _ _ Htake)). }
  destruct (Hts ts0 eq_refl) as (Hlen & Htaken & _).
  rewrite (bind_ok _ _ _ _ _ (on_sftp_ok _ _ _ _ _ Htake)).
  destruct ts0 as [|t ts0].
  { unfold mret, M_ret. destruct (reaches_close _ _ (linked_served _ _ Hl1)) as (d2 & c2 & _ & _ & Hc & _).
    rewrite Hc. intros [= <-]. eauto. }
  erewrite bind_ok by reflexivity. unfold mbind, M_bind at 1.
  destruct (answering_says fuel claiming requests s1) as (o & s2 & said & Ha & _ & _).
  rewrite Ha. intros Hf. exists (directory far), (directory f1). cbn [app] in Hf.
  enough (ts = t :: ts0) as -> by done.
  destruct o as [b|e| |]; cbn in Hf; [|by injection Hf..].
  destruct (channel_close (channel s2)) as [[[]|e| |] c2]; cbn in Hf; [|by injection Hf..].
  destruct b; by injection Hf.
Qed.

(** C32: a receive that succeeds hands back what its claim took of the
    transport's own server.  It took at most as many files as it was asked
    for, over a connection kept for that server or opened to it now, never one
    that is lent or broken.  Each arrival, in the order of the claim, names the
    server and the file by the name it was dropped under, and its body is
    unread and reads the claimed name; no file is handed back twice under
    either name, and a dropped file nobody else touches was in the server's
    directory. *)
Theorem receive_takes fuel most started requests t t' l :
  (∀ c, client_at t (authority t) c → ∃ d, reaches c d ∧ wf_directory d) →
  receive_up_to fuel most started requests t = (Ok l, t') →
  ∃ c d ts, client_at t (authority t) c ∧ reaches c d
    ∧ first_listed (harvesting fuel (claim_state t) most requests c).1 = Ok ts
    ∧ N.of_nat (length ts) ≤ most
    ∧ NoDup (taken_claimed <$> ts) ∧ NoDup (taken_dropped <$> ts)
    ∧ Forall2 (λ a u,
        arrival_origin a = "sftp://" +:+ authority t +:+ "/" +:+ taken_dropped u
        ∧ arrival_file_name a = taken_dropped u
        ∧ arrival_body a = {| fetch_name := taken_claimed u; fetch_chunks := None |}
        ∧ (keeps R (taken_dropped u) → is_Some (files d !! taken_dropped u))) l ts.
Proof.
  intros Hat (line & line' & Ha & Hk)%exchange_on_ok. unfold harvest in Ha.
  destruct line as [c| |]; [|done..].
  assert (client_at t (authority t) c) as Hc
    by (destruct Hk as [Hk|(? & [= <-] & Hk)]; [by left|done]).
  destruct (Hat c Hc) as (d & Hr & Hd). cbn [lend] in Ha. destruct started; [done|].
  destruct (harvesting fuel (claim_state t) most requests c) as [said left_] eqn:Hs.
  destruct (first_listed said) as [ts| | |] eqn:Hf; cbn in Ha; try done. injection Ha as <- <-.
  exists c, d, ts. rewrite Hs. do 3 (split; [done|]).
  destruct (harvesting_lists fuel (claim_state t) most requests c d ts Hr Hd)
    as (d0 & d1 & HR & Hlen & [Hclaims Hapart Hnames Hmoved]); [by rewrite Hs|].
  do 3 (split; [done|]).
  assert (∀ u, u ∈ ts → keeps R (taken_dropped u) → is_Some (files d !! taken_dropped u)) as Hthere.
  { intros u Hu HK. rewrite Forall_forall in Hclaims. destruct (Hclaims u Hu) as [_ _ Hin].
    rewrite <- (keeps_rtc _ _ _ _ HK HR), <- (proj1 (Hmoved u Hu HK)). exact Hin. }
  clear -Hthere. induction ts as [|u ts IH]; constructor.
  - split_and!; [done..|]. apply Hthere. left.
  - apply IH. intros v Hv. apply Hthere. by right.
Qed.
End receipts.

(** ** Witnesses *)
Module Witnesses.
Import Reference.Instances Loopback.Instances FarProperties.Witnesses ClientProperties.Witnesses.
Import ConnectProperties.Witnesses Receives.Witnesses TransportProperties.Witnesses.
#[local] Existing Instances loop_client loop_reaches one_claim one_laws ref_pooling.

(** The surroundings of a transport that presents nothing, about the claim of
    one file. *)
Definition one_surroundings : @Surroundings _ _ loop_ssh _ loop_client one_claim := {|
  Target := unit;
  target_under _ _ := None;
  target_authority _ := "";
  target_path _ := "";
  target_user _ := None;
  Secured := unit;
  Secret := unit;
  secured_name _ := "";
  secured_secret _ := Err (permanent "no such secret");
  secret_kind _ := SecretPassword;
  secret_text _ := "";
  private_key_ed25519 t := inr t;
  claiming_process := ex_claiming;
  Held := string;
  claiming_held _ := [];
  NodeLocation := unit;
  claiming_recovering _ := ex_claiming;
  pins_in_memory := ∅ : gmap string string;
  loopback_timeout := 5;
|}.
#[local] Existing Instance one_surroundings.
#[local] Existing Instance ref_pooling_laws.

(** A transport whose pool keeps nothing yet, and what it receives: its server
    is connected to, and the file [DROPPED] claimed, read and accepted. *)
Definition one_transport : SftpTransport := new_transport "host:22".
Definition one_asked : list Request :=
  [ReadFile CLAIMED None; Told CLAIMED (Some (accepted (R:=eq))); Finish].
Definition one_receipt := receive_up_to 8 8 None one_asked one_transport.

Lemma one_receipt_ok : match one_receipt.1 with Ok [_] => true | _ => false end = true.
Proof. vm_compute. reflexivity. Defined.

Lemma one_reaches c : client_at one_transport "host:22" c → ∃ d, reaches (R:=eq) c d ∧ wf_directory d.
Proof.
  intros [Hk|(p & d & Hc)].
  - destruct (lookup_empty_Some (M:=gmap string) _ _ Hk).
  - exists (directory (loop_far c)). split; [reflexivity|].
    assert (loop_far c = ex_far) as ->; [|exact ex_directory_wf].
    unfold transport_connect, connect, authenticate, exchange in Hc. revert Hc. clear.
    unfold mbind, M_bind. cbn. unfold on_wire, on_pins, wired, ref_hold. cbn.
    destruct (_ !! _) as [k|]; [destruct (String.eqb k _)|]; cbn; by intros [= <- _].
Defined.

Lemma receive_takes_witness :
  ∃ l c u, one_receipt.1 = Ok l ∧ client_at one_transport "host:22" c
    ∧ (arrival_origin <$> l) = ["sftp://host:22/" +:+ taken_dropped u].
Proof.
  pose proof one_receipt_ok as Hok.
  destruct one_receipt as [[l| | |] t'] eqn:Ho; [|discriminate Hok..].
  destruct l as [|a [|]]; [discriminate Hok| |discriminate Hok].
  destruct (receive_takes (R:=eq) 8 8 None one_asked one_transport t' [a])
    as (c & d & ts & Hc & _ & _ & _ & _ & _ & Hts); [exact one_reaches|exact Ho|].
  inversion_clear Hts as [|? u ? ? (Horigin & _) _].
  exists [a], c, u. split; [reflexivity|]. split; [exact Hc|]. cbn. rewrite Horigin. reflexivity.
Defined.
End Witnesses.
