(* ===== verification/RoundProperties.v ===== *)
(** What the far end's arrival of a loopback carries.  [Returns] puts the two
    ends together. *)

From S2P Require Import Prelude RustStd Externals Reference Wire Directory FarSpec FarRefine.
From S2P Require Import FarInvariant FarWorld FarProperties Replies Client Site Session.
From S2P Require Import Contract Loopback ClientProperties Connect ConnectProperties Connection.
From S2P Require Import Transport TransportProperties Serve Listener Round.

Local Open Scope N_scope.

Section arrivals.
Context `{!TransportErrors, !Properties}.

(** A loopback's arrival is the file its client put, with its peer.  It
    carries the contents of the first file in name order, the user always
    among what was observed, and the key's fingerprint exactly where the
    client proved one; a client that put nothing is an error. *)
Lemma arrival_promotes peer files who :
  match arrival peer files who with
  | Ok a => ∃ name, files !! name = Some (arrived_bytes a)
      ∧ (∀ n, is_Some (files !! n) → String.leb name n = true)
      ∧ observed a = (SSH_USER, who_user who)
                     :: match who_fingerprint who with
                        | Some f => [(SSH_KEY, f)]
                        | None => []
                        end
  | Err _ => files = ∅
  | _ => False
  end.
Proof.
  unfold arrival. destruct (btree_iter files) as [|[name contents] l] eqn:E; simpl.
  - apply map_empty. intros n. destruct (files !! n) as [c|] eqn:Hn; [|done].
    apply elem_of_btree_iter in Hn. rewrite E in Hn. by apply elem_of_nil in Hn.
  - assert (files !! name = Some contents) as Hname.
    { apply elem_of_btree_iter. rewrite E. left. }
    assert (∀ n, is_Some (files !! n) → String.leb name n = true) as Hfirst.
    { intros n [c Hn]. apply elem_of_btree_iter in Hn. rewrite E in Hn.
      pose proof (btree_iter_sorted files) as Hs. rewrite E in Hs.
      apply StronglySorted_inv in Hs as [_ Hs].
      apply elem_of_cons in Hn as [[= <- <-]|Hn]; [apply string_leb_refl|].
      rewrite Forall_forall in Hs. exact (Hs (n, c) Hn). }
    by destruct (who_fingerprint who); exists name; split_and!.
Qed.

(** Strings one after another. *)
Lemma string_app_assoc (a b c : string) : (a +:+ b) +:+ c = a +:+ b +:+ c.
Proof. induction a as [|x a IH]; [done|]. exact (f_equal (String x) IH). Qed.
Lemma string_app_nil (a : string) : a = a +:+ "".
Proof. induction a as [|x a IH]; [done|]. exact (f_equal (String x) IH). Qed.

(** The one file there is, with the peer on its origin. *)
Lemma arrival_one peer name contents who :
  ∃ a tl, arrival peer {[name := contents]} who = Ok a ∧ arrived_bytes a = contents
    ∧ origin_uri a = ("sftp://" +:+ peer +:+ "/" +:+ name +:+ "?" +:+ SSH_USER +:+ "="
                      +:+ who_user who) +:+ tl
    ∧ observed a = (SSH_USER, who_user who)
                   :: match who_fingerprint who with Some f => [(SSH_KEY, f)] | None => [] end.
Proof.
  assert (btree_iter ({[name := contents]} : gmap string bytes) = [(name, contents)]) as Hi.
  { unfold btree_iter. by rewrite map_to_list_singleton. }
  unfold arrival. rewrite Hi. cbn [head]. set (whole := "sftp://" +:+ _).
  destruct (who_fingerprint who), (who_signature who), (who_signed who);
    eexists _, _; (split; [done|]); (split; [done|]); (split; [|done]); cbn [origin_uri];
    rewrite ?string_app_assoc; first [reflexivity | apply string_app_nil].
Qed.
End arrivals.
