(* ===== verification/Fixture.v ===== *)
(** The login the crate's own tests use (src/fixture.rs): one user, and a
    password drawn once a run or a key a test drew. *)

From S2P Require Import Prelude RustStd Externals Reference Wire Directory FarSpec FarRefine.
From S2P Require Import FarInvariant FarWorld FarProperties Replies Client Site Session.
From S2P Require Import Connect Connection Transport.

Section fixture.
Context `{!TransportErrors, !Codec, !Ssh, !Keys, !SshClient, !Claims, !Surroundings, !Pooling}.

(** The user the tests log in as. *)
Definition USER : string := "party".

(** [codec::random::array] drawn once, and [codec::hex::encode] of it. *)
Context (hex_encode : bytes → string) (drawn : bytes).
Definition SECRET : string := hex_encode drawn.

(** What a test's far end is handed: the one login. *)
Definition check : Check := login_only USER SECRET.

(** A key enrolled for [user_] alone. *)
Definition keyed (user_ : string) (key : SigningKey) : Check :=
  admitted_as (PublicKeyOf key) user_.

(** A near end for [address] presenting the one login. *)
Definition near (address : string) : SftpTransport :=
  with_password SECRET (as_user USER (new_transport address)).
End fixture.
