(* ===== verification/UnitTests.v ===== *)
(** The crate's own unit tests of the subsystem, the directory and the
    transport's names (the [tests] modules of src/subsystem.rs,
    src/directory.rs and src/lib.rs), as programs over the model's
    definitions.  Each test is a [Test]; that it passes is evaluated by the
    kernel, on the reference instance of the external crates.  The tests that
    open a socket are in [NetTests]. *)

From Stdlib Require Import Ascii.
From S2P Require Import Prelude RustStd Externals Reference Wire Directory FarSpec FarRefine.
From S2P Require Import FarInvariant FarWorld FarProperties Replies Client Site Session.
From S2P Require Import Loopback ClientProperties Connect ConnectProperties Connection Transport.
From S2P Require Import TransportProperties.

Import Reference.Instances.

Local Open Scope N_scope.

(** A test reaches its end with its assertions true: [expect] of an error is
    an outcome other than [Ok]. *)
Definition Test : Type := outcome error bool.
Definition passes (t : Test) : bool := match t with Ok b => b | _ => false end.
Definition expect {A} (o : option A) : outcome error A :=
  match o with Some a => Ok a | None => Panic end.
Definition is_err {A} (o : outcome error A) : bool := match o with Err _ => true | _ => false end.
#[local] Notation "a =? b" := (bool_decide (a = b)) : bool_scope.
#[local] Open Scope bool_scope.

(** [&reply[5..]], the body of a packet. *)
Definition body_of (reply : bytes) : bytes := drop 5 reply.
(** [reply[4]], its type. *)
Definition kind_of (reply : bytes) : outcome error N :=
  b ← expect (reply !! 4%nat); mret (Byte.to_N b).

(** ** src/subsystem.rs *)
Definition a_framed_packet_carries_its_type_and_body_length : Test :=
  let framed := frame OPEN (as_bytes "abcd") in
  kind ← kind_of framed;
  mret ((take 4 framed =? be_bytes 4 5) && (kind =? OPEN) && (body_of framed =? as_bytes "abcd")).

Definition a_status_code_and_a_name_list_read_back_off_their_bodies : Test :=
  let status := [] |> u32_be 7 |> u32_be EOF |> put_string (as_bytes "done") |> put_string [] in
  code ← code status;
  let name :=
    [] |> u32_be 1 |> u32_be 3
       |> put_string (as_bytes "one") |> put_string (as_bytes "one") |> u32_be 0
       |> put_string (as_bytes "two") |> put_string (as_bytes "two")
       |> u32_be (N.lor (N.lor (N.lor ATTR_SIZE ATTR_UIDGID) ATTR_PERMISSIONS) ATTR_ACMODTIME)
       |> u64_be 5 |> u32_be 1 |> u32_be 2 |> u32_be 0x1a4 |> u32_be 7 |> u32_be 9
       |> put_string (as_bytes "three") |> put_string (as_bytes "three")
       |> u32_be (N.lor ATTR_SIZE ATTR_EXTENDED) |> u64_be 1 |> u32_be 1
       |> put_string (as_bytes "k") |> put_string (as_bytes "v") in
  names ← entries name;
  mret ((code =? EOF)
    && (names =? [("one", None); ("two", Some {| stamp_length := 5; stamp_modified := 9 |});
                  ("three", None)])).

Definition a_name_that_is_not_utf8_is_refused : Test :=
  name ← utf8 (as_bytes "probe.bin");
  mret (is_err (utf8 (byte_of_N <$> [0xff; 0xfe])) && (name =? "probe.bin")).

(** ** src/directory.rs *)

(** The files and the handles of a test, whose clock reads [now]; each request
    carries the number the next handle would have. *)
Record State : Type := { test_files : Directory; test_handles : gmap string Handle }.
Definition fresh : State := {| test_files := default_directory; test_handles := ∅ |}.

Section directory.
Context (now : option N).

Definition answer_with (kind : N) (body : bytes) (next_ : N) : M State error bytes := fun s =>
  let '(o, far) := answer now kind body
    {| directory := test_files s; handles := test_handles s; next := next_ |} in
  (o, {| test_files := directory far; test_handles := handles far |}).

(** A test on [s], to its last assertion. *)
Definition run (s : State) (t : M State error bool) : Test := (t s).1.

Definition open_write : M State error string :=
  reply ← answer_with OPEN
    ([] |> u32_be 1 |> put_string (as_bytes "probe.bin") |> u32_be F_WRITE |> u32_be 0) 0;
  '(_, reader) ← lift (read_u32_be (cursor_new (body_of reply)));
  '(raw, _) ← lift (read_string reader);
  lift (utf8 raw).

Definition probe : M State error (option bytes) :=
  gets (λ s, files (test_files s) !! "probe.bin").

Definition a_write_then_a_read_returns_the_same_bytes_through_the_far_end : Test := run fresh (
  handle ← open_write;
  _ ← answer_with WRITE ([] |> u32_be 2 |> put_string (as_bytes handle) |> u64_be 0
                            |> put_string (as_bytes "hello world")) 1;
  stored ← probe;
  mret (stored =? Some (as_bytes "hello world"))).

Definition a_write_past_what_the_far_end_holds_is_refused_before_it_is_allocated : Test :=
  run fresh (
  handle ← open_write;
  reply ← answer_with WRITE ([] |> u32_be 2 |> put_string (as_bytes handle)
                                |> u64_be (u64_max - 4) |> put_string (as_bytes "hello")) 1;
  kind ← lift (kind_of reply);
  code ← lift (code (body_of reply));
  stored ← probe;
  mret ((kind =? STATUS) && (code =? FAILURE)
        && match stored with None => true | Some f => f =? [] end)).

Definition a_read_past_the_end_is_an_end_of_file_status : Test :=
  run {| test_files := new_directory {["a" := as_bytes "xy"]};
         test_handles := {["h0" := Read "a"]} |} (
  reply ← answer_with READ ([] |> u32_be 9 |> put_string (as_bytes "h0") |> u64_be 2
                               |> u32_be 10) 1;
  kind ← lift (kind_of reply);
  code ← lift (code (body_of reply));
  mret ((kind =? STATUS) && (code =? EOF))).

Definition a_readdir_lists_once_with_stamps_then_says_end_of_directory : Test :=
  run {| test_files := new_directory (<["two" := as_bytes "xy"]> {["one" := []]});
         test_handles := {["d0" := Dir false]} |} (
  first ← answer_with READDIR ([] |> u32_be 1 |> put_string (as_bytes "d0")) 1;
  kind ← lift (kind_of first);
  listed ← lift (entries (body_of first));
  let stamped (name : string) (l : N) :=
    (name, Some {| stamp_length := l; stamp_modified := 0 |}) in
  end_ ← answer_with READDIR ([] |> u32_be 2 |> put_string (as_bytes "d0")) 1;
  code ← lift (code (body_of end_));
  mret ((kind =? NAME) && (listed =? [stamped "one" 0; stamped "two" 2]) && (code =? EOF))).

Definition a_file_written_again_lists_with_another_modification_time : Test := run fresh (
  _ ← open_write;
  first ← gets (λ s, modified (test_files s) "probe.bin");
  _ ← open_write;
  again ← gets (λ s, modified (test_files s) "probe.bin");
  mret ((0 <? first)%N && (first <? again)%N)).

Definition its_owner_is_told_each_file_a_client_finished_writing : Test :=
  run {| test_files := telling default_directory; test_handles := ∅ |} (
  handle ← open_write;
  before ← gets (λ s, told (test_files s));
  _ ← answer_with CLOSE ([] |> u32_be 3 |> put_string (as_bytes handle)) 1;
  heard ← gets (λ s, told (test_files s));
  mret ((before =? Some []) && (heard =? Some ["probe.bin"]))).

Definition an_unknown_request_type_is_refused : Test :=
  Ok (is_err (answer_with 200 [] 0 fresh).1).

Definition directory_tests : list Test :=
  [a_write_then_a_read_returns_the_same_bytes_through_the_far_end;
   a_write_past_what_the_far_end_holds_is_refused_before_it_is_allocated;
   a_read_past_the_end_is_an_end_of_file_status;
   a_readdir_lists_once_with_stamps_then_says_end_of_directory;
   a_file_written_again_lists_with_another_modification_time;
   its_owner_is_told_each_file_a_client_finished_writing;
   an_unknown_request_type_is_refused].
End directory.

Definition subsystem_tests : list Test :=
  [a_framed_packet_carries_its_type_and_body_length;
   a_status_code_and_a_name_list_read_back_off_their_bodies;
   a_name_that_is_not_utf8_is_refused].

Example subsystem_tests_pass : forallb passes subsystem_tests = true.
Proof. vm_compute. reflexivity. Qed.

(** Before the epoch, at it, today, and near the last second a [u32] counts. *)
Definition clocks : list (option N) := [None; Some 0; Some 1790000000; Some (2 ^ 32 - 3)].

Example directory_tests_pass :
  forallb (λ now, forallb passes (directory_tests now)) clocks = true.
Proof. vm_compute. reflexivity. Qed.

(** Past that second the time a listing gives saturates, and a file written
    again lists as it did. *)
Example written_again_saturates :
  passes (a_file_written_again_lists_with_another_modification_time (Some (2 ^ 32))) = false.
Proof. vm_compute. reflexivity. Qed.

(** ** src/lib.rs *)
Import Loopback.Instances FarProperties.Witnesses ConnectProperties.Witnesses TransportProperties.Witnesses.
#[local] Existing Instances loop_client ref_claims ref_pooling.

(** A URI reader: what follows [scheme://] up to a slash is the authority, a
    user before its [@]; the rest is the path. *)
Fixpoint split_at (c : Ascii.ascii) (s : string) : string * option string :=
  match s with
  | EmptyString => (EmptyString, None)
  | String x rest =>
    if Ascii.eqb x c then (EmptyString, Some rest)
    else let '(before, after) := split_at c rest in (String x before, after)
  end.
Record Uri : Type := { uri_user : option string; uri_authority : string; uri_path : string }.
Definition uri_under (schemes : list string) (s : string) : option Uri :=
  scheme ← List.find (λ scheme, String.prefix (scheme +:+ "://") s) schemes;
  let start := (String.length scheme + 3)%nat in
  let '(server, path) := split_at "/" (String.substring start (String.length s - start) s) in
  let path := default "" path in
  Some match split_at "@" server with
       | (user, Some server) =>
         {| uri_user := Some user; uri_authority := server; uri_path := path |}
       | (_, None) => {| uri_user := None; uri_authority := server; uri_path := path |}
       end.

Section uri.
#[local] Existing Instance ref_surroundings.
Definition uri_surroundings : Surroundings := {|
  Target := Uri;
  target_under := uri_under;
  target_authority := uri_authority;
  target_path := uri_path;
  target_user := uri_user;
  Secured := Secured;
  Secret := Secret;
  secured_name := secured_name;
  secured_secret := secured_secret;
  secret_kind := secret_kind;
  secret_text := secret_text;
  private_key_ed25519 := private_key_ed25519;
  claiming_process := claiming_process;
  Held := Held;
  claiming_held := claiming_held;
  NodeLocation := NodeLocation;
  claiming_recovering := claiming_recovering;
  pins_in_memory := pins_in_memory;
  loopback_timeout := loopback_timeout;
|}.
End uri.
#[local] Existing Instance uri_surroundings.

Inductive Ways : Set := In | Out | Both.
#[local] Instance Ways_eq_dec : EqDecision Ways.
Proof. solve_decision. Defined.
#[local] Instance plain_capabilities : Capabilities := {|
  Directions := Ways; directions_both := Both;
  ArrivalOrder := string; arrivals_ordered s := s;
  Waiting := string; waiting_polled s := s;
  Sending := string; sending_streamed s := s;
  Kind := unit; kind_duration := tt;
  Presence := unit; presence_optional := tt;
  Applies := unit; applies_both := tt;
|}.

Definition the_transport_names_itself_and_claims_its_files : Test :=
  let transport := new_transport "sftp://host:22/in" in
  mret ((transport_name =? "sftp")
    && bool_decide ((directions : Ways) = Both)
    && match transport_claims transport with Some _ => true | None => false end
    && (authority transport =? "host:22")
    && (resolve transport "sftp://other:22/a/b.edi" =? ("other:22", "b.edi"))
    && (resolve transport "plain.edi" =? ("host:22", "plain.edi"))).

(** The reading of a Location's settings, without the settings' own text. *)
Definition sftp_reads_its_address : Test :=
  let built := configured "sftp://courier@host:22/in" (Some 2) in
  mret ((authority built =? "host:22") && (user built =? "courier") && (timeout built =? Some 2)).

Example transport_tests_pass :
  forallb passes [the_transport_names_itself_and_claims_its_files; sftp_reads_its_address] = true.
Proof. vm_compute. reflexivity. Qed.
