(* ===== verification/NetTests.v ===== *)
(** The crate's own tests that open a socket (the [tests] modules of
    src/server.rs and src/lib.rs), as programs over the network of
    [Network]: the near end runs first, and the far end's thread over all the
    near end said.  Keys are concrete seeds; the pool, the secrets and the
    listener are an instance of the transport capability's, and its round of
    the loopback is an argument of the loopback's tests.  The tests that
    turn on the claim's own memory of what it listed are not here. *)

From S2P Require Import Prelude RustStd Externals Reference Wire Directory FarSpec FarRefine.
From S2P Require Import FarInvariant FarWorld FarProperties Serve ServeProperties Sessions.
From S2P Require Import Replies Client Site Session Contract Loopback ClientProperties Connect.
From S2P Require Import Network Connection Listener Transport Round Fixture UnitTests.

Import Reference.Instances.
#[local] Existing Instances net_keys held_outgoings.

Local Open Scope N_scope.
#[local] Notation "a =? b" := (bool_decide (a = b)) : bool_scope.
#[local] Open Scope bool_scope.

(** ** What the tests use *)

(** [str::contains]. *)
Definition contains (part whole : string) : bool :=
  match String.index 0 part whole with Some _ => true | None => false end.

(** [TransportError]'s message, and whether it may be tried again. *)
Definition message (e : error) : string :=
  match e with Protocol m | Retryable m | Permanent m => m end.
Definition is_retryable (e : error) : bool := match e with Retryable _ => true | _ => false end.

(** [expect_err]: the error, where there is one. *)
Definition expect_err {A} (o : outcome error A) : outcome error error :=
  match o with Err e => Ok e | _ => Panic end.

(** A thread that panicked is not joined. *)
Definition is_panic {A} (o : outcome error A) : bool := match o with Panic => true | _ => false end.

(** The address a listener bound for a test. *)
Definition bound : string := "127.0.0.1:4022".
(** The turns a far end takes at the most, and a directory nobody else works
    in, by a clock: one that stands still. *)
Definition turns : nat := 64.
Definition alone (clock : nat → option N) : Env := λ i, (clock i, λ d, d).
Definition stopped (i : nat) : option N := Some 7.
Definition still : Env := alone stopped.
(** Seconds. *)
Definition secs (n : N) : N := n.

(** A far end on the address, signing as [host], admitting [check], over no
    files. *)
Definition listening (host : SigningKey) (check : Check) : Host :=
  {| host_address := bound; host_key_of := host; host_check := check;
     host_store _ := default_directory; host_env := still; host_most := usize_max |}.

(** The far end's thread over what a near end said: [serve], and
    [serve_channels]. *)
Definition Said_to : Type := @TcpStream _ server_ssh net_keys net_server.
Definition served (host : SigningKey) (fs : gmap string bytes) (check : Check) (said : Said_to) :
    outcome error (gmap string bytes * Authenticated * bytes) :=
  @serve_connection _ _ _ _ server_ssh net_keys net_server turns still said host fs check.
Definition served_channels (host : SigningKey) (fs : gmap string bytes) (most : N) (check : Check)
    (said : Said_to) : outcome error (gmap string bytes * Authenticated * bytes) :=
  @serve_channels _ _ _ _ server_ssh net_keys net_server turns still said host fs most check.

(** The near end of a client, which [far] is the far end of: no pins, and
    what was said when it hung up. *)
Definition dial (far : Host) (user : string) (credential : option Credential) (timeout : N) :
    outcome error Near * Said_to :=
  let '(o, d) := @connect _ (near_ssh far) net_keys (net_client far) bound user credential
                   (Some timeout)
                   {| pins := (∅ : gmap string string) : @Pinned _ _ _ (net_client far);
                      wire := None |} in
  (o, match wire d with Some c => log (c : Near) | None => [] end).

Definition hang_up (far : Host) (c : Near) (name : string) (body : bytes) :
    outcome error unit * Said_to :=
  let '(o, c) := @client_put _ _ (near_ssh far) _ name (body : Outgoing) c in (o, log (c : Near)).

(** ** src/server.rs *)
Section server.
Context (host auth : SigningKey).

Definition a_client_puts_a_file_and_the_far_end_keeps_it_with_the_peers_key : Test :=
  let check := keyed "xmip" auth in
  let far := listening host check in
  client ← (dial far "xmip" (Some (PublicKeyOf auth)) (secs 5)).1;
  let '(put, said) := hang_up far client "probe.bin" (as_bytes "one exchange") in
  _ ← put;
  '(files, who, _) ← served host ∅ check said;
  kept ← expect (files !! "probe.bin");
  print ← expect (who_fingerprint who);
  mret ((kept =? as_bytes "one exchange") && (who_user who =? "xmip")
        && String.prefix "SHA256:" print).

(** [transport::payload::patterned]. *)
Context (patterned : N → bytes).

Definition a_large_file_crosses_whole_through_many_write_chunks : Test :=
  let check := keyed "xmip" auth in
  let far := listening host check in
  let payload := patterned 200000 in
  client ← (dial far "xmip" (Some (PublicKeyOf auth)) (secs 10)).1;
  let '(put, said) := hang_up far client "big.bin" payload in
  _ ← put;
  '(files, _, _) ← served host ∅ check said;
  kept ← expect (files !! "big.bin");
  mret (kept =? payload).

Definition a_key_that_signs_for_a_user_it_is_not_enrolled_for_is_turned_down : Test :=
  let check := keyed "orders" auth in
  let far := listening host check in
  let '(connected, said) := dial far "payroll" (Some (PublicKeyOf auth)) (secs 5) in
  refused ← expect_err connected;
  mret (contains "turned" (message refused) && is_err (served host ∅ check said)).
End server.

Definition ex_host_key : SigningKey := as_bytes "the host key".
Definition ex_auth : SigningKey := as_bytes "the client key".

(** A payload whose bytes tell where they are. *)
Definition ex_patterned (n : N) : bytes :=
  take (N.to_nat n)
    (concat (replicate (N.to_nat (n / 251 + 1)) ((λ i, byte_of_N (N.of_nat i)) <$> seq 0 251))).

Example server_tests_pass :
  forallb passes [
    a_client_puts_a_file_and_the_far_end_keeps_it_with_the_peers_key ex_host_key ex_auth;
    a_key_that_signs_for_a_user_it_is_not_enrolled_for_is_turned_down ex_host_key ex_auth;
    a_large_file_crosses_whole_through_many_write_chunks ex_host_key ex_auth ex_patterned] = true.
Proof. vm_compute. reflexivity. Qed.

(** ** What a transport is built on *)
Section surroundings.
Context `{!Ssh, !SshClient} (memory : Pinned).

(** A claim nothing asks of. *)
Definition no_claims : Claims := {|
  Verdict := unit; Taken := string; taken_dropped t := t; taken_claimed t := t;
  Claiming := unit; claiming_take _ _ := mret []; claiming_told _ _ _ := mret tt;
|}.
#[local] Existing Instance no_claims.

(** The one secret a test sets, or none, whatever name it is asked by. *)
Definition One : Type := option (SecretKind * string).
Definition one_secret (o : One) (name : string) : outcome error (option (SecretKind * string)) :=
  Ok o.

(** [transport::Secured]: a secret's name and where it is looked up; one not
    set is an error. *)
Definition secured_in (s : string * One) : outcome error (SecretKind * string) :=
  found ← one_secret s.2 s.1;
  match found with
  | Some secret => Ok secret
  | None => Err (permanent ("the secret '" +:+ s.1 +:+ "' is not set"))
  end.
(** A key as it is written. *)
Definition written (key : SigningKey) : string := String.string_of_list_byte key.

Definition net_surroundings : Surroundings := {|
  Target := Uri;
  target_under := uri_under;
  target_authority := uri_authority;
  target_path := uri_path;
  target_user := uri_user;
  Secured := string * One;
  Secret := SecretKind * string;
  secured_name := fst;
  secured_secret := secured_in;
  secret_kind := fst;
  secret_text := snd;
  private_key_ed25519 pem := inl (as_bytes pem) : (SigningKey + string)%type;
  claiming_process := tt : @Claiming _ _ _ no_claims;
  Held := string;
  claiming_held _ := [];
  NodeLocation := unit;
  claiming_recovering _ := tt : @Claiming _ _ _ no_claims;
  pins_in_memory := memory;
  loopback_timeout := secs 5;
|}.

(** A pool that keeps one connection a server, and opens it where none is
    kept. *)
Definition kept_exchange {A} (key : string) (open : M Pinned error Line) (act : M Line error A) :
    M (gmap string Line * Pinned) error A := fun '(p, q) =>
  let '(o, q) := match p !! key with Some line => (Ok line, q) | None => open q end in
  match o with
  | Ok line => let '(o, line) := act line in (o, (<[key := line]> p, q))
  | Err e => (Err e, (p, q))
  | Panic => (Panic, (p, q))
  | OutOfFuel => (OutOfFuel, (p, q))
  end.
Definition kept_pooling : Pooling :=
  {| Pool := gmap string Line; pool_new := ∅; pool_exchange _ := kept_exchange |}.
End surroundings.

(** ** Near ends of a far end *)
Section near_ends.
Context (far : Host).
#[local] Instance far_ssh : Ssh := near_ssh far.
#[local] Instance far_client : SshClient := net_client far.
Definition in_memory : @Pinned _ _ _ far_client := ∅ : gmap string string.
#[local] Existing Instances no_claims kept_pooling.
#[local] Instance near_surroundings : Surroundings := net_surroundings in_memory.

(** [transport::Transport::send]: the target's own name where bytes held are
    sent. *)
Definition sends (near : SftpTransport) (target : string) (body : bytes) :
    outcome error unit * SftpTransport :=
  send_from (λ _ given _, Ok given) target (body : Outgoing) near.

(** What was said on the connection a near end keeps, when it is dropped. *)
Definition dropped (near : SftpTransport) : Said_to :=
  match (clients near : gmap string Line) !! bound with
  | Some (Here c) => log (c : Near)
  | _ => []
  end.

(** The near ends of a test whose far end is [far], and its last assertions. *)
Definition secret_key_near_ends (auth : SigningKey) : Test :=
  let unset : Secured := ("partner-x.sftp", None) : string * One in
  let near := secured_by unset (new_transport "127.0.0.1:9") in
  refused ← expect_err (sends near "probe.bin" (as_bytes "x")).1;
  let set : Secured := ("partner-x.sftp", Some (SecretKey, written auth)) : string * One in
  let near :=
    secured_by set (timing_out_after (secs 5) (as_user "party" (new_transport bound))) in
  let '(sent, near) := sends near "probe.bin" (as_bytes "keyed") in
  _ ← sent;
  '(_, who, _) ← served (host_key_of far) ∅ (host_check far) (dropped near);
  mret (contains "'partner-x.sftp' is not set" (message refused)
        && (who_fingerprint who =? Some (key_print auth))).

(** [crate::fixture::near]'s password, drawn once. *)
Context (drawn : bytes).
Definition hex (b : bytes) : string := String.string_of_list_byte b.

Definition pinned_near_ends : Test :=
  let near := pinned_by in_memory (timing_out_after (secs 5) (near hex drawn bound)) in
  let '(first, near) := sends near "first.edi" (as_bytes "pinned") in
  _ ← first;
  let '(kept, elsewhere) :=
    pins_hold ("sftp://" +:+ bound) "SHA256:another" in_memory in
  _ ← kept;
  let held := pinned_by elsewhere (timing_out_after (secs 5) (Fixture.near hex drawn bound)) in
  let '(second, held) := sends held "second.edi" (as_bytes "refused") in
  refused ← expect_err second;
  mret (negb (is_retryable refused) && contains "SHA256:another" (message refused)
        && negb (is_panic (served_channels (host_key_of far) ∅ 1 (host_check far) (dropped near)))
        && negb (is_panic (served_channels (host_key_of far) ∅ 1 (host_check far) (dropped held)))).
End near_ends.

(** The tests, each over the far end it listens with. *)
Definition a_location_presents_the_key_its_secret_holds_and_says_one_not_set
    (host auth : SigningKey) : Test :=
  secret_key_near_ends (listening host (keyed "party" auth)) auth.

Definition a_server_is_held_to_the_host_key_it_presented_first_and_refused_another
    (drawn : bytes) : Test :=
  pinned_near_ends (listening (signing_key_of FAR_SEED) (check hex drawn)) drawn.

(** ** The loopback *)

(** What the far end's transport is built on: it dials nobody. *)
Definition nobody_dials : @SshClient _ server_ssh net_keys := {|
  Stream := unit;
  connect_tcp _ _ := Err hung_up;
  settle _ _ := Ok tt;
  conn_of _ := Err hung_up;
  client_banner := Prelude.fail hung_up;
  Connect.Exchange := unit;
  kex_client _ := Prelude.fail hung_up;
  host_key _ := [];
  exchange_session _ := [];
  PublicKey := unit;
  public_key_parse _ := Err hung_up;
  fingerprint _ := "";
  request_service := Prelude.fail hung_up;
  userauth_password _ _ := Prelude.fail hung_up;
  userauth_public_key _ _ _ := Prelude.fail hung_up;
  userauth_none _ := Prelude.fail hung_up;
  Pinned := unit;
  pins_hold _ _ := mret tt;
  alive _ := false;
|}.

(** A listener is what its one client says, and the client's address. *)
Definition one_client : @Listening _ server_ssh net_keys net_server := {|
  TcpListener := list Message * string;
  stream_settle _ _ := Ok tt;
  accept_tcp l _ := Ok (l.1 : @TcpStream _ _ _ net_server, l.2);
  tcp_bind address := Ok ([], address);
  Concurrent := unit;
  concurrent_start _ _ _ _ := Ok tt;
|}.
#[local] Instance names : Properties := {|
  SSH_USER := "ssh.user"; SSH_KEY := "ssh.key"; SSH_SIGNATURE := "ssh.signature";
  SSH_SESSION := "ssh.session"; encode_unpadded b := String.string_of_list_byte b;
|}.

(** The far end's transport and the near end's are both [loopback]'s. *)
Definition far_surroundings :=
  @net_surroundings server_ssh nobody_dials (tt : @Pinned _ _ _ nobody_dials).
Definition far_loopback :=
  @loopback _ _ server_ssh _ nobody_dials _ far_surroundings kept_pooling.

(** The far end [far_end] binds, by a clock, and the address its client comes
    from. *)
Definition loopback_far (clock : nat → option N) : Host :=
  {| host_address := bound;
     host_key_of := signing_key_of FAR_SEED;
     host_check :=
       @far_check _ _ server_ssh _ nobody_dials _ far_surroundings kept_pooling far_loopback;
     host_store _ := default_directory;
     host_env := alone clock;
     host_most := usize_max |}.
Definition peer : string := "127.0.0.1:5022".

(** The near end's transport, and what it dials with. *)
Definition near_loopback (clock : nat → option N) :=
  let far := loopback_far clock in
  @loopback _ _ (near_ssh far) _ (net_client far) _ (near_surroundings far) kept_pooling.
Definition near_sends (clock : nat → option N) (payload : bytes) :=
  let far := loopback_far clock in
  @send_to _ _ (near_ssh far) _ (net_client far) _ _ (near_surroundings far) kept_pooling
    (λ b, b : Outgoing) (near_loopback clock) bound payload
    {| pins := transport_pins (near_loopback clock); wire := None |}.

(** The far end's listener, once the near end said what it did. *)
Definition heard_by_far (clock : nat → option N) (payload : bytes) :=
  (match wire (near_sends clock payload).2 with Some c => log (c : Near) | None => [] end, peer).

(** The tests of a round, which is [transport::Loopback]'s. *)
Section rounds.
Context (round : bytes → outcome error Arrived).

Definition the_loopback_puts_a_file_and_takes_it_with_the_peer_on_the_arrival : Test :=
  arrived ← round (as_bytes "UNA:+.? '");
  mret ((arrived_bytes arrived =? as_bytes "UNA:+.? '")
        && String.prefix "sftp://127.0.0.1:" (origin_uri arrived)
        && contains "/probe.bin?" (origin_uri arrived)
        && contains "ssh.user=xmip" (origin_uri arrived)
        && contains "ssh.key=SHA256:" (origin_uri arrived)
        && contains "ssh.signature=" (origin_uri arrived)
        && contains "ssh.session=" (origin_uri arrived)).

(** src/loopback.rs: the payloads of [transport::payload::edge_payloads], and
    what the transport crate makes of a transport's ceiling. *)
Context (edge_payloads : list (string * bytes)) (ceiling : option N) (refuses : bytes → option error).

Fixpoint each_returns (payloads : list (string * bytes)) : Test :=
  match payloads with
  | [] => mret true
  | (name, payload) :: payloads =>
    arrived ← round payload;
    returned ← each_returns payloads;
    mret (match refuses payload with None => true | Some _ => false end
          && (arrived_bytes arrived =? payload) && returned)
  end.
Definition the_loopback_returns_the_edge_payloads_whole : Test :=
  returned ← each_returns edge_payloads;
  mret (match ceiling with None => true | Some _ => false end && returned).
End rounds.

(** One round: the near end sends, and the far end takes, in so many turns. *)
Definition one_round (payload : bytes) : outcome error Arrived :=
  _ ← (near_sends stopped payload).1;
  @far_take _ _ _ _ server_ssh _ nobody_dials _ far_surroundings kept_pooling net_server
    one_client names turns (alone stopped) far_loopback (heard_by_far stopped payload).

Example transports_tests_pass :
  forallb passes [
    a_location_presents_the_key_its_secret_holds_and_says_one_not_set ex_host_key ex_auth;
    a_server_is_held_to_the_host_key_it_presented_first_and_refused_another ex_auth;
    the_loopback_puts_a_file_and_takes_it_with_the_peer_on_the_arrival one_round;
    the_loopback_returns_the_edge_payloads_whole one_round
      [("empty", []); ("one byte", [byte_of_N 0]); ("many requests", ex_patterned 100000)]
      None (λ _, None)] = true.
Proof. vm_compute. reflexivity. Qed.
