(* ===== verification/Returns.v ===== *)
(** The loopback from end to end, over any ssh crate that keeps the laws of
    [Ends]: what [Round.send_to] puts is what [Round.far_take] takes, the far
    end serving from the accepted stream over all the near end said. *)

From S2P Require Import Prelude RustStd Externals Reference Wire Directory FarSpec FarRefine.
From S2P Require Import FarInvariant FarWorld FarProperties Serve ServeProperties Sessions.
From S2P Require Import Replies Client Site Session Contract Loopback ClientProperties Connect.
From S2P Require Import ConnectProperties Ends Network NetworkProperties Connection Listener Transport.
From S2P Require Import Round RoundProperties UnitTests NetTests.

Local Open Scope N_scope.

Section returns.
Context `{!Platform, !TransportErrors, !Codec, !CodecLaws, !Net, !NetLaws, !Keys, !Outgoings,
          !OutgoingLaws, !Properties}.
(** The near end's ssh, and its transport's surroundings. *)
Context {near : Ssh} {client : @SshClient _ near _} {claims : @Claims _ _ near}
  {around_near : @Surroundings _ _ near _ client claims} {pool : @Pooling _ near _ client}.
(** The far end's, and its listener. *)
Context {far : Ssh} {dials : @SshClient _ far _} {far_claims : @Claims _ _ far}
  {around_far : @Surroundings _ _ far _ dials far_claims} {far_pool : @Pooling _ far _ dials}
  {server : @SshServer _ far _} {listening : @Listening _ far _ server}
  {accepts : @Accepting _ far _ server}.
(** The transport at either end. *)
Context (t : @SftpTransport _ _ near _ client claims around_near pool).
Context (far_t : @SftpTransport _ _ far _ dials far_claims around_far far_pool).
Context (address : string) (env : Env) (credential : option Credential) (who : Authenticated).
Context (session : bytes) (held_outgoing : bytes → Outgoing).
Context `{!Ends near client far server accepts env usize_max (new_directory ∅)
            (signing_key_of FAR_SEED) (far_check far_t) address (user t) credential who session}.

(** Nobody else has the far end's directory. *)
Hypothesis alone : ∀ i d, (env i).2 d = d.

Lemma alone_keeps n : keeps (around (env:=env)) n.
Proof. intros d d' [->|[i ->]]; [done|by rewrite alone]. Qed.

Lemma alone_wf : env_wf env.
Proof. intros i d. by rewrite alone. Qed.

Lemma probe_short : name_short PROBE.
Proof. split; vm_compute; [done|reflexivity]. Qed.

(** The near end's put, and what it said of it. *)
Lemma loopback_sends payload l dialing c dialing' :
  presented t = Ok credential →
  transport_connect (near_end t address) address dialing = (Ok c, dialing') →
  outgoing_pieces CHUNK (held_outgoing payload) = (l, None) →
  outgoing_body (held_outgoing payload) = payload → blen payload ≤ MAX_BODY →
  ∃ c' fs d, send_to held_outgoing t address payload dialing
      = (Ok tt, {| pins := pins dialing'; wire := Some c' |})
    ∧ reaches_after [fs] c' d ∧ files d = {[PROBE := payload]}.
Proof.
  intros Hpres Hc Hp Hbody Hb.
  assert (@connect _ near _ client address (user t) credential (timeout t) dialing = (Ok c, dialing'))
    as Hconn.
  { unfold transport_connect in Hc. change (presented (near_end t address)) with (presented t) in Hc.
    rewrite Hpres in Hc. exact Hc. }
  assert (wf_directory (new_directory ∅)) as Hd0.
  { split; [intros ? ?|intros ? ?|done]; cbn; by rewrite lookup_empty. }
  pose proof usize_max_ge. unfold u32_max in *.
  destruct (put_said alone_wf PROBE (held_outgoing payload) l [] c (new_directory ∅))
    as (c' & d & fs & Hput & Hr & _ & Hf & Hy);
    [|simpl; lia|done|apply alone_keeps|exact probe_short|done|by rewrite Hbody|].
  { split; [by eapply ends_connect|]. exists []. constructor. }
  exists c', fs, d. split; [unfold send_to; by rewrite Hc, Hput|]. split; [exact Hr|].
  rewrite Hbody in Hf. apply map_eq. intros m. destruct (decide (m = PROBE)) as [->|Hm].
  - by rewrite Hf, lookup_singleton_eq.
  - rewrite lookup_singleton_ne, (only_keeps _ _ _ _ _ Hy Hm (alone_keeps m)) by done. done.
Qed.

(** C9: the loopback gives back what it is given.  For any ssh crate whose two
    ends keep the laws of [Ends], and a near end that connected: for every
    payload within the ceiling, the near end's put ends OK, and the far end
    that accepts its stream, given turns enough, serves what it said and takes
    the file as an arrival — exactly the payload, with the peer, the file's name
    and the user on its origin, and the user and the key's fingerprint, where a
    key logged in, observed. *)
Theorem loopback_returns payload l dialing c dialing' :
  presented t = Ok credential →
  transport_connect (near_end t address) address dialing = (Ok c, dialing') →
  outgoing_pieces CHUNK (held_outgoing payload) = (l, None) →
  outgoing_body (held_outgoing payload) = payload → blen payload ≤ MAX_BODY →
  ∃ c', send_to held_outgoing t address payload dialing
      = (Ok tt, {| pins := pins dialing'; wire := Some c' |})
    ∧ ∃ n, ∀ fuel listener peer, (n ≤ fuel)%nat →
      accept_tcp listener (timeout far_t) = Ok (accepted c', peer) →
      ∃ a tl, far_take fuel env far_t listener = Ok a ∧ arrived_bytes a = payload
        ∧ origin_uri a = ("sftp://" +:+ peer +:+ "/" +:+ PROBE +:+ "?" +:+ SSH_USER +:+ "="
                          +:+ who_user who) +:+ tl
        ∧ observed a = (SSH_USER, who_user who)
                       :: match who_fingerprint who with Some f => [(SSH_KEY, f)] | None => [] end.
Proof.
  intros Hpres Hc Hp Hbody Hb.
  destruct (loopback_sends payload l dialing c dialing' Hpres Hc Hp Hbody Hb)
    as (c' & fs & d & Hs & Hr & Hd).
  exists c'. split; [exact Hs|]. exists (S (length [fs] + total [fs])). intros fuel listener peer Hf Hacc.
  pose proof usize_max_ge. unfold u32_max in *.
  destruct (said_served (λ _ : string, tt) (λ _, new_directory ∅) fs [] c' d fuel Hr eq_refl)
    as (store & Hserve & Hk & _); [lia|simpl; lia|].
  destruct (arrival_one peer PROBE payload who) as (a & tl & Ha & Hrest).
  exists a, tl. split; [|exact Hrest].
  unfold far_take, serve_connection, serve_channels, serve_directory. rewrite Hacc.
  cbn [mbind outcome_bind]. rewrite Hserve. cbn [mbind outcome_bind mret outcome_ret].
  by rewrite Hk, Hd.
Qed.
End returns.

(** ** Witness: the loopback over the network of [Network] *)
Module Witnesses.
Import Reference.Instances ClientProperties.Witnesses.
#[local] Existing Instances net_keys held_outgoings held_outgoing_laws names.

(** Who the far end admits: the near end, by the key it presents. *)
Definition ex_key : SigningKey := signing_key_of LOOPBACK_SEED.
Definition ex_session : bytes := session_of (signing_key_of FAR_SEED).
Definition ex_who : Authenticated :=
  {| who_user := "xmip"; who_fingerprint := Some (key_print ex_key);
     who_signature := Some (ex_key ++ ex_session);
     who_signed := Some (ex_session ++ as_bytes "xmip") |}.

Definition ex_far : Host := loopback_far stopped.
Definition ex_payload : bytes := as_bytes "UNA:+.? '".
Definition ex_dialing : @Dialing _ (near_ssh ex_far) _ (net_client ex_far) :=
  {| pins := transport_pins (near_loopback stopped); wire := None |}.
Definition ex_dialed :=
  @transport_connect _ _ (near_ssh ex_far) _ (net_client ex_far) _ (near_surroundings ex_far)
    kept_pooling
    (@near_end _ _ (near_ssh ex_far) _ (net_client ex_far) _ (near_surroundings ex_far) kept_pooling
       (near_loopback stopped) bound) bound ex_dialing.

Definition ex_ends := net_ends ex_far "xmip" (Some (PublicKeyOf ex_key)) ex_who eq_refl.

Lemma loopback_returns_witness :
  ∃ c' n a, near_sends stopped ex_payload = (Ok tt, {| pins := pins ex_dialed.2; wire := Some c' |})
    ∧ @far_take _ _ _ _ server_ssh _ nobody_dials _ far_surroundings kept_pooling net_server
        one_client names n (alone stopped) far_loopback (log (c' : Near), peer) = Ok a
    ∧ arrived_bytes a = ex_payload
    ∧ observed a = [("ssh.user", "xmip"); ("ssh.key", key_print ex_key)].
Proof.
  assert (match ex_dialed.1 with Ok _ => true | _ => false end = true) as Hc by (vm_compute; reflexivity).
  destruct ex_dialed as [o d] eqn:Hd. cbn [fst snd] in *.
  destruct o as [c| | |]; [|discriminate Hc..].
  destruct (loopback_returns (near_loopback stopped) far_loopback bound (alone stopped)
              (Some (PublicKeyOf ex_key)) ex_who ex_session (λ b, (b : @Outgoing _ held_outgoings)) (Ends0:=ex_ends)
              (listening:=one_client) (λ _ _, eq_refl) ex_payload [ex_payload] ex_dialing c d)
    as (c' & Hs & n & Hn).
  - reflexivity.
  - exact Hd.
  - vm_compute. reflexivity.
  - reflexivity.
  - vm_compute. discriminate.
  - destruct (Hn n (log (c' : Near), peer) peer (le_n n) eq_refl) as (a & tl & Ha & Hb & _ & Hobs).
    exists c', n, a. exact (conj Hs (conj Ha (conj Hb Hobs))).
Defined.
End Witnesses.
