(* ===== verification/Arrivals.v ===== *)
(** A harvest among its arrivals (src/connection.rs, [answering], [reading],
    [told], [finish], [Fetch::next_chunk]): the harvest's thread and the
    threads that own the arrivals, over the channels between them.

    [asking] holds any number of requests; a body's channel holds one item,
    so the harvest waits in [chunks.send] until the body takes it or is let
    go; a thread waits in [recv] for its next chunk, for the answer to its
    verdict, and for the client to be back.  The harvest's thread here is the
    one [Connection.answering] writes as a function: [ArrivalsProperties]
    shows that it is, and which owners never wait for ever. *)

From S2P Require Import Prelude RustStd Externals Reference Wire Directory FarSpec FarRefine.
From S2P Require Import FarInvariant FarWorld FarProperties Replies Client Site Session.
From S2P Require Import Connect Connection.

Local Open Scope N_scope.

Section arrivals.
Context `{!TransportErrors, !Codec, !Ssh, !Keys, !SshClient, !Claims}.

(** ** The owners of the arrivals *)

(** What an owner does, arrivals by their place in the list: read a body's
    next chunk, let the body go, tell the verdict ([None] where the arrival
    was let go without one), end the harvest. *)
Inductive Act : Type :=
  | Take (body : nat)
  | Let_go (body : nat)
  | Tell (claimed : nat) (verdict : option Verdict)
  | Finishing.

(** The closure given to [together] for its last verdict: what was let go is
    returned, and the harvest ended. *)
Fixpoint finishing (place : nat) (verdicts : list (option Verdict)) : list Act :=
  match verdicts with
  | [] => [Finishing]
  | None :: verdicts => Tell place None :: finishing (S place) verdicts
  | Some _ :: verdicts => finishing (S place) verdicts
  end.

(** [told]: [None] where the request could not be sent, and within, [None]
    where it was dropped unanswered. *)
Definition told (answer : option (option (outcome error unit))) : outcome error unit :=
  match answer with
  | None => Err (protocol_error "the receive's channel closed before the verdict")
  | Some None => Err (protocol_error "the receive's channel closed during the verdict")
  | Some (Some told) => told
  end.

(** What an owner's act came to. *)
Inductive Got : Type :=
  | Got_chunk (item : Item)
  | Got_told (o : outcome error unit)
  | Got_finished.

(** An owner: what it has still to do, whether it waits for an answer to the
    first of it, and what it got. *)
Record Owner : Type := { script : list Act; waiting : bool; got : list Got }.

Definition owner_of (acts : list Act) : Owner := {| script := acts; waiting := false; got := [] |}.

Definition pop (g : list Got) (o : Owner) : Owner :=
  {| script := tail (script o); waiting := false; got := got o ++ g |}.

Definition wait (o : Owner) : Owner :=
  {| script := script o; waiting := true; got := got o |}.

(** A body's end of its channel: whether it was asked for, the item in it,
    whether the harvest can still send, whether the body was let go. *)
Record Pipe : Type := {
  asked_for : bool;
  slot : option Item;
  sender : bool;
  gone : bool;
}.

Definition fresh_pipe : Pipe :=
  {| asked_for := false; slot := None; sender := false; gone := false |}.
Definition with_slot (x : option Item) (p : Pipe) : Pipe :=
  {| asked_for := asked_for p; slot := x; sender := sender p; gone := gone p |}.
Definition ask (p : Pipe) : Pipe :=
  {| asked_for := true; slot := slot p; sender := true; gone := gone p |}.
Definition drop_sender (p : Pipe) : Pipe :=
  {| asked_for := asked_for p; slot := slot p; sender := false; gone := gone p |}.
Definition let_go (p : Pipe) : Pipe :=
  {| asked_for := asked_for p; slot := slot p; sender := sender p; gone := true |}.

(** ** The harvest's thread *)

(** What waits to be answered. *)
Inductive Asking : Type :=
  | Ask_read (body : nat)
  | Ask_told (owner : nat) (claimed : nat) (verdict : option Verdict)
  | Ask_finish (owner : nat).

(** Where the thread is: in [requests.recv], in [chunks.send] of a chunk or of
    what ends the body, with what the body was sent; past [answering], with the
    channel to close, the client to give back and the owner to tell it to, if
    one asked; past that; and ended, the receiver of [requests] dropped. *)
Inductive Doing : Type :=
  | Receiving
  | Pushing (body : nat) (handle : string) (offset : N) (chunk : bytes) (sent : list Item)
  | Ending (body : nat) (item : Item) (sent : list Item)
  | Closing (o : outcome error bool) (finished : option nat)
  | Returned (o : outcome error bool)
  | Ended_with (o : outcome error bool).

Context (claiming : Claiming) (names : nat → string).

(** The end of [reading]: the handle is closed, and what ended the body sent,
    where it was not let go. *)
Definition close_read (body : nat) (handle : string) (ended : option Item) (sent : list Item)
    (s : Sftp) : Doing * Sftp :=
  match close handle s with
  | (Ok _, s) =>
    (match ended with Some item => Ending body item sent | None => Receiving end, s)
  | (o, s) => (Closing (_ ← o; Ok false) None, s)
  end.

(** The turn of [reading]'s loop up to its send. *)
Definition read_next (body : nat) (handle : string) (offset : N) (sent : list Item) (s : Sftp) :
    Doing * Sftp :=
  match read_at handle offset s with
  | (Ok (Some chunk), s) =>
    match @u64_add error offset (blen chunk) with
    | Ok offset => (Pushing body handle offset chunk sent, s)
    | o => (Closing (_ ← o; Ok false) None, s)
    end
  | (Ok None, s) => close_read body handle (Some (Ok None)) sent s
  | (Err e, s) => close_read body handle (Some (Err e)) sent s
  | (o, s) => (Closing (_ ← o; Ok false) None, s)
  end.

(** The start of [reading]. *)
Definition begin_read (body : nat) (s : Sftp) : Doing * Sftp :=
  match open_for_reading (names body) s with
  | (Ok handle, s) => read_next body handle 0 [] s
  | (Err e, s) => (Ending body (Err e) [], s)
  | (o, s) => (Closing (_ ← o; Ok false) None, s)
  end.

(** The end of [with_subsystem] and of [harvesting]: the channel closed, and
    the line with the client back on it, or broken; lent as it was where the
    thread panicked. *)
Definition given_back (o : outcome error bool) (s : Sftp) : Line :=
  match o with
  | Ok _ =>
    match channel_close (channel s) with
    | (Ok _, c) => Here (channel_conn c)
    | (Err _, _) => Broken
    | _ => Harvesting
    end
  | Err _ => Broken
  | _ => Harvesting
  end.

(** ** All of them *)

(** The threads, the channels and the line, and for the record the requests
    that were answered, each read with the room its body had, and what was
    said. *)
Record Harvest : Type := {
  doing : Doing;
  sftp : Sftp;
  queue : list Asking;
  pipes : list Pipe;
  owners : list Owner;
  lent : Line;
  answered : list Request;
  said : list Said;
}.

Definition start_harvest (s : Sftp) (bodies : nat) (scripts : list (list Act)) : Harvest :=
  {| doing := Receiving; sftp := s; queue := []; pipes := replicate bodies fresh_pipe;
     owners := owner_of <$> scripts; lent := Harvesting; answered := []; said := [] |}.

(** The record where a read goes on, or came to its end in the thread's. *)
Definition noted (body : nat) (sent : list Item) (room : Room) (d : Doing) (h : Harvest) :
    list Request * list Said :=
  match d with
  | Receiving | Closing _ _ =>
    (answered h ++ [ReadFile (names body) room], said h ++ [Sent (names body) sent])
  | _ => (answered h, said h)
  end.

(** A body's channel where its read is over: the sender is dropped. *)
Definition while_read (d : Doing) (p : Pipe) : Pipe :=
  match d with Pushing _ _ _ _ _ | Ending _ _ _ => p | _ => drop_sender p end.

(** The harvest's thread goes on with the read of [body], [sent] to it. *)
Definition go_on (body : nat) (sent : list Item) (room : Room) (pipe : Pipe → Pipe)
    (queue' : list Asking) (d : Doing * Sftp) (h : Harvest) : Harvest :=
  {| doing := d.1; sftp := d.2; queue := queue';
     pipes := alter (while_read d.1 ∘ pipe) body (pipes h); owners := owners h; lent := lent h;
     answered := (noted body sent room d.1 h).1; said := (noted body sent room d.1 h).2 |}.

(** An owner's step, which leaves the harvest's thread where it is. *)
Definition owner_step (t : nat) (f : Owner → Owner) (body : nat) (pipe : Pipe → Pipe)
    (asks : list Asking) (h : Harvest) : Harvest :=
  {| doing := doing h; sftp := sftp h; queue := queue h ++ asks;
     pipes := alter pipe body (pipes h); owners := alter f t (owners h); lent := lent h;
     answered := answered h; said := said h |}.

Definition over (h : Harvest) : bool :=
  match doing h with Ended_with _ => true | _ => false end.

(** What [claiming.told] came to, answered; a panic drops what would have
    answered it. *)
Definition answer_told (t place : nat) (verdict : option Verdict) (queue' : list Asking)
    (r : outcome error unit * Sftp) (h : Harvest) : Harvest :=
  let (answer, d) :=
    match r.1 with
    | Ok _ | Err _ => (Some r.1, Receiving)
    | Panic => (None, Closing Panic None)
    | OutOfFuel => (None, Closing OutOfFuel None)
    end in
  {| doing := d; sftp := r.2; queue := queue'; pipes := pipes h;
     owners := alter (pop [Got_told (told (Some answer))]) t (owners h); lent := lent h;
     answered := answered h ++ [Told (names place) verdict];
     said := said h ++ match answer with Some o => [Done (names place) o] | None => [] end |}.

Inductive harvest_step : Harvest → Harvest → Prop :=
  (** [requests.recv], and what is asked begun. *)
  | do_read h b q :
    doing h = Receiving → queue h = Ask_read b :: q →
    harvest_step h (go_on b [] None Datatypes.id q (begin_read b (sftp h)) h)
  | do_told h t n v q :
    doing h = Receiving → queue h = Ask_told t n v :: q →
    harvest_step h (answer_told t n v q (claiming_told claiming (names n) v (sftp h)) h)
  | do_finish h t q :
    doing h = Receiving → queue h = Ask_finish t :: q →
    harvest_step h
      {| doing := Closing (Ok true) (Some t); sftp := sftp h; queue := q; pipes := pipes h;
         owners := owners h; lent := lent h;
         answered := answered h ++ [Finish]; said := said h |}
  (** Every owner is done: nobody can ask any more. *)
  | do_last h :
    doing h = Receiving → queue h = [] → Forall (λ o, script o = []) (owners h) →
    harvest_step h
      {| doing := Closing (Ok false) None; sftp := sftp h; queue := []; pipes := pipes h;
         owners := owners h; lent := lent h; answered := answered h; said := said h |}
  (** The channel is closed and the client given back; only then is the owner
      that asked told, or its sender dropped. *)
  | do_back h o finished :
    doing h = Closing o finished →
    harvest_step h
      {| doing := Returned o; sftp := sftp h; queue := queue h; pipes := pipes h;
         owners := match finished with
                   | Some t => alter (pop [Got_finished]) t (owners h)
                   | None => owners h
                   end;
         lent := given_back o (sftp h); answered := answered h; said := said h |}
  (** The thread ends, and the receiver goes with what was not received. *)
  | do_drop h o :
    doing h = Returned o →
    harvest_step h
      {| doing := Ended_with o; sftp := sftp h; queue := []; pipes := pipes h;
         owners := owners h; lent := lent h; answered := answered h; said := said h |}
  (** [chunks.send]: there is room, or the body was let go. *)
  | do_push h b hd off chunk sent p :
    doing h = Pushing b hd off chunk sent → pipes h !! b = Some p →
    slot p = None → gone p = false →
    harvest_step h
      (go_on b (sent ++ [Ok (Some chunk)]) None (with_slot (Some (Ok (Some chunk)))) (queue h)
         (read_next b hd off (sent ++ [Ok (Some chunk)]) (sftp h)) h)
  | do_stop h b hd off chunk sent p :
    doing h = Pushing b hd off chunk sent → pipes h !! b = Some p → gone p = true →
    harvest_step h
      (go_on b sent (Some (length sent)) Datatypes.id (queue h)
         (close_read b hd None sent (sftp h)) h)
  | do_end h b item sent p :
    doing h = Ending b item sent → pipes h !! b = Some p → slot p = None → gone p = false →
    harvest_step h
      (go_on b (sent ++ [item]) None (with_slot (Some item)) (queue h)
         (Receiving, sftp h) h)
  | do_end_gone h b item sent p :
    doing h = Ending b item sent → pipes h !! b = Some p → gone p = true →
    harvest_step h
      (go_on b sent (Some (length sent)) Datatypes.id (queue h) (Receiving, sftp h) h)
  (** [next_chunk]: the first asks for the body; each takes an item, or finds
      the channel closed. *)
  | own_ask h t o b s p :
    owners h !! t = Some o → script o = Take b :: s → pipes h !! b = Some p →
    asked_for p = false → gone p = false → over h = false →
    harvest_step h (owner_step t Datatypes.id b ask [Ask_read b] h)
  | own_ask_over h t o b s p :
    owners h !! t = Some o → script o = Take b :: s → pipes h !! b = Some p →
    asked_for p = false → gone p = false → over h = true →
    harvest_step h
      (owner_step t (pop [Got_chunk (Err (protocol_error "the receive's channel closed"))]) b
         Datatypes.id [] h)
  | own_take h t o b s p x :
    owners h !! t = Some o → script o = Take b :: s → pipes h !! b = Some p →
    slot p = Some x → gone p = false →
    harvest_step h (owner_step t (pop [Got_chunk x]) b (with_slot None) [] h)
  | own_closed h t o b s p :
    owners h !! t = Some o → script o = Take b :: s → pipes h !! b = Some p →
    asked_for p = true → slot p = None → gone p = false → sender p = false ∨ over h = true →
    harvest_step h
      (owner_step t
         (pop [Got_chunk (Err (protocol_error "the receive's channel closed mid-read"))]) b
         Datatypes.id [] h)
  | own_let_go h t o b s :
    owners h !! t = Some o → script o = Let_go b :: s →
    harvest_step h (owner_step t (pop []) b let_go [] h)
  (** [told] and [finish]: the request is sent while the receiver is there, or
      is not; where the receiver goes before it is answered, the answer's
      channel closes. *)
  | own_tell h t o n v s :
    owners h !! t = Some o → script o = Tell n v :: s → waiting o = false → over h = false →
    harvest_step h (owner_step t wait 0 Datatypes.id [Ask_told t n v] h)
  | own_tell_over h t o n v s :
    owners h !! t = Some o → script o = Tell n v :: s → over h = true →
    harvest_step h
      (owner_step t (pop [Got_told (told (if waiting o then Some None else None))]) 0
         Datatypes.id [] h)
  | own_finish h t o s :
    owners h !! t = Some o → script o = Finishing :: s → waiting o = false → over h = false →
    harvest_step h (owner_step t wait 0 Datatypes.id [Ask_finish t] h)
  | own_finish_over h t o s :
    owners h !! t = Some o → script o = Finishing :: s → over h = true →
    harvest_step h (owner_step t (pop [Got_finished]) 0 Datatypes.id [] h).

(** Everything done: the harvest's thread has ended and every owner is at its
    end. *)
Definition all_done (h : Harvest) : Prop :=
  over h = true ∧ Forall (λ o, script o = []) (owners h).
End arrivals.
