(* ===== verification/ArrivalsProperties.v ===== *)
(** The thread of a harvest among its arrivals: whatever their owners do, it
    does what [answering] does of the requests it answered, in the order it
    answered them, and tells the owner that ended it once the client is back. *)

From S2P Require Import Prelude RustStd Externals Reference Wire Directory FarSpec FarRefine.
From S2P Require Import FarInvariant FarWorld FarProperties Replies Client Site Session.
From S2P Require Import Contract Loopback ClientProperties Connect ConnectProperties Connection.
From S2P Require Import ConnectionProperties Transport TransportProperties Arrivals.

Local Open Scope N_scope.

(** ** The thread is [answering] *)
Section refinement.
Context `{!TransportErrors, !Codec, !Ssh, !Keys, !SshClient, !Claims}.
Context (claiming : Claiming) (names : nat → string).

(** A body that takes at least so many. *)
Definition takes (n : nat) (r : Room) : Prop := ∀ k, r = Some k → (n ≤ k)%nat.

(** What [reading] has still to do once its loop ended. *)
Definition after_loop (hd : string) (ended : option Item) : M (Sftp * Chunks) error unit :=
  _ ← on_sftp (close hd);
  match ended with
  | Some item => _ ← send_item item; mret tt
  | None => mret tt
  end.

(** Given [n] turns and any more, [reading] begun in [s1] for a body with room
    in [rooms] is where the thread is. *)
Definition reads_as (n : nat) (s1 : Sftp) (b : nat) (rooms : Room → Prop) (l : list Item)
    (d : Doing) (s : Sftp) : Prop :=
  ∀ fuel r, rooms r →
  let x := reading (n + fuel) (names b) (s1, {| sent := []; room := r |}) in
  let c := {| sent := l; room := less r (length l) |} in
  match d with
  | Pushing b' hd off chunk l' => b' = b ∧ l' = l
      ∧ x = (ended ← (taken ← send_item (Ok (Some chunk));
                      if taken : bool then reading_loop fuel hd off else mret None);
             after_loop hd ended) (s, c)
  | Ending b' item l' => b' = b ∧ l' = l ∧ x = (_ ← send_item item; mret tt) (s, c)
  | Receiving => ∃ c', x = (Ok tt, (s, c')) ∧ sent c' = l
  | Closing o fin =>
    fin = None ∧ ∃ c' o', x = (o', (s, c')) ∧ sent c' = l ∧ o = (_ ← o'; Ok false) ∧ o' ≠ Ok tt
  | _ => False
  end.

Lemma reads_as_rooms n s1 b (P Q : Room → Prop) l d s :
  (∀ r, Q r → P r) → reads_as n s1 b P l d s → reads_as n s1 b Q l d s.
Proof. intros HPQ Hr fuel r Hq. apply Hr. auto. Qed.

(** The close of a read, from where its loop ended. *)
Lemma close_reads n s1 b rooms hd ended l s :
  (∀ fuel r, rooms r →
    reading (n + fuel) (names b) (s1, {| sent := []; room := r |})
    = after_loop hd ended (s, {| sent := l; room := less r (length l) |})) →
  reads_as n s1 b rooms l (close_read b hd ended l s).1 (close_read b hd ended l s).2.
Proof.
  intros Hread fuel r Hr. cbv zeta. rewrite (Hread fuel r Hr). unfold close_read, after_loop, on_sftp.
  unfold mbind, M_bind. destruct (close hd s) as [[[]|e| |] s'] eqn:E; cbn; rewrite ?E;
    [|by eauto 10..].
  destruct ended as [item|]; cbn; by eauto.
Qed.

(** A turn of the loop. *)
Lemma next_reads n s1 b hd off l s :
  (∀ fuel r, takes (length l) r →
    reading (n + fuel) (names b) (s1, {| sent := []; room := r |})
    = (ended ← reading_loop fuel hd off; after_loop hd ended)
        (s, {| sent := l; room := less r (length l) |})) →
  reads_as (S n) s1 b (takes (length l)) l (read_next b hd off l s).1 (read_next b hd off l s).2.
Proof.
  intros Hread. assert (∀ fuel r, takes (length l) r →
    reading (S n + fuel) (names b) (s1, {| sent := []; room := r |})
    = (ended ← reading_loop (S fuel) hd off; after_loop hd ended)
        (s, {| sent := l; room := less r (length l) |})) as H'.
  { intros fuel r Hr. rewrite <- Hread by done. by rewrite Nat.add_succ_comm. }
  clear Hread. unfold read_next.
  destruct (read_at hd off s) as [[[chunk|]|e| |] s'] eqn:E.
  - destruct (@u64_add error off (blen chunk)) as [off'|e| |] eqn:Ho;
      intros fuel r Hr; cbv zeta; rewrite H' by done; cbn [reading_loop];
      unfold mbind, M_bind, attempt, on_sftp, lift; rewrite E, ?Ho; cbn; by eauto 10.
  - apply close_reads. intros fuel r Hr. rewrite H' by done. cbn [reading_loop].
    unfold mbind, M_bind, attempt, on_sftp, lift. by rewrite E.
  - apply close_reads. intros fuel r Hr. rewrite H' by done. cbn [reading_loop].
    unfold mbind, M_bind, attempt, on_sftp, lift. by rewrite E.
  - intros fuel r Hr. cbv zeta. rewrite H' by done. cbn [reading_loop].
    unfold mbind, M_bind, attempt, on_sftp, lift. rewrite E. cbn. by eauto 10.
  - intros fuel r Hr. cbv zeta. rewrite H' by done. cbn [reading_loop].
    unfold mbind, M_bind, attempt, on_sftp, lift. rewrite E. cbn. by eauto 10.
Qed.

Lemma less_0 r : less r 0 = r.
Proof. destruct r; [|done]. simpl. by rewrite Nat.sub_0_r. Qed.

Lemma begin_reads b s :
  reads_as 1 s b (takes 0) [] (begin_read names b s).1 (begin_read names b s).2.
Proof.
  unfold begin_read.
  destruct (open_for_reading (names b) s) as [[hd|e| |] s'] eqn:E.
  - apply (next_reads 0 s b hd 0 [] s'). intros fuel r _. unfold reading.
    rewrite (bind_ok _ _ _ _ _ (attempt_ok _ _ _ _ (on_sftp_ok _ _ _ _ _ E))). simpl.
    by rewrite less_0.
  - intros fuel r _. cbv zeta. unfold reading.
    rewrite (bind_ok _ _ _ _ _ (attempt_err _ _ _ _ (on_sftp_err _ _ _ _ _ E))). simpl.
    by rewrite less_0.
  - intros fuel r _. cbv zeta. unfold reading, mbind, M_bind, attempt, on_sftp. rewrite E. cbn.
    by eauto 10.
  - intros fuel r _. cbv zeta. unfold reading, mbind, M_bind, attempt, on_sftp. rewrite E. cbn.
    by eauto 10.
Qed.

Lemma less_S r n : less (less r n) 1 = less r (S n).
Proof. destruct r as [k|]; [|done]. simpl. f_equal. lia. Qed.

Lemma takes_S n r : takes (S n) r → takes n r ∧ ∀ k, less r n = Some k → k ≠ O.
Proof.
  intros Ht. split; [intros k Hk; specialize (Ht k Hk); lia|].
  destruct r as [m|]; simpl; [|done]. intros k [= <-]. specialize (Ht m eq_refl). lia.
Qed.

Lemma snoc_length {A} (l : list A) x : length (l ++ [x]) = S (length l).
Proof. rewrite length_app. simpl. lia. Qed.

Lemma push_reads n s1 b hd off chunk l s :
  let l' := l ++ [Ok (Some chunk)] in
  reads_as n s1 b (takes (length l)) l (Pushing b hd off chunk l) s →
  reads_as (S n) s1 b (takes (length l')) l' (read_next b hd off l' s).1
    (read_next b hd off l' s).2.
Proof.
  intros l' Hread. apply next_reads. intros fuel r Hr. unfold l' in *. rewrite snoc_length in *.
  apply takes_S in Hr as [Hr Hk]. destruct (Hread fuel r Hr) as (_ & _ & ->).
  rewrite bind_assoc, (bind_ok _ _ _ _ _ (send_item_some _ _ _ _ Hk)). by rewrite less_S.
Qed.

Lemma stop_reads n s1 b hd off chunk l s :
  reads_as n s1 b (takes (length l)) l (Pushing b hd off chunk l) s →
  reads_as n s1 b (λ r, r = Some (length l)) l (close_read b hd None l s).1
    (close_read b hd None l s).2.
Proof.
  intros Hread. apply close_reads. intros fuel r ->.
  destruct (Hread fuel (Some (length l))) as (_ & _ & ->); [by intros k [= <-]|].
  simpl. by rewrite Nat.sub_diag.
Qed.

Lemma end_reads n s1 b item l s :
  reads_as n s1 b (takes (length l)) l (Ending b item l) s →
  reads_as n s1 b (takes (length (l ++ [item]))) (l ++ [item]) Receiving s.
Proof.
  intros Hread fuel r Hr. cbv zeta. rewrite snoc_length in Hr. apply takes_S in Hr as [Hr Hk].
  destruct (Hread fuel r Hr) as (_ & _ & ->).
  rewrite (bind_ok _ _ _ _ _ (send_item_some _ _ _ _ Hk)). by eexists.
Qed.

Lemma end_gone_reads n s1 b item l s :
  reads_as n s1 b (takes (length l)) l (Ending b item l) s →
  reads_as n s1 b (λ r, r = Some (length l)) l Receiving s.
Proof.
  intros Hread fuel r ->. cbv zeta.
  destruct (Hread fuel (Some (length l))) as (_ & _ & ->); [by intros k [= <-]|].
  simpl. rewrite Nat.sub_diag. by eexists.
Qed.

(** The thread so far is [answering] of the requests answered so far. *)
Definition as_answering (s0 : Sftp) (h : Harvest) : Prop := ∃ N,
  let so_far s := ∀ fuel rest, (N ≤ fuel)%nat →
    answering fuel claiming (answered h ++ rest) (s0, [])
    = answering fuel claiming rest (s, said h) in
  match doing h with
  | Receiving => so_far (sftp h)
  | Closing o _ | Returned o | Ended_with o => ∀ fuel, (N ≤ fuel)%nat →
      answering fuel claiming (answered h) (s0, []) = (o, (sftp h, said h))
  | Pushing b _ _ _ l | Ending b _ l =>
    ∃ s1, so_far s1 ∧ ∃ n, reads_as n s1 b (takes (length l)) l (doing h) (sftp h)
  end.

(** What a read came to, where it is over. *)
Lemma read_request_is fuel b r s1 l d s n (rooms : Room → Prop) log :
  reads_as n s1 b rooms l d s → rooms r → (n ≤ fuel)%nat →
  match d with
  | Receiving => read_request fuel (names b) r (s1, log) = (Ok tt, (s, log ++ [Sent (names b) l]))
  | Closing o _ => ∃ o', read_request fuel (names b) r (s1, log) = (o', (s, log ++ [Sent (names b) l]))
      ∧ o = (_ ← o'; Ok false) ∧ o' ≠ Ok tt
  | _ => True
  end.
Proof.
  intros Hread Hr Hf. specialize (Hread (fuel - n)%nat r Hr). cbv zeta in Hread.
  replace (n + (fuel - n))%nat with fuel in Hread by lia. unfold read_request.
  destruct d; try done.
  - destruct Hread as (c & -> & <-). done.
  - destruct Hread as (_ & c & o' & -> & <- & ? & ?). by exists o'.
Qed.

(** A read that goes on, or is over, keeps what the thread is. *)
Lemma go_on_answers s0 h b l room pipe q d N s1 n (rooms : Room → Prop) :
  (∀ fuel rest, (N ≤ fuel)%nat →
    answering fuel claiming (answered h ++ rest) (s0, [])
    = answering fuel claiming rest (s1, said h)) →
  reads_as n s1 b rooms l d.1 d.2 → rooms room →
  (∀ r, match d.1 with Pushing _ _ _ _ _ | Ending _ _ _ => takes (length l) r → rooms r | _ => True end) →
  as_answering s0 (go_on names b l room pipe q d h).
Proof.
  intros Hso Hread Hroom Hrooms. destruct d as [d s]. cbn [fst snd] in *.
  exists (max N n). unfold go_on, noted. cbn [doing answered said sftp fst snd].
  destruct d as [|b' hd off chunk l'|b' item l'|o fin|o|o]; cbn [fst snd];
    try (by destruct (Hread O room Hroom)).
  - intros fuel rest Hf. rewrite <- (assoc_L (++)), Hso by lia. cbn [app answering].
    pose proof (read_request_is fuel _ _ _ _ _ _ _ _ (said h) Hread Hroom ltac:(lia)) as Hr.
    by rewrite (bind_ok _ _ _ _ _ Hr).
  - assert (b' = b ∧ l' = l) as [-> ->] by (destruct (Hread O room Hroom); naive_solver).
    exists s1. split; [intros; apply Hso; lia|]. exists n.
    eapply reads_as_rooms; [|exact Hread]. exact Hrooms.
  - assert (b' = b ∧ l' = l) as [-> ->] by (destruct (Hread O room Hroom); naive_solver).
    exists s1. split; [intros; apply Hso; lia|]. exists n.
    eapply reads_as_rooms; [|exact Hread]. exact Hrooms.
  - intros fuel Hf. rewrite Hso by lia. cbn [answering].
    destruct (read_request_is fuel _ _ _ _ _ _ _ _ (said h) Hread Hroom ltac:(lia))
      as (o' & Hr & -> & Ho'). unfold mbind at 1, M_bind. rewrite Hr.
    by destruct o' as [[]| | |].
Qed.

(** An owner's step is none of the thread's. *)
Lemma owner_step_answers s0 t f b pipe asks h :
  as_answering s0 h → as_answering s0 (owner_step t f b pipe asks h).
Proof. done. Qed.

(** A verdict answered. *)
Lemma told_answers s0 h t n v q :
  doing h = Receiving → as_answering s0 h →
  as_answering s0 (answer_told names t n v q (claiming_told claiming (names n) v (sftp h)) h).
Proof.
  intros Hd [N Hso]. rewrite Hd in Hso. cbv zeta in Hso. exists N. cbv zeta. unfold answer_told.
  destruct (claiming_told claiming (names n) v (sftp h)) as [o s] eqn:E.
  assert (∀ fuel rest, (N ≤ fuel)%nat →
    answering fuel claiming ((answered h ++ [Told (names n) v]) ++ rest) (s0, [])
    = match o with
      | Ok _ | Err _ => answering fuel claiming rest (s, said h ++ [Done (names n) o])
      | Panic => (Panic, (s, said h))
      | OutOfFuel => (OutOfFuel, (s, said h))
      end) as Ht.
  { intros fuel rest Hf. rewrite <- (assoc_L (++)), Hso by done. cbn [app answering].
    unfold mbind, M_bind, attempt, on_sftp. rewrite E. by destruct o as [[]| | |]. }
  destruct o as [[]|e| |]; cbn [doing sftp answered said fst snd]; [done|done|..];
    intros fuel Hf; specialize (Ht fuel [] Hf); rewrite (right_id_L [] (++)) in Ht;
    by rewrite (right_id_L [] (++)).
Qed.

Lemma step_answers s0 h h' :
  harvest_step claiming names h h' → as_answering s0 h → as_answering s0 h'.
Proof.
  intros Hs Ha. destruct Hs as [h b q Hd Hq|h t n v q Hd Hq|h t q Hd Hq|h Hd Hq Hall|h o fin Hd|h o Hd
    |h b hd off chunk l p Hd Hp Hslot Hg|h b hd off chunk l p Hd Hp Hg|h b item l p Hd Hp Hslot Hg
    |h b item l p Hd Hp Hg|h t o b s p|h t o b s p|h t o b s p x|h t o b s p|h t o b s
    |h t o n v s|h t o n v s|h t o s|h t o s];
    try (by apply owner_step_answers);
    try (unfold as_answering in *;
         match goal with Hd : doing _ = _ |- _ => rewrite Hd in Ha; exact Ha end).
  - destruct Ha as [N Hso]. rewrite Hd in Hso.
    eapply (go_on_answers s0 h b [] None _ _ _ N); [exact Hso|apply begin_reads|by intros k|].
    intros r. by destruct (begin_read _ _ _).1.
  - by apply told_answers.
  - destruct Ha as [N Hso]. rewrite Hd in Hso. exists N. cbn [doing answered said sftp].
    intros fuel Hf. by rewrite Hso.
  - destruct Ha as [N Hso]. rewrite Hd in Hso. exists N. cbn [doing answered said sftp].
    intros fuel Hf. specialize (Hso fuel [] Hf). by rewrite (right_id_L [] (++)) in Hso.
  - destruct Ha as (N & Hso). rewrite Hd in Hso. destruct Hso as (s1 & Hso & n & Hr).
    eapply (go_on_answers s0 h b _ None _ _ _ N); [exact Hso|by eapply push_reads|by intros k|].
    intros r. by destruct (read_next _ _ _ _ _).1.
  - destruct Ha as (N & Hso). rewrite Hd in Hso. destruct Hso as (s1 & Hso & n & Hr).
    eapply (go_on_answers s0 h b _ (Some (length l)) _ _ _ N);
      [exact Hso|by eapply stop_reads|done|]. intros r.
    unfold close_read. by destruct (close hd (sftp h)) as [[] ?].
  - destruct Ha as (N & Hso). rewrite Hd in Hso. destruct Hso as (s1 & Hso & n & Hr).
    eapply (go_on_answers s0 h b _ None _ _ (Receiving, sftp h) N);
      [exact Hso|by eapply end_reads|by intros k|done].
  - destruct Ha as (N & Hso). rewrite Hd in Hso. destruct Hso as (s1 & Hso & n & Hr).
    eapply (go_on_answers s0 h b _ (Some (length l)) _ _ (Receiving, sftp h) N);
      [exact Hso|by eapply end_gone_reads|done|done].
Qed.

Lemma steps_answer s bodies scripts h o :
  rtc (harvest_step claiming names) (start_harvest s bodies scripts) h →
  doing h = Ended_with o →
  ∃ N, ∀ fuel, (N ≤ fuel)%nat →
    answering fuel claiming (answered h) (s, []) = (o, (sftp h, said h)).
Proof.
  intros Hr Ho. assert (as_answering s h) as [N Ha].
  { clear Ho. assert (as_answering s (start_harvest s bodies scripts)) as Hs by (by exists O).
    induction Hr as [|h0 h1 h2 Hst _ IH]; [done|]. apply IH. by eapply step_answers. }
  rewrite Ho in Ha. by exists N.
Qed.

(** ** The client given back *)

(** The line is the thread's until it has closed the channel, and an owner that
    asked for the end knows of no more. *)
Definition line_kept (h : Harvest) : Prop :=
  match doing h with
  | Returned o | Ended_with o => lent h = given_back o (sftp h)
  | _ => lent h = Harvesting ∧ ∀ t o, owners h !! t = Some o → Got_finished ∉ got o
  end.

Lemma adds_finished (f : Owner → Owner) t (os : list Owner) :
  (∀ o, Got_finished ∈ got (f o) → Got_finished ∈ got o) →
  (∀ t o, os !! t = Some o → Got_finished ∉ got o) →
  ∀ t' o, alter f t os !! t' = Some o → Got_finished ∉ got o.
Proof.
  intros Hf Hos t' o. rewrite list_lookup_alter. case_decide; [|apply Hos].
  intros (o1 & Ho & ->)%fmap_Some Hin%Hf. by eapply Hos.
Qed.

Lemma pop_finished g o : Got_finished ∉ g → Got_finished ∈ got (pop g o) → Got_finished ∈ got o.
Proof. intros Hg [|]%elem_of_app; done. Qed.

Lemma owner_line t f b pipe asks h :
  (over h = false → ∀ o, Got_finished ∈ got (f o) → Got_finished ∈ got o) →
  line_kept h → line_kept (owner_step t f b pipe asks h).
Proof.
  unfold line_kept, over. cbn [owner_step doing lent owners sftp].
  destruct (doing h); [..|done|done]; intros Hf [Hl Hos]; (split; [done|]);
    by apply adds_finished; [apply Hf|].
Qed.

Lemma go_on_line b l room f q d h :
  lent h = Harvesting → (∀ t o, owners h !! t = Some o → Got_finished ∉ got o) →
  match d.1 with Returned _ | Ended_with _ => False | _ => True end →
  line_kept (go_on names b l room f q d h).
Proof. unfold line_kept, go_on. cbn. by destruct d.1. Qed.

Lemma close_read_on b hd e l s :
  match (close_read b hd e l s).1 with Returned _ | Ended_with _ => False | _ => True end.
Proof. unfold close_read. destruct (close hd s) as [[]]; by try destruct e. Qed.

Lemma read_next_on b hd off l s :
  match (read_next b hd off l s).1 with Returned _ | Ended_with _ => False | _ => True end.
Proof.
  unfold read_next. destruct (read_at hd off s) as [[[]|e| |]]; try apply close_read_on; [|done..].
  by destruct (u64_add _ _).
Qed.

Lemma begin_read_on b s :
  match (begin_read names b s).1 with Returned _ | Ended_with _ => False | _ => True end.
Proof. unfold begin_read. destruct (open_for_reading _ _) as [[]]; try apply read_next_on; done. Qed.

Lemma step_line h h' : harvest_step claiming names h h' → line_kept h → line_kept h'.
Proof.
  intros Hs Ha. destruct Hs as [h b q Hd Hq|h t n v q Hd Hq|h t q Hd Hq|h Hd Hq Hall|h o fin Hd|h o Hd
    |h b hd off chunk l p Hd Hp Hslot Hg|h b hd off chunk l p Hd Hp Hg|h b item l p Hd Hp Hslot Hg
    |h b item l p Hd Hp Hg|h t o b s p|h t o b s p|h t o b s p x|h t o b s p|h t o b s
    |h t o n v s|h t o n v s|h t o s|h t o s];
    try (apply owner_line; [|exact Ha]; intros Hov;
         solve [congruence|auto|intros ?; apply pop_finished; by intros ?%list_elem_of_singleton
               |intros ?; apply pop_finished, not_elem_of_nil]);
    unfold line_kept in Ha; rewrite Hd in Ha; try done;
    try (destruct Ha as [Hl Hos]; apply go_on_line;
         [done|done|try apply begin_read_on; try apply read_next_on; try apply close_read_on; done]).
  - destruct Ha as [Hl Hos]. unfold line_kept, answer_told.
    destruct (claiming_told _ _ _ _) as [[[]|e| |] s]; cbn [doing lent owners sftp fst];
      (split; [done|]); (apply adds_finished; [|done]); intros o; apply pop_finished;
      by intros ?%list_elem_of_singleton.
Qed.

Lemma steps_line s bodies scripts h :
  rtc (harvest_step claiming names) (start_harvest s bodies scripts) h → line_kept h.
Proof.
  intros Hr. assert (line_kept (start_harvest s bodies scripts)) as Hs.
  { split; [done|]. intros t o. cbn [owners start_harvest]. rewrite list_lookup_fmap.
    intros (acts & _ & ->)%fmap_Some. by apply not_elem_of_nil. }
  induction Hr as [|h0 h1 h2 Hst _ IH]; [done|]. apply IH. by eapply step_line.
Qed.


(** C18: whatever the owners of the arrivals do, and in whatever order the
    threads run, the harvest's thread does what [answering] does of the
    requests in the order they came — each file read for as many items as its
    body took, each verdict told, the end — and says the same; it is one
    thread's work, one request at a time. *)
Theorem harvest_is_answering s bodies scripts h o :
  rtc (harvest_step claiming names) (start_harvest s bodies scripts) h →
  doing h = Ended_with o →
  ∃ N, ∀ fuel, (N ≤ fuel)%nat →
    answering fuel claiming (answered h) (s, []) = (o, (sftp h, said h)).
Proof. apply steps_answer. Qed.
End refinement.

(** ** Running a harvest: whose turn it is, as a list *)
Section run.
Context `{!TransportErrors, !Codec, !Ssh, !Keys, !SshClient, !Claims}.
Context (claiming : Claiming) (names : nat → string).

(** The thread's step, where it has one; the end where every owner is done is
    [do_last]'s, and not taken here. *)
Definition thread_step (h : Harvest) : option Harvest :=
  match doing h, queue h with
  | Receiving, Ask_read b :: q =>
    Some (go_on names b [] None Datatypes.id q (begin_read names b (sftp h)) h)
  | Receiving, Ask_told t n v :: q =>
    Some (answer_told names t n v q (claiming_told claiming (names n) v (sftp h)) h)
  | Receiving, Ask_finish t :: q =>
    Some {| doing := Closing (Ok true) (Some t); sftp := sftp h; queue := q; pipes := pipes h;
            owners := owners h; lent := lent h;
            answered := answered h ++ [Finish]; said := said h |}
  | Pushing b hd off chunk l, q =>
    p ← pipes h !! b;
    if gone p then
      Some (go_on names b l (Some (length l)) Datatypes.id q (close_read b hd None l (sftp h)) h)
    else match slot p with
         | Some _ => None
         | None =>
           let l := l ++ [Ok (Some chunk)] in
           Some (go_on names b l None (with_slot (Some (Ok (Some chunk)))) q
                   (read_next b hd off l (sftp h)) h)
         end
  | Ending b item l, q =>
    p ← pipes h !! b;
    if gone p then
      Some (go_on names b l (Some (length l)) Datatypes.id q (Receiving, sftp h) h)
    else match slot p with
         | Some _ => None
         | None => Some (go_on names b (l ++ [item]) None (with_slot (Some item)) q
                           (Receiving, sftp h) h)
         end
  | Closing o finished, q =>
    Some {| doing := Returned o; sftp := sftp h; queue := q; pipes := pipes h;
            owners := match finished with
                      | Some t => alter (pop [Got_finished]) t (owners h)
                      | None => owners h
                      end;
            lent := given_back o (sftp h); answered := answered h; said := said h |}
  | Returned o, _ =>
    Some {| doing := Ended_with o; sftp := sftp h; queue := []; pipes := pipes h;
            owners := owners h; lent := lent h; answered := answered h; said := said h |}
  | _, _ => None
  end.

(** Owner [t]'s step while the thread is not at its end. *)
Definition own_step (t : nat) (h : Harvest) : option Harvest :=
  o ← owners h !! t;
  if over h then None else
  match script o with
  | Take b :: _ =>
    p ← pipes h !! b;
    if gone p then None else
    match slot p with
    | Some x => Some (owner_step t (pop [Got_chunk x]) b (with_slot None) [] h)
    | None =>
      if asked_for p then None else Some (owner_step t Datatypes.id b ask [Ask_read b] h)
    end
  | Let_go b :: _ => Some (owner_step t (pop []) b let_go [] h)
  | Tell n v :: _ =>
    if waiting o then None else Some (owner_step t wait 0 Datatypes.id [Ask_told t n v] h)
  | Finishing :: _ =>
    if waiting o then None else Some (owner_step t wait 0 Datatypes.id [Ask_finish t] h)
  | [] => None
  end.

Lemma thread_step_sound h h' : thread_step h = Some h' → harvest_step claiming names h h'.
Proof.
  unfold thread_step. intros Hs.
  destruct (doing h) as [|b hd off chunk l|b item l|o fin|o|o] eqn:Hd; [|..|done].
  - destruct (queue h) as [|[b|t n v|t] q] eqn:Hq; simplify_eq;
      [by apply do_read|by apply do_told|by apply do_finish].
  - apply bind_Some in Hs as (p & Hp & Hs). destruct (gone p) eqn:Hg, (slot p) eqn:Hslot;
      simplify_eq; by econstructor.
  - apply bind_Some in Hs as (p & Hp & Hs). destruct (gone p) eqn:Hg, (slot p) eqn:Hslot;
      simplify_eq; by econstructor.
  - simplify_eq. by apply do_back.
  - simplify_eq. by apply do_drop.
Qed.

Lemma own_step_sound t h h' : own_step t h = Some h' → harvest_step claiming names h h'.
Proof.
  unfold own_step. intros (o & Ho & Hs)%bind_Some. destruct (over h) eqn:Hov; [done|].
  destruct (script o) as [|[b|b|n v|] s] eqn:Hsc; [done|..].
  - apply bind_Some in Hs as (p & Hp & Hs).
    destruct (gone p) eqn:Hg, (slot p) eqn:Hslot, (asked_for p) eqn:Ha; simplify_eq.
    + by eapply own_take.
    + by eapply own_take.
    + by eapply own_ask.
  - simplify_eq. by eapply own_let_go.
  - destruct (waiting o) eqn:Hw; simplify_eq. by eapply own_tell.
  - destruct (waiting o) eqn:Hw; simplify_eq. by eapply own_finish.
Qed.

(** [None] is the thread's turn, [Some t] owner [t]'s. *)
Fixpoint run_harvest (turns : list (option nat)) (h : Harvest) : option Harvest :=
  match turns with
  | [] => Some h
  | t :: turns =>
    h ← match t with None => thread_step h | Some t => own_step t h end;
    run_harvest turns h
  end.

Lemma run_harvest_sound turns : ∀ h h',
  run_harvest turns h = Some h' → rtc (harvest_step claiming names) h h'.
Proof.
  induction turns as [|t turns IH]; intros h h' Hr; cbn [run_harvest] in Hr;
    [by injection Hr as ->|].
  apply bind_Some in Hr as (h1 & Hs & Hr). eapply rtc_l; [|by apply IH].
  destruct t; [by eapply own_step_sound|by eapply thread_step_sound].
Qed.
End run.

(** ** Witness *)
Module Witnesses.
Import Reference.Instances Loopback.Instances FarProperties.Witnesses ClientProperties.Witnesses.
Import ConnectProperties.Witnesses TransportProperties.Witnesses.
#[local] Existing Instances loop_client ref_claims.

Definition ex_names (b : nat) : string := "a.edi".
Definition ex_claims : Claiming := (tt : @Claiming _ _ _ ref_claims).
Definition ex_sftp : @Sftp _ loop_ssh := loop_to ex_far.

(** An owner that reads one chunk, lets the body go, accepts it and ends the
    harvest. *)
Definition ex_acts : list Act := [Take 0; Let_go 0; Tell 0 (Some true); Finishing].

Definition ex_start : Harvest := start_harvest ex_sftp 1 [ex_acts].
Definition ex_turns : list (option nat) :=
  [Some 0%nat; None; None; Some 0%nat; Some 0%nat; None; Some 0%nat; None; Some 0%nat; None;
   None; None].
Definition ex_over : Harvest := default ex_start (run_harvest ex_claims ex_names ex_turns ex_start).

Lemma ex_runs :
  rtc (harvest_step ex_claims ex_names) (start_harvest ex_sftp 1 [ex_acts]) ex_over.
Proof.
  fold ex_start. apply (run_harvest_sound _ _ ex_turns). unfold ex_over.
  assert (match run_harvest ex_claims ex_names ex_turns ex_start with
          | Some _ => true | None => false end = true) as Hr by (vm_compute; reflexivity).
  destruct (run_harvest ex_claims ex_names ex_turns ex_start); [reflexivity|discriminate Hr].
Qed.

Lemma harvest_is_answering_witness :
  ∃ requests s log N, ∀ fuel, (N ≤ fuel)%nat →
    answering fuel ex_claims requests (ex_sftp, []) = (Ok true, (s, log)).
Proof.
  destruct (harvest_is_answering ex_claims ex_names ex_sftp 1 [ex_acts] ex_over (Ok true))
    as [N HN]; [|vm_compute; reflexivity|].
  - exact ex_runs.
  - by exists (answered ex_over), (sftp ex_over), (said ex_over), N.
Defined.

End Witnesses.
