(* ===== verification/ArrivalsLiveness.v ===== *)
(** Whether the threads of a harvest wait for ever: every run is finite; one
    whose owners each read a body to where they let it go, before they do
    anything else, ends with every owner done and the harvest over; and an owner
    that tells the verdict of a file of more than one piece with its body in
    hand is stuck with the harvest, whatever the order. *)

From S2P Require Import Prelude RustStd Externals Reference Wire Directory FarSpec FarRefine.
From S2P Require Import FarInvariant FarWorld FarProperties Replies Client Site Session.
From S2P Require Import Contract Loopback ClientProperties Connect ConnectProperties Connection.
From S2P Require Import ConnectionProperties Transport TransportProperties Arrivals.
From S2P Require Import ArrivalsProperties.

(** One element of a list altered. *)
Lemma sum_alter {A} (w : A → nat) (f : A → A) (l : list A) i x :
  l !! i = Some x →
  (sum_list_with w (alter f i l) + w x = sum_list_with w l + w (f x))%nat.
Proof.
  revert i. induction l as [|y l IH]; intros [|i]; simpl; intros Hi; simplify_eq; [lia|].
  specialize (IH _ Hi). change (list_alter f i l) with (alter f i l). lia.
Qed.

Lemma sum_alter_same {A} (w : A → nat) (f : A → A) (l : list A) i :
  (∀ x, w (f x) = w x) → sum_list_with w (alter f i l) = sum_list_with w l.
Proof.
  intros Hw. revert i. induction l as [|y l IH]; intros [|i]; simpl; [done|done|by rewrite Hw|].
  f_equal. apply IH.
Qed.

Lemma sum_alter_after {A} (w : A → nat) (f g : A → A) (l : list A) i :
  (∀ x, w (g x) = w x) →
  sum_list_with w (alter (g ∘ f) i l) = sum_list_with w (alter f i l).
Proof.
  intros Hw. revert i. induction l as [|y l IH]; intros [|i]; simpl; [done|done|by rewrite Hw|].
  f_equal. apply IH.
Qed.

Lemma alter_same {A} (l : list A) i : alter Datatypes.id i l = l.
Proof.
  revert i. induction l as [|y l IH]; intros [|i]; simpl; [done..|]. f_equal. apply IH.
Qed.

Lemma lookup_alter_inv {A} (f : A → A) (l : list A) i j y :
  alter f i l !! j = Some y → ∃ x, l !! j = Some x ∧ y = if decide (i = j) then f x else x.
Proof.
  rewrite list_lookup_alter. case_decide; [subst|by eauto].
  destruct (l !! j); simpl; [|done]. intros [= <-]. by eauto.
Qed.

Section coherent.
Context `{!TransportErrors, !Codec, !Ssh, !Keys, !SshClient, !Claims}.
Context (claiming : Claiming) (names : nat → string).

(** ** Who waits for whom *)

(** The owner that waits for an answer, and the act it asked by. *)
Definition asker (a : Asking) : option (nat * Act) :=
  match a with
  | Ask_read _ => None
  | Ask_told t n v => Some (t, Tell n v)
  | Ask_finish t => Some (t, Finishing)
  end.

(** The owner that asked for the end, until the client is back. *)
Definition asked_by (d : Doing) : list (nat * Act) :=
  match d with Closing _ (Some t) => [(t, Finishing)] | _ => [] end.

Definition askers (h : Harvest) : list (nat * Act) := omap asker (queue h) ++ asked_by (doing h).

Definition waits_at (acts : list Act) : Prop :=
  match acts with
  | (Tell _ _ | Finishing) :: _ => True
  | _ => False
  end.

(** The body whose channel the thread sends on. *)
Definition serving (d : Doing) : option nat :=
  match d with Pushing b _ _ _ _ | Ending b _ _ => Some b | _ => None end.

Record asks_wf (h : Harvest) : Prop := {
  ask_read b : Ask_read b ∈ queue h ∨ serving (doing h) = Some b →
    ∃ p, pipes h !! b = Some p ∧ asked_for p = true;
  ask_head t a : (t, a) ∈ askers h →
    ∃ o s, owners h !! t = Some o ∧ waiting o = true ∧ script o = a :: s;
  ask_once : NoDup (askers h).*1;
  ask_wait t o : owners h !! t = Some o → waiting o = true → t ∈ (askers h).*1;
  ask_sender b p : pipes h !! b = Some p → sender p = true →
    Ask_read b ∈ queue h ∨ serving (doing h) = Some b;
}.

Record coherent (h : Harvest) : Prop := {
  co_wait t o : owners h !! t = Some o → waiting o = true → waits_at (script o);
  co_asks : over h = false → asks_wf h;
}.

Lemma start_coherent s bodies scripts : coherent (start_harvest s bodies scripts).
Proof.
  assert (∀ t o, (owner_of <$> scripts) !! t = Some o → waiting o = false) as Hw.
  { intros t o. rewrite list_lookup_fmap. by intros (acts & _ & ->)%fmap_Some. }
  constructor; cbn [owners start_harvest].
  - intros t o Ho. by rewrite (Hw _ _ Ho).
  - intros _. constructor; unfold askers; cbn [queue doing pipes owners start_harvest omap list_omap asked_by app].
    + intros b [[]%elem_of_nil|?]; done.
    + by intros t a ?%elem_of_nil.
    + constructor.
    + intros t o Ho. by rewrite (Hw _ _ Ho).
    + intros b p [-> _]%lookup_replicate. done.
Qed.

Lemma begin_goes b s :
  serving (begin_read names b s).1 = Some b ∨ (∃ o, (begin_read names b s).1 = Closing o None).
Proof.
  unfold begin_read. destruct (open_for_reading (names b) s) as [[]]; simpl; eauto.
  unfold read_next. destruct (read_at _ _ _) as [[[]|e| |]]; simpl; eauto.
  - destruct (u64_add _ _); simpl; eauto.
  - unfold close_read. destruct (close _ _) as [[]]; simpl; eauto.
  - unfold close_read. destruct (close _ _) as [[]]; simpl; eauto.
Qed.

Lemma next_goes b hd off l s :
  serving (read_next b hd off l s).1 = Some b ∨ (∃ o, (read_next b hd off l s).1 = Closing o None).
Proof.
  unfold read_next. destruct (read_at _ _ _) as [[[]|e| |]]; simpl; eauto.
  - destruct (u64_add _ _); simpl; eauto.
  - unfold close_read. destruct (close _ _) as [[]]; simpl; eauto.
  - unfold close_read. destruct (close _ _) as [[]]; simpl; eauto.
Qed.

Lemma stop_goes b hd l s :
  (close_read b hd None l s).1 = Receiving ∨ (∃ o, (close_read b hd None l s).1 = Closing o None).
Proof. unfold close_read. destruct (close _ _) as [[]]; simpl; eauto. Qed.

(** Where a read is over, its channel's sender is dropped. *)
Lemma while_read_closes d p :
  (serving d = None → sender (while_read d p) = false)
  ∧ asked_for (while_read d p) = asked_for p ∧ slot (while_read d p) = slot p
  ∧ gone (while_read d p) = gone p ∧ (sender (while_read d p) = true → sender p = true).
Proof. by destruct d. Qed.

(** The thread goes on with the read of [b]: its channel only ever closes. *)
Lemma go_on_coherent h b l room f q d :
  coherent h → over h = false →
  (q = queue h ∧ serving (doing h) = Some b ∨ queue h = Ask_read b :: q ∧ doing h = Receiving) →
  (∀ p, asked_for (f p) = asked_for p ∧ sender (f p) = sender p) →
  (serving d.1 = Some b ∨ (∃ o, d.1 = Closing o None) ∨ d.1 = Receiving) →
  coherent (go_on names b l room f q d h).
Proof.
  intros [Hwait Hasks] Ho Hq Hf Hd. destruct (Hasks Ho) as [Hr Hh Hn Hw Hs].
  assert (∃ p, pipes h !! b = Some p ∧ asked_for p = true) as (p & Hp & Hpa).
  { apply Hr. destruct Hq as [[_ ?]|[-> _]]; [by right|left; constructor]. }
  assert (askers (go_on names b l room f q d h) = askers h) as Haq.
  { unfold askers, go_on. cbn [queue doing].
    assert (asked_by d.1 = []) as -> by (destruct Hd as [Hd|[(o & Hd)|Hd]]; [by destruct d.1|by rewrite Hd..]).
    destruct Hq as [[-> Hd']|[-> ->]]; [by destruct (doing h)|done]. }
  constructor; [done|]. intros Hov.
  constructor; rewrite ?Haq; cbn [go_on queue doing pipes owners]; try done.
  - intros b' Hb'. assert (b' = b ∨ Ask_read b' ∈ queue h) as [->|Hin].
    { destruct Hb' as [Hin|Hsv].
      - right. destruct Hq as [[-> _]|[-> _]]; [done|by right].
      - left. destruct Hd as [Hd|[[o Hd]|Hd]]; rewrite Hd in Hsv; by simplify_eq. }
    + exists (while_read d.1 (f p)). rewrite list_lookup_alter_eq, Hp. split; [done|].
      destruct (while_read_closes d.1 (f p)) as (_ & -> & _). by rewrite (proj1 (Hf p)).
    + destruct (Hr b' (or_introl Hin)) as (p' & Hp' & Hpa').
      rewrite list_lookup_alter, Hp'. case_decide; [subst b'|by eauto]. rewrite Hp'.
      eexists. split; [done|]. simpl. destruct (while_read_closes d.1 (f p')) as (_ & -> & _). by rewrite (proj1 (Hf p')).
  - intros b' p' (p0 & Hp0 & ->)%lookup_alter_inv Hsd. case_decide as Hb; [subst b'|].
    + right. destruct Hd as [Hd|Hd]; [done|]. simpl in Hsd.
      rewrite (proj1 (while_read_closes d.1 (f p0))) in Hsd; [done|].
      by destruct Hd as [(o & Hd)|Hd]; rewrite Hd.
    + destruct (Hs _ _ Hp0 Hsd) as [Hin|Hsv].
      * left. destruct Hq as [[-> _]|[Hq _]]; [done|]. rewrite Hq in Hin.
        apply elem_of_cons in Hin as [[= ->]|Hin]; [done|by apply Hin].
      * destruct Hq as [[_ Hsv']|[_ Hrec]]; [congruence|by rewrite Hrec in Hsv].
Qed.

Lemma asker_waits a t act : asker a = Some (t, act) → ∀ s, waits_at (act :: s).
Proof. destruct a; simpl; [done| |]; by intros [= <- <-]. Qed.

Lemma askers_waits h t a : (t, a) ∈ askers h → ∀ s, waits_at (a :: s).
Proof.
  unfold askers. intros [(x & _ & Hx)%list_elem_of_omap|Hin]%elem_of_app; [by eapply asker_waits|].
  destruct (doing h) as [| | |o [t'|]|o|o]; cbn in Hin; try by apply elem_of_nil in Hin.
  by apply list_elem_of_singleton in Hin as [= -> ->].
Qed.

(** What an owner's step may do to a body's channel. *)
Definition keeps_ask (f : Pipe → Pipe) : Prop :=
  ∀ p, asked_for (f p) = asked_for p ∧ sender (f p) = sender p.

Lemma alter_asked h b f b' p :
  keeps_ask f → pipes h !! b' = Some p → asked_for p = true →
  ∃ p', alter f b (pipes h) !! b' = Some p' ∧ asked_for p' = true.
Proof.
  intros Hf Hp Ha. rewrite list_lookup_alter. case_decide; [subst|by eauto].
  rewrite Hp. exists (f p). by rewrite (proj1 (Hf p)).
Qed.

(** An owner's act done, that no one was asked for. *)
Lemma pop_coherent h t o a s g b f :
  coherent h → owners h !! t = Some o → script o = a :: s →
  over h = true ∨ ¬ waits_at (a :: s) → keeps_ask f →
  coherent (owner_step t (pop g) b f [] h).
Proof.
  intros [Hwait Hasks] Ho Hsc Hov Hf. constructor; cbn [owner_step owners].
  { intros t' o' (o1 & Ho1 & ->)%lookup_alter_inv. case_decide; [done|]. by apply (Hwait t'). }
  intros Hnot. change (over h = false) in Hnot. destruct Hov as [Hov|Hov]; [congruence|].
  destruct (Hasks Hnot) as [Hr Hh Hn Hw Hs].
  assert (∀ a', (t, a') ∉ askers h) as Hnt.
  { intros a' Hin. destruct (Hh _ _ Hin) as (o' & s' & Ho' & _ & Hs'). rewrite Ho in Ho'.
    simplify_eq. rewrite Hsc in Hs'. injection Hs' as <- <-.
    apply Hov. exact (askers_waits _ _ _ Hin _). }
  assert (askers (owner_step t (pop g) b f [] h) = askers h) as Haq
    by (unfold askers, owner_step; cbn [queue doing]; by rewrite (right_id_L [] (++))).
  constructor; rewrite ?Haq; cbn [owner_step queue doing pipes owners]; rewrite ?(right_id_L [] (++)).
  - intros b' Hb'. destruct (Hr b' Hb') as (p & Hp & Ha). by apply (alter_asked h b f b' p).
  - intros t' a' Hin. destruct (Hh _ _ Hin) as (o' & s' & Ho' & Hw' & Hs').
    exists o', s'. split; [|done]. rewrite list_lookup_alter_ne; [done|].
    intros ->. by apply (Hnt a').
  - done.
  - intros t' o' (o1 & Ho1 & ->)%lookup_alter_inv. case_decide; [done|]. by apply (Hw t').
  - intros b' p (p0 & Hp0 & ->)%lookup_alter_inv Hsd. apply (Hs b' p0 Hp0).
    case_decide; [|done]. by rewrite (proj2 (Hf p0)) in Hsd.
Qed.

(** An owner asks, and waits. *)
Lemma wait_coherent h t o a s x :
  coherent h → owners h !! t = Some o → script o = a :: s → waiting o = false →
  asker x = Some (t, a) → coherent (owner_step t wait 0 Datatypes.id [x] h).
Proof.
  intros [Hwait Hasks] Ho Hsc Hnw Hx.
  constructor; cbn [owner_step owners].
  { intros t' o' (o1 & Ho1 & ->)%lookup_alter_inv. case_decide as Ht; [subst t'|by apply (Hwait t')].
    rewrite Ho in Ho1. injection Ho1 as <-. cbn [wait script]. rewrite Hsc. intros _.
    by eapply asker_waits. }
  intros Hov. change (over h = false) in Hov. destruct (Hasks Hov) as [Hr Hh Hn Hw Hs].
  assert (∀ a', (t, a') ∉ askers h) as Hnt.
  { intros a' Hin. destruct (Hh _ _ Hin) as (o' & s' & Ho' & Hw' & _). congruence. }
  assert (askers (owner_step t wait 0 Datatypes.id [x] h) ≡ₚ (t, a) :: askers h) as Hq.
  { unfold askers, owner_step. cbn [queue doing]. rewrite omap_app. simpl. rewrite Hx.
    rewrite <- (assoc_L (++)). symmetry. apply Permutation_middle. }
  constructor; rewrite ?Hq; cbn [owner_step queue doing pipes owners]; rewrite ?alter_same.
  - intros b' [Hin|Hsv]; [|by apply Hr; right].
    apply elem_of_app in Hin as [Hin|Hin%list_elem_of_singleton]; [by apply Hr; left|].
    by subst x.
  - intros t' a'. rewrite Hq. intros [[= -> ->]|Hin]%elem_of_cons.
    + exists (wait o), s. by rewrite list_lookup_alter_eq, Ho.
    + destruct (Hh _ _ Hin) as (o' & s' & Ho' & Hw' & Hs').
      exists o', s'. rewrite list_lookup_alter_ne; [done|]. intros ->. by apply (Hnt a').
  - csimpl. apply NoDup_cons. split; [|done].
    intros ([t1 a'] & Heq & Hin)%list_elem_of_fmap. cbn in Heq. subst t1. by apply (Hnt a').
  - intros t' o' (o1 & Ho1 & ->)%lookup_alter_inv Hw'. rewrite Hq. csimpl. rewrite elem_of_cons.
    case_decide as Ht; [by left|right]. by eapply Hw.
  - intros b' p Hp Hsd. destruct (Hs _ _ Hp Hsd) as [Hin|Hsv]; [|by right].
    left. apply elem_of_app. by left.
Qed.

(** A body is asked for. *)
Lemma ask_coherent h t b p :
  coherent h → over h = false → pipes h !! b = Some p →
  coherent (owner_step t Datatypes.id b ask [Ask_read b] h).
Proof.
  intros [Hwait Hasks] Hov Hp. constructor; cbn [owner_step owners]; rewrite ?alter_same; [done|].
  intros _. destruct (Hasks Hov) as [Hr Hh Hn Hw Hs].
  assert (askers (owner_step t Datatypes.id b ask [Ask_read b] h) = askers h) as Hq.
  { unfold askers, owner_step. cbn [queue doing]. rewrite omap_app. simpl.
    by rewrite (right_id_L [] (++)). }
  constructor; rewrite ?Hq; cbn [owner_step queue doing pipes owners]; rewrite ?alter_same; try done.
  - intros b' Hb'. destruct (decide (b' = b)) as [->|Hne].
    { exists (ask p). by rewrite list_lookup_alter_eq, Hp. }
    rewrite list_lookup_alter_ne by done. apply Hr.
    destruct Hb' as [[Hin|[= ->]%list_elem_of_singleton]%elem_of_app|?]; [by left|done|by right].
  - intros b' p' (p0 & Hp0 & ->)%lookup_alter_inv Hsd. case_decide as Hb; [subst b'|].
    { left. apply elem_of_app. right. by left. }
    destruct (Hs _ _ Hp0 Hsd); [left; apply elem_of_app; by left|by right].
Qed.

(** A waiting owner is answered. *)
Lemma answer_coherent h t a q d s' g ans sd l :
  coherent h → over h = false → askers h ≡ₚ (t, a) :: omap asker q ++ asked_by d →
  serving (doing h) = None → serving d = None → (∀ b, Ask_read b ∈ q ↔ Ask_read b ∈ queue h) →
  coherent {| doing := d; sftp := s'; queue := q; pipes := pipes h;
              owners := alter (pop g) t (owners h); lent := l; answered := ans; said := sd |}.
Proof.
  intros [Hwait Hasks] Hov Hq Hd Hd' Hreads. constructor; cbn [owners].
  { intros t' o' (o1 & Ho1 & ->)%lookup_alter_inv. case_decide; [done|]. by apply (Hwait t'). }
  intros _. destruct (Hasks Hov) as [Hr Hh Hn Hw Hs].
  rewrite Hq in Hn. csimpl in Hn. apply NoDup_cons in Hn as [Hnt Hn].
  constructor; unfold askers; cbn [queue doing pipes owners]; try done.
  - intros b [Hin|Hsv]; [|congruence]. apply Hr. left. by apply Hreads.
  - intros t' a' Hin. destruct (Hh t' a') as (o' & s1 & Ho' & Hw' & Hs'); [rewrite Hq; by right|].
    exists o', s1. rewrite list_lookup_alter_ne; [done|]. intros <-. apply Hnt.
    apply list_elem_of_fmap. by exists (t, a').
  - intros t' o' (o1 & Ho1 & ->)%lookup_alter_inv Hw'. case_decide as Ht; [done|].
    specialize (Hw _ _ Ho1 Hw'). rewrite Hq in Hw. cbn in Hw. by apply elem_of_cons in Hw as [->|?].
  - intros b p Hp Hsd. destruct (Hs _ _ Hp Hsd) as [Hin|Hsv]; [left; by apply Hreads|congruence].
Qed.

(** The thread goes past the requests, whoever it will tell. *)
Lemma close_coherent h q d s' ans sd l :
  coherent h → over h = false → askers h ≡ₚ omap asker q ++ asked_by d →
  serving (doing h) = None → serving d = None → (∀ b, Ask_read b ∈ q ↔ Ask_read b ∈ queue h) →
  coherent {| doing := d; sftp := s'; queue := q; pipes := pipes h; owners := owners h; lent := l;
              answered := ans; said := sd |}.
Proof.
  intros [Hwait Hasks] Hov Hq Hd Hd' Hreads. constructor; [done|].
  intros _. destruct (Hasks Hov) as [Hr Hh Hn Hw Hs].
  constructor; unfold askers; cbn [queue doing pipes owners]; rewrite <- ?Hq; try done.
  - intros b [Hin|Hsv]; [|congruence]. apply Hr. left. by apply Hreads.
  - intros t' a'. rewrite <- Hq. apply Hh.
  - intros t' o'. rewrite <- Hq. apply Hw.
  - intros b p Hp Hsd. destruct (Hs _ _ Hp Hsd) as [Hin|Hsv]; [left; by apply Hreads|congruence].
Qed.

(** The end of the harvest's thread asks for nothing. *)
Lemma ended_coherent h o s' q l ans sd :
  coherent h →
  coherent {| doing := Ended_with o; sftp := s'; queue := q; pipes := pipes h; owners := owners h;
              lent := l; answered := ans; said := sd |}.
Proof. intros [Hwait _]. by constructor. Qed.

Lemma step_coherent h h' : harvest_step claiming names h h' → coherent h → coherent h'.
Proof.
  assert (keeps_ask Datatypes.id) as Hid by done.
  intros Hst Hc. destruct Hst as [h b q Hd Hq|h t n v q Hd Hq|h t q Hd Hq|h Hd Hq Hall|h o fin Hd|h o Hd
    |h b hd off chunk l p Hd Hp Hslot Hg|h b hd off chunk l p Hd Hp Hg|h b item l p Hd Hp Hslot Hg
    |h b item l p Hd Hp Hg|h t o b s p Ho Hs Hp Ha Hg Hov|h t o b s p Ho Hs Hp Ha Hg Hov
    |h t o b s p x Ho Hs Hp Hx Hg|h t o b s p Ho Hs Hp Ha Hslot Hg Hsd|h t o b s Ho Hs
    |h t o n v s Ho Hs Hw Hov|h t o n v s Ho Hs Hov|h t o s Ho Hs Hw Hov|h t o s Ho Hs Hov];
    try (assert (over h = false) as Hov by (unfold over; by rewrite Hd)).
  - apply go_on_coherent; [done|done|by right|done|].
    destruct (begin_goes b (sftp h)) as [?|?]; auto.
  - unfold answer_told. destruct (claiming_told _ _ _ _) as [[[]|e| |] s']; cbn [fst snd];
      (eapply (answer_coherent _ _ (Tell n v));
        [done|done|unfold askers; by rewrite Hq, Hd|by rewrite Hd|done|]); intros b; rewrite Hq;
      by rewrite elem_of_cons; intuition.
  - apply close_coherent; [done|done| |by rewrite Hd|done|].
    + unfold askers. rewrite Hq, Hd. simpl. rewrite (right_id_L [] (++)). apply Permutation_cons_append.
    + intros b. rewrite Hq, elem_of_cons. by intuition.
  - apply close_coherent; [done|done| |by rewrite Hd|done|by rewrite Hq].
    unfold askers. by rewrite Hq, Hd.
  - destruct fin as [t|].
    + eapply (answer_coherent _ _ Finishing); [done|done| |by rewrite Hd|done|done].
      unfold askers. rewrite Hd. simpl. rewrite (right_id_L [] (++)). symmetry.
      apply Permutation_cons_append.
    + apply close_coherent; [done|done| |by rewrite Hd|done|done]. unfold askers. by rewrite Hd.
  - by apply ended_coherent.
  - apply go_on_coherent; [done|done|left; by rewrite Hd|done|].
    destruct (next_goes b hd off (l ++ [Ok (Some chunk)]) (sftp h)) as [?|?]; auto.
  - apply go_on_coherent; [done|done|left; by rewrite Hd|done|].
    destruct (stop_goes b hd l (sftp h)) as [?|?]; auto.
  - apply go_on_coherent; [done|done|left; by rewrite Hd|done|auto].
  - apply go_on_coherent; [done|done|left; by rewrite Hd|done|auto].
  - by eapply ask_coherent.
  - eapply pop_coherent; eauto.
  - eapply pop_coherent; eauto.
  - eapply pop_coherent; eauto.
  - eapply pop_coherent; eauto.
  - by eapply wait_coherent.
  - eapply pop_coherent; eauto.
  - by eapply wait_coherent.
  - eapply pop_coherent; eauto.
Qed.

(** ** Every run ends *)
Definition act_weight (a : Act) : nat :=
  match a with Take _ => 2 | Let_go _ => 1 | _ => 4 end.
Definition owner_weight (o : Owner) : nat :=
  sum_list_with act_weight (script o) + (if waiting o then 0 else 3).
Definition pipe_weight (p : Pipe) : nat :=
  (if asked_for p then 0 else 6) + (match slot p with None => 1 | Some _ => 0 end).
Definition ask_weight (a : Asking) : nat := match a with Ask_read _ => 4 | _ => 2 end.
Definition doing_weight (d : Doing) : nat :=
  match d with
  | Receiving => 3 | Pushing _ _ _ _ _ => 5 | Ending _ _ _ => 4
  | Closing _ _ => 2 | Returned _ => 1 | Ended_with _ => 0
  end.

Definition weight (h : Harvest) : nat :=
  doing_weight (doing h) + sum_list_with ask_weight (queue h)
  + sum_list_with pipe_weight (pipes h) + sum_list_with owner_weight (owners h).

Lemma while_weighs d p : pipe_weight (while_read d p) = pipe_weight p.
Proof. by destruct d. Qed.

Lemma doing_weight_le d : (doing_weight d ≤ 5)%nat.
Proof. destruct d; simpl; lia. Qed.

Lemma pop_weight o a s g :
  script o = a :: s → waiting o = false ∨ waits_at (a :: s) →
  (owner_weight (pop g o) < owner_weight o)%nat.
Proof.
  unfold owner_weight, pop. cbn [script waiting]. intros -> Hw. simpl.
  destruct (waiting o); [|destruct a; simpl; lia].
  destruct Hw as [|Hw]; [done|]. destruct a; simpl in *; done || lia.
Qed.

Lemma pop_take_weight o b s g :
  script o = Take b :: s → waiting o = false ∨ waits_at (Take b :: s) →
  (owner_weight (pop g o) + 2 ≤ owner_weight o)%nat.
Proof.
  unfold owner_weight, pop. cbn [script waiting]. intros -> [->|[]]. simpl. lia.
Qed.

(** An owner's act done lightens the whole by what it did to the channel. *)
Lemma pop_lighter h t o a s g b f :
  coherent h → owners h !! t = Some o → script o = a :: s →
  (sum_list_with pipe_weight (alter f b (pipes h))
   + owner_weight (pop g o) < sum_list_with pipe_weight (pipes h) + owner_weight o)%nat →
  (weight (owner_step t (pop g) b f [] h) < weight h)%nat.
Proof.
  intros _ Ho Hs Hlt. unfold weight, owner_step. cbn [doing queue pipes owners].
  rewrite (right_id_L [] (++)). pose proof (sum_alter owner_weight (pop g) _ _ _ Ho). lia.
Qed.

Lemma free_or_waits h t o a s :
  coherent h → owners h !! t = Some o → script o = a :: s → waiting o = false ∨ waits_at (a :: s).
Proof.
  intros Hc Ho Hs. destruct (waiting o) eqn:Hw; [right|by left].
  rewrite <- Hs. by eapply co_wait.
Qed.

(** A verdict or an end asked for. *)
Lemma wait_lighter h t o a :
  owners h !! t = Some o → waiting o = false → ask_weight a = 2%nat →
  (weight (owner_step t wait 0 Datatypes.id [a] h) < weight h)%nat.
Proof.
  intros Ho Hw Ha. unfold weight, owner_step. cbn [doing queue pipes owners]. rewrite ?alter_same.
  pose proof (sum_alter owner_weight wait _ _ _ Ho) as Hsum.
  unfold owner_weight at 2 4 in Hsum. cbn [wait script waiting] in Hsum. rewrite Hw in Hsum.
  rewrite sum_list_with_app. simpl. lia.
Qed.

(** A verdict answered. *)
Lemma told_lighter h t n v q r :
  coherent h → over h = false → doing h = Receiving → queue h = Ask_told t n v :: q →
  (weight (answer_told names t n v q r h) < weight h)%nat.
Proof.
  intros Hc Hov Hd Hq.
  destruct (ask_head _ (co_asks _ Hc Hov) t (Tell n v)) as (o & s & Ho & _ & Hs);
    [unfold askers; rewrite Hq; by left|].
  pose proof (free_or_waits _ _ _ _ _ Hc Ho Hs) as Hfree. unfold weight, answer_told.
  rewrite Hd, Hq. destruct r as [[[]|e| |] s']; cbn [doing queue pipes owners fst snd]; simpl;
    match goal with |- context [pop ?g] =>
      pose proof (pop_weight o _ _ g Hs Hfree);
      pose proof (sum_alter owner_weight (pop g) _ _ _ Ho)
    end; lia.
Qed.

(** What a body's channel weighs after [f]. *)
Ltac weigh_pipe f Hp :=
  let Hsum := fresh "Hsum" in
  pose proof (sum_alter pipe_weight f _ _ _ Hp) as Hsum;
  unfold pipe_weight at 2 4 in Hsum; cbn in Hsum;
  repeat match goal with
  | H : slot _ = _ |- _ => rewrite H in Hsum; clear H
  | H : asked_for _ = _ |- _ => rewrite H in Hsum; clear H
  end.

(** Each step of any of the threads. *)
Lemma step_lighter h h' :
  harvest_step claiming names h h' → coherent h → (weight h' < weight h)%nat.
Proof.
  intros Hst Hc. destruct Hst as [h b q Hd Hq|h t n v q Hd Hq|h t q Hd Hq|h Hd Hq Hall|h o fin Hd|h o Hd
    |h b hd off chunk l p Hd Hp Hslot Hg|h b hd off chunk l p Hd Hp Hg|h b item l p Hd Hp Hslot Hg
    |h b item l p Hd Hp Hg|h t o b s p Ho Hs Hp Ha Hg Hov|h t o b s p Ho Hs Hp Ha Hg Hov
    |h t o b s p x Ho Hs Hp Hx Hg|h t o b s p Ho Hs Hp Ha Hslot Hg Hsd|h t o b s Ho Hs
    |h t o n v s Ho Hs Hw Hov|h t o n v s Ho Hs Hov|h t o s Ho Hs Hw Hov|h t o s Ho Hs Hov];
    try (assert (over h = false) as Hov by (unfold over; by rewrite Hd));
    try (by eapply told_lighter); try (by eapply wait_lighter);
    try (pose proof (free_or_waits _ _ _ _ _ Hc Ho Hs) as Hfree);
    try (eapply pop_lighter; [done|done|exact Hs|];
         match goal with |- context [pop ?g o] => pose proof (pop_weight o _ _ g Hs Hfree) end;
         rewrite ?alter_same; try lia);
    unfold weight, go_on, owner_step; cbn [doing queue pipes owners];
    rewrite ?(sum_alter_after pipe_weight _ _ _ _ (while_weighs _)), ?alter_same, ?Hd, ?Hq.
  - pose proof (doing_weight_le (begin_read names b (sftp h)).1). simpl. lia.
  - simpl. lia.
  - simpl. lia.
  - destruct fin as [t|]; [|simpl; lia].
    destruct (ask_head _ (co_asks _ Hc Hov) t Finishing) as (o1 & s & Ho & _ & Hs);
      [unfold askers; rewrite Hd; apply elem_of_app; right; by left|].
    pose proof (free_or_waits _ _ _ _ _ Hc Ho Hs) as Hfree.
    pose proof (pop_weight o1 _ _ [Got_finished] Hs Hfree).
    pose proof (sum_alter owner_weight (pop [Got_finished]) _ _ _ Ho). simpl. lia.
  - simpl. lia.
  - pose proof (doing_weight_le (read_next b hd off (l ++ [Ok (Some chunk)]) (sftp h)).1).
    weigh_pipe (with_slot (Some (Ok (Some chunk)))) Hp. simpl. lia.
  - assert (doing_weight (close_read b hd None l (sftp h)).1 ≤ 3)%nat.
    { destruct (stop_goes b hd l (sftp h)) as [->|[? ->]]; simpl; lia. }
    simpl. lia.
  - weigh_pipe (with_slot (Some item)) Hp. simpl. lia.
  - simpl. lia.
  - weigh_pipe ask Hp. rewrite sum_list_with_app. simpl. lia.
  - weigh_pipe (with_slot None) Hp. pose proof (pop_take_weight o b s [Got_chunk x] Hs Hfree). lia.
  - rewrite (sum_alter_same pipe_weight let_go) by done. lia.
Qed.

Lemma steps_coherent h h' : rtc (harvest_step claiming names) h h' → coherent h → coherent h'.
Proof. induction 1; eauto using step_coherent. Qed.

Lemma steps_light n h h' :
  nsteps (harvest_step claiming names) n h h' → coherent h → (n + weight h' ≤ weight h)%nat.
Proof.
  induction 1 as [h|n h h1 h' Hst _ IH]; intros Hc; [lia|].
  pose proof (step_lighter _ _ Hst Hc). specialize (IH (step_coherent _ _ Hst Hc)). lia.
Qed.
End coherent.

(** ** Owners who let a body go *)
Section orderly.
Context `{!TransportErrors, !Codec, !Ssh, !Keys, !SshClient, !Claims}.
Context (claiming : Claiming) (names : nat → string).

(** The bodies an owner has still to do with. *)
Definition touches (a : Act) : option nat :=
  match a with Take b | Let_go b => Some b | _ => None end.
Definition touched (acts : list Act) : list nat := omap touches acts.

(** With [cur] in hand, the owner reads it and lets it go before it does
    anything else, and does not come back to a body it let go. *)
Fixpoint orderly (cur : option nat) (acts : list Act) : Prop :=
  match acts with
  | [] => cur = None
  | Take b :: acts => (cur = None ∨ cur = Some b) ∧ orderly (Some b) acts
  | Let_go b :: acts => (cur = None ∨ cur = Some b) ∧ (b ∉ touched acts) ∧ orderly None acts
  | (Tell _ _ | Finishing) :: acts => cur = None ∧ orderly None acts
  end.

(** Each body is there, and one owner's. *)
Record disciplined (bodies : nat) (scripts : list (list Act)) : Prop := {
  dis_orderly t acts : scripts !! t = Some acts → orderly None acts;
  dis_there t acts b : scripts !! t = Some acts → b ∈ touched acts → (b < bodies)%nat;
  dis_apart t t' acts acts' b :
    scripts !! t = Some acts → scripts !! t' = Some acts' →
    b ∈ touched acts → b ∈ touched acts' → t = t';
}.

Record in_order (h : Harvest) : Prop := {
  or_there t o b : owners h !! t = Some o → b ∈ touched (script o) →
    ∃ p, pipes h !! b = Some p ∧ gone p = false;
  or_apart t t' o o' b : owners h !! t = Some o → owners h !! t' = Some o' →
    b ∈ touched (script o) → b ∈ touched (script o') → t = t';
  or_order t o : owners h !! t = Some o → ∃ cur, orderly cur (script o);
  or_held b p : pipes h !! b = Some p → asked_for p = true → gone p = false →
    ∃ t o, owners h !! t = Some o ∧ orderly (Some b) (script o);
}.

Lemma start_in_order s bodies scripts :
  disciplined bodies scripts → in_order (start_harvest s bodies scripts).
Proof.
  intros [Ho Ht Ha].
  assert (∀ t o, (owner_of <$> scripts) !! t = Some o → scripts !! t = Some (script o)) as Hs.
  { intros t o. rewrite list_lookup_fmap. by intros (acts & -> & ->)%fmap_Some. }
  constructor; cbn [owners pipes start_harvest].
  - intros t o b Hl Hb. exists fresh_pipe. split; [|done].
    rewrite lookup_replicate. split; [done|]. by eapply Ht; [apply Hs|].
  - intros t t' o o' b Hl Hl' Hb Hb'. by eapply Ha; [apply Hs; exact Hl|by apply Hs|done|done].
  - intros t o Hl. exists None. by eapply Ho, Hs.
  - by intros b p [-> _]%lookup_replicate.
Qed.

Lemma touched_tail a s b : b ∈ touched s → b ∈ touched (a :: s).
Proof. unfold touched. destruct a; simpl; auto; intros; by right. Qed.

Lemma orderly_tail cur a s : orderly cur (a :: s) → ∃ cur', orderly cur' s.
Proof. destruct a; simpl; intros; destruct_and?; eauto. Qed.

(** A channel changed under the same body in the same hands. *)
Lemma pipes_in_order h h' b f :
  in_order h → owners h' = owners h → pipes h' = alter f b (pipes h) →
  (∀ p, asked_for (f p) = asked_for p ∧ gone (f p) = gone p) → in_order h'.
Proof.
  intros [Ht Ha Ho Hh] Hos Hps Hf. constructor; rewrite Hos, ?Hps; try done.
  - intros t o b' Hl Hb'. destruct (Ht _ _ _ Hl Hb') as (p & Hp & Hg).
    rewrite list_lookup_alter. case_decide; [subst|by eauto]. rewrite Hp. exists (f p).
    by rewrite (proj2 (Hf p)).
  - intros b' p' (p & Hp & ->)%lookup_alter_inv. destruct (Hf p) as [Hfa Hfg].
    case_decide; [rewrite Hfa, Hfg|]; by apply (Hh b').
Qed.

(** An owner's act done. *)
Lemma pop_in_order h h' t o a s g b f :
  in_order h → owners h !! t = Some o → script o = a :: s →
  owners h' = alter (pop g) t (owners h) → pipes h' = alter f b (pipes h) →
  (∀ p, asked_for (f p) = asked_for p) →
  match a with
  | Let_go b' => b' = b ∧ f = let_go
  | _ => ∀ p, gone (f p) = gone p
  end → in_order h'.
Proof.
  intros [Ht Ha Ho Hh] Hl Hs Hos Hps Hf Hg.
  assert (∀ t' o', alter (pop g) t (owners h) !! t' = Some o' →
    ∃ o1, owners h !! t' = Some o1 ∧ (script o' = script o1 ∧ t' ≠ t ∨ t' = t ∧ script o' = s)) as Hinv.
  { intros t' o' (o1 & Ho1 & ->)%lookup_alter_inv. exists o1. split; [done|].
    case_decide as Hd; [subst t'; right|by left]. rewrite Hl in Ho1. injection Ho1 as <-.
    unfold pop. cbn [script]. by rewrite Hs. }
  assert (∀ t' o', alter (pop g) t (owners h) !! t' = Some o' →
    ∃ o1, owners h !! t' = Some o1 ∧ ∀ b, b ∈ touched (script o') → b ∈ touched (script o1)) as Hsub.
  { intros t' o' Hl'. destruct (Hinv _ _ Hl') as (o1 & Ho1 & [[-> _]|[-> ->]]); [by eauto|].
    exists o1. rewrite Hl in Ho1. injection Ho1 as <-. rewrite Hs. split; [done|].
    intros b'. apply touched_tail. }
  constructor; rewrite Hos, ?Hps.
  - intros t' o' b' Hl' Hb'. destruct (Hinv _ _ Hl') as (o1 & Ho1 & Hcase).
    destruct (Hsub _ _ Hl') as (o2 & Ho2 & Hin). rewrite Ho1 in Ho2. injection Ho2 as <-.
    destruct (Ht _ _ _ Ho1 (Hin _ Hb')) as (p & Hp & Hgp).
    rewrite list_lookup_alter. case_decide as Hd; [subst b'|by eauto]. rewrite Hp. exists (f p).
    split; [done|]. destruct a as [|b0| |]; try (by rewrite Hg). destruct Hg as [-> ->]. exfalso.
    destruct (Ho _ _ Hl) as (cur & Hor). rewrite Hs in Hor. destruct Hor as (_ & Hnb & _).
    destruct Hcase as [[Hsc Hne]|[-> Hsc]]; [|by rewrite Hsc in Hb'].
    apply Hne. eapply (Ha t' t o1 o b); [done|done|by apply Hin|rewrite Hs; by left].
  - intros t1 t2 o1 o2 b' Hl1 Hl2 Hb1 Hb2. destruct (Hsub _ _ Hl1) as (o1' & Ho1 & Hin1).
    destruct (Hsub _ _ Hl2) as (o2' & Ho2 & Hin2). by apply (Ha t1 t2 o1' o2' b'); auto.
  - intros t' o' Hl'. destruct (Hinv _ _ Hl') as (o1 & Ho1 & [[-> _]|[-> ->]]); [by eapply Ho|].
    destruct (Ho _ _ Hl) as (cur & Hor). rewrite Hs in Hor. by eapply orderly_tail.
  - intros b' p' (p & Hp & ->)%lookup_alter_inv Hask Hgone.
    assert (asked_for p = true ∧ gone p = false ∧ a ≠ Let_go b') as (Hpa & Hpg & Hab).
    { case_decide as Hd; [subst b'; rewrite Hf in Hask|].
      - destruct a as [|b0| |]; try (rewrite Hg in Hgone; done). destruct Hg as [-> ->]. done.
      - split; [done|]. split; [done|]. intros ->. by destruct Hg as [-> _]. }
    destruct (Hh _ _ Hp Hpa Hpg) as (t' & o' & Hl' & Hor). exists t'. rewrite list_lookup_alter.
    destruct (decide (t = t')) as [<-|]; [|by eauto]. rewrite Hl in Hl'. injection Hl' as <-.
    rewrite Hl. exists (pop g o). split; [done|]. rewrite Hs in Hor. cbn [pop script]. rewrite Hs.
    cbn [tail]. destruct a as [b0|b0| |]; cbn [orderly] in Hor; [|exfalso..].
    + destruct Hor as [[|[= ->]] Hor]; done.
    + destruct Hor as [[|[= ->]] Hor]; done.
    + by destruct Hor.
    + by destruct Hor.
Qed.

(** A body asked for is in its owner's hands. *)
Lemma ask_in_order h t o b s :
  in_order h → owners h !! t = Some o → script o = Take b :: s →
  in_order (owner_step t Datatypes.id b ask [Ask_read b] h).
Proof.
  intros [Ht Ha Ho Hh] Hl Hs. constructor; cbn [owner_step owners pipes]; rewrite ?alter_same; try done.
  - intros t' o' b' Hl' Hb'. destruct (Ht _ _ _ Hl' Hb') as (p & Hp & Hg).
    rewrite list_lookup_alter. case_decide; [subst|by eauto]. rewrite Hp. by exists (ask p).
  - intros b' p' (p & Hp & ->)%lookup_alter_inv Hask Hgone.
    destruct (decide (b = b')) as [<-|]; [|by eapply Hh]. exists t, o. split; [done|].
    destruct (Ho _ _ Hl) as (cur & Hor). rewrite Hs in *. destruct Hor as [_ Hor].
    split; [by right|done].
Qed.

(** An owner that waits has its act still to do. *)
Lemma wait_in_order h t x : in_order h → in_order (owner_step t wait 0 Datatypes.id [x] h).
Proof.
  intros [Ht Ha Ho Hh].
  assert (∀ t' o', alter wait t (owners h) !! t' = Some o' →
    ∃ o1, owners h !! t' = Some o1 ∧ script o' = script o1) as Hinv.
  { intros t' o' (o1 & Ho1 & ->)%lookup_alter_inv. exists o1. split; [done|]. by case_decide. }
  constructor; cbn [owner_step owners pipes]; rewrite ?alter_same.
  - intros t' o' b (o1 & Ho1 & ->)%Hinv. by apply (Ht t').
  - intros t1 t2 o1 o2 b (o1' & Ho1 & ->)%Hinv (o2' & Ho2 & ->)%Hinv. by apply (Ha t1 t2 o1' o2').
  - intros t' o' (o1 & Ho1 & ->)%Hinv. by apply (Ho t').
  - intros b p Hp Hask Hgone. destruct (Hh _ _ Hp Hask Hgone) as (t' & o' & Ho' & Hor). exists t'.
    rewrite list_lookup_alter. case_decide; [subst|by eauto]. rewrite Ho'. by exists (wait o').
Qed.

Lemma step_in_order h h' : harvest_step claiming names h h' → coherent h → in_order h → in_order h'.
Proof.
  intros Hst Hc Hio. destruct Hst as [h b q Hd Hq|h t n v q Hd Hq|h t q Hd Hq|h Hd Hq Hall|h o fin Hd|h o Hd
    |h b hd off chunk l p Hd Hp Hslot Hg|h b hd off chunk l p Hd Hp Hg|h b item l p Hd Hp Hslot Hg
    |h b item l p Hd Hp Hg|h t o b s p Ho Hs Hp Ha Hg Hov|h t o b s p Ho Hs Hp Ha Hg Hov
    |h t o b s p x Ho Hs Hp Hx Hg|h t o b s p Ho Hs Hp Ha Hslot Hg Hsd|h t o b s Ho Hs
    |h t o n v s Ho Hs Hw Hov|h t o n v s Ho Hs Hov|h t o s Ho Hs Hw Hov|h t o s Ho Hs Hov];
    try (assert (over h = false) as Hov by (unfold over; by rewrite Hd));
    try (eapply pipes_in_order; [exact Hio|reflexivity|reflexivity|];
         intros p'; by match goal with |- context [while_read ?d] => destruct d end);
    try (by eapply pop_in_order; [exact Hio|exact Ho|exact Hs|reflexivity|reflexivity|done|done]);
    try (by apply wait_in_order);
    try (by eapply (pipes_in_order h _ 0 Datatypes.id); rewrite ?alter_same).
  - destruct (ask_head _ (co_asks _ Hc Hov) t (Tell n v)) as (o & s & Ho & _ & Hs);
      [unfold askers; rewrite Hq; by left|]. unfold answer_told.
    destruct (claiming_told _ _ _ _) as [[[]|e| |] s'];
      (eapply (pop_in_order h _ t o _ s _ 0 Datatypes.id);
        [exact Hio|exact Ho|exact Hs|reflexivity|by rewrite alter_same|done|done]).
  - destruct fin as [t|]; [|by eapply (pipes_in_order h _ 0 Datatypes.id); rewrite ?alter_same].
    destruct (ask_head _ (co_asks _ Hc Hov) t Finishing) as (o1 & s & Ho & _ & Hs);
      [unfold askers; rewrite Hd; apply elem_of_app; right; by left|].
    eapply (pop_in_order h _ t o1 _ s _ 0 Datatypes.id);
      [exact Hio|exact Ho|exact Hs|reflexivity|by rewrite alter_same|done|done].
  - by eapply ask_in_order.
Qed.

(** An owner with something to do goes on, where nobody is asked anything. *)
Lemma owner_goes h t o a s :
  coherent h → in_order h → owners h !! t = Some o → script o = a :: s →
  over h = true ∨ (doing h = Receiving ∧ queue h = []) → ∃ h', harvest_step claiming names h h'.
Proof.
  intros Hc Hio Ho Hs Hor.
  assert (over h = false → waiting o = false) as Hfree.
  { intros Hov. destruct Hor as [|[Hd Hq]]; [congruence|]. destruct (waiting o) eqn:Hw; [|done].
    pose proof (ask_wait _ (co_asks _ Hc Hov) _ _ Ho Hw) as Hin. unfold askers in Hin.
    rewrite Hq, Hd in Hin.
    by apply elem_of_nil in Hin. }
  destruct (over h) eqn:Hov; destruct a as [b|b|n v|].
  1,5: destruct (or_there _ Hio t o b Ho) as (p & Hp & Hg); [rewrite Hs; by left|];
    destruct (slot p) as [x|] eqn:Hslot; [eexists; by eapply own_take|];
    destruct (asked_for p) eqn:Hask.
  - eexists. eapply own_closed; eauto.
  - eexists. by eapply own_ask_over.
  - eexists. eapply own_closed; eauto. left. destruct (sender p) eqn:Hsd; [|done].
    destruct Hor as [|[Hd Hq]]; [done|].
    destruct (ask_sender _ (co_asks _ Hc Hov) _ _ Hp Hsd) as [Hin|Hsv].
    + rewrite Hq in Hin. by apply elem_of_nil in Hin.
    + by rewrite Hd in Hsv.
  - eexists. by eapply own_ask.
  - eexists. by eapply own_let_go.
  - eexists. by eapply own_tell_over.
  - eexists. by eapply own_finish_over.
  - eexists. by eapply own_let_go.
  - eexists. eapply own_tell; eauto.
  - eexists. eapply own_finish; eauto.
Qed.

Lemma done_or_not (os : list Owner) :
  Forall (λ o, script o = []) os ∨ ∃ t o a s, os !! t = Some o ∧ script o = a :: s.
Proof.
  induction os as [|o os IH]; [by left; constructor|].
  destruct (script o) as [|a s] eqn:Hs; [|right; by exists 0, o, a, s].
  destruct IH as [IH|(t & o' & a & s & Ho' & Hs')]; [left; by constructor|].
  right. by exists (S t), o', a, s.
Qed.

(** The body the thread sends to has room, or was let go, or its owner takes
    what it has or lets it go. *)
Lemma body_goes h b :
  coherent h → in_order h → over h = false → serving (doing h) = Some b →
  ∃ p, pipes h !! b = Some p
    ∧ (gone p = true ∨ gone p = false ∧ slot p = None ∨ ∃ h', harvest_step claiming names h h').
Proof.
  intros Hc Hio Hov Hsv.
  destruct (ask_read _ (co_asks _ Hc Hov) b) as (p & Hp & Hask); [by right|].
  exists p. split; [done|]. destruct (gone p) eqn:Hg; [by left|right].
  destruct (slot p) as [x|] eqn:Hslot; [right|by left].
  destruct (or_held _ Hio _ _ Hp Hask Hg) as (t & o & Ho & Hor).
  destruct (script o) as [|[b'|b'|n v|] s] eqn:Hs; cbn in Hor; [done|..].
  - destruct Hor as [[|[= ->]] _]; [done|]. eexists. by eapply own_take.
  - eexists. by eapply own_let_go.
  - by destruct Hor.
  - by destruct Hor.
Qed.

(** Of all the threads, one can go on, or all are done. *)
Lemma progress h :
  coherent h → in_order h → all_done h ∨ ∃ h', harvest_step claiming names h h'.
Proof.
  intros Hc Hio. destruct (doing h) as [|b hd off chunk l|b item l|o fin|o|o] eqn:Hd.
  - right. destruct (queue h) as [|[b|t n v|t] q] eqn:Hq.
    + destruct (done_or_not (owners h)) as [Hall|(t & o & a & s & Ho & Hs)];
        [eexists; by eapply do_last|]. eapply owner_goes; eauto.
    + eexists. by eapply do_read.
    + eexists. by eapply do_told.
    + eexists. by eapply do_finish.
  - right. destruct (body_goes h b) as (p & Hp & [Hg|[[Hg Hs]|?]]); try done;
      [unfold over; by rewrite Hd|by rewrite Hd|eexists; by eapply do_stop|eexists; by eapply do_push].
  - right. destruct (body_goes h b) as (p & Hp & [Hg|[[Hg Hs]|?]]); try done;
      [unfold over; by rewrite Hd|by rewrite Hd|eexists; by eapply do_end_gone|eexists; by eapply do_end].
  - right. eexists. by eapply do_back.
  - right. eexists. by eapply do_drop.
  - assert (over h = true) as Hov by (unfold over; by rewrite Hd).
    destruct (done_or_not (owners h)) as [Hall|(t & o' & a & s & Ho & Hs)]; [by left|]. right.
    eapply owner_goes; eauto.
Qed.

Lemma steps_in_order h h' :
  rtc (harvest_step claiming names) h h' → coherent h → in_order h → coherent h' ∧ in_order h'.
Proof. induction 1; eauto using step_coherent, step_in_order. Qed.

(** From a state whose owners are in order, some way of going on ends. *)
Lemma finishes n : ∀ h, (weight h < n)%nat → coherent h → in_order h →
  ∃ h', rtc (harvest_step claiming names) h h' ∧ all_done h'.
Proof.
  induction n as [|n IH]; intros h Hn Hc Hio; [lia|].
  destruct (progress h Hc Hio) as [Hdone|[h1 Hst]]; [by exists h|].
  destruct (IH h1) as (h' & Hr & Hdone); [pose proof (step_lighter _ _ _ _ Hst Hc); lia| | |].
  - by eapply step_coherent.
  - by eapply step_in_order.
  - exists h'. split; [by eapply rtc_l|done].
Qed.

(** C30: a harvest ends.  Whatever the owners of its arrivals set out to do,
    and in whatever order the threads run, they take no more steps than a
    number known before the first: a read is stopped by its body's channel,
    which holds one item, so no more is read than is taken. *)
Theorem harvest_ends s bodies scripts n h :
  nsteps (harvest_step claiming names) n (start_harvest s bodies scripts) h →
  (n ≤ weight (start_harvest s bodies scripts))%nat.
Proof.
  intros Hn. pose proof (steps_light _ _ _ _ _ Hn (start_coherent s bodies scripts)). lia.
Qed.

(** C14: nobody waits for ever.  Where each body is one owner's, and an owner
    that reads a body does nothing else until it lets it go, lets each body it
    read go, and does not return to one it let go ([disciplined]), the threads
    of a harvest never all wait: from every state they come to, one of them
    goes on, until every owner is done and the harvest is over — and that end
    is always still ahead. *)
Theorem harvest_never_stuck s bodies scripts h :
  disciplined bodies scripts →
  rtc (harvest_step claiming names) (start_harvest s bodies scripts) h →
  (all_done h ∨ ∃ h', harvest_step claiming names h h')
  ∧ ∃ h', rtc (harvest_step claiming names) h h' ∧ all_done h'.
Proof.
  intros Hdis Hr. destruct (steps_in_order _ _ Hr) as [Hc Hio];
    [apply start_coherent|by apply start_in_order|].
  split; [by apply progress|]. by apply (finishes (S (weight h))); [lia|..].
Qed.
End orderly.

(** ** A verdict told with the body in hand *)
Section held.
Context `{!Platform, !TransportErrors, !Codec, !CodecLaws, !Net, !NetLaws, !Ssh, !Keys, !SshClient,
          !Claims}.
Context {R : relation Directory} `{!Served R}.
Context (claiming : Claiming) (names : nat → string).

Local Open Scope N_scope.

(** The thread reads on, and has something to send. *)
Lemma next_serves hd c off l s far :
  linked s far → next far < u64_max → keeps R (names 0%nat) → name_short hd →
  handles far !! hd = Some (Read (names 0%nat)) → files (directory far) !! names 0%nat = Some c →
  off ≤ blen c →
  ∃ far', linked (read_next 0 hd off l s).2 far' ∧ serving (read_next 0 hd off l s).1 = Some 0%nat
    ∧ (off < blen c → (read_next 0 hd off l s).1
        = Pushing 0 hd (off + blen (sub c off CHUNK)) (sub c off CHUNK) l
        ∧ handles far' = handles far ∧ next far' = next far
        ∧ files (directory far') !! names 0%nat = Some c).
Proof.
  intros Hl Hn HR Hs Hh Hc Hoff.
  assert (blen c ≤ MAX_BODY) by (by eapply (wf_files _ (wf_dir _ (linked_wf _ _ Hl)))).
  pose proof max_body_u64.
  destruct (read_at_reads hd (names 0%nat) c off s far) as (s1 & f1 & Hr & Hl1 & Hh1 & Hn1 & Hst);
    try done; [lia|]. assert (files (directory f1) !! names 0%nat = Some c) as Hc1 by (by rewrite (Hst _ HR)).
  unfold read_next. rewrite Hr.
  destruct (N.leb_spec (blen c) off).
  - unfold close_read. destruct (closes hd s1 f1) as (s2 & f2 & d & -> & Hl2 & _); [done|congruence|done|].
    exists f2. cbn. split; [done|]. split; [done|]. lia.
  - unfold u64_add. pose proof (blen_sub c off CHUNK) as Hb.
    rewrite (proj2 (N.leb_le _ _)) by (unfold u64_max; rewrite Hb; lia). by exists f1.
Qed.

(** The first two chunks of a file of more than one, and what comes after. *)
Lemma two_chunks s far c :
  linked s far → next far < u64_max - 1 → keeps R (names 0%nat) → name_short (names 0%nat) →
  files (directory far) !! names 0%nat = Some c → CHUNK < blen c →
  ∃ hd o1 c1 s1 o2 c2 s2,
    begin_read names 0 s = (Pushing 0 hd o1 c1 [], s1)
    ∧ read_next 0 hd o1 [Ok (Some c1)] s1 = (Pushing 0 hd o2 c2 [Ok (Some c1)], s2)
    ∧ serving (read_next 0 hd o2 [Ok (Some c1); Ok (Some c2)] s2).1 = Some 0%nat.
Proof.
  intros Hl Hn HR Hname Hc Hlong. unfold CHUNK in Hlong.
  destruct (open_reads (names 0%nat) s far) as (d & s1 & f1 & HRd & Hl1 & Hd1 & Hn1 & Ho);
    [done|lia|done|].
  rewrite (HR _ _ HRd), Hc in Ho. destruct Ho as (hd & Ho & [Hh Hs _ _]).
  assert (files (directory f1) !! names 0%nat = Some c) as Hc1 by (by rewrite Hd1, (HR _ _ HRd)).
  pose proof (blen_sub c 0 CHUNK) as Hb0. unfold CHUNK in Hb0.
  destruct (next_serves hd c 0 [] s1 f1) as (f2 & Hl2 & _ & Hp2); try done; [lia..|].
  destruct Hp2 as (Hp2 & Hh2 & Hn2 & Hc2); [lia|].
  set (c1 := sub c 0 CHUNK) in *. set (o1 := 0 + blen c1) in *.
  assert (o1 = 32768) as Ho1 by (unfold o1, c1, CHUNK; rewrite blen_sub; lia).
  destruct (next_serves hd c o1 [Ok (Some c1)] (read_next 0 hd 0 [] s1).2 f2)
    as (f3 & Hl3 & _ & Hp3); try done; [lia|by rewrite Hh2|lia|].
  destruct Hp3 as (Hp3 & Hh3 & Hn3 & Hc3); [lia|].
  set (c2 := sub c o1 CHUNK) in *. set (o2 := o1 + blen c2) in *.
  assert (o2 ≤ blen c) as Ho2 by (unfold o2, c2; rewrite blen_sub; lia).
  destruct (next_serves hd c o2 [Ok (Some c1); Ok (Some c2)]
    (read_next 0 hd o1 [Ok (Some c1)] (read_next 0 hd 0 [] s1).2).2 f3)
    as (f4 & _ & Hsv & _); try done; [lia|by rewrite Hh3, Hh2|].
  exists hd, o1, c1, (read_next 0 hd 0 [] s1).2, o2, c2,
    (read_next 0 hd o1 [Ok (Some c1)] (read_next 0 hd 0 [] s1).2).2.
  split; [|split; [|done]].
  - unfold begin_read. rewrite Ho. by rewrite (surjective_pairing (read_next 0 hd 0 [] s1)), Hp2.
  - by rewrite (surjective_pairing (read_next 0 hd o1 [Ok (Some c1)] _)) at 1; rewrite Hp3.
Qed.

(** Each equation rewritten with, and what it decides. *)
Ltac rewrite_known :=
  repeat (match goal with E : ?x = _ |- context [?x] => rewrite E end; simpl).

(** Where the thread serves a body, a step of the harvest is its next, an
    owner's, or an owner's that finds its body's channel closed. *)
Lemma step_cases h h' :
  harvest_step claiming names h h' → over h = false →
  (∀ b p, pipes h !! b = Some p → asked_for p = false → slot p = None) →
  thread_step claiming names h = Some h' ∨ (∃ t, own_step t h = Some h')
  ∨ (doing h = Receiving ∧ queue h = [] ∧ Forall (λ o, script o = []) (owners h))
  ∨ ∃ b p, pipes h !! b = Some p ∧ asked_for p = true ∧ slot p = None ∧ sender p = false.
Proof.
  intros Hst Hov Hfresh. destruct Hst as [h b q Hd Hq|h t n v q Hd Hq|h t q Hd Hq|h Hd Hq Hall|h o fin Hd|h o Hd
    |h b hd off chunk l p Hd Hp Hslot Hg|h b hd off chunk l p Hd Hp Hg|h b item l p Hd Hp Hslot Hg
    |h b item l p Hd Hp Hg|h t o b s p Ho Hs Hp Ha Hg _|h t o b s p Ho Hs Hp Ha Hg Hov'
    |h t o b s p x Ho Hs Hp Hx Hg|h t o b s p Ho Hs Hp Ha Hslot Hg Hsd|h t o b s Ho Hs
    |h t o n v s Ho Hs Hw _|h t o n v s Ho Hs Hov'|h t o s Ho Hs Hw _|h t o s Ho Hs Hov'];
    try congruence; try (left; unfold thread_step; by rewrite_known);
    try (right; left; exists t; unfold own_step; by rewrite_known).
  - by right; right; left.
  - right; left; exists t. pose proof (Hfresh _ _ Hp Ha). unfold own_step. by rewrite_known.
  - right; right; right. exists b, p. by destruct Hsd; [|congruence].
Qed.

(** One owner that takes a chunk of the one body and tells its verdict: the
    states the harvest comes to, where the thread has three items or more to
    send. *)
Section one_owner.
Context (hd : string) (o1 o2 : N) (c1 c2 : bytes) (s0 s1 s2 s3 : Sftp) (d3 : Doing).
Context (v : option Verdict) (rest : list Act).
Context (E1 : begin_read names 0 s0 = (Pushing 0 hd o1 c1 [], s1)).
Context (E2 : read_next 0 hd o1 [Ok (Some c1)] s1 = (Pushing 0 hd o2 c2 [Ok (Some c1)], s2)).
Context (E3 : read_next 0 hd o2 [Ok (Some c1); Ok (Some c2)] s2 = (d3, s3)).
Context (Hd3 : serving d3 = Some 0%nat).

Definition held_at (d : Doing) (s : Sftp) (q : list Asking) (acts : list Act) (w : bool)
    (g : list Got) (asked sends : bool) (x : option Item) : Harvest :=
  {| doing := d; sftp := s; queue := q;
     pipes := [{| asked_for := asked; slot := x; sender := sends; gone := false |}];
     owners := [{| script := acts; waiting := w; got := g |}];
     lent := Harvesting; answered := []; said := [] |}.

Inductive held : Harvest → Prop :=
  | held_start :
    held (held_at Receiving s0 [] (Take 0 :: Tell 0 v :: rest) false [] false false None)
  | held_asked :
    held (held_at Receiving s0 [Ask_read 0] (Take 0 :: Tell 0 v :: rest) false [] true true None)
  | held_first :
    held (held_at (Pushing 0 hd o1 c1 []) s1 [] (Take 0 :: Tell 0 v :: rest) false [] true true None)
  | held_sent :
    held (held_at (Pushing 0 hd o2 c2 [Ok (Some c1)]) s2 [] (Take 0 :: Tell 0 v :: rest) false []
            true true (Some (Ok (Some c1))))
  | held_taken :
    held (held_at (Pushing 0 hd o2 c2 [Ok (Some c1)]) s2 [] (Tell 0 v :: rest) false
            [Got_chunk (Ok (Some c1))] true true None)
  | held_told :
    held (held_at (Pushing 0 hd o2 c2 [Ok (Some c1)]) s2 [Ask_told 0 0 v] (Tell 0 v :: rest) true
            [Got_chunk (Ok (Some c1))] true true None)
  | held_full :
    held (held_at d3 s3 [] (Tell 0 v :: rest) false
            [Got_chunk (Ok (Some c1))] true true (Some (Ok (Some c2))))
  | held_stuck :
    held (held_at d3 s3 [Ask_told 0 0 v] (Tell 0 v :: rest) true
            [Got_chunk (Ok (Some c1))] true true (Some (Ok (Some c2)))).

(** A read that goes on keeps the record. *)
Lemma go_on_serves b l room f q d h :
  serving d.1 = Some b →
  go_on names b l room f q d h
  = {| doing := d.1; sftp := d.2; queue := q; pipes := alter f b (pipes h); owners := owners h;
       lent := lent h; answered := answered h; said := said h |}.
Proof. by destruct d as [[] ?]. Qed.

Lemma held_not_over h : held h → over h = false.
Proof. unfold over. destruct 1; cbn [doing held_at]; by destruct d3. Qed.

(** The thread's step, and the owner's, from each. *)
Lemma held_thread h h' : held h → thread_step claiming names h = Some h' → held h'.
Proof.
  destruct 1; unfold thread_step; cbn [doing queue pipes sftp held_at]; try discriminate.
  - rewrite E1. intros [= <-]. exact held_first.
  - cbn. rewrite E2. intros [= <-]. exact held_sent.
  - cbn. unfold Item in *. rewrite E3. intros [= <-]. rewrite go_on_serves by done. exact held_full.
  - cbn. unfold Item in *. rewrite E3. intros [= <-]. rewrite go_on_serves by done. exact held_stuck.
  - destruct d3; try discriminate; injection Hd3 as ->; cbn; discriminate.
  - destruct d3; try discriminate; injection Hd3 as ->; cbn; discriminate.
Qed.

Lemma held_own h h' t : held h → own_step t h = Some h' → held h'.
Proof.
  intros Hh Hs. pose proof (held_not_over _ Hh) as Hov. unfold own_step in Hs. rewrite Hov in Hs.
  destruct t; [|by destruct Hh].
  destruct Hh; cbn in Hs; simplify_eq.
  - exact held_asked.
  - exact held_taken.
  - exact held_told.
  - exact held_stuck.
Qed.

Lemma held_step h h' : held h → harvest_step claiming names h h' → held h'.
Proof.
  intros Hh Hst.
  destruct (step_cases h h' Hst (held_not_over _ Hh))
    as [Hs|[[t Hs]|[(_ & _ & Hall)|(b & p & Hp & Ha & Hslot & Hsd)]]].
  - intros b p Hp Ha. destruct Hh, b; cbn in Hp; by simplify_eq.
  - by eapply held_thread.
  - by eapply held_own.
  - destruct Hh; by apply Forall_cons in Hall as [? _].
  - destruct Hh, b; cbn in Hp; by simplify_eq.
Qed.

Lemma held_steps h h' : rtc (harvest_step claiming names) h h' → held h → held h'.
Proof. induction 1; eauto using held_step. Qed.

(** The owner waits for its answer, the thread to send to its body. *)
Definition waits_with_body (h : Harvest) : Prop :=
  serving (doing h) = Some 0%nat
  ∧ (∃ p x, pipes h = [p] ∧ slot p = Some x ∧ gone p = false)
  ∧ ∃ o, owners h = [o] ∧ waiting o = true ∧ script o = Tell 0 v :: rest.

Lemma waits_stuck h : waits_with_body h → ∀ h', ¬ harvest_step claiming names h h'.
Proof.
  intros (Hsv & (p & x & Hps & Hslot & Hgone) & o & Hos & Hw & Hs) h' Hst.
  assert (over h = false) as Hov by (unfold over; by destruct (doing h)).
  assert (∀ b' p', pipes h !! b' = Some p' → p' = p) as Hp.
  { intros b' p'. rewrite Hps. by destruct b'; simpl; intros; simplify_eq. }
  assert (∀ t' o', owners h !! t' = Some o' → o' = o) as Ho.
  { intros t' o'. rewrite Hos. by destruct t'; simpl; intros; simplify_eq. }
  destruct Hst;
    try (match goal with Hd : doing _ = _ |- _ => rewrite Hd in Hsv end; cbn in Hsv);
    repeat match goal with
    | Hl : owners _ !! _ = Some _ |- _ => apply Ho in Hl
    | Hl : pipes _ !! _ = Some _ |- _ => apply Hp in Hl
    end; subst; congruence.
Qed.

Lemma held_progress h : held h → waits_with_body h ∨ ∃ h', harvest_step claiming names h h'.
Proof.
  destruct 1; [right; eexists..|left].
  - by eapply (own_ask _ _ _ 0%nat _ 0%nat).
  - by eapply (do_read _ _ _ 0%nat []).
  - by eapply do_push.
  - by eapply (own_take _ _ _ 0%nat _ 0%nat).
  - by eapply do_push.
  - by eapply do_push.
  - eapply (own_tell _ _ _ 0%nat); [done|done|done|]. apply held_not_over, held_full.
  - split; [exact Hd3|]. split; [by repeat eexists|by eexists].
Qed.

Lemma held_goes n : ∀ h, (weight h < n)%nat → coherent h → held h →
  ∃ h', rtc (harvest_step claiming names) h h' ∧ waits_with_body h'.
Proof.
  induction n as [|n IH]; intros h Hn Hc Hh; [lia|].
  destruct (held_progress h Hh) as [Hw|[h1 Hst]]; [by exists h|].
  destruct (IH h1) as (h' & Hr & Hw); [pose proof (step_lighter _ _ _ _ Hst Hc); lia| | |].
  - by eapply step_coherent.
  - by eapply held_step.
  - exists h'. split; [by eapply rtc_l|done].
Qed.
End one_owner.

(** C29: a body must go before its verdict.  One owner takes the first chunk
    of a file of more than one, and tells the verdict with the body still in
    hand.  However the threads run, the harvest never comes to its end: from
    every state it comes to it goes on only to where no thread can take a
    step — the harvest's thread waits to send to the body, the owner for the
    answer to its verdict. *)
Theorem held_body_blocks s far c v rest h :
  linked s far → next far < u64_max - 1 → keeps R (names 0%nat) → name_short (names 0%nat) →
  files (directory far) !! names 0%nat = Some c → CHUNK < blen c →
  rtc (harvest_step claiming names) (start_harvest s 1 [Take 0 :: Tell 0 v :: rest]) h →
  over h = false
  ∧ ((∀ h', ¬ harvest_step claiming names h h') → waits_with_body v rest h)
  ∧ ∃ h', rtc (harvest_step claiming names) h h' ∧ waits_with_body v rest h'
      ∧ ∀ h'', ¬ harvest_step claiming names h' h''.
Proof.
  intros Hl Hn HR Hname Hc Hlong Hrun.
  destruct (two_chunks s far c) as (hd & o1 & c1 & s1 & o2 & c2 & s2 & E1 & E2 & E3); try done.
  destruct (read_next 0 hd o2 [Ok (Some c1); Ok (Some c2)] s2) as [d3 s3] eqn:E. cbn [fst] in E3.
  assert (held hd o1 o2 c1 c2 s s1 s2 s3 d3 v rest h) as Hheld.
  { eapply held_steps; eauto. constructor. }
  split; [by eapply held_not_over|]. split.
  - intros Hstuck. assert (waits_with_body v rest h ∨ ∃ h', harvest_step claiming names h h')
      as [|[h' Hst]] by (by eapply held_progress); [done|]. by destruct (Hstuck h').
  - destruct (held_goes hd o1 o2 c1 c2 s s1 s2 s3 d3 v rest E1 E2 E E3 (S (weight h)) h)
      as (h' & Hr & Hw); [lia| |done|].
    + eapply steps_coherent; [exact Hrun|apply start_coherent].
    + exists h'. split; [done|]. split; [done|by eapply waits_stuck].
Qed.
End held.

(** ** Witnesses *)
Module Witnesses.
Import Reference.Instances Loopback.Instances FarProperties.Witnesses ClientProperties.Witnesses.
Import ConnectProperties.Witnesses TransportProperties.Witnesses.
#[local] Existing Instances loop_client ref_claims.

Definition ex_names (b : nat) : string := if decide (b = 0%nat) then "a.edi" else "none".
Definition ex_claims : Claiming := (tt : @Claiming _ _ _ ref_claims).
Definition ex_sftp : @Sftp _ loop_ssh := loop_to ex_far.

(** One reads its body and accepts it; the other lets its go unread, and runs
    what the last verdict runs. *)
Definition ex_scripts : list (list Act) :=
  [[Take 0; Take 0; Let_go 0; Tell 0 (Some true)];
   [Take 1; Let_go 1] ++ finishing 0 [Some true; None]].

Lemma ex_disciplined : disciplined 2 ex_scripts.
Proof.
  constructor.
  - intros [|[|t]] acts [= <-]; cbn; split_and!; try done; try (by left); try (by right);
      apply not_elem_of_nil.
  - intros [|[|t]] acts b [= <-]; cbn; intros Hb;
      repeat (apply elem_of_cons in Hb as [->|Hb]; [lia|]); by apply elem_of_nil in Hb.
  - assert (∀ t acts b, ex_scripts !! t = Some acts → b ∈ touched acts → b = t) as Hown.
    { intros [|[|t]] acts b [= <-]; cbn; intros Hb;
        repeat (apply elem_of_cons in Hb as [->|Hb]; [done|]); by apply elem_of_nil in Hb. }
    intros t t' acts acts' b Hl Hl' Hb Hb'. rewrite <- (Hown _ _ _ Hl Hb). by eapply Hown.
Qed.

Lemma harvest_never_stuck_witness :
  ∃ h', rtc (harvest_step ex_claims ex_names) (start_harvest ex_sftp 2 ex_scripts) h' ∧ all_done h'.
Proof.
  exact (proj2 (harvest_never_stuck ex_claims ex_names ex_sftp 2 ex_scripts _ ex_disciplined
    (rtc_refl _ _))).
Defined.

Lemma harvest_ends_witness : (1 ≤ weight (start_harvest ex_sftp 2 ex_scripts))%nat.
Proof.
  eapply (harvest_ends ex_claims ex_names ex_sftp 2 ex_scripts 1).
  eapply nsteps_once. by eapply (own_ask _ _ _ 0%nat _ 0%nat).
Defined.

(** A file of a chunk and one byte. *)
Definition ex_long : bytes := replicate (N.to_nat 32769) Byte.x41.
Definition ex_long_far : Far :=
  {| directory := new_directory {["a.edi" := ex_long]}; handles := ∅; next := 0 |}.

Lemma ex_long_wf : wf_far ex_long_far.
Proof.
  constructor; simpl.
  - constructor; simpl.
    + intros n c [<- <-]%lookup_singleton_Some. split; [split|]; vm_compute; congruence.
    + by intros n t ?%lookup_empty_Some.
    + by vm_compute.
  - by intros h hd ?%lookup_empty_Some.
  - by vm_compute.
Qed.

Lemma held_body_blocks_witness :
  ∃ h, rtc (harvest_step ex_claims ex_names)
         (start_harvest (loop_to ex_long_far) 1 [[Take 0; Tell 0 (Some true)]]) h
    ∧ waits_with_body (Some true) [] h ∧ ∀ h', ¬ harvest_step ex_claims ex_names h h'.
Proof.
  refine (proj2 (proj2 (held_body_blocks ex_claims ex_names (loop_to ex_long_far) ex_long_far ex_long
    (Some true) [] _ (loop_linked _ ex_long_wf) _ (eq_keeps _) _ _ _ (rtc_refl _ _)))).
  - reflexivity.
  - by apply ex_short.
  - reflexivity.
  - vm_compute. reflexivity.
Defined.
End Witnesses.
