(* ===== verification/ArrivalsSettles.v ===== *)
(** A harvest among its arrivals loses no file: whatever the threads that own
    the arrivals do, and in whatever order they run, each claimed file told of
    at most once comes to what [Settles] says of its verdict. *)

From S2P Require Import Prelude RustStd Externals Reference Wire Directory FarSpec FarRefine.
From S2P Require Import FarInvariant FarWorld FarProperties Replies Client Site Session.
From S2P Require Import Contract Loopback ClientProperties Connect ConnectProperties Connection.
From S2P Require Import ConnectionProperties Deliveries Receives Settles.
From S2P Require Import Transport TransportProperties Arrivals ArrivalsProperties ArrivalsLiveness.

Section told_once.
Context `{!TransportErrors, !Codec, !Ssh, !Keys, !SshClient, !Claims}.
Context (claiming : Claiming) (names : nat → string).

(** ** What is told, from the scripts to the record

    [f] of each name told, summed over what was answered, what is in the queue
    and what the owners have still to ask: no step adds to it. *)
Context (f : string → option Verdict → nat).

Definition act_tells (a : Act) : nat := match a with Tell n v => f (names n) v | _ => 0 end.
Definition ask_tells (a : Asking) : nat := match a with Ask_told _ n v => f (names n) v | _ => 0 end.
Definition request_tells (r : Request) : nat := match r with Told c v => f c v | _ => 0 end.
Definition owner_tells (o : Owner) : nat :=
  sum_list_with act_tells (if waiting o then tail (script o) else script o).
Definition tells (h : Harvest) : nat :=
  sum_list_with request_tells (answered h) + sum_list_with ask_tells (queue h)
  + sum_list_with owner_tells (owners h).

Lemma pop_tells g o : (owner_tells (pop g o) ≤ owner_tells o)%nat.
Proof.
  unfold owner_tells, pop. cbn [waiting script]. destruct (waiting o); [done|].
  destruct (script o); simpl; lia.
Qed.

Lemma pops_tell t g os :
  (sum_list_with owner_tells (alter (pop g) t os) ≤ sum_list_with owner_tells os)%nat.
Proof.
  destruct (os !! t) as [o|] eqn:Ho.
  - pose proof (sum_alter owner_tells (pop g) _ _ _ Ho). pose proof (pop_tells g o). lia.
  - apply lookup_ge_None_1 in Ho. clear -Ho. revert t Ho. induction os as [|o os IH]; intros [|t] Ho; simpl in *; [done|done|lia|].
    specialize (IH t ltac:(lia)). change (list_alter (pop g) t os) with (alter (pop g) t os). lia.
Qed.

Lemma noted_tells b l room d h :
  sum_list_with request_tells (noted names b l room d h).1 = sum_list_with request_tells (answered h).
Proof. destruct d; simpl; rewrite ?sum_list_with_app; simpl; lia. Qed.

Lemma told_tells t n v q r h :
  queue h = Ask_told t n v :: q → (tells (answer_told names t n v q r h) ≤ tells h)%nat.
Proof.
  intros Hq. unfold tells, answer_told. rewrite Hq.
  destruct r as [[[]|e| |] s']; cbn [answered queue owners fst];
    rewrite sum_list_with_app; simpl;
    match goal with |- context [alter (pop ?g) ?t ?os] => pose proof (pops_tell t g os) end; lia.
Qed.

Lemma step_tells h h' : harvest_step claiming names h h' → (tells h' ≤ tells h)%nat.
Proof.
  destruct 1 as [h b q Hd Hq|h t n v q Hd Hq|h t q Hd Hq|h Hd Hq Hall|h o fin Hd|h o Hd
    |h b hd off chunk l p Hd Hp Hslot Hg|h b hd off chunk l p Hd Hp Hg|h b item l p Hd Hp Hslot Hg
    |h b item l p Hd Hp Hg|h t o b s p Ho Hs Hp Ha Hg Hov|h t o b s p Ho Hs Hp Ha Hg Hov
    |h t o b s p x Ho Hs Hp Hx Hg|h t o b s p Ho Hs Hp Ha Hslot Hg Hsd|h t o b s Ho Hs
    |h t o n v s Ho Hs Hw Hov|h t o n v s Ho Hs Hov|h t o s Ho Hs Hw Hov|h t o s Ho Hs Hov];
    try (by apply told_tells);
    unfold tells, go_on, owner_step; cbn [answered queue owners];
    rewrite ?noted_tells, ?sum_list_with_app, ?Hq; simpl; try lia;
    try (match goal with |- context [alter (pop ?g) ?t ?os] => pose proof (pops_tell t g os) end; lia).
  - destruct fin as [t|]; [pose proof (pops_tell t [Got_finished] (owners h))|]; lia.
  - by rewrite alter_same, Nat.add_0_r.
  - pose proof (sum_alter owner_tells wait _ _ _ Ho) as Hsum.
    unfold owner_tells at 2 4 in Hsum. cbn [wait waiting script] in Hsum. rewrite Hw, Hs in Hsum.
    simpl in Hsum. lia.
  - pose proof (sum_alter owner_tells wait _ _ _ Ho) as Hsum.
    unfold owner_tells at 2 4 in Hsum. cbn [wait waiting script] in Hsum. rewrite Hw, Hs in Hsum.
    simpl in Hsum. lia.
Qed.
End told_once.

(** ** What the record holds *)
Section record.
Context `{!TransportErrors, !Codec, !Ssh, !Keys, !SshClient, !Claims}.
Context (claiming : Claiming) (names : nat → string).

(** Each file read is one of the arrivals', and the record is no longer than
    the steps taken from a harvest of weight [most]. *)
Record recorded (bodies most : nat) (h : Harvest) : Prop := {
  rec_bodies : length (pipes h) = bodies;
  rec_reads name r : ReadFile name r ∈ answered h → ∃ b, (b < bodies)%nat ∧ name = names b;
  rec_length : (length (answered h) + weight h ≤ most)%nat;
}.

Lemma go_on_recorded bodies most h b l room f q d p :
  recorded bodies most h → pipes h !! b = Some p →
  (weight (go_on names b l room f q d h) < weight h)%nat →
  recorded bodies most (go_on names b l room f q d h).
Proof.
  intros [Hb Hr Hl] Hp Hw. constructor.
  - cbn [go_on pipes]. by rewrite length_alter.
  - intros name r. cbn [go_on answered]. unfold noted.
    assert (ReadFile name r ∈ answered h ++ [ReadFile (names b) room] →
      ∃ b, (b < bodies)%nat ∧ name = names b) as Hnew.
    { intros [Hin|[= -> ->]%list_elem_of_singleton]%elem_of_app; [by eapply Hr|].
      exists b. split; [|done]. rewrite <- Hb. by eapply lookup_lt_Some. }
    destruct d.1; cbn [fst]; eauto.
  - assert (length (answered (go_on names b l room f q d h)) ≤ S (length (answered h)))%nat.
    { cbn [go_on answered]. unfold noted. destruct d.1; cbn [fst]; rewrite ?length_app; simpl; lia. }
    lia.
Qed.

(** Any other step notes no read. *)
Lemma others_recorded bodies most h h' rs :
  recorded bodies most h → length (pipes h') = length (pipes h) →
  answered h' = answered h ++ rs → (∀ name r, ReadFile name r ∉ rs) → (length rs ≤ 1)%nat →
  (weight h' < weight h)%nat → recorded bodies most h'.
Proof.
  intros [Hb Hr Hl] Hp Ha Hrs Hone Hw. constructor.
  - by rewrite Hp.
  - intros name r. rewrite Ha. intros [Hin|Hin]%elem_of_app; [by eapply Hr|by destruct (Hrs _ _ Hin)].
  - rewrite Ha, length_app. lia.
Qed.

Lemma step_recorded bodies most h h' :
  harvest_step claiming names h h' → coherent h → recorded bodies most h → recorded bodies most h'.
Proof.
  intros Hst Hc Hrec. pose proof (step_lighter _ _ _ _ Hst Hc) as Hw.
  assert (∀ rs, answered h' = answered h ++ rs → length (pipes h') = length (pipes h) →
    (∀ name r, ReadFile name r ∉ rs) → (length rs ≤ 1)%nat → recorded bodies most h') as Hother.
  { intros rs Ha Hp Hrs Hone. by eapply others_recorded. }
  destruct Hst as [h b q Hd Hq|h t n v q Hd Hq|h t q Hd Hq|h Hd Hq Hall|h o fin Hd|h o Hd
    |h b hd off chunk l p Hd Hp Hslot Hg|h b hd off chunk l p Hd Hp Hg|h b item l p Hd Hp Hslot Hg
    |h b item l p Hd Hp Hg|h t o b s p Ho Hs Hp Ha Hg Hov|h t o b s p Ho Hs Hp Ha Hg Hov
    |h t o b s p x Ho Hs Hp Hx Hg|h t o b s p Ho Hs Hp Ha Hslot Hg Hsd|h t o b s Ho Hs
    |h t o n v s Ho Hs Hw'|h t o n v s Ho Hs Hov|h t o s Ho Hs Hw'|h t o s Ho Hs Hov];
    try (by eapply go_on_recorded);
    try (apply (Hother []); [by rewrite (right_id_L [] (++))|cbn [owner_step pipes]; by rewrite ?length_alter
                            |by intros ? ? ?%elem_of_nil|simpl; lia]).
  - assert (over h = false) as Hov by (unfold over; by rewrite Hd).
    destruct (ask_read _ (co_asks _ Hc Hov) b) as (p & Hp & _); [left; rewrite Hq; left|].
    by eapply go_on_recorded.
  - apply (Hother [Told (names n) v]); unfold answer_told;
      [by destruct (claiming_told _ _ _ _) as [[]]|by destruct (claiming_told _ _ _ _) as [[]]
      |by intros ? ? ?%list_elem_of_singleton|done].
  - apply (Hother [Finish]); [done|done|by intros ? ? ?%list_elem_of_singleton|done].
Qed.

Lemma steps_recorded bodies most h h' :
  rtc (harvest_step claiming names) h h' → coherent h → recorded bodies most h →
  recorded bodies most h'.
Proof. induction 1; eauto using step_recorded, step_coherent. Qed.

Lemma steps_tell f h h' :
  rtc (harvest_step claiming names) h h' → (tells names f h' ≤ tells names f h)%nat.
Proof. induction 1 as [|h0 h1 h2 Hst _ IH]; [done|]. by rewrite IH, step_tells. Qed.

(** ** What the scripts set out to tell *)

(** The arrivals told of, by their place, with the verdict, over all the
    owners. *)
Definition place_told (a : Act) : option (nat * option Verdict) :=
  match a with Tell n v => Some (n, v) | _ => None end.
Definition told_by (scripts : list (list Act)) : list (nat * option Verdict) :=
  concat ((λ acts : list Act, omap place_told acts) <$> scripts).

Lemma start_tells f s bodies scripts :
  tells names f (start_harvest s bodies scripts)
  = sum_list_with (λ x, f (names x.1) x.2) (told_by scripts).
Proof.
  unfold tells, start_harvest, told_by. cbn [answered queue owners]. simpl.
  induction scripts as [|acts scripts IH]; [done|]. csimpl. rewrite sum_list_with_app, <- IH. f_equal.
  unfold owner_tells. cbn [waiting script owner_of].
  induction acts as [|[] acts IHa]; csimpl; [done|..]; rewrite ?IHa; done.
Qed.

(** What was answered is no more than what the scripts say. *)
Lemma answered_tells f s bodies scripts h :
  rtc (harvest_step claiming names) (start_harvest s bodies scripts) h →
  (sum_list_with (request_tells f) (answered h)
   ≤ sum_list_with (λ x, f (names x.1) x.2) (told_by scripts))%nat.
Proof. intros Hr%(steps_tell f). rewrite start_tells in Hr. unfold tells in Hr. lia. Qed.

Lemma told_counts f rs name v :
  Told name v ∈ rs → (f name v ≤ sum_list_with (request_tells f) rs)%nat.
Proof.
  intros Hin. induction rs as [|r rs IH]; [by apply elem_of_nil in Hin|].
  apply elem_of_cons in Hin as [<-|Hin]; simpl; [lia|]. specialize (IH Hin). lia.
Qed.

Lemma verdicts_count f rs :
  (sum_list_with (λ x, f x.1 x.2) (verdicts rs) ≤ sum_list_with (request_tells f) rs)%nat.
Proof. induction rs as [|[] rs IH]; simpl; lia. Qed.
End record.

(** How often a value is among them. *)
Definition is_at `{EqDecision A} (x y : A) : nat := if decide (y = x) then 1 else 0.

Lemma count_NoDup `{EqDecision A} (l : list A) :
  (∀ x, (sum_list_with (is_at x) l ≤ 1)%nat) → NoDup l.
Proof.
  induction l as [|y l IH]; [constructor|]. intros Hl. constructor.
  - intros Hin. specialize (Hl y). simpl in Hl. unfold is_at in Hl at 1. rewrite decide_True in Hl by done.
    enough (1 ≤ sum_list_with (is_at y) l)%nat by lia. clear -Hin.
    induction l as [|z l IH]; [by apply elem_of_nil in Hin|].
    apply elem_of_cons in Hin as [<-|Hin]; simpl; [|specialize (IH Hin); lia].
    unfold is_at at 1. rewrite decide_True by done. lia.
  - apply IH. intros x. specialize (Hl x). simpl in Hl. lia.
Qed.

Lemma NoDup_count `{EqDecision B} {A} (g : A → B) (l : list A) x :
  NoDup l → (∀ a b, a ∈ l → b ∈ l → g a = g b → a = b) → (sum_list_with (is_at x ∘ g) l ≤ 1)%nat.
Proof.
  induction l as [|a l IH]; [simpl; lia|]. intros [Ha Hl]%NoDup_cons Hg. simpl. unfold is_at at 1.
  assert (sum_list_with (is_at x ∘ g) l ≤ 1)%nat as Hle.
  { apply IH; [done|]. intros b c Hb Hc. apply Hg; by right. }
  case_decide as Hx; [|lia]. enough (sum_list_with (is_at x ∘ g) l = 0)%nat by lia.
  assert (∀ b, b ∈ l → g b ≠ x) as Hne.
  { intros b Hb Hgb. apply Ha. rewrite (Hg a b); [done|left|by right|congruence]. }
  clear -Hne. induction l as [|b l IH]; [done|]. simpl. rewrite IH by (intros c Hc; apply Hne; by right).
  unfold is_at. rewrite decide_False; [done|]. apply Hne. left.
Qed.

Lemma sum_fmap {A B} (g : B → nat) (f : A → B) l :
  sum_list_with g (f <$> l) = sum_list_with (λ x, g (f x)) l.
Proof. induction l; csimpl; congruence. Qed.

Lemma sum_positive {A} (f : A → nat) l :
  (1 ≤ sum_list_with f l)%nat → ∃ x, x ∈ l ∧ (1 ≤ f x)%nat.
Proof.
  induction l as [|x l IH]; simpl; [lia|]. intros Hl. destruct (decide (1 ≤ f x)%nat).
  - exists x. split; [left|done].
  - destruct IH as (y & Hy & ?); [lia|]. exists y. split; [by right|done].
Qed.

(** ** The files of a harvest among its arrivals *)
Section settles.
Local Open Scope N_scope.
Context `{!Platform, !TransportErrors, !Codec, !CodecLaws, !Net, !NetLaws, !Ssh, !Keys, !SshClient,
          !Claims}.
Context {R : relation Directory} `{!Served R, !ClaimLaws}.
#[local] Existing Instance verdict_eq_dec.
Context (claiming : Claiming).

(** The claimed names, by an arrival's place. *)
Definition named (ts : list Taken) (b : nat) : string :=
  match ts !! b with Some t => taken_claimed t | None => "" end.

Lemma named_in ts b : (b < length ts)%nat → named ts b ∈ taken_claimed <$> ts.
Proof.
  intros [t Ht]%lookup_lt_is_Some. unfold named. rewrite Ht.
  apply list_elem_of_fmap_2. by eapply list_elem_of_lookup_2.
Qed.

Lemma named_apart ts b b' :
  NoDup (taken_claimed <$> ts) → (b < length ts)%nat → (b' < length ts)%nat →
  named ts b = named ts b' → b = b'.
Proof.
  intros Hnd [t Ht]%lookup_lt_is_Some [t' Ht']%lookup_lt_is_Some. unfold named. rewrite Ht, Ht'.
  intros Heq. apply (NoDup_lookup (taken_claimed <$> ts) b b' (taken_claimed t)); [done|..];
    rewrite list_lookup_fmap; [by rewrite Ht|by rewrite Ht', Heq].
Qed.

(** Scripts that tell of each arrival once at the most. *)
Record told_once (bodies : nat) (scripts : list (list Act)) : Prop := {
  once_within : Forall (λ n, (n < bodies)%nat) (told_by scripts).*1;
  once_apart : NoDup (told_by scripts).*1;
}.

(** What was told is what some script tells. *)
Lemma told_from ts s scripts h name v :
  rtc (harvest_step claiming (named ts)) (start_harvest s (length ts) scripts) h →
  Told name v ∈ answered h → ∃ n, (n, v) ∈ told_by scripts ∧ name = named ts n.
Proof.
  intros Hr Hin.
  pose proof (told_counts (λ c w, is_at (name, v) (c, w)) _ _ _ Hin) as Hc.
  rewrite (answered_tells claiming _ _ _ _ _ _ Hr) in Hc.
  unfold is_at in Hc at 1. rewrite decide_True in Hc by done.
  apply sum_positive in Hc as ([n w] & Hn & Hx). unfold is_at in Hx. case_decide as Heq; [|lia].
  simplify_eq/=. eauto.
Qed.

Lemma harvest_record ts s scripts h :
  NoDup (taken_claimed <$> ts) → told_once (length ts) scripts →
  rtc (harvest_step claiming (named ts)) (start_harvest s (length ts) scripts) h →
  Forall (about ts) (answered h) ∧ NoDup (verdicts (answered h)).*1
  ∧ (length (answered h) ≤ weight (start_harvest s (length ts) scripts))%nat.
Proof.
  intros Hnd [Hin Hapart] Hr.
  destruct (steps_recorded claiming (named ts) (length ts) (weight (start_harvest s (length ts) scripts))
              _ _ Hr (start_coherent _ _ _)) as [_ Hreads Hlen].
  { constructor; cbn [pipes start_harvest answered]; [by rewrite length_replicate| |simpl; lia].
    by intros ? ? ?%elem_of_nil. }
  rewrite Forall_forall in Hin. split; [|split; [|lia]].
  - apply Forall_forall. intros [name r|name v|] Hreq; [| |done]; cbn.
    + destruct (Hreads _ _ Hreq) as (b & Hb & ->). by apply named_in.
    + destruct (told_from _ _ _ _ _ _ Hr Hreq) as (n & Hn & ->). apply named_in, Hin.
      by apply (list_elem_of_fmap_2 fst) in Hn.
  - apply count_NoDup. intros name.
    pose proof (answered_tells claiming (named ts) (λ c _, is_at name c) _ _ _ _ Hr) as Hle.
    pose proof (verdicts_count (λ c _, is_at name c) (answered h)) as Hv.
    rewrite sum_fmap, Hv, Hle.
    enough (sum_list_with (is_at name ∘ named ts) (told_by scripts).*1 ≤ 1)%nat as Hone
      by (by rewrite sum_fmap in Hone).
    apply NoDup_count; [done|]. intros b b' Hb Hb'. by apply named_apart; [|apply Hin..].
Qed.

(** The thread over, its record settles every file. *)
Lemma harvest_settles before d0 ts s far scripts h :
  taken_from (R:=R) before d0 ts →
  Forall (λ t, dropped_from (taken_claimed t) = taken_dropped t ∧ name_short (taken_dropped t)) ts →
  linked s far → directory far = d0 → next far < 2 ^ 32 →
  told_once (length ts) scripts →
  N.of_nat (weight (start_harvest s (length ts) scripts)) < 2 ^ 63 →
  rtc (harvest_step claiming (named ts)) (start_harvest s (length ts) scripts) h → over h = true →
  ∃ finished far' n, doing h = Ended_with (Ok finished) ∧ linked (sftp h) far'
    ∧ (∀ fuel log, (n ≤ fuel)%nat → answering fuel claiming (answered h) (s, log)
                                      = (Ok finished, (sftp h, log ++ said h)))
    ∧ Forall (as_dropped (lies d0) ts) (said h)
    ∧ ∀ t, t ∈ ts → fate (R:=R) d0 (directory far') (verdict_on (answered h) !! taken_claimed t) t.
Proof.
  intros Htaken Hnames Hl <- Hn Honce Hw Hr Hover.
  destruct (harvest_record ts s scripts h (taken_apart _ _ _ Htaken) Honce Hr) as (Hab & Hnd & Hlen).
  assert (∃ o, doing h = Ended_with o) as [o Ho].
  { unfold over in Hover. destruct (doing h); try done. by eexists. }
  destruct (steps_answer claiming (named ts) s (length ts) scripts h o Hr Ho) as [n Ha].
  set (fuel := (n + N.to_nat (MAX_BODY + 1))%nat).
  destruct (answering_settles before (directory far) ts Htaken Hnames fuel claiming (answered h) ∅ s far [])
    as (b & said' & s' & f' & Hans & Hl' & Hin & Hf); [unfold fuel; lia|done|unfold u64_max; lia|done|done|done| |].
  { intros t Ht. rewrite lookup_empty. split; [done|]. intros HR. by apply Htaken. }
  rewrite Ha in Hans by (unfold fuel; lia). injection Hans as -> <- <-.
  exists b, f', n. do 2 (split; [done|]). split; [intros fuel' log Hle; by apply answering_log, Ha|].
  split; [done|]. intros t Ht. specialize (Hf t Ht). by rewrite (right_id_L ∅ (∪)) in Hf.
Qed.

(** *** Over a connection of its own *)
Context `{!Reaches R}.

(** C5: a harvest among its arrivals loses no file.  A harvest over a kept
    connection claims files and hands its arrivals to any number of threads,
    which read, let go and tell of them, each told of once at the most, in
    whatever order the threads run.  Once the harvest's thread is past its last
    request, it is past it [Ok]: all it said was the dropped files' bodies, in
    order and from their beginning, or errors, and [Ok] for each verdict; what it
    was told is what the threads tell; the connection is given back before the
    word that it is, on the line the thread was lent from; and each file dropped that nobody else touches is whole in
    one place, by what was told of it: still under its claimed name, gone, or back
    under the name it was dropped under. *)
Theorem arrivals_lose_nothing most conn d :
  reaches conn d → wf_directory d →
  (∃ e, ∀ fuel requests,
    harvesting fuel claiming most requests conn = ([Set_line false; Listed (Err e)], Broken))
  ∨ (∃ conn' d', reached conn' d' ∧ wf_directory d' ∧ ∀ fuel requests,
      harvesting fuel claiming most requests conn
        = ([Set_line true; Listed (Ok [])], Here conn'))
  ∨ ∃ ts s, ts ≠ [] ∧ N.of_nat (length ts) ≤ most ∧ ∀ scripts h,
    told_once (length ts) scripts →
    N.of_nat (weight (start_harvest s (length ts) scripts)) < 2 ^ 63 →
    rtc (harvest_step claiming (named ts)) (start_harvest s (length ts) scripts) h → over h = true →
    ∃ finished conn' d' n, doing h = Ended_with (Ok finished) ∧ lent h = Here conn'
      ∧ reached conn' d' ∧ wf_directory d'
      ∧ (∀ fuel, (n ≤ fuel)%nat → harvesting fuel claiming most (answered h) conn
          = (Listed (Ok ts) :: said h ++ Set_line true :: (if finished : bool then [Finished] else []),
             Here conn'))
      ∧ Forall (as_dropped (λ t c, keeps R (taken_dropped t) →
                              files d !! taken_dropped t = Some c) ts) (said h)
      ∧ (∀ name v, Told name v ∈ answered h → ∃ b, (b, v) ∈ told_by scripts ∧ name = named ts b)
      ∧ Forall (λ t, settled (R:=R) d d' (verdict_on (answered h) !! taken_claimed t) t) ts.
Proof.
  intros Hr Hd.
  destruct (harvest_begins claiming most conn d Hr Hd)
    as [?|[?|(ts & d0 & s1 & f1 & Hne & H0d & Hl1 & Hn1 & Hmost & Htaken & Hnames & Hend)]];
    [by left|by right; left|right; right].
  exists ts, s1. do 2 (split; [done|]). intros scripts h Honce Hw Hrun Hover.
  destruct (harvest_settles d0 (directory f1) ts s1 f1 scripts h)
    as (b & f2 & n & Ho & Hl2 & Ha & Hin & Hf); [done..|].
  destruct (Hend _ _ Hl2) as (conn' & d' & HR' & Hr' & Hd' & (c & Hc & Hcc) & Hh).
  pose proof (steps_line _ _ _ _ _ _ Hrun) as Hline. unfold line_kept in Hline. rewrite Ho in Hline.
  unfold given_back in Hline. rewrite Hc, Hcc in Hline.
  exists b, conn', d', n. do 4 (split; [done|]). split; [|split; [|split]].
  - intros fuel Hle. apply Hh. by rewrite (Ha fuel [Listed (Ok ts)] Hle).
  - by eapply as_dropped_before.
  - intros name v Hin'. by eapply told_from.
  - apply Forall_forall. intros t Ht. eapply fate_settled; eauto.
Qed.
End settles.

(** ** Witness *)
Module Witnesses.
Import Reference.Instances Loopback.Instances FarProperties.Witnesses ClientProperties.Witnesses.
Import ConnectProperties.Witnesses Receives.Witnesses.
#[local] Existing Instances loop_client loop_reaches one_claim one_laws.
Local Open Scope N_scope.

(** An arrival let go after a piece and returned, and another owner with
    nothing to do. *)
Definition ex_owners : list (list Act) := [[Take 0; Let_go 0; Tell 0 None; Finishing]; []].

Lemma ex_owners_disciplined bodies : (0 < bodies)%nat → disciplined bodies ex_owners.
Proof.
  intros Hb. constructor.
  - intros [|[|t]] acts [= <-]; cbn; try done; split_and!; try done; try (by left); try (by right);
      apply not_elem_of_nil.
  - intros [|[|t]] acts b [= <-]; cbn; intros Hin;
      repeat (apply elem_of_cons in Hin as [->|Hin]; [done|]); by apply elem_of_nil in Hin.
  - intros [|[|t]] [|[|t']] acts acts' b [= <-] [= <-]; cbn; intros Hin Hin'; try done;
      by apply elem_of_nil in Hin || apply elem_of_nil in Hin'.
Qed.

Lemma ex_owners_once bodies : (0 < bodies)%nat → told_once bodies ex_owners.
Proof. intros Hb. constructor; cbn; [by repeat constructor|apply NoDup_singleton]. Qed.

Lemma ex_owners_weight (s : Sftp) bodies :
  weight (start_harvest s bodies ex_owners) = (7 * bodies + 20)%nat.
Proof.
  unfold weight. cbn [start_harvest doing queue pipes owners].
  assert (sum_list_with pipe_weight (replicate bodies fresh_pipe) = 7 * bodies)%nat as ->.
  { induction bodies as [|n IH]; [done|]. simpl. cbn in IH. lia. }
  cbn. lia.
Qed.

Lemma arrivals_lose_nothing_witness :
  ∃ ts h finished conn' d' n, doing h = Ended_with (Ok finished) ∧ lent h = Here conn'
    ∧ (∀ fuel, (n ≤ fuel)%nat → harvesting fuel ex_claiming 8 (answered h) ex_conn
        = (Listed (Ok ts) :: said h ++ Set_line true :: (if finished : bool then [Finished] else []),
           Here conn'))
    ∧ Forall (λ t, settled (R:=eq) ex_directory d' (verdict_on (answered h) !! taken_claimed t) t) ts.
Proof.
  destruct (arrivals_lose_nothing ex_claiming 8 ex_conn ex_directory)
    as [[e He]|[(conn' & d' & _ & _ & He)|(ts & s & Hne & Hlen & Hall)]].
  - reflexivity.
  - exact ex_directory_wf.
  - pose proof (ex_lists 0) as Hl. rewrite (He 0%nat []) in Hl. discriminate Hl.
  - pose proof (ex_lists 0) as Hl. rewrite (He 0%nat []) in Hl. discriminate Hl.
  - assert (0 < length ts)%nat as Hpos by (destruct ts; [done|simpl; lia]).
    destruct (finishes ex_claiming (named ts) (S (weight (start_harvest s (length ts) ex_owners)))
                (start_harvest s (length ts) ex_owners)) as (h & Hr & Hover & _);
      [lia|apply start_coherent|by apply start_in_order, ex_owners_disciplined|].
    destruct (Hall ex_owners h) as (finished & conn' & d' & n & Ho & Hline & _ & _ & Hh & _ & _ & Hs);
      [by apply ex_owners_once|rewrite ex_owners_weight; lia|exact Hr|exact Hover|].
    exists ts, h, finished, conn', d', n. exact (conj Ho (conj Hline (conj Hh Hs))).
Defined.
End Witnesses.
